(* ===== verification/_CoqProject ===== *)
-Q . S2P
Overview.v
Prelude.v
Crypto.v
Constants.v
Transaction.v
Block.v
StateRoot.v
Difficulty.v
HistoricalVpow.v
VisionX.v
VisionXMiner.v
Sled.v
ChainState.v
Storage.v
Snapshots.v
Reward.v
Job.v
Reorg.v
Orphan.v
Zeros.v
Consistency.v
Genesis.v
Accept.v
Accounts.v
Acceptance.v
Consensus.v
Rules.v
Rooted.v
Manager.v
Admission.v
Pool.v
Mempool.v
Heaviest.v
DbIndep.v
Net.v
Protocol.v
Peers.v
Sessions.v
Recovery.v
World.v
Connection.v
Sync.v
Services.v
Api.v
Http.v
Production.v
Gate.v
Download.v
Keeps.v
System.v
CatchUp.v
Convergence.v
Bootstrap.v
Restart.v
FirstRun.v
Supply.v
Restore.v
Settings.v
DataDir.v
PeerStore.v
Readiness.v
Launch.v
Lifecycle.v
