(* ===== verification/Overview.v ===== *)
(** * Vision-Core: a verification library

    This library models the node of the repository, a proof-of-work chain
    with an account state, a mempool, a peer-to-peer network, a miner and an
    HTTP API (package [src/], Rust sources under [src/src/]; the paths below
    are relative to that directory).  Every Rust function of the modelled parts
    is a Rocq function of the same name, executable, with the source's order of
    checks and writes.  The theorems say what makes each part correct, and what
    it does where it is not.

    ** How the code is represented

    - Bytes are [list byte], machine integers are [Z] with the wrap-around,
      saturation or checked failure of the source written out ([Prelude]),
      strings are [string], [BTreeMap]s and the [HashMap]s that are never
      iterated are [gmap]s.  Where a [HashMap] is iterated, the model takes the
      key order, and the definition says what depends on it.
    - [Result] is [result]; code that may panic runs in [run], whose values are
      [Done], [Panic] (a failed [expect], an index out of range) and [NoFuel].
      Fuel bounds only recursions whose length the data bounds: the walk to the
      fork point and the side-block walk by the number of side blocks
      ([Reorg.ancestry_fuel]), orphan promotion by the number of orphans
      ([Accept.apply_block]), the eviction loop of the dataset cache by its
      size, reading a stream by the messages left in it.
      [Consensus.apply_block_total], [Download.fetch_branch_ends] and the lemmas
      of [Acceptance] and [VisionX] show that this fuel is enough.  The endless
      loops (mining, dialling a peer, a session) take the number of their
      turns, and draining a session's queue, which other tasks fill meanwhile,
      the number of its passes.
    - Stateful code passes its state explicitly: [stm] for code that may fail
      midway with writes done, and [act] ([World]) for the asynchronous tasks.
      There one lock section is one atomic step, and before each of them other
      tasks may have changed the shared state in any way the task's list of
      interferences says.
    - Third-party code is a type class of the calls the program makes, with a
      second class of the documented laws the proofs use: blake3, hex and
      ed25519 ([Crypto], [CryptoLaws]), bincode and serde_json of transactions
      ([TxCodec], [TxCodecLaws]), of stored values ([StoreCodec],
      [StoreCodecLaws]) and of the wire ([WireCodec]), the database [sled]
      ([Sled], [SledLaws], and [SledReliable] where writes do not fail).  Each
      has a concrete instance ([toy_crypto], [toy_sled], ...) on which the
      witnesses are evaluated.

    ** The parts, from the bottom up

    _Data and cryptographic commitments._  [Transaction]
    ([types/transaction.rs]): identifiers, stateless checks, execution;
    [Block] ([types/header.rs], [types/block.rs]): header bytes and transaction
    root; [StateRoot] ([chain/state_root.rs]): the account vector.  Theorems:
    the encodings are injective, execution never mints and never replays, its
    success is characterised exactly.

    _Proof of work._  [Difficulty] ([pow/difficulty.rs]), [HistoricalVpow]
    ([pow/historical_vpow.rs]), [VisionX] ([pow/visionx.rs]) and [VisionXMiner]
    ([pow/visionx_miner.rs]).  Theorems: bounds of the retarget and where they
    fail, what the preimage commits to, the digest never indexes out of
    range and does not depend on the bounded dataset cache, the nonce search
    finds the first solution.

    _The chain._  [ChainState] ([chain/state.rs]) is the state; [Storage]
    ([chain/storage.rs]) and [Snapshots] ([chain/snapshots.rs]) its database;
    [Reward] and [Job] ([miner/job.rs]), [Reorg] ([chain/reorg.rs]), [Orphan]
    ([chain/orphan.rs]), [Genesis] ([genesis/genesis.rs]) and [Accept]
    ([chain/accept.rs]) its operations, put together by [Accept.apply_block],
    the single entry point for blocks.  Their theory is in [Consistency] (the
    invariant, relative to a numbering of hashes by height), [Acceptance] (the
    consensus rules as a predicate, the outcomes as a relation and the
    refinement between the two), [Consensus] (the theorems: totality, exact
    rules, fork choice, rejection without trace, caches), [Rules] (every block
    held satisfies the rules of its own branch and executes on it), [Rooted] (the genesis block and
    the database's marker stay), [Heaviest] (the canonical chain is a heaviest
    branch).  Accounts count up to zero entries, which execution does not tell
    apart ([Zeros]): [Accounts] is the interface through which acceptance uses
    them, the invariant of [Consistency] ties them to the replay of the chain up
    to that equivalence, and [DbIndep] shows that decisions depend on neither
    the database nor zero entries (a simulation over the interfaces
    [AccountEquiv] and [DbSim]).  [Supply]: types of the accounts, money supply.

    _Start-up._  [Bootstrap] ([node/bootstrap.rs]) opens the state the services
    start with: [FirstRun] shows what it makes of an empty database, [Restart]
    that the rebuild from genesis recovers the chain and the accounts, [Restore] that
    a restored snapshot and the replay above it do, up to zero entries, so that
    no sequence of blocks tells the restarted node from one that holds the exact
    accounts.  [Settings] ([config/settings.rs]) and [Readiness]
    ([node/readiness.rs]) are the configuration and the start-up phases.
    [DataDir] is the check of the data directory over a model of the file
    system, and [Launch] ([main.rs]) the whole way from [main] to the serving
    node, over a record [Launch.Machine] of what the process finds around it.
    [Lifecycle] puts starts and runs together: a life is a start and then any
    steps of the running node, and the next one starts on the database it left.
    Theorems: the checks create nothing but the configured directory and leave
    no probe in it; after any number of lives, the next start serves the
    stored chain.

    _Mining and the mempool._  [Manager] ([miner/manager.rs]): a solved
    candidate extends the tip; [Admission] and [Pool] ([mempool/]): the policy
    and the pool; [Mempool]: the pool refines a list of bids, oldest first, with
    one per sender and nonce, and requeueing after a reorganisation gives every
    returning transaction its verdict.

    _The network._  [Net] is the part of [std::net] in use; [Protocol]
    ([p2p/protocol.rs], [p2p/messages.rs]), [Peers] ([p2p/peer_manager.rs]),
    [PeerStore] ([p2p/peer_store.rs]), [Sessions] and [Connection]
    ([p2p/connection.rs]), [Recovery] ([node/recovery.rs]), [Sync]
    ([p2p/sync.rs]).  Theory: [Download] (the fuel of a download is enough),
    [Sessions] (the life cycle of sessions as a transition system, in which a
    registration takes its generation and inserts its session in two steps and
    dialling tasks may mark any peer disconnected), [Gate] (what an inbound peer can do, with a program
    logic of triples for [act]), [CatchUp] (catching up with a peer that serves
    a heavier branch adopts it) and [Convergence] (the same with the peer's own
    code in its place: the catch-up of one node against the inbound handler of
    another, round by round, until the conversation ends).

    _The running node._  [World] is the shared state and the monad of tasks;
    [Services] ([node/services.rs]) one turn of each task; [Api] ([api/]) the
    requests that submit, credit and mine, [Http] the route table and the
    handlers that read; [Production] the miner over a pool that holds a
    transaction no block can contain.  [Keeps] is the invariant of the shared
    state with a judgement for code that keeps it under interference, and
    [System] the step relation of the running node: a step is one turn of any
    task, whose lock sections are interleaved with any further steps of the
    others.  Its theorem: no reachable state breaks the invariant, no turn
    panics, and every turn but a session's ends.

    ** How the parts interact

    A block reaches [Accept.apply_block] from the miner
    ([Manager.submit_block], [Services.mining_turn]), from the importer of
    announced blocks ([Services.import_announced_blocks], fed by
    [Connection.handle_inbound] and [Services.session_turn]) or from a catch-up
    ([Sync.import_fetched_blocks]); all of them hold the chain lock for the
    whole call.  Acceptance calls execution ([Transaction]), the proof of work
    and the retarget, then extends the chain, stores a side block or calls
    [Reorg.try_reorg]; every change of the canonical chain is persisted
    ([Storage]), and periodically a snapshot is written.  Transactions enter
    the pool through [Api.submit_transaction], leave it through the candidates
    of [Manager.build_candidate] or by being confirmed, and return to it after
    a reorganisation.  Sessions and the peer registry are kept in step by the
    connection handlers and the dialling supervisor; the summaries they
    exchange drive synchronisation and the recovery state that pauses mining.

    ** What is assumed

    The invariants of the chain hold for blocks whose height agrees with a
    numbering of hashes by height ([Consistency]), because the code does not check
    heights; [Consensus.unchecked_height_panics] shows what happens otherwise.
    A node that was started on an empty database does not count the genesis
    block in its work map until its next start, so the theorems on fork choice
    and on the heaviest branch are for nodes that do ([Heaviest.counted]); the
    invariants of [System] and [Lifecycle] cover both.
    A restored snapshot is only as good as the state root that vouches for it:
    [Restore.snapshots_bound] says what that needs of the database, among it
    that there is no snapshot of height 0, which the code installs unchecked.
    That a peer is connected exactly while it has a session needs that no two
    registrations of the peer overlap ([Sessions.orderly_step]); what happens
    otherwise is [Sessions.overlapping_registrations_leave_peer_connected].
    The refinement of the mempool needs identifiers that do not collide.
    Theorems that need collision resistance, a round trip of an encoding, or a
    database whose writes succeed name the law as a hypothesis.

    ** What is not modelled

    Log output and the texts of diagnostics and of error messages that no code
    inspects; the operating system's side of sockets and timers (which
    connections arrive, when a turn is taken, are inputs); a stop of the process
    between two writes of one critical section (it stops between turns); JSON
    and the matching of the HTTP framework; reading half a frame before a [select!]
    drops the read (the model reads whole frames); symbolic links in the data
    directory; the contents of [blake3], [ed25519], [bincode] and [sled].  The
    modules compiled for tests are left out, except the start-up phases that
    the repository's tests document. *)
