(* ===== verification/Prelude.v ===== *)
(** * Prelude

    What every component shares: fallible computations and state passing,
    machine integers, bytes and strings, the iteration order of the standard
    maps, generic list lemmas, transition sequences and proof automation. *)
From Stdlib Require Export ZArith Lia.
From Stdlib Require Export Strings.Byte Strings.Ascii Strings.String.
From stdpp Require Export base gmap strings list fin_maps sorting pretty.
#[global] Open Scope Z_scope.
#[global] Set Default Goal Selector "!".

(** ** Fallible computations

    [result E A] is Rust's [Result<A, E>]; the bind is the [?] operator. *)
Inductive result (E A : Type) : Type :=
| Ok (a : A)
| Err (e : E).
Arguments Ok {E A} a.
Arguments Err {E A} e.

#[export] Instance result_ret E : MRet (result E) := λ A a, Ok a.
#[export] Instance result_bind E : MBind (result E) :=
  λ A B f r, match r with Ok a => f a | Err e => Err e end.

(** [Result::map_err]. *)
Definition map_err {E F A} (f : E → F) (r : result E A) : result F A :=
  match r with Ok a => Ok a | Err e => Err (f e) end.

(** [Option::ok_or]. *)
Definition ok_or {E A} (e : E) (o : option A) : result E A :=
  match o with Some a => Ok a | None => Err e end.

(** [Result::ok]. *)
Definition res_ok {E A} (r : result E A) : option A :=
  match r with Ok a => Some a | Err _ => None end.

Definition is_ok {E A} (r : result E A) : bool :=
  match r with Ok _ => true | Err _ => false end.
Lemma is_ok_true {E A} (r : result E A) : is_ok r = true → ∃ a, r = Ok a.
Proof. destruct r; [eauto|done]. Qed.

Lemma Ok_inj {E A} (a b : A) : @Ok E A a = Ok b → a = b.
Proof. by intros [= ->]. Qed.

Lemma bind_Ok {E A B} (r : result E A) (f : A → result E B) b :
  (r ≫= f) = Ok b ↔ ∃ a, r = Ok a ∧ f a = Ok b.
Proof. destruct r; naive_solver. Qed.

Lemma map_err_Ok {E F A} (f : E → F) (r : result E A) a :
  map_err f r = Ok a ↔ r = Ok a.
Proof. destruct r; naive_solver. Qed.

(** Runs of code that may panic (a Rust [panic!], a failed [expect] or an
    out-of-range index) or, for the recursions the model bounds by fuel, run
    out of fuel. *)
Inductive run (A : Type) : Type :=
| Done (a : A)
| Panic
| NoFuel.
Arguments Done {A} a.
Arguments Panic {A}.
Arguments NoFuel {A}.

#[export] Instance run_ret : MRet run := λ A a, Done a.
#[export] Instance run_bind : MBind run :=
  λ A B f r, match r with Done a => f a | Panic => Panic | NoFuel => NoFuel end.

#[export] Instance run_fmap : FMap run :=
  λ A B f r, match r with Done a => Done (f a) | Panic => Panic | NoFuel => NoFuel end.

Lemma run_bind_Done {A B} (r : run A) (f : A → run B) b :
  (r ≫= f) = Done b ↔ ∃ a, r = Done a ∧ f a = Done b.
Proof. destruct r; naive_solver. Qed.

(** Operations that update a state and may fail with an error; what was
    written before the error stays written. *)
Definition stm (S E A : Type) : Type := S → S * result E A.
#[export] Instance stm_ret S E : MRet (stm S E) := λ A a s, (s, Ok a).
#[export] Instance stm_bind S E : MBind (stm S E) := λ A B f m s,
  let '(s', r) := m s in match r with Ok a => f a s' | Err e => (s', Err e) end.
Definition stm_get {S E} : stm S E S := λ s, (s, Ok s).
Definition stm_modify {S E} (f : S → S) : stm S E () := λ s, (f s, Ok ()).
(** A fallible computation that leaves the state alone. *)
Definition stm_lift {S E A} (r : result E A) : stm S E A := λ s, (s, r).

Lemma stm_bind_Ok {S E A B} (m : stm S E A) (f : A → stm S E B) s s' b :
  (m ≫= f) s = (s', Ok b) ↔ ∃ s1 a, m s = (s1, Ok a) ∧ f a s1 = (s', Ok b).
Proof. unfold mbind, stm_bind. destruct (m s) as [s1 [a|e]]; naive_solver. Qed.
Lemma stm_bind_run {S E A B} (m : stm S E A) (f : A → stm S E B) s s1 a :
  m s = (s1, Ok a) → (m ≫= f) s = f a s1.
Proof. unfold mbind, stm_bind. by intros ->. Qed.

Lemma stm_get_bind {S E B} (f : S → stm S E B) s : (stm_get ≫= f) s = f s s.
Proof. done. Qed.
Lemma stm_modify_bind {S E B} (h : S → S) (f : () → stm S E B) s :
  (stm_modify h ≫= f) s = f () (h s).
Proof. done. Qed.
Lemma stm_lift_bind {S E A B} (r : result E A) (f : A → stm S E B) s :
  (stm_lift r ≫= f) s = match r with Ok a => f a s | Err e => (s, Err e) end.
Proof. done. Qed.

(** Rust's slice index [l[i]]: out of range panics. *)
Definition index {A} (l : list A) (i : Z) : run A :=
  match l !! Z.to_nat i with Some a => Done a | None => Panic end.

Lemma index_Done {A} (l : list A) i :
  0 ≤ i < Z.of_nat (length l) → ∃ a, index l i = Done a ∧ l !! Z.to_nat i = Some a.
Proof.
  intros Hi. destruct (lookup_lt_is_Some_2 l (Z.to_nat i)) as [a Ha]; [lia|].
  exists a. unfold index. by rewrite Ha.
Qed.

(** ** Machine integers

    A [u64] (or [usize] on the supported 64-bit targets), [u128], [u32] or
    [u16] is a [Z] in range.  The release profile of the crate has no overflow
    checks, so plain [+], [-], [*] wrap. *)
Definition U16_MAX : Z := 2 ^ 16 - 1.
Definition U32_MAX : Z := 2 ^ 32 - 1.
Definition U64_MAX : Z := 2 ^ 64 - 1.
Definition U128_MAX : Z := 2 ^ 128 - 1.
Definition u64 (z : Z) : Prop := 0 ≤ z ≤ U64_MAX.
Definition u128 (z : Z) : Prop := 0 ≤ z ≤ U128_MAX.

Definition wrap64 (z : Z) : Z := z mod 2 ^ 64.
Definition wrap128 (z : Z) : Z := z mod 2 ^ 128.
Definition wadd64 (a b : Z) : Z := wrap64 (a + b).
Definition wmul64 (a b : Z) : Z := wrap64 (a * b).
Definition wadd128 (a b : Z) : Z := wrap128 (a + b).
Definition sat_sub (a b : Z) : Z := Z.max 0 (a - b).
Definition sat_add64 (a b : Z) : Z := Z.min U64_MAX (a + b).
Definition sat_add128 (a b : Z) : Z := Z.min U128_MAX (a + b).
Definition sat_mul128 (a b : Z) : Z := Z.min U128_MAX (a * b).
Definition checked_add64 (a b : Z) : option Z :=
  if a + b <=? U64_MAX then Some (a + b) else None.
Definition checked_add128 (a b : Z) : option Z :=
  if a + b <=? U128_MAX then Some (a + b) else None.
Definition rotl64 (a n : Z) : Z :=
  wrap64 (Z.lor (Z.shiftl a n) (Z.shiftr a (64 - n))).
Definition rotr64 (a n : Z) : Z := rotl64 a (64 - n).

Lemma wrap64_u64 z : u64 (wrap64 z).
Proof. unfold u64, wrap64, U64_MAX. pose proof (Z.mod_pos_bound z (2 ^ 64)). lia. Qed.
Lemma wrap64_small z : u64 z → wrap64 z = z.
Proof. unfold u64, wrap64, U64_MAX. intros. apply Z.mod_small. lia. Qed.
Lemma wrap128_u128 z : u128 (wrap128 z).
Proof. unfold u128, wrap128, U128_MAX. pose proof (Z.mod_pos_bound z (2 ^ 128)). lia. Qed.
Lemma wrap128_small z : u128 z → wrap128 z = z.
Proof. unfold u128, wrap128, U128_MAX. intros. apply Z.mod_small. lia. Qed.
Lemma checked_add64_Some a b c :
  checked_add64 a b = Some c ↔ c = a + b ∧ a + b ≤ U64_MAX.
Proof. unfold checked_add64. destruct (Z.leb_spec (a + b) U64_MAX); naive_solver lia. Qed.
Lemma checked_add128_Some a b c :
  checked_add128 a b = Some c ↔ c = a + b ∧ a + b ≤ U128_MAX.
Proof. unfold checked_add128. destruct (Z.leb_spec (a + b) U128_MAX); naive_solver lia. Qed.

Lemma u64_lxor a b : u64 a → u64 b → u64 (Z.lxor a b).
Proof.
  unfold u64, U64_MAX. intros Ha Hb.
  assert (0 ≤ Z.lxor a b) by (apply Z.lxor_nonneg; lia).
  destruct (decide (Z.lxor a b = 0)) as [->|Hne]; [lia|].
  enough (Z.lxor a b < 2 ^ 64) by lia.
  apply Z.log2_lt_pow2; [lia|].
  pose proof (Z.log2_lxor a b ltac:(lia) ltac:(lia)) as Hl.
  assert (∀ c, 0 ≤ c ≤ 2 ^ 64 - 1 → Z.log2 c < 64) as Hlog.
  { intros c Hc. destruct (decide (c = 0)) as [->|]; [simpl; lia|].
    apply Z.log2_lt_pow2; lia. }
  pose proof (Hlog a Ha). pose proof (Hlog b Hb). lia.
Qed.

Lemma u64_rotl a n : u64 (rotl64 a n).
Proof. apply wrap64_u64. Qed.
Lemma u64_wmul a b : u64 (wmul64 a b).
Proof. apply wrap64_u64. Qed.
Lemma u64_wadd a b : u64 (wadd64 a b).
Proof. apply wrap64_u64. Qed.

(** The facts that keep machine words in range. *)
Create HintDb word.
#[export] Hint Resolve wrap64_u64 u64_lxor u64_rotl u64_wmul u64_wadd wrap128_u128 : word.

(** Masking with [2^k - 1] gives an index below [2^k]. *)
Lemma land_mask_bound a k : 0 ≤ k → 0 ≤ a → 0 ≤ Z.land a (2 ^ k - 1) < 2 ^ k.
Proof.
  intros Hk Ha. rewrite Z.sub_1_r, <- Z.ones_equiv, Z.land_ones by done.
  apply Z.mod_pos_bound. apply Z.pow_pos_nonneg; lia.
Qed.

(** ** Bytes *)
#[export] Instance byte_eq_dec : EqDecision byte := Byte.byte_eq_dec.

Definition byte_Z (b : byte) : Z := Z.of_N (Byte.to_N b).
Definition Z_byte (z : Z) : byte := default "000"%byte (Byte.of_N (Z.to_N (z mod 256))).

Lemma byte_Z_range b : 0 ≤ byte_Z b < 256.
Proof. unfold byte_Z. pose proof (Byte.to_N_bounded b). lia. Qed.

Lemma Z_byte_Z b : Z_byte (byte_Z b) = b.
Proof.
  unfold Z_byte. pose proof (byte_Z_range b). rewrite Z.mod_small by lia.
  unfold byte_Z. by rewrite N2Z.id, Byte.of_to_N.
Qed.

Lemma byte_Z_byte z : byte_Z (Z_byte z) = z mod 256.
Proof.
  unfold Z_byte, byte_Z. pose proof (Z.mod_pos_bound z 256 ltac:(lia)).
  destruct (Byte.of_N (Z.to_N (z mod 256))) eqn:E; simpl.
  - apply Byte.to_of_N in E. lia.
  - apply Byte.of_N_None_iff in E. lia.
Qed.

#[export] Instance byte_Z_inj : Inj (=) (=) byte_Z.
Proof. intros a b H. by rewrite <- (Z_byte_Z a), H, Z_byte_Z. Qed.

#[export] Instance byte_countable : Countable byte.
Proof. exact (inj_countable' byte_Z Z_byte Z_byte_Z). Defined.

(** [to_le_bytes], [to_be_bytes], [from_le_bytes], [from_be_bytes]. *)
Fixpoint le_bytes (n : nat) (z : Z) : list byte :=
  match n with
  | O => []
  | S n => Z_byte z :: le_bytes n (z / 256)
  end.
Definition be_bytes (n : nat) (z : Z) : list byte := rev (le_bytes n z).
Fixpoint le_val (bs : list byte) : Z :=
  match bs with
  | [] => 0
  | b :: bs => byte_Z b + 256 * le_val bs
  end.
Definition be_val (bs : list byte) : Z := le_val (rev bs).

#[global] Arguments be_bytes : simpl never.
#[global] Arguments be_val : simpl never.

Lemma length_le_bytes n z : length (le_bytes n z) = n.
Proof. revert z. induction n; intros; simpl; auto. Qed.
Lemma length_be_bytes n z : length (be_bytes n z) = n.
Proof. unfold be_bytes. by rewrite length_rev, length_le_bytes. Qed.

Lemma le_val_le_bytes n z :
  0 ≤ z < 256 ^ Z.of_nat n → le_val (le_bytes n z) = z.
Proof.
  revert z. induction n as [|n IH]; intros z Hz; simpl.
  - simpl in Hz. lia.
  - rewrite Nat2Z.inj_succ, Z.pow_succ_r in Hz by lia.
    rewrite byte_Z_byte, IH.
    + pose proof (Z.div_mod z 256). lia.
    + split; [apply Z.div_pos; lia | apply Z.div_lt_upper_bound; lia].
Qed.

Lemma be_val_be_bytes n z :
  0 ≤ z < 256 ^ Z.of_nat n → be_val (be_bytes n z) = z.
Proof. intros. unfold be_val, be_bytes. rewrite rev_involutive. by apply le_val_le_bytes. Qed.

Lemma le_val_bound bs : 0 ≤ le_val bs < 256 ^ Z.of_nat (length bs).
Proof.
  induction bs as [|b bs IH]; simpl length; simpl le_val; [lia|].
  rewrite Nat2Z.inj_succ, Z.pow_succ_r by lia. pose proof (byte_Z_range b). lia.
Qed.

Lemma be_val_bound bs : 0 ≤ be_val bs < 256 ^ Z.of_nat (length bs).
Proof. unfold be_val. rewrite <- (length_rev bs). apply le_val_bound. Qed.

Lemma le_bytes_le_val bs : le_bytes (length bs) (le_val bs) = bs.
Proof.
  induction bs as [|b bs IH]; simpl; [done|].
  pose proof (byte_Z_range b) as Hb.
  assert (Z_byte (byte_Z b + 256 * le_val bs) = b) as ->.
  { apply (inj byte_Z). rewrite byte_Z_byte.
    rewrite Z.mul_comm, Z.mod_add by lia. apply Z.mod_small. lia. }
  f_equal.
  assert ((byte_Z b + 256 * le_val bs) / 256 = le_val bs) as ->; [|done].
  symmetry. apply (Z.div_unique _ _ _ (byte_Z b)); lia.
Qed.

Lemma le_bytes_inj n a b :
  0 ≤ a < 256 ^ Z.of_nat n → 0 ≤ b < 256 ^ Z.of_nat n →
  le_bytes n a = le_bytes n b → a = b.
Proof.
  intros Ha Hb E. rewrite <- (le_val_le_bytes n a), <- (le_val_le_bytes n b) by done.
  by rewrite E.
Qed.

Lemma be_bytes_inj n a b :
  0 ≤ a < 256 ^ Z.of_nat n → 0 ≤ b < 256 ^ Z.of_nat n →
  be_bytes n a = be_bytes n b → a = b.
Proof.
  intros Ha Hb E. apply (le_bytes_inj n); [done..|].
  unfold be_bytes in E. apply (f_equal (@rev byte)) in E.
  by rewrite !rev_involutive in E.
Qed.

(** Rust compares byte slices lexicographically. *)
Fixpoint bytes_leb (a b : list byte) : bool :=
  match a, b with
  | [], _ => true
  | _ :: _, [] => false
  | x :: a, y :: b =>
      if byte_Z x <? byte_Z y then true
      else if byte_Z y <? byte_Z x then false else bytes_leb a b
  end.

(** ** Strings

    A Rust [String] is its UTF-8 byte sequence, here a [string]. *)
Definition string_bytes (s : string) : list byte := list_byte_of_string s.
Definition bytes_string (bs : list byte) : string := string_of_list_byte bs.

Lemma bytes_string_bytes s : bytes_string (string_bytes s) = s.
Proof. apply string_of_list_byte_of_string. Qed.
#[export] Instance string_bytes_inj : Inj (=) (=) string_bytes.
Proof. intros a b H. by rewrite <- (bytes_string_bytes a), H, bytes_string_bytes. Qed.
Lemma length_string_bytes s : length (string_bytes s) = String.length s.
Proof.
  unfold string_bytes. induction s as [|c s IH]; simpl; [done|]. by f_equal.
Qed.

(** [String::from_utf8]: the bytes must be well-formed UTF-8. *)
Definition in_range (lo hi : Z) (b : byte) : bool := (lo <=? byte_Z b) && (byte_Z b <=? hi).
Fixpoint utf8_valid (bs : list byte) : bool :=
  match bs with
  | [] => true
  | b :: bs =>
      if in_range 0 0x7F b then utf8_valid bs
      else match bs with
           | [] => false
           | c :: bs =>
               if in_range 0xC2 0xDF b then in_range 0x80 0xBF c && utf8_valid bs
               else match bs with
                    | [] => false
                    | d :: bs =>
                        if in_range 0xE0 0xEF b then
                          (if byte_Z b =? 0xE0 then in_range 0xA0 0xBF c
                           else if byte_Z b =? 0xED then in_range 0x80 0x9F c
                           else in_range 0x80 0xBF c) &&
                          in_range 0x80 0xBF d && utf8_valid bs
                        else match bs with
                             | [] => false
                             | e :: bs =>
                                 in_range 0xF0 0xF4 b &&
                                 (if byte_Z b =? 0xF0 then in_range 0x90 0xBF c
                                  else if byte_Z b =? 0xF4 then in_range 0x80 0x8F c
                                  else in_range 0x80 0xBF c) &&
                                 in_range 0x80 0xBF d && in_range 0x80 0xBF e && utf8_valid bs
                             end
                    end
           end
  end.
Definition from_utf8 (bs : list byte) : option string :=
  if utf8_valid bs then Some (bytes_string bs) else None.

(** [s.as_bytes().iter().all(p)]. *)
Fixpoint string_forallb (p : ascii → bool) (s : string) : bool :=
  match s with
  | EmptyString => true
  | String c s => p c && string_forallb p s
  end.

Definition ascii_Z (c : ascii) : Z := Z.of_N (Ascii.N_of_ascii c).
(** [matches!(b, b'0'..=b'9' | b'a'..=b'f')]. *)
Definition is_lower_hex_char (c : ascii) : bool :=
  ((48 <=? ascii_Z c) && (ascii_Z c <=? 57)) || ((97 <=? ascii_Z c) && (ascii_Z c <=? 102)).

Definition slen (s : string) : Z := Z.of_nat (String.length s).
(** ["c".repeat(n)]. *)
Fixpoint string_repeat (c : ascii) (n : nat) : string :=
  match n with O => EmptyString | S n => String c (string_repeat c n) end.

Lemma byte_of_ascii_Z c : byte_Z (byte_of_ascii c) = ascii_Z c.
Proof. by destruct c as [[] [] [] [] [] [] [] []]. Qed.

(** ASCII text is well-formed UTF-8. *)
Lemma from_utf8_ascii s :
  string_forallb (λ c, ascii_Z c <=? 127) s = true → from_utf8 (string_bytes s) = Some s.
Proof.
  intros Hs. unfold from_utf8.
  assert (utf8_valid (string_bytes s) = true) as ->; [|by rewrite bytes_string_bytes].
  induction s as [|c s IH]; [done|]. simpl in Hs. apply andb_true_iff in Hs as [Hc Hs].
  change (string_bytes (String c s)) with (byte_of_ascii c :: string_bytes s).
  cbn [utf8_valid]. unfold in_range at 1. rewrite byte_of_ascii_Z, Hc.
  rewrite (proj2 (Z.leb_le _ _)) by (unfold ascii_Z; lia). by apply IH.
Qed.

Lemma string_forallb_impl (p q : ascii → bool) s :
  (∀ c, p c = true → q c = true) → string_forallb p s = true → string_forallb q s = true.
Proof.
  intros Hpq. induction s as [|c s IH]; simpl; [done|]. intros [Hc Hs]%andb_true_iff.
  rewrite Hpq by done. by apply IH.
Qed.

Lemma from_utf8_lower_hex s :
  string_forallb is_lower_hex_char s = true → from_utf8 (string_bytes s) = Some s.
Proof.
  intros Hs. apply from_utf8_ascii. revert Hs. apply string_forallb_impl.
  intros c [H|H]%orb_true_iff; apply andb_true_iff in H as [_ H]; apply Z.leb_le in H;
    apply Z.leb_le; lia.
Qed.

(** Sixty-four zeroes: the null hash and the zero address. *)
Definition null_hash : string := string_repeat "0" 64.

(** A 64-character lowercase hex string: the form of hashes and addresses. *)
Definition is_hex64 (s : string) : bool :=
  (slen s =? 64) && string_forallb is_lower_hex_char s.

(** ** Decimal integers: [to_string] and [parse] *)
Definition u64_to_string (z : Z) : string := pretty (Z.to_N z).

Fixpoint dec_digits (acc : Z) (s : string) : option Z :=
  match s with
  | EmptyString => Some acc
  | String c s =>
      if (48 <=? ascii_Z c) && (ascii_Z c <=? 57)
      then dec_digits (acc * 10 + (ascii_Z c - 48)) s else None
  end.

(** [str::parse] for an unsigned type of maximum [max]: an optional [+], at
    least one digit, digits only, no overflow. *)
Definition parse_uint (max : Z) (s : string) : option Z :=
  let digits := match s with String "+" s' => s' | _ => s end in
  match digits with
  | EmptyString => None
  | _ => match dec_digits 0 digits with
         | Some z => if z <=? max then Some z else None
         | None => None
         end
  end.

Lemma dec_digits_step x s :
  (0 < x)%N → dec_digits 0 (pretty_N_go x s) =
  dec_digits 0 (pretty_N_go (x / 10) (String (pretty_N_char (x mod 10)) s)).
Proof. intros. by rewrite pretty_N_go_step by lia. Qed.

Lemma dec_digits_char a d s :
  (d < 10)%N → dec_digits a (String (pretty_N_char d) s) = dec_digits (a * 10 + Z.of_N d) s.
Proof.
  intros Hd.
  assert (d = 0 ∨ d = 1 ∨ d = 2 ∨ d = 3 ∨ d = 4 ∨ d = 5 ∨ d = 6 ∨ d = 7 ∨ d = 8 ∨ d = 9)%N
    as Hc by lia.
  repeat destruct Hc as [->|Hc]; try subst d; reflexivity.
Qed.

Lemma dec_digits_pretty x s :
  dec_digits 0 (pretty_N_go x s) = dec_digits (Z.of_N x) s.
Proof.
  revert s. induction (N.lt_wf_0 x) as [x _ IH]; intros s.
  destruct (decide (x = 0)%N) as [->|Hx]; [by rewrite pretty_N_go_0|].
  rewrite dec_digits_step by lia.
  rewrite IH by (apply N.div_lt; lia).
  rewrite dec_digits_char by (apply N.mod_lt; lia).
  f_equal. pose proof (N.div_mod x 10). lia.
Qed.

Lemma pretty_N_go_cons x c s : ∃ c' s', pretty_N_go x (String c s) = String c' s' ∧
  (x = 0%N ∧ c' = c ∨ ∃ d, (d < 10)%N ∧ c' = pretty_N_char d).
Proof.
  revert c s. induction (N.lt_wf_0 x) as [x _ IH]; intros c s.
  destruct (decide (x = 0)%N) as [->|Hx].
  - rewrite pretty_N_go_0. exists c, s. auto.
  - rewrite pretty_N_go_step by lia.
    destruct (IH (x / 10)%N ltac:(apply N.div_lt; lia) (pretty_N_char (x mod 10)) (String c s))
      as (c' & s' & -> & Hc).
    eexists c', s'. split; [done|right].
    destruct Hc as [[_ ->]|?]; [|done].
    eexists; split; [|done]. apply N.mod_lt. lia.
Qed.

(** A decimal string produced by [to_string] starts with a digit. *)
Lemma pretty_N_head (x : N) : ∃ d s, (d < 10)%N ∧ pretty x = String (pretty_N_char d) s.
Proof.
  unfold pretty, pretty_N. case_decide as Hx.
  { exists 0%N, EmptyString. split; [lia|done]. }
  rewrite pretty_N_go_step by lia.
  destruct (pretty_N_go_cons (x / 10) (pretty_N_char (x mod 10)) EmptyString)
    as (c' & s' & -> & [[_ ->]|(d & Hd & ->)]).
  - eexists _, _. split; [|done]. apply N.mod_lt. lia.
  - by exists d, s'.
Qed.

Lemma dec_digits_to_string z : 0 ≤ z → dec_digits 0 (u64_to_string z) = Some z.
Proof.
  intros Hz. unfold u64_to_string, pretty, pretty_N. case_decide as Hx.
  - assert (z = 0) as -> by lia. reflexivity.
  - rewrite dec_digits_pretty. simpl. f_equal. lia.
Qed.

(** [parse] undoes [to_string]. *)
Lemma parse_uint_to_string max z :
  0 ≤ z ≤ max → parse_uint max (u64_to_string z) = Some z.
Proof.
  intros Hz. pose proof (dec_digits_to_string z ltac:(lia)) as Hd.
  unfold parse_uint. destruct (pretty_N_head (Z.to_N z)) as (d & s & Hlt & E).
  unfold u64_to_string in *. rewrite E in *.
  assert (d = 0 ∨ d = 1 ∨ d = 2 ∨ d = 3 ∨ d = 4 ∨ d = 5 ∨ d = 6 ∨ d = 7 ∨ d = 8 ∨ d = 9)%N
    as Hc by lia.
  assert ((z <=? max) = true) as Hm by (apply Z.leb_le; lia).
  repeat destruct Hc as [->|Hc]; try subst d; simpl pretty_N_char in *; cbv iota beta;
    rewrite Hd; by rewrite Hm.
Qed.

Lemma parse_uint_range max s z : 0 ≤ max → parse_uint max s = Some z → z ≤ max.
Proof.
  unfold parse_uint. intros Hm. repeat case_match; intros E; simplify_eq; by apply Z.leb_le.
Qed.
Lemma dec_digits_mono s : ∀ acc z, 0 ≤ acc → dec_digits acc s = Some z → acc ≤ z.
Proof.
  induction s as [|c s IH]; intros acc z Ha E; cbn [dec_digits] in E; [by simplify_eq|].
  destruct (_ && _) eqn:Ec; [|done]. apply andb_true_iff in Ec as [?%Z.leb_le ?%Z.leb_le].
  apply IH in E; lia.
Qed.
Lemma dec_digits_nonneg s : ∀ acc z, 0 ≤ acc → dec_digits acc s = Some z → 0 ≤ z.
Proof. intros acc z Ha E. pose proof (dec_digits_mono s acc z Ha E). lia. Qed.
Lemma parse_uint_nonneg max s z : parse_uint max s = Some z → 0 ≤ z.
Proof.
  unfold parse_uint. repeat case_match; intros E; simplify_eq; by eapply dec_digits_nonneg; [|eassumption].
Qed.

Lemma u64_to_string_inj a b :
  0 ≤ a → 0 ≤ b → u64_to_string a = u64_to_string b → a = b.
Proof. unfold u64_to_string. intros ?? E%(inj pretty). lia. Qed.

Lemma pretty_N_go_ascii x s : string_forallb (λ c, ascii_Z c <=? 127) s = true →
  string_forallb (λ c, ascii_Z c <=? 127) (pretty_N_go x s) = true.
Proof.
  revert s. induction (N.lt_wf_0 x) as [x _ IH]; intros s Hs.
  destruct (decide (x = 0)%N) as [->|Hx]; [by rewrite pretty_N_go_0|].
  rewrite pretty_N_go_step by lia. apply IH; [apply N.div_lt; lia|].
  cbn [string_forallb]. rewrite Hs, andb_true_r.
  pose proof (N.mod_lt x 10 ltac:(lia)) as Hm. revert Hm. generalize (x mod 10)%N. intros d Hd.
  assert (d = 0 ∨ d = 1 ∨ d = 2 ∨ d = 3 ∨ d = 4 ∨ d = 5 ∨ d = 6 ∨ d = 7 ∨ d = 8 ∨ d = 9)%N
    as Hc by lia.
  repeat destruct Hc as [->|Hc]; try subst d; reflexivity.
Qed.
Lemma from_utf8_u64 z : from_utf8 (string_bytes (u64_to_string z)) = Some (u64_to_string z).
Proof.
  apply from_utf8_ascii. unfold u64_to_string, pretty, pretty_N. case_decide; [done|].
  by apply pretty_N_go_ascii.
Qed.

(** ** Ordered iteration over a [BTreeMap]

    A [BTreeMap<String, A>] is a [gmap string A]; iterating over it visits its
    entries in increasing (bytewise) key order. *)
Definition key_le {A} (a b : string * A) : Prop := String.le a.1 b.1.
#[export] Instance key_le_dec {A} : RelDecision (@key_le A).
Proof. intros a b. unfold key_le. apply _. Defined.
#[export] Instance key_le_total {A} : Total (@key_le A).
Proof. intros a b. unfold key_le. apply total, _. Qed.
#[export] Instance key_le_trans {A} : Transitive (@key_le A).
Proof. intros a b c. unfold key_le. apply transitivity. Qed.

Definition bt_iter {A} (m : gmap string A) : list (string * A) :=
  merge_sort key_le (map_to_list m).

Lemma bt_iter_perm {A} (m : gmap string A) : bt_iter m ≡ₚ map_to_list m.
Proof. apply merge_sort_Permutation. Qed.
Lemma bt_iter_sorted {A} (m : gmap string A) : StronglySorted key_le (bt_iter m).
Proof. apply StronglySorted_merge_sort; apply _. Qed.
Lemma elem_of_bt_iter {A} (m : gmap string A) k v : (k, v) ∈ bt_iter m ↔ m !! k = Some v.
Proof. rewrite bt_iter_perm. apply elem_of_map_to_list. Qed.
Lemma bt_iter_keys_NoDup {A} (m : gmap string A) : NoDup (bt_iter m).*1.
Proof. rewrite bt_iter_perm. apply NoDup_fst_map_to_list. Qed.
Lemma bt_iter_list_to_map {A} (m : gmap string A) : list_to_map (bt_iter m) = m.
Proof.
  rewrite <- (list_to_map_to_list m) at 2. apply list_to_map_proper.
  - apply bt_iter_keys_NoDup.
  - apply bt_iter_perm.
Qed.

(** A [BTreeSet<String>] visited in order. *)
Definition bts_iter (s : gset string) : list string := merge_sort String.le (elements s).
Lemma elem_of_bts_iter s k : k ∈ bts_iter s ↔ k ∈ s.
Proof. unfold bts_iter. rewrite merge_sort_Permutation. apply elem_of_elements. Qed.

(** ** Lists *)
Definition sumZ {A} (f : A → Z) (l : list A) : Z := fold_right (λ x s, f x + s) 0 l.
Lemma sumZ_app {A} (f : A → Z) l1 l2 : sumZ f (l1 ++ l2) = sumZ f l1 + sumZ f l2.
Proof. induction l1; simpl; lia. Qed.
Lemma sumZ_perm {A} (f : A → Z) l1 l2 : l1 ≡ₚ l2 → sumZ f l1 = sumZ f l2.
Proof. induction 1; simpl; lia. Qed.
Lemma sumZ_nonneg {A} (f : A → Z) l : (∀ x, x ∈ l → 0 ≤ f x) → 0 ≤ sumZ f l.
Proof.
  intros Hf. induction l as [|x l IH]; simpl; [lia|].
  pose proof (Hf x ltac:(left)). assert (0 ≤ sumZ f l); [|lia].
  apply IH. intros y Hy. apply Hf. by right.
Qed.

Lemma app_inv_length {A} (a b c d : list A) :
  length a = length c → a ++ b = c ++ d → a = c ∧ b = d.
Proof. intros. by apply app_inj_1. Qed.

(** Finding the first element that satisfies a test ([Iterator::find]). *)
Lemma find_Some_elem {A} (f : A → bool) l x :
  List.find f l = Some x → x ∈ l ∧ f x = true.
Proof. intros Hf%List.find_some. rewrite list_elem_of_In. tauto. Qed.
Lemma find_None_elem {A} (f : A → bool) l x :
  List.find f l = None → x ∈ l → f x = false.
Proof. rewrite list_elem_of_In. intros Hf Hx. exact (List.find_none _ _ Hf _ Hx). Qed.

(** Finite transition sequences. *)
Section steps.
Context {S : Type} (R : S → S → Prop).
Inductive star : S → S → Prop :=
| star_refl s : star s s
| star_step s1 s2 s3 : R s1 s2 → star s2 s3 → star s1 s3.
Lemma star_trans s1 s2 s3 : star s1 s2 → star s2 s3 → star s1 s3.
Proof. induction 1; eauto using star. Qed.
Lemma star_inv (I : S → Prop) s1 s2 :
  (∀ a b, I a → R a b → I b) → I s1 → star s1 s2 → I s2.
Proof. intros HI H1 Hs. induction Hs; eauto. Qed.
End steps.

(** ** Automation *)
(** Split every match of the hypotheses and keep the consistent branches. *)
Ltac split_matches := repeat case_match; simplify_eq/=.
(** Turn boolean comparisons in the context into propositions. *)
Ltac bools :=
  repeat match goal with
  | H : (_ <=? _) = true |- _ => apply Z.leb_le in H
  | H : (_ <=? _) = false |- _ => apply Z.leb_gt in H
  | H : (_ <? _) = true |- _ => apply Z.ltb_lt in H
  | H : (_ <? _) = false |- _ => apply Z.ltb_ge in H
  | H : (_ =? _) = true |- _ => apply Z.eqb_eq in H
  | H : (_ =? _) = false |- _ => apply Z.eqb_neq in H
  | H : andb _ _ = true |- _ => apply andb_true_iff in H as [? ?]
  | H : orb _ _ = false |- _ => apply orb_false_iff in H as [? ?]
  | H : negb _ = true |- _ => apply negb_true_iff in H
  | H : negb _ = false |- _ => apply negb_false_iff in H
  | H : bool_decide _ = true |- _ => apply bool_decide_eq_true in H
  | H : bool_decide _ = false |- _ => apply bool_decide_eq_false in H
  end.
