(* ===== verification/Crypto.v ===== *)
(** * Third-party cryptography and hex coding

    The crates [blake3], [hex] and [ed25519-dalek] are not part of the
    repository: the class [Crypto] lists the calls the program makes of them,
    and [CryptoLaws] the documented facts the proofs use.  [toy_crypto] is a
    concrete instance on which witnesses are evaluated: real hexadecimal
    coding, and small stand-ins for the hash and the signature scheme. *)
From S2P Require Import Prelude.

Class Crypto := {
  (** [blake3::hash(..).as_bytes()]; a [blake3::Hasher] fed by several
      [update] calls hashes the concatenation. *)
  blake3 : list byte → list byte;
  (** [hex::encode] and [hex::decode]. *)
  hex_encode : list byte → string;
  hex_decode : string → option (list byte);
  (** [VerifyingKey::from_bytes(..).is_ok()] and [VerifyingKey::verify]. *)
  ed_key_ok : list byte → bool;
  ed_verify : list byte → list byte → list byte → bool
}.

Class CryptoLaws (C : Crypto) : Prop := {
  blake3_length bs : length (blake3 bs) = 32%nat;
  hex_encode_lower bs : string_forallb is_lower_hex_char (hex_encode bs) = true;
  hex_encode_length bs : String.length (hex_encode bs) = (2 * length bs)%nat;
  hex_decode_encode bs : hex_decode (hex_encode bs) = Some bs;
  hex_decode_length s bs : hex_decode s = Some bs → String.length s = (2 * length bs)%nat;
  hex_encode_decode s bs :
    string_forallb is_lower_hex_char s = true → hex_decode s = Some bs → hex_encode bs = s;
  hex_decode_lower s :
    string_forallb is_lower_hex_char s = true → Nat.even (String.length s) = true →
    is_Some (hex_decode s)
}.

Section laws.
Context {C : Crypto} {CL : CryptoLaws C}.

(** [hex::encode] of a 32-byte digest is a 64-character lowercase hex string. *)
Lemma hex_encode_is_hex64 bs : length bs = 32%nat → is_hex64 (hex_encode bs) = true.
Proof.
  intros Hl. unfold is_hex64, slen. by rewrite hex_encode_length, hex_encode_lower, Hl.
Qed.

(** A canonical hash or address decodes to 32 bytes, which determine it. *)
Lemma hex64_decode s : is_hex64 s = true →
  ∃ bs, hex_decode s = Some bs ∧ length bs = 32%nat ∧ hex_encode bs = s.
Proof.
  unfold is_hex64, slen. intros [Hl Hx]%andb_true_iff. bools.
  assert (String.length s = 64%nat) as Hl' by lia.
  destruct (hex_decode_lower s Hx) as [bs Hb]; [by rewrite Hl'|].
  exists bs. split; [done|]. split; [|by apply hex_encode_decode].
  pose proof (hex_decode_length _ _ Hb). lia.
Qed.

#[export] Instance hex_encode_inj : Inj (=) (=) hex_encode.
Proof.
  intros a b E. apply (f_equal hex_decode) in E.
  rewrite !hex_decode_encode in E. by simplify_eq.
Qed.
End laws.

(** ** A concrete instance *)
Definition hex_digit (z : Z) : ascii :=
  Ascii.ascii_of_N (Z.to_N (if z <? 10 then 48 + z else 87 + z)).
Definition hex_value (c : ascii) : option Z :=
  let z := ascii_Z c in
  if (48 <=? z) && (z <=? 57) then Some (z - 48)
  else if (97 <=? z) && (z <=? 102) then Some (z - 87)
  else if (65 <=? z) && (z <=? 70) then Some (z - 55)
  else None.

Fixpoint toy_hex_encode (bs : list byte) : string :=
  match bs with
  | [] => EmptyString
  | b :: bs => String (hex_digit (byte_Z b / 16))
                 (String (hex_digit (byte_Z b mod 16)) (toy_hex_encode bs))
  end.
Fixpoint toy_hex_decode (s : string) : option (list byte) :=
  match s with
  | EmptyString => Some []
  | String _ EmptyString => None
  | String c (String d s) =>
      match hex_value c, hex_value d, toy_hex_decode s with
      | Some a, Some b, Some bs => Some (Z_byte (16 * a + b) :: bs)
      | _, _, _ => None
      end
  end.
Definition toy_mask : Z := Eval vm_compute in Z.ones 256.
Definition toy_hash (bs : list byte) : list byte :=
  be_bytes 32 (fold_left (λ h b, Z.land (h * 257 + byte_Z b + 1) toy_mask) bs 7).

#[global] Arguments toy_hash : simpl never.

#[export] Instance toy_crypto : Crypto := {
  blake3 := toy_hash;
  hex_encode := toy_hex_encode;
  hex_decode := toy_hex_decode;
  ed_key_ok _ := true;
  ed_verify key msg sig := bool_decide (sig = toy_hash (key ++ msg) ++ key)
}.

Lemma digit_cases z : 0 ≤ z < 16 →
  z = 0 ∨ z = 1 ∨ z = 2 ∨ z = 3 ∨ z = 4 ∨ z = 5 ∨ z = 6 ∨ z = 7 ∨ z = 8 ∨ z = 9 ∨
  z = 10 ∨ z = 11 ∨ z = 12 ∨ z = 13 ∨ z = 14 ∨ z = 15.
Proof. lia. Qed.

Lemma hex_digit_ok z : 0 ≤ z < 16 →
  hex_value (hex_digit z) = Some z ∧ is_lower_hex_char (hex_digit z) = true.
Proof. intros Hz%digit_cases. by repeat destruct Hz as [->|Hz]; [..|subst z]. Qed.

Lemma hex_value_lower c z : is_lower_hex_char c = true → hex_value c = Some z →
  0 ≤ z < 16 ∧ hex_digit z = c.
Proof.
  unfold hex_value, is_lower_hex_char. intros Hc Hv.
  assert (0 ≤ z < 16 ∧ ascii_Z c = if z <? 10 then 48 + z else 87 + z) as [Hz Ha].
  { destruct ((48 <=? ascii_Z c) && (ascii_Z c <=? 57)) eqn:E1.
    - bools. simplify_eq. split; [lia|]. destruct (Z.ltb_spec (ascii_Z c - 48) 10); lia.
    - simpl in Hc. rewrite Hc in Hv. bools. simplify_eq. split; [lia|].
      destruct (Z.ltb_spec (ascii_Z c - 87) 10); lia. }
  split; [done|]. unfold hex_digit. rewrite <- Ha. unfold ascii_Z.
  by rewrite N2Z.id, Ascii.ascii_N_embedding.
Qed.

Lemma hex_value_some c : is_lower_hex_char c = true → is_Some (hex_value c).
Proof.
  unfold is_lower_hex_char, hex_value. intros Hc.
  destruct ((48 <=? ascii_Z c) && (ascii_Z c <=? 57)); [eauto|].
  simpl in Hc. rewrite Hc. eauto.
Qed.

Lemma hex_value_range c z : hex_value c = Some z → 0 ≤ z < 16.
Proof. unfold hex_value. intros. split_matches; bools; lia. Qed.

#[export] Instance toy_crypto_laws : CryptoLaws toy_crypto.
Proof.
  split; simpl.
  - reflexivity.
  - induction bs as [|b bs IH]; simpl; [done|]. pose proof (byte_Z_range b).
    rewrite (proj2 (hex_digit_ok (byte_Z b / 16) ltac:(split; [apply Z.div_pos|
      apply Z.div_lt_upper_bound]; lia))).
    rewrite (proj2 (hex_digit_ok (byte_Z b mod 16) ltac:(apply Z.mod_pos_bound; lia))).
    done.
  - induction bs as [|b bs IH]; simpl; [done|]. rewrite IH. lia.
  - induction bs as [|b bs IH]; simpl; [done|]. pose proof (byte_Z_range b).
    rewrite (proj1 (hex_digit_ok (byte_Z b / 16) ltac:(split; [apply Z.div_pos|
      apply Z.div_lt_upper_bound]; lia))).
    rewrite (proj1 (hex_digit_ok (byte_Z b mod 16) ltac:(apply Z.mod_pos_bound; lia))).
    rewrite IH. do 2 f_equal. rewrite <- Z.div_mod by lia. apply Z_byte_Z.
  - fix IH 1. intros [|c [|d s]] bs; simpl; [naive_solver..|].
    destruct (hex_value c), (hex_value d), (toy_hex_decode s) eqn:E; intros; simplify_eq.
    apply IH in E. simpl. lia.
  - fix IH 1. intros [|c [|d s]] bs; simpl; [naive_solver..|].
    intros Hs Hd. bools.
    destruct (hex_value c) as [a|] eqn:Ea, (hex_value d) as [b|] eqn:Eb,
      (toy_hex_decode s) eqn:E; simplify_eq. simpl.
    apply hex_value_lower in Ea as [? <-]; [|done].
    apply hex_value_lower in Eb as [? <-]; [|done].
    rewrite byte_Z_byte, Z.mod_small by lia.
    rewrite (IH s) by done. f_equal; [|f_equal]; f_equal.
    + symmetry. apply (Z.div_unique _ _ _ b); lia.
    + symmetry. apply (Z.mod_unique _ _ a b); lia.
  - fix IH 1. intros [|c [|d s]]; simpl; [by eauto|naive_solver|].
    intros Hs Hl. bools. destruct (IH s) as [bs ->]; [done..|].
    destruct (hex_value_some c) as [a ->]; [done|].
    destruct (hex_value_some d) as [b ->]; [done|]. eauto.
Qed.
