(* ===== verification/Constants.v ===== *)
(** * Protocol constants ([src/config/constants.rs])

    The consensus and policy constants, in the order of the source, with the
    relations between them that the source's tests require.  The release name
    is in [Protocol]; [STALL_DOWNSHIFT_FACTOR], a float kept for documentation,
    is the fraction 3/4 that [Difficulty] applies. *)
From S2P Require Import Prelude.

Definition PROTOCOL_VERSION : Z := 4.
Definition CONSENSUS_VERSION : Z := 3.
Definition BLOCK_VERSION : Z := 1.
Definition NETWORK_ID : string := "mainnet".
Definition DEFAULT_HTTP_PORT : Z := 7070.
Definition DEFAULT_P2P_PORT : Z := 7072.
Definition TARGET_BLOCK_TIME : Z := 30.
Definition RETARGET_WINDOW : Z := 20.
Definition DIFFICULTY_FLOOR : Z := 1.
Definition STALL_MULTIPLIER : Z := 4.
Definition LWMA_MIN_INTERVAL_SECS : Z := TARGET_BLOCK_TIME / 4.
Definition LWMA_MAX_INTERVAL_SECS : Z := TARGET_BLOCK_TIME * 6.
Definition MAX_FUTURE_TIMESTAMP_SECS : Z := 7200.
Definition MAX_REORG : Z := 36.
Definition MAX_REORG_BOOTSTRAP : Z := 2048.
Definition FINALITY_DEPTH : Z := 50.
Definition BLOCK_WEIGHT_LIMIT : Z := 400000.
Definition BLOCK_TARGET_TXS : Z := 200.
Definition SNAPSHOT_EVERY : Z := 32.
Definition TOKEN_DECIMALS : Z := 9.
Definition EMISSION_PER_BLOCK : Z := 510000000000.
Definition HALVING_INTERVAL : Z := 2102400.
Definition FEE_BURN_BPS : Z := 1000.
Definition MIN_PEERS_FOR_MINING : Z := 1.
Definition MEMPOOL_MAX : Z := 10000.
Definition RATE_SUBMIT_RPS : Z := 8.
Definition RATE_GOSSIP_RPS : Z := 20.
Definition ORPHAN_POOL_MAX : Z := 2000.
Definition PEER_HEIGHT_STALE_SECS : Z := 45.
Definition HEIGHT_POLL_RESPONSE_WINDOW_SECS : Z := 10.
Definition TARGET_OUTBOUND_PEERS : Z := 8.
Definition MAX_CONNECTIONS : Z := 64.
Definition GOSSIP_INTERVAL_SECS : Z := 15.
Definition SYNC_LAG_THRESHOLD : Z := 5.
Definition SYNC_CLEAR_JOB_MIN_LAG : Z := SYNC_LAG_THRESHOLD.
Definition SYNC_FORK_SEARCH_TIMEOUT_SECS : Z := 5.
Definition SYNC_FORK_TIMEOUT_SECS : Z := 10.
Definition SYNC_SHORT_BATCH_TIMEOUT_SECS : Z := 5.
Definition STALL_OVERRIDE_SECS : Z := 120.
Definition VISIONX_DATASET_MB : Z := 256.
Definition VISIONX_SCRATCH_MB : Z := 32.
Definition VISIONX_MIX_ITERS : Z := 65536.
Definition VISIONX_READS_PER_ITER : Z := 4.
Definition VISIONX_WRITE_EVERY : Z := 4.
Definition VISIONX_EPOCH_BLOCKS : Z := 32.
Definition DEFAULT_SEED_PEERS : list string :=
  [ "16.163.123.221:7072"; "69.173.206.211:7072"; "69.173.207.135:7072";
    "75.128.156.69:7072"; "98.97.137.74:7072"; "182.106.66.15:7072" ].

(** What the source's tests require of them. *)
Example stall_threshold_exceeds_one_block : TARGET_BLOCK_TIME < STALL_MULTIPLIER * TARGET_BLOCK_TIME.
Proof. reflexivity. Qed.
Example snapshot_interval_aligns_with_visionx_epoch : SNAPSHOT_EVERY = VISIONX_EPOCH_BLOCKS.
Proof. reflexivity. Qed.
Example peer_summary_freshness_survives_watchdog_cadence :
  20 < PEER_HEIGHT_STALE_SECS ∧ HEIGHT_POLL_RESPONSE_WINDOW_SECS < PEER_HEIGHT_STALE_SECS.
Proof. split; reflexivity. Qed.
Example emission_is_whole_tokens : EMISSION_PER_BLOCK = 510 * 10 ^ TOKEN_DECIMALS.
Proof. reflexivity. Qed.
