(* ===== verification/Transaction.v ===== *)
(** * Transactions ([src/types/transaction.rs])

    The signed transaction, its canonical identifier, stateless validation
    (in the order of the source's checks) and execution against a
    balance/nonce state.  Execution returns the new state with the outcome;
    on every error path the source has written nothing, so an error carries
    no state. *)
From S2P Require Import Prelude Crypto.

(** ** Data *)
Record Tx := mkTx {
  tx_nonce : Z;
  tx_sender_pubkey : string;
  tx_module : string;
  tx_method : string;
  tx_args : list byte;
  tx_tip : Z;
  tx_fee_limit : Z;
  tx_sig : string
}.
#[export] Instance Tx_eq_dec : EqDecision Tx.
Proof. solve_decision. Defined.

Record CashTransferArgs := mkArgs { to : string; amount : Z }.

Inductive TxSignatureError :=
| SenderPubkeyWrongLength
| SenderPubkeyNotLowercaseHex
| SignatureWrongLength
| SignatureNotLowercaseHex
| MalformedPublicKey
| InvalidSignature.
#[export] Instance TxSignatureError_eq_dec : EqDecision TxSignatureError.
Proof. solve_decision. Defined.

Inductive TxValidationError :=
| TxTooLarge
| MissingSenderPubkey
| MissingSignature
| UnsupportedModuleMethod
| BadTransferArgs
| InvalidTransferDestination
| TransferAmountZero
| TransferToSelf
| FeeLimitTooLow
| Signature (e : TxSignatureError).
#[export] Instance TxValidationError_eq_dec : EqDecision TxValidationError.
Proof. solve_decision. Defined.

Inductive TxExecutionError :=
| Validation (e : TxValidationError)
| NonceMismatch (expected actual : Z)
| FeeExceedsLimit (charged_fee fee_limit : Z)
| InsufficientBalance (available required : Z)
| ArithmeticOverflow.
#[export] Instance TxExecutionError_eq_dec : EqDecision TxExecutionError.
Proof. solve_decision. Defined.

Record TxExecutionState := mkExec {
  es_balances : gmap string Z;
  es_nonces : gmap string Z
}.

Record TxExecutionOutcome := mkOutcome {
  out_sender : string;
  out_recipient : string;
  out_amount : Z;
  out_charged_fee : Z;
  out_next_sender_nonce : Z
}.

(** ** Third-party codecs

    [bincode::serialize] of a [Tx] and [serde_json::from_slice] into
    [CashTransferArgs] (whose [amount] is a [u128]). *)
Class TxCodec := {
  bincode_tx : Tx → list byte;
  json_args : list byte → option CashTransferArgs
}.
(** [serde_json] yields a value of the field's type. *)
Class TxCodecLaws (TC : TxCodec) : Prop := {
  json_args_u128 bs a : json_args bs = Some a → u128 (amount a)
}.

Definition MAX_SERIALIZED_TX_BYTES : Z := 64 * 1024.
Definition MIN_CASH_TRANSFER_FEE_LIMIT : Z := 201.
Definition CASH_TRANSFER_BASE_FEE : Z := 1.

Section transaction.
  Context `{C : Crypto} `{TC : TxCodec}.

(** ** Identity and signature *)
Definition clear_sig (tx : Tx) : Tx :=
  mkTx (tx_nonce tx) (tx_sender_pubkey tx) (tx_module tx) (tx_method tx)
    (tx_args tx) (tx_tip tx) (tx_fee_limit tx) "".

Definition canonical_unsigned_payload (tx : Tx) : list byte := bincode_tx (clear_sig tx).

Definition canonical_tx_id (tx : Tx) : string :=
  hex_encode (blake3 (canonical_unsigned_payload tx)).

(** The identifier used by older callers: it covers the signature too. *)
Definition tx_id (tx : Tx) : string := hex_encode (blake3 (bincode_tx tx)).

Definition is_lowercase_hex (s : string) : bool := string_forallb is_lower_hex_char s.

Definition decode_sender_pubkey (s : string) : result TxSignatureError (list byte) :=
  if negb (slen s =? 64) then Err SenderPubkeyWrongLength
  else if negb (is_lowercase_hex s) then Err SenderPubkeyNotLowercaseHex
  else match hex_decode s with
       | None => Err SenderPubkeyNotLowercaseHex
       | Some bs => if bool_decide (length bs = 32%nat) then Ok bs
                    else Err SenderPubkeyWrongLength
       end.

Definition decode_signature (s : string) : result TxSignatureError (list byte) :=
  if negb (slen s =? 128) then Err SignatureWrongLength
  else if negb (is_lowercase_hex s) then Err SignatureNotLowercaseHex
  else match hex_decode s with
       | None => Err SignatureNotLowercaseHex
       | Some bs => if bool_decide (length bs = 64%nat) then Ok bs
                    else Err SignatureWrongLength
       end.

Definition verify_tx_signature (tx : Tx) : result TxSignatureError () :=
  pubkey_bytes ← decode_sender_pubkey (tx_sender_pubkey tx);
  sig_bytes ← decode_signature (tx_sig tx);
  if ed_key_ok pubkey_bytes then
    if ed_verify pubkey_bytes (canonical_unsigned_payload tx) sig_bytes then Ok ()
    else Err InvalidSignature
  else Err MalformedPublicKey.

(** ** Stateless validation *)
Definition serialized_tx_size (tx : Tx) : Z := Z.of_nat (length (bincode_tx tx)).

Definition is_lowercase_hex_32_bytes (s : string) : bool :=
  (slen s =? 64) && is_lowercase_hex s.

Definition decode_cash_transfer_args (args : list byte)
    : result TxValidationError CashTransferArgs :=
  ok_or BadTransferArgs (json_args args).

Definition validate_cash_transfer_stateless (tx : Tx) : result TxValidationError () :=
  if tx_fee_limit tx <? MIN_CASH_TRANSFER_FEE_LIMIT then Err FeeLimitTooLow
  else
    _ ← map_err Signature (verify_tx_signature tx);
    args ← decode_cash_transfer_args (tx_args tx);
    if negb (is_lowercase_hex_32_bytes (to args)) then Err InvalidTransferDestination
    else if amount args =? 0 then Err TransferAmountZero
    else if bool_decide (to args = tx_sender_pubkey tx) then Err TransferToSelf
    else Ok ().

Definition validate_tx_stateless (tx : Tx) : result TxValidationError () :=
  if MAX_SERIALIZED_TX_BYTES <? serialized_tx_size tx then Err TxTooLarge
  else if bool_decide (tx_module tx = "coinbase") && bool_decide (tx_method tx = "reward")
  then Ok ()
  else if bool_decide (tx_sender_pubkey tx = "") then Err MissingSenderPubkey
  else if bool_decide (tx_sig tx = "") then Err MissingSignature
  else if bool_decide (tx_module tx = "cash") && bool_decide (tx_method tx = "transfer")
  then validate_cash_transfer_stateless tx
  else Err UnsupportedModuleMethod.

(** ** Execution *)
Definition empty_exec : TxExecutionState := mkExec ∅ ∅.
Definition balance_of (st : TxExecutionState) (a : string) : Z := default 0 (es_balances st !! a).
Definition nonce_of (st : TxExecutionState) (a : string) : Z := default 0 (es_nonces st !! a).

Definition simulate_tx_execution (st : TxExecutionState) (tx : Tx)
    : result TxExecutionError (TxExecutionState * TxExecutionOutcome) :=
  if negb (bool_decide (tx_module tx = "cash")) || negb (bool_decide (tx_method tx = "transfer"))
  then Err (Validation UnsupportedModuleMethod)
  else
    _ ← map_err Validation (validate_tx_stateless tx);
    let sender := tx_sender_pubkey tx in
    let expected_nonce := nonce_of st sender in
    if negb (tx_nonce tx =? expected_nonce) then Err (NonceMismatch expected_nonce (tx_nonce tx))
    else
      args ← map_err Validation (decode_cash_transfer_args (tx_args tx));
      charged_fee ← ok_or ArithmeticOverflow (checked_add64 CASH_TRANSFER_BASE_FEE (tx_tip tx));
      if tx_fee_limit tx <? charged_fee
      then Err (FeeExceedsLimit charged_fee (tx_fee_limit tx))
      else
        total_cost ← ok_or ArithmeticOverflow (checked_add128 (amount args) charged_fee);
        let available := balance_of st sender in
        if available <? total_cost then Err (InsufficientBalance available total_cost)
        else
          let recipient_balance := balance_of st (to args) in
          new_recipient_balance ←
            ok_or ArithmeticOverflow (checked_add128 recipient_balance (amount args));
          next_sender_nonce ← ok_or ArithmeticOverflow (checked_add64 expected_nonce 1);
          Ok (mkExec
                (<[to args := new_recipient_balance]>
                   (<[sender := available - total_cost]> (es_balances st)))
                (<[sender := next_sender_nonce]> (es_nonces st)),
              mkOutcome sender (to args) (amount args) charged_fee next_sender_nonce).

(** Executing a list of transactions in order, stopping at the first error:
    the loop that [apply_block], the reorganisation replay and the candidate
    builder share. *)
Fixpoint execute_txs (st : TxExecutionState) (txs : list Tx)
    : result TxExecutionError TxExecutionState :=
  match txs with
  | [] => Ok st
  | tx :: txs =>
      r ← simulate_tx_execution st tx;
      execute_txs r.1 txs
  end.

End transaction.

(** ** Supply

    The sum of all balances; inserting a balance changes it by the difference. *)
Definition total (m : gmap string Z) : Z := sumZ snd (map_to_list m).

Lemma total_insert m k v : total (<[k := v]> m) = total m - default 0 (m !! k) + v.
Proof.
  unfold total. destruct (m !! k) as [w|] eqn:E; simpl.
  - rewrite <- (insert_delete_id m k w E) at 2. rewrite <- insert_delete_eq.
    rewrite !(sumZ_perm _ _ _ (map_to_list_insert _ _ _ (lookup_delete_eq _ _))).
    simpl. lia.
  - rewrite (sumZ_perm _ _ _ (map_to_list_insert _ _ _ E)). simpl. lia.
Qed.

(** Balances fit [u128] and nonces fit [u64]: the well-formedness Rust's types
    give the execution state. *)
Definition exec_wf (st : TxExecutionState) : Prop :=
  (∀ a v, es_balances st !! a = Some v → u128 v) ∧
  (∀ a n, es_nonces st !! a = Some n → u64 n).

Lemma exec_wf_balance st a : exec_wf st → u128 (balance_of st a).
Proof.
  intros [Hb _]. unfold balance_of. destruct (es_balances st !! a) eqn:E; simpl; eauto.
  unfold u128, U128_MAX. lia.
Qed.
Lemma exec_wf_nonce st a : exec_wf st → u64 (nonce_of st a).
Proof.
  intros [_ Hn]. unfold nonce_of. destruct (es_nonces st !! a) eqn:E; simpl; eauto.
  unfold u64, U64_MAX. lia.
Qed.
Lemma exec_wf_empty : exec_wf empty_exec.
Proof. by split; intros ??; simpl; rewrite lookup_empty. Qed.

(** Rust-typed transactions: machine-width counters. *)
Definition tx_wf (tx : Tx) : Prop :=
  u64 (tx_nonce tx) ∧ u64 (tx_tip tx) ∧ u64 (tx_fee_limit tx).

Section transaction_theory.
Context `{C : Crypto} `{TC : TxCodec}.

(** The declarative contract of a transfer: [tx] may run in [st], paying
    [args] and [fee]. *)
Record transfer_ok (st : TxExecutionState) (tx : Tx) (args : CashTransferArgs) (fee : Z)
    : Prop := {
  tk_module : tx_module tx = "cash" ∧ tx_method tx = "transfer";
  tk_valid : validate_tx_stateless tx = Ok ();
  tk_args : json_args (tx_args tx) = Some args;
  tk_nonce : tx_nonce tx = nonce_of st (tx_sender_pubkey tx);
  tk_fee : fee = CASH_TRANSFER_BASE_FEE + tx_tip tx;
  tk_fee_u64 : fee ≤ U64_MAX;
  tk_limit : fee ≤ tx_fee_limit tx;
  tk_cost : amount args + fee ≤ U128_MAX;
  tk_funds : amount args + fee ≤ balance_of st (tx_sender_pubkey tx);
  tk_credit : balance_of st (to args) + amount args ≤ U128_MAX;
  tk_next : tx_nonce tx + 1 ≤ U64_MAX
}.

(** Its effect: debit, credit and nonce bump, nothing else. *)
Definition transfer_post (st : TxExecutionState) (tx : Tx) (args : CashTransferArgs)
    (fee : Z) : TxExecutionState :=
  let s := tx_sender_pubkey tx in
  mkExec (<[to args := balance_of st (to args) + amount args]>
            (<[s := balance_of st s - (amount args + fee)]> (es_balances st)))
         (<[s := tx_nonce tx + 1]> (es_nonces st)).

Definition transfer_outcome (tx : Tx) (args : CashTransferArgs) (fee : Z)
    : TxExecutionOutcome :=
  mkOutcome (tx_sender_pubkey tx) (to args) (amount args) fee (tx_nonce tx + 1).

Lemma simulate_Ok_inv st tx st' out :
  simulate_tx_execution st tx = Ok (st', out) →
  ∃ args fee, transfer_ok st tx args fee ∧ st' = transfer_post st tx args fee ∧
    out = transfer_outcome tx args fee.
Proof.
  unfold simulate_tx_execution. intros E.
  destruct (negb _ || negb _) eqn:Hm; [done|]. bools.
  apply bind_Ok in E as ([] & Hv & E). apply map_err_Ok in Hv.
  destruct (negb _) eqn:Hn; [done|]. bools.
  apply bind_Ok in E as (args & Ha & E). apply map_err_Ok in Ha.
  unfold decode_cash_transfer_args in Ha.
  destruct (json_args (tx_args tx)) as [args'|] eqn:Hj; simplify_eq/=.
  apply bind_Ok in E as (fee & Hf & E).
  destruct (checked_add64 _ _) as [f|] eqn:Hc; simplify_eq/=.
  apply checked_add64_Some in Hc as [-> Hc].
  destruct (_ <? _) eqn:Hl; [done|]. bools.
  apply bind_Ok in E as (tc & Ht & E).
  destruct (checked_add128 _ _) as [t|] eqn:Hc2; simplify_eq/=.
  apply checked_add128_Some in Hc2 as [-> Hc2].
  destruct (_ <? _) eqn:Hb; [done|]. bools.
  apply bind_Ok in E as (nb & Hnb & E).
  destruct (checked_add128 (balance_of st (to args)) _) as [t|] eqn:Hc3; simplify_eq/=.
  apply checked_add128_Some in Hc3 as [-> Hc3].
  apply bind_Ok in E as (nn & Hnn & E).
  destruct (checked_add64 (nonce_of _ _) 1) as [t|] eqn:Hc4; simplify_eq/=.
  apply checked_add64_Some in Hc4 as [-> Hc4].
  exists args, (CASH_TRANSFER_BASE_FEE + tx_tip tx).
  split; [split; auto; lia|].
  unfold transfer_post, transfer_outcome. by rewrite Hn.
Qed.

Lemma simulate_Ok_intro st tx args fee :
  transfer_ok st tx args fee →
  simulate_tx_execution st tx = Ok (transfer_post st tx args fee, transfer_outcome tx args fee).
Proof.
  intros [[Hm1 Hm2] Hv Ha Hn Hf Hf64 Hl Hc Hfunds Hcr Hnx].
  unfold simulate_tx_execution.
  rewrite (bool_decide_true _ Hm1), (bool_decide_true _ Hm2). simpl.
  rewrite Hv. simpl. rewrite (proj2 (Z.eqb_eq _ _) Hn). simpl.
  unfold decode_cash_transfer_args. rewrite Ha. simpl.
  rewrite (proj2 (checked_add64_Some CASH_TRANSFER_BASE_FEE (tx_tip tx) fee)) by lia. simpl.
  rewrite (proj2 (Z.ltb_ge (tx_fee_limit tx) fee)) by lia.
  rewrite (proj2 (checked_add128_Some (amount args) fee (amount args + fee))) by lia. simpl.
  rewrite (proj2 (Z.ltb_ge (balance_of st (tx_sender_pubkey tx)) (amount args + fee))) by lia.
  rewrite (proj2 (checked_add128_Some (balance_of st (to args)) (amount args) (balance_of st (to args) + amount args))) by (split; [done|lia]).
  simpl. rewrite (proj2 (checked_add64_Some (nonce_of st (tx_sender_pubkey tx)) 1 (tx_nonce tx + 1))) by lia.
  unfold transfer_post, transfer_outcome. done.
Qed.

(** What stateless validation of a transfer establishes. *)
Lemma validate_transfer_inv tx :
  tx_module tx = "cash" → validate_tx_stateless tx = Ok () →
  tx_method tx = "transfer" ∧ verify_tx_signature tx = Ok () ∧
  MIN_CASH_TRANSFER_FEE_LIMIT ≤ tx_fee_limit tx ∧
  ∃ args, json_args (tx_args tx) = Some args ∧ is_hex64 (to args) = true ∧
    amount args ≠ 0 ∧ to args ≠ tx_sender_pubkey tx.
Proof.
  intros Hm Hv. unfold validate_tx_stateless in Hv.
  rewrite (bool_decide_false (tx_module tx = "coinbase")) in Hv by (by rewrite Hm).
  simpl in Hv. split_matches; bools; try done.
  unfold validate_cash_transfer_stateless in Hv. split_matches; bools.
  apply bind_Ok in Hv as ([] & Hs & Hv). apply map_err_Ok in Hs.
  apply bind_Ok in Hv as (a & Ha & Hv). unfold decode_cash_transfer_args in Ha.
  destruct (json_args (tx_args tx)) as [a'|] eqn:Hj; simplify_eq/=.
  split_matches; bools. eauto 10.
Qed.

Lemma verify_sig_sender tx : verify_tx_signature tx = Ok () → is_hex64 (tx_sender_pubkey tx) = true.
Proof.
  unfold verify_tx_signature. intros (bs & Hd & _)%bind_Ok.
  unfold decode_sender_pubkey in Hd. unfold is_hex64, is_lowercase_hex in *.
  by destruct (slen _ =? 64), (string_forallb _ _).
Qed.

(** Both accounts of an executed transfer are canonical addresses, and they
    differ. *)
Lemma transfer_ok_addresses st tx args fee :
  transfer_ok st tx args fee →
  is_hex64 (tx_sender_pubkey tx) = true ∧ is_hex64 (to args) = true ∧
  amount args ≠ 0 ∧ to args ≠ tx_sender_pubkey tx.
Proof.
  intros Hok. pose proof (tk_args _ _ _ _ Hok) as Ha.
  destruct (validate_transfer_inv tx (proj1 (tk_module _ _ _ _ Hok)) (tk_valid _ _ _ _ Hok))
    as (_ & Hs & _ & a & Ha' & ?). rewrite Ha in Ha'. simplify_eq.
  split; [by apply verify_sig_sender|naive_solver].
Qed.

(** Effects of an executed transfer, one component at a time. *)
Lemma post_nonce_sender st tx args fee :
  nonce_of (transfer_post st tx args fee) (tx_sender_pubkey tx) = tx_nonce tx + 1.
Proof. unfold nonce_of. simpl. by rewrite lookup_insert_eq. Qed.
Lemma post_nonce_other st tx args fee a :
  a ≠ tx_sender_pubkey tx → nonce_of (transfer_post st tx args fee) a = nonce_of st a.
Proof. intros. unfold nonce_of. simpl. by rewrite lookup_insert_ne. Qed.

Lemma post_total st tx args fee :
  to args ≠ tx_sender_pubkey tx →
  total (es_balances (transfer_post st tx args fee)) = total (es_balances st) - fee.
Proof.
  intros Hne. simpl. rewrite !total_insert, lookup_insert_ne by done.
  unfold balance_of. lia.
Qed.

Lemma post_wf st tx args fee :
  TxCodecLaws TC → tx_wf tx → exec_wf st → transfer_ok st tx args fee →
  exec_wf (transfer_post st tx args fee).
Proof.
  intros TCL (Hn & Ht & Hl) Hwf Hok. destruct Hok. subst fee.
  pose proof (exec_wf_balance st (tx_sender_pubkey tx) Hwf) as Hbs.
  pose proof (exec_wf_balance st (to args) Hwf) as Hbt.
  pose proof (json_args_u128 _ _ tk_args0) as Ham.
  destruct Hwf as [Hb Hnn]. unfold u128, u64, CASH_TRANSFER_BASE_FEE in *.
  split; simpl.
  - intros a v Hv. apply lookup_insert_Some in Hv as [[_ <-]|[_ Hv]]; [unfold u128; lia|].
    apply lookup_insert_Some in Hv as [[_ <-]|[_ Hv]]; [unfold u128; lia|exact (Hb _ _ Hv)].
  - intros a n Hv. apply lookup_insert_Some in Hv as [[_ <-]|[_ Hv]];
      [unfold u64; lia|exact (Hnn _ _ Hv)].
Qed.

Lemma simulate_wf st tx st' out :
  TxCodecLaws TC → tx_wf tx → exec_wf st →
  simulate_tx_execution st tx = Ok (st', out) → exec_wf st'.
Proof.
  intros ??? (args & fee & Hok & -> & ->)%simulate_Ok_inv. by eapply post_wf.
Qed.

Lemma execute_wf txs st st' :
  TxCodecLaws TC → Forall tx_wf txs → exec_wf st →
  execute_txs st txs = Ok st' → exec_wf st'.
Proof.
  intros TCL Htx. revert st. induction Htx as [|tx txs Hw _ IH]; intros st Hst E; simpl in E.
  - by injection E as <-.
  - apply bind_Ok in E as ([st1 out] & E1 & E2). eauto using simulate_wf.
Qed.

(** The fees a list of transfers burns. *)
Fixpoint burned_fees (st : TxExecutionState) (txs : list Tx) : Z :=
  match txs with
  | [] => 0
  | tx :: txs =>
      match simulate_tx_execution st tx with
      | Ok (st', out) => out_charged_fee out + burned_fees st' txs
      | Err _ => 0
      end
  end.

Lemma execute_total txs st st' :
  execute_txs st txs = Ok st' →
  total (es_balances st') = total (es_balances st) - burned_fees st txs.
Proof.
  revert st. induction txs as [|tx txs IH]; intros st E; simpl in *.
  - simplify_eq. lia.
  - apply bind_Ok in E as ([st1 out] & E1 & E2). rewrite E1. apply IH in E2. simpl in E2.
    apply simulate_Ok_inv in E1 as (args & fee & Hok & -> & ->). simpl.
    rewrite post_total in E2 by (by destruct (transfer_ok_addresses _ _ _ _ Hok) as (?&?&?&?)).
    lia.
Qed.

Lemma execute_app st txs1 txs2 st' :
  execute_txs st (txs1 ++ txs2) = Ok st' ↔
  ∃ st1, execute_txs st txs1 = Ok st1 ∧ execute_txs st1 txs2 = Ok st'.
Proof.
  revert st. induction txs1 as [|tx txs1 IH]; intros st; simpl; [naive_solver|].
  rewrite bind_Ok. setoid_rewrite IH. setoid_rewrite bind_Ok. naive_solver.
Qed.

Lemma execute_cons st tx txs st' :
  execute_txs st (tx :: txs) = Ok st' ↔
  ∃ st1 out, simulate_tx_execution st tx = Ok (st1, out) ∧ execute_txs st1 txs = Ok st'.
Proof. simpl. rewrite bind_Ok. split; [intros ([??]&?&?)|intros (?&?&?&?)]; eauto. Qed.

(** Nonces only move forward. *)
Lemma simulate_nonce_le st tx st' out a :
  simulate_tx_execution st tx = Ok (st', out) → nonce_of st a ≤ nonce_of st' a.
Proof.
  intros (args & fee & Hok & -> & _)%simulate_Ok_inv.
  destruct (decide (a = tx_sender_pubkey tx)) as [->|];
    [|by rewrite post_nonce_other].
  rewrite post_nonce_sender, (tk_nonce _ _ _ _ Hok). lia.
Qed.
Lemma execute_nonce_le txs st st' a :
  execute_txs st txs = Ok st' → nonce_of st a ≤ nonce_of st' a.
Proof.
  revert st. induction txs as [|tx txs IH]; intros st E; simpl in *; [simplify_eq; lia|].
  apply bind_Ok in E as ([st1 out] & E1 & E2).
  apply simulate_nonce_le with (a := a) in E1. apply IH in E2. simpl in *. lia.
Qed.
End transaction_theory.

(** ** A concrete codec

    [bincode]'s documented fixed-width layout for the transaction envelope,
    and a fixed-width stand-in for the JSON argument decoder. *)
Definition bincode_bytes (bs : list byte) : list byte :=
  le_bytes 8 (Z.of_nat (length bs)) ++ bs.
Definition bincode_string (s : string) : list byte := bincode_bytes (string_bytes s).

Definition toy_bincode_tx (tx : Tx) : list byte :=
  le_bytes 8 (tx_nonce tx) ++ bincode_string (tx_sender_pubkey tx) ++
  bincode_string (tx_module tx) ++ bincode_string (tx_method tx) ++
  bincode_bytes (tx_args tx) ++ le_bytes 8 (tx_tip tx) ++
  le_bytes 8 (tx_fee_limit tx) ++ bincode_string (tx_sig tx).

Definition toy_json_args (bs : list byte) : option CashTransferArgs :=
  if bool_decide (length bs = 80%nat)
  then Some (mkArgs (bytes_string (take 64 bs)) (be_val (drop 64 bs))) else None.

#[export] Instance toy_codec : TxCodec :=
  { bincode_tx := toy_bincode_tx; json_args := toy_json_args }.
#[export] Instance toy_codec_laws : TxCodecLaws toy_codec.
Proof.
  split. intros bs a. simpl. unfold toy_json_args. case_bool_decide as Hl; [|done].
  intros [= <-]. simpl.
  pose proof (be_val_bound (drop 64 bs)) as Hb. rewrite length_drop, Hl in Hb.
  unfold u128, U128_MAX. simpl in Hb. lia.
Qed.

(** A signed transfer under the concrete instances. *)
Definition toy_key (d : Z) : list byte := repeat (Z_byte d) 32.
Definition toy_addr (d : Z) : string := toy_hex_encode (toy_key d).
Definition toy_transfer (from dest amt nonce tip limit : Z) : Tx :=
  let unsigned := mkTx nonce (toy_addr from) "cash" "transfer"
    (string_bytes (toy_addr dest) ++ be_bytes 16 amt) tip limit "" in
  mkTx nonce (toy_addr from) "cash" "transfer"
    (string_bytes (toy_addr dest) ++ be_bytes 16 amt) tip limit
    (toy_hex_encode (toy_hash (toy_key from ++ toy_bincode_tx unsigned) ++ toy_key from)).

Definition toy_state (a bal : Z) : TxExecutionState := mkExec {[toy_addr a := bal]} ∅.

(** ** Properties *)

(** C22: Execution of a transaction succeeds exactly when it is a valid signed
    cash transfer with the sender's next nonce, a fee within its limit, enough
    funds and no overflow; it then debits amount plus fee, credits the amount,
    bumps the sender's nonce and touches no other entry. *)
Theorem simulate_success_iff `{C : Crypto} `{TC : TxCodec} st tx st' out :
  simulate_tx_execution st tx = Ok (st', out) ↔
  ∃ args fee, transfer_ok st tx args fee ∧ st' = transfer_post st tx args fee ∧
    out = transfer_outcome tx args fee.
Proof.
  split; [apply simulate_Ok_inv|].
  intros (args & fee & Hok & -> & ->). by apply simulate_Ok_intro.
Qed.

(** C23: No list of transactions mints: a list that executes lowers the total
    supply by exactly the fees it burned, and those are at least one unit per
    transaction. *)
Theorem execute_conserves_supply `{C : Crypto} `{TC : TxCodec} txs st st' :
  execute_txs st txs = Ok st' → Forall tx_wf txs →
  total (es_balances st') = total (es_balances st) - burned_fees st txs ∧
  Z.of_nat (length txs) ≤ burned_fees st txs.
Proof.
  intros E Hwf. split; [by apply execute_total|].
  revert st E. induction Hwf as [|tx txs (Hn & Ht & Hl) _ IH]; intros st E; simpl in *; [lia|].
  apply bind_Ok in E as ([st1 out] & E1 & E2). rewrite E1. apply IH in E2. simpl in E2.
  apply simulate_Ok_inv in E1 as (args & fee & Hok & _ & ->). simpl.
  rewrite (tk_fee _ _ _ _ Hok). unfold CASH_TRANSFER_BASE_FEE, u64 in *. lia.
Qed.

Lemma execute_conserves_supply_witness :
  ∃ st', execute_txs (toy_state 17 1000) [toy_transfer 17 34 100 0 4 300] = Ok st' ∧
    total (es_balances st') = 995.
Proof.
  destruct (is_ok_true (execute_txs (toy_state 17 1000) [toy_transfer 17 34 100 0 4 300]))
    as [st' E]; [by vm_compute|].
  exists st'. split; [done|].
  destruct (execute_conserves_supply _ _ _ E) as [-> _].
  - repeat constructor; vm_compute; intros; discriminate.
  - by vm_compute.
Defined.

(** C24: Replay protection: once a transaction has executed it can never
    execute again, whatever transactions run in between; the second attempt
    fails with a nonce mismatch. *)
Theorem executed_tx_never_replays `{C : Crypto} `{TC : TxCodec} st tx st1 out txs st2 :
  simulate_tx_execution st tx = Ok (st1, out) → execute_txs st1 txs = Ok st2 →
  ∃ expected, simulate_tx_execution st2 tx = Err (NonceMismatch expected (tx_nonce tx)) ∧
    tx_nonce tx < expected.
Proof.
  intros (args & fee & Hok & -> & _)%simulate_Ok_inv E.
  apply execute_nonce_le with (a := tx_sender_pubkey tx) in E.
  rewrite post_nonce_sender in E. destruct Hok as [[Hm1 Hm2] Hv Ha].
  exists (nonce_of st2 (tx_sender_pubkey tx)). split; [|lia].
  unfold simulate_tx_execution. rewrite (bool_decide_true _ Hm1), (bool_decide_true _ Hm2).
  simpl. rewrite Hv. simpl. by rewrite (proj2 (Z.eqb_neq (tx_nonce tx) _)) by lia.
Qed.

Lemma executed_tx_never_replays_witness :
  let tx := toy_transfer 17 34 100 0 4 300 in
  ∃ st1 out st2 e,
    simulate_tx_execution (toy_state 17 1000) tx = Ok (st1, out) ∧
    execute_txs st1 [toy_transfer 17 51 5 1 0 201] = Ok st2 ∧
    simulate_tx_execution st2 tx = Err (NonceMismatch e (tx_nonce tx)).
Proof.
  intros tx.
  destruct (is_ok_true (execute_txs (toy_state 17 1000)
    [tx; toy_transfer 17 51 5 1 0 201])) as [st2 E]; [by vm_compute|].
  destruct (proj1 (execute_cons _ _ _ _) E) as (st1 & out & E1 & E2).
  destruct (executed_tx_never_replays _ tx st1 out _ st2 E1 E2) as (e & He & _).
  exists st1, out, st2, e. split; [exact E1|]. split; [exact E2|exact He].
Defined.
