(* ===== verification/Block.v ===== *)
(** * Headers and blocks ([src/types/header.rs], [src/types/block.rs])

    The header with its canonical byte encoding, the block and its
    transaction root. *)
From S2P Require Import Prelude Crypto Constants Transaction.

(** The fields, in the order of the source.  [BlockHeader] is named by the
    prefix [bh_], [Block] by [b_]. *)
Record BlockHeader := mkHeader {
  bh_parent_hash : string;
  bh_number : Z;
  bh_timestamp : Z;
  bh_difficulty : Z;
  bh_nonce : Z;
  bh_pow_hash : string;
  bh_state_root : string;
  bh_tx_root : string;
  bh_miner : string
}.
#[export] Instance BlockHeader_eq_dec : EqDecision BlockHeader.
Proof. solve_decision. Defined.

Record Block := mkBlock {
  b_header : BlockHeader;
  b_txs : list Tx;
  b_weight : Z
}.
#[export] Instance Block_eq_dec : EqDecision Block.
Proof. solve_decision. Defined.

(** [Block::hash]: the claimed PoW hash of the header. *)
Definition block_hash (b : Block) : string := bh_pow_hash (b_header b).
Definition height (b : Block) : Z := bh_number (b_header b).
(** Shorthands for header fields of a block. *)
Definition b_number (b : Block) : Z := bh_number (b_header b).
Definition b_parent (b : Block) : string := bh_parent_hash (b_header b).
Definition b_difficulty (b : Block) : Z := bh_difficulty (b_header b).
Definition b_timestamp (b : Block) : Z := bh_timestamp (b_header b).

(** Header fields at their Rust widths. *)
Definition header_wf (h : BlockHeader) : Prop :=
  u64 (bh_number h) ∧ u64 (bh_timestamp h) ∧ u64 (bh_difficulty h) ∧ u64 (bh_nonce h).
Definition block_wf (b : Block) : Prop :=
  header_wf (b_header b) ∧ Forall tx_wf (b_txs b) ∧ u64 (b_weight b).

Section block.
  Context `{C : Crypto} `{TC : TxCodec}.

(** Decode into 32 bytes, zero-padding, all zeroes when the string is not hex. *)
Definition decode_hash_32 (hex_str : string) : list byte :=
  let raw := default (repeat (Z_byte 0) 32) (hex_decode hex_str) in
  let len := Nat.min (length raw) 32 in
  take len raw ++ repeat (Z_byte 0) (32 - len).

Definition canonical_bytes (h : BlockHeader) : list byte :=
  be_bytes 4 BLOCK_VERSION ++ be_bytes 8 (bh_number h) ++
  decode_hash_32 (bh_parent_hash h) ++ be_bytes 8 (bh_timestamp h) ++
  be_bytes 8 (bh_difficulty h) ++ be_bytes 8 (bh_nonce h) ++
  decode_hash_32 (bh_tx_root h).

Definition compute_hash (h : BlockHeader) : string := hex_encode (blake3 (canonical_bytes h)).

(** The bytes fed to the transaction-root hasher: the identifiers in order. *)
Definition tx_root_payload (txs : list Tx) : list byte :=
  concat (map (λ tx, string_bytes (canonical_tx_id tx)) txs).

Definition compute_tx_root (b : Block) : string :=
  match b_txs b with
  | [] => null_hash
  | txs => hex_encode (blake3 (tx_root_payload txs))
  end.

End block.

Section block_theory.
Context {C : Crypto} {CL : CryptoLaws C} `{TC : TxCodec}.

Lemma length_decode_hash_32 s : length (decode_hash_32 s) = 32%nat.
Proof.
  unfold decode_hash_32. rewrite length_app, length_take, repeat_length. lia.
Qed.

Lemma length_canonical_bytes h : length (canonical_bytes h) = 100%nat.
Proof.
  unfold canonical_bytes. rewrite !length_app, !length_be_bytes, !length_decode_hash_32. done.
Qed.

(** A canonical hash is recovered from its 32 bytes. *)
Lemma decode_hash_32_hex64 s : is_hex64 s = true → hex_decode s = Some (decode_hash_32 s).
Proof.
  intros (bs & Hd & Hl & He)%hex64_decode. rewrite Hd. unfold decode_hash_32.
  rewrite Hd. simpl. rewrite Hl. simpl. by rewrite app_nil_r, take_ge by lia.
Qed.

Lemma decode_hash_32_inj s t :
  is_hex64 s = true → is_hex64 t = true → decode_hash_32 s = decode_hash_32 t → s = t.
Proof.
  intros Hs Ht E. pose proof (decode_hash_32_hex64 s Hs) as Hds.
  pose proof (decode_hash_32_hex64 t Ht) as Hdt. rewrite E in Hds.
  apply hex_encode_decode in Hds; [|by apply andb_true_iff in Hs as [_ ?]].
  apply hex_encode_decode in Hdt; [|by apply andb_true_iff in Ht as [_ ?]].
  congruence.
Qed.

Lemma canonical_tx_id_length tx : length (string_bytes (canonical_tx_id tx)) = 64%nat.
Proof.
  rewrite length_string_bytes. unfold canonical_tx_id.
  by rewrite hex_encode_length, blake3_length.
Qed.

Lemma tx_root_payload_inj txs1 txs2 :
  tx_root_payload txs1 = tx_root_payload txs2 →
  map canonical_tx_id txs1 = map canonical_tx_id txs2.
Proof.
  unfold tx_root_payload. revert txs2.
  induction txs1 as [|t1 txs1 IH]; intros [|t2 txs2] E; simpl in *; [done|..].
  - apply (f_equal length) in E. rewrite length_app, canonical_tx_id_length in E. done.
  - apply (f_equal length) in E. rewrite length_app, canonical_tx_id_length in E. done.
  - apply app_inv_length in E as [E1%(inj string_bytes) E2];
      [|by rewrite !canonical_tx_id_length].
    rewrite E1. f_equal. by apply IH.
Qed.
End block_theory.

Lemma u64_bytes z : u64 z → 0 ≤ z < 256 ^ Z.of_nat 8.
Proof. unfold u64, U64_MAX. simpl. lia. Qed.

Lemma be_bytes8_inj a b : u64 a → u64 b → be_bytes 8 a = be_bytes 8 b → a = b.
Proof. intros. by apply (be_bytes_inj 8); [apply u64_bytes..|]. Qed.
Lemma le_bytes8_inj a b : u64 a → u64 b → le_bytes 8 a = le_bytes 8 b → a = b.
Proof. intros. by apply (le_bytes_inj 8); [apply u64_bytes..|]. Qed.

(** Peel two equal concatenations whose heads have equal lengths. *)
Ltac peel_app H :=
  apply app_inv_length in H as [? H];
  [|by rewrite ?length_be_bytes, ?length_le_bytes, ?length_decode_hash_32].

(** ** Properties *)

(** C25: The canonical header encoding is 100 bytes and loses none of the fields
    it is documented to commit to: two headers with canonical hashes and equal
    encodings agree on number, parent, timestamp, difficulty, nonce and
    transaction root. *)
Theorem canonical_bytes_injective {C : Crypto} {CL : CryptoLaws C} h1 h2 :
  header_wf h1 → header_wf h2 →
  is_hex64 (bh_parent_hash h1) = true → is_hex64 (bh_parent_hash h2) = true →
  is_hex64 (bh_tx_root h1) = true → is_hex64 (bh_tx_root h2) = true →
  canonical_bytes h1 = canonical_bytes h2 →
  length (canonical_bytes h1) = 100%nat ∧
  bh_number h1 = bh_number h2 ∧ bh_parent_hash h1 = bh_parent_hash h2 ∧
  bh_timestamp h1 = bh_timestamp h2 ∧ bh_difficulty h1 = bh_difficulty h2 ∧
  bh_nonce h1 = bh_nonce h2 ∧ bh_tx_root h1 = bh_tx_root h2.
Proof.
  intros (?&?&?&?) (?&?&?&?) Hp1 Hp2 Ht1 Ht2 E.
  split; [apply length_canonical_bytes|]. unfold canonical_bytes in E.
  do 6 peel_app E.
  split_and!; (apply be_bytes8_inj || apply decode_hash_32_inj); done.
Qed.

Definition toy_header (n t d nc : Z) : BlockHeader :=
  mkHeader null_hash n t d nc null_hash null_hash null_hash (toy_addr 1).

Lemma canonical_bytes_injective_witness :
  bh_nonce (toy_header 1 30 1 7) = bh_nonce (toy_header 1 30 1 7).
Proof.
  destruct (canonical_bytes_injective (toy_header 1 30 1 7) (toy_header 1 30 1 7))
    as (_ & _ & _ & _ & _ & H & _); [..|exact H]; try reflexivity;
    repeat split; vm_compute; intros; discriminate.
Defined.

(** C26: The transaction root commits to the sequence of transaction
    identifiers: two non-empty blocks with equal roots list the same
    identifiers in the same order, unless their two concatenations of
    identifiers are themselves a BLAKE3 collision. *)
Theorem tx_root_commits {C : Crypto} {CL : CryptoLaws C} `{TC : TxCodec} b1 b2 :
  b_txs b1 ≠ [] → b_txs b2 ≠ [] → compute_tx_root b1 = compute_tx_root b2 →
  map canonical_tx_id (b_txs b1) = map canonical_tx_id (b_txs b2) ∨
  (tx_root_payload (b_txs b1) ≠ tx_root_payload (b_txs b2) ∧
   blake3 (tx_root_payload (b_txs b1)) = blake3 (tx_root_payload (b_txs b2))).
Proof.
  unfold compute_tx_root. intros H1 H2 E.
  destruct (b_txs b1) as [|t1 l1] eqn:E1, (b_txs b2) as [|t2 l2] eqn:E2; try done.
  apply (inj hex_encode) in E.
  destruct (decide (tx_root_payload (t1 :: l1) = tx_root_payload (t2 :: l2))) as [Ep|Hne];
    [left; by apply tx_root_payload_inj|by right].
Qed.

Lemma tx_root_commits_witness :
  let b := mkBlock (toy_header 1 30 1 7) [toy_transfer 17 34 100 0 4 300] 1 in
  compute_tx_root b = compute_tx_root b ∧
  map canonical_tx_id (b_txs b) = map canonical_tx_id (b_txs b).
Proof.
  intros b. split; [reflexivity|].
  destruct (tx_root_commits b b) as [H|[H _]]; [discriminate..|reflexivity|exact H|by destruct H].
Defined.
