(* ===== verification/StateRoot.v ===== *)
(** * The state root ([src/chain/state_root.rs])

    The canonical byte vector of the account state and its hash.  Zero
    entries are skipped, keys must be 64 lowercase hex characters, entries are
    written in increasing key order. *)
From S2P Require Import Prelude Crypto Transaction Block.

Definition STATE_ROOT_MAGIC : list byte := string_bytes "VSTATE".
Definition STATE_ROOT_VERSION : Z := 1.

Inductive StateRootError := MalformedAccountKey | MixedCaseAccountKey.
#[export] Instance StateRootError_eq_dec : EqDecision StateRootError.
Proof. solve_decision. Defined.

Section state_root.
Context `{C : Crypto}.

Definition is_upper_hex_char (c : ascii) : bool := (65 <=? ascii_Z c) && (ascii_Z c <=? 70).

(** The scan of [validate_account_key]: an uppercase hex digit sets the first
    flag, any other non-lowercase-hex byte the second. *)
Fixpoint scan_account_key (s : string) (saw_uppercase saw_non_lower_hex : bool) : bool * bool :=
  match s with
  | EmptyString => (saw_uppercase, saw_non_lower_hex)
  | String c s =>
      if is_upper_hex_char c then scan_account_key s true saw_non_lower_hex
      else if negb (is_lower_hex_char c) then scan_account_key s saw_uppercase true
      else scan_account_key s saw_uppercase saw_non_lower_hex
  end.

Definition validate_account_key (key : string) : result StateRootError () :=
  if negb (slen key =? 64) then Err MalformedAccountKey
  else
    let '(saw_uppercase, saw_non_lower_hex) := scan_account_key key false false in
    if saw_uppercase then Err MixedCaseAccountKey
    else if saw_non_lower_hex then Err MalformedAccountKey
    else Ok ().

Definition decode_account_key (key : string) : result StateRootError (list byte) :=
  _ ← validate_account_key key;
  match hex_decode key with
  | Some bs => if bool_decide (length bs = 32%nat) then Ok bs else Err MalformedAccountKey
  | None => Err MalformedAccountKey
  end.

Definition encode_header : list byte := STATE_ROOT_MAGIC ++ le_bytes 4 STATE_ROOT_VERSION.

(** The filtered and sorted entries of a map. *)
Definition nonzero_entries (m : gmap string Z) : list (string * Z) :=
  merge_sort key_le (filter (λ e, e.2 ≠ 0) (bt_iter m)).

(** The loop writing the entries; [width] is the value's size in bytes. *)
Fixpoint append_entries (width : nat) (out : list byte) (entries : list (string * Z))
    : result StateRootError (list byte) :=
  match entries with
  | [] => Ok out
  | (key, v) :: entries =>
      decoded ← decode_account_key key;
      append_entries width (out ++ decoded ++ le_bytes width v) entries
  end.

Definition append_balances (out : list byte) (balances : gmap string Z)
    : result StateRootError (list byte) :=
  let entries := nonzero_entries balances in
  append_entries 16 (out ++ le_bytes 8 (Z.of_nat (length entries))) entries.

Definition append_nonces (out : list byte) (nonces : gmap string Z)
    : result StateRootError (list byte) :=
  let entries := nonzero_entries nonces in
  append_entries 8 (out ++ le_bytes 8 (Z.of_nat (length entries))) entries.

Definition canonical_state_vector (balances nonces : gmap string Z)
    : result StateRootError (list byte) :=
  out ← append_balances encode_header balances;
  append_nonces out nonces.

Definition compute_state_root (balances nonces : gmap string Z)
    : result StateRootError string :=
  vector ← canonical_state_vector balances nonces;
  Ok (hex_encode (blake3 vector)).

End state_root.

(** ** Theory *)

(** The observable part of a map: its nonzero entries. *)
Definition nonzero (m : gmap string Z) : gmap string Z := filter (λ e, e.2 ≠ 0) m.

(** Sorted permutations with distinct keys are equal. *)
Lemma sorted_keys_unique (l1 l2 : list (string * Z)) :
  StronglySorted key_le l1 → StronglySorted key_le l2 → NoDup l1.*1 → l1 ≡ₚ l2 → l1 = l2.
Proof.
  intros S1 S2 Hnd Hp. apply (StronglySorted_unique_strong key_le); [|done..].
  intros [k1 v1] [k2 v2] H1 H2 Hle1 Hle2. unfold key_le in *. simpl in *.
  assert (k1 = k2) as <- by (by apply (anti_symm String.le)).
  rewrite <- Hp in H2.
  apply list_elem_of_lookup in H1 as [i Hi], H2 as [j Hj].
  assert (i = j) as <-; [|congruence].
  eapply NoDup_lookup; [exact Hnd|..]; by rewrite list_lookup_fmap, ?Hi, ?Hj.
Qed.

Lemma filter_keys_NoDup (P : string * Z → Prop) `{∀ x, Decision (P x)} l :
  NoDup l.*1 → NoDup (filter P l).*1.
Proof. intros Hl. eapply sublist_NoDup; [exact Hl|]. apply fmap_sublist, sublist_filter. Qed.

Lemma map_to_list_filter_perm (P : string * Z → Prop) `{∀ x, Decision (P x)}
    (m : gmap string Z) :
  filter P (map_to_list m) ≡ₚ map_to_list (filter P m).
Proof.
  rewrite map_filter_alt, map_to_list_to_map; [done|].
  apply filter_keys_NoDup, NoDup_fst_map_to_list.
Qed.

Lemma nonzero_entries_spec m : nonzero_entries m = bt_iter (nonzero m).
Proof.
  unfold nonzero_entries. apply sorted_keys_unique.
  - apply StronglySorted_merge_sort; apply _.
  - apply bt_iter_sorted.
  - rewrite merge_sort_Permutation. apply filter_keys_NoDup, bt_iter_keys_NoDup.
  - rewrite merge_sort_Permutation, !bt_iter_perm. apply map_to_list_filter_perm.
Qed.

Lemma nonzero_lookup m k v : nonzero m !! k = Some v ↔ m !! k = Some v ∧ v ≠ 0.
Proof. unfold nonzero. rewrite map_lookup_filter_Some. done. Qed.

Section state_root_theory.
Context {C : Crypto} {CL : CryptoLaws C}.

Lemma scan_lower s u n : string_forallb is_lower_hex_char s = true →
  scan_account_key s u n = (u, n).
Proof.
  induction s as [|c s IH]; simpl; [done|]. intros [Hc Hs]%andb_true_iff.
  assert (is_upper_hex_char c = false) as ->.
  { unfold is_upper_hex_char, is_lower_hex_char in *. destruct (ascii_Z c <=? 70) eqn:E;
      [|by rewrite andb_false_r]. bools. apply orb_true_iff in Hc as [Hc|Hc]; bools;
      [|lia]. by rewrite (proj2 (Z.leb_gt 65 (ascii_Z c))) by lia. }
  rewrite Hc. simpl. auto.
Qed.

Lemma scan_mono s u n :
  (u = true → (scan_account_key s u n).1 = true) ∧
  (n = true → (scan_account_key s u n).2 = true).
Proof.
  revert u n. induction s as [|c s IH]; intros u n; simpl; [done|].
  destruct (is_upper_hex_char c); [split; intros; by apply IH|].
  destruct (is_lower_hex_char c); simpl; split; intros; by apply IH.
Qed.

Lemma scan_clean s : scan_account_key s false false = (false, false) →
  string_forallb is_lower_hex_char s = true.
Proof.
  induction s as [|c s IH]; simpl; [done|].
  destruct (is_upper_hex_char c).
  - intros E. pose proof (proj1 (scan_mono s true false) eq_refl) as Hm. by rewrite E in Hm.
  - destruct (is_lower_hex_char c); simpl; [auto|].
    intros E. pose proof (proj2 (scan_mono s false true) eq_refl) as Hm. by rewrite E in Hm.
Qed.

(** [decode_account_key] succeeds exactly on canonical addresses. *)
Lemma decode_account_key_spec key :
  (is_hex64 key = true ∧ ∃ bs, decode_account_key key = Ok bs ∧ hex_decode key = Some bs ∧
     length bs = 32%nat) ∨
  (is_hex64 key = false ∧ ∃ e, decode_account_key key = Err e).
Proof.
  unfold decode_account_key, validate_account_key, is_hex64.
  destruct (slen key =? 64) eqn:El; simpl; [|right; eauto].
  destruct (scan_account_key key false false) as [u n] eqn:Es.
  destruct (string_forallb is_lower_hex_char key) eqn:Eh.
  - rewrite (scan_lower _ _ _ Eh) in Es. simplify_eq. left. split; [done|].
    destruct (hex64_decode key) as (bs & Hd & Hl & _); [unfold is_hex64; by rewrite El, Eh|].
    exists bs. simpl. rewrite Hd, bool_decide_true by done. auto.
  - right. split; [done|]. destruct u; [by eexists|]. destruct n; [by eexists|].
    by rewrite (scan_clean _ Es) in Eh.
Qed.

Lemma decode_account_key_inj k1 k2 bs :
  decode_account_key k1 = Ok bs → decode_account_key k2 = Ok bs → k1 = k2.
Proof.
  intros E1 E2.
  destruct (decode_account_key_spec k1) as [(H1 & b1 & Hb1 & Hd1 & _)|(_ & e & He)];
    [|congruence].
  destruct (decode_account_key_spec k2) as [(H2 & b2 & Hb2 & Hd2 & _)|(_ & e & He)];
    [|congruence].
  assert (b1 = bs) as -> by congruence. assert (b2 = bs) as -> by congruence.
  apply hex_encode_decode in Hd1; [|by apply andb_true_iff in H1 as [_ ?]].
  apply hex_encode_decode in Hd2; [|by apply andb_true_iff in H2 as [_ ?]].
  congruence.
Qed.

Lemma decode_account_key_length k bs : decode_account_key k = Ok bs → length bs = 32%nat.
Proof.
  intros E. destruct (decode_account_key_spec k) as [(_ & b & Hb & _ & Hl)|(_ & e & He)];
    congruence.
Qed.

(** The entry writer separates into a prefix and the entries' own bytes. *)
Lemma append_entries_app w out es :
  append_entries w out es = match append_entries w [] es with
                            | Ok bs => Ok (out ++ bs)
                            | Err e => Err e
                            end.
Proof.
  revert out. induction es as [|[k v] es IH]; intros out; simpl; [by rewrite app_nil_r|].
  destruct (decode_account_key k) as [d|e]; simpl; [|done].
  rewrite IH, (IH (d ++ le_bytes w v)).
  destruct (append_entries w [] es); [|done]. by rewrite !app_assoc.
Qed.

Lemma append_entries_length w es bs :
  append_entries w [] es = Ok bs → length bs = (length es * (32 + w))%nat.
Proof.
  revert bs. induction es as [|[k v] es IH]; intros bs E; simpl in *; [by simplify_eq|].
  destruct (decode_account_key k) as [d|e] eqn:Ed; simpl in E; [|done].
  rewrite append_entries_app in E.
  destruct (append_entries w [] es) as [b|] eqn:Eb; simplify_eq.
  rewrite !length_app, length_le_bytes, (decode_account_key_length _ _ Ed), (IH b eq_refl). lia.
Qed.

(** Equal bytes come from equal entries. *)
Lemma append_entries_inj w es1 es2 bs :
  Forall (λ e, 0 ≤ e.2 < 256 ^ Z.of_nat w) es1 →
  Forall (λ e, 0 ≤ e.2 < 256 ^ Z.of_nat w) es2 →
  length es1 = length es2 →
  append_entries w [] es1 = Ok bs → append_entries w [] es2 = Ok bs → es1 = es2.
Proof.
  intros H1. revert es2 bs. induction H1 as [|[k1 v1] es1 Hv1 _ IH];
    intros [|[k2 v2] es2] bs H2 Hl E1 E2; simpl in *; try done.
  inversion H2 as [|? ? Hv2 H2']; subst; simpl in *.
  destruct (decode_account_key k1) as [d1|] eqn:Ed1; simpl in E1; [|done].
  destruct (decode_account_key k2) as [d2|] eqn:Ed2; simpl in E2; [|done].
  rewrite append_entries_app in E1, E2.
  destruct (append_entries w [] es1) as [b1|] eqn:Eb1; simplify_eq.
  destruct (append_entries w [] es2) as [b2|] eqn:Eb2; simplify_eq.
  rewrite <- !app_assoc in E2.
  apply app_inv_length in E2 as [-> E2];
    [|by rewrite (decode_account_key_length _ _ Ed1), (decode_account_key_length _ _ Ed2)].
  apply app_inv_length in E2 as [E2 ->]; [|by rewrite !length_le_bytes].
  apply le_bytes_inj in E2 as ->; [|done..].
  rewrite (decode_account_key_inj _ _ _ Ed1 Ed2). f_equal.
  eapply IH; eauto.
Qed.

(** The vector of well-formed maps, as its four parts. *)
Lemma canonical_state_vector_parts b n v :
  canonical_state_vector b n = Ok v ↔
  ∃ vb vn, append_entries 16 [] (bt_iter (nonzero b)) = Ok vb ∧
    append_entries 8 [] (bt_iter (nonzero n)) = Ok vn ∧
    v = encode_header ++ le_bytes 8 (Z.of_nat (length (bt_iter (nonzero b)))) ++ vb ++
        le_bytes 8 (Z.of_nat (length (bt_iter (nonzero n)))) ++ vn.
Proof.
  unfold canonical_state_vector, append_balances, append_nonces.
  rewrite !nonzero_entries_spec. rewrite append_entries_app.
  destruct (append_entries 16 [] (bt_iter (nonzero b))) as [vb|]; simpl; [|naive_solver].
  rewrite append_entries_app.
  destruct (append_entries 8 [] (bt_iter (nonzero n))) as [vn|]; simpl; [|naive_solver].
  rewrite <- !app_assoc. naive_solver.
Qed.

Lemma append_entries_ok w es :
  Forall (λ e, is_hex64 e.1 = true) es → ∃ bs, append_entries w [] es = Ok bs.
Proof.
  induction 1 as [|[k v] es Hk _ [bs IH]]; simpl; [eauto|].
  destruct (decode_account_key_spec k) as [(_ & b & -> & _)|(Hf & _)]; simpl in *; [|congruence].
  rewrite append_entries_app, IH. eauto.
Qed.

(** On canonical addresses the root always exists. *)
Lemma compute_state_root_ok b n :
  (∀ k v, b !! k = Some v → is_hex64 k = true) →
  (∀ k v, n !! k = Some v → is_hex64 k = true) →
  ∃ r, compute_state_root b n = Ok r.
Proof.
  intros Hb Hn. unfold compute_state_root.
  assert (∀ m w, (∀ k (v : Z), m !! k = Some v → is_hex64 k = true) →
    ∃ bs, append_entries w [] (bt_iter (nonzero m)) = Ok bs) as Hok.
  { intros m w Hm. apply append_entries_ok, Forall_forall. intros [k v] Hk.
    apply elem_of_bt_iter, nonzero_lookup in Hk as [Hk _]. simpl. eauto. }
  destruct (Hok b 16%nat Hb) as [vb Hvb], (Hok n 8%nat Hn) as [vn Hvn].
  destruct (canonical_state_vector b n) as [v|e] eqn:E; simpl; [eauto|].
  pose proof (proj2 (canonical_state_vector_parts b n _)
    (ex_intro _ vb (ex_intro _ vn (conj Hvb (conj Hvn eq_refl))))). congruence.
Qed.

Lemma nonzero_range m M w :
  map_Forall (λ _ v, 0 ≤ v ≤ M) m → M < 256 ^ Z.of_nat w →
  Forall (λ e, 0 ≤ e.2 < 256 ^ Z.of_nat w) (bt_iter (nonzero m)).
Proof.
  intros Hm HM. apply Forall_forall. intros [k v] Hk.
  apply elem_of_bt_iter, nonzero_lookup in Hk as [Hk _]. specialize (Hm _ _ Hk). simpl in *. lia.
Qed.

Lemma bt_iter_inj {A} (m1 m2 : gmap string A) : bt_iter m1 = bt_iter m2 → m1 = m2.
Proof. intros E. by rewrite <- (bt_iter_list_to_map m1), <- (bt_iter_list_to_map m2), E. Qed.
End state_root_theory.

(** An account state whose values have the widths of the program's maps and
    whose entry counts fit [usize]. *)
Definition accounts_wf (b n : gmap string Z) : Prop :=
  map_Forall (λ _ v, 0 ≤ v ≤ U128_MAX) b ∧ map_Forall (λ _ v, 0 ≤ v ≤ U64_MAX) n ∧
  Z.of_nat (length (bt_iter (nonzero b))) ≤ U64_MAX ∧
  Z.of_nat (length (bt_iter (nonzero n))) ≤ U64_MAX.

(** A boolean check of it, for concrete states. *)
Definition accounts_check (b n : gmap string Z) : bool :=
  forallb (λ e, (0 <=? e.2) && (e.2 <=? U128_MAX)) (map_to_list b) &&
  forallb (λ e, (0 <=? e.2) && (e.2 <=? U64_MAX)) (map_to_list n) &&
  (Z.of_nat (length (bt_iter (nonzero b))) <=? U64_MAX) &&
  (Z.of_nat (length (bt_iter (nonzero n))) <=? U64_MAX).

Lemma accounts_wf_check b n : accounts_check b n = true → accounts_wf b n.
Proof.
  assert (∀ (m : gmap string Z) M,
    forallb (λ e, (0 <=? e.2) && (e.2 <=? M)) (map_to_list m) = true →
    map_Forall (λ _ v, 0 ≤ v ≤ M) m) as Hm.
  { intros m M Hf k v Hkv%elem_of_map_to_list. rewrite forallb_forall in Hf.
    apply list_elem_of_In in Hkv. specialize (Hf _ Hkv). simpl in Hf. bools. lia. }
  unfold accounts_check. intros. bools. unfold accounts_wf. auto.
Qed.

Lemma canonical_state_vector_inj {C : Crypto} {CL : CryptoLaws C} b1 n1 b2 n2 v :
  accounts_wf b1 n1 → accounts_wf b2 n2 → canonical_state_vector b1 n1 = Ok v →
  canonical_state_vector b2 n2 = Ok v → nonzero b1 = nonzero b2 ∧ nonzero n1 = nonzero n2.
Proof.
  intros (Hb1 & Hn1 & Lb1 & Ln1) (Hb2 & Hn2 & Lb2 & Ln2) E1.
  apply canonical_state_vector_parts in E1 as (vb1 & vn1 & Eb1 & En1 & ->).
  intros (vb2 & vn2 & Eb2 & En2 & E)%canonical_state_vector_parts.
  apply app_inv_head in E.
  apply app_inv_length in E as [Eb E]; [|by rewrite !length_le_bytes].
  apply le_bytes8_inj in Eb; [|unfold u64; lia..]. apply Nat2Z.inj in Eb.
  apply app_inv_length in E as [-> E];
    [|by rewrite (append_entries_length _ _ _ Eb1), (append_entries_length _ _ _ Eb2), Eb].
  apply app_inv_length in E as [En ->]; [|by rewrite !length_le_bytes].
  apply le_bytes8_inj in En; [|unfold u64; lia..]. apply Nat2Z.inj in En.
  split; apply bt_iter_inj.
  + eapply (append_entries_inj 16); [eapply (nonzero_range _ U128_MAX); done..|exact Eb|exact Eb1|exact Eb2].
  + eapply (append_entries_inj 8); [eapply (nonzero_range _ U64_MAX); done..|exact En|exact En1|exact En2].
Qed.

(** ** Properties *)

(** C9: The canonical state vector is an injective, zero-insensitive encoding:
    two account states have the same vector exactly when their nonzero
    balances and their nonzero nonces coincide. *)
Theorem canonical_state_vector_injective {C : Crypto} {CL : CryptoLaws C} b1 n1 b2 n2 v :
  accounts_wf b1 n1 → accounts_wf b2 n2 → canonical_state_vector b1 n1 = Ok v →
  canonical_state_vector b2 n2 = Ok v ↔ nonzero b1 = nonzero b2 ∧ nonzero n1 = nonzero n2.
Proof.
  intros H1 H2 E1. split.
  - intros E2. by apply (canonical_state_vector_inj b1 n1 b2 n2 v).
  - intros [Eb En]. apply canonical_state_vector_parts.
    apply canonical_state_vector_parts in E1 as (vb & vn & Hb & Hn & ->).
    exists vb, vn. by rewrite <- Eb, <- En.
Qed.

Lemma canonical_state_vector_injective_witness :
  let b := {[toy_addr 17 := 5]} : gmap string Z in
  let b' := <[toy_addr 18 := 0]> b in
  ∃ v, canonical_state_vector b ∅ = Ok v ∧ canonical_state_vector b' ∅ = Ok v.
Proof.
  intros b b'.
  assert (accounts_wf b ∅) as W1 by (apply accounts_wf_check; vm_compute; reflexivity).
  assert (accounts_wf b' ∅) as W2 by (apply accounts_wf_check; vm_compute; reflexivity).
  assert (nonzero b = nonzero b') as Hnz.
  { apply map_eq. intros k. apply option_eq. intros x. rewrite !nonzero_lookup.
    unfold b'. rewrite lookup_insert_Some. split.
    - intros [Hk Hx]. split; [right|done]. split; [|done]. intros <-.
      apply lookup_singleton_Some in Hk as [Hk _]. vm_compute in Hk. discriminate Hk.
    - intros [[[_ <-]|[_ Hk]] Hx]; done. }
  destruct (is_ok_true (canonical_state_vector b ∅)) as [v E]; [vm_compute; reflexivity|].
  exists v. split; [exact E|].
  exact (proj2 (canonical_state_vector_injective b ∅ b' ∅ v W1 W2 E) (conj Hnz eq_refl)).
Defined.

(** C10: The state root exists exactly when the key of every nonzero balance
    and of every nonzero nonce is a canonical address, 64 lowercase hexadecimal
    characters; otherwise the computation fails, so no block can commit to a
    state in which a malformed account has a nonzero entry.  Keys with zero
    entries are not looked at. *)
Theorem compute_state_root_defined {C : Crypto} {CL : CryptoLaws C} b n :
  (∃ r, compute_state_root b n = Ok r) ↔
  (∀ k v, nonzero b !! k = Some v → is_hex64 k = true) ∧
  (∀ k v, nonzero n !! k = Some v → is_hex64 k = true).
Proof.
  assert (∀ w es bs, append_entries w [] es = Ok bs → Forall (λ e, is_hex64 e.1 = true) es)
    as Hinv.
  { intros w es. induction es as [|[k v] es IH]; intros bs E; simpl in E; [constructor|].
    destruct (decode_account_key_spec k) as [(Hk & d & Hd & _)|(_ & e & He)];
      [rewrite Hd in E|rewrite He in E; done].
    simpl in E. rewrite append_entries_app in E.
    destruct (append_entries w [] es) as [b'|] eqn:Eb; [|done]. constructor; eauto. }
  assert (∀ w m, (∃ bs, append_entries w [] (bt_iter (nonzero m)) = Ok bs) ↔
    ∀ k v, nonzero m !! k = Some v → is_hex64 k = true) as Hm.
  { intros w m. split.
    - intros [bs E%Hinv] k v Hk. rewrite Forall_forall in E.
      apply (E (k, v)). by apply elem_of_bt_iter.
    - intros Hk. apply append_entries_ok, Forall_forall.
      intros [k v] Hkv%elem_of_bt_iter. simpl. eauto. }
  rewrite <- (Hm 16%nat), <- (Hm 8%nat). unfold compute_state_root. split.
  - intros [r E]. apply bind_Ok in E as (v & E & _).
    apply canonical_state_vector_parts in E as (vb & vn & ? & ? & _). eauto.
  - intros [[vb Eb] [vn En]].
    pose proof (proj2 (canonical_state_vector_parts b n _)
      (ex_intro _ vb (ex_intro _ vn (conj Eb (conj En eq_refl))))) as ->. simpl. eauto.
Qed.

Lemma compute_state_root_defined_witness :
  ∃ r, compute_state_root {[toy_addr 17 := 5]} ∅ = Ok r.
Proof.
  apply (compute_state_root_defined (C:=toy_crypto) {[toy_addr 17 := 5]} ∅). split; intros k v.
  - intros [Hk _]%nonzero_lookup. apply lookup_singleton_Some in Hk as [<- _]. vm_compute. reflexivity.
  - intros [Hk _]%nonzero_lookup. by rewrite lookup_empty in Hk.
Defined.
