(* ===== verification/Difficulty.v ===== *)
(** * Difficulty ([src/pow/difficulty.rs])

    Target encoding, the upper-64-bit comparison, and the LWMA retarget with
    its stall downshift.  Sums are over at most [RETARGET_WINDOW] intervals, so
    the [u128] accumulators cannot wrap; the final [as u64] cast can, and is
    written out. *)
From S2P Require Import Prelude Crypto Constants Transaction Block.

Definition difficulty_to_target (difficulty : Z) : list byte :=
  be_bytes 8 (U64_MAX / Z.max difficulty 1) ++ repeat (Z_byte 255) 24.

Definition verify_pow_hash `{C : Crypto} (hash_hex : string) (difficulty : Z) : bool :=
  match hex_decode hash_hex with
  | None => false
  | Some hash_bytes =>
      if negb (bool_decide (length hash_bytes = 32%nat)) then false
      else bytes_leb (take 8 hash_bytes) (take 8 (difficulty_to_target difficulty))
  end.

(** The last [n + 1] blocks, or all of them. *)
Definition last_window (n : nat) (blocks : list Block) : list Block :=
  if (n + 1 <? length blocks)%nat then drop (length blocks - (n + 1)) blocks else blocks.

Record lwma_acc := mkAcc { weighted_sum : Z; weight_total : Z; sum_difficulty : Z }.

(** The clamped interval between two consecutive blocks. *)
Definition clamped_interval (prev next : Block) : Z :=
  let raw_interval := sat_sub (b_timestamp next) (b_timestamp prev) in
  Z.min (Z.max raw_interval LWMA_MIN_INTERVAL_SECS) LWMA_MAX_INTERVAL_SECS.

(** The accumulation loop, at index [i] of the window. *)
Fixpoint lwma_loop (i : Z) (acc : lwma_acc) (window : list Block) : lwma_acc :=
  match window with
  | b0 :: ((b1 :: _) as rest) =>
      let clamped := clamped_interval b0 b1 in
      let weight := i + 1 in
      lwma_loop (i + 1)
        (mkAcc (weighted_sum acc + clamped * weight) (weight_total acc + weight)
               (sum_difficulty acc + b_difficulty b1)) rest
  | _ => acc
  end.

Definition last_timestamp (window : list Block) : Z :=
  match last window with Some b => b_timestamp b | None => 0 end.

(** The retargeted difficulty before the stall check. *)
Definition lwma_difficulty (window : list Block) : Z :=
  let count := Z.of_nat (length window) - 1 in
  let acc := lwma_loop 0 (mkAcc 0 0 0) window in
  let lwma_interval := Z.max (weighted_sum acc / weight_total acc) 1 in
  let avg_difficulty := sum_difficulty acc / count in
  sat_mul128 avg_difficulty TARGET_BLOCK_TIME / lwma_interval.

(** The wall-clock stall downshift. *)
Definition stall_adjust (new_diff wait_since_last : Z) : Z :=
  if TARGET_BLOCK_TIME * STALL_MULTIPLIER <? wait_since_last
  then sat_mul128 new_diff 3 / 4 else new_diff.

Definition calculate_next_difficulty (blocks : list Block) (now_secs : Z) : Z :=
  let n := Z.to_nat RETARGET_WINDOW in
  if (length blocks <? 2)%nat then DIFFICULTY_FLOOR
  else
    let window := last_window n blocks in
    let new_diff := lwma_difficulty window in
    let new_diff := stall_adjust new_diff (sat_sub now_secs (last_timestamp window)) in
    wrap64 (Z.max new_diff DIFFICULTY_FLOOR).

Definition expected_block_difficulty (blocks : list Block) (candidate_ts : Z) : Z :=
  calculate_next_difficulty blocks candidate_ts.

(** ** Theory *)

(** Lexicographic order on equal-length byte strings is numeric order. *)
Lemma be_val_cons b bs : be_val (b :: bs) = byte_Z b * 256 ^ Z.of_nat (length bs) + be_val bs.
Proof.
  unfold be_val. simpl rev.
  assert (∀ l c, le_val (l ++ [c]) = le_val l + byte_Z c * 256 ^ Z.of_nat (length l)) as Happ.
  { induction l as [|x l IH]; intros c; simpl le_val; simpl length; [simpl; lia|].
    rewrite IH, Nat2Z.inj_succ, Z.pow_succ_r by lia. lia. }
  rewrite Happ, length_rev. lia.
Qed.

Lemma bytes_leb_be_val a b :
  length a = length b → bytes_leb a b = (be_val a <=? be_val b).
Proof.
  revert b. induction a as [|x a IH]; intros [|y b] Hl; simpl in Hl; try done.
  simpl bytes_leb. rewrite !be_val_cons. injection Hl as Hl. rewrite Hl.
  pose proof (be_val_bound a) as Ba. pose proof (be_val_bound b) as Bb. rewrite Hl in Ba.
  pose proof (Z.pow_pos_nonneg 256 (Z.of_nat (length b)) ltac:(lia) ltac:(lia)).
  destruct (Z.ltb_spec (byte_Z x) (byte_Z y)).
  - symmetry. apply Z.leb_le. nia.
  - destruct (Z.ltb_spec (byte_Z y) (byte_Z x)).
    + symmetry. apply Z.leb_gt. nia.
    + assert (byte_Z x = byte_Z y) as -> by lia. rewrite IH by done.
      destruct (Z.leb_spec (be_val a) (be_val b)); symmetry; [apply Z.leb_le|apply Z.leb_gt]; lia.
Qed.

Lemma target_hi d : take 8 (difficulty_to_target d) = be_bytes 8 (U64_MAX / Z.max d 1).
Proof. unfold difficulty_to_target. apply take_app_length'. by rewrite length_be_bytes. Qed.

Lemma target_hi_range d : 0 ≤ U64_MAX / Z.max d 1 < 256 ^ Z.of_nat 8.
Proof.
  split; [apply Z.div_pos; unfold U64_MAX; lia|].
  apply Z.le_lt_trans with U64_MAX; [|done].
  apply Z.div_le_upper_bound; unfold U64_MAX; nia.
Qed.

Lemma length_target d : length (difficulty_to_target d) = 32%nat.
Proof. unfold difficulty_to_target. by rewrite length_app, length_be_bytes, repeat_length. Qed.

(** The comparison used everywhere: the digest's upper 64 bits, as a number,
    against [u64::MAX / difficulty]. *)
Lemma meets_target_spec h d : (8 ≤ length h)%nat →
  bytes_leb (take 8 h) (take 8 (difficulty_to_target d)) =
  (be_val (take 8 h) <=? U64_MAX / Z.max d 1).
Proof.
  intros Hl. rewrite bytes_leb_be_val.
  - rewrite target_hi, be_val_be_bytes; [done|]. apply target_hi_range.
  - rewrite target_hi, length_be_bytes, length_take. lia.
Qed.

Lemma clamped_interval_range a b : 7 ≤ clamped_interval a b ≤ 180.
Proof.
  unfold clamped_interval, LWMA_MIN_INTERVAL_SECS, LWMA_MAX_INTERVAL_SECS, TARGET_BLOCK_TIME.
  change (30 / 4) with 7. lia.
Qed.

Lemma lwma_loop_cons i acc b0 b1 rest :
  lwma_loop i acc (b0 :: b1 :: rest) =
  lwma_loop (i + 1)
    (mkAcc (weighted_sum acc + clamped_interval b0 b1 * (i + 1)) (weight_total acc + (i + 1))
       (sum_difficulty acc + b_difficulty b1)) (b1 :: rest).
Proof. reflexivity. Qed.

(** Bounds the accumulators keep, for difficulties between [lo] and [hi]. *)
Lemma lwma_loop_bounds lo hi window i acc :
  0 ≤ i → Forall (λ b, lo ≤ b_difficulty b ≤ hi) window →
  let acc' := lwma_loop i acc window in
  let k := Z.of_nat (length window) - 1 in
  (0 < k → weight_total acc < weight_total acc') ∧
  weight_total acc ≤ weight_total acc' ∧
  7 * (weight_total acc' - weight_total acc) ≤ weighted_sum acc' - weighted_sum acc
    ≤ 180 * (weight_total acc' - weight_total acc) ∧
  (0 ≤ k → lo * k ≤ sum_difficulty acc' - sum_difficulty acc ≤ hi * k).
Proof.
  intros Hi Hf. revert i acc Hi. induction window as [|b0 [|b1 rest] IH]; intros i acc Hi;
    [simpl; lia..|].
  inversion Hf as [|? ? _ Hf']; subst. inversion Hf' as [|? ? Hb1 _]; subst.
  pose proof (clamped_interval_range b0 b1) as Hc.
  rewrite lwma_loop_cons.
  set (acc1 := mkAcc _ _ _).
  specialize (IH Hf' (i + 1) acc1 ltac:(lia)). cbv zeta in IH |- *.
  set (acc' := lwma_loop _ acc1 _) in *. clearbody acc'.
  subst acc1. cbn [weighted_sum weight_total sum_difficulty length] in *.
  rewrite !Nat2Z.inj_succ in *.
  destruct IH as (_ & IH2 & IH3 & IH4). specialize (IH4 ltac:(lia)).
  split; [lia|]. split; [lia|]. split; nia.
Qed.

Lemma last_window_length n blocks : (2 ≤ length blocks)%nat → (1 ≤ n)%nat →
  (2 ≤ length (last_window n blocks) ≤ n + 1)%nat.
Proof.
  intros. unfold last_window. destruct (Nat.ltb_spec (n + 1) (length blocks)); [|lia].
  rewrite length_drop. lia.
Qed.

Lemma last_window_Forall (P : Block → Prop) n blocks : Forall P blocks → Forall P (last_window n blocks).
Proof. intros. unfold last_window. destruct (_ <? _)%nat; [by apply Forall_drop|done]. Qed.

(** The interval average lies between the clamps, the difficulty average
    between the extremes. *)
Lemma lwma_difficulty_bounds lo hi window :
  0 ≤ lo → hi ≤ U64_MAX → (2 ≤ length window)%nat →
  Forall (λ b, lo ≤ b_difficulty b ≤ hi) window →
  lo * 30 / 180 ≤ lwma_difficulty window ≤ hi * 30 / 7.
Proof.
  intros Hlo Hhi Hlen Hf. unfold lwma_difficulty.
  pose proof (lwma_loop_bounds lo hi window 0 (mkAcc 0 0 0) ltac:(lia) Hf) as Hb.
  cbv zeta in Hb. set (acc := lwma_loop 0 _ window) in *. simpl in Hb.
  set (k := Z.of_nat (length window) - 1) in *.
  destruct Hb as (Hw & _ & Hws & Hsd). specialize (Hw ltac:(lia)). specialize (Hsd ltac:(lia)).
  assert (7 ≤ weighted_sum acc / weight_total acc ≤ 180) as Hl.
  { split; [apply Z.div_le_lower_bound; lia|].
    apply Z.div_le_upper_bound; lia. }
  assert (lo ≤ sum_difficulty acc / k ≤ hi) as Ha.
  { split; [apply Z.div_le_lower_bound; lia|apply Z.div_le_upper_bound; lia]. }
  set (avg := sum_difficulty acc / k) in *. set (l := weighted_sum acc / weight_total acc) in *.
  unfold sat_mul128, TARGET_BLOCK_TIME, U128_MAX. unfold U64_MAX in Hhi.
  rewrite Z.min_r by lia. rewrite Z.max_l by lia.
  split.
  - apply Z.le_trans with (avg * 30 / 180).
    + apply Z.div_le_mono; lia.
    + apply Z.div_le_compat_l; lia.
  - apply Z.le_trans with (avg * 30 / 7).
    + apply Z.div_le_compat_l; lia.
    + apply Z.div_le_mono; lia.
Qed.

Lemma stall_adjust_bounds d w : 0 ≤ d ≤ U64_MAX * 30 / 7 →
  d * 3 / 4 ≤ stall_adjust d w ≤ d.
Proof.
  intros Hd. assert (d ≤ U128_MAX / 3) as Hd'.
  { etransitivity; [apply Hd|]. vm_compute. discriminate. }
  assert (d * 3 ≤ U128_MAX). { transitivity (U128_MAX / 3 * 3); [lia|]. vm_compute. discriminate. }
  unfold stall_adjust, sat_mul128. rewrite Z.min_r by lia.
  assert (d * 3 / 4 ≤ d) by (apply Z.div_le_upper_bound; lia).
  destruct (_ <? _); lia.
Qed.

(** ** Properties *)

(** C11: One retarget moves the difficulty by bounded factors of the least
    and greatest difficulty in its window: from difficulties between [lo] and
    [hi] the next one is never below the floor, never below an eighth of [lo]
    (up to rounding) and never above 30/7 of [hi] (or the floor), for windows
    of at least two blocks and as long as 30/7 of [hi] fits 64 bits. *)
Theorem retarget_bounds lo hi blocks now_secs :
  0 ≤ lo → hi * 30 / 7 ≤ U64_MAX → (2 ≤ length blocks)%nat →
  Forall (λ b, lo ≤ b_difficulty b ≤ hi) blocks →
  let r := calculate_next_difficulty blocks now_secs in
  DIFFICULTY_FLOOR ≤ r ∧ lo * 30 / 180 * 3 / 4 ≤ r ≤ Z.max DIFFICULTY_FLOOR (hi * 30 / 7).
Proof.
  intros Hlo Hhi Hlen Hf. cbv zeta. unfold calculate_next_difficulty.
  rewrite (proj2 (Nat.ltb_ge (length blocks) 2)) by lia. cbv zeta.
  set (w := last_window _ blocks).
  assert (2 ≤ length w)%nat as Hw by (apply last_window_length; [lia|vm_compute; lia]).
  assert (hi ≤ U64_MAX) as Hh.
  { assert (hi * 30 < 7 * (U64_MAX + 1)); [|unfold U64_MAX in *; lia].
    pose proof (Z.mul_succ_div_gt (hi * 30) 7). lia. }
  pose proof (lwma_difficulty_bounds lo hi w Hlo Hh Hw (last_window_Forall _ _ _ Hf)) as Hd.
  assert (0 ≤ lo * 30 / 180) as H0 by (apply Z.div_pos; lia).
  pose proof (stall_adjust_bounds (lwma_difficulty w)
    (sat_sub now_secs (last_timestamp w))) as Hs.
  set (d := lwma_difficulty w) in *. set (s := stall_adjust d _) in *.
  assert (hi * 30 / 7 ≤ U64_MAX * 30 / 7) by (apply Z.div_le_mono; lia).
  specialize (Hs ltac:(lia)).
  assert (lo * 30 / 180 * 3 / 4 ≤ d * 3 / 4) by (apply Z.div_le_mono; lia).
  unfold DIFFICULTY_FLOOR. rewrite wrap64_small by (unfold u64, U64_MAX in *; lia). lia.
Qed.

Definition toy_block (n t d : Z) : Block := mkBlock (toy_header n t d 0) [] 0.

Lemma retarget_bounds_witness :
  let r := calculate_next_difficulty [toy_block 0 0 1000; toy_block 1 30 1000] 60 in
  r = 1000 ∧ 125 ≤ r.
Proof.
  destruct (retarget_bounds 1000 1000 [toy_block 0 0 1000; toy_block 1 30 1000] 60)
    as (_ & H & _); [lia|vm_compute; discriminate|simpl; lia| |].
  - repeat constructor; vm_compute; intros; discriminate.
  - split; [vm_compute; reflexivity|exact H].
Defined.

(** Retargeting depends on the last twenty-one blocks only, so a validator
    that walks back one window and a miner that takes the tail of its chain
    compute the same difficulty. *)
Theorem retarget_depends_on_window prefix window now_secs :
  Z.of_nat (length window) = RETARGET_WINDOW + 1 →
  calculate_next_difficulty (prefix ++ window) now_secs =
  calculate_next_difficulty window now_secs.
Proof.
  unfold RETARGET_WINDOW. intros Hl. assert (length window = 21)%nat as Hl' by lia.
  unfold calculate_next_difficulty. change (Z.to_nat RETARGET_WINDOW) with 20%nat.
  rewrite length_app, Hl'.
  rewrite (proj2 (Nat.ltb_ge (length prefix + 21) 2)) by lia.
  rewrite (proj2 (Nat.ltb_ge 21 2)) by lia.
  assert (last_window 20 (prefix ++ window) = window) as Hw.
  { unfold last_window. rewrite length_app, Hl'.
    destruct (Nat.ltb_spec (20 + 1) (length prefix + 21)).
    - replace (length prefix + 21 - (20 + 1))%nat with (length prefix) by lia.
      apply drop_app_length.
    - destruct prefix; [done|simpl in *; lia]. }
  assert (last_window 20 window = window) as Hw'.
  { unfold last_window. by rewrite Hl'. }
  cbv zeta. by rewrite Hw, Hw'.
Qed.

Lemma retarget_depends_on_window_witness :
  let w := map (λ i, toy_block (Z.of_nat i) (30 * Z.of_nat i) 1000) (seq 1 21) in
  calculate_next_difficulty (toy_block 0 0 5 :: w) 660 = calculate_next_difficulty w 660.
Proof. intros w. apply (retarget_depends_on_window [toy_block 0 0 5] w 660). reflexivity. Defined.

(** The final narrowing to 64 bits is not protected: there are in-range
    difficulties and timestamps for which the required difficulty comes out as
    zero, below [DIFFICULTY_FLOOR], although the code takes the maximum with
    the floor just before. *)
Theorem retarget_can_fall_below_floor :
  ∃ blocks now_secs,
    Forall (λ b, block_wf b) blocks ∧
    calculate_next_difficulty blocks now_secs = 0 ∧ 0 < DIFFICULTY_FLOOR.
Proof.
  exists [toy_block 0 0 (2 ^ 63); toy_block 1 15 (2 ^ 63)], 30.
  split; [|split; vm_compute; reflexivity].
  repeat constructor; vm_compute; intros; discriminate.
Qed.

(** C12: The target comparison is the documented one and is monotone: for a
    positive difficulty a 32-byte hash passes exactly when its upper 64 bits
    times the difficulty stay below 2^64, so whatever passes a difficulty
    passes every lower one. *)
Theorem verify_pow_hash_spec `{C : Crypto} hash_hex difficulty :
  0 < difficulty →
  verify_pow_hash hash_hex difficulty = true ↔
  ∃ bs, hex_decode hash_hex = Some bs ∧ length bs = 32%nat ∧
    be_val (take 8 bs) * difficulty ≤ U64_MAX.
Proof.
  intros Hd. unfold verify_pow_hash.
  destruct (hex_decode hash_hex) as [bs|]; [|naive_solver].
  destruct (decide (length bs = 32%nat)) as [Hl|Hl].
  - rewrite bool_decide_true by done. cbn [negb]. rewrite meets_target_spec by lia.
    rewrite Z.leb_le, Z.max_l by lia.
    split; [intros H|intros (b & ? & _ & H)]; simplify_eq.
    + exists bs. split_and!; [done..|].
      pose proof (Z.mul_div_le U64_MAX difficulty Hd). nia.
    + apply Z.div_le_lower_bound; lia.
  - rewrite bool_decide_false by done. naive_solver.
Qed.

Lemma verify_pow_hash_spec_witness :
  verify_pow_hash (toy_addr 1) 3 = true.
Proof.
  apply (verify_pow_hash_spec (toy_addr 1) 3); [lia|].
  exists (toy_key 1). split_and!; [vm_compute; reflexivity..|vm_compute; discriminate].
Defined.
