(* ===== verification/HistoricalVpow.v ===== *)
(** * The historical PoW preimage ([src/pow/historical_vpow.rs])

    The byte string VisionX hashes for a header, with the nonce zeroed, and
    exactly which header fields it commits to. *)
From S2P Require Import Prelude Crypto Constants Transaction Block.

Definition VPOW_MAGIC : list byte := string_bytes "VPOW".
Definition VPOW_VERSION : Z := 1.
Definition HISTORICAL_VPOW_NONCE_OFFSET : Z := 64.

(** The formatted errors of the strict hash decoder. *)
Inductive HashDecodeError :=
| InvalidHex (label : string)
| ExpectedBytes32 (label : string) (got : nat).
#[export] Instance HashDecodeError_eq_dec : EqDecision HashDecodeError.
Proof. solve_decision. Defined.

(** [s.strip_prefix("0x").unwrap_or(s)]. *)
Definition strip_0x (s : string) : string :=
  match s with String "0" (String "x" s') => s' | _ => s end.

Section vpow.
Context `{C : Crypto}.

Definition decode_hash_32 (label s : string) : result HashDecodeError (list byte) :=
  match hex_decode (strip_0x s) with
  | None => Err (InvalidHex label)
  | Some bytes =>
      if bool_decide (length bytes = 32%nat) then Ok bytes
      else Err (ExpectedBytes32 label (length bytes))
  end.

Definition historical_vpow_message_bytes (header : BlockHeader)
    : result HashDecodeError (list byte) :=
  parent_hash ← decode_hash_32 "parent_hash" (bh_parent_hash header);
  tx_root ← decode_hash_32 "tx_root" (bh_tx_root header);
  let miner_bytes := string_bytes (bh_miner header) in
  Ok (VPOW_MAGIC ++ le_bytes 4 VPOW_VERSION ++ parent_hash ++
      le_bytes 8 (bh_number header) ++ le_bytes 8 (bh_timestamp header) ++
      le_bytes 8 (bh_difficulty header) ++ be_bytes 8 (bh_nonce header) ++ tx_root ++
      le_bytes 4 (Z.of_nat (length miner_bytes)) ++ miner_bytes).

Definition with_nonce (h : BlockHeader) (nonce : Z) : BlockHeader :=
  mkHeader (bh_parent_hash h) (bh_number h) (bh_timestamp h) (bh_difficulty h) nonce
    (bh_pow_hash h) (bh_state_root h) (bh_tx_root h) (bh_miner h).

Definition historical_vpow_message_bytes_with_nonce_zero (header : BlockHeader)
    : result HashDecodeError (list byte) :=
  historical_vpow_message_bytes (with_nonce header 0).

End vpow.

Section vpow_theory.
Context {C : Crypto} {CL : CryptoLaws C}.

Lemma strip_0x_hex64 s : is_hex64 s = true → strip_0x s = s.
Proof.
  intros [_ Hs]%andb_true_iff. destruct s as [|c [|d s]]; [done| |].
  - simpl. by destruct c as [[] [] [] [] [] [] [] []].
  - simpl in Hs. apply andb_true_iff in Hs as [_ Hs]. apply andb_true_iff in Hs as [Hd _].
    unfold strip_0x.
    destruct c as [[] [] [] [] [] [] [] []]; try done.
    destruct d as [[] [] [] [] [] [] [] []]; try done.
Qed.

Lemma vpow_hash_32_hex64 label s : is_hex64 s = true →
  decode_hash_32 label s = Ok (Block.decode_hash_32 s).
Proof.
  intros Hs. unfold decode_hash_32. rewrite strip_0x_hex64 by done.
  rewrite decode_hash_32_hex64 by done.
  by rewrite bool_decide_true by apply Block.length_decode_hash_32.
Qed.

(** The preimage of a header with canonical hashes. *)
Lemma nonce_zero_message h :
  is_hex64 (bh_parent_hash h) = true → is_hex64 (bh_tx_root h) = true →
  historical_vpow_message_bytes_with_nonce_zero h =
  Ok ((VPOW_MAGIC ++ le_bytes 4 VPOW_VERSION) ++ Block.decode_hash_32 (bh_parent_hash h) ++
      le_bytes 8 (bh_number h) ++ le_bytes 8 (bh_timestamp h) ++
      le_bytes 8 (bh_difficulty h) ++ be_bytes 8 0 ++ Block.decode_hash_32 (bh_tx_root h) ++
      le_bytes 4 (Z.of_nat (length (string_bytes (bh_miner h)))) ++ string_bytes (bh_miner h)).
Proof.
  intros Hp Ht. unfold historical_vpow_message_bytes_with_nonce_zero, historical_vpow_message_bytes.
  cbn [with_nonce bh_parent_hash bh_tx_root bh_nonce].
  rewrite !vpow_hash_32_hex64 by done. rewrite <- app_assoc. reflexivity.
Qed.

Lemma decode_hash_32_length label s bs : decode_hash_32 label s = Ok bs → length bs = 32%nat.
Proof. unfold decode_hash_32. intros. split_matches. by bools. Qed.

(** The preimage is 108 bytes plus the miner string, with the nonce at the
    advertised offset. *)
Lemma message_bytes_shape h bs :
  historical_vpow_message_bytes h = Ok bs →
  length bs = (108 + String.length (bh_miner h))%nat ∧
  take 8 (drop (Z.to_nat HISTORICAL_VPOW_NONCE_OFFSET) bs) = be_bytes 8 (bh_nonce h).
Proof.
  unfold historical_vpow_message_bytes.
  intros (p & Hp%decode_hash_32_length & E)%bind_Ok.
  apply bind_Ok in E as (t & Ht%decode_hash_32_length & E).
  cbv zeta in E. apply Ok_inj in E as <-.
  split.
  - rewrite !length_app, !length_le_bytes, length_be_bytes, length_string_bytes, Hp, Ht.
    simpl. lia.
  - set (pre := VPOW_MAGIC ++ le_bytes 4 VPOW_VERSION ++ p ++ le_bytes 8 (bh_number h) ++
      le_bytes 8 (bh_timestamp h) ++ le_bytes 8 (bh_difficulty h)).
    match goal with |- take 8 (drop _ ?l) = _ =>
      assert (∃ post, l = pre ++ be_bytes 8 (bh_nonce h) ++ post) as [post ->] end.
    { eexists. unfold pre. rewrite <- !app_assoc. reflexivity. }
    rewrite drop_app_length'; [apply take_app_length'; by rewrite length_be_bytes|].
    unfold pre. rewrite !length_app, !length_le_bytes, Hp. reflexivity.
Qed.
End vpow_theory.

(** ** Properties *)

(** C13: The historical preimage commits to the parent, number, timestamp,
    difficulty, transaction root and miner of a header, and to nothing else:
    two headers with canonical hashes have the same preimage exactly when
    these six fields agree, whatever their nonce, state root and claimed hash. *)
Theorem vpow_preimage_commits_exactly {C : Crypto} {CL : CryptoLaws C} h1 h2 :
  header_wf h1 → header_wf h2 →
  is_hex64 (bh_parent_hash h1) = true → is_hex64 (bh_parent_hash h2) = true →
  is_hex64 (bh_tx_root h1) = true → is_hex64 (bh_tx_root h2) = true →
  slen (bh_miner h1) ≤ U32_MAX → slen (bh_miner h2) ≤ U32_MAX →
  historical_vpow_message_bytes_with_nonce_zero h1 =
    historical_vpow_message_bytes_with_nonce_zero h2 ↔
  bh_parent_hash h1 = bh_parent_hash h2 ∧ bh_number h1 = bh_number h2 ∧
  bh_timestamp h1 = bh_timestamp h2 ∧ bh_difficulty h1 = bh_difficulty h2 ∧
  bh_tx_root h1 = bh_tx_root h2 ∧ bh_miner h1 = bh_miner h2.
Proof.
  intros (?&?&?&?) (?&?&?&?) Hp1 Hp2 Ht1 Ht2 Hm1 Hm2.
  rewrite !nonce_zero_message by done.
  split; [|by intros (-> & -> & -> & -> & -> & ->)].
  intros E%Ok_inj. apply app_inv_head in E. do 4 peel_app E. apply app_inv_head in E.
  do 2 peel_app E. apply (inj string_bytes) in E.
  split_and!; try done; (apply le_bytes8_inj || apply Block.decode_hash_32_inj); try done.
Qed.

Lemma vpow_preimage_commits_exactly_witness :
  let h := toy_header 1 30 1 7 in
  let h' := mkHeader (bh_parent_hash h) 1 30 1 9 "ff" (toy_addr 9) (bh_tx_root h) (bh_miner h) in
  historical_vpow_message_bytes_with_nonce_zero h =
  historical_vpow_message_bytes_with_nonce_zero h'.
Proof.
  intros h h'. apply (vpow_preimage_commits_exactly h h'); try reflexivity;
    try (vm_compute; discriminate).
  - repeat split; vm_compute; intros; discriminate.
  - repeat split; vm_compute; intros; discriminate.
  - repeat split; reflexivity.
Defined.
