(* ===== verification/VisionX.v ===== *)
(** * VisionX proof of work ([src/pow/visionx.rs])

    The memory-hard hash (SplitMix64 expansion, dataset, scratchpad, mixing
    loop) on 64-bit words, the bounded dataset cache, and the digest and
    verification entry points.  Indexing a buffer out of range is [Panic];
    the theorems show that the masks rule it out. *)
From S2P Require Import Prelude Crypto Constants Transaction Block HistoricalVpow.

(** ** Parameters *)
Record VisionXParams := mkParams {
  dataset_mb : Z;
  scratch_mb : Z;
  mix_iters : Z;
  reads_per_iter : Z;
  write_every : Z;
  epoch_blocks : Z
}.
#[export] Instance VisionXParams_eq_dec : EqDecision VisionXParams.
Proof. solve_decision. Defined.
#[export] Instance VisionXParams_countable : Countable VisionXParams.
Proof.
  refine (inj_countable'
    (λ p, (dataset_mb p, scratch_mb p, mix_iters p, reads_per_iter p, write_every p,
           epoch_blocks p))
    (λ t, let '(a, b, c, d, e, f) := t in mkParams a b c d e f) _).
  by intros [].
Defined.

(** [VisionXParams::default], the value of [VISIONX_PARAMS]. *)
Definition VISIONX_PARAMS : VisionXParams :=
  mkParams VISIONX_DATASET_MB VISIONX_SCRATCH_MB VISIONX_MIX_ITERS VISIONX_READS_PER_ITER
    VISIONX_WRITE_EVERY VISIONX_EPOCH_BLOCKS.

(** The handshake's fingerprint of the parameters. *)
Definition fingerprint_text (p : VisionXParams) : string :=
  "visionx/v1 dataset_mb=" +:+ u64_to_string (dataset_mb p) +:+
  " scratch_mb=" +:+ u64_to_string (scratch_mb p) +:+
  " mix_iters=" +:+ u64_to_string (mix_iters p) +:+
  " reads_per_iter=" +:+ u64_to_string (reads_per_iter p) +:+
  " write_every=" +:+ u64_to_string (write_every p) +:+
  " epoch_blocks=" +:+ u64_to_string (epoch_blocks p).
Definition fingerprint `{C : Crypto} (p : VisionXParams) : string :=
  hex_encode (blake3 (string_bytes (fingerprint_text p))).

(** [VisionXParams::epoch]; a zero divisor panics. *)
Definition epoch (p : VisionXParams) (height : Z) : run Z :=
  if epoch_blocks p =? 0 then Panic else Done (height / epoch_blocks p).

Definition params_within_bounds (p : VisionXParams) : bool :=
  (dataset_mb p <=? 512) && (scratch_mb p <=? 128) && (mix_iters p <=? 1000000) &&
  (reads_per_iter p <=? 8).

(** ** Word mixing *)
Record SplitMix64 := mkSM { sm_state : Z }.

Definition sm_next (sm : SplitMix64) : Z * SplitMix64 :=
  let state := wadd64 (sm_state sm) 0x9E3779B97F4A7C15 in
  let z := state in
  let z := wmul64 (Z.lxor z (Z.shiftr z 30)) 0xBF58476D1CE4E5B9 in
  let z := wmul64 (Z.lxor z (Z.shiftr z 27)) 0x94D049BB133111EB in
  (Z.lxor z (Z.shiftr z 31), mkSM state).

Definition expand_round (ab : Z * Z) : Z * Z :=
  let a := Z.lxor (rotl64 ab.1 13) (wmul64 ab.2 0x9E3779B185EBCA87) in
  let b := Z.lxor (rotl64 ab.2 17) (wmul64 a 0xC2B2AE3D27D4EB4F) in
  (a, b).

Definition expand_256 (a b : Z) : list byte :=
  let '(a, b) := Nat.iter 4 expand_round (a, b) in
  let sm := mkSM (Z.lxor (Z.lxor a b) 0xD6E8FEB86659FD93) in
  let '(c, sm) := sm_next sm in
  let '(d, _) := sm_next sm in
  be_bytes 8 a ++ be_bytes 8 b ++ be_bytes 8 c ++ be_bytes 8 d.

(** [bytes.chunks(n)]: consecutive pieces of [n] bytes, the last one shorter. *)
Fixpoint chunks_fuel {A} (fuel : nat) (n : nat) (l : list A) : list (list A) :=
  match fuel, l with
  | O, _ | _, [] => []
  | S fuel, _ => take n l :: chunks_fuel fuel n (drop n l)
  end.
Definition chunks {A} (n : nat) (l : list A) : list (list A) := chunks_fuel (length l) n l.

(** [let mut v = [0u8; n]; v[..chunk.len()].copy_from_slice(chunk)]. *)
Definition pad_chunk (n : nat) (chunk : list byte) : list byte :=
  chunk ++ repeat (Z_byte 0) (n - length chunk).

Definition fold_step (r1 r2 : Z) (s : Z) (chunk : list byte) : Z :=
  let s := Z.lxor s (rotl64 (be_val (pad_chunk 8 chunk)) r1) in
  rotl64 (wmul64 s 0x9E3779B97F4A7C15) r2.

Definition fold_seed (prev_hash32 : list byte) (epoch_id : Z) : Z :=
  fold_left (fold_step 7 9) (chunks 8 prev_hash32) (Z.lxor epoch_id 0xA24BAED4963EE407).

(** ** Dataset and scratchpad *)

(** [let mut n = 1; while n < words { n <<= 1 }]: sixty-four doublings exhaust
    a [usize]. *)
Fixpoint pow2_loop (fuel : nat) (n words : Z) : run Z :=
  match fuel with
  | O => NoFuel
  | S fuel => if n <? words then pow2_loop fuel (wrap64 (Z.shiftl n 1)) words else Done n
  end.
(** The buffer size for a number of megabytes. *)
Definition buffer_words (mb : Z) : run Z :=
  let bytes := wmul64 (wmul64 mb 1024) 1024 in
  pow2_loop 65 1 (bytes / 8).

Fixpoint sm_fill (n : nat) (sm : SplitMix64) : list Z :=
  match n with
  | O => []
  | S n => let '(x, sm) := sm_next sm in x :: sm_fill n sm
  end.

Record VisionXDataset := mkDataset { ds_mem : list Z; ds_mask : Z }.

Definition build (p : VisionXParams) (prev_hash32 : list byte) (epoch : Z)
    : run VisionXDataset :=
  words ← buffer_words (dataset_mb p);
  let seed := fold_seed prev_hash32 epoch in
  Done (mkDataset (sm_fill (Z.to_nat words) (mkSM seed)) (words - 1)).

(** The loop filling the scratchpad from the dataset. *)
Fixpoint scratch_fill (n : nat) (base : list Z) (base_mask : Z) (sm : SplitMix64)
    : run (list Z) :=
  match n with
  | O => Done []
  | S n =>
      let '(mix_seed, sm) := sm_next sm in
      let idx1 := Z.land (rotl64 mix_seed 17) base_mask in
      let idx2 := Z.land (rotr64 mix_seed 23) base_mask in
      x ← index base idx1;
      y ← index base idx2;
      rest ← scratch_fill n base base_mask sm;
      Done (Z.lxor (Z.lxor x y) (wmul64 mix_seed 0xC2B2AE3D27D4EB4F) :: rest)
  end.

Definition init_scratch (p : VisionXParams) (base : list Z) (base_mask : Z)
    (header : list byte) (nonce : Z) : run (list Z * Z) :=
  words ← buffer_words (scratch_mb p);
  let smask := words - 1 in
  let seed := fold_left (fold_step 13 7) (chunks 8 header) (Z.lxor nonce 0xDEADBEEFF00DFACE) in
  scratch ← scratch_fill (Z.to_nat words) base base_mask (mkSM seed);
  Done (scratch, smask).

(** ** The hash *)
Record mix_state := mkMix { ms_a : Z; ms_b : Z; ms_acc : Z; ms_scratch : list Z }.

(** Absorbing one 16-byte chunk of the header. *)
Definition absorb (ab : Z * Z) (chunk : list byte) : Z * Z :=
  let p := pad_chunk 16 chunk in
  let x := be_val (take 8 p) in
  let y := be_val (take 8 (drop 8 p)) in
  let a := Z.lxor ab.1 (wmul64 x 0x9E3779B185EBCA87) in
  let b := Z.lxor ab.2 (wmul64 y 0xC2B2AE3D27D4EB4F) in
  let a := Z.lxor (rotl64 a 13) (rotr64 b 7) in
  let b := Z.lxor (rotl64 b 29) (rotr64 a 19) in
  (a, b).

(** One iteration of the mixing loop. *)
Definition mix_iter (p : VisionXParams) (smask : Z) (i : Z) (s : mix_state) : run mix_state :=
  let '(mkMix a b acc scratch) := s in
  v1 ← index scratch (Z.land (rotl64 (Z.lxor (Z.lxor (Z.lxor a b) acc) (wmul64 i 0x9E3779B9)) 17)
                        smask);
  v2 ← index scratch (Z.land (rotl64 (Z.lxor (Z.lxor v1 a) acc) 23) smask);
  v3 ← index scratch (Z.land (rotl64 (Z.lxor (Z.lxor v2 b) acc) 19) smask);
  v4 ← (if 4 <=? reads_per_iter p
        then index scratch (Z.land (rotl64 (Z.lxor (Z.lxor v3 v1) acc) 29) smask)
        else Done v3);
  let mix := Z.lxor (Z.lxor (Z.lxor v1 (rotl64 v2 13)) (wmul64 v3 0x94D049BB133111EB))
               (rotr64 v4 7) in
  let a := Z.lxor (rotl64 a 13) (wmul64 mix 0xC2B2AE3D27D4EB4F) in
  let b := Z.lxor (rotl64 b 17) (wmul64 (Z.lxor mix acc) 0xBF58476D1CE4E5B9) in
  let acc := Z.lxor (rotl64 acc 7) (wmul64 (Z.lxor a b) 0xD6E8FEB86659FD93) in
  if (0 <? write_every p) && (i mod write_every p =? 0) then
    let jw := Z.land (rotl64 (Z.lxor (Z.lxor (Z.lxor mix a) (rotl64 b 11))
                       (wmul64 i 0xA24BAED4963EE407)) 31) smask in
    w ← index scratch jw;
    Done (mkMix a b acc
      (<[Z.to_nat jw := rotl64 (wadd64 w (Z.lxor mix 0x9E3779B97F4A7C15)) 41]> scratch))
  else Done (mkMix a b acc scratch).

Fixpoint mix_loop (p : VisionXParams) (smask : Z) (n : nat) (i : Z) (s : mix_state)
    : run mix_state :=
  match n with
  | O => Done s
  | S n => s ← mix_iter p smask i s; mix_loop p smask n (i + 1) s
  end.

Definition visionx_hash (p : VisionXParams) (base : list Z) (base_mask : Z)
    (header : list byte) (nonce : Z) : run (list byte) :=
  '(scratch, smask) ← init_scratch p base base_mask header nonce;
  let a := Z.lxor 0x243F6A8885A308D3 (rotl64 nonce 17) in
  let b := Z.lxor 0x13198A2E03707344 (rotr64 nonce 11) in
  let '(a, b) := fold_left absorb (chunks 16 header) (a, b) in
  let acc := Z.lxor (Z.lxor a b) 0xDEADBEEFF00DFACE in
  s ← mix_loop p smask (Z.to_nat (mix_iters p)) 0 (mkMix a b acc scratch);
  let '(mkMix a b acc _) := s in
  Done (expand_256 (Z.lxor a acc) (Z.lxor b (rotl64 acc 3))).

(** ** The dataset cache *)
Definition DatasetCacheKey : Type := VisionXParams * Z * list byte.
Definition DATASET_CACHE_CAPACITY : Z := 3.

Record DatasetCache := mkCache {
  dc_entries : gmap DatasetCacheKey (list Z * Z);
  dc_order : list DatasetCacheKey
}.
Definition empty_cache : DatasetCache := mkCache ∅ [].

Record CacheInsertResult := mkInsert {
  ci_dataset : list Z;
  ci_mask : Z;
  ci_inserted : bool;
  ci_evicted : list DatasetCacheKey
}.

Definition cache_get (c : DatasetCache) (key : DatasetCacheKey) : option (list Z * Z) :=
  dc_entries c !! key.

(** The closure of [retain_order_for_entries], with its [seen] list. *)
Fixpoint retain_order (entries : gmap DatasetCacheKey (list Z * Z))
    (seen : list DatasetCacheKey) (order : list DatasetCacheKey) : list DatasetCacheKey :=
  match order with
  | [] => []
  | key :: order =>
      if bool_decide (entries !! key = None) || bool_decide (key ∈ seen)
      then retain_order entries seen order
      else key :: retain_order entries (seen ++ [key]) order
  end.
Definition retain_order_for_entries (c : DatasetCache) : DatasetCache :=
  mkCache (dc_entries c) (retain_order (dc_entries c) [] (dc_order c)).

Fixpoint evict_loop (fuel : nat) (active_key : DatasetCacheKey) (capacity : Z)
    (c : DatasetCache) (rotations : nat) (evicted : list DatasetCacheKey)
    : run (DatasetCache * list DatasetCacheKey) :=
  match fuel with
  | O => NoFuel
  | S fuel =>
      if (capacity <? Z.of_nat (size (dc_entries c))) &&
         (rotations <=? length (dc_order c))%nat
      then
        match dc_order c with
        | [] => Done (c, evicted)
        | candidate :: order =>
            let c' := mkCache (dc_entries c) order in
            if bool_decide (dc_entries c !! candidate = None)
            then evict_loop fuel active_key capacity c' rotations evicted
            else if bool_decide (candidate = active_key)
            then evict_loop fuel active_key capacity
                   (mkCache (dc_entries c) (order ++ [candidate])) (S rotations) evicted
            else evict_loop fuel active_key capacity
                   (mkCache (delete candidate (dc_entries c)) order) 0 (evicted ++ [candidate])
        end
      else Done (c, evicted)
  end.
(** Enough iterations for any cache: each one shortens the queue or uses up a
    rotation. *)
Definition evict_fuel (c : DatasetCache) : nat :=
  let l := length (dc_order c) in (l * (l + 2) + l + 2)%nat.

Definition evict_over_capacity_limit (c : DatasetCache) (active_key : DatasetCacheKey)
    (capacity : Z) : run (DatasetCache * list DatasetCacheKey) :=
  '(c, evicted) ← evict_loop (evict_fuel c) active_key capacity c 0 [];
  Done (retain_order_for_entries c, evicted).

Definition evict_over_capacity (c : DatasetCache) (active_key : DatasetCacheKey)
    : run (DatasetCache * list DatasetCacheKey) :=
  evict_over_capacity_limit c active_key DATASET_CACHE_CAPACITY.

Definition insert_if_absent (c : DatasetCache) (key : DatasetCacheKey) (dataset : list Z)
    (mask : Z) : run (DatasetCache * CacheInsertResult) :=
  match cache_get c key with
  | Some (existing, existing_mask) =>
      Done (retain_order_for_entries c, mkInsert existing existing_mask false [])
  | None =>
      let c := mkCache (<[key := (dataset, mask)]> (dc_entries c))
                 (filter (λ queued, queued ≠ key) (dc_order c) ++ [key]) in
      '(c, evicted) ← evict_over_capacity c key;
      Done (c, mkInsert dataset mask true evicted)
  end.

Definition clear_cache (c : DatasetCache) : DatasetCache := empty_cache.

Definition get_cached (c : DatasetCache) (p : VisionXParams) (prev_hash32 : list byte)
    (epoch : Z) : run (DatasetCache * (list Z * Z)) :=
  let key := (p, epoch, prev_hash32) in
  match cache_get c key with
  | Some dm => Done (c, dm)
  | None =>
      ds ← build p prev_hash32 epoch;
      '(c, inserted) ← insert_if_absent c key (ds_mem ds) (ds_mask ds);
      Done (c, (ci_dataset inserted, ci_mask inserted))
  end.

(** ** Entry points *)
Inductive DigestError :=
| InvalidParameters
| ParentHash (e : HashDecodeError)
| Preimage (e : HashDecodeError).
#[export] Instance DigestError_eq_dec : EqDecision DigestError.
Proof. solve_decision. Defined.

Definition nonce_from_header (header_with_nonce : list byte) (nonce_offset : Z) : option Z :=
  end_ ← checked_add64 nonce_offset 8;
  if end_ <=? Z.of_nat (length header_with_nonce)
  then Some (be_val (take 8 (drop (Z.to_nat nonce_offset) header_with_nonce)))
  else None.

Definition meets_target (hash target : list byte) : bool :=
  bytes_leb (take 8 hash) (take 8 target).

Section visionx.
Context `{C : Crypto}.

(** The file's own copy of the strict hash decoder. *)
Definition decode_hash_32 (s : string) : result HashDecodeError (list byte) :=
  match hex_decode (strip_0x s) with
  | None => Err (InvalidHex "parent_hash")
  | Some bytes =>
      if bool_decide (length bytes = 32%nat) then Ok bytes
      else Err (ExpectedBytes32 "parent_hash" (length bytes))
  end.

Definition visionx_digest (c : DatasetCache) (p : VisionXParams) (prev_hash32 : list byte)
    (epoch : Z) (header_bytes : list byte) (nonce : Z)
    : run (DatasetCache * result DigestError (list byte)) :=
  if negb (params_within_bounds p) then Done (c, Err InvalidParameters)
  else
    '(c, (dataset, mask)) ← get_cached c p prev_hash32 epoch;
    h ← visionx_hash p dataset mask header_bytes nonce;
    Done (c, Ok h).

Definition historical_block_digest (c : DatasetCache) (p : VisionXParams) (epoch : Z)
    (header : BlockHeader) : run (DatasetCache * result DigestError (list byte)) :=
  match decode_hash_32 (bh_parent_hash header) with
  | Err e => Done (c, Err (ParentHash e))
  | Ok prev_hash32 =>
      match historical_vpow_message_bytes_with_nonce_zero header with
      | Err e => Done (c, Err (Preimage e))
      | Ok historical_preimage =>
          visionx_digest c p prev_hash32 epoch historical_preimage (bh_nonce header)
      end
  end.

Definition verify (c : DatasetCache) (p : VisionXParams) (prev_hash32 : list byte)
    (epoch : Z) (header_with_nonce : list byte) (nonce_offset : Z) (target : list byte)
    : run (DatasetCache * bool) :=
  if negb (params_within_bounds p) then Done (c, false)
  else
    match nonce_from_header header_with_nonce nonce_offset with
    | None => Done (c, false)
    | Some nonce =>
        '(c, (dataset, mask)) ← get_cached c p prev_hash32 epoch;
        digest ← visionx_hash p dataset mask header_with_nonce nonce;
        Done (c, meets_target digest target)
    end.

End visionx.

(** ** No index is out of range *)
Lemma pow2_loop_spec fuel j words :
  0 ≤ j ≤ 63 → words ≤ 2 ^ 63 → 64 - j ≤ Z.of_nat fuel →
  ∃ k, 0 ≤ k ≤ 63 ∧ pow2_loop fuel (2 ^ j) words = Done (2 ^ k).
Proof.
  revert j. induction fuel as [|fuel IH]; intros j Hj Hw Hf; [lia|].
  cbn [pow2_loop]. destruct (Z.ltb_spec (2 ^ j) words); [|by eauto].
  assert (j < 63) by (apply (Z.pow_lt_mono_r_iff 2); lia).
  rewrite Z.shiftl_mul_pow2, Z.pow_1_r by lia.
  replace (2 ^ j * 2) with (2 ^ (j + 1)) by (rewrite Z.pow_add_r by lia; lia).
  rewrite wrap64_small; [apply IH; lia|].
  unfold u64, U64_MAX. split; [apply Z.pow_nonneg; lia|].
  enough (2 ^ (j + 1) < 2 ^ 64) by lia. apply Z.pow_lt_mono_r; lia.
Qed.

(** The buffer size is always a power of two. *)
Lemma buffer_words_pow2 mb : ∃ k, 0 ≤ k ∧ buffer_words mb = Done (2 ^ k).
Proof.
  unfold buffer_words. cbv zeta. set (b := wmul64 _ _).
  assert (u64 b) as [? Hb] by apply wrap64_u64. unfold U64_MAX in Hb.
  destruct (pow2_loop_spec 65 0 (b / 8)) as (k & ? & Hk); [lia| |lia|].
  - apply Z.div_le_upper_bound; lia.
  - exists k. split; [lia|exact Hk].
Qed.

(** A buffer of [2^k] words with its mask. *)
Definition masked (l : list Z) (mask : Z) : Prop :=
  ∃ k, 0 ≤ k ∧ length l = Z.to_nat (2 ^ k) ∧ mask = 2 ^ k - 1.

Lemma masked_range l mask a : masked l mask → 0 ≤ a →
  0 ≤ Z.land a mask < Z.of_nat (length l).
Proof.
  intros (k & Hk & -> & ->) Ha. pose proof (land_mask_bound a k Hk Ha). lia.
Qed.
Lemma masked_index l mask a : masked l mask → u64 a → ∃ x, index l (Z.land a mask) = Done x.
Proof.
  intros Hm [Ha _]. destruct (index_Done l (Z.land a mask)) as (x & Hx & _); [|eauto].
  by apply masked_range.
Qed.
Lemma masked_insert l mask i x : masked l mask → masked (<[i := x]> l) mask.
Proof. intros (k & ? & ? & ?). exists k. by rewrite length_insert. Qed.

Lemma length_sm_fill n sm : length (sm_fill n sm) = n.
Proof. revert sm. induction n as [|n IH]; intros; simpl; [done|]. by rewrite IH. Qed.

(** Index the next buffer access of the goal. *)
Ltac step_index :=
  match goal with
  | |- context [index ?l (Z.land (rotl64 ?x ?r) ?m)] =>
      let v := fresh "v" in let E := fresh "E" in
      destruct (masked_index l m (rotl64 x r)) as [v E]; [done|apply u64_rotl|];
      rewrite E; cbn [mbind run_bind]
  end.

Lemma scratch_fill_total n base mask sm : masked base mask →
  ∃ s, scratch_fill n base mask sm = Done s ∧ length s = n.
Proof.
  intros Hm. revert sm. induction n as [|n IH]; intros sm; cbn [scratch_fill]; [by exists []|].
  destruct (sm_next sm) as [x sm']. cbv zeta. unfold rotr64. do 2 step_index.
  destruct (IH sm') as (s & -> & Hs). eexists. split; [reflexivity|]. simpl. by rewrite Hs.
Qed.

Lemma init_scratch_total p base mask header nonce : masked base mask →
  ∃ s smask, init_scratch p base mask header nonce = Done (s, smask) ∧ masked s smask.
Proof.
  intros Hm. unfold init_scratch. destruct (buffer_words_pow2 (scratch_mb p)) as (k & Hk & ->).
  cbn [mbind run_bind]. cbv zeta.
  destruct (scratch_fill_total (Z.to_nat (2 ^ k)) base mask
    (mkSM (fold_left (fold_step 13 7) (chunks 8 header) (Z.lxor nonce 0xDEADBEEFF00DFACE))) Hm)
    as (s & -> & Hs).
  eexists _, _. split; [reflexivity|]. by exists k.
Qed.

Lemma mix_iter_total p smask i s : masked (ms_scratch s) smask →
  ∃ s', mix_iter p smask i s = Done s' ∧ masked (ms_scratch s') smask.
Proof.
  intros Hm. destruct s as [a b acc scratch]. simpl in Hm. unfold mix_iter.
  do 3 step_index.
  assert (∃ v4, (if 4 <=? reads_per_iter p
    then index scratch (Z.land (rotl64 (Z.lxor (Z.lxor v1 v) acc) 29) smask)
    else Done v1) = Done v4) as [v4 ->].
  { destruct (_ <=? _); [|eauto]. step_index. eauto. }
  cbn [mbind run_bind]. cbv zeta. destruct (_ && _); [step_index|];
    (eexists; split; [reflexivity|]); [by apply masked_insert|done].
Qed.

Lemma mix_loop_total p smask n i s : masked (ms_scratch s) smask →
  ∃ s', mix_loop p smask n i s = Done s'.
Proof.
  revert i s. induction n as [|n IH]; intros i s Hm; cbn [mix_loop]; [eauto|].
  destruct (mix_iter_total p smask i s Hm) as (s' & -> & Hm'). by apply IH.
Qed.

Lemma length_expand_256 a b : length (expand_256 a b) = 32%nat.
Proof.
  unfold expand_256. destruct (Nat.iter 4 expand_round (a, b)) as [a' b'].
  destruct (sm_next _) as [c sm]. destruct (sm_next sm) as [d ?].
  by rewrite !length_app, !length_be_bytes.
Qed.

Lemma visionx_hash_total p base mask header nonce : masked base mask →
  ∃ h, visionx_hash p base mask header nonce = Done h ∧ length h = 32%nat.
Proof.
  intros Hm. unfold visionx_hash.
  destruct (init_scratch_total p base mask header nonce Hm) as (s & smask & -> & Hs).
  cbn [mbind run_bind]. cbv zeta. destruct (fold_left absorb _ _) as [a b].
  destruct (mix_loop_total p smask (Z.to_nat (mix_iters p)) 0
    (mkMix a b (Z.lxor (Z.lxor a b) 0xDEADBEEFF00DFACE) s) Hs) as ([a' b' acc' s'] & ->).
  eexists. split; [reflexivity|]. apply length_expand_256.
Qed.

Lemma build_total p prev e : ∃ ds, build p prev e = Done ds ∧ masked (ds_mem ds) (ds_mask ds).
Proof.
  unfold build. destruct (buffer_words_pow2 (dataset_mb p)) as (k & Hk & ->).
  eexists. split; [reflexivity|]. exists k. cbn [ds_mem ds_mask]. by rewrite length_sm_fill.
Qed.

(** ** The cache *)

(** Every entry is the dataset its key builds. *)
Definition cache_ok (c : DatasetCache) : Prop :=
  ∀ p e prev d, dc_entries c !! (p, e, prev) = Some d →
    ∃ ds, build p prev e = Done ds ∧ d = (ds_mem ds, ds_mask ds).
Lemma cache_ok_empty : cache_ok empty_cache.
Proof. intros ????. simpl. by rewrite lookup_empty. Qed.

(** The eviction loop ends within its fuel, from any cache, and only removes
    entries. *)
Lemma evict_loop_total fuel key cap c rot ev :
  (rot ≤ S (length (dc_order c)))%nat →
  (length (dc_order c) * (length (dc_order c) + 2) + (length (dc_order c) + 1 - rot) < fuel)%nat →
  ∃ c' ev', evict_loop fuel key cap c rot ev = Done (c', ev') ∧
    dc_entries c' ⊆ dc_entries c.
Proof.
  revert c rot ev. induction fuel as [|fuel IH]; intros c rot ev Hr Hf; [lia|].
  cbn [evict_loop]. destruct (_ && _) eqn:Hg; [|by eauto].
  apply andb_true_iff in Hg as [_ Hg%Nat.leb_le].
  destruct (dc_order c) as [|k order] eqn:Eo; [by eauto|]. cbn [length] in Hr, Hf, Hg.
  case_bool_decide; [|case_bool_decide].
  - apply (IH (mkCache (dc_entries c) order)); cbn [dc_order]; nia.
  - apply (IH (mkCache (dc_entries c) (order ++ [k]))); cbn [dc_order];
      rewrite length_app; cbn [length]; nia.
  - destruct (IH (mkCache (delete k (dc_entries c)) order) 0%nat (ev ++ [k]))
      as (c' & ev' & E & Hs); [cbn [dc_order]; nia..|].
    exists c', ev'. split; [done|]. etransitivity; [exact Hs|]. apply delete_subseteq.
Qed.

Lemma insert_if_absent_ok c p e prev ds :
  cache_ok c → build p prev e = Done ds →
  ∃ c' r, insert_if_absent c (p, e, prev) (ds_mem ds) (ds_mask ds) = Done (c', r) ∧
    cache_ok c' ∧ ci_dataset r = ds_mem ds ∧ ci_mask r = ds_mask ds.
Proof.
  intros Hc Hb. unfold insert_if_absent.
  destruct (cache_get c (p, e, prev)) as [[d m]|] eqn:E.
  - destruct (Hc _ _ _ _ E) as (ds' & Hb' & Hd). rewrite Hb in Hb'. simplify_eq.
    eexists _, _. split; [reflexivity|]. split; [exact Hc|done].
  - unfold evict_over_capacity, evict_over_capacity_limit. set (c1 := mkCache _ _).
    destruct (evict_loop_total (evict_fuel c1) (p, e, prev) DATASET_CACHE_CAPACITY c1 0 [])
      as (c' & ev' & -> & Hs); [lia|unfold evict_fuel; lia|].
    eexists _, _. split; [reflexivity|]. split; [|done].
    intros p' e' prev' d Hd. simpl in Hd. apply (lookup_weaken _ _ _ _ Hd) in Hs.
    unfold c1 in Hs. simpl in Hs. apply lookup_insert_Some in Hs as [[? <-]|[_ Hs]]; simplify_eq; eauto.
Qed.

Lemma get_cached_ok c p prev e : cache_ok c →
  ∃ c' ds, build p prev e = Done ds ∧ masked (ds_mem ds) (ds_mask ds) ∧
    get_cached c p prev e = Done (c', (ds_mem ds, ds_mask ds)) ∧ cache_ok c'.
Proof.
  intros Hc. destruct (build_total p prev e) as (ds & Hb & Hm). unfold get_cached.
  destruct (cache_get c (p, e, prev)) as [dm|] eqn:E.
  - destruct (Hc _ _ _ _ E) as (ds' & Hb' & ->). rewrite Hb in Hb'. simplify_eq. by exists c, ds'.
  - rewrite Hb. cbn [mbind run_bind].
    destruct (insert_if_absent_ok c p e prev ds Hc Hb) as (c' & r & -> & Hc' & Hd & Hk).
    exists c', ds. cbn [mbind run_bind]. by rewrite Hd, Hk.
Qed.

(** The digest computed from scratch, without any cache. *)
Definition fresh_digest (p : VisionXParams) (prev_hash32 : list byte) (epoch : Z)
    (header_bytes : list byte) (nonce : Z) : run (result DigestError (list byte)) :=
  if negb (params_within_bounds p) then Done (Err InvalidParameters)
  else
    ds ← build p prev_hash32 epoch;
    h ← visionx_hash p (ds_mem ds) (ds_mask ds) header_bytes nonce;
    Done (Ok h).

Lemma fresh_digest_total p prev e bs nonce :
  ∃ d, fresh_digest p prev e bs nonce = Done d ∧
    ∀ h, d = Ok h → length h = 32%nat ∧ params_within_bounds p = true.
Proof.
  unfold fresh_digest. destruct (params_within_bounds p); cbn [negb]; [|by eexists].
  destruct (build_total p prev e) as (ds & -> & Hm). cbn [mbind run_bind].
  destruct (visionx_hash_total p _ _ bs nonce Hm) as (h & -> & Hl).
  eexists. split; [reflexivity|]. by intros ? [= <-].
Qed.

Lemma fresh_digest_in_bounds p prev e bs nonce : params_within_bounds p = true →
  ∃ h, fresh_digest p prev e bs nonce = Done (Ok h).
Proof.
  unfold fresh_digest. intros ->. cbn [negb].
  destruct (build_total p prev e) as (ds & -> & Hm). cbn [mbind run_bind].
  destruct (visionx_hash_total p _ _ bs nonce Hm) as (h & -> & _). by exists h.
Qed.

Lemma visionx_digest_fresh c p prev e bs nonce d :
  cache_ok c → fresh_digest p prev e bs nonce = Done d →
  ∃ c', visionx_digest c p prev e bs nonce = Done (c', d) ∧ cache_ok c'.
Proof.
  intros Hc. unfold fresh_digest, visionx_digest.
  destruct (params_within_bounds p); cbn [negb]; [|intros [= <-]; by exists c].
  destruct (get_cached_ok c p prev e Hc) as (c' & ds & -> & Hm & -> & Hc').
  cbn [mbind run_bind]. destruct (visionx_hash_total p _ _ bs nonce Hm) as (h & -> & Hl).
  intros [= <-]. by exists c'.
Qed.

(** The cache of capacity three: its queue lists exactly its keys, once each. *)
Definition cache_bounded (c : DatasetCache) : Prop :=
  NoDup (dc_order c) ∧ (∀ k, k ∈ dc_order c ↔ is_Some (dc_entries c !! k)) ∧
  (length (dc_order c) ≤ 3)%nat.

Lemma cache_bounded_size c :
  NoDup (dc_order c) → (∀ k, k ∈ dc_order c ↔ is_Some (dc_entries c !! k)) →
  size (dc_entries c) = length (dc_order c).
Proof.
  intros Hnd Hk. rewrite <- size_dom, <- (size_list_to_set (C := gset DatasetCacheKey)) by done.
  f_equal. apply set_eq. intros k. rewrite elem_of_dom, elem_of_list_to_set. symmetry. apply Hk.
Qed.

Lemma retain_order_id entries seen order :
  NoDup order → (∀ k, k ∈ order → (k ∉ seen) ∧ entries !! k ≠ None) →
  retain_order entries seen order = order.
Proof.
  revert seen. induction order as [|k order IH]; intros seen Hnd Hk; simpl; [done|].
  apply NoDup_cons in Hnd as [Hn Hnd]. destruct (Hk k ltac:(left)) as [Hs He].
  rewrite (bool_decide_false (entries !! k = None)), (bool_decide_false (k ∈ seen)) by done.
  simpl. f_equal. apply IH; [done|]. intros k' Hk'.
  destruct (Hk k' ltac:(by right)). split; [|done].
  rewrite elem_of_app, list_elem_of_singleton. intros [?| ->]; done.
Qed.

Lemma retain_order_bounded c : cache_bounded c → retain_order_for_entries c = c.
Proof.
  intros (Hnd & Hk & _). unfold retain_order_for_entries. destruct c as [m o]; simpl in *.
  f_equal. apply retain_order_id; [done|]. intros k Hin.
  destruct (proj1 (Hk k) Hin) as [x Hx]. split; [apply not_elem_of_nil|congruence].
Qed.

Lemma evict_loop_stop fuel key cap c rot ev :
  Z.of_nat (size (dc_entries c)) ≤ cap → evict_loop (S fuel) key cap c rot ev = Done (c, ev).
Proof. intros. cbn [evict_loop]. by rewrite (proj2 (Z.ltb_ge _ _)). Qed.
Lemma evict_loop_evict fuel key cap m k o rot ev x :
  cap < Z.of_nat (size m) → (rot ≤ S (length o))%nat → m !! k = Some x → k ≠ key →
  evict_loop (S fuel) key cap (mkCache m (k :: o)) rot ev =
  evict_loop fuel key cap (mkCache (delete k m) o) 0 (ev ++ [k]).
Proof.
  intros Hc Hr Hx Hk. cbn [evict_loop dc_entries dc_order].
  rewrite (proj2 (Z.ltb_lt _ _)) by done. rewrite (proj2 (Nat.leb_le _ _)) by (simpl; lia).
  cbn [andb]. by rewrite Hx, !bool_decide_false by done.
Qed.

(** Evicting from a queue of at most four keys whose last one is active
    removes at most the oldest. *)
Lemma evict_over_capacity_bounded m order key :
  NoDup (order ++ [key]) → (∀ k, k ∈ order ++ [key] ↔ is_Some (m !! k)) →
  (length order ≤ 3)%nat →
  ∃ c ev, evict_over_capacity (mkCache m (order ++ [key])) key = Done (c, ev) ∧
    cache_bounded c ∧ dc_entries c !! key = m !! key ∧ (key ∉ ev) ∧
    (ev = [] ∨ head order = head ev ∧ length order = 3%nat ∧ length ev = 1%nat).
Proof.
  intros Hnd Hk Hl. unfold evict_over_capacity, evict_over_capacity_limit.
  set (c0 := mkCache _ _).
  pose proof (cache_bounded_size c0 Hnd Hk) as Hsz. simpl in Hsz. rewrite length_app in Hsz.
  simpl in Hsz. unfold evict_fuel. simpl length. rewrite length_app. simpl length.
  destruct (_ * _ + _ + 2)%nat as [|[|f]] eqn:Ef; [nia..|]. clear Ef.
  unfold DATASET_CACHE_CAPACITY.
  destruct (decide (length order = 3)%nat) as [H3|H3].
  - destruct order as [|a order]; [done|]. cbn [app length] in *.
    apply NoDup_cons in Hnd as [Ha Hnd].
    assert (a ≠ key) as Hak by (rewrite elem_of_app, list_elem_of_singleton in Ha; tauto).
    destruct (proj1 (Hk a) ltac:(left)) as [x Hx].
    unfold c0. rewrite (evict_loop_evict _ _ _ m a (order ++ [key]) _ _ x) by (done || lia).
    set (c1 := mkCache _ _).
    assert (∀ k, k ∈ dc_order c1 ↔ is_Some (dc_entries c1 !! k)) as Hk1.
    { intros k. unfold c1. cbn [dc_entries dc_order]. destruct (decide (k = a)) as [->|Hka].
      - rewrite lookup_delete_eq. split; [done|by intros []].
      - rewrite lookup_delete_ne by done. rewrite <- Hk, elem_of_cons. naive_solver. }
    assert (length (dc_order c1) = 3%nat) as Hl1 by (simpl; rewrite length_app; simpl; lia).
    assert (cache_bounded c1) as Hc1 by (split_and!; [done|done|lia]).
    rewrite evict_loop_stop by (rewrite (cache_bounded_size c1 Hnd Hk1); lia).
    eexists _, _. split; [reflexivity|].
    rewrite retain_order_bounded by done. split; [done|]. split.
    + simpl. by rewrite lookup_delete_ne.
    + cbn [app]. split; [rewrite list_elem_of_singleton; congruence|]. right. simpl. auto.
  - assert (cache_bounded c0) as Hc0
      by (split_and!; [done|done|]; simpl; rewrite length_app; simpl; lia).
    rewrite evict_loop_stop by (simpl; lia).
    eexists _, _. split; [reflexivity|]. rewrite retain_order_bounded by done.
    split_and!; [done|done|apply not_elem_of_nil|by left].
Qed.

Lemma insert_if_absent_bounded c key d m :
  cache_bounded c →
  ∃ c' r, insert_if_absent c key d m = Done (c', r) ∧ cache_bounded c' ∧
    is_Some (dc_entries c' !! key) ∧ (key ∉ ci_evicted r) ∧
    (ci_evicted r = [] ∨
     head (dc_order c) = head (ci_evicted r) ∧ length (dc_order c) = 3%nat ∧
     length (ci_evicted r) = 1%nat).
Proof.
  intros Hc. pose proof Hc as (Hnd & Hk & Hl). unfold insert_if_absent, cache_get.
  destruct (dc_entries c !! key) as [[d' m']|] eqn:E.
  - eexists _, _. split; [reflexivity|]. rewrite retain_order_bounded by done.
    split_and!; [done|by eexists|apply not_elem_of_nil|by left].
  - assert (key ∉ dc_order c) as Hn by (rewrite Hk, E; by intros []).
    assert (filter (λ q, q ≠ key) (dc_order c) = dc_order c) as ->.
    { clear -Hn. induction (dc_order c) as [|k o IH]; [done|].
      rewrite filter_cons_True by (intros ->; apply Hn; left). f_equal. apply IH.
      intros ?. apply Hn. by right. }
    destruct (evict_over_capacity_bounded (<[key := (d, m)]> (dc_entries c)) (dc_order c) key)
      as (c' & ev & -> & Hb & Hke & Hnev & Hev); [| |done|].
    + apply NoDup_app. split_and!; [done| |apply NoDup_singleton].
      intros k Hin ->%list_elem_of_singleton. done.
    + intros k. rewrite elem_of_app, list_elem_of_singleton.
      destruct (decide (k = key)) as [->|]; [rewrite lookup_insert_eq; naive_solver|].
      rewrite lookup_insert_ne by done. rewrite Hk. naive_solver.
    + eexists _, _. split; [reflexivity|]. rewrite lookup_insert_eq in Hke.
      split_and!; [done|by rewrite Hke|done|done].
Qed.

(** Parameters small enough to evaluate: one-word dataset and scratchpad. *)
Definition tiny_params : VisionXParams := mkParams 0 0 4 4 4 32.

(** ** Properties *)

(** C14: The VisionX digest never panics, ends, and does not depend on what
    the shared dataset cache holds: from any cache whose entries were built
    for their keys it returns exactly the digest computed without a cache,
    32 bytes long, and leaves the cache in such a state again. *)
Theorem visionx_digest_cache_transparent `{C : Crypto} c p prev e bs nonce :
  cache_ok c →
  ∃ c' d, visionx_digest c p prev e bs nonce = Done (c', d) ∧ cache_ok c' ∧
    fresh_digest p prev e bs nonce = Done d ∧
    match d with
    | Ok h => params_within_bounds p = true ∧ length h = 32%nat
    | Err err => params_within_bounds p = false ∧ err = InvalidParameters
    end.
Proof.
  intros Hc. destruct (fresh_digest_total p prev e bs nonce) as (d & Hd & Hok).
  destruct (visionx_digest_fresh c p prev e bs nonce d Hc Hd) as (c' & Hc' & Hck).
  exists c', d. split_and!; [done..|]. unfold fresh_digest in Hd.
  destruct d as [h|err]; [by destruct (Hok h eq_refl)|].
  destruct (params_within_bounds p); cbn [negb] in Hd; [|by simplify_eq].
  destruct (build_total p prev e) as (ds & Hb & Hm). rewrite Hb in Hd. cbn [mbind run_bind] in Hd.
  destruct (visionx_hash_total p _ _ bs nonce Hm) as (h & Hh & _). by rewrite Hh in Hd.
Qed.

Lemma visionx_digest_cache_transparent_witness :
  ∃ c' d, visionx_digest empty_cache tiny_params (repeat (Z_byte 17) 32) 0 [] 5 = Done (c', d) ∧
    fresh_digest tiny_params (repeat (Z_byte 17) 32) 0 [] 5 = Done d.
Proof.
  destruct (visionx_digest_cache_transparent empty_cache tiny_params (repeat (Z_byte 17) 32)
    0 [] 5 cache_ok_empty) as (c' & d & H1 & _ & H2 & _).
  exists c', d. split; [exact H1|exact H2].
Defined.

(** C15: The dataset cache is bounded: a lookup keeps at most three datasets,
    each queued exactly once, always returns with the requested dataset
    resident, and evicts at most the oldest one and never the requested one. *)
Theorem dataset_cache_bounded c key d m :
  cache_bounded c →
  ∃ c' r, insert_if_absent c key d m = Done (c', r) ∧ cache_bounded c' ∧
    (size (dc_entries c') ≤ 3)%nat ∧ is_Some (cache_get c' key) ∧
    (key ∉ ci_evicted r) ∧
    (ci_evicted r = [] ∨ ∃ oldest, head (dc_order c) = Some oldest ∧ ci_evicted r = [oldest]).
Proof.
  intros Hc. destruct (insert_if_absent_bounded c key d m Hc)
    as (c' & r & E & Hb & Hk & Hn & Hev).
  exists c', r. split_and!; [done..| |done|done|].
  - pose proof Hb as (H1 & H2 & H3). by rewrite cache_bounded_size.
  - destruct Hev as [?|(Hh & _ & Hl)]; [by left|right].
    destruct (ci_evicted r) as [|k [|? ?]]; [done| |done]. by exists k.
Qed.

Lemma dataset_cache_bounded_witness :
  let key n := (tiny_params, n, [] : list byte) in
  let fill := fold_left (λ c n, match insert_if_absent c (key n) [n] 0 with
                                | Done (c', _) => c' | _ => c end) [1; 2; 3] empty_cache in
  ∃ c' r, insert_if_absent fill (key 4) [4] 0 = Done (c', r) ∧ cache_bounded c' ∧
    ci_evicted r = [key 1].
Proof.
  intros key fill.
  assert (∀ n c, cache_bounded c → cache_bounded (match insert_if_absent c (key n) [n] 0 with
    | Done (c', _) => c' | _ => c end)) as Hstep.
  { intros n c Hc. destruct (dataset_cache_bounded c (key n) [n] 0 Hc) as (c' & r & E & Hb & _).
    by rewrite E. }
  assert (cache_bounded fill) as Hf.
  { apply Hstep, Hstep, Hstep. split_and!; [constructor| |simpl; lia].
    intros k. simpl. rewrite lookup_empty. split; [by intros ?%elem_of_nil|by intros []]. }
  destruct (dataset_cache_bounded fill (key 4) [4] 0 Hf) as (c' & r & E & Hb & _ & _ & _ & Hev).
  exists c', r. split; [exact E|]. split; [exact Hb|].
  assert (match insert_if_absent fill (key 4) [4] 0 with
          | Done (_, r) => bool_decide (ci_evicted r = [key 1]) | _ => false end = true) as H2
    by (vm_compute; reflexivity).
  rewrite E in H2. exact (bool_decide_eq_true_1 _ H2).
Defined.
