(* ===== verification/VisionXMiner.v ===== *)
(** * Mining jobs ([src/pow/visionx_miner.rs])

    The job a worker searches nonces for, the validation of a solution and the
    nonce search itself.  Every digest goes through the shared dataset cache,
    which the operations thread. *)
From S2P Require Import Prelude Crypto Constants Transaction Block HistoricalVpow VisionX.

Inductive JobError :=
| NonceOffsetOverflows
| NonceOffsetOutOfRange
| PreimageError (e : HashDecodeError)
| DigestFailed (e : DigestError).
#[export] Instance JobError_eq_dec : EqDecision JobError.
Proof. solve_decision. Defined.

Record PowSolution := mkSolution { sol_nonce : Z; sol_hash : list byte }.

Record PowJob := mkPowJob {
  pj_params : VisionXParams;
  pj_prev_hash32 : list byte;
  pj_epoch : Z;
  pj_header_bytes : list byte;
  pj_nonce_offset : Z;
  pj_target : list byte;
  pj_historical_preimage : option (list byte)
}.

(** The miner only carries its parameters. *)
Record VisionXMiner := mkMiner { vm_params : VisionXParams }.

Definition inject_nonce (header_bytes : list byte) (nonce_offset nonce : Z)
    : result JobError (list byte) :=
  end_ ← ok_or NonceOffsetOverflows (checked_add64 nonce_offset 8);
  if Z.of_nat (length header_bytes) <? end_ then Err NonceOffsetOutOfRange
  else Ok (take (Z.to_nat nonce_offset) header_bytes ++ be_bytes 8 nonce ++
           drop (Z.to_nat end_) header_bytes).

Section miner.
Context `{C : Crypto}.

(** [PowJob::new]. *)
Definition new_job (params : VisionXParams) (prev_hash32 : list byte) (epoch : Z)
    (header_bytes : list byte) (nonce_offset : Z) (target : list byte) : result JobError PowJob :=
  _ ← inject_nonce header_bytes nonce_offset 0;
  Ok (mkPowJob params prev_hash32 epoch header_bytes nonce_offset target None).

Definition from_historical_header (params : VisionXParams) (prev_hash32 : list byte)
    (epoch : Z) (header : BlockHeader) (nonce_offset : Z) (target : list byte)
    : result JobError PowJob :=
  historical_preimage ← map_err PreimageError
    (historical_vpow_message_bytes_with_nonce_zero header);
  Ok (mkPowJob params prev_hash32 epoch historical_preimage nonce_offset target
        (Some historical_preimage)).

Definition header_with_nonce (job : PowJob) (nonce : Z) : result JobError (list byte) :=
  inject_nonce (pj_header_bytes job) (pj_nonce_offset job) nonce.

Definition mining_input_bytes (job : PowJob) : list byte :=
  default (pj_header_bytes job) (pj_historical_preimage job).

(** The digest error becomes the job's error string. *)
Definition digest_result (r : DatasetCache * result DigestError (list byte))
    : DatasetCache * result JobError (list byte) :=
  (r.1, map_err DigestFailed r.2).

Definition hash_for_nonce (c : DatasetCache) (job : PowJob) (nonce : Z)
    : run (DatasetCache * result JobError (list byte)) :=
  if bool_decide (is_Some (pj_historical_preimage job)) then
    digest_result <$> visionx_digest c (pj_params job) (pj_prev_hash32 job) (pj_epoch job)
      (mining_input_bytes job) nonce
  else
    match header_with_nonce job nonce with
    | Err e => Done (c, Err e)
    | Ok header =>
        digest_result <$> visionx_digest c (pj_params job) (pj_prev_hash32 job) (pj_epoch job)
          header nonce
    end.

Definition solution_for_nonce (c : DatasetCache) (job : PowJob) (nonce : Z)
    : run (DatasetCache * result JobError PowSolution) :=
  '(c, r) ← hash_for_nonce c job nonce;
  Done (c, hash ← r; Ok (mkSolution nonce hash)).

Definition validate_solution (c : DatasetCache) (job : PowJob) (solution : PowSolution)
    : run (DatasetCache * bool) :=
  if negb (is_ok (header_with_nonce job (sol_nonce solution))) then Done (c, false)
  else
    '(c, r) ← hash_for_nonce c job (sol_nonce solution);
    match r with
    | Err _ => Done (c, false)
    | Ok expected_hash =>
        if negb (bool_decide (sol_hash solution = expected_hash)) then Done (c, false)
        else Done (c, bytes_leb (take 8 (sol_hash solution)) (take 8 (pj_target job)))
    end.

Definition build_job (m : VisionXMiner) (prev_hash32 : list byte) (epoch : Z)
    (header_bytes : list byte) (nonce_offset : Z) (target : list byte) : result JobError PowJob :=
  new_job (vm_params m) prev_hash32 epoch header_bytes nonce_offset target.

Definition build_historical_job (m : VisionXMiner) (prev_hash32 : list byte) (epoch : Z)
    (header : BlockHeader) (nonce_offset : Z) (target : list byte) : result JobError PowJob :=
  from_historical_header (vm_params m) prev_hash32 epoch header nonce_offset target.

(** [for nonce in nonce..nonce + n]. *)
Fixpoint mine_loop (c : DatasetCache) (job : PowJob) (nonce : Z) (n : nat)
    : run (DatasetCache * option PowSolution) :=
  match n with
  | O => Done (c, None)
  | S n =>
      '(c, r) ← solution_for_nonce c job nonce;
      match r with
      | Err _ => Done (c, None)
      | Ok candidate =>
          '(c, valid) ← validate_solution c job candidate;
          if (valid : bool) then Done (c, Some candidate) else mine_loop c job (nonce + 1) n
      end
  end.
Definition mine (c : DatasetCache) (m : VisionXMiner) (job : PowJob) (nonce_limit : Z)
    : run (DatasetCache * option PowSolution) :=
  if negb (bool_decide (pj_params job = vm_params m)) then Done (c, None)
  else mine_loop c job 0 (Z.to_nat nonce_limit).

Definition verify_solution (c : DatasetCache) (m : VisionXMiner) (job : PowJob)
    (solution : PowSolution) : run (DatasetCache * bool) :=
  if negb (bool_decide (pj_params job = vm_params m)) then Done (c, false)
  else validate_solution c job solution.

End miner.

(** ** Theory *)
Section miner_theory.
Context {C : Crypto}.

(** The digest a job assigns to a nonce, without a cache. *)
Definition job_digest (job : PowJob) (nonce : Z) : result JobError (list byte) :=
  match pj_historical_preimage job with
  | Some pre =>
      match fresh_digest (pj_params job) (pj_prev_hash32 job) (pj_epoch job) pre nonce with
      | Done d => map_err DigestFailed d
      | _ => Err NonceOffsetOverflows
      end
  | None =>
      header ← header_with_nonce job nonce;
      match fresh_digest (pj_params job) (pj_prev_hash32 job) (pj_epoch job) header nonce with
      | Done d => map_err DigestFailed d
      | _ => Err NonceOffsetOverflows
      end
  end.

Lemma hash_for_nonce_spec c job nonce : cache_ok c →
  ∃ c', hash_for_nonce c job nonce = Done (c', job_digest job nonce) ∧ cache_ok c'.
Proof.
  intros Hc. unfold hash_for_nonce, job_digest, mining_input_bytes.
  assert (∀ bs, ∃ c',
    digest_result <$> visionx_digest c (pj_params job) (pj_prev_hash32 job) (pj_epoch job) bs nonce
    = Done (c', match fresh_digest (pj_params job) (pj_prev_hash32 job) (pj_epoch job) bs nonce with
                | Done d => map_err DigestFailed d | _ => Err NonceOffsetOverflows end) ∧
    cache_ok c') as Hd.
  { intros bs. destruct (fresh_digest_total (pj_params job) (pj_prev_hash32 job) (pj_epoch job)
      bs nonce) as (d & Hd & _).
    destruct (visionx_digest_fresh c _ _ _ bs nonce d Hc Hd) as (c' & Hc' & Hok).
    exists c'. by rewrite Hc', Hd. }
  destruct (pj_historical_preimage job) as [pre|].
  - rewrite bool_decide_true by done. apply Hd.
  - rewrite bool_decide_false by (by intros []).
    destruct (header_with_nonce job nonce) as [h|e]; [apply Hd|by exists c].
Qed.

Definition target_met (job : PowJob) (h : list byte) : bool :=
  bytes_leb (take 8 h) (take 8 (pj_target job)).

Lemma validate_solution_spec c job s : cache_ok c →
  ∃ c' v, validate_solution c job s = Done (c', v) ∧ cache_ok c' ∧
    (v = true ↔ is_ok (header_with_nonce job (sol_nonce s)) = true ∧
       job_digest job (sol_nonce s) = Ok (sol_hash s) ∧ target_met job (sol_hash s) = true).
Proof.
  intros Hc. unfold validate_solution.
  destruct (is_ok (header_with_nonce job (sol_nonce s))); cbn [negb]; [|naive_solver].
  destruct (hash_for_nonce_spec c job (sol_nonce s) Hc) as (c' & -> & Hc').
  cbn [mbind run_bind]. destruct (job_digest job (sol_nonce s)) as [h|e]; [|naive_solver].
  case_bool_decide as Hh; cbn [negb]; [subst|].
  - eexists _, _. split; [reflexivity|]. unfold target_met. naive_solver.
  - eexists _, _. split; [reflexivity|]. split; [done|]. split; [done|].
    intros (_ & [= ->] & _). done.
Qed.

(** Whether a nonce solves a job, and the corresponding solution. *)
Definition solves (job : PowJob) (nonce : Z) : bool :=
  match job_digest job nonce with Ok h => target_met job h | Err _ => false end.
Definition solution_at (job : PowJob) (nonce : Z) : option PowSolution :=
  match job_digest job nonce with Ok h => Some (mkSolution nonce h) | Err _ => None end.

(** A job whose digests exist: bounded parameters and a nonce field inside the
    header. *)
Definition job_ok (job : PowJob) : Prop :=
  params_within_bounds (pj_params job) = true ∧ 0 ≤ pj_nonce_offset job ∧
  pj_nonce_offset job + 8 ≤ Z.of_nat (length (pj_header_bytes job)) ∧
  Z.of_nat (length (pj_header_bytes job)) ≤ U64_MAX.

Lemma header_with_nonce_ok job nonce : job_ok job → is_ok (header_with_nonce job nonce) = true.
Proof.
  intros (_ & H0 & H1 & H2). unfold header_with_nonce, inject_nonce.
  rewrite (proj2 (checked_add64_Some (pj_nonce_offset job) 8 (pj_nonce_offset job + 8))) by lia.
  cbn [ok_or mbind result_bind].
  by rewrite (proj2 (Z.ltb_ge _ _)) by lia.
Qed.

Lemma job_digest_ok job nonce : job_ok job → ∃ h, job_digest job nonce = Ok h.
Proof.
  intros Hj. unfold job_digest.
  pose proof (λ bs, fresh_digest_in_bounds (pj_params job) (pj_prev_hash32 job) (pj_epoch job)
    bs nonce (proj1 Hj)) as Hd.
  destruct (pj_historical_preimage job) as [pre|].
  - destruct (Hd pre) as [h ->]. by exists h.
  - destruct (is_ok_true _ (header_with_nonce_ok job nonce Hj)) as [bs ->]. cbn [mbind result_bind].
    destruct (Hd bs) as [h ->]. by exists h.
Qed.

Lemma mine_loop_spec c job nonce n : cache_ok c → job_ok job →
  ∃ c', mine_loop c job nonce n =
    Done (c', List.find (solves job) (map (λ i, nonce + Z.of_nat i) (seq 0 n)) ≫= solution_at job) ∧
    cache_ok c'.
Proof.
  intros Hc Hj. revert c nonce Hc. induction n as [|n IH]; intros c nonce Hc; [by exists c|].
  cbn [mine_loop]. unfold solution_for_nonce.
  destruct (hash_for_nonce_spec c job nonce Hc) as (c1 & -> & Hc1). cbn [mbind run_bind].
  destruct (job_digest_ok job nonce Hj) as [h Hh]. rewrite Hh. cbn [mbind result_bind].
  destruct (validate_solution_spec c1 job (mkSolution nonce h) Hc1) as (c2 & v & -> & Hc2 & Hv).
  cbn [mbind run_bind sol_nonce sol_hash] in *.
  assert (v = solves job nonce) as ->.
  { apply eq_true_iff_eq. rewrite Hv, header_with_nonce_ok by done. unfold solves. rewrite Hh.
    naive_solver. }
  cbn [seq map List.find]. rewrite Z.add_0_r.
  destruct (solves job nonce) eqn:Es.
  - exists c2. split; [|done]. cbn. unfold solution_at. by rewrite Hh.
  - destruct (IH c2 (nonce + 1) Hc2) as (c3 & -> & Hc3). exists c3. split; [|done].
    do 3 f_equal. rewrite <- seq_shift, map_map. f_equal. apply map_ext. intros i. lia.
Qed.
End miner_theory.

(** ** Properties *)

(** C16: The nonce search is exact: for a job of the miner's own parameters it
    ends with the solution at the smallest nonce below the limit whose digest
    meets the target, and with none exactly when no such nonce exists; it
    never panics and never fails on a digest error. *)
Theorem mine_finds_first `{C : Crypto} c m job limit :
  cache_ok c → job_ok job → pj_params job = vm_params m →
  ∃ c', cache_ok c' ∧
    mine c m job limit =
    Done (c', List.find (solves job) (map Z.of_nat (seq 0 (Z.to_nat limit))) ≫= solution_at job).
Proof.
  intros Hc Hj Hp. unfold mine. rewrite bool_decide_true by done. cbn [negb].
  destruct (mine_loop_spec c job 0 (Z.to_nat limit) Hc Hj) as (c' & E & Hc').
  exists c'. split; [done|]. rewrite E. reflexivity.
Qed.

Definition toy_job : PowJob :=
  mkPowJob tiny_params (repeat (Z_byte 68) 32) 7 (repeat (Z_byte 17) 24) 8
    (be_bytes 8 (2 ^ 62) ++ repeat (Z_byte 255) 24) None.

Lemma mine_finds_first_witness :
  ∃ c', mine empty_cache (mkMiner tiny_params) toy_job 8 =
    Done (c', List.find (solves toy_job) (map Z.of_nat (seq 0 8)) ≫= solution_at toy_job).
Proof.
  destruct (mine_finds_first empty_cache (mkMiner tiny_params) toy_job 8 cache_ok_empty)
    as (c' & _ & E); [|reflexivity|exists c'; exact E].
  split_and!; [reflexivity|vm_compute; discriminate..].
Defined.
