(* ===== verification/Sled.v ===== *)
(** * Third-party storage: the [sled] database and the [bincode] codecs

    The database crate and the serialisation of the stored values are not part
    of the repository.  [Sled] lists the calls the program makes of a
    database, [SledLaws] their documented behaviour in terms of the
    key/value contents; [StoreCodec] lists the [bincode] encodings of stored
    values with their round-trip laws.  [toy_sled], a map with a budget of
    successful writes, and [toy_store] are concrete instances. *)
From S2P Require Import Prelude Crypto Transaction Block.

(** A [sled::Batch]: operations applied in order, all or none. *)
Inductive BatchOp :=
| BInsert (key value : list byte)
| BRemove (key : list byte).

Inductive DbError := DbIo.
#[export] Instance DbError_eq_dec : EqDecision DbError.
Proof. solve_decision. Defined.

Class Sled := {
  Db : Type;
  (** [Db::get]. *)
  db_get : Db → list byte → result DbError (option (list byte));
  (** [Db::insert] and [Db::apply_batch], with whether they succeeded. *)
  db_insert : Db → list byte → list byte → Db * bool;
  db_apply_batch : Db → list BatchOp → Db * bool;
  (** [Db::scan_prefix], collected. *)
  db_scan_prefix : Db → list byte → list (result DbError (list byte * list byte))
}.

Abbreviation contents_map := (gmap (list byte) (list byte)).

Definition batch_op (m : contents_map) (op : BatchOp) : contents_map :=
  match op with BInsert k v => <[k := v]> m | BRemove k => delete k m end.
Definition batch_ops (m : contents_map) (ops : list BatchOp) : contents_map :=
  fold_left batch_op ops m.

Class SledLaws (S : Sled) := {
  (** What the database holds. *)
  db_contents : Db → contents_map;
  db_get_ok d k v : db_get d k = Ok v → v = db_contents d !! k;
  db_insert_ok d k v d' : db_insert d k v = (d', true) → db_contents d' = <[k := v]> (db_contents d);
  (** An insertion only touches its key, even when it fails. *)
  db_insert_other d k v d' ok k' :
    db_insert d k v = (d', ok) → k' ≠ k → db_contents d' !! k' = db_contents d !! k';
  db_batch_ok d ops d' : db_apply_batch d ops = (d', true) → db_contents d' = batch_ops (db_contents d) ops;
  db_batch_atomic d ops d' : db_apply_batch d ops = (d', false) → db_contents d' = db_contents d;
  db_scan_sound d p k v : Ok (k, v) ∈ db_scan_prefix d p → db_contents d !! k = Some v
}.

(** ** Codecs of the stored values *)
Class StoreCodec := {
  bincode_block : Block → list byte;
  unbincode_block : list byte → option Block;
  (** [BTreeMap<String, u128>], [BTreeMap<String, u64>]. *)
  bincode_balances : gmap string Z → list byte;
  unbincode_balances : list byte → option (gmap string Z);
  bincode_nonces : gmap string Z → list byte;
  unbincode_nonces : list byte → option (gmap string Z);
  (** [(u64, String)] and [String]. *)
  bincode_meta : Z * string → list byte;
  unbincode_meta : list byte → option (Z * string);
  bincode_root : string → list byte;
  unbincode_root : list byte → option string
}.
Class StoreCodecLaws (SC : StoreCodec) : Prop := {
  unbincode_bincode_block b : block_wf b → unbincode_block (bincode_block b) = Some b;
  unbincode_bincode_balances m :
    map_Forall (λ _, u128) m → unbincode_balances (bincode_balances m) = Some m;
  unbincode_bincode_nonces m :
    map_Forall (λ _, u64) m → unbincode_nonces (bincode_nonces m) = Some m;
  unbincode_bincode_meta n h : u64 n → unbincode_meta (bincode_meta (n, h)) = Some (n, h);
  unbincode_bincode_root r : unbincode_root (bincode_root r) = Some r
}.

(** ** A concrete database *)

(** Contents and the number of writes that will still succeed. *)
Definition toy_write (d : contents_map * Z) (m : contents_map) : (contents_map * Z) * bool :=
  if 0 <? d.2 then ((m, d.2 - 1), true) else (d, false).
Fixpoint has_prefix (p k : list byte) : bool :=
  match p, k with
  | [], _ => true
  | x :: p, y :: k => bool_decide (x = y) && has_prefix p k
  | _ :: _, [] => false
  end.

#[export] Instance toy_sled : Sled := {
  Db := contents_map * Z;
  db_get d k := Ok (d.1 !! k);
  db_insert d k v := toy_write d (<[k := v]> d.1);
  db_apply_batch d ops := toy_write d (batch_ops d.1 ops);
  db_scan_prefix d p := map Ok (filter (λ e, has_prefix p e.1 = true) (map_to_list d.1))
}.

Lemma toy_write_cases d m d' ok :
  toy_write d m = (d', ok) → (ok = true ∧ d'.1 = m) ∨ (ok = false ∧ d' = d).
Proof. unfold toy_write. destruct (0 <? d.2); intros; simplify_eq/=; auto. Qed.

#[export] Instance toy_sled_laws : SledLaws toy_sled.
Proof.
  refine {| db_contents := λ d : @Db toy_sled, fst d |}; simpl.
  - by intros d k v [= <-].
  - intros d k v d' [[_ ->]|[? _]]%toy_write_cases; done.
  - intros d k v d' ok k' [[_ ->]|[_ ->]]%toy_write_cases Hk; [by rewrite lookup_insert_ne|done].
  - intros d ops d' [[_ ->]|[? _]]%toy_write_cases; done.
  - intros d ops d' [[? _]|[_ ->]]%toy_write_cases; done.
  - intros d p k v ([k' v'] & [= <- <-] & Hin)%list_elem_of_fmap.
    apply list_elem_of_filter in Hin as [_ Hin]. by apply elem_of_map_to_list.
Defined.
Definition toy_db : @Db toy_sled := (∅, 1000000).

(** ** Concrete codecs

    Any countable type has an encoding as a positive number; its binary digits
    are the bytes. *)
Fixpoint pos_bits (p : positive) : list byte :=
  match p with
  | xH => []
  | xO p => Z_byte 0 :: pos_bits p
  | xI p => Z_byte 1 :: pos_bits p
  end.
Fixpoint bits_pos (bs : list byte) : positive :=
  match bs with
  | [] => xH
  | b :: bs => if byte_Z b =? 0 then xO (bits_pos bs) else xI (bits_pos bs)
  end.
Lemma bits_pos_bits p : bits_pos (pos_bits p) = p.
Proof.
  induction p as [p IH|p IH|]; [..|done]; cbn [pos_bits bits_pos];
    rewrite byte_Z_byte, IH; reflexivity.
Qed.

#[export] Instance Tx_countable : Countable Tx.
Proof.
  refine (inj_countable'
    (λ t, (tx_nonce t, tx_sender_pubkey t, tx_module t, tx_method t, tx_args t, tx_tip t,
           tx_fee_limit t, tx_sig t))
    (λ t, let '(a, b, c, d, e, f, g, h) := t in mkTx a b c d e f g h) _).
  by intros [].
Defined.
#[export] Instance BlockHeader_countable : Countable BlockHeader.
Proof.
  refine (inj_countable'
    (λ h, (bh_parent_hash h, bh_number h, bh_timestamp h, bh_difficulty h, bh_nonce h,
           bh_pow_hash h, bh_state_root h, bh_tx_root h, bh_miner h))
    (λ t, let '(a, b, c, d, e, f, g, h, i) := t in mkHeader a b c d e f g h i) _).
  by intros [].
Defined.
#[export] Instance Block_countable : Countable Block.
Proof.
  refine (inj_countable' (λ b, (b_header b, b_txs b, b_weight b))
    (λ t, let '(a, b, c) := t in mkBlock a b c) _).
  by intros [].
Defined.

Definition toy_enc {A} `{Countable A} (a : A) : list byte := pos_bits (encode a).
Definition toy_dec {A} `{Countable A} (bs : list byte) : option A := decode (bits_pos bs).
Lemma toy_dec_enc {A} `{Countable A} (a : A) : toy_dec (toy_enc a) = Some a.
Proof. unfold toy_dec, toy_enc. by rewrite bits_pos_bits, decode_encode. Qed.

(** A map is stored as its sorted entries. *)
Definition toy_enc_map (m : gmap string Z) : list byte := toy_enc (bt_iter m).
Definition toy_dec_map (bs : list byte) : option (gmap string Z) :=
  list_to_map <$> (toy_dec bs : option (list (string * Z))).
Lemma toy_dec_enc_map m : toy_dec_map (toy_enc_map m) = Some m.
Proof. unfold toy_dec_map, toy_enc_map. rewrite toy_dec_enc. simpl. by rewrite bt_iter_list_to_map. Qed.

#[export] Instance toy_store : StoreCodec := {
  bincode_block := toy_enc; unbincode_block := toy_dec;
  bincode_balances := toy_enc_map; unbincode_balances := toy_dec_map;
  bincode_nonces := toy_enc_map; unbincode_nonces := toy_dec_map;
  bincode_meta := toy_enc; unbincode_meta := toy_dec;
  bincode_root := toy_enc; unbincode_root := toy_dec
}.
#[export] Instance toy_store_laws : StoreCodecLaws toy_store.
Proof. split; intros; simpl; apply toy_dec_enc || apply toy_dec_enc_map. Qed.
