(* ===== verification/ChainState.v ===== *)
(** * The chain state ([src/chain/state.rs])

    The in-memory state of the node (canonical blocks, accounts, side blocks,
    work, orphan pool, indexes) with its database handle, its queries and its
    account mutations.  [canon_index], a [HashMap] the code never iterates, and
    the [BTreeMap]s are finite maps; heights are machine words. *)
From S2P Require Import Prelude Crypto Constants Transaction Block Sled.

(** Recovery data of a reorganisation ([src/chain/reorg.rs]). *)
Record ReorgRecovery := mkRecovery {
  displaced_txs : list Tx;
  winning_tx_ids : list string
}.

(** An orphan: block, arrival second, source peer. *)
Definition OrphanEntry : Type := Block * Z * string.

Section state.
Context `{SL : Sled}.

Record ChainState := mkState {
  blocks : list Block;
  difficulty : Z;
  balances : gmap string Z;
  nonces : gmap string Z;
  seen_txs : gset string;
  seen_blocks : gset string;
  side_blocks : gmap string Block;
  cumulative_work : gmap string Z;
  orphan_pool : gmap string (list OrphanEntry);
  orphan_by_hash : gmap string string;
  canon_index : gmap string Z;
  cached_state_root : option (Z * string);
  pending_reorg_recovery : option ReorgRecovery;
  db : Db
}.

(** [ChainState::empty]. *)
Definition empty_state (d : Db) : ChainState :=
  mkState [] DIFFICULTY_FLOOR ∅ ∅ ∅ ∅ ∅ ∅ ∅ ∅ ∅ None None d.

(** Assignments to single fields, used by the operations below and by the
    other chain modules. *)
Definition set_blocks (x : list Block) (g : ChainState) : ChainState :=
  mkState x (difficulty g) (balances g) (nonces g) (seen_txs g) (seen_blocks g) (side_blocks g)
    (cumulative_work g) (orphan_pool g) (orphan_by_hash g) (canon_index g) (cached_state_root g)
    (pending_reorg_recovery g) (db g).
Definition set_accounts (b n : gmap string Z) (g : ChainState) : ChainState :=
  mkState (blocks g) (difficulty g) b n (seen_txs g) (seen_blocks g) (side_blocks g)
    (cumulative_work g) (orphan_pool g) (orphan_by_hash g) (canon_index g) (cached_state_root g)
    (pending_reorg_recovery g) (db g).
Definition set_seen_blocks (x : gset string) (g : ChainState) : ChainState :=
  mkState (blocks g) (difficulty g) (balances g) (nonces g) (seen_txs g) x (side_blocks g)
    (cumulative_work g) (orphan_pool g) (orphan_by_hash g) (canon_index g) (cached_state_root g)
    (pending_reorg_recovery g) (db g).
Definition set_side_blocks (x : gmap string Block) (g : ChainState) : ChainState :=
  mkState (blocks g) (difficulty g) (balances g) (nonces g) (seen_txs g) (seen_blocks g) x
    (cumulative_work g) (orphan_pool g) (orphan_by_hash g) (canon_index g) (cached_state_root g)
    (pending_reorg_recovery g) (db g).
Definition set_work (x : gmap string Z) (g : ChainState) : ChainState :=
  mkState (blocks g) (difficulty g) (balances g) (nonces g) (seen_txs g) (seen_blocks g)
    (side_blocks g) x (orphan_pool g) (orphan_by_hash g) (canon_index g) (cached_state_root g)
    (pending_reorg_recovery g) (db g).
Definition set_orphans (p : gmap string (list OrphanEntry)) (h : gmap string string)
    (g : ChainState) : ChainState :=
  mkState (blocks g) (difficulty g) (balances g) (nonces g) (seen_txs g) (seen_blocks g)
    (side_blocks g) (cumulative_work g) p h (canon_index g) (cached_state_root g)
    (pending_reorg_recovery g) (db g).
Definition set_canon_index (x : gmap string Z) (g : ChainState) : ChainState :=
  mkState (blocks g) (difficulty g) (balances g) (nonces g) (seen_txs g) (seen_blocks g)
    (side_blocks g) (cumulative_work g) (orphan_pool g) (orphan_by_hash g) x
    (cached_state_root g) (pending_reorg_recovery g) (db g).
Definition set_cached_state_root (x : option (Z * string)) (g : ChainState) : ChainState :=
  mkState (blocks g) (difficulty g) (balances g) (nonces g) (seen_txs g) (seen_blocks g)
    (side_blocks g) (cumulative_work g) (orphan_pool g) (orphan_by_hash g) (canon_index g) x
    (pending_reorg_recovery g) (db g).
Definition set_pending (x : option ReorgRecovery) (g : ChainState) : ChainState :=
  mkState (blocks g) (difficulty g) (balances g) (nonces g) (seen_txs g) (seen_blocks g)
    (side_blocks g) (cumulative_work g) (orphan_pool g) (orphan_by_hash g) (canon_index g)
    (cached_state_root g) x (db g).
Definition set_db (x : Db) (g : ChainState) : ChainState :=
  mkState (blocks g) (difficulty g) (balances g) (nonces g) (seen_txs g) (seen_blocks g)
    (side_blocks g) (cumulative_work g) (orphan_pool g) (orphan_by_hash g) (canon_index g)
    (cached_state_root g) (pending_reorg_recovery g) x.

(** ** Queries *)
Definition current_height (g : ChainState) : Z := default 0 (b_number <$> last (blocks g)).
Definition tip_hash (g : ChainState) : string := default null_hash (block_hash <$> last (blocks g)).
Definition block_at (g : ChainState) (height : Z) : option Block := blocks g !! Z.to_nat height.
Definition block_by_hash (g : ChainState) (hash : string) : option Block :=
  match canon_index g !! hash with
  | Some h => blocks g !! Z.to_nat h
  | None => side_blocks g !! hash
  end.
Definition nonce_of (g : ChainState) (address : string) : Z := default 0 (nonces g !! address).
Definition balance_of (g : ChainState) (address : string) : Z := default 0 (balances g !! address).

(** ** Account mutation *)
Definition credit_balance (g : ChainState) (address : string) (amount : Z) : ChainState :=
  let bal := default 0 (balances g !! address) in
  set_accounts (<[address := sat_add128 bal amount]> (balances g)) (nonces g) g.

Inductive DebitError := InsufficientFunds (have need : Z).
Definition debit_balance (g : ChainState) (address : string) (amount : Z)
    : result DebitError ChainState :=
  let bal := default 0 (balances g !! address) in
  if bal <? amount then Err (InsufficientFunds bal amount)
  else Ok (set_accounts (<[address := bal - amount]> (balances g)) (nonces g) g).

Definition advance_nonce (g : ChainState) (address : string) (next_nonce : Z) : ChainState :=
  let entry := default 0 (nonces g !! address) in
  set_accounts (balances g)
    (<[address := if entry <? next_nonce then next_nonce else entry]> (nonces g)) g.

Definition refresh_cached_state_root_from_tip (g : ChainState) : ChainState :=
  set_cached_state_root
    ((λ tip, (b_number tip, bh_state_root (b_header tip))) <$> last (blocks g)) g.

End state.

(** ** Canonical chains

    A list of blocks is a chain when block [i] has height [i], every block
    names its predecessor's hash, and the first one is the genesis block, whose
    claimed hash is [root]. *)
Record canonical (root : string) (bs : list Block) : Prop := {
  cn_number i b : bs !! i = Some b → b_number b = Z.of_nat i;
  cn_link i b b' : bs !! i = Some b → bs !! S i = Some b' → b_parent b' = block_hash b;
  cn_root b : bs !! 0%nat = Some b → block_hash b = root;
  cn_nodup : NoDup (block_hash <$> bs)
}.

Lemma canonical_nil root : canonical root [].
Proof. split; try done. constructor. Qed.

Lemma canonical_last root bs b : canonical root bs → last bs = Some b →
  b_number b = Z.of_nat (length bs) - 1.
Proof.
  intros Hc Hl. rewrite last_lookup in Hl. rewrite (cn_number _ _ Hc _ _ Hl).
  apply lookup_lt_Some in Hl. lia.
Qed.

Lemma canonical_app root bs b :
  canonical root bs → b_number b = Z.of_nat (length bs) →
  match last bs with Some t => b_parent b = block_hash t | None => block_hash b = root end →
  block_hash b ∉ block_hash <$> bs →
  canonical root (bs ++ [b]).
Proof.
  intros Hc Hn Hl Hnew. split.
  - intros i x Hx. apply lookup_app_Some in Hx as [Hx|[Hlen Hx]]; [by eapply cn_number|].
    apply list_lookup_singleton_Some in Hx as [Hi <-]. lia.
  - intros i x y Hx Hy. apply lookup_app_Some in Hy as [Hy|[Hlen Hy]].
    + assert (i < length bs)%nat by (apply lookup_lt_Some in Hy; lia).
      rewrite lookup_app_l in Hx by done. by eapply cn_link.
    + apply list_lookup_singleton_Some in Hy as [Hi <-].
      assert (length bs = S i) as El by lia.
      rewrite lookup_app_l in Hx by lia.
      rewrite last_lookup, El in Hl. simpl in Hl. by rewrite Hx in Hl.
  - intros x Hx. destruct bs as [|b0 bs]; simpl in *; simplify_eq; [done|]. by eapply (cn_root _ _ Hc).
  - rewrite fmap_app. apply NoDup_app. split_and!; [apply (cn_nodup _ _ Hc)| |apply NoDup_singleton].
    intros h Hh ->%list_elem_of_singleton. done.
Qed.

(** A prefix of a chain is a chain. *)
Lemma canonical_take root bs n : canonical root bs → canonical root (take n bs).
Proof.
  intros Hc. split.
  - intros i b [Hb _]%lookup_take_Some. by eapply cn_number.
  - intros i b b' [Hb _]%lookup_take_Some [Hb' _]%lookup_take_Some. by eapply cn_link.
  - intros b [Hb _]%lookup_take_Some. by eapply cn_root.
  - rewrite fmap_take. eapply sublist_NoDup; [apply (cn_nodup _ _ Hc)|]. apply sublist_take.
Qed.

(** Hashes identify positions. *)
Lemma canonical_hash_inj root bs i j b c :
  canonical root bs → bs !! i = Some b → bs !! j = Some c → block_hash b = block_hash c → i = j.
Proof.
  intros Hc Hb Hc' E. eapply (NoDup_lookup (block_hash <$> bs)); [apply (cn_nodup _ _ Hc)|..];
    rewrite list_lookup_fmap, ?Hb, ?Hc'; simpl; by f_equal.
Qed.

(** ** Indexes of a chain *)

(** The index maps exactly the hashes of the chain to their heights. *)
Definition index_ok (m : gmap string Z) (bs : list Block) : Prop :=
  ∀ h k, m !! h = Some k ↔ 0 ≤ k ∧ ∃ b, bs !! Z.to_nat k = Some b ∧ block_hash b = h.
(** The accumulated work of a chain, as a [u128]. *)
Definition chain_work (bs : list Block) : Z :=
  fold_left (λ c b, wadd128 c (b_difficulty b)) bs 0.
(** The work map is right on the chain; it may hold other blocks too. *)
Definition work_ok (w : gmap string Z) (bs : list Block) : Prop :=
  ∀ i b, bs !! i = Some b → w !! block_hash b = Some (chain_work (take (S i) bs)).

Lemma chain_work_app bs b : chain_work (bs ++ [b]) = wadd128 (chain_work bs) (b_difficulty b).
Proof. unfold chain_work. by rewrite fold_left_app. Qed.

Lemma index_ok_nil : index_ok ∅ [].
Proof. intros h k. rewrite lookup_empty. split; [done|]. by intros (_ & b & ? & _). Qed.

Lemma index_ok_snoc root m bs b :
  canonical root (bs ++ [b]) → index_ok m bs →
  index_ok (<[block_hash b := b_number b]> m) (bs ++ [b]).
Proof.
  intros Hc Hm h k.
  assert ((bs ++ [b]) !! length bs = Some b) as Hb by (by rewrite list_lookup_middle).
  pose proof (cn_number _ _ Hc _ _ Hb) as Hn.
  destruct (decide (h = block_hash b)) as [->|Hne].
  - rewrite lookup_insert_eq. split.
    + intros [= <-]. rewrite Hn. split; [lia|]. exists b. by rewrite Nat2Z.id.
    + intros (Hk & c & Hc' & E). f_equal. rewrite Hn.
      pose proof (canonical_hash_inj _ _ _ _ _ _ Hc Hb Hc' (eq_sym E)). lia.
  - rewrite lookup_insert_ne by done. rewrite (Hm h k). split.
    + intros (Hk & c & Hc' & E). split; [done|]. exists c. split; [|done].
      by apply lookup_app_l_Some.
    + intros (Hk & c & Hc' & E). split; [done|]. exists c. split; [|done].
      apply lookup_app_Some in Hc' as [?|[_ Hx]]; [done|].
      apply list_lookup_singleton_Some in Hx as [_ <-]. congruence.
Qed.

Lemma work_ok_snoc root w bs b c :
  canonical root (bs ++ [b]) → work_ok w bs → c = wadd128 (chain_work bs) (b_difficulty b) →
  work_ok (<[block_hash b := c]> w) (bs ++ [b]).
Proof.
  intros Hc Hw -> i x Hx. apply lookup_app_Some in Hx as [Hx|[Hl Hx]].
  - assert (i < length bs)%nat by (by eapply lookup_lt_Some).
    rewrite lookup_insert_ne; [rewrite (Hw _ _ Hx), take_app_le by lia; done|].
    intros E. assert ((bs ++ [b]) !! length bs = Some b) as Hb by (by rewrite list_lookup_middle).
    pose proof (canonical_hash_inj _ _ _ _ _ _ Hc Hb (lookup_app_l_Some _ _ _ _ Hx) E). lia.
  - apply list_lookup_singleton_Some in Hx as [Hi <-].
    rewrite lookup_insert_eq, take_ge by (rewrite length_app; simpl; lia).
    by rewrite chain_work_app.
Qed.
