(* ===== verification/Storage.v ===== *)
(** * Block storage ([src/chain/storage.rs])

    The key scheme of the database, the writes of blocks, height index and tip
    pointers, and the reload of the canonical chain at startup. *)
From S2P Require Import Prelude Crypto Constants Transaction Block Sled ChainState.

Inductive StorageError :=
| SledError (e : DbError)
| Undecodable
| NotUtf8
| NotANumber
| EmptyCanonicalChain
| HeightIndexMissing (h : Z)
| BlockMissing (hash : string) (h : Z).
#[export] Instance StorageError_eq_dec : EqDecision StorageError.
Proof. solve_decision. Defined.

(** ** Keys *)
Definition block_key (hash : string) : list byte := string_bytes ("block:" +:+ hash).
Definition height_key (n : Z) : list byte := string_bytes ("height:" +:+ u64_to_string n).
Definition meta_key (key : string) : list byte := string_bytes ("meta:" +:+ key).
Definition tip_hash_key : list byte := meta_key "tip_hash".
Definition tip_height_key : list byte := meta_key "tip_height".

Section storage.
Context `{SL : Sled} `{SC : StoreCodec}.

(** ** Database access *)
Definition db_put (k v : list byte) : stm ChainState StorageError () := λ g,
  let '(d, ok) := db_insert (db g) k v in
  (set_db d g, if ok then Ok () else Err (SledError DbIo)).
Definition db_batch (ops : list BatchOp) : stm ChainState StorageError () := λ g,
  let '(d, ok) := db_apply_batch (db g) ops in
  (set_db d g, if ok then Ok () else Err (SledError DbIo)).
Definition db_read (g : ChainState) (k : list byte) : result StorageError (option (list byte)) :=
  map_err SledError (db_get (db g) k).

(** ** Block storage *)
Definition store_block (block : Block) : stm ChainState StorageError () :=
  db_put (block_key (block_hash block)) (bincode_block block).

Definition persist_canonical_extension (block : Block) : stm ChainState StorageError () :=
  let hash := block_hash block in
  let height := b_number block in
  db_batch [ BInsert (block_key hash) (bincode_block block);
             BInsert (height_key height) (string_bytes hash);
             BInsert tip_height_key (string_bytes (u64_to_string height));
             BInsert tip_hash_key (string_bytes hash) ].

Definition load_block (g : ChainState) (hash : string) : result StorageError (option Block) :=
  v ← db_read g (block_key hash);
  match v with
  | Some bytes => b ← ok_or Undecodable (unbincode_block bytes); Ok (Some b)
  | None => Ok None
  end.

(** ** Height index *)
Definition store_height_index (height : Z) (hash : string) : stm ChainState StorageError () :=
  _ ← db_put (height_key height) (string_bytes hash);
  g ← stm_get;
  v ← stm_lift (db_read g tip_height_key);
  let current_tip := default 0 (bs ← v; s ← from_utf8 bs; parse_uint U64_MAX s) in
  if current_tip <=? height then
    _ ← db_put tip_height_key (string_bytes (u64_to_string height));
    db_put tip_hash_key (string_bytes hash)
  else mret ().

(** The operations of the reorganisation batch: blocks and heights of the new
    chain, removal of the heights above its tip, tip pointers. *)
Definition reorg_block_ops (block : Block) : list BatchOp :=
  [ BInsert (block_key (block_hash block)) (bincode_block block);
    BInsert (height_key (b_number block)) (string_bytes (block_hash block)) ].
Definition stale_heights (new_tip_height previous_tip_height : Z) : list Z :=
  let first := wadd64 new_tip_height 1 in
  seqZ first (previous_tip_height - first + 1).
Definition reorg_ops (canonical_blocks : list Block) (tip : Block) (previous_tip_height : Z)
    : list BatchOp :=
  flat_map reorg_block_ops canonical_blocks ++
  map (λ h, BRemove (height_key h)) (stale_heights (b_number tip) previous_tip_height) ++
  [ BInsert tip_height_key (string_bytes (u64_to_string (b_number tip)));
    BInsert tip_hash_key (string_bytes (block_hash tip)) ].

Definition persist_canonical_reorg (canonical_blocks : list Block) (previous_tip_height : Z)
    : stm ChainState StorageError () :=
  tip ← stm_lift (ok_or EmptyCanonicalChain (last canonical_blocks));
  db_batch (reorg_ops canonical_blocks tip previous_tip_height).

Definition load_height_index (g : ChainState) (height : Z)
    : result StorageError (option string) :=
  v ← db_read g (height_key height);
  match v with
  | Some bytes => s ← ok_or NotUtf8 (from_utf8 bytes); Ok (Some s)
  | None => Ok None
  end.

(** ** Canonical chain recovery *)

(** The block the index records at a height. *)
Definition load_canonical_at (g : ChainState) (h : Z) : result StorageError (string * Block) :=
  i ← load_height_index g h;
  hash ← ok_or (HeightIndexMissing h) i;
  b ← load_block g hash;
  block ← ok_or (BlockMissing hash h) b;
  Ok (hash, block).

(** The body of the loop of [load_canon_chain]. *)
Definition load_step (cumulative h : Z) : stm ChainState StorageError Z :=
  g ← stm_get;
  '(hash, block) ← stm_lift (load_canonical_at g h);
  let cumulative := wadd128 cumulative (b_difficulty block) in
  _ ← stm_modify (λ g, set_seen_blocks ({[ hash ]} ∪ seen_blocks g) g);
  _ ← stm_modify (λ g, set_canon_index (<[hash := b_number block]> (canon_index g)) g);
  _ ← stm_modify (λ g, set_work (<[hash := cumulative]> (cumulative_work g)) g);
  _ ← stm_modify (λ g, set_blocks (blocks g ++ [block]) g);
  mret cumulative.
Fixpoint load_loop (cumulative h : Z) (n : nat) : stm ChainState StorageError () :=
  match n with
  | O => mret ()
  | S n => cumulative ← load_step cumulative h; load_loop cumulative (h + 1) n
  end.

Definition load_canon_chain : stm ChainState StorageError () :=
  g ← stm_get;
  v ← stm_lift (db_read g tip_height_key);
  match v with
  | None => mret ()
  | Some bytes =>
      s ← stm_lift (ok_or NotUtf8 (from_utf8 bytes));
      tip_height ← stm_lift (ok_or NotANumber (parse_uint U64_MAX s));
      load_loop 0 0 (Z.to_nat (tip_height + 1))
  end.

(** ** Metadata *)
Definition store_meta (key value : string) : stm ChainState StorageError () :=
  db_put (meta_key key) (string_bytes value).
Definition load_meta (g : ChainState) (key : string) : result StorageError (option string) :=
  v ← db_read g (meta_key key);
  match v with
  | Some bytes => s ← ok_or NotUtf8 (from_utf8 bytes); Ok (Some s)
  | None => Ok None
  end.
Definition persist_tip : stm ChainState StorageError () :=
  g ← stm_get;
  let hash := tip_hash g in
  let height := current_height g in
  _ ← db_put tip_hash_key (string_bytes hash);
  db_put tip_height_key (string_bytes (u64_to_string height)).

(** [ChainState::open_with_genesis], the database being already open. *)
Definition open_with_genesis (d : Db) : result StorageError ChainState :=
  let state := empty_state d in
  tip ← load_meta state "tip_height";
  match load_canon_chain state with
  | (g, Ok _) => Ok g
  | (g, Err e) => if bool_decide (is_Some tip) then Err e else Ok g
  end.

End storage.

(** ** Keys are distinct *)
Lemma block_key_inj h1 h2 : block_key h1 = block_key h2 → h1 = h2.
Proof. intros E%(inj string_bytes). by injection E. Qed.
Lemma height_key_inj a b : 0 ≤ a → 0 ≤ b → height_key a = height_key b → a = b.
Proof. intros ?? E%(inj string_bytes). injection E as E. by apply u64_to_string_inj. Qed.
Lemma meta_key_inj a b : meta_key a = meta_key b → a = b.
Proof. intros E%(inj string_bytes). by injection E. Qed.
Lemma block_height_ne h n : block_key h ≠ height_key n.
Proof. by intros E%(inj string_bytes). Qed.
Lemma block_meta_ne h k : block_key h ≠ meta_key k.
Proof. by intros E%(inj string_bytes). Qed.
Lemma height_meta_ne n k : height_key n ≠ meta_key k.
Proof. by intros E%(inj string_bytes). Qed.

(** ** Batches *)
Definition op_key (op : BatchOp) : list byte :=
  match op with BInsert k _ | BRemove k => k end.
Definition op_value (op : BatchOp) : option (list byte) :=
  match op with BInsert _ v => Some v | BRemove _ => None end.

Lemma batch_op_lookup m op k :
  batch_op m op !! k = if bool_decide (op_key op = k) then op_value op else m !! k.
Proof.
  destruct op as [k' v|k']; simpl; case_bool_decide; subst;
    by rewrite ?lookup_insert_eq, ?lookup_insert_ne, ?lookup_delete_eq, ?lookup_delete_ne.
Qed.
Lemma batch_ops_app m l1 l2 : batch_ops m (l1 ++ l2) = batch_ops (batch_ops m l1) l2.
Proof. apply fold_left_app. Qed.
Lemma batch_ops_notin m ops k : k ∉ op_key <$> ops → batch_ops m ops !! k = m !! k.
Proof.
  revert m. induction ops as [|op ops IH]; intros m Hk; [done|]. cbn [batch_ops fold_left].
  rewrite fmap_cons, elem_of_cons in Hk. unfold batch_ops in IH. rewrite IH by tauto.
  rewrite batch_op_lookup, bool_decide_false; [done|]. intros <-. apply Hk. by left.
Qed.
(** The last operation on a key decides its value. *)
Lemma batch_ops_last m l1 op l2 :
  op_key op ∉ op_key <$> l2 → batch_ops m (l1 ++ op :: l2) !! op_key op = op_value op.
Proof.
  intros Hk. rewrite batch_ops_app. cbn [batch_ops fold_left].
  change (fold_left batch_op l2 ?x) with (batch_ops x l2).
  rewrite batch_ops_notin by done. by rewrite batch_op_lookup, bool_decide_true.
Qed.

(** A key all of whose operations insert the same value. *)
Lemma batch_ops_all m ops k v :
  BInsert k v ∈ ops → (∀ op, op ∈ ops → op_key op = k → op = BInsert k v) →
  batch_ops m ops !! k = Some v.
Proof.
  induction ops as [|op ops IH] using rev_ind; [by intros ?%elem_of_nil|].
  intros Hin Hall. rewrite batch_ops_app. cbn [batch_ops fold_left]. rewrite batch_op_lookup.
  case_bool_decide as Hk.
  - rewrite (Hall op); [done|apply elem_of_app; right; by left|done].
  - apply IH.
    + apply elem_of_app in Hin as [?|<-%list_elem_of_singleton]; [done|]. by destruct Hk.
    + intros op' Hop'. apply Hall, elem_of_app. by left.
Qed.

(** The database holds exactly the canonical chain [bs]: its blocks, its height
    index with nothing above the tip, and its tip pointers. *)
Record mirrors `{SC : StoreCodec} (m : contents_map) (bs : list Block) : Prop := {
  mi_height i b : bs !! i = Some b → m !! height_key (Z.of_nat i) = Some (string_bytes (block_hash b));
  mi_block b : b ∈ bs → m !! block_key (block_hash b) = Some (bincode_block b);
  mi_above n : Z.of_nat (length bs) ≤ n → m !! height_key n = None;
  mi_tip t : last bs = Some t →
    m !! tip_height_key = Some (string_bytes (u64_to_string (b_number t))) ∧
    m !! tip_hash_key = Some (string_bytes (block_hash t))
}.

(** Writing a key outside the canonical records keeps the mirror. *)
Lemma mirrors_other `{SC : StoreCodec} m m' bs k :
  mirrors m bs → (∀ k', k' ≠ k → m' !! k' = m !! k') →
  (∀ b, b ∈ bs → k ≠ block_key (block_hash b)) → (∀ n, k ≠ height_key n) →
  k ≠ tip_height_key → k ≠ tip_hash_key → mirrors m' bs.
Proof.
  intros Hm Ho Hb Hh H1 H2. split.
  - intros i b Hi. rewrite Ho by done. by apply (mi_height _ _ Hm).
  - intros b Hin. rewrite Ho by (apply not_eq_sym; auto). by apply (mi_block _ _ Hm).
  - intros n Hn. rewrite Ho by done. by apply (mi_above _ _ Hm).
  - intros t Ht. rewrite !Ho by done. by apply (mi_tip _ _ Hm).
Qed.

(** What does not depend on the record at a key. *)
Definition ignores (P : contents_map → Prop) (k : list byte) : Prop :=
  ∀ m m', (∀ k', k' ≠ k → m' !! k' = m !! k') → P m → P m'.

Lemma mirrors_ignores `{SC : StoreCodec} bs k :
  (∀ b, b ∈ bs → k ≠ block_key (block_hash b)) → (∀ n, k ≠ height_key n) →
  k ≠ tip_height_key → k ≠ tip_hash_key → ignores (λ m, mirrors m bs) k.
Proof. intros ???? m m' Ho Hm. by eapply mirrors_other. Qed.

(** The canonical records alone, without what is absent and without the tip. *)
Definition stores `{SC : StoreCodec} (bs : list Block) (m : contents_map) : Prop := ∀ i b, bs !! i = Some b →
  m !! height_key (Z.of_nat i) = Some (string_bytes (block_hash b)) ∧
  m !! block_key (block_hash b) = Some (bincode_block b).
Lemma mirrors_stores `{SC : StoreCodec} m bs : mirrors m bs → stores bs m.
Proof.
  intros Hm i b Hi. split; [by apply (mi_height _ _ Hm)|].
  apply (mi_block _ _ Hm). by eapply list_elem_of_lookup_2.
Qed.
Lemma stores_ignores `{SC : StoreCodec} bs k :
  (∀ h, k ≠ block_key h) → (∀ n, k ≠ height_key n) → ignores (stores bs) k.
Proof.
  intros Hb Hh m m' Ho Hm i b Hi. destruct (Hm i b Hi) as [H1 H2].
  by rewrite !Ho by (apply not_eq_sym; auto).
Qed.

(** An operation that only writes the database, and keeps [P] of it. *)
Definition db_only `{SL : Sled} {SLL : SledLaws SL} {E A : Type}
    (P : contents_map → Prop) (m : stm ChainState E A) : Prop :=
  ∀ g g' r, m g = (g', r) → P (db_contents (db g)) →
    g' = set_db (db g') g ∧ P (db_contents (db g')).

(** Read through an insertion at a different or at the same key. *)
Ltac db_lookup :=
  repeat first
    [ rewrite lookup_insert_eq
    | rewrite lookup_insert_ne by
        (auto using block_height_ne, block_meta_ne, height_meta_ne, not_eq_sym; fail) ].

Section storage_theory.
Context `{SL : Sled} {SLL : SledLaws SL} `{SC : StoreCodec}.

Lemma db_batch_Ok ops g g' :
  db_batch ops g = (g', Ok ()) →
  db_contents (db g') = batch_ops (db_contents (db g)) ops ∧ g' = set_db (db g') g.
Proof.
  unfold db_batch. destruct (db_apply_batch (db g) ops) as [d []] eqn:E; intros [= <-].
  split; [|done]. simpl. by eapply db_batch_ok.
Qed.
Lemma db_batch_Err ops g g' e :
  db_batch ops g = (g', Err e) →
  db_contents (db g') = db_contents (db g) ∧ g' = set_db (db g') g.
Proof.
  unfold db_batch. destruct (db_apply_batch (db g) ops) as [d []] eqn:E; intros [= <- <-].
  split; [|done]. simpl. by eapply db_batch_atomic.
Qed.
Lemma db_put_Ok k v g g' :
  db_put k v g = (g', Ok ()) →
  db_contents (db g') = <[k := v]> (db_contents (db g)) ∧ g' = set_db (db g') g.
Proof.
  unfold db_put. destruct (db_insert (db g) k v) as [d []] eqn:E; intros [= <-].
  split; [|done]. simpl. by eapply db_insert_ok.
Qed.
(** A single insertion, successful or not, leaves every other key alone. *)
Lemma db_put_other k v g g' r k' :
  db_put k v g = (g', r) → k' ≠ k → db_contents (db g') !! k' = db_contents (db g) !! k'.
Proof.
  unfold db_put. destruct (db_insert (db g) k v) as [d ok] eqn:E; intros [= <- _] Hk. simpl.
  by eapply db_insert_other.
Qed.
Lemma db_put_state k v g g' r : db_put k v g = (g', r) → g' = set_db (db g') g.
Proof. unfold db_put. destruct (db_insert _ _ _) as [d ok]. by intros [= <- _]. Qed.

Lemma set_db_id (g : ChainState) : set_db (db g) g = g.
Proof. by destruct g. Qed.
Lemma db_only_ret {E A} P (a : A) : db_only P (mret a : stm ChainState E A).
Proof. intros g g' r [= <- <-] Hm. by rewrite set_db_id. Qed.
Lemma db_only_lift {E A} P (x : result E A) : db_only P (stm_lift x).
Proof. intros g g' r [= <- <-] Hm. by rewrite set_db_id. Qed.
Lemma db_only_bind {E A B} P (m : stm ChainState E A) (f : A → stm ChainState E B) :
  db_only P m → (∀ a, db_only P (f a)) → db_only P (m ≫= f).
Proof.
  intros Hm Hf g g' r E1 Hg. unfold mbind, stm_bind in E1.
  destruct (m g) as [g1 [a|e]] eqn:Em; destruct (Hm _ _ _ Em Hg) as [E2 Hm1].
  - destruct (Hf a _ _ _ E1 Hm1) as [E3 Hm2]. split; [|done]. rewrite E3, E2. by destruct g.
  - by injection E1 as <- _.
Qed.
Lemma db_only_get {E B} P (f : ChainState → stm ChainState E B) :
  (∀ g, db_only P (f g)) → db_only P (stm_get ≫= f).
Proof. intros Hf g g' r E1 Hg. rewrite stm_get_bind in E1. by eapply Hf. Qed.
Lemma db_only_put P k v : ignores P k → db_only P (db_put k v).
Proof.
  intros HP g g' r E1 Hg. split; [by eapply db_put_state|].
  eapply HP; [|exact Hg]. intros k' Hk'. by eapply db_put_other.
Qed.

Lemma extension_mirrors root m bs b :
  mirrors m bs → canonical root (bs ++ [b]) →
  mirrors (batch_ops m
    [ BInsert (block_key (block_hash b)) (bincode_block b);
      BInsert (height_key (b_number b)) (string_bytes (block_hash b));
      BInsert tip_height_key (string_bytes (u64_to_string (b_number b)));
      BInsert tip_hash_key (string_bytes (block_hash b)) ]) (bs ++ [b]).
Proof.
  intros Hm Hc. unfold tip_hash_key, tip_height_key. cbn [batch_ops fold_left batch_op].
  assert ((bs ++ [b]) !! length bs = Some b) as Hb by (by rewrite list_lookup_middle).
  pose proof (cn_number _ _ Hc _ _ Hb) as Hn.
  split.
  - intros i x Hx. db_lookup. apply lookup_app_Some in Hx as [Hx|[Hl Hx]].
    + assert (i < length bs)%nat by (by eapply lookup_lt_Some).
      rewrite lookup_insert_ne by (intros E%height_key_inj; lia).
      db_lookup. by apply (mi_height _ _ Hm).
    + apply list_lookup_singleton_Some in Hx as [Hi <-].
      replace (Z.of_nat i) with (b_number b) by lia. by db_lookup.
  - intros x Hx. db_lookup.
    destruct (decide (block_hash x = block_hash b)) as [E|Hne].
    + rewrite E. db_lookup. f_equal. apply list_elem_of_lookup in Hx as [i Hi].
      assert (i = length bs) as -> by (by eapply canonical_hash_inj). by simplify_eq.
    + rewrite lookup_insert_ne by (intros E%block_key_inj; congruence).
      apply (mi_block _ _ Hm). apply elem_of_app in Hx as [?|Hx%list_elem_of_singleton]; [done|].
      by subst x.
  - intros n Hn'. rewrite length_app in Hn'. simpl in Hn'. db_lookup.
    rewrite lookup_insert_ne by (intros E%height_key_inj; lia). db_lookup.
    apply (mi_above _ _ Hm). lia.
  - intros t. rewrite last_snoc. intros [= <-]. split; [|by db_lookup].
    rewrite lookup_insert_ne by (by intros E%meta_key_inj). by db_lookup.
Qed.

Lemma reorg_block_ops_keys l k :
  k ∈ op_key <$> flat_map reorg_block_ops l →
  ∃ x, x ∈ l ∧ (k = block_key (block_hash x) ∨ k = height_key (b_number x)).
Proof.
  induction l as [|b l IH]; cbn [flat_map]; [by intros ?%elem_of_nil|].
  rewrite fmap_app, elem_of_app. intros [Hk|Hk].
  - exists b. split; [left|]. cbn in Hk.
    rewrite !elem_of_cons in Hk. destruct Hk as [?|[?|?%elem_of_nil]]; auto; done.
  - destruct (IH Hk) as (x & ? & ?). exists x. split; [by right|done].
Qed.

Lemma remove_ops_lookup m ks k :
  batch_ops m (map (λ h, BRemove (height_key h)) ks) !! k =
  if decide (k ∈ height_key <$> ks) then None else m !! k.
Proof.
  revert m. induction ks as [|h ks IH]; intros m; cbn [map batch_ops fold_left].
  { by rewrite decide_False by apply not_elem_of_nil. }
  unfold batch_ops in IH. rewrite IH. cbn [batch_op]. rewrite fmap_cons.
  destruct (decide (k ∈ height_key <$> ks)) as [Hin|Hin].
  - by rewrite decide_True by (by right).
  - destruct (decide (k = height_key h)) as [->|Hne].
    + by rewrite lookup_delete_eq, decide_True by left.
    + rewrite lookup_delete_ne by done. rewrite decide_False; [done|].
      rewrite elem_of_cons. naive_solver.
Qed.

(** The operations of a reorganisation batch. *)
Lemma elem_of_reorg_ops new tip prev op :
  op ∈ reorg_ops new tip prev →
  (∃ x, x ∈ new ∧ (op = BInsert (block_key (block_hash x)) (bincode_block x) ∨
                   op = BInsert (height_key (b_number x)) (string_bytes (block_hash x)))) ∨
  (∃ n, n ∈ stale_heights (b_number tip) prev ∧ op = BRemove (height_key n)) ∨
  op = BInsert tip_height_key (string_bytes (u64_to_string (b_number tip))) ∨
  op = BInsert tip_hash_key (string_bytes (block_hash tip)).
Proof.
  unfold reorg_ops. rewrite !elem_of_app. intros [H|[H|H]].
  - left. apply list_elem_of_In, in_flat_map in H as (x & Hx%list_elem_of_In & Hop).
    exists x. split; [done|]. cbn in Hop. naive_solver.
  - right. left. apply list_elem_of_fmap in H as (n & -> & Hn). eauto.
  - right. right. rewrite !elem_of_cons in H. destruct H as [?|[?|?%elem_of_nil]]; auto; done.
Qed.
Lemma reorg_ops_block new tip prev x : x ∈ new →
  BInsert (block_key (block_hash x)) (bincode_block x) ∈ reorg_ops new tip prev ∧
  BInsert (height_key (b_number x)) (string_bytes (block_hash x)) ∈ reorg_ops new tip prev.
Proof.
  intros Hx. unfold reorg_ops. rewrite !elem_of_app. split; left;
    apply list_elem_of_In, in_flat_map; exists x; (split; [by apply list_elem_of_In|]); cbn; auto.
Qed.
Lemma reorg_ops_tip new tip prev :
  BInsert tip_height_key (string_bytes (u64_to_string (b_number tip))) ∈ reorg_ops new tip prev ∧
  BInsert tip_hash_key (string_bytes (block_hash tip)) ∈ reorg_ops new tip prev.
Proof.
  unfold reorg_ops. rewrite !elem_of_app. split; right; right; [left|right; left].
Qed.

(** Refute an equation between keys of different kinds. *)
Ltac key_absurd :=
  match goal with
  | E : block_key _ = height_key _ |- _ => by apply block_height_ne in E
  | E : height_key _ = block_key _ |- _ => by apply not_eq_sym in E; [|apply block_height_ne]
  | E : block_key _ = _ |- _ => by apply block_meta_ne in E
  | E : height_key _ = _ |- _ => by apply height_meta_ne in E
  | E : _ = block_key _ |- _ => symmetry in E; by apply block_meta_ne in E
  | E : _ = height_key _ |- _ => symmetry in E; by apply height_meta_ne in E
  | E : _ = _ |- _ => by apply meta_key_inj in E
  end.

Lemma reorg_mirrors root m old new tip prev :
  mirrors m old → canonical root new → last new = Some tip → b_number tip < U64_MAX →
  Z.of_nat (length old) ≤ prev + 1 →
  mirrors (batch_ops m (reorg_ops new tip prev)) new.
Proof.
  intros Hm Hc Hl Ht Hp.
  pose proof (canonical_last _ _ _ Hc Hl) as Htn.
  assert (∀ n, n ∈ stale_heights (b_number tip) prev ↔ Z.of_nat (length new) ≤ n ≤ prev) as Hst.
  { intros n. unfold stale_heights, wadd64. rewrite wrap64_small by (unfold u64, U64_MAX in *; lia).
    rewrite elem_of_seqZ. lia. }
  assert (∀ x y, x ∈ new → y ∈ new → block_hash x = block_hash y → x = y) as Hinj.
  { intros x y [i Hi]%list_elem_of_lookup [j Hj]%list_elem_of_lookup E.
    assert (i = j) as -> by (by eapply canonical_hash_inj). by simplify_eq. }
  assert (∀ x, x ∈ new → 0 ≤ b_number x < Z.of_nat (length new) ∧
    new !! Z.to_nat (b_number x) = Some x) as Hnum.
  { intros x [i Hi]%list_elem_of_lookup. pose proof (lookup_lt_Some _ _ _ Hi).
    rewrite (cn_number _ _ Hc _ _ Hi), Nat2Z.id. auto with lia. }
  assert (∀ x, x ∈ new →
    batch_ops m (reorg_ops new tip prev) !! height_key (b_number x) = Some (string_bytes (block_hash x)))
    as Hheight.
  { intros x Hx. apply batch_ops_all; [by apply reorg_ops_block|].
    intros op Hop E. destruct (Hnum x Hx) as [? Hxl].
    destruct (elem_of_reorg_ops _ _ _ _ Hop) as [(y & Hy & [->| ->])|[(n & Hn & ->)|[->| ->]]];
      cbn [op_key] in E; try key_absurd.
    - destruct (Hnum y Hy) as [? Hyl]. apply height_key_inj in E; [|lia..].
      rewrite E in Hyl. by simplify_eq.
    - apply Hst in Hn. apply height_key_inj in E; lia. }
  split.
  - intros i b Hb. rewrite <- (cn_number _ _ Hc _ _ Hb).
    apply Hheight. by eapply list_elem_of_lookup_2.
  - intros x Hx. apply batch_ops_all; [by apply reorg_ops_block|].
    intros op Hop E.
    destruct (elem_of_reorg_ops _ _ _ _ Hop) as [(y & Hy & [->| ->])|[(n & Hn & ->)|[->| ->]]];
      cbn [op_key] in E; try key_absurd.
    apply block_key_inj in E. by rewrite (Hinj y x Hy Hx E).
  - intros n Hn. unfold reorg_ops. rewrite !batch_ops_app.
    rewrite batch_ops_notin.
    2:{ cbn. rewrite !elem_of_cons. intros [E|[E|?%elem_of_nil]]; [key_absurd..|done]. }
    rewrite remove_ops_lookup. case_decide as Hin; [done|]. rewrite batch_ops_notin.
    + apply (mi_above _ _ Hm). destruct (decide (n ≤ prev)); [|lia]. destruct Hin.
      apply list_elem_of_fmap_2, Hst. lia.
    + intros (y & Hy & [E|E])%reorg_block_ops_keys; [key_absurd|].
      destruct (Hnum y Hy). apply height_key_inj in E; lia.
  - intros t Ht'. rewrite Hl in Ht'. injection Ht' as <-.
    split; (apply batch_ops_all; [apply reorg_ops_tip|]); intros op Hop E;
      destruct (elem_of_reorg_ops _ _ _ _ Hop) as [(y & Hy & [->| ->])|[(n & Hn & ->)|[->| ->]]];
      cbn [op_key] in E; (done || key_absurd).
Qed.
End storage_theory.

(** ** Reload *)

(** Every read of this database succeeds. *)
Definition reads_ok `{SL : Sled} (d : Db) : Prop := ∀ k, ∃ v, db_get d k = Ok v.

(** What the in-memory state must be after a reload of [bs] from [d]. *)
Record reloaded `{SL : Sled} (d : Db) (bs : list Block) (g : ChainState) : Prop := {
  rl_blocks : blocks g = bs;
  rl_index : index_ok (canon_index g) bs;
  rl_work : work_ok (cumulative_work g) bs;
  rl_seen : seen_blocks g = list_to_set (block_hash <$> bs);
  rl_balances : balances g = ∅ ∧ nonces g = ∅;
  rl_pools : side_blocks g = ∅ ∧ orphan_pool g = ∅ ∧ orphan_by_hash g = ∅;
  rl_untouched : pending_reorg_recovery g = None ∧ difficulty g = DIFFICULTY_FLOOR ∧ seen_txs g = ∅;
  rl_db : db g = d
}.

Section reload.
Context `{SL : Sled} {SLL : SledLaws SL} `{SC : StoreCodec} {SCL : StoreCodecLaws SC}.

Lemma db_read_ok d g k : reads_ok d → db g = d → db_read g k = Ok (db_contents d !! k).
Proof.
  intros Hr <-. unfold db_read. destruct (Hr k) as [v Hv]. rewrite Hv. simpl.
  by rewrite (db_get_ok _ _ _ Hv).
Qed.

(** What the reload needs of each block: it is well formed and its claimed
    hash is lowercase hex, as every accepted hash is. *)
Definition loadable (b : Block) : Prop :=
  block_wf b ∧ string_forallb is_lower_hex_char (block_hash b) = true.

Lemma load_canonical_at_mirror d g bs i b :
  reads_ok d → db g = d → mirrors (db_contents d) bs → bs !! i = Some b → loadable b →
  load_canonical_at g (Z.of_nat i) = Ok (block_hash b, b).
Proof.
  intros Hr Hd Hm Hb [Hwf Hhex].
  unfold load_canonical_at, load_height_index, load_block.
  rewrite (db_read_ok d) by done. rewrite (mi_height _ _ Hm _ _ Hb). cbn [mbind result_bind].
  rewrite from_utf8_lower_hex by done. cbn [ok_or mbind result_bind].
  rewrite (db_read_ok d) by done.
  rewrite (mi_block _ _ Hm) by (by eapply list_elem_of_lookup_2). cbn [mbind result_bind].
  by rewrite unbincode_bincode_block.
Qed.

Lemma load_loop_mirror root d bs pre rest g :
  reads_ok d → mirrors (db_contents d) bs → canonical root bs → Forall loadable bs →
  bs = pre ++ rest → reloaded d pre g →
  ∃ g', load_loop (chain_work pre) (Z.of_nat (length pre)) (length rest) g = (g', Ok ()) ∧
    reloaded d bs g'.
Proof.
  intros Hr Hm Hc Hl. revert pre g. induction rest as [|b rest IH]; intros pre g -> Hg.
  { rewrite app_nil_r. by exists g. }
  assert ((pre ++ b :: rest) !! length pre = Some b) as Hb by (by rewrite list_lookup_middle).
  assert (loadable b) as Hlb by (eapply Forall_lookup_1; eauto).
  pose proof Hg as [H1 H2 H3 H4 H5 H6 H7 H8].
  assert (canonical root (pre ++ [b])) as Hc'.
  { pose proof (canonical_take _ _ (S (length pre)) Hc) as Ht.
    rewrite take_app_ge in Ht by lia. replace (S (length pre) - length pre)%nat with 1%nat in Ht by lia.
    done. }
  set (cw := wadd128 (chain_work pre) (b_difficulty b)).
  set (g1 := set_blocks (pre ++ [b]) (set_work (<[block_hash b := cw]> (cumulative_work g))
    (set_canon_index (<[block_hash b := b_number b]> (canon_index g))
      (set_seen_blocks ({[ block_hash b ]} ∪ seen_blocks g) g)))).
  assert (load_step (chain_work pre) (Z.of_nat (length pre)) g = (g1, Ok cw)) as Hstep.
  { unfold load_step. rewrite stm_get_bind, stm_lift_bind.
    rewrite (load_canonical_at_mirror d g (pre ++ b :: rest) (length pre) b) by done.
    rewrite !stm_modify_bind. cbn. rewrite H1. reflexivity. }
  destruct (IH (pre ++ [b]) g1) as (g' & Hg' & Hrl).
  - by rewrite <- app_assoc.
  - split; simpl; try done.
    + by eapply index_ok_snoc.
    + by eapply work_ok_snoc.
    + rewrite H4, fmap_app, list_to_set_app_L. simpl. set_solver.
  - exists g'. split; [|done]. cbn [load_loop length].
    rewrite (stm_bind_run _ _ _ _ _ Hstep). subst cw. rewrite <- chain_work_app.
    rewrite <- Hg'. f_equal. rewrite length_app. simpl. lia.
Qed.
End reload.

(** Opening a database that mirrors a chain. *)
Lemma open_mirror `{SL : Sled} {SLL : SledLaws SL} `{SC : StoreCodec}
    {SCL : StoreCodecLaws SC} root d bs :
  bs ≠ [] → Z.of_nat (length bs) ≤ U64_MAX → canonical root bs → Forall loadable bs →
  mirrors (db_contents d) bs → reads_ok d →
  ∃ g, open_with_genesis d = Ok g ∧ reloaded d bs g.
Proof.
  intros Hne Hlen Hc Hl Hm Hr.
  destruct (last bs) as [t|] eqn:Ht; [|by apply last_None in Ht].
  pose proof (canonical_last _ _ _ Hc Ht) as Htn.
  assert (length bs ≠ 0)%nat by (by destruct bs).
  destruct (mi_tip _ _ Hm t Ht) as [Hth _].
  destruct (load_loop_mirror root d bs [] bs (empty_state d) Hr Hm Hc Hl eq_refl)
    as (g & Hg & Hrl).
  { split; simpl; try done; [apply index_ok_nil]. }
  exists g. split; [|done]. unfold open_with_genesis, load_meta.
  assert (∀ k, db_read (empty_state d) k = Ok (db_contents d !! k)) as Hrd
    by (intros; by apply db_read_ok).
  rewrite Hrd. change (meta_key "tip_height") with tip_height_key. rewrite Hth.
  cbn [mbind result_bind]. rewrite from_utf8_u64. cbn [ok_or mbind result_bind].
  assert (load_canon_chain (empty_state d) = (g, Ok ())) as ->; [|done].
  unfold load_canon_chain. rewrite stm_get_bind, stm_lift_bind, Hrd, Hth.
  rewrite stm_lift_bind, from_utf8_u64. cbn [ok_or].
  rewrite stm_lift_bind, parse_uint_to_string by (unfold U64_MAX in *; lia). cbn [ok_or].
  rewrite <- Hg. f_equal. lia.
Qed.

(** ** Properties *)

(** C17: Restart recovery: reopening a database that mirrors a canonical chain
    rebuilds exactly that chain, its height index, the cumulative work of every
    block and the seen set, and starts with empty accounts and pools. *)
Theorem reload_restores_chain `{SL : Sled} {SLL : SledLaws SL} `{SC : StoreCodec}
    {SCL : StoreCodecLaws SC} root d bs :
  bs ≠ [] → Z.of_nat (length bs) ≤ U64_MAX → canonical root bs → Forall loadable bs →
  mirrors (db_contents d) bs → reads_ok d →
  ∃ g, open_with_genesis d = Ok g ∧ reloaded d bs g.
Proof. apply open_mirror. Qed.

(** A one-block chain and a database holding it. *)
Definition toy_genesis : Block := mkBlock (toy_header 0 0 1 0) [] 0.
Lemma toy_genesis_canonical : canonical null_hash [toy_genesis].
Proof. apply (canonical_app null_hash [] toy_genesis); [apply canonical_nil|done..|apply not_elem_of_nil]. Qed.
Lemma mirrors_nil `{SC : StoreCodec} : mirrors ∅ [].
Proof.
  split; intros; try done; [by destruct (not_elem_of_nil b)].
Qed.
Definition toy_genesis_db : @Db toy_sled :=
  (batch_ops ∅
    [ BInsert (block_key (block_hash toy_genesis)) (bincode_block toy_genesis);
      BInsert (height_key (b_number toy_genesis)) (string_bytes (block_hash toy_genesis));
      BInsert tip_height_key (string_bytes (u64_to_string (b_number toy_genesis)));
      BInsert tip_hash_key (string_bytes (block_hash toy_genesis)) ], 1000).
Lemma toy_genesis_mirrors : mirrors (db_contents toy_genesis_db) [toy_genesis].
Proof.
  apply (extension_mirrors null_hash ∅ [] toy_genesis mirrors_nil
    toy_genesis_canonical).
Qed.

Lemma reload_restores_chain_witness :
  ∃ g, open_with_genesis toy_genesis_db = Ok g ∧ blocks g = [toy_genesis] ∧
    cumulative_work g !! block_hash toy_genesis = Some 1.
Proof.
  destruct (reload_restores_chain null_hash toy_genesis_db [toy_genesis])
    as (g & Hg & Hr); [done|vm_compute; discriminate|apply toy_genesis_canonical| | | |].
  - apply Forall_singleton. split; [|reflexivity]. repeat constructor; vm_compute; discriminate.
  - exact toy_genesis_mirrors.
  - intros k. eexists. reflexivity.
  - exists g. split; [exact Hg|]. split; [apply (rl_blocks _ _ _ Hr)|].
    exact (rl_work _ _ _ Hr 0%nat toy_genesis eq_refl).
Defined.

(** C18: A canonical extension is stored atomically and faithfully: when the
    write succeeds a database that mirrored the chain mirrors the longer one,
    and when it fails its contents are unchanged and the error is reported. *)
Theorem extension_persisted `{SL : Sled} {SLL : SledLaws SL} `{SC : StoreCodec} root bs b g g' r :
  mirrors (db_contents (db g)) bs → canonical root (bs ++ [b]) →
  persist_canonical_extension b g = (g', r) →
  g' = set_db (db g') g ∧
  match r with
  | Ok _ => mirrors (db_contents (db g')) (bs ++ [b])
  | Err _ => db_contents (db g') = db_contents (db g)
  end.
Proof.
  intros Hm Hc E. destruct r as [[]|e].
  - apply db_batch_Ok in E as [Ec ->]. split; [done|]. simpl. rewrite Ec.
    by eapply extension_mirrors.
  - by apply db_batch_Err in E as [? ->].
Qed.

(** C19: A reorganisation is stored atomically and faithfully, whatever its
    depth and even when the new chain is shorter: after a successful write the
    database mirrors exactly the new chain, with no height left above its tip;
    after a failed one its contents are unchanged. *)
Theorem reorg_persisted `{SL : Sled} {SLL : SledLaws SL} `{SC : StoreCodec} root old new g g' r :
  mirrors (db_contents (db g)) old → canonical root new →
  Z.of_nat (length new) ≤ U64_MAX →
  persist_canonical_reorg new (Z.of_nat (length old) - 1) g = (g', r) →
  g' = set_db (db g') g ∧
  match r with
  | Ok _ => mirrors (db_contents (db g')) new
  | Err _ => db_contents (db g') = db_contents (db g)
  end.
Proof.
  intros Hm Hc Hlen E. unfold persist_canonical_reorg in E. rewrite stm_lift_bind in E.
  destruct (last new) as [tip|] eqn:Hl; cbn [ok_or] in E; [|injection E as <- <-; split; [by destruct g|done]].
  pose proof (canonical_last _ _ _ Hc Hl).
  destruct r as [[]|e].
  - apply db_batch_Ok in E as [Ec ->]. split; [done|]. simpl. rewrite Ec.
    eapply reorg_mirrors; eauto; lia.
  - by apply db_batch_Err in E as [? ->].
Qed.

(** A second block on top of the first. *)
Definition toy_child : Block :=
  mkBlock (mkHeader null_hash 1 30 1 0 (toy_addr 1) null_hash null_hash (toy_addr 1)) [] 0.
Lemma toy_child_canonical : canonical null_hash [toy_genesis; toy_child].
Proof.
  apply (canonical_app null_hash [toy_genesis] toy_child);
    [apply toy_genesis_canonical|done..|].
  intros E%list_elem_of_singleton. vm_compute in E. discriminate.
Qed.

Lemma extension_persisted_witness :
  ∃ g', persist_canonical_extension toy_child (empty_state toy_genesis_db) = (g', Ok ()) ∧
    mirrors (db_contents (db g')) [toy_genesis; toy_child].
Proof.
  destruct (persist_canonical_extension toy_child (empty_state toy_genesis_db)) as [g' r] eqn:E.
  assert (r = Ok ()) as -> by (change r with (snd (g', r)); rewrite <- E; vm_compute; reflexivity).
  exists g'. split; [reflexivity|].
  destruct (extension_persisted null_hash [toy_genesis] toy_child (empty_state toy_genesis_db) g' _
    toy_genesis_mirrors toy_child_canonical E) as [_ H].
  exact H.
Defined.

Lemma reorg_persisted_witness :
  ∃ g', persist_canonical_reorg [toy_genesis; toy_child] 0 (empty_state toy_genesis_db) = (g', Ok ()) ∧
    mirrors (db_contents (db g')) [toy_genesis; toy_child].
Proof.
  destruct (persist_canonical_reorg [toy_genesis; toy_child] 0 (empty_state toy_genesis_db))
    as [g' r] eqn:E.
  assert (r = Ok ()) as -> by (change r with (snd (g', r)); rewrite <- E; vm_compute; reflexivity).
  exists g'. split; [reflexivity|].
  destruct (reorg_persisted null_hash [toy_genesis] [toy_genesis; toy_child]
    (empty_state toy_genesis_db) g' _ toy_genesis_mirrors toy_child_canonical ltac:(vm_compute; discriminate) E)
    as [_ H].
  exact H.
Defined.
