(* ===== verification/Snapshots.v ===== *)
(** * State snapshots ([src/chain/snapshots.rs])

    Saving the account state at every [SNAPSHOT_EVERY]-th height and restoring
    the newest snapshot that the persisted canonical chain vouches for. *)
From S2P Require Import Prelude Crypto Constants Transaction Block StateRoot Sled ChainState Storage.

Inductive SnapshotError :=
| SnapStorage (e : StorageError)
| SnapRootFailed (height : Z) (e : StateRootError)
| SnapUndecodable
| MissingSnapshotMetadata
| MetadataHeightMismatch (key metadata : Z)
| MissingCanonicalIndex (height : Z)
| SnapshotHashMismatch (snapshot canonical : string) (height : Z)
| CanonicalBlockMissing (hash : string) (height : Z)
| RestoredStateInvalid (height : Z) (e : StateRootError)
| StoredRootMismatch (height : Z) (stored computed : string)
| BlockRootMismatch (computed block : string) (height : Z).
#[export] Instance SnapshotError_eq_dec : EqDecision SnapshotError.
Proof. solve_decision. Defined.

Inductive RestoreError :=
| NoSnapshot (max_height : Z)
| NoValidSnapshot (max_height : Z) (reasons : list (Z * SnapshotError)).

(** ** Keys *)
Definition snap_balances_key (h : Z) : list byte :=
  string_bytes ("snap:balances:" +:+ u64_to_string h).
Definition snap_nonces_key (h : Z) : list byte :=
  string_bytes ("snap:nonces:" +:+ u64_to_string h).
Definition snapshot_prefix : string := "meta:snapshot:".
Definition snapshot_key (h : Z) : list byte := meta_key ("snapshot:" +:+ u64_to_string h).
Definition snapshot_root_key (h : Z) : list byte :=
  meta_key ("snapshot_state_root:" +:+ u64_to_string h).

(** [str::strip_prefix]. *)
Fixpoint strip_prefix (p s : string) : option string :=
  match p, s with
  | EmptyString, _ => Some s
  | String a p, String b s => if Ascii.eqb a b then strip_prefix p s else None
  | String _ _, EmptyString => None
  end.

Section snapshots.
Context `{C : Crypto} `{SL : Sled} `{SC : StoreCodec}.

(** A storage operation inside a snapshot operation. *)
Definition storage_op {A} (m : stm ChainState StorageError A) : stm ChainState SnapshotError A :=
  λ g, let '(g', r) := m g in (g', map_err SnapStorage r).

(** ** Save *)
Definition save_snapshot (height : Z) : stm ChainState SnapshotError () :=
  g ← stm_get;
  let tip := tip_hash g in
  state_root ← stm_lift (map_err (SnapRootFailed height) (compute_state_root (balances g) (nonces g)));
  _ ← storage_op (db_put (snap_balances_key height) (bincode_balances (balances g)));
  _ ← storage_op (db_put (snap_nonces_key height) (bincode_nonces (nonces g)));
  _ ← storage_op (db_put (snapshot_key height) (bincode_meta (height, tip)));
  storage_op (db_put (snapshot_root_key height) (bincode_root state_root)).

Definition maybe_save_snapshot : stm ChainState SnapshotError () :=
  g ← stm_get;
  let height := current_height g in
  if (height =? 0) || negb (height mod SNAPSHOT_EVERY =? 0) then mret ()
  else save_snapshot height.

(** ** Restore *)
Definition normalize_snapshot_state (balances nonces : gmap string Z)
    : gmap string Z * gmap string Z :=
  (filter (λ e, e.2 ≠ 0) balances, filter (λ e, e.2 ≠ 0) nonces).

(** A stored account map, empty when absent. *)
Definition read_map (decode : list byte → option (gmap string Z)) (g : ChainState) (k : list byte)
    : result SnapshotError (gmap string Z) :=
  v ← map_err SnapStorage (db_read g k);
  match v with
  | None => Ok ∅
  | Some bytes => ok_or SnapUndecodable (decode bytes)
  end.

(** The checks of [restore_snapshot_at], before any assignment: the restored
    maps and their root. *)
Definition check_snapshot_at (g : ChainState) (height : Z)
    : result SnapshotError (gmap string Z * gmap string Z * string) :=
  m ← map_err SnapStorage (db_read g (snapshot_key height));
  metadata_bytes ← ok_or MissingSnapshotMetadata m;
  '(metadata_height, snapshot_hash) ← ok_or SnapUndecodable (unbincode_meta metadata_bytes);
  if negb (metadata_height =? height) then Err (MetadataHeightMismatch height metadata_height)
  else
    i ← map_err SnapStorage (load_height_index g height);
    canonical_hash ← ok_or (MissingCanonicalIndex height) i;
    if negb (bool_decide (snapshot_hash = canonical_hash))
    then Err (SnapshotHashMismatch snapshot_hash canonical_hash height)
    else
      b ← map_err SnapStorage (load_block g canonical_hash);
      canonical_block ← ok_or (CanonicalBlockMissing canonical_hash height) b;
      balances ← read_map unbincode_balances g (snap_balances_key height);
      nonces ← read_map unbincode_nonces g (snap_nonces_key height);
      let '(balances, nonces) := normalize_snapshot_state balances nonces in
      computed_state_root ← map_err (RestoredStateInvalid height) (compute_state_root balances nonces);
      stored ← map_err SnapStorage (db_read g (snapshot_root_key height));
      _ ← match stored with
          | None => Ok ()
          | Some bytes =>
              stored_state_root ← ok_or SnapUndecodable (unbincode_root bytes);
              if negb (bool_decide (stored_state_root = computed_state_root))
              then Err (StoredRootMismatch height stored_state_root computed_state_root)
              else Ok ()
          end;
      let block_root := bh_state_root (b_header canonical_block) in
      let is_genesis_dev_snapshot := (height =? 0) && bool_decide (block_root = null_hash) in
      if negb (bool_decide (block_root = computed_state_root)) && negb is_genesis_dev_snapshot
      then Err (BlockRootMismatch computed_state_root block_root height)
      else Ok (balances, nonces, computed_state_root).

(** Rebuilding the index and work from the kept blocks. *)
Fixpoint rebuild_maps (cw : Z) (index work : gmap string Z) (bs : list Block)
    : gmap string Z * gmap string Z :=
  match bs with
  | [] => (index, work)
  | b :: bs =>
      let cw := wadd128 cw (b_difficulty b) in
      rebuild_maps cw (<[block_hash b := b_number b]> index) (<[block_hash b := cw]> work) bs
  end.

(** The assignments of [restore_snapshot_at]. *)
Definition install_snapshot (balances nonces : gmap string Z) (root : string) (height : Z)
    (g : ChainState) : ChainState :=
  let keep := wadd64 height 1 in
  let bs := if keep <? Z.of_nat (length (blocks g))
            then take (Z.to_nat keep) (blocks g) else blocks g in
  let '(index, work) := rebuild_maps 0 ∅ ∅ bs in
  set_cached_state_root (Some (height, root))
    (set_seen_blocks (list_to_set (block_hash <$> bs))
      (set_work work (set_canon_index index (set_blocks bs (set_accounts balances nonces g))))).

Definition restore_snapshot_at (height : Z) : stm ChainState SnapshotError () :=
  g ← stm_get;
  '(balances, nonces, root) ← stm_lift (check_snapshot_at g height);
  stm_modify (install_snapshot balances nonces root height).

(** The heights of the stored snapshots, newest first. *)
Definition snapshot_height (max_height : Z) (e : result DbError (list byte * list byte))
    : option Z :=
  kv ← res_ok e;
  s ← from_utf8 kv.1;
  n ← strip_prefix snapshot_prefix s;
  h ← parse_uint U64_MAX n;
  if h <=? max_height then Some h else None.
Definition snapshot_heights (g : ChainState) (max_height : Z) : list Z :=
  merge_sort Z.ge
    (omap (snapshot_height max_height) (db_scan_prefix (db g) (string_bytes snapshot_prefix))).

Fixpoint restore_loop (heights : list Z) (rejection_reasons : list (Z * SnapshotError))
    (g : ChainState) : ChainState * result (list (Z * SnapshotError)) Z :=
  match heights with
  | [] => (g, Err rejection_reasons)
  | height :: heights =>
      match restore_snapshot_at height g with
      | (g, Ok _) => (g, Ok height)
      | (g, Err e) => restore_loop heights (rejection_reasons ++ [(height, e)]) g
      end
  end.

Definition restore_latest_snapshot (max_height : Z) : stm ChainState RestoreError Z := λ g,
  match restore_loop (snapshot_heights g max_height) [] g with
  | (g, Ok h) => (g, Ok h)
  | (g, Err []) => (g, Err (NoSnapshot max_height))
  | (g, Err reasons) => (g, Err (NoValidSnapshot max_height reasons))
  end.

End snapshots.

(** ** Saving a snapshot leaves the canonical records alone *)

(** The keys a snapshot is stored under. *)
Definition snapshot_record (k : list byte) : Prop :=
  ∃ h, k ∈ [snap_balances_key h; snap_nonces_key h; snapshot_key h; snapshot_root_key h].
Lemma snapshot_record_ne k h n : snapshot_record k →
  k ≠ block_key h ∧ k ≠ height_key n ∧ k ≠ tip_height_key ∧ k ≠ tip_hash_key.
Proof.
  intros [i Hk]. repeat (apply elem_of_cons in Hk as [->|Hk]); [..|by apply elem_of_nil in Hk];
    split_and!; intros E%(inj string_bytes); discriminate.
Qed.

Section save_theory.
Context `{C : Crypto} `{SL : Sled} {SLL : SledLaws SL} `{SC : StoreCodec}.
Context (P : contents_map → Prop) (HP : ∀ k, snapshot_record k → ignores P k).

Lemma db_only_storage_op {A} (m : stm ChainState StorageError A) :
  db_only P m → db_only P (storage_op m).
Proof.
  intros Hm g g' r E Hg. unfold storage_op in E. destruct (m g) as [g1 r1] eqn:Em.
  injection E as <- _. by eapply Hm.
Qed.
Lemma save_put_db_only h k v :
  k ∈ [snap_balances_key h; snap_nonces_key h; snapshot_key h; snapshot_root_key h] →
  db_only P (storage_op (db_put k v)).
Proof. intros Hk. apply db_only_storage_op, db_only_put, HP. by exists h. Qed.

Lemma save_snapshot_db_only h : db_only P (save_snapshot h).
Proof.
  unfold save_snapshot. apply db_only_get. intros g.
  apply db_only_bind; [apply db_only_lift|]. intros root.
  repeat (apply db_only_bind; [apply (save_put_db_only h); set_solver|]; intros _).
  apply (save_put_db_only h). set_solver.
Qed.
Lemma maybe_save_snapshot_db_only : db_only P maybe_save_snapshot.
Proof.
  unfold maybe_save_snapshot. apply db_only_get. intros g.
  destruct (_ || _); [apply db_only_ret|apply save_snapshot_db_only].
Qed.
End save_theory.

Lemma mirrors_ignores_snapshots `{SC : StoreCodec} bs k :
  snapshot_record k → ignores (λ m, mirrors m bs) k.
Proof.
  intros Hk. apply mirrors_ignores; intros; [by apply (snapshot_record_ne k _ 0)|by apply (snapshot_record_ne k "")|..];
    by apply (snapshot_record_ne k "" 0).
Qed.
Lemma stores_ignores_snapshots `{SC : StoreCodec} bs k : snapshot_record k → ignores (stores bs) k.
Proof.
  intros Hk. apply stores_ignores; intros; [by apply (snapshot_record_ne k _ 0)|by apply (snapshot_record_ne k "")].
Qed.
