(* ===== verification/Reward.v ===== *)
(** * Block subsidy ([block_reward] of [src/miner/job.rs] and
    [apply_coinbase_reward] of [src/chain/accept.rs])

    The halving schedule, with the shift count of a [u128] taken modulo 128 as
    the release build does, and the credit of the miner. *)
From S2P Require Import Prelude Crypto Constants Transaction.

Definition block_reward (height : Z) : Z :=
  Z.shiftr EMISSION_PER_BLOCK ((height / HALVING_INTERVAL) mod 128).

Inductive RewardError := InvalidMinerAddress | CoinbaseRewardOverflow.
#[export] Instance RewardError_eq_dec : EqDecision RewardError.
Proof. solve_decision. Defined.

Definition apply_coinbase_reward (state : TxExecutionState) (miner : string) (height : Z)
    : result RewardError TxExecutionState :=
  if negb (slen miner =? 64) || negb (string_forallb is_lower_hex_char miner)
  then Err InvalidMinerAddress
  else
    let reward := block_reward height in
    let entry := default 0 (es_balances state !! miner) in
    sum ← ok_or CoinbaseRewardOverflow (checked_add128 entry reward);
    Ok (mkExec (<[miner := sum]> (es_balances state)) (es_nonces state)).

Lemma apply_coinbase_reward_Ok st miner h st' :
  apply_coinbase_reward st miner h = Ok st' ↔
  is_hex64 miner = true ∧ balance_of st miner + block_reward h ≤ U128_MAX ∧
  st' = mkExec (<[miner := balance_of st miner + block_reward h]> (es_balances st)) (es_nonces st).
Proof.
  unfold apply_coinbase_reward, is_hex64, balance_of.
  destruct (slen miner =? 64); simpl; [|naive_solver].
  destruct (string_forallb is_lower_hex_char miner); simpl; [|naive_solver].
  destruct (checked_add128 _ _) as [s|] eqn:E; simpl.
  - apply checked_add128_Some in E as [-> ?]. split; [intros [= <-]; auto|by intros (_ & _ & ->)].
  - split; [done|]. intros (_ & Hle & _).
    rewrite (proj2 (checked_add128_Some _ _ _) (conj eq_refl Hle)) in E. done.
Qed.

Lemma block_reward_range h : 0 ≤ h → 0 ≤ block_reward h ≤ EMISSION_PER_BLOCK.
Proof.
  intros Hh. unfold block_reward. set (k := (h / HALVING_INTERVAL) mod 128).
  assert (0 ≤ k) by (apply Z.mod_pos_bound; lia).
  assert (0 ≤ EMISSION_PER_BLOCK) by (vm_compute; discriminate).
  rewrite Z.shiftr_div_pow2 by done. pose proof (Z.pow_pos_nonneg 2 k ltac:(lia) ltac:(done)).
  split; [by apply Z.div_pos|]. apply Z.div_le_upper_bound; [done|nia].
Qed.

(** ** Properties *)

(** C20: The subsidy follows the halving schedule for 128 halvings, about 269
    million blocks: it is the emission divided by a power of two, so it never
    exceeds the initial emission, never grows, and is zero from the 39th
    halving on. *)
Theorem block_reward_halves h1 h2 :
  0 ≤ h1 ≤ h2 → h2 < 128 * HALVING_INTERVAL →
  block_reward h2 = EMISSION_PER_BLOCK / 2 ^ (h2 / HALVING_INTERVAL) ∧
  0 ≤ block_reward h2 ≤ block_reward h1 ∧ block_reward h1 ≤ EMISSION_PER_BLOCK ∧
  (39 * HALVING_INTERVAL ≤ h2 → block_reward h2 = 0).
Proof.
  intros Hh Hlt.
  assert (0 < HALVING_INTERVAL) as HI by reflexivity.
  assert (∀ h, 0 ≤ h → h < 128 * HALVING_INTERVAL →
    0 ≤ h / HALVING_INTERVAL ∧ block_reward h = EMISSION_PER_BLOCK / 2 ^ (h / HALVING_INTERVAL)) as Hr.
  { intros h H0 H1. assert (0 ≤ h / HALVING_INTERVAL) by (by apply Z.div_pos).
    split; [done|]. unfold block_reward. rewrite Z.mod_small, Z.shiftr_div_pow2; [done..|].
    split; [done|]. apply Z.div_lt_upper_bound; lia. }
  destruct (Hr h2) as [H2 E2]; [lia..|]. destruct (Hr h1) as [H1 E1]; [lia..|].
  split; [done|]. pose proof (block_reward_range h1) as Hb1. pose proof (block_reward_range h2) as Hb2.
  split_and!; [lia| |lia|].
  - rewrite E1, E2. apply Z.div_le_compat_l; [vm_compute; discriminate|].
    split; [apply Z.pow_pos_nonneg; lia|]. apply Z.pow_le_mono_r; [lia|].
    apply Z.div_le_mono; lia.
  - intros H39. rewrite E2. apply Z.div_small. split; [vm_compute; discriminate|].
    apply Z.lt_le_trans with (2 ^ 39); [vm_compute; reflexivity|].
    apply Z.pow_le_mono_r; [lia|]. apply Z.div_le_lower_bound; lia.
Qed.

Lemma block_reward_halves_witness :
  block_reward (2 * HALVING_INTERVAL) = 127500000000 ∧
  block_reward (2 * HALVING_INTERVAL) ≤ block_reward HALVING_INTERVAL.
Proof.
  destruct (block_reward_halves HALVING_INTERVAL (2 * HALVING_INTERVAL)) as (E & [_ H] & _);
    [split; vm_compute; discriminate|reflexivity|].
  split; [rewrite E; reflexivity|exact H].
Defined.

(** The schedule is not bounded in time: at the 128th halving the shift
    count wraps around and the full initial emission is paid again. *)
Theorem block_reward_wraps :
  block_reward (128 * HALVING_INTERVAL) = EMISSION_PER_BLOCK ∧
  block_reward (128 * HALVING_INTERVAL - 1) = 0.
Proof. split; vm_compute; reflexivity. Qed.
