(* ===== verification/Job.v ===== *)
(** * Mining jobs ([src/miner/job.rs])

    The job workers iterate over, the candidate block template and the test of
    one nonce. *)
From S2P Require Import Prelude Crypto Constants Transaction Block Difficulty HistoricalVpow VisionX VisionXMiner.

Record MiningJob := mkMiningJob {
  mj_header_template : BlockHeader;
  mj_target_difficulty : Z;
  mj_epoch : Z;
  mj_visionx_params : VisionXParams;
  mj_header_bytes : list byte;
  mj_job_id : Z;
  mj_txs : list Tx
}.
#[export] Instance MiningJob_eq_dec : EqDecision MiningJob.
Proof. solve_decision. Defined.

Section job.
Context `{C : Crypto} `{TC : TxCodec}.

(** The file's own copy of the strict hash decoder. *)
Definition decode_hash_32 (s : string) : result HashDecodeError (list byte) :=
  match hex_decode (strip_0x s) with
  | None => Err (InvalidHex "parent_hash")
  | Some bytes =>
      if bool_decide (length bytes = 32%nat) then Ok bytes
      else Err (ExpectedBytes32 "parent_hash" (length bytes))
  end.

Definition encode_header (h : BlockHeader) : list byte := canonical_bytes h.

(** The template with a nonce filled in and no claimed hash, and the block a
    solution completes. *)
Definition nonce_header (job : MiningJob) (nonce : Z) : BlockHeader :=
  let h := mj_header_template job in
  mkHeader (bh_parent_hash h) (bh_number h) (bh_timestamp h) (bh_difficulty h) nonce EmptyString
    (bh_state_root h) (bh_tx_root h) (bh_miner h).
Definition solved_block (job : MiningJob) (header : BlockHeader) (hash : list byte) : Block :=
  mkBlock (mkHeader (bh_parent_hash header) (bh_number header) (bh_timestamp header)
      (bh_difficulty header) (bh_nonce header) (hex_encode hash) (bh_state_root header)
      (bh_tx_root header) (bh_miner header))
    (mj_txs job) (Z.of_nat (length (mj_txs job))).

Definition try_nonce (c : DatasetCache) (job : MiningJob) (nonce : Z)
    : run (DatasetCache * option Block) :=
  let header := nonce_header job nonce in
  match decode_hash_32 (bh_parent_hash header) with
  | Err _ => Done (c, None)
  | Ok prev_hash32 =>
      let target := difficulty_to_target (mj_target_difficulty job) in
      let miner := mkMiner (mj_visionx_params job) in
      match build_historical_job miner prev_hash32 (mj_epoch job) header
              HISTORICAL_VPOW_NONCE_OFFSET target with
      | Err _ => Done (c, None)
      | Ok pow_job =>
          '(c, r) ← solution_for_nonce c pow_job nonce;
          match r with
          | Err _ => Done (c, None)
          | Ok solution =>
              '(c, valid) ← verify_solution c miner pow_job solution;
              if negb (valid : bool) then Done (c, None)
              else Done (c, Some (solved_block job header (sol_hash solution)))
          end
      end
  end.

(** ** Candidates *)
Definition coinbase_of (height : Z) : Tx :=
  mkTx height EmptyString "coinbase" "reward" (be_bytes 8 height) 0 0 EmptyString.
(** The transactions of a candidate: the coinbase, then at most
    [BLOCK_TARGET_TXS - 1] others. *)
Definition candidate_txs (height : Z) (extra_txs : list Tx) : list Tx :=
  coinbase_of height :: take (Z.to_nat (sat_sub BLOCK_TARGET_TXS 1)) extra_txs.

(** [VisionXParams::epoch] divides: a zero epoch length panics. *)
Definition build_candidate_with_params (tip : Block) (job_id : Z) (miner_addr : string)
    (extra_txs : list Tx) (ancestor_window : list Block) (now_secs : Z)
    (visionx_params : VisionXParams) : run MiningJob :=
  let height := wadd64 (b_number tip) 1 in
  let txs := candidate_txs height extra_txs in
  let tx_root := hex_encode (blake3 (tx_root_payload txs)) in
  let difficulty := calculate_next_difficulty ancestor_window now_secs in
  let header_template := mkHeader (block_hash tip) height now_secs difficulty 0 EmptyString
    null_hash tx_root miner_addr in
  let header_bytes := encode_header header_template in
  epoch ← epoch visionx_params height;
  Done (mkMiningJob header_template difficulty epoch visionx_params header_bytes job_id txs).

Definition build_candidate (tip : Block) (job_id : Z) (miner_addr : string) (extra_txs : list Tx)
    (ancestor_window : list Block) (now_secs : Z) : run MiningJob :=
  build_candidate_with_params tip job_id miner_addr extra_txs ancestor_window now_secs
    VISIONX_PARAMS.

(** ** Theory *)

(** A candidate's transaction root is the root of its transactions. *)
Lemma candidate_tx_root h height extra w :
  compute_tx_root (mkBlock h (candidate_txs height extra) w) =
  hex_encode (blake3 (tx_root_payload (candidate_txs height extra))).
Proof. reflexivity. Qed.

Lemma candidate_txs_length height extra :
  1 ≤ Z.of_nat (length (candidate_txs height extra)) ≤ BLOCK_TARGET_TXS.
Proof.
  unfold candidate_txs. cbn [length]. rewrite length_take.
  change (Z.to_nat (sat_sub BLOCK_TARGET_TXS 1)) with 199%nat. unfold BLOCK_TARGET_TXS. lia.
Qed.

(** Testing a nonce always ends, whatever the job, and keeps the dataset cache
    valid. *)
Lemma try_nonce_total c job nonce : cache_ok c →
  ∃ c' found, try_nonce c job nonce = Done (c', found) ∧ cache_ok c'.
Proof.
  intros Hc. unfold try_nonce. destruct (decode_hash_32 _) as [prev|]; [|eauto].
  destruct (build_historical_job _ _ _ _ _ _) as [pj|]; [|eauto].
  unfold solution_for_nonce. destruct (hash_for_nonce_spec c pj nonce Hc) as (c1 & -> & Hc1).
  cbn [mbind run_bind]. destruct (job_digest pj nonce) as [hash|]; cbn [mbind result_bind]; [|eauto].
  unfold verify_solution. destruct (negb _); cbn [mbind run_bind negb]; [eauto|].
  destruct (validate_solution_spec c1 pj (mkSolution nonce hash) Hc1) as (c2 & v & -> & Hc2 & _).
  cbn [mbind run_bind]. destruct v; cbn [negb]; eauto.
Qed.

(** The preimage ignores the claimed hash. *)
Lemma solved_preimage job header hash :
  historical_vpow_message_bytes_with_nonce_zero (b_header (solved_block job header hash)) =
  historical_vpow_message_bytes_with_nonce_zero header.
Proof. reflexivity. Qed.

End job.
