(* ===== verification/Reorg.v ===== *)
(** * Reorganisation ([src/chain/reorg.rs])

    Tracing a heavier branch back to the canonical chain, replaying it with
    full validation, persisting the new chain and swapping it in.  The walk
    over the side blocks is bounded by their number; the theory shows that the
    bound is never reached on a consistent state. *)
From S2P Require Import Prelude Crypto Constants Transaction Block StateRoot Sled ChainState Storage Reward.

Inductive SideStateReconstructionError :=
| BrokenAncestry (expected_parent got_parent : string)
| Execution (e : TxExecutionError)
| CoinbaseReward (e : RewardError)
| StateRootConstructionFailed
| StateRootMismatch (block_hash expected computed : string).
#[export] Instance SideStateReconstructionError_eq_dec : EqDecision SideStateReconstructionError.
Proof. solve_decision. Defined.

Section reorg.
Context `{C : Crypto} `{TC : TxCodec} `{SL : Sled} `{SC : StoreCodec}.

(** ** Tracing the branch *)
Fixpoint segment_loop (fuel : nat) (g : ChainState) (current : string) (segment : list Block)
    : run (list Block) :=
  match fuel with
  | O => NoFuel
  | S fuel =>
      if bool_decide (is_Some (canon_index g !! current)) then Done (rev segment)
      else match side_blocks g !! current with
           | Some blk => segment_loop fuel g (b_parent blk) (segment ++ [blk])
           | None => Done []
           end
  end.
Definition ancestry_fuel (g : ChainState) : nat := S (size (side_blocks g)).
Definition collect_new_segment (g : ChainState) (tip_hash : string) : run (list Block) :=
  segment_loop (ancestry_fuel g) g tip_hash [].

(** ** Replay *)

(** The body both replay loops share: execute the transactions after the
    coinbase, pay the reward and check the state root. *)
Definition replay_block (state : TxExecutionState) (blk : Block)
    : result SideStateReconstructionError TxExecutionState :=
  state ← map_err Execution (execute_txs state (drop 1 (b_txs blk)));
  if negb (b_number blk =? 0) then
    state ← map_err CoinbaseReward
      (apply_coinbase_reward state (bh_miner (b_header blk)) (b_number blk));
    computed_root ← map_err (λ _, StateRootConstructionFailed)
      (compute_state_root (es_balances state) (es_nonces state));
    if negb (bool_decide (computed_root = bh_state_root (b_header blk)))
    then Err (StateRootMismatch (block_hash blk) (bh_state_root (b_header blk)) computed_root)
    else Ok state
  else Ok state.

Fixpoint replay_blocks (state : TxExecutionState) (bs : list Block)
    : result SideStateReconstructionError TxExecutionState :=
  match bs with
  | [] => Ok state
  | blk :: bs => state ← replay_block state blk; replay_blocks state bs
  end.

Definition reconstruct_canonical_state_at_height (g : ChainState) (height : Z)
    : result SideStateReconstructionError TxExecutionState :=
  replay_blocks empty_exec (take (Z.to_nat (wadd64 height 1)) (blocks g)).

Fixpoint branch_loop (state : TxExecutionState) (expected_parent : string) (branch : list Block)
    : result SideStateReconstructionError TxExecutionState :=
  match branch with
  | [] => Ok state
  | blk :: branch =>
      if negb (bool_decide (b_parent blk = expected_parent))
      then Err (BrokenAncestry expected_parent (b_parent blk))
      else
        state ← replay_block state blk;
        branch_loop state (block_hash blk) branch
  end.
Definition reconstruct_branch_state (ancestor_hash : string) (ancestor_state : TxExecutionState)
    (branch : list Block) : result SideStateReconstructionError TxExecutionState :=
  branch_loop ancestor_state ancestor_hash branch.

(** ** The swap *)

(** Transactions after the coinbase of each block. *)
Definition non_coinbase_txs (bs : list Block) : list Tx := flat_map (λ b, drop 1 (b_txs b)) bs.
Definition winning_ids (new_segment : list Block) : gset string :=
  list_to_set (map canonical_tx_id (non_coinbase_txs new_segment)).
Definition displaced (bs : list Block) (winning : gset string) : list Tx :=
  filter (λ tx, canonical_tx_id tx ∉ winning) (non_coinbase_txs bs).

(** [g.blocks[..=common_height]] panics when the height is not in the chain. *)
Definition slice_to_inclusive (bs : list Block) (h : Z) : run (list Block) :=
  if h <? Z.of_nat (length bs) then Done (take (Z.to_nat (h + 1)) bs) else Panic.

(** The maps the swap computes. *)
Record Swap := mkSwap {
  sw_blocks : list Block;
  sw_canon_index : gmap string Z;
  sw_side_blocks : gmap string Block;
  sw_cumulative_work : gmap string Z;
  sw_seen_blocks : gset string;
  sw_cw : Z
}.
Definition demote (s : Swap) (blk : Block) : Swap :=
  let h := block_hash blk in
  mkSwap (sw_blocks s) (delete h (sw_canon_index s)) (<[h := blk]> (sw_side_blocks s))
    (sw_cumulative_work s) (sw_seen_blocks s) (sw_cw s).
Definition promote (s : Swap) (blk : Block) : Swap :=
  let hash := block_hash blk in
  let cw := wadd128 (sw_cw s) (b_difficulty blk) in
  mkSwap (sw_blocks s ++ [blk]) (<[hash := b_number blk]> (sw_canon_index s))
    (delete hash (sw_side_blocks s)) (<[hash := cw]> (sw_cumulative_work s))
    ({[ hash ]} ∪ sw_seen_blocks s) cw.

Definition swap_maps (g : ChainState) (common_hash : string) (new_blocks : list Block)
    (demoted new_segment : list Block) : Swap :=
  let s := mkSwap new_blocks (canon_index g) (side_blocks g) (cumulative_work g) (seen_blocks g) 0 in
  let s := fold_left demote demoted s in
  let cw := default (chain_work new_blocks) (sw_cumulative_work s !! common_hash) in
  fold_left promote new_segment
    (mkSwap (sw_blocks s) (sw_canon_index s) (sw_side_blocks s) (sw_cumulative_work s)
       (sw_seen_blocks s) cw).

(** The assignments to [g] after a successful write. *)
Definition install (s : Swap) (replay_state : TxExecutionState) (root : Z * string)
    (g : ChainState) : ChainState :=
  set_cached_state_root (Some root)
    (set_accounts (es_balances replay_state) (es_nonces replay_state)
      (set_seen_blocks (sw_seen_blocks s)
        (set_work (sw_cumulative_work s)
          (set_side_blocks (sw_side_blocks s)
            (set_canon_index (sw_canon_index s)
              (set_blocks (sw_blocks s) g)))))).

(** Validation of a branch: the state after it, when the ancestor, the branch
    and the tip's root all replay. *)
Definition validate_branch (g : ChainState) (common_hash : string) (common_height : Z)
    (new_segment : list Block) (new_tip : Block) : option (TxExecutionState * string) :=
  ancestor_state ← res_ok (reconstruct_canonical_state_at_height g common_height);
  replay_state ← res_ok (reconstruct_branch_state common_hash ancestor_state new_segment);
  computed_state_root ←
    res_ok (compute_state_root (es_balances replay_state) (es_nonces replay_state));
  if negb (bool_decide (computed_state_root = bh_state_root (b_header new_tip))) then None
  else Some (replay_state, computed_state_root).

Definition try_reorg (g : ChainState) (new_tip : Block) : run (ChainState * option ReorgRecovery) :=
  new_segment ← collect_new_segment g (block_hash new_tip);
  match new_segment with
  | [] => Done (g, None)
  | first :: _ =>
      let common_hash := b_parent first in
      match canon_index g !! common_hash with
      | None => Done (g, None)
      | Some common_height =>
          match validate_branch g common_hash common_height new_segment new_tip with
          | None => Done (g, None)
          | Some (replay_state, computed_state_root) =>
              let winning_tx_ids := winning_ids new_segment in
              let demoted := drop (Z.to_nat common_height + 1) (blocks g) in
              let displaced_txs := displaced demoted winning_tx_ids in
              new_blocks ← slice_to_inclusive (blocks g) common_height;
              let s := swap_maps g common_hash new_blocks demoted new_segment in
              let old_tip_height := current_height g in
              match persist_canonical_reorg (sw_blocks s) old_tip_height g with
              | (g, Err _) => Done (g, None)
              | (g, Ok _) =>
                  Done (install s replay_state (b_number new_tip, computed_state_root) g,
                        Some (mkRecovery displaced_txs (bts_iter winning_tx_ids)))
              end
          end
      end
  end.

(** The diagnostic lookup of a block's work. *)
Fixpoint work_scan (sum : Z) (bs : list Block) (hash : string) : Z :=
  match bs with
  | [] => 0
  | b :: bs =>
      let sum := wadd128 sum (b_difficulty b) in
      if bool_decide (block_hash b = hash) then sum else work_scan sum bs hash
  end.
Definition cumulative_work_of (g : ChainState) (block_hash : string) : Z :=
  match cumulative_work g !! block_hash with
  | Some cw => cw
  | None => work_scan 0 (blocks g) block_hash
  end.

End reorg.

(** ** Linked segments and replay *)

(** [bs] hangs off the hash [p]: each block names the previous one. *)
Fixpoint linked (p : string) (bs : list Block) : Prop :=
  match bs with
  | [] => True
  | b :: bs => b_parent b = p ∧ linked (block_hash b) bs
  end.
Definition end_hash (p : string) (bs : list Block) : string := default p (block_hash <$> last bs).

Lemma end_hash_cons p b bs : end_hash p (b :: bs) = end_hash (block_hash b) bs.
Proof.
  unfold end_hash. rewrite last_cons. by destruct (last bs).
Qed.


Section replay_theory.
Context `{C : Crypto} `{TC : TxCodec}.

(** Replaying a chain in two parts. *)
Lemma replay_blocks_app st l1 l2 st' :
  replay_blocks st (l1 ++ l2) = Ok st' ↔
  ∃ st1, replay_blocks st l1 = Ok st1 ∧ replay_blocks st1 l2 = Ok st'.
Proof.
  revert st. induction l1 as [|b l1 IH]; intros st; simpl; [naive_solver|].
  destruct (replay_block st b) as [s|e]; cbn [mbind result_bind]; [apply IH|].
  split; [done|by intros (? & ? & _)].
Qed.
Lemma branch_loop_replay st p seg :
  linked p seg → branch_loop st p seg = replay_blocks st seg.
Proof.
  revert st p. induction seg as [|b seg IH]; intros st p Hl; [done|]. destruct Hl as [Hp Hl].
  cbn [branch_loop replay_blocks]. rewrite bool_decide_true by done. cbn [negb].
  destruct (replay_block st b); cbn [mbind result_bind]; [by apply IH|done].
Qed.

(** Replaying a chain ends with the root its last block claims. *)
Lemma replay_block_root st b st' : replay_block st b = Ok st' → b_number b ≠ 0 →
  compute_state_root (es_balances st') (es_nonces st') = Ok (bh_state_root (b_header b)).
Proof.
  intros E Hn. unfold replay_block in E. apply bind_Ok in E as (st1 & _ & E).
  rewrite (proj2 (Z.eqb_neq _ _) Hn) in E. cbn [negb] in E.
  apply bind_Ok in E as (st2 & _ & E). apply bind_Ok in E as (rt & Hr & E).
  apply map_err_Ok in Hr. case_bool_decide; cbn [negb] in E; [|done]. injection E as <-. by subst rt.
Qed.
Lemma replay_last st l b st' : replay_blocks st (l ++ [b]) = Ok st' → b_number b ≠ 0 →
  compute_state_root (es_balances st') (es_nonces st') = Ok (bh_state_root (b_header b)).
Proof.
  intros (s1 & _ & E)%replay_blocks_app Hn. cbn [replay_blocks] in E.
  apply bind_Ok in E as (s2 & E & E2). injection E2 as <-. by eapply replay_block_root.
Qed.

End replay_theory.
