(* ===== verification/Orphan.v ===== *)
(** * The orphan pool ([src/chain/orphan.rs])

    Blocks whose parent is unknown, keyed by the parent they wait for, in
    arrival order, with a bound on their number.  [process_orphans] calls back
    into block acceptance, so it takes the acceptance function as an
    argument; [Accept] ties the knot. *)
From S2P Require Import Prelude Crypto Constants Transaction Block Sled ChainState.

Section orphan.
Context `{SL : Sled}.

(** [g.orphan_pool.values().map(|v| v.len()).sum()]. *)
Definition pool_total (pool : gmap string (list OrphanEntry)) : Z :=
  sumZ (λ kv, Z.of_nat (length kv.2)) (bt_iter pool).

(** The scan for the oldest entry: parent key, position and arrival second. *)
Definition oldest_step (key : string) (oldest : option (string * nat * Z)) (pe : nat * OrphanEntry)
    : option (string * nat * Z) :=
  let '(pos, (_, ts, _)) := pe in
  match oldest with
  | None => Some (key, pos, ts)
  | Some (_, _, old_ts) => if ts <? old_ts then Some (key, pos, ts) else oldest
  end.
Definition enumerate {A} (l : list A) : list (nat * A) := imap pair l.
Definition find_oldest (pool : gmap string (list OrphanEntry)) : option (string * nat * Z) :=
  fold_left (λ oldest kv, fold_left (oldest_step kv.1) (enumerate kv.2) oldest) (bt_iter pool) None.

Definition prune_old_orphans (g : ChainState) : ChainState :=
  if pool_total (orphan_pool g) <? ORPHAN_POOL_MAX then g
  else
    match find_oldest (orphan_pool g) with
    | None => g
    | Some (key, pos, _) =>
        match orphan_pool g !! key with
        | None => g
        | Some entries =>
            match entries !! pos with
            | None => g
            | Some (evicted, _, _) =>
                let entries := delete pos entries in
                let by_hash := delete (block_hash evicted) (orphan_by_hash g) in
                match entries with
                | [] => set_orphans (delete key (orphan_pool g)) by_hash g
                | _ => set_orphans (<[key := entries]> (orphan_pool g)) by_hash g
                end
            end
        end
    end.

(** [now] is the wall clock read by [now_secs]. *)
Definition add_orphan (g : ChainState) (block : Block) (source_peer : string) (now : Z)
    : ChainState :=
  let parent := b_parent block in
  let hash := block_hash block in
  let g := prune_old_orphans g in
  set_orphans
    (<[parent := default [] (orphan_pool g !! parent) ++ [(block, now, source_peer)]]> (orphan_pool g))
    (<[hash := parent]> (orphan_by_hash g)) g.

End orphan.

(** ** Counting the pool *)
Abbreviation pool := (gmap string (list OrphanEntry)).

Lemma pool_total_list (m : pool) : pool_total m = sumZ (λ kv, Z.of_nat (length kv.2)) (map_to_list m).
Proof. apply sumZ_perm, bt_iter_perm. Qed.
Lemma pool_total_insert (m : pool) k es :
  pool_total (<[k := es]> m) =
  pool_total m - Z.of_nat (length (default [] (m !! k))) + Z.of_nat (length es).
Proof.
  rewrite !pool_total_list. destruct (m !! k) as [old|] eqn:E; simpl.
  - rewrite <- (insert_delete_id m k old E) at 2. rewrite <- insert_delete_eq.
    rewrite !(sumZ_perm _ _ _ (map_to_list_insert _ _ _ (lookup_delete_eq _ _))). simpl. lia.
  - rewrite (sumZ_perm _ _ _ (map_to_list_insert _ _ _ E)). simpl. lia.
Qed.
Lemma pool_total_delete (m : pool) k es : m !! k = Some es →
  pool_total (delete k m) = pool_total m - Z.of_nat (length es).
Proof.
  intros E. rewrite !pool_total_list. rewrite <- (insert_delete_id m k es E) at 2.
  rewrite (sumZ_perm _ _ _ (map_to_list_insert _ _ _ (lookup_delete_eq _ _))). simpl. lia.
Qed.
Lemma pool_total_nonneg (m : pool) : 0 ≤ pool_total m.
Proof. apply sumZ_nonneg. intros. lia. Qed.
Lemma pool_total_elem (m : pool) k es : m !! k = Some es → Z.of_nat (length es) ≤ pool_total m.
Proof. intros E. pose proof (pool_total_delete m k es E). pose proof (pool_total_nonneg (delete k m)). lia. Qed.

(** ** The oldest entry *)

(** [o] is the first smallest of the triples [l], by arrival second. *)
Definition smallest (l : list (string * nat * Z)) (o : option (string * nat * Z)) : Prop :=
  match o with
  | None => l = []
  | Some x => x ∈ l ∧ ∀ y, y ∈ l → x.2 ≤ y.2
  end.
Definition triples (kv : string * list OrphanEntry) : list (string * nat * Z) :=
  imap (λ pos e, (kv.1, pos, e.1.2)) kv.2.

Lemma oldest_step_smallest l o key pos b ts peer :
  smallest l o → smallest (l ++ [(key, pos, ts)]) (oldest_step key o (pos, (b, ts, peer))).
Proof.
  intros Ho. unfold oldest_step. destruct o as [[[k p] t]|]; simpl in *.
  - destruct Ho as [Hin Hmin]. destruct (Z.ltb_spec ts t); simpl; split.
    + apply elem_of_app. right. by left.
    + intros y [Hy| ->%list_elem_of_singleton]%elem_of_app; [|done]. specialize (Hmin _ Hy). simpl in *. lia.
    + apply elem_of_app. by left.
    + intros y [Hy| ->%list_elem_of_singleton]%elem_of_app; [by apply Hmin|]. simpl. lia.
  - subst. split; [by left|]. by intros y ->%list_elem_of_singleton.
Qed.

Lemma find_oldest_inner key es l o n :
  smallest l o →
  smallest (l ++ imap (λ pos e, (key, (n + pos)%nat, e.1.2)) es)
    (fold_left (oldest_step key) (imap (λ pos e, ((n + pos)%nat, e)) es) o).
Proof.
  revert l o n. induction es as [|[[b ts] peer] es IH]; intros l o n Ho.
  { simpl. by rewrite app_nil_r. }
  pose proof (IH _ _ (S n) (oldest_step_smallest l o key n b ts peer Ho)) as H.
  rewrite !imap_cons. cbn [fold_left]. rewrite cons_middle, app_assoc, Nat.add_0_r.
  rewrite (imap_ext ((λ pos (e : OrphanEntry), ((n + pos)%nat, e)) ∘ S)
    (λ pos e, ((S n + pos)%nat, e))) by (intros; simpl; f_equal; lia).
  rewrite (imap_ext ((λ pos (e : OrphanEntry), (key, (n + pos)%nat, e.1.2)) ∘ S)
    (λ pos e, (key, (S n + pos)%nat, e.1.2))) by (intros; simpl; do 2 f_equal; lia).
  exact H.
Qed.

Lemma find_oldest_outer kvs l o :
  smallest l o →
  smallest (l ++ flat_map triples kvs)
    (fold_left (λ oldest kv, fold_left (oldest_step kv.1) (enumerate kv.2) oldest) kvs o).
Proof.
  revert l o. induction kvs as [|[k es] kvs IH]; intros l o Ho; cbn [flat_map fold_left].
  { by rewrite app_nil_r. }
  rewrite app_assoc. apply IH. exact (find_oldest_inner k es l o 0 Ho).
Qed.

Lemma elem_of_triples (m : pool) k pos ts :
  (k, pos, ts) ∈ flat_map triples (bt_iter m) ↔
  ∃ es b peer, m !! k = Some es ∧ es !! pos = Some (b, ts, peer).
Proof.
  rewrite list_elem_of_In, in_flat_map. split.
  - intros ([k' es] & Hin & Ht). apply list_elem_of_In, elem_of_bt_iter in Hin.
    apply list_elem_of_In, elem_of_lookup_imap in Ht as (i & [[b t] peer] & E & Hi).
    simpl in E. simplify_eq. eauto.
  - intros (es & b & peer & Hk & Hp). exists (k, es).
    split; [by apply list_elem_of_In, elem_of_bt_iter|].
    apply list_elem_of_In, elem_of_lookup_imap. exists pos, (b, ts, peer). done.
Qed.

(** The scan finds an entry of the pool with the smallest arrival second, and
    finds one whenever the pool is not empty. *)
Lemma find_oldest_spec (m : pool) :
  match find_oldest m with
  | None => pool_total m = 0
  | Some (k, pos, ts) =>
      (∃ es b peer, m !! k = Some es ∧ es !! pos = Some (b, ts, peer)) ∧
      ∀ k' es' b' ts' peer', m !! k' = Some es' → (b', ts', peer') ∈ es' → ts ≤ ts'
  end.
Proof.
  pose proof (find_oldest_outer (bt_iter m) [] None eq_refl) as Hs. cbn [app] in Hs.
  unfold find_oldest. destruct (fold_left _ (bt_iter m) None) as [[[k pos] ts]|].
  - destruct Hs as [Hin Hmin]. split; [by apply elem_of_triples|].
    intros k' es' b' ts' peer' Hk [i Hi]%list_elem_of_lookup.
    apply (Hmin (k', i, ts')). apply elem_of_triples. eauto.
  - simpl in Hs. rewrite pool_total_list, <- (sumZ_perm _ _ _ (bt_iter_perm m)).
    induction (bt_iter m) as [|[k es] l IH]; [done|]. simpl in Hs.
    apply app_eq_nil in Hs as [H1 H2]. simpl. rewrite (IH H2).
    destruct es; [done|]. done.
Qed.

Section orphan_theory.
Context `{SL : Sled}.

(** An entry of the pool waits for its own parent, under its parent's key. *)
Definition entry_of (m : pool) (k : string) (e : OrphanEntry) : Prop :=
  ∃ es, m !! k = Some es ∧ e ∈ es.

(** Below capacity pruning does nothing; at capacity it removes exactly one
    entry, one that arrived no later than any other. *)
Lemma prune_spec g :
  let g' := prune_old_orphans g in
  g' = set_orphans (orphan_pool g') (orphan_by_hash g') g ∧
  (pool_total (orphan_pool g) < ORPHAN_POOL_MAX ∧ orphan_pool g' = orphan_pool g ∨
   ORPHAN_POOL_MAX ≤ pool_total (orphan_pool g) ∧
   pool_total (orphan_pool g') = pool_total (orphan_pool g) - 1 ∧
   ∃ k pos es b ts peer,
     orphan_pool g !! k = Some es ∧ es !! pos = Some (b, ts, peer) ∧
     (∀ k' b' ts' peer', entry_of (orphan_pool g) k' (b', ts', peer') → ts ≤ ts') ∧
     orphan_pool g' = (if decide (delete pos es = []) then delete k (orphan_pool g)
                       else <[k := delete pos es]> (orphan_pool g))).
Proof.
  cbv zeta. unfold prune_old_orphans. destruct (Z.ltb_spec (pool_total (orphan_pool g)) ORPHAN_POOL_MAX).
  { split; [by destruct g|]. by left. }
  pose proof (find_oldest_spec (orphan_pool g)) as Hf.
  destruct (find_oldest (orphan_pool g)) as [[[k pos] ts]|].
  2:{ unfold ORPHAN_POOL_MAX in *. lia. }
  destruct Hf as [(es & b & peer & Hk & Hp) Hmin]. rewrite Hk, Hp.
  pose proof (lookup_lt_Some _ _ _ Hp) as Hlt.
  pose proof (length_delete es pos (ex_intro _ _ Hp)) as Hd.
  assert (∀ P : ChainState → Prop,
    P (set_orphans (if decide (delete pos es = []) then delete k (orphan_pool g)
                    else <[k := delete pos es]> (orphan_pool g))
         (delete (block_hash b) (orphan_by_hash g)) g) →
    P (match delete pos es with
       | [] => set_orphans (delete k (orphan_pool g)) (delete (block_hash b) (orphan_by_hash g)) g
       | _ => set_orphans (<[k := delete pos es]> (orphan_pool g))
                (delete (block_hash b) (orphan_by_hash g)) g
       end)) as Hgen.
  { intros P HP. by destruct (delete pos es). }
  apply Hgen. split; [done|]. right. split; [done|]. cbn [set_orphans orphan_pool].
  split.
  - case_decide as He.
    + rewrite (pool_total_delete _ _ _ Hk). rewrite He in Hd. simpl in Hd. unfold OrphanEntry in *. lia.
    + rewrite pool_total_insert, Hk. simpl. unfold OrphanEntry in *. lia.
  - exists k, pos, es, b, ts, peer. split_and!; [done..| |done].
    intros k' b' ts' peer' (es' & Hk' & Hin). eauto.
Qed.

Lemma add_orphan_state g b peer now :
  add_orphan g b peer now =
  set_orphans (orphan_pool (add_orphan g b peer now)) (orphan_by_hash (add_orphan g b peer now)) g.
Proof. unfold add_orphan. destruct (prune_spec g) as [-> _]. done. Qed.

Lemma prune_entries g k e :
  entry_of (orphan_pool (prune_old_orphans g)) k e → entry_of (orphan_pool g) k e.
Proof.
  destruct (prune_spec g) as (_ & [(_ & ->)|(_ & _ & k0 & pos & es & b & ts & peer & Hk & Hp & _ & ->)]);
    [done|].
  intros (es' & Hk' & Hin). case_decide as Hd.
  - apply lookup_delete_Some in Hk' as [_ Hk']. by exists es'.
  - apply lookup_insert_Some in Hk' as [[<- <-]|[_ Hk']]; [|by exists es'].
    exists es. split; [done|]. rewrite delete_take_drop in Hin.
    apply elem_of_app in Hin as [Hin|Hin]; apply list_elem_of_lookup in Hin as [i Hi].
    + apply lookup_take_Some in Hi as [Hi _]. by eapply list_elem_of_lookup_2.
    + rewrite lookup_drop in Hi. by eapply list_elem_of_lookup_2.
Qed.

(** The entries of the pool after an addition: the new one and old ones. *)
Lemma add_orphan_entries g b peer now k e :
  entry_of (orphan_pool (add_orphan g b peer now)) k e →
  (k = b_parent b ∧ e = (b, now, peer)) ∨ entry_of (orphan_pool g) k e.
Proof.
  unfold add_orphan. cbn [set_orphans orphan_pool]. intros (es & Hk & Hin).
  apply lookup_insert_Some in Hk as [[<- <-]|[_ Hk]].
  - apply elem_of_app in Hin as [Hin|Hin%list_elem_of_singleton]; [|by left].
    right. apply prune_entries. destruct (orphan_pool (prune_old_orphans g) !! b_parent b) as [es|] eqn:E;
      [|by apply elem_of_nil in Hin]. by exists es.
  - right. apply prune_entries. by exists es.
Qed.

Lemma add_orphan_total g b peer now :
  pool_total (orphan_pool (add_orphan g b peer now)) =
  pool_total (orphan_pool (prune_old_orphans g)) + 1.
Proof.
  unfold add_orphan. cbn [set_orphans orphan_pool]. rewrite pool_total_insert, length_app.
  simpl. unfold OrphanEntry in *; lia.
Qed.

Lemma orphan_pool_le g b peer now :
  pool_total (orphan_pool g) ≤ ORPHAN_POOL_MAX →
  pool_total (orphan_pool (add_orphan g b peer now)) ≤ ORPHAN_POOL_MAX.
Proof.
  intros Hle. rewrite add_orphan_total.
  destruct (prune_spec g) as (_ & [(? & ->)|(? & -> & _)]); lia.
Qed.
End orphan_theory.

(** ** Properties *)

(** C21: The orphan pool is bounded and evicts fairly: adding an orphan never
    takes the pool above [ORPHAN_POOL_MAX], always stores the new one last
    under its parent, keeps everything else while there is room, and in a full
    pool gives up exactly one entry, which arrived no later than any other. *)
Theorem orphan_pool_bounded `{SL : Sled} g b peer now :
  pool_total (orphan_pool g) ≤ ORPHAN_POOL_MAX →
  let g' := add_orphan g b peer now in
  pool_total (orphan_pool g') ≤ ORPHAN_POOL_MAX ∧
  (∃ es, orphan_pool g' !! b_parent b = Some (es ++ [(b, now, peer)])) ∧
  (pool_total (orphan_pool g) < ORPHAN_POOL_MAX →
     ∀ k, orphan_pool g' !! k = if decide (k = b_parent b)
       then Some (default [] (orphan_pool g !! k) ++ [(b, now, peer)]) else orphan_pool g !! k) ∧
  (pool_total (orphan_pool g) = ORPHAN_POOL_MAX →
     pool_total (orphan_pool g') = ORPHAN_POOL_MAX ∧
     ∃ k pos es bo ts po, orphan_pool g !! k = Some es ∧ es !! pos = Some (bo, ts, po) ∧
       (∀ k' b' ts' p', entry_of (orphan_pool g) k' (b', ts', p') → ts ≤ ts') ∧
       orphan_pool (prune_old_orphans g) =
         (if decide (delete pos es = []) then delete k (orphan_pool g)
          else <[k := delete pos es]> (orphan_pool g))).
Proof.
  intros Hle. cbv zeta. pose proof (add_orphan_total g b peer now) as Ht.
  destruct (prune_spec g) as (_ & Hp). split_and!.
  - by apply orphan_pool_le.
  - unfold add_orphan. cbn [set_orphans orphan_pool]. rewrite lookup_insert_eq. eauto.
  - intros Hlt k. destruct Hp as [(? & E)|(? & _)]; [|lia].
    unfold add_orphan. cbn [set_orphans orphan_pool]. rewrite E. case_decide as Hk.
    + subst k. by rewrite lookup_insert_eq.
    + by rewrite lookup_insert_ne.
  - intros Heq. destruct Hp as [(? & E)|(? & E & k & pos & es & bo & ts & po & ? & ? & ? & ?)]; [lia|].
    split; [lia|]. exists k, pos, es, bo, ts, po. auto.
Qed.

Lemma orphan_pool_bounded_witness :
  let b := mkBlock (toy_header 5 30 1 0) [] 0 in
  pool_total (orphan_pool (add_orphan (empty_state toy_db) b "anon" 7)) ≤ ORPHAN_POOL_MAX.
Proof.
  intros b. destruct (orphan_pool_bounded (empty_state toy_db) b "anon" 7) as [H _];
    [vm_compute; discriminate|exact H].
Defined.
