(* ===== verification/Zeros.v ===== *)
(** * Accounts up to zero entries

    A balance or nonce of zero means the same as none: execution reads both as
    zero and the state root leaves both out.  Account states that differ in
    zero entries only are equivalent, and the replay of blocks respects the
    equivalence.  A snapshot drops zero entries, so a node restored from one
    holds its accounts up to this equivalence only. *)
From S2P Require Import Prelude Crypto Constants Block StateRoot Sled ChainState Storage Reward Reorg Transaction.

(** Equal errors, or related values. *)
Definition result_rel {E A B} (R : A → B → Prop) (x : result E A) (y : result E B) : Prop :=
  match x, y with
  | Ok a, Ok b => R a b
  | Err e, Err e' => e = e'
  | _, _ => False
  end.
Lemma result_rel_bind {E A B A' B'} (R : A → B → Prop) (R' : A' → B' → Prop) (x : result E A) y f g :
  result_rel R x y → (∀ a b, R a b → result_rel R' (f a) (g b)) → result_rel R' (x ≫= f) (y ≫= g).
Proof. destruct x, y; simpl; intros H Hf; first [by apply Hf|done|by rewrite H]. Qed.
Lemma result_rel_map_err {E F A B} (R : A → B → Prop) (h : E → F) (x : result E A) y :
  result_rel R x y → result_rel R (map_err h x) (map_err h y).
Proof. destruct x, y; simpl; intros H; first [done|by rewrite H]. Qed.
Lemma result_rel_eq {E A B B'} (R : B → B' → Prop) (x : result E A) f g :
  (∀ a, x = Ok a → result_rel R (f a) (g a)) → result_rel R (x ≫= f) (x ≫= g).
Proof. intros H. destruct x as [a|e]; simpl; [by apply H|done]. Qed.

(** ** Equality up to zero entries *)

(** The accounts a chain state holds. *)
Definition accounts {SL : Sled} (g : ChainState) : TxExecutionState := mkExec (balances g) (nonces g).

(** The maps agree where entries count. *)
#[export] Instance exec_equiv : Equiv TxExecutionState := λ st st',
  (∀ a, balance_of st a = balance_of st' a) ∧ (∀ a, nonce_of st a = nonce_of st' a).
#[export] Instance exec_equivalence : Equivalence (≡@{TxExecutionState}).
Proof.
  split; [done| |].
  - intros st st' [H1 H2]. by split.
  - intros st1 st2 st3 [H1 H2] [H3 H4]. split; intros a; [by rewrite H1|by rewrite H2].
Qed.
#[export] Instance balance_of_proper : Proper ((≡) ==> (=) ==> (=)) balance_of.
Proof. by intros st st' [H _] a ? <-. Qed.
#[export] Instance nonce_of_proper : Proper ((≡) ==> (=) ==> (=)) nonce_of.
Proof. by intros st st' [_ H] a ? <-. Qed.

Lemma nonzero_default (m m' : gmap string Z) :
  (∀ a, default 0 (m !! a) = default 0 (m' !! a)) ↔ nonzero m = nonzero m'.
Proof.
  assert (∀ (m : gmap string Z) a v, nonzero m !! a = Some v ↔ default 0 (m !! a) = v ∧ v ≠ 0) as H.
  { intros m0 a v. rewrite nonzero_lookup. destruct (m0 !! a); simpl; naive_solver. }
  split.
  - intros E. apply map_eq. intros a. apply option_eq. intros v. by rewrite !H, E.
  - intros E a. destruct (decide (default 0 (m !! a) = 0)) as [Hz|Hz].
    + destruct (decide (default 0 (m' !! a) = 0)) as [Hz'|Hz']; [by rewrite Hz, Hz'|].
      assert (nonzero m' !! a = Some (default 0 (m' !! a))) as H' by (by apply H).
      rewrite <- E in H'. by apply H in H' as [-> _].
    + assert (nonzero m !! a = Some (default 0 (m !! a))) as H' by (by apply H).
      rewrite E in H'. apply H in H' as [-> _]. done.
Qed.
(** The equivalence, by the parts that the state root commits to. *)
Lemma exec_equiv_nonzero st st' :
  st ≡ st' ↔ nonzero (es_balances st) = nonzero (es_balances st') ∧ nonzero (es_nonces st) = nonzero (es_nonces st').
Proof. rewrite <- !nonzero_default. done. Qed.
Lemma nonzero_idemp m : nonzero (nonzero m) = nonzero m.
Proof.
  apply nonzero_default. intros a. destruct (nonzero m !! a) as [v|] eqn:Ea; simpl.
  - by apply nonzero_lookup in Ea as [-> _].
  - destruct (m !! a) as [v|] eqn:Em; [|done]. simpl. destruct (decide (v = 0)) as [->|Hv]; [done|].
    assert (nonzero m !! a = Some v) by (by apply nonzero_lookup). congruence.
Qed.

(** ** Execution respects it *)
Section execution.
Context {C : Crypto} {TC : TxCodec}.

Lemma exec_insert_balance st st' a v :
  st ≡ st' → mkExec (<[a := v]> (es_balances st)) (es_nonces st) ≡ mkExec (<[a := v]> (es_balances st')) (es_nonces st').
Proof.
  intros [Hb Hn]. split; [|done]. intros x. unfold balance_of. cbn [es_balances].
  destruct (decide (x = a)) as [->|Hx]; [by rewrite !lookup_insert_eq|].
  rewrite !lookup_insert_ne by done. apply Hb.
Qed.
Lemma exec_insert_nonce st st' a v :
  st ≡ st' → mkExec (es_balances st) (<[a := v]> (es_nonces st)) ≡ mkExec (es_balances st') (<[a := v]> (es_nonces st')).
Proof.
  intros [Hb Hn]. split; [done|]. intros x. unfold nonce_of. cbn [es_nonces].
  destruct (decide (x = a)) as [->|Hx]; [by rewrite !lookup_insert_eq|].
  rewrite !lookup_insert_ne by done. apply Hn.
Qed.

#[export] Instance compute_state_root_proper :
  Proper ((≡) ==> (=)) (λ st, compute_state_root (es_balances st) (es_nonces st)).
Proof.
  intros st st' [Hb Hn]%exec_equiv_nonzero.
  unfold compute_state_root, canonical_state_vector, append_balances, append_nonces.
  by rewrite !nonzero_entries_spec, Hb, Hn.
Qed.

Lemma simulate_equiv st st' tx : st ≡ st' →
  result_rel (prod_relation (≡) eq) (simulate_tx_execution st tx) (simulate_tx_execution st' tx).
Proof.
  intros H. unfold simulate_tx_execution. cbv zeta. destruct (_ || _); [done|].
  apply result_rel_eq. intros _ _. rewrite <- !(nonce_of_proper _ _ H _ _ eq_refl).
  destruct (negb _); [done|].
  apply result_rel_eq. intros args _. apply result_rel_eq. intros fee _.
  destruct (_ <? _); [done|]. apply result_rel_eq. intros cost _.
  rewrite <- !(balance_of_proper _ _ H _ _ eq_refl). destruct (_ <? _); [done|].
  apply result_rel_eq. intros new _. apply result_rel_eq. intros next _.
  split; [|done]. cbn [fst].
  apply (exec_insert_nonce (mkExec _ _) (mkExec _ _)), (exec_insert_balance (mkExec _ _) (mkExec _ _)), exec_insert_balance, H.
Qed.
Lemma reward_equiv st st' miner h : st ≡ st' →
  result_rel (≡) (apply_coinbase_reward st miner h) (apply_coinbase_reward st' miner h).
Proof.
  intros H. unfold apply_coinbase_reward. cbv zeta. destruct (_ || _); [done|].
  change (default 0 (es_balances st !! miner)) with (balance_of st miner).
  change (default 0 (es_balances st' !! miner)) with (balance_of st' miner).
  rewrite <- (balance_of_proper _ _ H _ _ eq_refl).
  apply result_rel_eq. intros sum _. by apply exec_insert_balance.
Qed.
Lemma execute_txs_equiv txs : ∀ st st', st ≡ st' →
  result_rel (≡) (execute_txs st txs) (execute_txs st' txs).
Proof.
  induction txs as [|tx txs IH]; intros st st' H; [done|]. cbn [execute_txs].
  eapply result_rel_bind; [by apply simulate_equiv|]. intros [s1 o1] [s2 o2] [Hs _]. by apply IH.
Qed.
Lemma replay_block_equiv blk st st' : st ≡ st' →
  result_rel (≡) (replay_block st blk) (replay_block st' blk).
Proof.
  intros H. unfold replay_block.
  eapply result_rel_bind; [by apply result_rel_map_err, execute_txs_equiv|]. intros s1 s2 H1.
  destruct (negb (b_number blk =? 0)); [|done].
  eapply result_rel_bind; [by apply result_rel_map_err, reward_equiv|]. intros s3 s4 H3.
  rewrite (compute_state_root_proper _ _ H3). apply result_rel_eq. intros root _. by destruct (negb _).
Qed.
(** A block that replays from some accounts replays from equivalent ones. *)
Lemma replay_equiv_Ok blk st st' s' : st ≡ st' → replay_block st' blk = Ok s' →
  ∃ s, replay_block st blk = Ok s ∧ s ≡ s'.
Proof.
  intros H E. pose proof (replay_block_equiv blk _ _ H) as Hr. rewrite E in Hr.
  destruct (replay_block st blk) as [s|]; [|done]. by exists s.
Qed.
End execution.
