(* ===== verification/Consistency.v ===== *)
(** * Consistency of the chain state

    The invariant the chain modules maintain.  It is stated relative to a
    numbering [N] of hashes: every block that reaches the node carries the
    height [N] gives its hash and names a parent one below it.  (The code
    checks a block's timestamp and difficulty against its parent but never its
    height, so this is an assumption on the blocks, not a consequence.) *)
From S2P Require Import Prelude Crypto Constants Transaction Block StateRoot Sled ChainState Storage Reward Reorg Zeros.

Section consistency.
Context `{C : Crypto} `{TC : TxCodec} `{SL : Sled} {SLL : SledLaws SL} `{SC : StoreCodec}.
Context (N : string → Z) (root : string).

(** A block that respects the numbering, at its machine widths, with a
    canonical claimed hash. *)
Record block_ok (b : Block) : Prop := {
  bo_number : N (block_hash b) = b_number b;
  bo_parent : b_number b ≠ 0 → N (b_parent b) = b_number b - 1;
  bo_range : 0 ≤ b_number b < U64_MAX;
  bo_root : b_number b = 0 → block_hash b = root;
  bo_load : loadable b
}.

Definition known (g : ChainState) (h : string) : Prop :=
  is_Some (canon_index g !! h) ∨ is_Some (side_blocks g !! h).
(** The blocks the state holds. *)
Definition holds (g : ChainState) (b : Block) : Prop :=
  b ∈ blocks g ∨ side_blocks g !! block_hash b = Some b.

(** The ancestors of a block, genesis first, up to the block itself. *)
Definition ancestry (g : ChainState) (bs : list Block) (b : Block) : Prop :=
  canonical root bs ∧ Forall (holds g) bs ∧ last bs = Some b.

Record chain_ok (g : ChainState) : Prop := {
  co_canon : canonical root (blocks g);
  co_index : index_ok (canon_index g) (blocks g);
  co_blocks : Forall block_ok (blocks g);
  co_side h b : side_blocks g !! h = Some b →
    block_hash b = h ∧ block_ok b ∧ 0 < b_number b ∧ canon_index g !! h = None ∧
    known g (b_parent b);
  co_seen h : known g h → h ≠ root → h ∈ seen_blocks g;
  co_work : is_Some (cumulative_work g !! root) → ∀ b, holds g b → b_number b ≠ 0 →
    cumulative_work g !! block_hash b =
    Some (wadd128 (default 0 (cumulative_work g !! b_parent b)) (b_difficulty b));
  co_accounts : ∃ st, replay_blocks empty_exec (blocks g) = Ok st ∧ st ≡ mkExec (balances g) (nonces g);
  co_replay b : holds g b →
    ∃ bs st, ancestry g bs b ∧ replay_blocks empty_exec bs = Ok st;
  co_db : mirrors (db_contents (db g)) (blocks g)
}.

(** ** Canonical chains of numbered blocks *)
Lemma canonical_extend bs t b :
  canonical root bs → Forall block_ok bs → last bs = Some t → block_ok b →
  b_parent b = block_hash t → b_number b ≠ 0 →
  canonical root (bs ++ [b]).
Proof.
  intros Hc Hf Hl Hb Hp Hn.
  assert (block_ok t) as Ht.
  { rewrite last_lookup in Hl. by eapply Forall_lookup_1. }
  pose proof (canonical_last _ _ _ Hc Hl) as Htn.
  pose proof (bo_parent _ Hb Hn) as HN. rewrite Hp, (bo_number _ Ht) in HN.
  apply canonical_app; [done|lia|by rewrite Hl|].
  intros (x & Hx & Hin)%list_elem_of_fmap. pose proof Hin as [i Hi]%list_elem_of_lookup.
  pose proof (Forall_lookup_1 _ _ _ _ Hf Hi) as Hxo.
  pose proof (bo_number _ Hb) as E1. rewrite Hx, (bo_number _ Hxo) in E1.
  rewrite (cn_number _ _ Hc _ _ Hi) in E1. apply lookup_lt_Some in Hi. lia.
Qed.

Lemma canonical_linked bs t seg :
  canonical root bs → Forall block_ok bs → last bs = Some t → Forall block_ok seg →
  Forall (λ b, b_number b ≠ 0) seg → linked (block_hash t) seg →
  canonical root (bs ++ seg).
Proof.
  intros Hc Hf Hl Hs. revert bs t Hc Hf Hl.
  induction Hs as [|b seg Hb _ IH]; intros bs t Hc Hf Hl Hnz Hk; [by rewrite app_nil_r|].
  destruct Hk as [Hp Hk]. inversion Hnz; subst. rewrite cons_middle, app_assoc.
  apply (IH _ b); [|by apply Forall_app_2; [|apply Forall_singleton]|by rewrite last_snoc|done..].
  by eapply canonical_extend.
Qed.

(** The blocks a state holds respect the numbering. *)
Lemma holds_ok g b : chain_ok g → holds g b → block_ok b.
Proof.
  intros Hg [Hb|Hb]; [|by apply (co_side _ Hg) in Hb as (_ & ? & _)].
  eapply Forall_forall; [apply (co_blocks _ Hg)|done].
Qed.

Lemma index_block g h k : chain_ok g → canon_index g !! h = Some k →
  0 ≤ k ∧ ∃ b, blocks g !! Z.to_nat k = Some b ∧ block_hash b = h ∧ b_number b = k.
Proof.
  intros Hg Hk. apply (co_index _ Hg) in Hk as [Hk (b & Hb & Hh)].
  split; [done|]. exists b. split_and!; [done..|]. rewrite (cn_number _ _ (co_canon _ Hg) _ _ Hb). lia.
Qed.
Lemma index_of_block g b : chain_ok g → b ∈ blocks g → canon_index g !! block_hash b = Some (b_number b).
Proof.
  intros Hg [i Hi]%list_elem_of_lookup. apply (co_index _ Hg).
  rewrite (cn_number _ _ (co_canon _ Hg) _ _ Hi), Nat2Z.id. split; [lia|eauto].
Qed.
Lemma holds_known g b : chain_ok g → holds g b → known g (block_hash b).
Proof.
  intros Hg [Hb|Hb]; [left; rewrite (index_of_block g b Hg Hb); eauto|right; eauto].
Qed.
(** The parent of a block held is known. *)
Lemma parent_known g b : chain_ok g → holds g b → b_number b ≠ 0 → known g (b_parent b).
Proof.
  intros Hg [Hb|Hb] Hn; [|by destruct (co_side _ Hg _ _ Hb) as (_ & _ & _ & _ & ?)].
  apply list_elem_of_lookup in Hb as [i Hi]. pose proof (cn_number _ _ (co_canon _ Hg) _ _ Hi).
  destruct i as [|i]; [lia|]. destruct (lookup_lt_is_Some_2 (blocks g) i) as [y Hy]; [apply lookup_lt_Some in Hi; lia|].
  rewrite (cn_link _ _ (co_canon _ Hg) _ _ _ Hy Hi). eapply holds_known; [done|left; by eapply list_elem_of_lookup_2].
Qed.
Lemma ancestry_mono g g' bs b : (∀ x, holds g x → holds g' x) → ancestry g bs b → ancestry g' bs b.
Proof. intros H (H1 & H2 & H3). split_and!; [done| |done]. by eapply Forall_impl. Qed.

(** One more block: the work map stays a work map, and branches replay. *)
Lemma work_added g blk cw b : chain_ok g → ¬ known g (block_hash blk) →
  is_Some (cumulative_work g !! root) → holds g b → b_number b ≠ 0 →
  let w := <[block_hash blk := cw]> (cumulative_work g) in
  w !! block_hash b = Some (wadd128 (default 0 (w !! b_parent b)) (b_difficulty b)).
Proof.
  intros Hg Hnew Hw Hb Hn w. unfold w.
  rewrite !lookup_insert_ne; [by apply (co_work _ Hg Hw)| |]; intros E; apply Hnew; rewrite E;
    [by apply parent_known|by apply holds_known].
Qed.
Lemma replay_added g g' blk bs st : chain_ok g → (∀ x, holds g' x ↔ holds g x ∨ x = blk) →
  ancestry g' (bs ++ [blk]) blk → replay_blocks empty_exec (bs ++ [blk]) = Ok st →
  ∀ b, holds g' b → ∃ l st, ancestry g' l b ∧ replay_blocks empty_exec l = Ok st.
Proof.
  intros Hg Hh Ha Hr b [Hb| ->]%Hh; [|eauto].
  destruct (co_replay _ Hg b Hb) as (l & st' & Hl & Hl'). exists l, st'. split; [|done].
  eapply ancestry_mono; [|exact Hl]. intros x Hx. apply Hh. by left.
Qed.
Lemma known_holds g h : chain_ok g → known g h → ∃ b, holds g b ∧ block_hash b = h.
Proof.
  intros Hg [[k Hk]|[b Hb]].
  - destruct (index_block g h k Hg Hk) as (_ & b & Hb & Hh & _). exists b.
    split; [left; by eapply list_elem_of_lookup_2|done].
  - exists b. destruct (co_side _ Hg _ _ Hb) as [Hh _]. split; [right; by rewrite Hh|done].
Qed.

(** A hash names at most one held block, so a block has one ancestry. *)
Lemma holds_inj g x y : chain_ok g → holds g x → holds g y → block_hash x = block_hash y → x = y.
Proof.
  intros Hg Hx Hy E.
  assert (∀ a b, a ∈ blocks g → side_blocks g !! block_hash b = Some b →
    block_hash a = block_hash b → False) as Hdisj.
  { intros a b Ha Hb Eab. apply (co_side _ Hg) in Hb as (_ & _ & _ & Hn & _).
    rewrite <- Eab, (index_of_block g a Hg Ha) in Hn. done. }
  destruct Hx as [Hx|Hx], Hy as [Hy|Hy].
  - apply list_elem_of_lookup in Hx as [i Hi], Hy as [j Hj].
    assert (i = j) as -> by (eapply canonical_hash_inj; [apply (co_canon _ Hg)|..]; eauto).
    by simplify_eq.
  - destruct (Hdisj _ _ Hx Hy E).
  - destruct (Hdisj _ _ Hy Hx (eq_sym E)).
  - rewrite E, Hy in Hx. by simplify_eq.
Qed.

Lemma ancestry_inj g bs bs' b : chain_ok g → ancestry g bs b → ancestry g bs' b → bs = bs'.
Proof.
  intros Hg (Hc & Hf & Hl) (Hc' & Hf' & Hl').
  pose proof (canonical_last _ _ _ Hc Hl) as Hn. pose proof (canonical_last _ _ _ Hc' Hl') as Hn'.
  assert (length bs = length bs') as Hlen by lia.
  rewrite last_lookup in Hl, Hl'.
  assert (∀ j i, (j < length bs)%nat → i = (length bs - 1 - j)%nat → bs !! i = bs' !! i) as Hall.
  { induction j as [|j IH]; intros i Hj ->.
    - replace (length bs - 1 - 0)%nat with (pred (length bs)) by lia. rewrite Hl.
      rewrite Hlen. by rewrite Hl'.
    - specialize (IH (length bs - 1 - j)%nat ltac:(lia) eq_refl).
      destruct (lookup_lt_is_Some_2 bs (length bs - 1 - S j)) as [x Hx]; [lia|].
      destruct (lookup_lt_is_Some_2 bs' (length bs - 1 - S j)) as [y Hy]; [lia|].
      destruct (lookup_lt_is_Some_2 bs (length bs - 1 - j)) as [z Hz]; [lia|].
      pose proof Hz as Hz'. rewrite IH in Hz'.
      replace (length bs - 1 - j)%nat with (S (length bs - 1 - S j)) in Hz, Hz' by lia.
      pose proof (cn_link _ _ Hc _ _ _ Hx Hz) as E1. pose proof (cn_link _ _ Hc' _ _ _ Hy Hz') as E2.
      rewrite Hx, Hy. f_equal. apply (holds_inj g); [done| | |congruence].
      + exact (Forall_lookup_1 _ _ _ _ Hf Hx).
      + exact (Forall_lookup_1 _ _ _ _ Hf' Hy). }
  apply list_eq_same_length with (length bs); [done|done|].
  intros i x y Hi Hx Hy. rewrite (Hall (length bs - 1 - i)%nat i) in Hx by lia. by simplify_eq.
Qed.

(** The canonical prefix up to a canonical block is its ancestry. *)
Lemma ancestry_canonical g i b : chain_ok g → blocks g !! i = Some b →
  ancestry g (take (S i) (blocks g)) b.
Proof.
  intros Hg Hi. split_and!.
  - apply canonical_take, (co_canon _ Hg).
  - apply Forall_take, Forall_forall. intros x Hx. by left.
  - rewrite (take_S_r _ _ _ Hi). apply last_snoc.
Qed.

(** Extending the ancestry of a parent. *)
Lemma ancestry_extend g bs p b : chain_ok g → ancestry g bs p → block_ok b →
  b_parent b = block_hash p → b_number b ≠ 0 → canonical root (bs ++ [b]).
Proof.
  intros Hg (Hc & Hf & Hl) Hb Hp Hn. eapply canonical_extend; eauto.
  eapply Forall_impl; [exact Hf|]. intros x. by apply holds_ok.
Qed.

(** ** The ancestry walk *)

(** Side blocks at or below a height. *)
Definition below (n : Z) (m : gmap string Block) : gmap string Block :=
  filter (λ kb, b_number kb.2 ≤ n) m.

Lemma below_smaller m h b n :
  m !! h = Some b → b_number b = n → (size (below (n - 1) m) < size (below n m))%nat.
Proof.
  intros Hb Hn. apply map_subset_size. split.
  - apply map_subseteq_spec. intros k x. unfold below. rewrite !map_lookup_filter_Some. simpl.
    intros [? ?]. split; [done|lia].
  - intros Hs. rewrite map_subseteq_spec in Hs.
    assert (below n m !! h = Some b) as Hin by (apply map_lookup_filter_Some; simpl; auto with lia).
    apply Hs, map_lookup_filter_Some in Hin as [_ Hin]. simpl in Hin. lia.
Qed.

Lemma segment_loop_spec g fuel current acc tip :
  chain_ok g → known g current → (size (below (N current) (side_blocks g)) < fuel)%nat →
  linked current (rev acc) → Forall (λ b, side_blocks g !! block_hash b = Some b) acc →
  end_hash current (rev acc) = tip →
  ∃ c seg, segment_loop fuel g current acc = Done seg ∧ is_Some (canon_index g !! c) ∧
    linked c seg ∧ Forall (λ b, side_blocks g !! block_hash b = Some b) seg ∧ end_hash c seg = tip.
Proof.
  intros Hg. revert current acc. induction fuel as [|fuel IH]; intros current acc Hk Hf Hl Ha He; [lia|].
  cbn [segment_loop]. case_bool_decide as Hc.
  - exists current, (rev acc). split_and!; try done. by apply Forall_rev.
  - destruct Hk as [?|[b Hb]]; [done|]. rewrite Hb.
    destruct (co_side _ Hg _ _ Hb) as (Hh & Hbo & Hpos & _ & Hkp).
    assert (Hrev : rev (acc ++ [b]) = b :: rev acc) by (by rewrite rev_app_distr).
    apply IH.
    + done.
    + pose proof (below_smaller _ _ _ (N current) Hb) as Hlt.
      rewrite (bo_parent _ Hbo) by lia. rewrite <- (bo_number _ Hbo), Hh.
      rewrite <- Hh, (bo_number _ Hbo) in Hlt at 1. specialize (Hlt eq_refl). lia.
    + rewrite Hrev. split; [done|]. by rewrite Hh.
    + apply Forall_app_2; [done|]. apply Forall_singleton. by rewrite Hh.
    + rewrite Hrev, end_hash_cons, Hh. done.
Qed.

Lemma below_size n m : (size (below n m) ≤ size m)%nat.
Proof. apply map_subseteq_size, map_filter_subseteq. Qed.

Lemma collect_new_segment_spec g tip :
  chain_ok g → known g tip →
  ∃ c seg, collect_new_segment g tip = Done seg ∧ is_Some (canon_index g !! c) ∧
    linked c seg ∧ Forall (λ b, side_blocks g !! block_hash b = Some b) seg ∧ end_hash c seg = tip.
Proof.
  intros Hg Hk. apply segment_loop_spec; try done.
  unfold ancestry_fuel. pose proof (below_size (N tip) (side_blocks g)). lia.
Qed.

(** ** The maps of the swap *)
Lemma demote_fold l s :
  let s' := fold_left demote l s in
  sw_blocks s' = sw_blocks s ∧ sw_cumulative_work s' = sw_cumulative_work s ∧
  sw_seen_blocks s' = sw_seen_blocks s ∧
  (∀ h, sw_canon_index s' !! h =
     if decide (h ∈ block_hash <$> l) then None else sw_canon_index s !! h) ∧
  (∀ h, h ∉ block_hash <$> l → sw_side_blocks s' !! h = sw_side_blocks s !! h) ∧
  (NoDup (block_hash <$> l) → ∀ b, b ∈ l → sw_side_blocks s' !! block_hash b = Some b).
Proof.
  revert s. induction l as [|b l IH]; intros s; cbn [fold_left].
  { split_and!; try done. intros _ b ?%elem_of_nil. done. }
  destruct (IH (demote s b)) as (-> & -> & -> & Hc & Hs & Hb). cbn [demote sw_blocks
    sw_cumulative_work sw_seen_blocks sw_canon_index sw_side_blocks] in *.
  split_and!; try done.
  - intros h. rewrite Hc, fmap_cons. destruct (decide (h = block_hash b)) as [->|Hne].
    + rewrite lookup_delete_eq. rewrite (decide_True (P := _ ∈ _ :: _)) by left.
      by destruct (decide _).
    + rewrite lookup_delete_ne by done.
      destruct (decide (h ∈ block_hash <$> l)), (decide (h ∈ block_hash b :: _)) as [Hin|Hin];
        try done; rewrite elem_of_cons in Hin; naive_solver.
  - intros h. rewrite fmap_cons, elem_of_cons. intros Hn.
    rewrite Hs by tauto. rewrite lookup_insert_ne by (intros E; subst h; tauto). done.
  - rewrite fmap_cons. intros [Hn Hnd]%NoDup_cons x [->|Hx]%elem_of_cons; [|by apply Hb].
    rewrite Hs by done. by rewrite lookup_insert_eq.
Qed.

Lemma promote_fold l s :
  let s' := fold_left promote l s in
  sw_blocks s' = sw_blocks s ++ l ∧
  (∀ h, sw_seen_blocks s ⊆ sw_seen_blocks s' ∧
        (h ∈ block_hash <$> l → h ∈ sw_seen_blocks s')) ∧
  (∀ h, sw_side_blocks s' !! h =
     if decide (h ∈ block_hash <$> l) then None else sw_side_blocks s !! h) ∧
  (∀ h, h ∉ block_hash <$> l → sw_cumulative_work s' !! h = sw_cumulative_work s !! h) ∧
  (∀ h, h ∉ block_hash <$> l → sw_canon_index s' !! h = sw_canon_index s !! h).
Proof.
  revert s. induction l as [|b l IH]; intros s; cbn [fold_left].
  { rewrite app_nil_r. split_and!; try done. intros h. split; [done|by intros ?%elem_of_nil]. }
  destruct (IH (promote s b)) as (-> & Hse & Hs & Hw & Hc). cbn [promote sw_blocks
    sw_cumulative_work sw_seen_blocks sw_canon_index sw_side_blocks] in *.
  split_and!.
  - by rewrite <- app_assoc.
  - intros h. destruct (Hse h) as [Hsub Hin]. split; [set_solver|].
    rewrite fmap_cons. intros [->|?]%elem_of_cons; [set_solver|auto].
  - intros h. rewrite Hs, fmap_cons. destruct (decide (h = block_hash b)) as [->|Hne].
    + rewrite lookup_delete_eq. rewrite (decide_True (P := _ ∈ _ :: _)) by left.
      by destruct (decide _).
    + rewrite lookup_delete_ne by done.
      destruct (decide (h ∈ block_hash <$> l)), (decide (h ∈ block_hash b :: _)) as [Hin|Hin];
        try done; rewrite elem_of_cons in Hin; naive_solver.
  - intros h. rewrite fmap_cons, elem_of_cons. intros Hn.
    rewrite Hw by tauto. by rewrite lookup_insert_ne by (intros E; subst h; tauto).
  - intros h. rewrite fmap_cons, elem_of_cons. intros Hn.
    rewrite Hc by tauto. by rewrite lookup_insert_ne by (intros E; subst h; tauto).
Qed.

Lemma promote_fold_seen l s h :
  h ∈ sw_seen_blocks (fold_left promote l s) → h ∈ sw_seen_blocks s ∨ h ∈ block_hash <$> l.
Proof.
  revert s. induction l as [|b l IH]; intros s; cbn [fold_left]; [by left|].
  intros [H|H]%IH; cbn [promote sw_seen_blocks] in H; rewrite fmap_cons, elem_of_cons; set_solver.
Qed.

(** Promoting a canonical extension keeps the index right. *)
Lemma promote_fold_index l s :
  canonical root (sw_blocks s ++ l) → index_ok (sw_canon_index s) (sw_blocks s) →
  index_ok (sw_canon_index (fold_left promote l s)) (sw_blocks s ++ l).
Proof.
  revert s. induction l as [|b l IH]; intros s Hc Hi; cbn [fold_left]; [by rewrite app_nil_r|].
  rewrite cons_middle, app_assoc in Hc |- *.
  apply (IH (promote s b)); [done|]. cbn [promote sw_canon_index sw_blocks].
  eapply index_ok_snoc; [|done].
  pose proof (canonical_take root _ (length (sw_blocks s ++ [b])) Hc) as Ht.
  by rewrite take_app_length in Ht.
Qed.

(** Promoting recorded side blocks rewrites the work they already had. *)
Lemma promote_fold_work l s p :
  linked p l → sw_cw s = default 0 (sw_cumulative_work s !! p) →
  (∀ b, b ∈ l → sw_cumulative_work s !! block_hash b =
     Some (wadd128 (default 0 (sw_cumulative_work s !! b_parent b)) (b_difficulty b))) →
  sw_cumulative_work (fold_left promote l s) = sw_cumulative_work s.
Proof.
  revert s p. induction l as [|b l IH]; intros s p Hl Hcw Hw; [done|]. destruct Hl as [Hp Hl].
  cbn [fold_left]. pose proof (Hw b ltac:(left)) as Hb. rewrite Hp, <- Hcw in Hb.
  assert (sw_cumulative_work (promote s b) = sw_cumulative_work s) as E.
  { cbn [promote sw_cumulative_work]. by apply insert_id. }
  rewrite (IH (promote s b) (block_hash b)); [done|done|..].
  - rewrite E, Hb. done.
  - intros x Hx. rewrite E. apply Hw. by right.
Qed.

(** Truncating a chain and dropping its hashes keeps the index right. *)
Lemma index_ok_truncate m m' bs n :
  canonical root bs → index_ok m bs →
  (∀ h, m' !! h = if decide (h ∈ block_hash <$> drop n bs) then None else m !! h) →
  index_ok m' (take n bs).
Proof.
  intros Hc Hm Hm' h k. rewrite Hm'. case_decide as Hd.
  - split; [done|]. intros (Hk & b & [Hb Hlt]%lookup_take_Some & Hh).
    apply list_elem_of_fmap in Hd as (x & -> & [j Hj]%list_elem_of_lookup).
    rewrite lookup_drop in Hj. pose proof (canonical_hash_inj _ _ _ _ _ _ Hc Hb Hj Hh). lia.
  - rewrite (Hm h k). split.
    + intros (Hk & b & Hb & Hh). split; [done|]. exists b. split; [|done].
      apply lookup_take_Some. split; [done|].
      destruct (decide (Z.to_nat k < n)%nat); [done|]. destruct Hd.
      apply list_elem_of_fmap. exists b. split; [done|].
      apply list_elem_of_lookup. exists (Z.to_nat k - n)%nat. rewrite lookup_drop.
      replace (n + (Z.to_nat k - n))%nat with (Z.to_nat k) by lia. done.
    + intros (Hk & b & [Hb _]%lookup_take_Some & Hh). eauto.
Qed.

(** ** Reorganisation onto a recorded branch *)
Section swap.
Context (g : ChainState) (c : string) (k : Z) (seg : list Block).
Context (Hg : chain_ok g) (Hk : canon_index g !! c = Some k) (Hlk : linked c seg).
Context (Hside : Forall (λ b, side_blocks g !! block_hash b = Some b) seg).
Let kept := take (Z.to_nat (k + 1)) (blocks g).
Let gone := drop (Z.to_nat k + 1) (blocks g).
Let s := swap_maps g c kept gone seg.

Lemma swap_k : 0 ≤ k ∧ Z.to_nat (k + 1) = (Z.to_nat k + 1)%nat.
Proof. destruct (index_block _ _ _ Hg Hk) as [? _]. split; [done|lia]. Qed.

Lemma swap_split : blocks g = kept ++ gone.
Proof. unfold kept, gone. rewrite (proj2 swap_k). by rewrite take_drop. Qed.

Lemma swap_last : ∃ cb, last kept = Some cb ∧ block_hash cb = c.
Proof.
  destruct (index_block _ _ _ Hg Hk) as (_ & cb & Hcb & Hh & _). exists cb. split; [|done].
  unfold kept. rewrite (proj2 swap_k), Nat.add_1_r, (take_S_r _ _ _ Hcb). apply last_snoc.
Qed.

Lemma swap_seg_ok : Forall block_ok seg ∧ Forall (λ b, b_number b ≠ 0) seg.
Proof.
  split; eapply Forall_impl; try exact Hside; intros b Hb;
    apply (co_side _ Hg) in Hb as (_ & ? & ? & _); [done|lia].
Qed.

Lemma swap_seg_not_canon h : h ∈ block_hash <$> seg → canon_index g !! h = None ∧ is_Some (side_blocks g !! h).
Proof.
  intros (b & -> & Hb)%list_elem_of_fmap. rewrite Forall_forall in Hside. specialize (Hside _ Hb).
  split; [|eauto]. by apply (co_side _ Hg) in Hside as (_ & _ & _ & ? & _).
Qed.

Lemma swap_kept_ok : canonical root kept ∧ Forall block_ok kept.
Proof.
  split; [apply canonical_take, (co_canon _ Hg)|]. apply Forall_take, (co_blocks _ Hg).
Qed.

Lemma swap_canonical : canonical root (kept ++ seg) ∧ Forall block_ok (kept ++ seg).
Proof.
  destruct swap_last as (cb & Hl & Hc), swap_seg_ok as [H1 H2], swap_kept_ok as [H3 H4].
  split; [|by apply Forall_app_2]. eapply canonical_linked; eauto. by rewrite Hc.
Qed.

Lemma gone_nodup : NoDup (block_hash <$> gone).
Proof.
  pose proof (cn_nodup _ _ (co_canon _ Hg)) as Hnd. rewrite swap_split, fmap_app in Hnd.
  by apply NoDup_app in Hnd as (_ & _ & ?).
Qed.

(** The demotion step, as [swap_maps] starts it. *)
Let s1 := fold_left demote gone
  (mkSwap kept (canon_index g) (side_blocks g) (cumulative_work g) (seen_blocks g) 0).
Let s2 := mkSwap (sw_blocks s1) (sw_canon_index s1) (sw_side_blocks s1) (sw_cumulative_work s1)
  (sw_seen_blocks s1) (default (chain_work kept) (sw_cumulative_work s1 !! c)).

Lemma swap_unfold : s = fold_left promote seg s2.
Proof. reflexivity. Qed.

Lemma swap_s1 :
  sw_blocks s2 = kept ∧ sw_cumulative_work s2 = cumulative_work g ∧
  sw_seen_blocks s2 = seen_blocks g ∧
  (∀ h, sw_canon_index s2 !! h =
     if decide (h ∈ block_hash <$> gone) then None else canon_index g !! h) ∧
  (∀ h, h ∉ block_hash <$> gone → sw_side_blocks s2 !! h = side_blocks g !! h) ∧
  (∀ b, b ∈ gone → sw_side_blocks s2 !! block_hash b = Some b).
Proof.
  destruct (demote_fold gone
    (mkSwap kept (canon_index g) (side_blocks g) (cumulative_work g) (seen_blocks g) 0))
    as (H1 & H2 & H3 & H4 & H5 & H6).
  split_and!; try done. intros b Hb. by apply H6, Hb; apply gone_nodup.
Qed.

Lemma swap_blocks : sw_blocks s = kept ++ seg.
Proof.
  rewrite swap_unfold. destruct (promote_fold seg s2) as (-> & _).
  by destruct swap_s1 as (-> & _).
Qed.

Lemma swap_index : index_ok (sw_canon_index s) (sw_blocks s).
Proof.
  rewrite swap_blocks, swap_unfold. destruct swap_s1 as (E & _ & _ & Hc & _).
  rewrite <- E. apply promote_fold_index; rewrite E; [apply swap_canonical|].
  unfold kept. rewrite (proj2 swap_k).
  eapply index_ok_truncate; [apply (co_canon _ Hg)|apply (co_index _ Hg)|exact Hc].
Qed.

Lemma swap_side h :
  sw_side_blocks s !! h =
  if decide (h ∈ block_hash <$> seg) then None else sw_side_blocks s2 !! h.
Proof. rewrite swap_unfold. by destruct (promote_fold seg s2) as (_ & _ & -> & _). Qed.

Lemma swap_canon_other h : h ∉ block_hash <$> seg →
  sw_canon_index s !! h = if decide (h ∈ block_hash <$> gone) then None else canon_index g !! h.
Proof.
  intros Hn. rewrite swap_unfold. destruct (promote_fold seg s2) as (_ & _ & _ & _ & Hc).
  rewrite (Hc _ Hn). destruct swap_s1 as (_ & _ & _ & Hc1 & _). apply Hc1.
Qed.

Lemma swap_canon_seg h : h ∈ block_hash <$> seg → is_Some (sw_canon_index s !! h).
Proof.
  intros (b & -> & Hb)%list_elem_of_fmap.
  assert (b ∈ sw_blocks s) as [i Hi]%list_elem_of_lookup
    by (rewrite swap_blocks; apply elem_of_app; by right).
  exists (Z.of_nat i). apply swap_index. rewrite Nat2Z.id. split; [lia|eauto].
Qed.

Lemma gone_canon h : h ∈ block_hash <$> gone → is_Some (canon_index g !! h).
Proof.
  intros (b & -> & Hb)%list_elem_of_fmap. rewrite (index_of_block g b Hg); [eauto|].
  rewrite swap_split. apply elem_of_app. by right.
Qed.

(** The swap forgets no block and invents none. *)
Lemma swap_known h :
  is_Some (sw_canon_index s !! h) ∨ is_Some (sw_side_blocks s !! h) ↔ known g h.
Proof.
  unfold known. destruct (decide (h ∈ block_hash <$> seg)) as [Hin|Hn].
  - split; [intros _; right; by apply swap_seg_not_canon|intros _; left; by apply swap_canon_seg].
  - rewrite swap_side, decide_False by done. rewrite swap_canon_other by done.
    destruct swap_s1 as (_ & _ & _ & _ & Hs & Hb).
    destruct (decide (h ∈ block_hash <$> gone)) as [Hd|Hd].
    + pose proof (gone_canon _ Hd) as Hc. apply list_elem_of_fmap in Hd as (b & -> & Hbg).
      rewrite (Hb _ Hbg). split; [by left|right; eauto].
    + by rewrite Hs.
Qed.

Lemma swap_holds b :
  b ∈ sw_blocks s ∨ sw_side_blocks s !! block_hash b = Some b → holds g b.
Proof.
  rewrite swap_blocks, elem_of_app, swap_side. destruct swap_s1 as (_ & _ & _ & _ & Hs & Hb).
  intros [[Hin|Hin]|Hd].
  - left. rewrite swap_split. apply elem_of_app. by left.
  - right. rewrite Forall_forall in Hside. auto.
  - case_decide as H1; [done|]. destruct (decide (block_hash b ∈ block_hash <$> gone)) as [H2|H2].
    + apply list_elem_of_fmap in H2 as (x & E & Hx). rewrite E, (Hb x Hx) in Hd. simplify_eq.
      left. rewrite swap_split. apply elem_of_app. by right.
    + rewrite (Hs _ H2) in Hd. by right.
Qed.

Lemma swap_holds_inv b :
  holds g b → b ∈ sw_blocks s ∨ sw_side_blocks s !! block_hash b = Some b.
Proof.
  rewrite swap_blocks, elem_of_app, swap_side. destruct swap_s1 as (_ & _ & _ & _ & Hs & Hb).
  intros Hh. destruct (decide (block_hash b ∈ block_hash <$> seg)) as [Hin|Hin].
  - left. right. apply list_elem_of_fmap in Hin as (x & E & Hx).
    assert (holds g x) as Hhx by (right; rewrite Forall_forall in Hside; auto).
    by rewrite (holds_inj g b x Hg Hh Hhx E).
  - destruct (decide (block_hash b ∈ block_hash <$> gone)) as [H2|H2].
    + apply list_elem_of_fmap in H2 as (x & E & Hx).
      assert (holds g x) as Hhx by (left; rewrite swap_split; apply elem_of_app; by right).
      rewrite (holds_inj g b x Hg Hh Hhx E). right. by apply Hb.
    + destruct Hh as [Hh|Hh]; [|right; by rewrite Hs].
      left. left. rewrite swap_split in Hh. apply elem_of_app in Hh as [?|Hg']; [done|].
      destruct H2. apply list_elem_of_fmap. eauto.
Qed.

Lemma swap_side_ok h b : sw_side_blocks s !! h = Some b →
  block_hash b = h ∧ block_ok b ∧ 0 < b_number b ∧ sw_canon_index s !! h = None ∧
  (is_Some (sw_canon_index s !! b_parent b) ∨ is_Some (sw_side_blocks s !! b_parent b)).
Proof.
  rewrite swap_side. case_decide as Hns; [done|]. intros Hb.
  rewrite swap_known, swap_canon_other by done.
  destruct swap_s1 as (_ & _ & _ & _ & Hs & Hd).
  destruct (decide (h ∈ block_hash <$> gone)) as [Hin|Hin].
  - apply list_elem_of_fmap in Hin as (x & -> & Hx). rewrite (Hd _ Hx) in Hb. injection Hb as <-.
    pose proof Hx as [i Hi]%list_elem_of_lookup. unfold gone in Hi. rewrite lookup_drop in Hi.
    pose proof (cn_number _ _ (co_canon _ Hg) _ _ Hi) as Hn.
    assert (holds g x) as Hhx by (left; by eapply list_elem_of_lookup_2).
    split_and!; [done|by eapply holds_ok|lia|done|].
    destruct (Z.to_nat k + 1 + i)%nat as [|j] eqn:Ej; [lia|].
    destruct (lookup_lt_is_Some_2 (blocks g) j) as [y Hy]; [apply lookup_lt_Some in Hi; lia|].
    rewrite (cn_link _ _ (co_canon _ Hg) _ _ _ Hy Hi).
    apply holds_known; [done|left; by eapply list_elem_of_lookup_2].
  - rewrite (Hs _ Hin) in Hb. destruct (co_side _ Hg _ _ Hb) as (? & ? & ? & ? & ?). auto.
Qed.

Lemma swap_work : is_Some (cumulative_work g !! root) → sw_cumulative_work s = cumulative_work g.
Proof.
  intros Hr. rewrite swap_unfold. destruct swap_s1 as (_ & E & _).
  rewrite (promote_fold_work seg s2 c).
  - exact E.
  - done.
  - unfold s2. cbn [sw_cw sw_cumulative_work]. change (sw_cumulative_work s1) with (sw_cumulative_work s2).
    rewrite E. destruct (index_block _ _ _ Hg Hk) as (_ & cb & Hcb & Hh & _).
    destruct (decide (b_number cb = 0)) as [Hz|Hnz].
    + assert (block_ok cb) as Hcbo by (eapply holds_ok; [done|left; by eapply list_elem_of_lookup_2]).
      rewrite <- Hh, (bo_root _ Hcbo Hz). destruct Hr as [w Hw]. by rewrite Hw.
    + pose proof (co_work _ Hg Hr cb (or_introl (list_elem_of_lookup_2 _ _ _ Hcb)) Hnz) as Hw.
      rewrite Hh in Hw. by rewrite Hw.
  - intros b Hb. rewrite E. apply (co_work _ Hg Hr).
    + right. rewrite Forall_forall in Hside. auto.
    + destruct swap_seg_ok as [_ Hnz]. rewrite Forall_forall in Hnz. auto.
Qed.

(** The swap leaves the work entry of the genesis block, or its absence. *)
Lemma swap_work_root : sw_cumulative_work s !! root = cumulative_work g !! root.
Proof.
  rewrite swap_unfold. destruct (promote_fold seg s2) as (_ & _ & _ & Hw & _).
  destruct swap_s1 as (_ & E & _). rewrite Hw, E; [done|].
  intros Hin. apply swap_seg_not_canon in Hin as [Hn _].
  destruct swap_last as (cb & Hl & _). assert (∃ b0, blocks g !! 0%nat = Some b0) as [b0 Hb0].
  { rewrite swap_split. unfold gone. destruct kept; [done|]. by eexists. }
  pose proof (cn_root _ _ (co_canon _ Hg) _ Hb0) as Hr.
  pose proof (index_of_block g b0 Hg (list_elem_of_lookup_2 _ _ _ Hb0)) as Hi. congruence.
Qed.

Lemma swap_seen h : h ∈ seen_blocks g ∨ h ∈ block_hash <$> seg → h ∈ sw_seen_blocks s.
Proof.
  rewrite swap_unfold. destruct (promote_fold seg s2) as (_ & Hse & _).
  destruct swap_s1 as (_ & _ & E & _). destruct (Hse h) as [Hsub Hin]. rewrite E in Hsub.
  intros [?|?]; [set_solver|auto].
Qed.

Lemma swap_seen_inv h : h ∈ sw_seen_blocks s → h ∈ seen_blocks g ∨ known g h.
Proof.
  rewrite swap_unfold. intros [H|H]%promote_fold_seen.
  - destruct swap_s1 as (_ & _ & E & _). rewrite E in H. by left.
  - right. right. apply swap_seg_not_canon in H. tauto.
Qed.

Lemma swap_chain_ok st rt g' :
  replay_blocks empty_exec (kept ++ seg) = Ok st →
  mirrors (db_contents (db g')) (kept ++ seg) →
  chain_ok (install s st rt g').
Proof.
  intros Hr Hm. destruct swap_canonical as [Hc Hok]. split; cbn [install]; simpl.
  - by rewrite swap_blocks.
  - apply swap_index.
  - by rewrite swap_blocks.
  - intros h b Hb. exact (swap_side_ok h b Hb).
  - intros h Hh Hne. apply swap_known in Hh. apply swap_seen. left. by apply (co_seen _ Hg).
  - intros Hw b Hb Hn. pose proof Hw as Hw'. rewrite swap_work_root in Hw'. rewrite (swap_work Hw').
    apply (co_work _ Hg Hw'); [|done]. by apply swap_holds.
  - rewrite swap_blocks. by exists st.
  - intros b Hb. apply swap_holds in Hb. destruct (co_replay _ Hg b Hb) as (bs & st' & (Ha & Hf & Hl) & Hrp).
    exists bs, st'. split; [|done]. split_and!; [done| |done].
    eapply Forall_impl; [exact Hf|]. intros x Hx. by apply swap_holds_inv.
  - by rewrite swap_blocks.
Qed.
End swap.

Lemma current_height_length g : chain_ok g → blocks g ≠ [] →
  current_height g = Z.of_nat (length (blocks g)) - 1.
Proof.
  intros Hg Hne. unfold current_height. destruct (last (blocks g)) as [t|] eqn:E;
    [|by apply last_None in E]. simpl. by eapply canonical_last, E; apply (co_canon _ Hg).
Qed.

Lemma canonical_length bs : canonical root bs → Forall block_ok bs →
  Z.of_nat (length bs) ≤ U64_MAX.
Proof.
  intros Hc Hf. destruct (last bs) as [t|] eqn:E.
  - pose proof (canonical_last _ _ _ Hc E). rewrite last_lookup in E.
    pose proof (bo_range _ (Forall_lookup_1 _ _ _ _ Hf E)). lia.
  - apply last_None in E as ->. simpl. unfold U64_MAX. lia.
Qed.

(** What [validate_branch] establishes. *)
Lemma validate_branch_Some g c k seg tip st rt :
  chain_ok g → canon_index g !! c = Some k → linked c seg →
  validate_branch g c k seg tip = Some (st, rt) →
  replay_blocks empty_exec (take (Z.to_nat (k + 1)) (blocks g) ++ seg) = Ok st ∧
  compute_state_root (es_balances st) (es_nonces st) = Ok rt ∧
  rt = bh_state_root (b_header tip).
Proof.
  intros Hg Hk Hl Hv. unfold validate_branch in Hv.
  assert (wadd64 k 1 = k + 1) as Hw.
  { destruct (index_block _ _ _ Hg Hk) as (? & b & Hb & _ & Hn).
    pose proof (bo_range _ (Forall_lookup_1 _ _ _ _ (co_blocks _ Hg) Hb)).
    apply wrap64_small. unfold u64. lia. }
  unfold reconstruct_canonical_state_at_height, reconstruct_branch_state in Hv. rewrite Hw in Hv.
  destruct (replay_blocks empty_exec _) as [st1|] eqn:E1; [|done]. cbn [res_ok mbind option_bind] in Hv.
  rewrite (branch_loop_replay _ _ _ Hl) in Hv.
  destruct (replay_blocks st1 seg) as [st2|] eqn:E2; [|done]. cbn [res_ok mbind option_bind] in Hv.
  destruct (compute_state_root _ _) as [r|] eqn:E3; [|done]. cbn [res_ok mbind option_bind] in Hv.
  case_bool_decide as Hr; cbn [negb] in Hv; [|done]. injection Hv as <- <-.
  split_and!; [|done..]. apply replay_blocks_app. eauto.
Qed.

(** On a consistent state the branch of a recorded side block always
    validates. *)
Lemma validate_branch_succeeds g c k seg tip :
  chain_ok g → canon_index g !! c = Some k → linked c seg →
  Forall (λ b, side_blocks g !! block_hash b = Some b) seg → last seg = Some tip →
  is_Some (validate_branch g c k seg tip).
Proof.
  intros Hg Hk Hl Hs Ht.
  destruct (swap_canonical g c k seg Hg Hk Hl Hs) as [Hcan Hok].
  assert (wadd64 k 1 = k + 1) as Hw.
  { destruct (index_block _ _ _ Hg Hk) as (? & b & Hb & _ & Hn).
    pose proof (bo_range _ (Forall_lookup_1 _ _ _ _ (co_blocks _ Hg) Hb)).
    apply wrap64_small. unfold u64. lia. }
  assert (ancestry g (take (Z.to_nat (k + 1)) (blocks g) ++ seg) tip) as Hanc.
  { split_and!; [done| |by rewrite last_app, Ht].
    apply Forall_app_2; [apply Forall_take, Forall_forall; intros x Hx; by left|].
    eapply Forall_impl; [exact Hs|]. intros x Hx. by right. }
  assert (tip ∈ seg) as Hin by (by apply last_Some_elem_of).
  rewrite Forall_forall in Hs. pose proof (Hs _ Hin) as Hst.
  destruct (co_replay _ Hg tip (or_intror Hst)) as (bs & st & Hbs & Hr).
  rewrite (ancestry_inj g bs _ tip Hg Hbs Hanc) in Hr.
  apply (co_side _ Hg) in Hst as (_ & _ & Hpos & _).
  assert (compute_state_root (es_balances st) (es_nonces st) = Ok (bh_state_root (b_header tip))) as Hrt.
  { destruct (last_Some_app _ _ Ht) as [l ->] || (apply last_Some in Ht as [l ->]).
    rewrite app_assoc in Hr. eapply replay_last; [exact Hr|lia]. }
  apply replay_blocks_app in Hr as (st1 & Hr1 & Hr2).
  unfold validate_branch, reconstruct_canonical_state_at_height, reconstruct_branch_state.
  rewrite Hw, Hr1. cbn [res_ok mbind option_bind]. rewrite (branch_loop_replay _ _ _ Hl), Hr2.
  cbn [res_ok mbind option_bind]. rewrite Hrt. cbn [res_ok mbind option_bind].
  rewrite bool_decide_true by done. eauto.
Qed.

(** A state that only differs in zero entries of the accounts, or in a database
    with the same mirrors content. *)
Lemma chain_ok_accounts g b n : chain_ok g → mkExec b n ≡ mkExec (balances g) (nonces g) →
  chain_ok (set_accounts b n g).
Proof.
  intros [C1 C2 C3 C4 C5 C6 (st & Hr & Hst) C8 C9] He. split; try done. exists st. split; [done|].
  by rewrite Hst, <- He.
Qed.
Lemma chain_ok_set_db g d : chain_ok g → mirrors (db_contents d) (blocks g) → chain_ok (set_db d g).
Proof. intros [? ? ? ? ? ? ? ? ?] ?. by split. Qed.

Lemma persist_reorg_cases g new g' r :
  chain_ok g → blocks g ≠ [] → canonical root new → Forall block_ok new →
  new ≠ [] → persist_canonical_reorg new (current_height g) g = (g', r) →
  g' = set_db (db g') g ∧
  mirrors (db_contents (db g')) (match r with Ok _ => new | Err _ => blocks g end) ∧
  (is_ok r = false → ∃ ops, snd (db_apply_batch (db g) ops) = false).
Proof.
  intros Hg Hne Hc Hf Hnn E. rewrite (current_height_length g Hg Hne) in E.
  unfold persist_canonical_reorg in E. rewrite stm_lift_bind in E.
  destruct (last new) as [tip|] eqn:Hl; cbn [ok_or] in E; [|by apply last_None in Hl].
  pose proof (canonical_last _ _ _ Hc Hl). pose proof (canonical_length _ Hc Hf).
  destruct r as [[]|e].
  - apply db_batch_Ok in E as [Ec ->]. split_and!; [done| |done]. simpl. rewrite Ec.
    eapply reorg_mirrors; [apply (co_db _ Hg)|done..|lia|lia].
  - pose proof E as E'. apply db_batch_Err in E as [Ec ->]. split_and!; [done| |].
    + simpl. rewrite Ec. apply (co_db _ Hg).
    + intros _. unfold db_batch in E'. eexists.
      destruct (db_apply_batch (db g) (reorg_ops _ _ _)) as [d []] eqn:Eb; [done|].
      by rewrite Eb.
Qed.

(** What a successful reorganisation does to the chain. *)
Record reorganised (g g' : ChainState) (tip : Block) (rec : ReorgRecovery) : Prop := {
  ro_chain : ∃ kept gone seg, blocks g = kept ++ gone ∧ blocks g' = kept ++ seg ∧ kept ≠ [] ∧
    last seg = Some tip ∧
    Forall (λ b, side_blocks g !! block_hash b = Some b) seg ∧
    (∀ tx, tx ∈ displaced_txs rec ↔ tx ∈ non_coinbase_txs gone ∧
       (canonical_tx_id tx ∉ map canonical_tx_id (non_coinbase_txs seg))) ∧
    (∀ id, id ∈ winning_tx_ids rec ↔ id ∈ map canonical_tx_id (non_coinbase_txs seg));
  ro_known h : known g' h ↔ known g h;
  ro_root : ∃ rt, cached_state_root g' = Some (b_number tip, rt) ∧
    rt = bh_state_root (b_header tip) ∧ compute_state_root (balances g') (nonces g') = Ok rt;
  ro_pool : orphan_pool g' = orphan_pool g ∧ orphan_by_hash g' = orphan_by_hash g;
  ro_seen : seen_blocks g ⊆ seen_blocks g';
  ro_holds b : holds g' b ↔ holds g b;
  ro_work : is_Some (cumulative_work g !! root) → cumulative_work g' = cumulative_work g;
  ro_work_root : cumulative_work g' !! root = cumulative_work g !! root;
  ro_seen_inv h : h ∈ seen_blocks g' → h ∈ seen_blocks g ∨ known g h
}.

(** What the new state has to do with the old one. *)
Lemma swap_reorganised g g1 c k seg tip st rt :
  chain_ok g → canon_index g !! c = Some k → linked c seg →
  Forall (λ b, side_blocks g !! block_hash b = Some b) seg → last seg = Some tip → g1 = set_db (db g1) g →
  compute_state_root (es_balances st) (es_nonces st) = Ok rt → rt = bh_state_root (b_header tip) →
  let kept := take (Z.to_nat (k + 1)) (blocks g) in
  let gone := drop (Z.to_nat k + 1) (blocks g) in
  reorganised g (install (swap_maps g c kept gone seg) st (b_number tip, rt) g1) tip
    (mkRecovery (displaced gone (winning_ids seg)) (bts_iter (winning_ids seg))).
Proof.
  intros Hg Hk Hl Hs Hlast Hg1 Hrt Htr kept gone. split.
  - exists kept, gone, seg. split_and!.
    + by apply (swap_split g c k).
    + by apply swap_blocks.
    + destruct (swap_last g c k Hg Hk) as (x & Hx & _). fold kept in Hx.
      intros E. by rewrite E in Hx.
    + done.
    + done.
    + intros tx. cbn [displaced_txs]. unfold displaced, winning_ids.
      rewrite list_elem_of_filter, elem_of_list_to_set. tauto.
    + intros id. cbn [winning_tx_ids]. unfold winning_ids.
      by rewrite elem_of_bts_iter, elem_of_list_to_set.
  - intros h. apply (swap_known g c k seg Hg Hk Hl Hs).
  - exists rt. by destruct st.
  - by rewrite Hg1.
  - intros h Hh. eapply swap_seen; try done. by left.
  - intros b. split.
    + apply (swap_holds g c k seg Hg Hk Hs).
    + apply (swap_holds_inv g c k seg Hg Hk Hs).
  - intros Hw. by apply (swap_work g c k seg Hg Hk Hl Hs).
  - apply (swap_work_root g c k seg Hg Hk Hs).
  - intros h. apply (swap_seen_inv g c k seg Hg Hk Hs).
Qed.

Lemma try_reorg_spec g tip :
  chain_ok g → side_blocks g !! block_hash tip = Some tip →
  ∃ g' r, try_reorg g tip = Done (g', r) ∧ chain_ok g' ∧
    match r with
    | None => g' = set_db (db g') g ∧ ∃ ops, snd (db_apply_batch (db g) ops) = false
    | Some rec => reorganised g g' tip rec
    end.
Proof.
  intros Hg Htip. unfold try_reorg.
  destruct (collect_new_segment_spec g (block_hash tip) Hg) as (c & seg & -> & [k Hk] & Hl & Hs & He);
    [right; eauto|]. cbn [mbind run_bind].
  assert (last seg = Some tip) as Hlast.
  { destruct (last seg) as [t|] eqn:Ht.
    - assert (t ∈ seg) as Hin by (by apply last_Some_elem_of).
      rewrite Forall_forall in Hs. pose proof (Hs _ Hin) as Hst.
      unfold end_hash in He. rewrite Ht in He. simpl in He. rewrite He in Hst. by simplify_eq.
    - apply last_None in Ht as ->. unfold end_hash in He. simpl in He.
      apply (co_side _ Hg) in Htip as (_ & _ & _ & Hn & _). congruence. }
  destruct seg as [|first seg]; [done|]. pose proof Hl as [-> _]. rewrite Hk.
  destruct (validate_branch g c k (first :: seg) tip) as [[st rt]|] eqn:Hv.
  2:{ destruct (validate_branch_succeeds g c k _ tip Hg Hk Hl Hs Hlast) as [? Hv']. congruence. }
  destruct (validate_branch_Some _ _ _ _ _ _ _ Hg Hk Hl Hv) as (Hr & Hrt & Htr).
  destruct (index_block _ _ _ Hg Hk) as (Hk0 & cb & Hcb & Hch & _).
  assert (blocks g ≠ []) as Hne by (intros E; by rewrite E in Hcb).
  unfold slice_to_inclusive.
  rewrite (proj2 (Z.ltb_lt _ _)) by (apply lookup_lt_Some in Hcb; lia). cbn [mbind run_bind].
  set (kept := take (Z.to_nat (k + 1)) (blocks g)) in *.
  set (gone := drop (Z.to_nat k + 1) (blocks g)).
  set (s := swap_maps g c kept gone (first :: seg)).
  assert (sw_blocks s = kept ++ first :: seg) as Hsb by (by apply swap_blocks).
  destruct (swap_canonical g c k (first :: seg) Hg Hk Hl Hs) as [Hcan Hok].
  destruct (persist_canonical_reorg (sw_blocks s) (current_height g) g) as [g1 r1] eqn:Hp.
  rewrite Hsb in Hp. destruct (persist_reorg_cases g _ g1 r1 Hg Hne Hcan Hok) as (Hg1 & Hm & Hfail);
    [by intros [_ ?]%app_eq_nil|exact Hp|].
  destruct r1 as [[]|e].
  2:{ exists g1, None. split_and!; [done| |done|by apply Hfail].
      rewrite Hg1. by apply chain_ok_set_db. }
  eexists _, _. split; [reflexivity|]. split; [by apply (swap_chain_ok g c k (first :: seg))|].
  by apply swap_reorganised.
Qed.
End consistency.
