(* ===== verification/Genesis.v ===== *)
(** * The genesis block ([src/genesis/genesis.rs])

    The consensus-locked constants, the checks against them and the genesis
    block.  Whether the locked hashes are the blake3 of what they commit to
    depends on the real hash function; [validate_genesis_hash] and
    [validate_econ_hash] are the code's start-up checks of it. *)
From S2P Require Import Prelude Crypto Constants Transaction Block.

Definition GENESIS_HASH : string :=
  "d6469ec95f56b56be4921ef40b9795902c96f2ad26582ef8db8fac46f4a7aa13".
Definition ECON_HASH : string :=
  "a18f9f82aeb6276b5cfb353e351cd0cf9b34aad962e29f4ac6268f0659c55f95".

Definition GENESIS_HEIGHT : Z := 0.
Definition GENESIS_TIMESTAMP : Z := 0.
Definition GENESIS_DIFFICULTY : Z := DIFFICULTY_FLOOR.
Definition GENESIS_NONCE : Z := 0.
Definition GENESIS_MINER : string := "network_genesis".

Definition VAULT_ACCOUNTS : list (string * Z) :=
  [ ("0xb977c16e539670ddfecc0ac902fcb916ec4b944e", 5000);
    ("0x8bb8edcd4cdbcb132cc5e88ff90ba48cebf11cbd", 3000);
    ("0xdf7a79291bb96e9dd1c77da089933767999eabf0", 1000);
    ("0x083f95edd48e3e9da396891b704994b86e7790e7", 1000) ].

Inductive GenesisError :=
| GenesisHashWrong (computed : string)
| EconHashWrong (computed : string)
| StoredGenesisWrong (found : string)
| PeerGenesisWrong (peer : string).

Definition genesis_block : Block :=
  mkBlock (mkHeader null_hash GENESIS_HEIGHT GENESIS_TIMESTAMP GENESIS_DIFFICULTY GENESIS_NONCE
    GENESIS_HASH null_hash null_hash GENESIS_MINER) [] 0.

Definition genesis_balances : gmap string Z := ∅.

Section genesis.
Context `{C : Crypto}.

Definition compute_genesis_pow_hash : string := compute_hash (b_header genesis_block).

(** All addresses, then all shares in little-endian, in declaration order. *)
Definition econ_bytes (vaults : list (string * Z)) : list byte :=
  concat (map (λ v, string_bytes v.1) vaults) ++ concat (map (λ v, le_bytes 4 v.2) vaults).
Definition compute_econ_hash : string := hex_encode (blake3 (econ_bytes VAULT_ACCOUNTS)).

Definition validate_genesis_hash : result GenesisError () :=
  let computed := compute_genesis_pow_hash in
  if negb (bool_decide (computed = GENESIS_HASH)) then Err (GenesisHashWrong computed) else Ok ().
Definition validate_econ_hash : result GenesisError () :=
  let computed := compute_econ_hash in
  if negb (bool_decide (computed = ECON_HASH)) then Err (EconHashWrong computed) else Ok ().

End genesis.

Definition verify_stored_genesis (stored : string) : result GenesisError () :=
  if negb (bool_decide (stored = GENESIS_HASH)) then Err (StoredGenesisWrong stored) else Ok ().
Definition verify_peer_genesis (peer_genesis : string) : result GenesisError () :=
  if negb (bool_decide (peer_genesis = GENESIS_HASH)) then Err (PeerGenesisWrong peer_genesis)
  else Ok ().

(** ** Facts *)
Lemma verify_stored_genesis_Ok s : verify_stored_genesis s = Ok () ↔ s = GENESIS_HASH.
Proof. unfold verify_stored_genesis. case_bool_decide; naive_solver. Qed.
Lemma verify_peer_genesis_Ok s : verify_peer_genesis s = Ok () ↔ s = GENESIS_HASH.
Proof. unfold verify_peer_genesis. case_bool_decide; naive_solver. Qed.

(** The shares add up to 100 %. *)
Lemma vault_shares_total : sumZ snd VAULT_ACCOUNTS = 10000.
Proof. reflexivity. Qed.

Lemma genesis_block_wf : block_wf genesis_block.
Proof. repeat split; try (apply Forall_nil_2); vm_compute; discriminate. Qed.

(** Concatenations of pieces of one positive length determine the pieces. *)
Lemma concat_inj {A} (f : A → list byte) n (l1 l2 : list A) k1 k2 :
  length l1 = length l2 → Forall (λ a, length (f a) = n) l1 → Forall (λ a, length (f a) = n) l2 →
  concat (map f l1) ++ k1 = concat (map f l2) ++ k2 → map f l1 = map f l2 ∧ k1 = k2.
Proof.
  revert l2. induction l1 as [|a l1 IH]; intros [|b l2] Hl H1 H2 E; try done.
  cbn [map concat] in *. rewrite <- !app_assoc in E.
  apply Forall_cons in H1 as [Ha H1]. apply Forall_cons in H2 as [Hb H2].
  apply app_inj_1 in E as [E1 E2]; [|by rewrite Ha, Hb].
  destruct (IH l2) as [E3 E4]; [by simplify_eq/=|done..|]. by rewrite E1, E3.
Qed.
Lemma length_concat {A} (f : A → list byte) n l :
  Forall (λ a, length (f a) = n) l → length (concat (map f l)) = (n * length l)%nat.
Proof. induction 1 as [|a l Ha _ IH]; simpl; [lia|]. rewrite length_app, IH, Ha. lia. Qed.

(** A vault table as the code declares them: 42-character addresses, [u32]
    shares. *)
Definition vault_ok (v : string * Z) : Prop := String.length v.1 = 42%nat ∧ 0 ≤ v.2 ≤ U32_MAX.

(** ** Properties *)

(** The economics fingerprint commits to the whole vault table: two tables
    of 42-character addresses and 32-bit shares that feed the same bytes to the
    hasher have the same addresses with the same shares in the same order. *)
Theorem econ_bytes_injective v1 v2 :
  Forall vault_ok v1 → Forall vault_ok v2 → econ_bytes v1 = econ_bytes v2 → v1 = v2.
Proof.
  intros H1 H2 E. unfold econ_bytes in E.
  assert (∀ v, Forall vault_ok v → Forall (λ v, length (string_bytes v.1) = 42%nat) v) as Ha.
  { intros v Hv. eapply Forall_impl; [exact Hv|]. intros x [Hx _]. by rewrite length_string_bytes. }
  assert (∀ v : list (string * Z), Forall (λ v, length (le_bytes 4 v.2) = 4%nat) v) as Hb
    by (intros v; apply Forall_forall; intros; apply length_le_bytes).
  assert (length v1 = length v2) as Hl.
  { apply (f_equal length) in E. rewrite !length_app in E.
    rewrite (length_concat _ 42 v1 (Ha _ H1)), (length_concat _ 42 v2 (Ha _ H2)) in E.
    rewrite (length_concat _ 4 v1 (Hb _)), (length_concat _ 4 v2 (Hb _)) in E. clear -E. lia. }
  destruct (concat_inj _ 42 _ _ _ _ Hl (Ha _ H1) (Ha _ H2) E) as [E1 E2].
  rewrite <- (app_nil_r (concat (map _ v1))), <- (app_nil_r (concat (map _ v2))) in E2.
  destruct (concat_inj _ 4 _ _ _ _ Hl (Hb _) (Hb _) E2) as [E3 _]. clear E E2 Ha Hb.
  revert v2 H2 Hl E1 E3. induction H1 as [|[a1 s1] v1 [Hv Hs] H1 IH]; intros [|[a2 s2] v2] H2 Hl E1 E3; try done.
  apply Forall_cons in H2 as [[Hv2 Hs2] H2]. cbn [map fst snd] in *.
  pose proof (f_equal (hd []) E1) as Ea. pose proof (f_equal (hd []) E3) as Eb.
  apply (f_equal tl) in E1, E3.
  f_equal; [f_equal|by apply IH; [|simplify_eq/=|..]].
  - by apply (inj string_bytes).
  - apply (le_bytes_inj 4); [..|exact Eb]; change (256 ^ Z.of_nat 4) with (U32_MAX + 1); simpl in *; lia.
Qed.

Lemma econ_bytes_injective_witness :
  econ_bytes VAULT_ACCOUNTS = econ_bytes (rev (rev VAULT_ACCOUNTS)) ∧
  rev (rev VAULT_ACCOUNTS) = VAULT_ACCOUNTS.
Proof.
  split; [reflexivity|].
  apply econ_bytes_injective; [..|reflexivity];
    repeat (apply Forall_cons_2; [split; [reflexivity|split; vm_compute; discriminate]|]);
    apply Forall_nil_2.
Defined.
