(* ===== verification/Accept.v ===== *)
(** * Block acceptance ([src/chain/accept.rs])

    The single entry point for blocks: structural checks, parent lookup,
    timestamp, difficulty, proof of work, state execution, chain selection,
    storage, and the promotion of waiting orphans.

    A [Node] is the chain state together with the process-wide caches the
    pipeline touches (PoW pre-validation, VisionX datasets) and the number of
    times the wall clock was read.  [params] is the code's [VISIONX_PARAMS] and
    [clock] the successive readings of [SystemTime::now]; both are arguments so
    that the definitions can be evaluated.  A failed [expect] or index is
    [Panic]. *)
From S2P Require Import Prelude Crypto Constants Transaction Block StateRoot Difficulty HistoricalVpow VisionX Sled ChainState Storage Snapshots Reward Reorg Orphan Genesis.

(** ** The PoW pre-validation cache *)
Record PowCache := mkPowCache { pc_order : list string; pc_set : gset string }.
Definition POW_CACHE_CAPACITY : nat := 500.

Fixpoint pow_trim (order : list string) (set : gset string) : PowCache :=
  match order with
  | [] => mkPowCache order set
  | evicted :: order' =>
      if (POW_CACHE_CAPACITY <? length order)%nat then pow_trim order' (set ∖ {[ evicted ]})
      else mkPowCache order set
  end.
Definition mark_pow_prevalidated (c : PowCache) (block_hash : string) : PowCache :=
  if bool_decide (block_hash ∈ pc_set c) then c
  else pow_trim (pc_order c ++ [block_hash]) ({[ block_hash ]} ∪ pc_set c).
Definition is_pow_prevalidated (c : PowCache) (block_hash : string) : bool :=
  bool_decide (block_hash ∈ pc_set c).
Definition clear_pow_prevalidation (c : PowCache) (block_hash : string) : PowCache :=
  if bool_decide (block_hash ∈ pc_set c)
  then mkPowCache (filter (λ h, h ≠ block_hash) (pc_order c)) (pc_set c ∖ {[ block_hash ]})
  else c.

(** ** Results *)
Inductive PowError :=
| PowDigest (e : DigestError)
| PowFailed
| PowHashMismatch.

Inductive ReplayError :=
| ReplayTx (idx : nat) (e : TxExecutionError)
| ReplayReward (e : RewardError)
| BrokenSideAncestry (parent : string).

Inductive RejectReason :=
| WeightExceedsLimit (weight : Z)
| TxRootMismatch (header computed : string)
| MissingCoinbase
| FirstTxNotCoinbase
| DuplicateBlock (hash : string)
| GenesisHashMismatch (got : string)
| GenesisAlreadyApplied
| CanonicalPersistenceFailed (e : StorageError)
| TimestampNotMonotonic (block parent : Z)
| TimestampTooFarInFuture (block limit : Z)
| DifficultyBelowFloor (difficulty : Z)
| DifficultyMismatch (number header expected : Z)
| PowRejected (e : PowError)
| CoinbaseArgsLength (len : nat)
| CoinbaseHeightMismatch (encoded number : Z)
| DuplicateTx (id : string)
| ParentStateFailed (e : ReplayError)
| TxInvalid (idx : nat) (e : TxExecutionError)
| CoinbaseRewardFailed (e : RewardError)
| StateRootFailed
| StateRootDiffers (header computed : string)
| SidePersistenceFailed (e : StorageError).

Inductive AcceptResult :=
| CanonExtension (height : Z)
| SideChain (height : Z)
| StoredOrphan (block_hash : string)
| Rejected (reason : RejectReason).

Definition is_accepted (r : AcceptResult) : bool :=
  match r with Rejected _ => false | _ => true end.

Section accept.
Context `{C : Crypto} `{TC : TxCodec} `{SL : Sled} `{SC : StoreCodec}.
Context (params : VisionXParams) (clock : nat → Z).

Record Node := mkNode {
  n_chain : ChainState;
  n_pow : PowCache;
  n_datasets : DatasetCache;
  n_ticks : nat
}.
Definition set_chain (g : ChainState) (n : Node) : Node :=
  mkNode g (n_pow n) (n_datasets n) (n_ticks n).
(** Reading the wall clock. *)
Definition read_clock (n : Node) : Node * Z :=
  (mkNode (n_chain n) (n_pow n) (n_datasets n) (S (n_ticks n)), clock (n_ticks n)).

(** ** Proof of work *)
Definition verify_visionx_pow (c : DatasetCache) (blk : Block)
    : run (DatasetCache * result PowError ()) :=
  e ← epoch params (b_number blk);
  '(c, digest) ← historical_block_digest c params e (b_header blk);
  match digest with
  | Err err => Done (c, Err (PowDigest err))
  | Ok digest =>
      let target := difficulty_to_target (b_difficulty blk) in
      if negb (bytes_leb (take 8 digest) (take 8 target)) then Done (c, Err PowFailed)
      else
        let computed := hex_encode digest in
        if negb (bool_decide (block_hash blk = computed)) then Done (c, Err PowHashMismatch)
        else Done (c, Ok ())
  end.

Definition verify_pow_only (n : Node) (blk : Block) : run (Node * result PowError ()) :=
  '(c, r) ← verify_visionx_pow (n_datasets n) blk;
  match r with
  | Err e => Done (mkNode (n_chain n) (n_pow n) c (n_ticks n), Err e)
  | Ok _ =>
      Done (mkNode (n_chain n) (mark_pow_prevalidated (n_pow n) (block_hash blk)) c (n_ticks n),
            Ok ())
  end.

(** ** Private helpers *)
Definition resolve_block (g : ChainState) (hash : string) : option Block :=
  match canon_index g !! hash with
  | Some height => blocks g !! Z.to_nat height
  | None => side_blocks g !! hash
  end.

Definition all_zero_chars (s : string) : bool := string_forallb (Ascii.eqb "0") s.

Fixpoint window_loop (limit : nat) (g : ChainState) (current : string) (chain : list Block)
    : list Block :=
  match limit with
  | O => chain
  | S limit =>
      match resolve_block g current with
      | Some blk =>
          let parent := b_parent blk in
          let chain := chain ++ [blk] in
          if all_zero_chars parent then chain else window_loop limit g parent chain
      | None => chain
      end
  end.
Definition collect_ancestor_window (g : ChainState) (tip_hash : string) : list Block :=
  rev (window_loop (Z.to_nat (RETARGET_WINDOW + 1)) g tip_hash []).

Definition push_canonical (g : ChainState) (blk : Block) (cw : Z) : ChainState :=
  let hash := block_hash blk in
  let height := b_number blk in
  set_blocks (blocks g ++ [blk])
    (set_canon_index (<[hash := height]> (canon_index g))
      (set_seen_blocks ({[ hash ]} ∪ seen_blocks g)
        (set_work (<[hash := cw]> (cumulative_work g)) (set_pending None g)))).

(** [blk.txs.iter().enumerate().skip(1)], stopping at the first error. *)
Fixpoint execute_indexed (idx : nat) (state : TxExecutionState) (txs : list Tx)
    : result (nat * TxExecutionError) TxExecutionState :=
  match txs with
  | [] => Ok state
  | tx :: txs =>
      '(state, _) ← map_err (pair idx) (simulate_tx_execution state tx);
      execute_indexed (S idx) state txs
  end.
Definition execute_non_coinbase_txs (state : TxExecutionState) (blk : Block)
    : result (nat * TxExecutionError) TxExecutionState :=
  execute_indexed 1 state (drop 1 (b_txs blk)).

(** Replay without state-root checks: the body shared by the loops below. *)
Definition replay_unchecked (state : TxExecutionState) (blk : Block)
    : result ReplayError TxExecutionState :=
  state ← map_err (λ e, ReplayTx e.1 e.2) (execute_non_coinbase_txs state blk);
  if negb (b_number blk =? 0)
  then map_err ReplayReward (apply_coinbase_reward state (bh_miner (b_header blk)) (b_number blk))
  else Ok state.
Fixpoint replay_all_unchecked (state : TxExecutionState) (bs : list Block)
    : result ReplayError TxExecutionState :=
  match bs with
  | [] => Ok state
  | blk :: bs => state ← replay_unchecked state blk; replay_all_unchecked state bs
  end.

Definition reconstruct_canonical_state_at_height (g : ChainState) (height : Z)
    : result ReplayError TxExecutionState :=
  replay_all_unchecked empty_exec (take (Z.to_nat (wadd64 height 1)) (blocks g)).

Fixpoint side_parent_loop (fuel : nat) (g : ChainState) (parent_hash current : string)
    (branch : list Block) : run (result ReplayError TxExecutionState) :=
  match fuel with
  | O => NoFuel
  | S fuel =>
      match canon_index g !! current with
      | Some height =>
          Done (state ← reconstruct_canonical_state_at_height g height;
                replay_all_unchecked state (rev branch))
      | None =>
          match side_blocks g !! current with
          | Some blk => side_parent_loop fuel g parent_hash (b_parent blk) (branch ++ [blk])
          | None => Done (Err (BrokenSideAncestry parent_hash))
          end
      end
  end.
Definition reconstruct_parent_state_for_side_chain (g : ChainState) (parent_hash : string)
    : run (result ReplayError TxExecutionState) :=
  match canon_index g !! parent_hash with
  | Some height => Done (reconstruct_canonical_state_at_height g height)
  | None => side_parent_loop (ancestry_fuel g) g parent_hash parent_hash []
  end.

(** ** The stages of [apply_block] *)

(** Stage 1: weight, transaction root, coinbase, duplicate. *)
Definition check_structure (g : ChainState) (blk : Block) : result RejectReason () :=
  if BLOCK_WEIGHT_LIMIT <? b_weight blk then Err (WeightExceedsLimit (b_weight blk))
  else
    let computed_tx_root := compute_tx_root blk in
    if negb (bool_decide (bh_tx_root (b_header blk) = computed_tx_root))
    then Err (TxRootMismatch (bh_tx_root (b_header blk)) computed_tx_root)
    else
      _ ← (if 0 <? b_number blk then
             match b_txs blk with
             | [] => Err MissingCoinbase
             | cb :: _ =>
                 if negb (bool_decide (tx_module cb = "coinbase")) ||
                    negb (bool_decide (tx_method cb = "reward"))
                 then Err FirstTxNotCoinbase else Ok ()
             end
           else Ok ());
      if bool_decide (block_hash blk ∈ seen_blocks g) then Err (DuplicateBlock (block_hash blk))
      else Ok ().

(** Stage 2, genesis. *)
Definition apply_genesis (g : ChainState) (blk : Block) : ChainState * AcceptResult :=
  if negb (bool_decide (block_hash blk = GENESIS_HASH))
  then (g, Rejected (GenesisHashMismatch (block_hash blk)))
  else if negb (bool_decide (blocks g = [])) then (g, Rejected GenesisAlreadyApplied)
  else
    let cw := b_difficulty blk in
    match persist_canonical_extension blk g with
    | (g, Err err) => (g, Rejected (CanonicalPersistenceFailed err))
    | (g, Ok _) => (push_canonical g blk cw, CanonExtension 0)
    end.

(** Stage 3: the first half does not read the clock. *)
Definition check_monotonic (blk parent_blk : Block) : result RejectReason () :=
  if b_timestamp blk <=? b_timestamp parent_blk
  then Err (TimestampNotMonotonic (b_timestamp blk) (b_timestamp parent_blk)) else Ok ().
Definition check_future (blk : Block) (now : Z) : result RejectReason () :=
  let limit := wadd64 now MAX_FUTURE_TIMESTAMP_SECS in
  if limit <? b_timestamp blk then Err (TimestampTooFarInFuture (b_timestamp blk) limit)
  else Ok ().

(** Stage 4. *)
Definition check_difficulty (g : ChainState) (blk : Block) : result RejectReason () :=
  let ancestor_window := collect_ancestor_window g (b_parent blk) in
  let expected_diff := calculate_next_difficulty ancestor_window (b_timestamp blk) in
  if b_difficulty blk <? DIFFICULTY_FLOOR then Err (DifficultyBelowFloor (b_difficulty blk))
  else if negb (b_difficulty blk =? expected_diff)
  then Err (DifficultyMismatch (b_number blk) (b_difficulty blk) expected_diff)
  else Ok ().

(** Stage 6a; the index [txs[0]] panics on an empty list. *)
Definition check_coinbase_height (blk : Block) : run (result RejectReason ()) :=
  if 0 <? b_number blk then
    cb ← index (b_txs blk) 0;
    Done (if negb (bool_decide (length (tx_args cb) = 8%nat))
          then Err (CoinbaseArgsLength (length (tx_args cb)))
          else
            let encoded_height := be_val (tx_args cb) in
            if negb (encoded_height =? b_number blk)
            then Err (CoinbaseHeightMismatch encoded_height (b_number blk)) else Ok ())
  else Done (Ok ()).

(** Stage 6b. *)
Fixpoint check_duplicate_txs (seen_ids : gset string) (txs : list Tx) : result RejectReason () :=
  match txs with
  | [] => Ok ()
  | tx :: txs =>
      let tid := canonical_tx_id tx in
      if bool_decide (tid ∈ seen_ids) then Err (DuplicateTx tid)
      else check_duplicate_txs ({[ tid ]} ∪ seen_ids) txs
  end.

(** Stage 6c: the state before the block. *)
Definition parent_state (g : ChainState) (parent_hash tip_hash : string)
    : run (result ReplayError TxExecutionState) :=
  if bool_decide (parent_hash = tip_hash) then Done (Ok (mkExec (balances g) (nonces g)))
  else reconstruct_parent_state_for_side_chain g parent_hash.

(** Stage 6c: execution, reward and state root. *)
Definition execute_block (state : TxExecutionState) (blk : Block)
    : result RejectReason TxExecutionState :=
  state ← map_err (λ e, TxInvalid e.1 e.2) (execute_indexed 1 state (drop 1 (b_txs blk)));
  state ← (if negb (b_number blk =? 0)
           then map_err CoinbaseRewardFailed
                  (apply_coinbase_reward state (bh_miner (b_header blk)) (b_number blk))
           else Ok state);
  computed_state_root ← map_err (λ _, StateRootFailed)
    (compute_state_root (es_balances state) (es_nonces state));
  if negb (bool_decide (bh_state_root (b_header blk) = computed_state_root))
  then Err (StateRootDiffers (bh_state_root (b_header blk)) computed_state_root)
  else Ok state.

(** LANE-A: extension of the canonical tip.  The flag says whether the waiting
    orphans are processed before the result is returned. *)
Definition lane_a (g : ChainState) (blk : Block) (state : TxExecutionState) (candidate_cw : Z)
    : ChainState * AcceptResult * bool :=
  match persist_canonical_extension blk g with
  | (g, Err err) => (g, Rejected (CanonicalPersistenceFailed err), false)
  | (g, Ok _) =>
      let g := set_accounts (es_balances state) (es_nonces state) g in
      let g := push_canonical g blk candidate_cw in
      let g := fst (maybe_save_snapshot g) in
      (g, CanonExtension (b_number blk), true)
  end.

(** LANE-B: a block on another branch. *)
Definition lane_b (g : ChainState) (blk : Block) (candidate_cw tip_cw : Z)
    : run (ChainState * AcceptResult * bool) :=
  match store_block blk g with
  | (g, Err err) => Done (g, Rejected (SidePersistenceFailed err), false)
  | (g, Ok _) =>
      let hash := block_hash blk in
      let g := set_side_blocks (<[hash := blk]> (side_blocks g))
        (set_seen_blocks ({[ hash ]} ∪ seen_blocks g)
          (set_work (<[hash := candidate_cw]> (cumulative_work g)) g)) in
      if tip_cw <? candidate_cw then
        '(g, reorg_recovery) ← try_reorg g blk;
        match reorg_recovery with
        | Some recovery => Done (set_pending (Some recovery) g, CanonExtension (height blk), true)
        | None => Done (g, SideChain (height blk), true)
        end
      else Done (g, SideChain (height blk), true)
  end.

(** Stages 3 to 8, the parent being known. *)
Definition apply_with_parent (n : Node) (blk parent_blk : Block) (tip_cw candidate_cw : Z)
    : run (Node * AcceptResult * bool) :=
  let g := n_chain n in
  let reject n e := Done (n, Rejected e, false) in
  match check_monotonic blk parent_blk with
  | Err e => reject n e
  | Ok _ =>
      let '(n, now) := read_clock n in
      match check_future blk now ≫= λ _, check_difficulty g blk with
      | Err e => reject n e
      | Ok _ =>
          '(c, pow) ← verify_visionx_pow (n_datasets n) blk;
          let n := mkNode g (n_pow n) c (n_ticks n) in
          match pow with
          | Err e => reject n (PowRejected e)
          | Ok _ =>
              cbh ← check_coinbase_height blk;
              match cbh ≫= λ _, check_duplicate_txs ∅ (b_txs blk) with
              | Err e => reject n e
              | Ok _ =>
                  ps ← parent_state g (b_parent blk) (tip_hash g);
                  match map_err ParentStateFailed ps ≫= λ st, execute_block st blk with
                  | Err e => reject n e
                  | Ok state =>
                      '(g, r, integrated) ←
                        (if bool_decide (b_parent blk = tip_hash g)
                         then Done (lane_a g blk state candidate_cw)
                         else lane_b g blk candidate_cw tip_cw);
                      Done (set_chain g n, r, integrated)
                  end
              end
          end
      end
  end.

(** The whole pipeline up to the promotion of waiting orphans. *)
Definition apply_core (n : Node) (blk : Block) (source_peer : option string)
    : run (Node * AcceptResult * bool) :=
  let hash := block_hash blk in
  let n := mkNode (n_chain n) (clear_pow_prevalidation (n_pow n) hash) (n_datasets n) (n_ticks n) in
  let g := n_chain n in
  match check_structure g blk with
  | Err e => Done (n, Rejected e, false)
  | Ok _ =>
      if b_number blk =? 0 then
        let '(g, r) := apply_genesis g blk in Done (set_chain g n, r, false)
      else
        let parent_hash := b_parent blk in
        let parent_in_canon := bool_decide (is_Some (canon_index g !! parent_hash)) in
        let parent_in_side := bool_decide (is_Some (side_blocks g !! parent_hash)) in
        let tip_cw := default 0 (cumulative_work g !! tip_hash g) in
        let parent_cw := default 0 (cumulative_work g !! parent_hash) in
        let candidate_cw := wadd128 parent_cw (b_difficulty blk) in
        if negb parent_in_canon && negb parent_in_side then
          let '(n, now) := read_clock n in
          Done (set_chain (add_orphan g blk (default "anon" source_peer) now) n,
                StoredOrphan hash, false)
        else
          match resolve_block g parent_hash with
          | None => Panic
          | Some parent_blk => apply_with_parent n blk parent_blk tip_cw candidate_cw
          end
  end.

(** ** Orphan promotion ([process_orphans] of [src/chain/orphan.rs]) *)
Fixpoint promote_waiting (apply : Node → Block → option string → run (Node * AcceptResult))
    (n : Node) (promoted : Z) (waiting : list OrphanEntry) : run (Node * Z) :=
  match waiting with
  | [] => Done (n, promoted)
  | (block, _, source_peer) :: waiting =>
      let g := n_chain n in
      let n := set_chain (set_orphans (orphan_pool g)
                 (delete (block_hash block) (orphan_by_hash g)) g) n in
      '(n, r) ← apply n block (Some source_peer);
      promote_waiting apply n (if is_accepted r then promoted + 1 else promoted) waiting
  end.
Definition process_orphans (apply : Node → Block → option string → run (Node * AcceptResult))
    (n : Node) (parent_hash : string) : run (Node * Z) :=
  let g := n_chain n in
  match orphan_pool g !! parent_hash with
  | None => Done (n, 0)
  | Some waiting =>
      let n := set_chain (set_orphans (delete parent_hash (orphan_pool g)) (orphan_by_hash g) g) n in
      promote_waiting apply n 0 waiting
  end.

(** [apply_block] and [process_orphans] call each other; the nesting is bounded
    by the number of waiting orphans. *)
Fixpoint apply_fuel (fuel : nat) (n : Node) (blk : Block) (source_peer : option string)
    : run (Node * AcceptResult) :=
  match fuel with
  | O => NoFuel
  | S fuel =>
      '(n, r, integrated) ← apply_core n blk source_peer;
      if (integrated : bool) then
        '(n, _) ← process_orphans (apply_fuel fuel) n (block_hash blk);
        Done (n, r)
      else Done (n, r)
  end.
Definition apply_block (n : Node) (blk : Block) (source_peer : option string)
    : run (Node * AcceptResult) :=
  apply_fuel (S (Z.to_nat (pool_total (orphan_pool (n_chain n))))) n blk source_peer.

End accept.
