(* ===== verification/Accounts.v ===== *)
(** * The interface between acceptance and the accounts

    [AccountEquiv] states what the acceptance of blocks needs of a relation on
    account states: executing a block respects it and related states have the
    same root.  Equality is one such relation, equality up to zero entries
    another. *)
From S2P Require Import Prelude Crypto Constants Block StateRoot Sled ChainState Storage Snapshots Reward Reorg Zeros Accept Transaction.

(** ** The interface: account states acceptance does not tell apart *)
Class AccountEquiv {C : Crypto} {TC : TxCodec} (R : relation TxExecutionState) : Prop := {
  account_refl : Reflexive R;
  account_execute blk st st' : R st st' → result_rel R (execute_block st blk) (execute_block st' blk);
  account_root st st' : R st st' →
    compute_state_root (es_balances st) (es_nonces st) = compute_state_root (es_balances st') (es_nonces st')
}.
#[export] Existing Instance account_refl.
#[export] Instance account_equiv_eq {C : Crypto} {TC : TxCodec} : AccountEquiv eq.
Proof. split; [done| |by intros ?? ->]. intros blk st ? <-. by destruct (execute_block st blk). Qed.

(** ** Executing a block respects equality up to zeros *)
Section execution.
Context {C : Crypto} {TC : TxCodec}.

Lemma execute_indexed_equiv txs : ∀ i st st', st ≡ st' →
  result_rel (≡) (execute_indexed i st txs) (execute_indexed i st' txs).
Proof.
  induction txs as [|tx txs IH]; intros i st st' H; [done|]. cbn [execute_indexed].
  eapply result_rel_bind; [by apply result_rel_map_err, simulate_equiv|].
  intros [s1 o1] [s2 o2] [Hs _]. by apply IH.
Qed.
Lemma execute_block_equiv blk st st' : st ≡ st' →
  result_rel (≡) (execute_block st blk) (execute_block st' blk).
Proof.
  intros H. unfold execute_block.
  eapply result_rel_bind; [by apply result_rel_map_err, execute_indexed_equiv|]. intros s1 s2 H1.
  eapply result_rel_bind.
  - instantiate (1 := (≡)). destruct (negb _); [by apply result_rel_map_err, reward_equiv|done].
  - intros s3 s4 H3. rewrite (compute_state_root_proper _ _ H3). apply result_rel_eq.
    intros root _. by destruct (negb _).
Qed.

#[export] Instance account_equiv_zeros : AccountEquiv (≡@{TxExecutionState}).
Proof. split; [apply exec_equivalence|intros; by apply execute_block_equiv|apply compute_state_root_proper]. Qed.
End execution.
