(* ===== verification/Acceptance.v ===== *)
(** * Correctness of block acceptance

    The theory of [Accept]: the consensus rules as a declarative predicate, the
    possible outcomes of the pipeline as a relation, and the proof that the
    pipeline never panics, always ends, and keeps the node consistent, for
    blocks that respect a numbering of hashes (see [Consistency]). *)
From S2P Require Import Prelude Crypto Constants Transaction Block StateRoot Difficulty HistoricalVpow VisionX Sled ChainState Storage Snapshots Reward Reorg Zeros Orphan Consistency Genesis Accept Accounts.

(** ** Replay without root checks agrees with checked replay *)
Section replay.
Context `{C : Crypto} `{TC : TxCodec}.

Lemma execute_indexed_Ok idx st txs st' :
  execute_indexed idx st txs = Ok st' ↔ execute_txs st txs = Ok st'.
Proof.
  revert idx st. induction txs as [|tx txs IH]; intros idx st; [split; by intros [= ->]|].
  cbn [execute_indexed execute_txs].
  destruct (simulate_tx_execution st tx) as [[st1 out]|e]; cbn [map_err mbind result_bind fst];
    [apply IH|done].
Qed.

Lemma replay_block_unchecked st b st' :
  replay_block st b = Ok st' → replay_unchecked st b = Ok st'.
Proof.
  unfold replay_block, replay_unchecked, execute_non_coinbase_txs.
  intros (s1 & H1 & E)%bind_Ok. apply map_err_Ok, (execute_indexed_Ok 1) in H1. rewrite H1.
  cbn [map_err mbind result_bind]. destruct (negb _); [|by injection E as ->].
  apply bind_Ok in E as (s2 & H2 & E). apply map_err_Ok in H2. rewrite H2. cbn [map_err].
  apply bind_Ok in E as (r & _ & E). destruct (negb _); [done|]. by injection E as ->.
Qed.
Lemma replay_all_unchecked_Ok st bs st' :
  replay_blocks st bs = Ok st' → replay_all_unchecked st bs = Ok st'.
Proof.
  revert st. induction bs as [|b bs IH]; intros st; [by intros [= ->]|]. cbn [replay_blocks replay_all_unchecked].
  intros (s & H%replay_block_unchecked & E)%bind_Ok. rewrite H. by apply IH.
Qed.
Lemma replay_all_unchecked_app st l1 l2 s1 s2 :
  replay_all_unchecked st l1 = Ok s1 → replay_all_unchecked s1 l2 = Ok s2 →
  replay_all_unchecked st (l1 ++ l2) = Ok s2.
Proof.
  revert st. induction l1 as [|b l1 IH]; intros st; cbn [app replay_all_unchecked].
  - by intros [= ->].
  - intros (s & H & E)%bind_Ok E2. rewrite H. by apply IH.
Qed.

(** Executing a block on its parent's state is replaying it. *)
Lemma execute_block_replay st b st' : b_number b ≠ 0 →
  execute_block st b = Ok st' ↔ replay_block st b = Ok st'.
Proof.
  intros Hn. unfold execute_block, replay_block. rewrite (proj2 (Z.eqb_neq _ _) Hn). cbn [negb].
  rewrite !bind_Ok. setoid_rewrite map_err_Ok. setoid_rewrite execute_indexed_Ok.
  assert (∀ s : TxExecutionState,
    (s0 ← map_err CoinbaseRewardFailed (apply_coinbase_reward s (bh_miner (b_header b)) (b_number b));
     rt ← map_err (λ _, StateRootFailed) (compute_state_root (es_balances s0) (es_nonces s0));
     if negb (bool_decide (bh_state_root (b_header b) = rt))
     then Err (StateRootDiffers (bh_state_root (b_header b)) rt) else Ok s0) = Ok st' ↔
    (s0 ← map_err CoinbaseReward (apply_coinbase_reward s (bh_miner (b_header b)) (b_number b));
     rt ← map_err (λ _, StateRootConstructionFailed) (compute_state_root (es_balances s0) (es_nonces s0));
     if negb (bool_decide (rt = bh_state_root (b_header b)))
     then Err (StateRootMismatch (block_hash b) (bh_state_root (b_header b)) rt) else Ok s0) = Ok st')
    as Hs.
  { intros s. destruct (apply_coinbase_reward s _ _) as [s0|]; cbn [map_err mbind result_bind]; [|by split].
    destruct (compute_state_root _ _) as [rt|]; cbn [map_err mbind result_bind]; [|by split].
    do 2 case_bool_decide; try congruence; cbn [negb]; [|by split].
    split; by intros [= ->]. }
  split; intros (s & H1 & H2); exists s; (split; [done|]); by apply Hs.
Qed.
End replay.

(** ** Proof of work, without the cache *)
Section pow.
Context `{C : Crypto} (params : VisionXParams).

(** The check [verify_visionx_pow] performs, computed from scratch. *)
Definition pow_check (blk : Block) : result PowError () :=
  match VisionX.decode_hash_32 (b_parent blk) with
  | Err e => Err (PowDigest (ParentHash e))
  | Ok prev =>
      match historical_vpow_message_bytes_with_nonce_zero (b_header blk) with
      | Err e => Err (PowDigest (Preimage e))
      | Ok pre =>
          match fresh_digest params prev (b_number blk / epoch_blocks params) pre
                  (bh_nonce (b_header blk)) with
          | Done (Ok digest) =>
              if be_val (take 8 digest) <=? U64_MAX / Z.max (b_difficulty blk) 1 then
                if bool_decide (block_hash blk = hex_encode digest) then Ok ()
                else Err PowHashMismatch
              else Err PowFailed
          | Done (Err e) => Err (PowDigest e)
          | _ => Err PowFailed
          end
      end
  end.
Definition pow_valid (blk : Block) : Prop := pow_check blk = Ok ().

Lemma verify_visionx_pow_spec c blk : cache_ok c → epoch_blocks params ≠ 0 →
  ∃ c', verify_visionx_pow params c blk = Done (c', pow_check blk) ∧ cache_ok c'.
Proof.
  intros Hc He. unfold verify_visionx_pow, epoch, historical_block_digest, pow_check.
  rewrite (proj2 (Z.eqb_neq _ _) He). cbn [mbind run_bind].
  fold (b_parent blk).
  destruct (VisionX.decode_hash_32 (b_parent blk)) as [prev|e]; [|by exists c].
  destruct (historical_vpow_message_bytes_with_nonce_zero (b_header blk)) as [pre|e]; [|by exists c].
  destruct (fresh_digest_total params prev (b_number blk / epoch_blocks params) pre
    (bh_nonce (b_header blk))) as (d & Hd & Hl).
  destruct (visionx_digest_fresh c params prev _ pre _ d Hc Hd) as (c' & -> & Hc'). rewrite Hd.
  exists c'. cbn [mbind run_bind]. destruct d as [digest|e]; [|done].
  rewrite meets_target_spec by (rewrite (proj1 (Hl _ eq_refl)); lia).
  destruct (_ <=? _); cbn [negb]; [|done]. by case_bool_decide.
Qed.

Lemma pow_valid_hash `{CL : !CryptoLaws C} blk :
  pow_valid blk → string_forallb is_lower_hex_char (block_hash blk) = true.
Proof.
  unfold pow_valid, pow_check. intros H. split_matches; bools.
  match goal with E : block_hash blk = _ |- _ => rewrite E end. apply hex_encode_lower.
Qed.
End pow.

(** ** Lookups and parent states on a consistent chain *)
Section acceptance.
Context {C : Crypto} {CL : CryptoLaws C} {TC : TxCodec} {SL : Sled} {SLL : SledLaws SL}
  {SC : StoreCodec}.
Context (params : VisionXParams) (clock : nat → Z) (N : string → Z).
Abbreviation root := GENESIS_HASH.
Abbreviation chain_ok := (chain_ok N root).
Abbreviation block_ok := (block_ok N root).
Abbreviation ancestry := (ancestry root).
Abbreviation reorganised := (reorganised root).

Lemma resolve_block_holds g h b : chain_ok g → resolve_block g h = Some b → holds g b ∧ block_hash b = h.
Proof.
  intros Hg. unfold resolve_block. destruct (canon_index g !! h) as [k|] eqn:E.
  - destruct (index_block _ _ _ _ _ Hg E) as (_ & x & Hx & Hh & _). rewrite Hx. intros [= <-].
    split; [left; by eapply list_elem_of_lookup_2|done].
  - intros Hb. destruct (co_side _ _ _ Hg _ _ Hb) as [Hh _]. split; [right; by rewrite Hh|done].
Qed.
(** A known hash always resolves: the [expect] of [apply_block] cannot fail. *)
Lemma resolve_block_known g h : chain_ok g → known g h → is_Some (resolve_block g h).
Proof.
  intros Hg. unfold resolve_block. destruct (canon_index g !! h) as [k|] eqn:E.
  - destruct (index_block _ _ _ _ _ Hg E) as (_ & x & -> & _). eauto.
  - intros [Hk|Hk]; [rewrite E in Hk; by destruct Hk|done].
Qed.

Lemma known_nonempty g h : chain_ok g → known g h → blocks g ≠ [].
Proof.
  intros Hg Hk E. destruct (collect_new_segment_spec _ _ _ _ Hg Hk) as (c & seg & _ & [k Hc] & _).
  destruct (index_block _ _ _ _ _ Hg Hc) as (_ & b & Hb & _). by rewrite E in Hb.
Qed.

Lemma tip_block g : blocks g ≠ [] → ∃ t, last (blocks g) = Some t ∧ tip_hash g = block_hash t.
Proof.
  intros Hne. destruct (last (blocks g)) as [t|] eqn:E; [|by apply last_None in E].
  exists t. unfold tip_hash. by rewrite E.
Qed.

(** The side-chain loop replays what the ancestry walk collects. *)
Lemma side_parent_segment fuel g ph current acc seg :
  chain_ok g →
  segment_loop fuel g current acc = Done seg → seg ≠ [] → linked current (rev acc) →
  ∃ c k, canon_index g !! c = Some k ∧ linked c seg ∧
    side_parent_loop fuel g ph current acc =
    Done (state ← Accept.reconstruct_canonical_state_at_height g k; replay_all_unchecked state seg).
Proof.
  intros Hg. revert current acc. induction fuel as [|fuel IH]; intros current acc; [done|].
  cbn [segment_loop side_parent_loop]. case_bool_decide as Hc.
  - intros [= <-] _ Hl. destruct Hc as [k Hk]. exists current, k. rewrite Hk. done.
  - destruct (canon_index g !! current) eqn:E; [by destruct Hc; eauto|].
    destruct (side_blocks g !! current) as [blk|] eqn:Eb; [|by intros [= <-]].
    intros Hs Hne Hl. apply IH; [done|done|]. rewrite rev_app_distr. simpl.
    split; [done|]. by destruct (co_side _ _ _ Hg _ _ Eb) as (-> & _).
Qed.

Lemma wadd64_height g h k : chain_ok g → canon_index g !! h = Some k → wadd64 k 1 = k + 1.
Proof.
  intros Hg Hk. destruct (index_block _ _ _ _ _ Hg Hk) as (? & b & Hb & _ & Hn).
  pose proof (bo_range _ _ _ (Forall_lookup_1 _ _ _ _ (co_blocks _ _ _ Hg) Hb)).
  apply wrap64_small. unfold u64. lia.
Qed.

(** The ancestry of a canonical block is the prefix of the chain up to it. *)
Lemma canonical_parent_state g k p : chain_ok g → holds g p → canon_index g !! block_hash p = Some k →
  ancestry g (take (Z.to_nat (wadd64 k 1)) (blocks g)) p.
Proof.
  intros Hg Hp E. rewrite (wadd64_height _ _ _ Hg E).
  destruct (index_block _ _ _ _ _ Hg E) as (? & x & Hx & Hxh & _).
  assert (holds g x) as Hhx by (left; by eapply list_elem_of_lookup_2).
  pose proof (holds_inj _ _ _ _ _ Hg Hp Hhx (eq_sym Hxh)) as ->.
  replace (Z.to_nat (k + 1)) with (S (Z.to_nat k)) by lia. by eapply ancestry_canonical.
Qed.
(** That of a side block is a prefix and the branch the walk collects. *)
Lemma side_parent_state g p : chain_ok g → side_blocks g !! block_hash p = Some p →
  canon_index g !! block_hash p = None →
  ∃ k seg, ancestry g (take (Z.to_nat (wadd64 k 1)) (blocks g) ++ seg) p ∧
    side_parent_loop (ancestry_fuel g) g (block_hash p) (block_hash p) [] =
    Done (state ← Accept.reconstruct_canonical_state_at_height g k; replay_all_unchecked state seg).
Proof.
  intros Hg Hsp E.
  destruct (collect_new_segment_spec _ _ _ (block_hash p) Hg) as (c & seg & Hcol & [k Hc] & Hl & Hs & Hend);
    [right; eauto|].
  assert (last seg = Some p) as Hlast.
  { destruct (last seg) as [x|] eqn:El.
    - pose proof (last_Some_elem_of _ _ El) as Hin. rewrite Forall_forall in Hs.
      specialize (Hs _ Hin). unfold end_hash in Hend. rewrite El in Hend. simpl in Hend.
      rewrite Hend in Hs. by simplify_eq.
    - apply last_None in El as ->. unfold end_hash in Hend. simpl in Hend. congruence. }
  destruct (side_parent_segment _ g (block_hash p) _ _ _ Hg Hcol) as (c' & k' & Hc' & Hl' & Hsl);
    [by intros ->|done|].
  assert (c' = c) as ->.
  { destruct seg as [|b0 seg]; [done|]. destruct Hl as [<- _], Hl' as [<- _]. done. }
  exists k', seg. split; [|done]. rewrite (wadd64_height _ _ _ Hg Hc').
  split_and!; [by eapply (swap_canonical _ _ g c k' seg)| |by rewrite last_app, Hlast].
  apply Forall_app_2; [apply Forall_take, Forall_forall; intros x Hx; by left|].
  eapply Forall_impl; [exact Hs|]. intros x Hx. by right.
Qed.

(** The ancestry of the tip is the canonical chain, and its accounts are those
    of the state. *)
Lemma tip_branch g p bs : chain_ok g → holds g p → block_hash p = tip_hash g →
  ancestry g bs p → bs = blocks g.
Proof.
  intros Hg Hp He Hbs. destruct (tip_block g) as (t & Ht & Hth).
  { eapply known_nonempty, holds_known; eauto. }
  rewrite Hth in He. rewrite last_lookup in Ht.
  assert (holds g t) as Htt by (left; by eapply list_elem_of_lookup_2).
  pose proof (holds_inj _ _ _ _ _ Hg Hp Htt He) as ->.
  pose proof (ancestry_canonical _ _ _ _ _ Hg Ht) as Ha. rewrite take_ge in Ha by lia.
  exact (ancestry_inj _ _ _ _ _ _ Hg Hbs Ha).
Qed.
Lemma tip_accounts g p bs st : chain_ok g → holds g p → block_hash p = tip_hash g →
  ancestry g bs p → replay_blocks empty_exec bs = Ok st → st ≡ mkExec (balances g) (nonces g).
Proof.
  intros Hg Hp He Hbs Hr. rewrite (tip_branch _ _ _ Hg Hp He Hbs) in Hr.
  destruct (co_accounts _ _ _ Hg) as (st' & Hr' & He'). assert (st' = st) as -> by congruence. exact He'.
Qed.

(** The state before a block whose parent is known is that of the parent's
    ancestry, up to zeros, whichever branch the parent is on. *)
Lemma parent_state_spec g p : chain_ok g → holds g p →
  ∃ bs st st', parent_state g (block_hash p) (tip_hash g) = Done (Ok st') ∧ ancestry g bs p ∧
    replay_blocks empty_exec bs = Ok st ∧ st ≡ st'.
Proof.
  intros Hg Hp. destruct (co_replay _ _ _ Hg p Hp) as (bs & st & Hbs & Hr).
  exists bs, st. unfold parent_state. case_bool_decide as He.
  { pose proof (tip_accounts _ _ _ _ Hg Hp He Hbs Hr). eauto. }
  exists st. split; [|by split_and!]. unfold reconstruct_parent_state_for_side_chain.
  destruct (canon_index g !! block_hash p) as [k|] eqn:E.
  - pose proof (canonical_parent_state _ _ _ Hg Hp E) as Ha.
    rewrite (ancestry_inj _ _ _ _ _ _ Hg Hbs Ha) in Hr.
    unfold Accept.reconstruct_canonical_state_at_height. by rewrite (replay_all_unchecked_Ok _ _ _ Hr).
  - assert (side_blocks g !! block_hash p = Some p) as Hsp.
    { destruct Hp as [Hp|Hp]; [|done]. by rewrite (index_of_block _ _ _ _ Hg Hp) in E. }
    destruct (side_parent_state _ _ Hg Hsp E) as (k & seg & Ha & ->).
    rewrite (ancestry_inj _ _ _ _ _ _ Hg Hbs Ha) in Hr. unfold Accept.reconstruct_canonical_state_at_height.
    apply replay_blocks_app in Hr as (s1 & H1 & H2).
    rewrite (replay_all_unchecked_Ok _ _ _ H1). cbn [mbind result_bind].
    by rewrite (replay_all_unchecked_Ok _ _ _ H2).
Qed.


(** ** Extending the canonical chain *)

(** The fields [lane_a] and [apply_genesis] set, over a state with the same
    database content. *)
Lemma push_chain_ok g blk cw st0 st d :
  chain_ok g → block_ok blk → ¬ known g (block_hash blk) →
  canonical root (blocks g ++ [blk]) →
  (b_number blk ≠ 0 → known g (b_parent blk)) →
  replay_blocks empty_exec (blocks g ++ [blk]) = Ok st0 → st0 ≡ st →
  (b_number blk ≠ 0 → cw = wadd128 (default 0 (cumulative_work g !! b_parent blk)) (b_difficulty blk)) →
  mirrors (db_contents d) (blocks g ++ [blk]) →
  (b_number blk ≠ 0 → block_hash blk ≠ root) →
  chain_ok (push_canonical (set_accounts (es_balances st) (es_nonces st) (set_db d g)) blk cw).
Proof.
  intros Hg Hb Hnew Hc Hpk Hra Hst Hcw Hm Hnr.
  assert (∀ b, holds (push_canonical (set_accounts (es_balances st) (es_nonces st) (set_db d g)) blk cw) b
    ↔ holds g b ∨ b = blk) as Hholds.
  { intros b. unfold holds. simpl. rewrite elem_of_app, list_elem_of_singleton. tauto. }
  split; simpl.
  - done.
  - eapply index_ok_snoc; [exact Hc|apply (co_index _ _ _ Hg)].
  - apply Forall_app_2; [apply (co_blocks _ _ _ Hg)|by apply Forall_singleton].
  - intros h b Hs. destruct (co_side _ _ _ Hg _ _ Hs) as (H1 & H2 & H3 & H4 & H5).
    split_and!; [done..| |].
    + rewrite lookup_insert_ne; [done|]. intros E. apply Hnew. right. rewrite E. eauto.
    + destruct (decide (block_hash blk = b_parent b)) as [E|E].
      * left. simpl. rewrite E, lookup_insert_eq. eauto.
      * destruct H5 as [H5|H5]; [left|by right]. simpl. by rewrite lookup_insert_ne.
  - intros h Hk Hhr. destruct (decide (h = block_hash blk)) as [->|E]; [set_solver|].
    assert (known g h) as Hk'.
    { destruct Hk as [Hk|Hk]; [left|by right]. simpl in Hk. by rewrite lookup_insert_ne in Hk. }
    pose proof (co_seen _ _ _ Hg h Hk' Hhr). set_solver.
  - intros Hw b Hb' Hn. apply Hholds in Hb' as [Hh| ->].
    + apply (work_added N root); [done..| |done|done].
      destruct (decide (block_hash blk = root)) as [E|E]; [|by rewrite lookup_insert_ne in Hw].
      destruct (decide (b_number blk = 0)) as [Hz|Hz]; [|by destruct (Hnr Hz)].
      exfalso. pose proof (cn_number _ _ Hc (length (blocks g)) blk) as Hlen.
      rewrite list_lookup_middle in Hlen by done. specialize (Hlen eq_refl).
      apply (known_nonempty _ _ Hg (holds_known _ _ _ _ Hg Hh)). apply length_zero_iff_nil. lia.
    + rewrite lookup_insert_eq. rewrite (Hcw Hn).
      rewrite lookup_insert_ne; [done|]. intros E. apply Hnew. rewrite E. auto.
  - exists st0. split; [done|]. by destruct st.
  - apply (replay_added N root g _ blk (blocks g) st0 Hg Hholds); [|done].
    split_and!; [done| |by rewrite last_snoc]. apply Forall_forall. intros x Hx. by left.
  - done.
Qed.

(** A state equal up to the database, with the mirror kept. *)
Lemma chain_ok_db_only {E A} g (m : stm ChainState E A) g' r :
  chain_ok g → db_only (λ c, mirrors c (blocks g)) m → m g = (g', r) → chain_ok g' ∧ g' = set_db (db g') g.
Proof.
  intros Hg Hm E1. destruct (Hm _ _ _ E1 (co_db _ _ _ Hg)) as [E2 Hmi]. split; [|done].
  rewrite E2. by apply chain_ok_set_db.
Qed.

Lemma lane_a_spec g blk st0 st cw :
  chain_ok g → block_ok blk → ¬ known g (block_hash blk) → block_hash blk ≠ root →
  b_number blk ≠ 0 → known g (b_parent blk) → b_parent blk = tip_hash g →
  replay_blocks empty_exec (blocks g ++ [blk]) = Ok st0 → st0 ≡ st →
  cw = wadd128 (default 0 (cumulative_work g !! b_parent blk)) (b_difficulty blk) →
  ∃ g' r i, lane_a g blk st cw = (g', r, i) ∧ chain_ok g' ∧
    ((∃ e, r = Rejected (CanonicalPersistenceFailed e) ∧ i = false ∧ g' = set_db (db g') g) ∨
     r = CanonExtension (b_number blk) ∧ i = true ∧
     g' = set_db (db g') (push_canonical (set_accounts (es_balances st) (es_nonces st) g) blk cw)).
Proof.
  intros Hg Hb Hnew Hnr Hn Hpk Hp Hr Hst Hcw.
  pose proof (known_nonempty _ _ Hg Hpk) as Hne. destruct (tip_block _ Hne) as (t & Ht & Hth).
  assert (canonical root (blocks g ++ [blk])) as Hc.
  { eapply canonical_extend; [apply (co_canon _ _ _ Hg)|apply (co_blocks _ _ _ Hg)|exact Ht|done| |done].
    congruence. }
  unfold lane_a. destruct (persist_canonical_extension blk g) as [g1 [[]|e]] eqn:E1.
  - apply db_batch_Ok in E1 as [Ec Eg].
    assert (mirrors (db_contents (db g1)) (blocks g ++ [blk])) as Hm.
    { rewrite Ec. eapply extension_mirrors; [apply (co_db _ _ _ Hg)|exact Hc]. }
    pose proof (push_chain_ok g blk cw st0 st (db g1) Hg Hb Hnew Hc (λ _, Hpk) Hr Hst (λ _, Hcw) Hm (λ _, Hnr))
      as Hok.
    rewrite <- Eg in Hok. set (g2 := push_canonical _ blk cw) in *.
    destruct (maybe_save_snapshot g2) as [g3 r3] eqn:E3.
    destruct (chain_ok_db_only _ _ _ _ Hok (maybe_save_snapshot_db_only _ (mirrors_ignores_snapshots _)) E3) as [Hok3 E3'].
    eexists _, _, _. split; [reflexivity|]. cbn [fst]. split; [done|]. right. split_and!; [done..|].
    rewrite E3'. unfold g2. rewrite Eg. by destruct g.
  - apply db_batch_Err in E1 as [Ec Eg]. eexists _, _, _. split; [reflexivity|].
    split; [|left; eauto]. rewrite Eg. apply chain_ok_set_db; [done|]. rewrite Ec. apply (co_db _ _ _ Hg).
Qed.


(** ** Recording a side block *)
Lemma side_chain_ok g blk cw bs p st :
  chain_ok g → block_ok blk → ¬ known g (block_hash blk) → block_hash blk ≠ root →
  0 < b_number blk → holds g p → b_parent blk = block_hash p →
  ancestry g bs p → replay_blocks empty_exec (bs ++ [blk]) = Ok st →
  cw = wadd128 (default 0 (cumulative_work g !! b_parent blk)) (b_difficulty blk) →
  chain_ok (set_side_blocks (<[block_hash blk := blk]> (side_blocks g))
    (set_seen_blocks ({[ block_hash blk ]} ∪ seen_blocks g)
      (set_work (<[block_hash blk := cw]> (cumulative_work g)) g))).
Proof.
  intros Hg Hb Hnew Hnr Hn Hp Hpar Hanc Hr Hcw.
  set (g' := set_side_blocks _ _).
  assert (known g (b_parent blk)) as Hpk by (rewrite Hpar; by eapply holds_known).
  assert (∀ b, holds g b → block_hash b ≠ block_hash blk) as Hne.
  { intros b Hh E. apply Hnew. rewrite <- E. by eapply holds_known. }
  assert (∀ b, holds g' b ↔ holds g b ∨ b = blk) as Hholds.
  { intros b. unfold holds, g'. simpl. destruct (decide (block_hash b = block_hash blk)) as [E|E].
    - rewrite E, lookup_insert_eq. split; [|intros [Hh| ->]; [|by right]; exfalso; apply (Hne b); [|done];
        destruct Hh as [Hh|Hh]; [by left|right; by rewrite E]].
      intros [Hin|[= <-]]; [|by right]. left. by left.
    - rewrite lookup_insert_ne by done. naive_solver. }
  assert (canonical root (bs ++ [blk])) as Hcan by (eapply ancestry_extend; eauto; lia).
  split; simpl.
  - apply (co_canon _ _ _ Hg).
  - apply (co_index _ _ _ Hg).
  - apply (co_blocks _ _ _ Hg).
  - intros h b Hs. apply lookup_insert_Some in Hs as [[<- <-]|[Hh Hs]].
    + split_and!; [done..| |].
      * destruct (canon_index g !! block_hash blk) eqn:E; [|done]. destruct Hnew. left. eauto.
      * destruct Hpk as [?|Hpk]; [by left|right]. unfold g'. simpl.
        destruct (decide (block_hash blk = b_parent blk)) as [E|E];
          [by rewrite <- E, lookup_insert_eq; eauto|by rewrite lookup_insert_ne].
    + destruct (co_side _ _ _ Hg _ _ Hs) as (H1 & H2 & H3 & H4 & H5). split_and!; [done..|].
      destruct H5 as [?|H5]; [by left|right]. unfold g'. simpl.
      destruct (decide (block_hash blk = b_parent b)) as [E|E];
        [by rewrite <- E, lookup_insert_eq; eauto|by rewrite lookup_insert_ne].
  - intros h Hk Hhr. destruct (decide (h = block_hash blk)) as [->|E]; [set_solver|].
    assert (known g h) as Hk'.
    { destruct Hk as [Hk|Hk]; [by left|right]. unfold g' in Hk. simpl in Hk.
      by rewrite lookup_insert_ne in Hk. }
    pose proof (co_seen _ _ _ Hg h Hk' Hhr). set_solver.
  - intros Hw b Hb' Hbn. rewrite lookup_insert_ne in Hw by done.
    apply Hholds in Hb' as [Hh| ->]; [by apply (work_added N root)|].
    rewrite lookup_insert_eq, Hcw. rewrite lookup_insert_ne; [done|].
    intros E. apply Hnew. by rewrite E.
  - apply (co_accounts _ _ _ Hg).
  - apply (replay_added N root g _ blk bs st Hg Hholds); [|done]. split_and!; [done| |by rewrite last_snoc].
    destruct Hanc as (_ & Hf & _). apply Forall_app_2; [|apply Forall_singleton, Hholds; by right].
    eapply Forall_impl; [exact Hf|]. intros x Hx. apply Hholds. by left.
  - apply (co_db _ _ _ Hg).
Qed.

(** What [lane_b] does: the block is recorded; with strictly more work than the
    tip the chain moves to it, unless the database refuses the batch. *)
Lemma lane_b_spec g blk cw tip_cw bs p st :
  chain_ok g → block_ok blk → ¬ known g (block_hash blk) → block_hash blk ≠ root →
  0 < b_number blk → holds g p → b_parent blk = block_hash p →
  ancestry g bs p → replay_blocks empty_exec (bs ++ [blk]) = Ok st →
  cw = wadd128 (default 0 (cumulative_work g !! b_parent blk)) (b_difficulty blk) →
  let recorded d := set_side_blocks (<[block_hash blk := blk]> (side_blocks g))
    (set_seen_blocks ({[ block_hash blk ]} ∪ seen_blocks g)
      (set_work (<[block_hash blk := cw]> (cumulative_work g)) (set_db d g))) in
  ∃ g' r i, lane_b g blk cw tip_cw = Done (g', r, i) ∧ chain_ok g' ∧
    ((∃ e, r = Rejected (SidePersistenceFailed e) ∧ i = false ∧ g' = set_db (db g') g) ∨
     (r = SideChain (b_number blk) ∧ i = true ∧ g' = recorded (db g') ∧
        (tip_cw < cw → ∃ d ops, snd (db_apply_batch d ops) = false)) ∨
     (∃ rec d, tip_cw < cw ∧ chain_ok (recorded d) ∧ r = CanonExtension (b_number blk) ∧ i = true ∧
        reorganised (recorded d) g' blk rec ∧ pending_reorg_recovery g' = Some rec)).
Proof.
  intros Hg Hb Hnew Hnr Hn Hp Hpar Hanc Hr Hcw recorded. unfold lane_b.
  destruct (store_block blk g) as [g1 r1] eqn:E1.
  assert (block_hash blk ∉ block_hash <$> blocks g) as Hnot.
  { intros (x & E & Hx)%list_elem_of_fmap. apply Hnew. rewrite E.
    eapply holds_known; [done|by left]. }
  assert (db_only (λ c, mirrors c (blocks g)) (store_block blk)) as Hdo.
  { apply db_only_put, mirrors_ignores; [|intros; apply block_height_ne|apply block_meta_ne|apply block_meta_ne].
    intros b Hin E%block_key_inj. apply Hnot. rewrite E. apply list_elem_of_fmap. eauto. }
  destruct (chain_ok_db_only _ _ _ _ Hg Hdo E1) as [Hg1 Eg1].
  destruct r1 as [[]|e].
  2:{ eexists _, _, _. split; [reflexivity|]. split; [done|]. left. eauto. }
  set (g2 := set_side_blocks _ _).
  assert (g2 = recorded (db g1)) as Eg2 by (unfold g2; rewrite Eg1; by destruct g).
  assert (chain_ok g2) as Hg2.
  { rewrite Eg2. unfold recorded.
    assert (set_db (db g1) g = g1) as E by done.
    apply (side_chain_ok (set_db (db g1) g) blk cw bs p st); try done. by rewrite E. }
  destruct (Z.ltb_spec tip_cw cw) as [Hlt|Hge].
  2:{ eexists _, _, _. split; [reflexivity|]. split; [done|]. right. left.
      split_and!; [done|done| |intros; lia]. rewrite Eg2. by destruct g. }
  destruct (try_reorg_spec _ _ g2 blk Hg2) as (g3 & r3 & Ht & Hg3 & Hrec).
  { unfold g2. simpl. by rewrite lookup_insert_eq. }
  rewrite Ht. cbn [mbind run_bind]. destruct r3 as [rec|].
  - eexists _, _, _. split; [reflexivity|]. split; [by destruct Hg3|]. right. right.
    exists rec, (db g1). split_and!; [done| |done..| |done]; rewrite <- Eg2; [done|].
    destruct Hrec. by split.
  - destruct Hrec as [E3 Hbatch]. eexists _, _, _. split; [reflexivity|]. split; [done|].
    right. left. split_and!; [done|done| |].
    + rewrite E3, Eg2. by destruct g.
    + intros _. destruct Hbatch as [ops Ho]. by exists (db g2), ops.
Qed.


(** ** The consensus rules *)

(** Everything a non-genesis block must satisfy in state [g] when the clock
    reads [now]; [st] is the account state after it. *)
Record consensus_valid (g : ChainState) (now : Z) (blk parent : Block) (st : TxExecutionState)
    : Prop := {
  cv_number : b_number blk ≠ 0;
  cv_weight : b_weight blk ≤ BLOCK_WEIGHT_LIMIT;
  cv_tx_root : bh_tx_root (b_header blk) = compute_tx_root blk;
  cv_coinbase : ∃ cb rest, b_txs blk = cb :: rest ∧ tx_module cb = "coinbase" ∧
    tx_method cb = "reward" ∧ length (tx_args cb) = 8%nat ∧ be_val (tx_args cb) = b_number blk;
  cv_new : block_hash blk ∉ seen_blocks g;
  cv_parent : holds g parent ∧ b_parent blk = block_hash parent;
  cv_time : b_timestamp parent < b_timestamp blk ≤ wadd64 now MAX_FUTURE_TIMESTAMP_SECS;
  cv_difficulty : DIFFICULTY_FLOOR ≤ b_difficulty blk ∧ b_difficulty blk =
    calculate_next_difficulty (collect_ancestor_window g (b_parent blk)) (b_timestamp blk);
  cv_pow : pow_valid params blk;
  cv_distinct : NoDup (map canonical_tx_id (b_txs blk));
  cv_state : ∃ bs st0, ancestry g bs parent ∧ replay_blocks empty_exec bs = Ok st0 ∧
    replay_block st0 blk = Ok st
}.

Lemma check_duplicate_txs_Ok seen txs :
  check_duplicate_txs seen txs = Ok () ↔
  NoDup (map canonical_tx_id txs) ∧ ∀ tx, tx ∈ txs → canonical_tx_id tx ∉ seen.
Proof.
  revert seen. induction txs as [|tx txs IH]; intros seen; cbn [check_duplicate_txs map].
  { split; [|done]. intros _. split; [constructor|by intros ? ?%elem_of_nil]. }
  rewrite NoDup_cons. case_bool_decide as Hin.
  - split; [done|]. intros [_ H]. destruct (H tx); [by left|done].
  - rewrite IH. split.
    + intros [H1 H2]. split_and!; [|done|].
      * intros (x & E & Hx)%list_elem_of_fmap. specialize (H2 x Hx). set_solver.
      * intros x [->|Hx]%elem_of_cons; [done|]. specialize (H2 x Hx). set_solver.
    + intros [[H0 H1] H2]. split; [done|]. intros x Hx.
      rewrite elem_of_union, elem_of_singleton. intros [E|E].
      * apply H0. rewrite <- E. by apply list_elem_of_fmap_2.
      * apply (H2 x); [by right|done].
Qed.

(** Stages 1 and 6a, together. *)
Lemma check_structure_Ok g blk : b_number blk ≠ 0 → block_wf blk ∧ 0 ≤ b_number blk →
  check_structure g blk = Ok () ↔
  b_weight blk ≤ BLOCK_WEIGHT_LIMIT ∧ bh_tx_root (b_header blk) = compute_tx_root blk ∧
  (∃ cb rest, b_txs blk = cb :: rest ∧ tx_module cb = "coinbase" ∧ tx_method cb = "reward") ∧
  block_hash blk ∉ seen_blocks g.
Proof.
  intros Hn [_ H0]. unfold check_structure.
  destruct (Z.ltb_spec BLOCK_WEIGHT_LIMIT (b_weight blk)); [split; [done|lia]|].
  case_bool_decide as Ht; cbn [negb]; [|naive_solver].
  rewrite (proj2 (Z.ltb_lt 0 _)) by lia.
  destruct (b_txs blk) as [|cb rest]; cbn [mbind result_bind].
  { split; [done|]. by intros (_ & _ & (? & ? & ? & _) & _). }
  destruct (decide (tx_module cb = "coinbase")) as [H1|H1].
  2:{ rewrite (bool_decide_false _ H1). cbn. split; [done|].
      intros (_ & _ & (? & ? & [= <- <-] & ? & ?) & _). congruence. }
  destruct (decide (tx_method cb = "reward")) as [H2|H2].
  2:{ rewrite (bool_decide_true _ H1), (bool_decide_false _ H2). cbn. split; [done|].
      intros (_ & _ & (? & ? & [= <- <-] & ? & ?) & _). congruence. }
  rewrite (bool_decide_true _ H1), (bool_decide_true _ H2). cbn.
  case_bool_decide; split; try done; [naive_solver|].
  intros _. split_and!; try done. eauto.
Qed.

Lemma check_coinbase_height_spec blk cb rest :
  0 < b_number blk → b_txs blk = cb :: rest →
  ∃ r, check_coinbase_height blk = Done r ∧
    (r = Ok () ↔ length (tx_args cb) = 8%nat ∧ be_val (tx_args cb) = b_number blk).
Proof.
  intros Hn Ht. unfold check_coinbase_height. rewrite (proj2 (Z.ltb_lt 0 _)) by lia. rewrite Ht.
  eexists. split; [reflexivity|]. cbn.
  case_bool_decide; cbn [negb]; [|naive_solver].
  destruct (Z.eqb_spec (be_val (tx_args cb)) (b_number blk)); cbn [negb]; naive_solver.
Qed.

(** Stages 3 to 6 decide exactly the consensus rules, do not depend on the
    caches, and leave the chain alone; a block that passes goes to its lane. *)
Lemma apply_with_parent_spec n blk parent tip_cw cw :
  let g := n_chain n in
  let now := clock (n_ticks n) in
  chain_ok g → cache_ok (n_datasets n) → epoch_blocks params ≠ 0 → block_wf blk →
  0 < b_number blk → check_structure g blk = Ok () →
  holds g parent → b_parent blk = block_hash parent →
  (∃ e n', apply_with_parent params clock n blk parent tip_cw cw = Done (n', Rejected e, false) ∧
     n_chain n' = g ∧ cache_ok (n_datasets n') ∧ ¬ ∃ st, consensus_valid g now blk parent st) ∨
  (∃ st0 st n1, consensus_valid g now blk parent st0 ∧ st0 ≡ st ∧ n_chain n1 = g ∧ cache_ok (n_datasets n1) ∧
     apply_with_parent params clock n blk parent tip_cw cw =
     ('(g', r, i) ← (if bool_decide (b_parent blk = tip_hash g) then Done (lane_a g blk st cw)
                     else lane_b g blk cw tip_cw);
      Done (set_chain g' n1, r, i))).
Proof.
  intros g now Hg Hc He Hwf Hn Hs Hp Hpar.
  remember (apply_with_parent params clock n blk parent tip_cw cw) as R eqn:HR.
  unfold apply_with_parent in HR.
  apply check_structure_Ok in Hs as (Hw & Ht & (cb & rest & Htx & Hcm & Hcme) & Hnew); [|lia|auto with lia].
  unfold check_monotonic in HR. destruct (Z.leb_spec (b_timestamp blk) (b_timestamp parent)).
  { left. eexists _, n. split_and!; [exact HR|done..|]. intros [st []]. lia. }
  cbn [read_clock] in HR. fold now g in HR. cbv zeta in HR. cbn [n_datasets n_pow n_ticks] in HR.
  destruct (check_future blk now) as [[]|e] eqn:Ef; cbn [mbind result_bind] in HR.
  2:{ left. eexists _, _. split_and!; [exact HR|done..|]. intros [st []]. unfold check_future in Ef.
      destruct (Z.ltb_spec (wadd64 now MAX_FUTURE_TIMESTAMP_SECS) (b_timestamp blk)); [lia|done]. }
  assert (b_timestamp blk ≤ wadd64 now MAX_FUTURE_TIMESTAMP_SECS) as Hfut.
  { unfold check_future in Ef.
    destruct (Z.ltb_spec (wadd64 now MAX_FUTURE_TIMESTAMP_SECS) (b_timestamp blk)); [done|lia]. }
  clear Ef. unfold check_difficulty in HR. cbv zeta in HR.
  set (d := calculate_next_difficulty _ _) in HR.
  destruct (Z.ltb_spec (b_difficulty blk) DIFFICULTY_FLOOR).
  { left. eexists _, _. split_and!; [exact HR|done..|]. intros [st []]. lia. }
  destruct (Z.eqb_spec (b_difficulty blk) d) as [Hd|Hd]; cbn [negb] in HR.
  2:{ left. eexists _, _. split_and!; [exact HR|done..|]. intros [st []]. unfold d in Hd. tauto. }
  destruct (verify_visionx_pow_spec params (n_datasets n) blk Hc He) as (c' & Hv & Hc').
  rewrite Hv in HR. cbn [mbind run_bind] in HR.
  destruct (pow_check params blk) as [[]|e] eqn:Epow.
  2:{ left. eexists _, _. split_and!; [exact HR|done..|]. intros [st []]. unfold pow_valid in *. congruence. }
  destruct (check_coinbase_height_spec blk cb rest Hn Htx) as (rc & Ecb & Hrc).
  rewrite Ecb in HR. cbn [mbind run_bind] in HR.
  destruct rc as [[]|e]; cbn [mbind result_bind] in HR.
  2:{ left. eexists _, _. split_and!; [exact HR|done..|]. intros [st []].
      destruct cv_coinbase0 as (cb' & rest' & E & _ & _ & ? & ?). rewrite Htx in E. simplify_eq.
      assert (@Err RejectReason () e = Ok ()); [by apply Hrc|done]. }
  destruct (check_duplicate_txs ∅ (b_txs blk)) as [[]|e] eqn:Edup.
  2:{ left. eexists _, _. split_and!; [exact HR|done..|]. intros [st []].
      assert (check_duplicate_txs ∅ (b_txs blk) = Ok ()); [|congruence].
      apply check_duplicate_txs_Ok. split; [done|]. set_solver. }
  apply check_duplicate_txs_Ok in Edup as [Hnd _].
  destruct (parent_state_spec g parent Hg Hp) as (bs & st0 & st1 & Hps & Hanc & Hr0 & Heq).
  rewrite <- Hpar in Hps. rewrite Hps in HR. cbn [mbind run_bind map_err result_bind] in HR.
  pose proof (execute_block_equiv blk _ _ Heq) as Hex.
  destruct (execute_block st0 blk) as [st|e] eqn:Ex, (execute_block st1 blk) as [st'|e'] eqn:Ex'; try done.
  - right. exists st, st'. apply execute_block_replay in Ex; [|lia].
    eexists. split; [|split; [exact Hex|split; [|split; [|exact HR]]]]; [|done..].
    destruct Hrc as [Hrc _]. specialize (Hrc eq_refl) as [Hl Hbe].
    split; [lia|..]; try done; try tauto; eauto 10.
  - left. eexists _, _. split_and!; [exact HR|done..|]. intros [st []].
    destruct cv_state0 as (bs' & s' & Ha' & Hr' & Hrp).
    rewrite (ancestry_inj _ _ _ _ _ _ Hg Ha' Hanc) in Hr'. assert (s' = st0) as -> by congruence.
    apply execute_block_replay in Hrp; [congruence|lia].
Qed.


(** ** One block: outcomes and consistency *)

(** What is assumed of a block handed to the node: machine widths; if its proof
    of work is valid, a height consistent with the numbering; and, if it
    claims to be the genesis block, no transactions. *)
Record admissible (b : Block) : Prop := {
  ad_wf : block_wf b;
  ad_number : pow_valid params b → b_number b ≠ 0 →
    N (block_hash b) = b_number b ∧ N (b_parent b) = b_number b - 1 ∧ b_number b < U64_MAX;
  ad_genesis : b_number b = 0 → block_hash b = root → b_txs b = []
}.

(** The orphan pool is bounded and files every admissible orphan under its
    parent. *)
Record orphans_ok (g : ChainState) : Prop := {
  oo_entry k e : entry_of (orphan_pool g) k e →
    b_parent e.1.1 = k ∧ admissible e.1.1 ∧ b_number e.1.1 ≠ 0;
  oo_bound : pool_total (orphan_pool g) ≤ ORPHAN_POOL_MAX
}.

Record node_ok (n : Node) : Prop := {
  no_chain : chain_ok (n_chain n);
  no_cache : cache_ok (n_datasets n);
  no_orphans : orphans_ok (n_chain n)
}.

Definition tip_work (g : ChainState) : Z := default 0 (cumulative_work g !! tip_hash g).
Definition candidate_work (g : ChainState) (blk : Block) : Z :=
  wadd128 (default 0 (cumulative_work g !! b_parent blk)) (b_difficulty blk).
(** The state with [blk] recorded as a side block. *)
Definition recorded (g : ChainState) (blk : Block) (d : Db) : ChainState :=
  set_side_blocks (<[block_hash blk := blk]> (side_blocks g))
    (set_seen_blocks ({[ block_hash blk ]} ∪ seen_blocks g)
      (set_work (<[block_hash blk := candidate_work g blk]> (cumulative_work g)) (set_db d g))).

(** The possible outcomes of one block, before orphans are promoted; the flag
    says whether they will be. *)
Inductive core_outcome (n : Node) (blk : Block) (n' : Node) : AcceptResult → bool → Prop :=
| oc_rejected e :
    n_chain n' = set_db (db (n_chain n')) (n_chain n) →
    core_outcome n blk n' (Rejected e) false
| oc_genesis :
    b_number blk = 0 → block_hash blk = root → blocks (n_chain n) = [] →
    n_chain n' = set_db (db (n_chain n')) (push_canonical (n_chain n) blk (b_difficulty blk)) →
    core_outcome n blk n' (CanonExtension 0) false
| oc_orphan peer now :
    ¬ known (n_chain n) (b_parent blk) → n_chain n' = add_orphan (n_chain n) blk peer now →
    core_outcome n blk n' (StoredOrphan (block_hash blk)) false
| oc_extension parent st0 st :
    consensus_valid (n_chain n) (clock (n_ticks n)) blk parent st0 → st0 ≡ st →
    b_parent blk = tip_hash (n_chain n) →
    n_chain n' = set_db (db (n_chain n'))
      (push_canonical (set_accounts (es_balances st) (es_nonces st) (n_chain n)) blk
        (candidate_work (n_chain n) blk)) →
    core_outcome n blk n' (CanonExtension (b_number blk)) true
| oc_side parent st :
    consensus_valid (n_chain n) (clock (n_ticks n)) blk parent st →
    b_parent blk ≠ tip_hash (n_chain n) →
    n_chain n' = recorded (n_chain n) blk (db (n_chain n')) →
    (tip_work (n_chain n) < candidate_work (n_chain n) blk →
       ∃ d ops, snd (db_apply_batch d ops) = false) →
    core_outcome n blk n' (SideChain (b_number blk)) true
| oc_reorg parent st rec d :
    consensus_valid (n_chain n) (clock (n_ticks n)) blk parent st →
    b_parent blk ≠ tip_hash (n_chain n) →
    tip_work (n_chain n) < candidate_work (n_chain n) blk →
    chain_ok (recorded (n_chain n) blk d) →
    reorganised (recorded (n_chain n) blk d) (n_chain n') blk rec →
    pending_reorg_recovery (n_chain n') = Some rec →
    core_outcome n blk n' (CanonExtension (b_number blk)) true.

Context (HN : N root = 0) (Hep : epoch_blocks params ≠ 0).

(** A block that passes the rules respects the numbering and is new. *)
Lemma consensus_valid_ok g now blk parent st :
  chain_ok g → admissible blk → b_number blk ≠ 0 → consensus_valid g now blk parent st →
  block_ok blk ∧ block_hash blk ≠ root ∧ ¬ known g (block_hash blk) ∧ 0 < b_number blk.
Proof.
  intros Hg Ha Hn Hv. destruct (ad_number _ Ha (cv_pow _ _ _ _ _ Hv) Hn) as (H1 & H2 & H3).
  pose proof (ad_wf _ Ha) as Hwf. pose proof Hwf as ([Hu _] & _ & _). unfold u64 in Hu.
  fold (b_number blk) in Hu.
  assert (block_hash blk ≠ root) as Hr by (intros E; rewrite E in H1; lia).
  split_and!; [|done| |lia].
  - split; [done|done|lia|done|]. split; [done|]. exact (pow_valid_hash params blk (cv_pow _ _ _ _ _ Hv)).
  - intros Hk. by apply (cv_new _ _ _ _ _ Hv), (co_seen _ _ _ Hg).
Qed.

Lemma orphans_ok_pool g g' : orphans_ok g → orphan_pool g' = orphan_pool g → orphans_ok g'.
Proof. intros [H1 H2] E. split; rewrite E; done. Qed.

Lemma genesis_chain_ok g blk g' r :
  chain_ok g → admissible blk → b_number blk = 0 → apply_genesis g blk = (g', r) →
  chain_ok g' ∧ orphan_pool g' = orphan_pool g ∧
  ((∃ e, r = Rejected e ∧ g' = set_db (db g') g) ∨
   r = CanonExtension 0 ∧ block_hash blk = root ∧ blocks g = [] ∧
   g' = set_db (db g') (push_canonical g blk (b_difficulty blk))).
Proof.
  intros Hg Ha Hn E. unfold apply_genesis in E. case_bool_decide as Hh; cbn [negb] in E.
  2:{ injection E as <- <-. rewrite set_db_id. eauto 10. }
  case_bool_decide as Hb; cbn [negb] in E.
  2:{ injection E as <- <-. rewrite set_db_id. eauto 10. }
  assert (canonical root (blocks g ++ [blk])) as Hc.
  { rewrite Hb. apply canonical_app; [apply canonical_nil|done|done|apply not_elem_of_nil]. }
  destruct (persist_canonical_extension blk g) as [g1 [[]|e]] eqn:E1; injection E as <- <-.
  - apply db_batch_Ok in E1 as [Ec Eg].
    assert (block_ok blk) as Hok.
    { split; [by rewrite Hh, Hn|done|rewrite Hn; unfold U64_MAX; lia|done|].
      split; [apply (ad_wf _ Ha)|]. by rewrite Hh. }
    assert (mirrors (db_contents (db g1)) (blocks g ++ [blk])) as Hm.
    { rewrite Ec. eapply extension_mirrors; [apply (co_db _ _ _ Hg)|exact Hc]. }
    assert (¬ known g (block_hash blk)) as Hnew.
    { intros Hk. by apply (known_nonempty _ _ Hg Hk). }
    destruct (co_accounts _ _ _ Hg) as (st0 & Hr0 & Hst0).
    assert (replay_blocks empty_exec (blocks g ++ [blk]) = Ok st0) as Hr.
    { apply replay_blocks_app. exists st0. split; [done|]. cbn [replay_blocks].
      unfold replay_block. by rewrite (ad_genesis _ Ha Hn Hh), Hn. }
    pose proof (push_chain_ok g blk (b_difficulty blk) _ _ (db g1) Hg Hok Hnew Hc
      (λ H, False_ind _ (H Hn)) Hr Hst0 (λ H, False_ind _ (H Hn)) Hm (λ H, False_ind _ (H Hn))) as Hpush.
    assert (push_canonical (set_accounts (balances g) (nonces g) (set_db (db g1) g)) blk (b_difficulty blk)
      = push_canonical g1 blk (b_difficulty blk)) as Epush by (rewrite Eg; by destruct g).
    cbn [es_balances es_nonces] in Hpush. rewrite Epush in Hpush.
    split; [exact Hpush|]. split; [by rewrite Eg|]. right. split_and!; [done..|].
    rewrite Eg. by destruct g.
  - apply db_batch_Err in E1 as [Ec Eg]. split; [|split; [by rewrite Eg|left; eauto]].
    rewrite Eg. apply chain_ok_set_db; [done|]. rewrite Ec. apply (co_db _ _ _ Hg).
Qed.


Lemma chain_ok_set_orphans g p h : chain_ok g → chain_ok (set_orphans p h g).
Proof. intros []. by split. Qed.
Lemma chain_ok_pending g x : chain_ok g → chain_ok (set_pending x g).
Proof. intros []. by split. Qed.

(** A chain with the orphan pool of another. *)
Lemma node_ok_chain g g' n1 : orphans_ok g → chain_ok g' → cache_ok (n_datasets n1) →
  orphan_pool g' = orphan_pool g → node_ok (set_chain g' n1).
Proof. intros Ho Hg Hc Hp. split; cbn [set_chain n_chain n_datasets]; [done..|]. by eapply orphans_ok_pool. Qed.
(** A block stored as an orphan. *)
Lemma node_ok_orphan n blk peer now : node_ok n → admissible blk → b_number blk ≠ 0 →
  let n' := set_chain (add_orphan (n_chain n) blk peer now) n in
  node_ok n'.
Proof.
  intros [Hg Hc Ho] Ha Hnz. pose proof (add_orphan_state (n_chain n) blk peer now) as E.
  split; cbn [set_chain n_chain n_datasets]; [|done|].
  - rewrite E. by apply chain_ok_set_orphans.
  - split.
    + intros k e He. apply add_orphan_entries in He as [[-> ->]|He]; [done|exact (oo_entry _ Ho k e He)].
    + apply orphan_pool_le, (oo_bound _ Ho).
Qed.

(** A block that passed the stages goes to its lane; [n1] is the node after them. *)
Lemma lanes_refine n n1 blk parent st0 st :
  node_ok n → admissible blk → b_number blk ≠ 0 → known (n_chain n) (b_parent blk) →
  consensus_valid (n_chain n) (clock (n_ticks n)) blk parent st0 → st0 ≡ st →
  n_chain n1 = n_chain n → cache_ok (n_datasets n1) →
  let g := n_chain n in
  ∃ n' r i, ('(g', r, i) ← (if bool_decide (b_parent blk = tip_hash g) then Done (lane_a g blk st (candidate_work g blk))
                            else lane_b g blk (candidate_work g blk) (tip_work g));
             Done (set_chain g' n1, r, i)) = Done (n', r, i) ∧ core_outcome n blk n' r i ∧ node_ok n'.
Proof.
  intros [Hg _ Ho] Ha Hnz Hk Hv Heq Hn1 Hc1 g. fold g in Hg, Ho, Hv, Hk, Hn1.
  destruct (cv_parent _ _ _ _ _ Hv) as [Hhp Hph].
  destruct (consensus_valid_ok _ _ _ _ _ Hg Ha Hnz Hv) as (Hbo & Hnr & Hnew & Hpos).
  destruct (cv_state _ _ _ _ _ Hv) as (bs & s0 & Hanc & Hr0 & Hr).
  assert (replay_blocks empty_exec (bs ++ [blk]) = Ok st0) as Hrb.
  { apply replay_blocks_app. exists s0. split; [done|]. cbn [replay_blocks]. by rewrite Hr. }
  case_bool_decide as Htip; cbn [mbind run_bind].
  - rewrite (tip_branch g parent bs Hg Hhp ltac:(congruence) Hanc) in Hrb.
    destruct (lane_a_spec g blk st0 st (candidate_work g blk) Hg Hbo Hnew Hnr Hnz Hk Htip Hrb Heq eq_refl)
      as (g' & r & i & -> & Hg' & Hcase). cbn [mbind run_bind].
    eexists _, _, _. split; [reflexivity|].
    destruct Hcase as [(e & -> & -> & E)|(-> & -> & E)];
      (split; [by econstructor|apply (node_ok_chain g); [done..|by rewrite E]]).
  - destruct (lane_b_spec g blk (candidate_work g blk) (tip_work g) bs parent st0 Hg Hbo Hnew Hnr Hpos
      Hhp Hph Hanc Hrb eq_refl) as (g' & r & i & -> & Hg' & Hcase). cbn [mbind run_bind].
    eexists _, _, _. split; [reflexivity|].
    destruct Hcase as [(e & -> & -> & E)|[(-> & -> & E & Hb)|(rec & d & Hlt & Hrd & -> & -> & Hro & Hpend)]];
      (split; [by econstructor|apply (node_ok_chain g); [done..|]]); [by rewrite E..|].
    by destruct (ro_pool _ _ _ _ _ Hro) as [-> _].
Qed.

(** The pipeline never panics and has one of the outcomes, and the node stays
    consistent. *)
Lemma apply_core_refines n blk src :
  node_ok n → admissible blk →
  ∃ n' r i, apply_core params clock n blk src = Done (n', r, i) ∧ core_outcome n blk n' r i ∧
    node_ok n'.
Proof.
  intros Hn Ha. pose proof Hn as [Hg Hc Ho]. unfold apply_core.
  set (n0 := mkNode (n_chain n) _ (n_datasets n) (n_ticks n)).
  assert (node_ok n0) as Hn0 by (by split).
  change (n_chain n0) with (n_chain n). set (g := n_chain n) in *.
  destruct (check_structure g blk) as [[]|e] eqn:Es.
  2:{ exists n0, (Rejected e), false. split_and!; [done|constructor; by rewrite set_db_id|done]. }
  destruct (Z.eqb_spec (b_number blk) 0) as [Hz|Hnz].
  { destruct (apply_genesis g blk) as [g' r] eqn:Eg.
    destruct (genesis_chain_ok _ _ _ _ Hg Ha Hz Eg) as (Hg' & Hp & Hcase).
    exists (set_chain g' n0), r, false. split; [done|]. split; [|by apply (node_ok_chain g)].
    destruct Hcase as [(e & -> & E)|(-> & Hh & Hb & E)]; by constructor. }
  destruct (decide (known g (b_parent blk))) as [Hk|Hk].
  2:{ rewrite !bool_decide_false by (unfold known in Hk; tauto). cbn [negb andb read_clock].
      eexists _, _, _. split; [reflexivity|]. split; [by econstructor|].
      apply (node_ok_orphan (mkNode g (n_pow n0) (n_datasets n) (S (n_ticks n)))); [by split|done..]. }
  assert (negb (bool_decide (is_Some (canon_index g !! b_parent blk))) &&
          negb (bool_decide (is_Some (side_blocks g !! b_parent blk))) = false) as ->.
  { destruct Hk as [Hk|Hk]; rewrite (bool_decide_true _ Hk); [done|by rewrite andb_false_r]. }
  destruct (resolve_block_known g _ Hg Hk) as [parent Hpar]. rewrite Hpar.
  destruct (resolve_block_holds _ _ _ Hg Hpar) as [Hhp Hph].
  pose proof (ad_wf _ Ha) as Hwf. pose proof Hwf as ([Hu _] & _). unfold u64 in Hu.
  fold (b_number blk) in Hu.
  destruct (apply_with_parent_spec n0 blk parent
    (default 0 (cumulative_work g !! tip_hash g)) (wadd128 (default 0 (cumulative_work g !! b_parent blk)) (b_difficulty blk))
    Hg Hc Hep Hwf ltac:(lia) Es Hhp (eq_sym Hph))
    as [(e & n' & -> & Hn' & Hc' & _)|(st & st' & n1 & Hv & Heq & Hn1 & Hc1 & ->)].
  - change (n_chain n0) with g in Hn'. exists n', (Rejected e), false. split_and!; [done| |].
    + constructor. rewrite Hn'. symmetry. apply set_db_id.
    + split; rewrite ?Hn'; done.
  - exact (lanes_refine n n1 blk parent st st' Hn Ha Hnz Hk Hv Heq Hn1 Hc1).
Qed.


(** ** The promotion of orphans ends *)
Lemma known_set_db g d h : known (set_db d g) h ↔ known g h.
Proof. done. Qed.

Lemma known_push g blk cw st h :
  known g h → known (push_canonical (set_accounts (es_balances st) (es_nonces st) g) blk cw) h.
Proof.
  intros [Hk|Hk]; [left|by right]. simpl. destruct (decide (block_hash blk = h)) as [->|E];
    [by rewrite lookup_insert_eq|by rewrite lookup_insert_ne].
Qed.
Lemma known_recorded g blk d h : known g h → known (recorded g blk d) h.
Proof.
  intros [Hk|Hk]; [by left|right]. simpl. destruct (decide (block_hash blk = h)) as [->|E];
    [by rewrite lookup_insert_eq|by rewrite lookup_insert_ne].
Qed.

(** An outcome forgets no hash; an integrated block is known afterwards and
    the pool is untouched; the pool only grows by a stored orphan. *)
Lemma core_outcome_effects n blk n' r i :
  core_outcome n blk n' r i →
  (∀ h, known (n_chain n) h → known (n_chain n') h) ∧
  (i = true → known (n_chain n') (block_hash blk)) ∧
  (orphan_pool (n_chain n') = orphan_pool (n_chain n) ∨
   ¬ known (n_chain n) (b_parent blk) ∧ i = false).
Proof.
  destruct 1 as [e E|Hn Hh Hb E|peer now Hk E|parent st0 st Hv Heq Hp E|parent st Hv Hp E Hd|parent st rec d Hv Hp Hlt Hrd Hro Hpend].
  - rewrite E. split_and!; [done|done|by left].
  - rewrite E. split_and!; [|done|by left]. intros h Hk. rewrite known_set_db.
    assert (push_canonical (n_chain n) blk (b_difficulty blk) =
      push_canonical (set_accounts (es_balances (mkExec (balances (n_chain n)) (nonces (n_chain n))))
        (es_nonces (mkExec (balances (n_chain n)) (nonces (n_chain n)))) (n_chain n)) blk (b_difficulty blk))
      as -> by (by destruct (n_chain n)).
    by apply known_push.
  - rewrite E, add_orphan_state. split_and!; [done|done|by right].
  - rewrite E. split_and!; [|intros _; left; simpl; by rewrite lookup_insert_eq|by left].
    intros h Hk. rewrite known_set_db. by apply known_push.
  - rewrite E. split_and!; [intros h; apply known_recorded| |by left].
    intros _. right. simpl. by rewrite lookup_insert_eq.
  - split_and!.
    + intros h Hk. by apply (ro_known _ _ _ _ _ Hro), known_recorded.
    + intros _. apply (ro_known _ _ _ _ _ Hro). right. simpl. by rewrite lookup_insert_eq.
    + left. by destruct (ro_pool _ _ _ _ _ Hro) as [-> _].
Qed.

(** What a run of [apply_block] guarantees. *)
Definition apply_post (n : Node) (blk : Block) (n' : Node) : Prop :=
  node_ok n' ∧ (∀ h, known (n_chain n) h → known (n_chain n') h) ∧
  (known (n_chain n) (b_parent blk) →
     pool_total (orphan_pool (n_chain n')) ≤ pool_total (orphan_pool (n_chain n))).

Lemma node_ok_orphans n p h :
  node_ok n → (∀ k e, entry_of p k e → entry_of (orphan_pool (n_chain n)) k e) →
  pool_total p ≤ pool_total (orphan_pool (n_chain n)) →
  node_ok (set_chain (set_orphans p h (n_chain n)) n).
Proof.
  intros [Hg Hc Ho] Hsub Hle. split; cbn [set_chain n_chain n_datasets]; [by apply chain_ok_set_orphans|done|].
  split; simpl.
  - intros k e He. by apply (oo_entry _ Ho), Hsub.
  - pose proof (oo_bound _ Ho). lia.
Qed.

Lemma promote_waiting_total f waiting n k :
  (∀ n blk src, node_ok n → admissible blk → pool_total (orphan_pool (n_chain n)) < Z.of_nat f →
     ∃ n' r, apply_fuel params clock f n blk src = Done (n', r) ∧ apply_post n blk n') →
  node_ok n →
  (∀ e, e ∈ waiting → admissible e.1.1 ∧ known (n_chain n) (b_parent e.1.1)) →
  (waiting ≠ [] → pool_total (orphan_pool (n_chain n)) < Z.of_nat f) →
  ∃ n' k', promote_waiting (apply_fuel params clock f) n k waiting = Done (n', k') ∧ node_ok n' ∧
    (∀ h, known (n_chain n) h → known (n_chain n') h) ∧
    pool_total (orphan_pool (n_chain n')) ≤ pool_total (orphan_pool (n_chain n)).
Proof.
  intros IHf. revert n k. induction waiting as [|[[b ts] peer] waiting IH]; intros n k Hn Hw Hf.
  { exists n, k. split_and!; done. }
  cbn [promote_waiting]. set (n1 := set_chain _ n).
  destruct (Hw (b, ts, peer)) as [Ha Hkp]; [by left|]. simpl in Ha, Hkp.
  assert (node_ok n1) as Hn1 by (by apply node_ok_orphans).
  destruct (IHf n1 b (Some peer) Hn1 Ha) as (n2 & r & -> & Hn2 & Hk2 & Hp2);
    [by apply Hf|]. cbn [mbind run_bind].
  specialize (Hp2 Hkp). change (orphan_pool (n_chain n1)) with (orphan_pool (n_chain n)) in Hp2.
  destruct (IH n2 (if is_accepted r then k + 1 else k) Hn2) as (n3 & k3 & -> & Hn3 & Hk3 & Hp3).
  - intros e He. destruct (Hw e) as [? ?]; [by right|]. split; [done|]. by apply Hk2.
  - intros _. specialize (Hf ltac:(done)). lia.
  - exists n3, k3. split_and!; [done|done| |lia]. intros h Hh. by apply Hk3, Hk2.
Qed.

Lemma process_orphans_total f n h :
  (∀ n blk src, node_ok n → admissible blk → pool_total (orphan_pool (n_chain n)) < Z.of_nat f →
     ∃ n' r, apply_fuel params clock f n blk src = Done (n', r) ∧ apply_post n blk n') →
  node_ok n → known (n_chain n) h → pool_total (orphan_pool (n_chain n)) ≤ Z.of_nat f →
  ∃ n' k, process_orphans (apply_fuel params clock f) n h = Done (n', k) ∧ node_ok n' ∧
    (∀ h, known (n_chain n) h → known (n_chain n') h) ∧
    pool_total (orphan_pool (n_chain n')) ≤ pool_total (orphan_pool (n_chain n)).
Proof.
  intros IHf Hn Hk Hf. unfold process_orphans.
  destruct (orphan_pool (n_chain n) !! h) as [waiting|] eqn:E; [|exists n, 0; split_and!; done].
  pose proof (pool_total_delete _ _ _ E) as Ht.
  assert (node_ok (set_chain (set_orphans (delete h (orphan_pool (n_chain n)))
    (orphan_by_hash (n_chain n)) (n_chain n)) n)) as Hn1.
  { apply node_ok_orphans; [done| |lia]. intros k e (es & Hes & Hin).
    apply lookup_delete_Some in Hes as [_ Hes]. by exists es. }
  destruct (promote_waiting_total f waiting _ 0 IHf Hn1) as (n' & k' & -> & Hn' & Hk' & Hp').
  - intros e He. destruct (oo_entry _ (no_orphans _ Hn) h e) as (Hpe & Hae & _); [by exists waiting|].
    split; [done|]. rewrite Hpe. exact Hk.
  - intros Hne. simpl. rewrite Ht. destruct waiting; [done|]. simpl. lia.
  - exists n', k'. split_and!; [done|done|done|]. simpl in Hp'. lia.
Qed.

Lemma apply_fuel_total f n blk src :
  node_ok n → admissible blk → pool_total (orphan_pool (n_chain n)) < Z.of_nat f →
  ∃ n' r, apply_fuel params clock f n blk src = Done (n', r) ∧ apply_post n blk n'.
Proof.
  revert n blk src. induction f as [|f IH]; intros n blk src Hn Ha Hf.
  { pose proof (pool_total_nonneg (orphan_pool (n_chain n))). lia. }
  cbn [apply_fuel].
  destruct (apply_core_refines n blk src Hn Ha) as (n1 & r & i & -> & Hout & Hn1). cbn [mbind run_bind].
  destruct (core_outcome_effects _ _ _ _ _ Hout) as (Hk1 & Hki & Hp1). destruct i.
  - destruct Hp1 as [Hp1|[_ ?]]; [|done].
    destruct (process_orphans_total f n1 (block_hash blk) IH Hn1 (Hki eq_refl)) as (n2 & k & -> & Hn2 & Hk2 & Hp2);
      [rewrite Hp1; lia|]. cbn [mbind run_bind]. exists n2, r. split; [done|].
    split_and!; [done| |intros _; rewrite <- Hp1; lia]. intros h Hh. by apply Hk2, Hk1.
  - exists n1, r. split; [done|]. split_and!; [done|done|].
    intros Hkn. destruct Hp1 as [->|[Hnk _]]; [lia|done].
Qed.


(** ** Deciding the rules *)
Definition storage_refused : Prop :=
  (∃ d ops, snd (db_apply_batch d ops) = false) ∨ (∃ d k v, snd (db_insert d k v) = false).
Definition storage_failure (r : AcceptResult) : Prop :=
  storage_refused ∧
  ∃ e, r = Rejected (CanonicalPersistenceFailed e) ∨ r = Rejected (SidePersistenceFailed e).

Lemma lane_results g blk st cw tip_cw g' r i :
  (if bool_decide (b_parent blk = tip_hash g) then Done (lane_a g blk st cw)
   else lane_b g blk cw tip_cw) = Done (g', r, i) →
  is_accepted r = true ∨ storage_failure r.
Proof.
  unfold storage_failure, storage_refused. case_bool_decide.
  - intros [= E]. unfold lane_a in E.
    destruct (persist_canonical_extension blk g) as [g1 [[]|e]] eqn:Ep; simplify_eq; [by left|].
    right. split; [|eauto]. left. unfold persist_canonical_extension, db_batch in Ep.
    destruct (db_apply_batch (db g) _) as [d []] eqn:Eb; [done|]. do 2 eexists. by rewrite Eb.
  - unfold lane_b. destruct (store_block blk g) as [g1 [[]|e]] eqn:Ep.
    2:{ intros [= <- <- <-]. right. split; [|eauto]. right. unfold store_block, db_put in Ep.
        destruct (db_insert (db g) _ _) as [d []] eqn:Eb; [done|]. do 3 eexists. by rewrite Eb. }
    destruct (_ <? _); [|intros [= <- <- <-]; by left].
    destruct (try_reorg _ blk) as [[g2 [rec|]]| |]; cbn [mbind run_bind]; try done;
      intros [= <- <- <-]; by left.
Qed.

Lemma apply_core_decides n blk src :
  let g := n_chain n in
  node_ok n → admissible blk → b_number blk ≠ 0 → known g (b_parent blk) →
  ∃ n' r i, apply_core params clock n blk src = Done (n', r, i) ∧ core_outcome n blk n' r i ∧
    (is_accepted r = true → ∃ parent st, consensus_valid g (clock (n_ticks n)) blk parent st) ∧
    (∀ parent st, consensus_valid g (clock (n_ticks n)) blk parent st →
       is_accepted r = true ∨ storage_failure r).
Proof.
  intros g Hn Ha Hnz Hk.
  destruct (apply_core_refines n blk src Hn Ha) as (n' & r & i & E & Hout & _).
  exists n', r, i. split_and!; [done|done| |].
  { destruct Hout; intros; try done; eauto. }
  destruct Hn as [Hg Hc Ho]. fold g in Hg, Ho.
  intros parent st Hv. pose proof (ad_wf _ Ha) as Hwf. pose proof Hwf as ([Hu _] & _). unfold u64 in Hu.
  fold (b_number blk) in Hu.
  unfold apply_core in E. set (n0 := mkNode (n_chain n) _ (n_datasets n) (n_ticks n)) in E.
  change (n_chain n0) with g in E.
  assert (check_structure g blk = Ok ()) as Es.
  { destruct Hv. destruct cv_coinbase0 as (cb & rest & ? & ? & ? & _).
    apply check_structure_Ok; [done|auto with lia|]. eauto 10. }
  rewrite Es, (proj2 (Z.eqb_neq _ _) Hnz) in E.
  assert (negb (bool_decide (is_Some (canon_index g !! b_parent blk))) &&
          negb (bool_decide (is_Some (side_blocks g !! b_parent blk))) = false) as Hkb.
  { destruct Hk as [Hk|Hk]; rewrite (bool_decide_true _ Hk); [done|by rewrite andb_false_r]. }
  rewrite Hkb in E.
  destruct (resolve_block_known g _ Hg Hk) as [parent' Hpar]. rewrite Hpar in E.
  destruct (resolve_block_holds _ _ _ Hg Hpar) as [Hhp Hph].
  assert (parent = parent') as <-.
  { destruct (cv_parent _ _ _ _ _ Hv) as [Hh He]. apply (holds_inj N root g); try done. congruence. }
  destruct (apply_with_parent_spec n0 blk parent
    (default 0 (cumulative_work g !! tip_hash g)) (wadd128 (default 0 (cumulative_work g !! b_parent blk)) (b_difficulty blk))
    Hg Hc Hep Hwf ltac:(lia) Es Hhp (eq_sym Hph))
    as [(e & n1 & _ & _ & _ & Hnv)|(st' & st2 & n1 & _ & _ & _ & _ & E1)].
  { destruct Hnv. by exists st. }
  rewrite E1 in E. apply run_bind_Done in E as ([[g' r'] i'] & E2 & E3). injection E3 as <- <- <-.
  by eapply lane_results.
Qed.


(** ** Independence from the caches *)

(** Two nodes with the same chain and clock, whatever their caches hold. *)
Definition same_chain (n1 n2 : Node) : Prop :=
  n_chain n1 = n_chain n2 ∧ n_ticks n1 = n_ticks n2 ∧
  cache_ok (n_datasets n1) ∧ cache_ok (n_datasets n2).

(** Close a branch that has returned. *)
Ltac same_done E :=
  injection E as <- <- <-; eexists; split; [reflexivity|repeat split; simpl; done].

Lemma apply_with_parent_same n1 n2 blk parent tw cw n1' r i :
  same_chain n1 n2 → apply_with_parent params clock n1 blk parent tw cw = Done (n1', r, i) →
  ∃ n2', apply_with_parent params clock n2 blk parent tw cw = Done (n2', r, i) ∧ same_chain n1' n2'.
Proof.
  intros (Hg & Ht & H1 & H2) E. destruct n1 as [g p1 c1 t], n2 as [g2 p2 c2 t2]. simpl in *. subst g2 t2.
  unfold apply_with_parent in *. simpl in *.
  destruct (check_monotonic blk parent); [|same_done E].
  destruct (check_future blk (clock t) ≫= _); [|same_done E].
  destruct (verify_visionx_pow_spec params c1 blk H1 Hep) as (d1 & E1 & Hd1).
  destruct (verify_visionx_pow_spec params c2 blk H2 Hep) as (d2 & E2 & Hd2).
  rewrite E1 in E. rewrite E2. cbn [mbind run_bind] in *.
  destruct (pow_check params blk); [|same_done E].
  destruct (check_coinbase_height blk) as [cbh| |]; cbn [mbind run_bind] in *; try done.
  destruct (cbh ≫= _); [|same_done E].
  destruct (parent_state g (b_parent blk) (tip_hash g)) as [ps| |]; cbn [mbind run_bind] in *; try done.
  destruct (map_err ParentStateFailed ps ≫= _) as [st|e]; [|same_done E].
  destruct (if bool_decide _ then _ else _) as [[[g' r'] i']| |]; cbn [mbind run_bind] in *; try done.
  same_done E.
Qed.

Lemma apply_core_same n1 n2 blk src n1' r i :
  same_chain n1 n2 → apply_core params clock n1 blk src = Done (n1', r, i) →
  ∃ n2', apply_core params clock n2 blk src = Done (n2', r, i) ∧ same_chain n1' n2'.
Proof.
  intros Hs E. pose proof Hs as (Hg & Ht & H1 & H2).
  destruct n1 as [g p1 c1 t], n2 as [g2 p2 c2 t2]. simpl in *. subst g2 t2.
  unfold apply_core in *. simpl in *.
  destruct (check_structure g blk); [|same_done E].
  destruct (b_number blk =? 0).
  { destruct (apply_genesis g blk) as [g' r']. same_done E. }
  destruct (_ && _); [same_done E|].
  destruct (resolve_block g (b_parent blk)) as [parent|]; [|done].
  eapply apply_with_parent_same; [|exact E]. done.
Qed.

Lemma promote_waiting_same f waiting n1 n2 k n1' k' :
  (∀ n1 n2 blk src n1' r, same_chain n1 n2 → apply_fuel params clock f n1 blk src = Done (n1', r) →
     ∃ n2', apply_fuel params clock f n2 blk src = Done (n2', r) ∧ same_chain n1' n2') →
  same_chain n1 n2 → promote_waiting (apply_fuel params clock f) n1 k waiting = Done (n1', k') →
  ∃ n2', promote_waiting (apply_fuel params clock f) n2 k waiting = Done (n2', k') ∧ same_chain n1' n2'.
Proof.
  intros IHf. revert n1 n2 k. induction waiting as [|[[b ts] peer] waiting IH]; intros n1 n2 k Hs E.
  { injection E as <- <-. by exists n2. }
  cbn [promote_waiting] in *. apply run_bind_Done in E as ([m1 r] & E1 & E2).
  assert (same_chain
    (set_chain (set_orphans (orphan_pool (n_chain n1)) (delete (block_hash b) (orphan_by_hash (n_chain n1)))
      (n_chain n1)) n1)
    (set_chain (set_orphans (orphan_pool (n_chain n2)) (delete (block_hash b) (orphan_by_hash (n_chain n2)))
      (n_chain n2)) n2)) as Hs'.
  { destruct Hs as (Hg & ? & ? & ?). rewrite Hg. by repeat split. }
  destruct (IHf _ _ _ _ _ _ Hs' E1)
    as (m2 & -> & Hm). cbn [mbind run_bind]. by eapply IH.
Qed.

Lemma apply_fuel_same f n1 n2 blk src n1' r :
  same_chain n1 n2 → apply_fuel params clock f n1 blk src = Done (n1', r) →
  ∃ n2', apply_fuel params clock f n2 blk src = Done (n2', r) ∧ same_chain n1' n2'.
Proof.
  revert n1 n2 blk src n1' r. induction f as [|f IH]; intros n1 n2 blk src n1' r Hs E; [done|].
  cbn [apply_fuel] in *. apply run_bind_Done in E as ([[m1 r1] i] & E1 & E2).
  destruct (apply_core_same _ _ _ _ _ _ _ Hs E1) as (m2 & -> & Hm). cbn [mbind run_bind].
  destruct i; [|injection E2 as <- <-; by exists m2].
  apply run_bind_Done in E2 as ([m1' k] & E2 & E3). injection E3 as <- <-.
  assert (∃ m2', process_orphans (apply_fuel params clock f) m2 (block_hash blk) = Done (m2', k) ∧
    same_chain m1' m2') as (m2' & -> & Hm').
  { unfold process_orphans in *. pose proof Hm as (Hg & Ht & Hc1 & Hc2). rewrite <- Hg.
    destruct (orphan_pool (n_chain m1) !! block_hash blk) as [w|]; [|injection E2 as <- <-; by exists m2].
    eapply promote_waiting_same; [exact IH| |exact E2]. done. }
  cbn [mbind run_bind]. by exists m2'.
Qed.

End acceptance.
