(* ===== verification/Consensus.v ===== *)
(** * Consensus: what block acceptance guarantees

    The theorems about [apply_block] and [try_reorg], on top of the refinement
    of [Acceptance]: totality and consistency, the exactness of the rules, the
    heaviest-chain rule, independence of the caches, durability, and the panic
    a block with a wrong height leads to.  The last part builds small chains
    on which the theorems are applied. *)
From S2P Require Import Prelude Crypto Constants Transaction Block StateRoot Difficulty HistoricalVpow VisionX Sled ChainState Storage Snapshots Reward Reorg Orphan Consistency Genesis Accept Acceptance.

(** The sum of the difficulties of a chain, without wrap-around. *)
Definition total_difficulty (bs : list Block) : Z := foldr (λ b s, b_difficulty b + s) 0 bs.

Lemma total_difficulty_app l1 l2 :
  total_difficulty (l1 ++ l2) = total_difficulty l1 + total_difficulty l2.
Proof. induction l1 as [|b l1 IH]; [done|]. cbn [app total_difficulty foldr] in *.
  unfold total_difficulty in *. cbn [foldr]. lia. Qed.

(** A chain of [u64] difficulties whose length is a [u64] fits in a [u128]. *)
Lemma total_difficulty_bound bs : Forall block_wf bs →
  0 ≤ total_difficulty bs ≤ Z.of_nat (length bs) * U64_MAX.
Proof.
  induction 1 as [|b bs Hb _ IH]; [done|].
  change (total_difficulty (b :: bs)) with (b_difficulty b + total_difficulty bs).
  destruct Hb as ((_ & _ & Hd & _) & _). unfold u64 in Hd. fold (b_difficulty b) in Hd.
  cbn [length]. lia.
Qed.

Section consensus.
Context {C : Crypto} {CL : CryptoLaws C} {TC : TxCodec} {SL : Sled} {SLL : SledLaws SL}
  {SC : StoreCodec}.
Context (params : VisionXParams) (clock : nat → Z) (N : string → Z).
Abbreviation root := GENESIS_HASH.
Abbreviation chain_ok := (chain_ok N root).
Abbreviation ancestry := (ancestry root).
Abbreviation reorganised := (reorganised root).

(** ** Work *)
Lemma ancestry_wf g bs b : chain_ok g → ancestry g bs b →
  Forall block_wf bs ∧ Z.of_nat (length bs) ≤ U64_MAX.
Proof.
  intros Hg (Hc & Hf & Hl).
  assert (Forall (block_ok N root) bs) as Hok
    by (eapply Forall_impl; [exact Hf|]; intros x; by apply holds_ok).
  split.
  - eapply Forall_impl; [exact Hok|]. intros x Hx. apply (bo_load _ _ _ Hx).
  - pose proof (canonical_last _ _ _ Hc Hl) as Hn. rewrite last_lookup in Hl.
    pose proof (bo_range _ _ _ (Forall_lookup_1 _ _ _ _ Hok Hl)). lia.
Qed.

Lemma ancestry_snoc g bs p b :
  chain_ok g → ancestry g (bs ++ [p; b]) b → ancestry g (bs ++ [p]) p ∧ b_parent b = block_hash p ∧
  b_number b ≠ 0.
Proof.
  intros Hg (Hc & Hf & _).
  assert ((bs ++ [p; b]) !! length bs = Some p) as H1 by (by rewrite list_lookup_middle).
  assert ((bs ++ [p; b]) !! S (length bs) = Some b) as H2.
  { rewrite lookup_app_r by lia. by replace (S (length bs) - length bs)%nat with 1%nat by lia. }
  split_and!.
  - split_and!.
    + pose proof (canonical_take _ _ (S (length bs)) Hc) as Ht.
      rewrite take_app_ge in Ht by lia. by replace (S (length bs) - length bs)%nat with 1%nat in Ht by lia.
    + apply Forall_app in Hf as [? Hpb]. apply Forall_cons in Hpb as [? _].
      apply Forall_app_2; [done|by apply Forall_singleton].
    + apply last_snoc.
  - eapply (cn_link _ _ Hc); eauto.
  - pose proof (cn_number _ _ Hc _ _ H2). lia.
Qed.

(** The work map holds the total difficulty of every branch, exactly. *)
Lemma work_total g g0 bs b :
  chain_ok g → blocks g !! 0%nat = Some g0 → cumulative_work g !! root = Some (b_difficulty g0) →
  ancestry g bs b → cumulative_work g !! block_hash b = Some (total_difficulty bs).
Proof.
  intros Hg H0 Hw. revert b. induction bs as [|b' bs IH] using rev_ind; intros b Hanc.
  { by destruct Hanc as (_ & _ & ?). }
  assert (b' = b) as -> by (destruct Hanc as (_ & _ & Hl); rewrite last_snoc in Hl; by simplify_eq).
  pose proof (ancestry_wf _ _ _ Hg Hanc) as [Hwf Hlen].
  destruct bs as [|p bs _] using rev_ind.
  - cbn [app] in *. destruct Hanc as (Hc & Hf & _).
    assert (block_hash b = root) as Hb by (by apply (cn_root _ _ Hc)).
    assert (block_hash g0 = root) as Hb0 by (by apply (cn_root _ _ (co_canon _ _ _ Hg))).
    rewrite Forall_singleton in Hf.
    assert (b = g0) as ->.
    { refine (holds_inj _ _ _ _ _ Hg Hf _ _); [left; by eapply list_elem_of_lookup_2|congruence]. }
    rewrite Hb, Hw. unfold total_difficulty. simpl. f_equal. lia.
  - rewrite <- app_assoc in Hanc. cbn [app] in Hanc.
    destruct (ancestry_snoc _ _ _ _ Hg Hanc) as (Hp & Hpar & Hn).
    assert (holds g b) as Hb.
    { destruct Hanc as (_ & Hf & _). apply Forall_app in Hf as [_ Hf].
      by apply Forall_cons in Hf as [_ [? _]%Forall_cons]. }
    rewrite (co_work _ _ _ Hg (mk_is_Some _ _ Hw) b Hb Hn), Hpar, (IH p Hp). cbn [default].
    f_equal. rewrite (total_difficulty_app _ [b]). unfold wadd128, wrap128.
    pose proof (total_difficulty_bound _ Hwf) as Hbd. rewrite (total_difficulty_app _ [b]) in Hbd.
    change (total_difficulty [b]) with (b_difficulty b + 0) in *. rewrite Z.add_0_r in *.
    apply Z.mod_small. unfold U64_MAX in *. nia.
Qed.

Context (HN : N root = 0) (Hep : epoch_blocks params ≠ 0).
Abbreviation node_ok := (node_ok params N).
Abbreviation admissible := (admissible params N).

Lemma tip_ancestry g : chain_ok g → blocks g ≠ [] →
  ∃ t, ancestry g (blocks g) t ∧ tip_hash g = block_hash t.
Proof.
  intros Hg Hne. destruct (tip_block g Hne) as (t & Ht & Hth). exists t. split; [|done].
  rewrite last_lookup in Ht. pose proof (ancestry_canonical _ _ _ _ _ Hg Ht) as Ha.
  rewrite take_ge in Ha by lia. done.
Qed.

(** Work of the tip and of a candidate, as total difficulties. *)
Lemma tip_work_total g g0 :
  chain_ok g → blocks g !! 0%nat = Some g0 → cumulative_work g !! root = Some (b_difficulty g0) →
  tip_work g = total_difficulty (blocks g).
Proof.
  intros Hg H0 Hw. destruct (tip_ancestry g Hg) as (t & Ha & Ht); [by intros E; rewrite E in H0|].
  unfold tip_work. by rewrite Ht, (work_total _ _ _ _ Hg H0 Hw Ha).
Qed.
Lemma candidate_work_total g g0 bs parent blk :
  chain_ok g → blocks g !! 0%nat = Some g0 → cumulative_work g !! root = Some (b_difficulty g0) →
  ancestry g bs parent → b_parent blk = block_hash parent → block_wf blk →
  candidate_work g blk = total_difficulty (bs ++ [blk]).
Proof.
  intros Hg H0 Hw Ha Hp Hwf. pose proof (ancestry_wf _ _ _ Hg Ha) as [Hbs Hlen].
  pose proof (total_difficulty_bound _ Hbs).
  destruct Hwf as ((_ & _ & Hd & _) & _). unfold u64 in Hd. fold (b_difficulty blk) in Hd.
  unfold candidate_work. rewrite Hp, (work_total _ _ _ _ Hg H0 Hw Ha), total_difficulty_app.
  change (total_difficulty [blk]) with (b_difficulty blk + 0). rewrite Z.add_0_r.
  apply Z.mod_small. unfold U64_MAX in *. simpl. nia.
Qed.

(** A reorganised chain is the branch of its new tip. *)
Lemma reorganised_branch g g' d rec bs parent blk :
  chain_ok g → chain_ok g' → chain_ok (recorded g blk d) → ¬ known g (block_hash blk) →
  ancestry g bs parent → b_parent blk = block_hash parent → b_number blk ≠ 0 →
  reorganised (recorded g blk d) g' blk rec → blocks g' = bs ++ [blk].
Proof.
  intros Hg Hg' Hrec Hnew Hbs Hp Hn Hro.
  assert (holds (recorded g blk d) blk) as Hb by (right; simpl; by rewrite lookup_insert_eq).
  assert (∀ x, holds g x → holds (recorded g blk d) x) as Hsub.
  { intros x Hx. destruct (holds_known _ _ _ _ Hg Hx) as [Hk|Hk]; [|];
      (destruct Hx as [Hx|Hx]; [by left|right; simpl; rewrite lookup_insert_ne; [done|]]);
      intros E; apply Hnew; rewrite E; [by left|by right]. }
  apply (ancestry_inj N root (recorded g blk d) _ _ blk Hrec).
  - destruct (ro_chain _ _ _ _ _ Hro) as (kept & gone & seg & E1 & E2 & _ & Hl & Hs & _).
    split_and!.
    + apply (co_canon _ _ _ Hg').
    + rewrite E2. apply Forall_app_2.
      * rewrite Forall_forall. intros x Hx. left. rewrite E1. apply elem_of_app. by left.
      * eapply Forall_impl; [exact Hs|]. intros x Hx. by right.
    + by rewrite E2, last_app, Hl.
  - assert (ancestry (recorded g blk d) bs parent) as Hbs'.
    { destruct Hbs as (H1 & H2 & H3). split_and!; [done| |done]. by eapply Forall_impl. }
    assert (canonical root (bs ++ [blk])) as Hc.
    { eapply ancestry_extend; [exact Hrec|exact Hbs'| |exact Hp|exact Hn]. by eapply holds_ok. }
    split_and!; [done| |by rewrite last_snoc].
    apply Forall_app_2; [apply Hbs'|by apply Forall_singleton].
Qed.

Lemma apply_block_ok n blk src :
  node_ok n → admissible blk →
  ∃ n' r, apply_block params clock n blk src = Done (n', r) ∧ node_ok n' ∧
    ∀ h, known (n_chain n) h → known (n_chain n') h.
Proof.
  intros Hn Ha. pose proof (pool_total_nonneg (orphan_pool (n_chain n))).
  destruct (apply_fuel_total params clock N HN Hep (S (Z.to_nat (pool_total (orphan_pool (n_chain n)))))
    n blk src Hn Ha) as (n' & r & E & Hn' & Hk & _); [lia|]. eauto 6.
Qed.

(** ** Properties *)

(** C1: Handing a block with a truthful height to a consistent node always
    ends, without panic (no failed [expect], no index out of range, no endless
    ancestry walk or orphan recursion), leaves the node consistent, and
    forgets no block it knew, whichever verdict is returned and whatever the
    database does.  Truthful ([admissible]) means that a block whose proof of
    work is valid carries the height its place in the block tree has; the code
    never checks this, and C8 shows the panic a wrong height leads to. *)
Theorem apply_block_total n blk src :
  node_ok n → admissible blk →
  ∃ n' r, apply_block params clock n blk src = Done (n', r) ∧ node_ok n' ∧
    ∀ h, known (n_chain n) h → known (n_chain n') h.
Proof. apply apply_block_ok. Qed.

(** C2: A block with a truthful height, other than a genesis block, whose
    parent a consistent node knows is accepted only if it satisfies every
    consensus rule against that parent's branch (weight, transaction root,
    coinbase, novelty, timestamp, difficulty, proof of work, distinct
    transactions, execution, reward and state root), and a block that
    satisfies them all is rejected only when the database refuses a write. *)
Theorem acceptance_decides n blk src n' r :
  node_ok n → admissible blk → b_number blk ≠ 0 → known (n_chain n) (b_parent blk) →
  apply_block params clock n blk src = Done (n', r) →
  let rules := ∃ parent st,
    consensus_valid params (n_chain n) (clock (n_ticks n)) blk parent st in
  (is_accepted r = true → rules) ∧ (rules → is_accepted r = true ∨ storage_failure r).
Proof.
  intros Hn Ha Hnz Hk E rules.
  destruct (apply_core_decides params clock N HN Hep n blk src Hn Ha Hnz Hk)
    as (m & r' & i & Ec & _ & H1 & H2).
  unfold apply_block in E. cbn [apply_fuel] in E. rewrite Ec in E. cbn [mbind run_bind] in E.
  assert (r = r') as ->.
  { destruct i; [|by simplify_eq]. apply run_bind_Done in E as ([m' k] & _ & E). by simplify_eq. }
  split; [exact H1|]. intros (parent & st & Hv). by eapply H2.
Qed.

(** C3: The heaviest chain wins, for blocks with truthful heights and a
    consistent node whose work map counts the genesis block.  Write old for the total difficulty of the
    canonical chain and new for that of the block's branch, computed without
    overflow.  An accepted block either becomes the tip, the canonical chain
    then being exactly its branch, and new > old; or it is kept beside an
    unchanged chain, because new <= old or because the database refused the
    batch.  A block that is not integrated changes no canonical block. *)
Theorem fork_choice n blk src n' r i g0 :
  let g := n_chain n in let g' := n_chain n' in
  node_ok n → admissible blk → b_number blk ≠ 0 →
  blocks g !! 0%nat = Some g0 → cumulative_work g !! root = Some (b_difficulty g0) →
  apply_core params clock n blk src = Done (n', r, i) →
  if i then
    ∃ parent bs, ancestry g bs parent ∧ b_parent blk = block_hash parent ∧
      let old := total_difficulty (blocks g) in let new := total_difficulty (bs ++ [blk]) in
      (old < new ∧ r = CanonExtension (b_number blk) ∧ blocks g' = bs ++ [blk]) ∨
      (r = SideChain (b_number blk) ∧ blocks g' = blocks g ∧
       side_blocks g' !! block_hash blk = Some blk ∧
       (new ≤ old ∨ ∃ d ops, snd (db_apply_batch d ops) = false))
  else blocks g' = blocks g ∧ (is_accepted r = false ∨ r = StoredOrphan (block_hash blk)).
Proof.
  intros g g' Hn Ha Hnz H0 Hw E.
  destruct (apply_core_refines params clock N HN Hep n blk src Hn Ha) as (m & r' & i' & E' & Hout & Hn').
  rewrite E in E'. simplify_eq. pose proof (no_chain _ _ _ Hn) as Hg. pose proof (no_chain _ _ _ Hn') as Hg'.
  fold g in Hg. fold g' in Hg'. pose proof (tip_work_total _ _ Hg H0 Hw) as Hold.
  assert (∀ parent st now, consensus_valid params g now blk parent st → ∃ bs, ancestry g bs parent ∧
    b_parent blk = block_hash parent ∧ candidate_work g blk = total_difficulty (bs ++ [blk])) as Hbr.
  { intros parent st now Hv. destruct (cv_state _ _ _ _ _ _ Hv) as (bs & _ & Hbs & _).
    destruct (cv_parent _ _ _ _ _ _ Hv) as [_ Hp]. exists bs. split_and!; [done..|].
    by eapply candidate_work_total; [..|exact Hp|apply (ad_wf _ _ _ Ha)]. }
  destruct Hout as [e E1|? ? ? ?|peer now Hk E1|parent st0 st Hv Heq Hp E1|parent st Hv Hp E1 Hd|parent st rec d Hv Hp Hlt Hrd Hro Hpend].
  - split; [unfold g'; by rewrite E1|by left].
  - done.
  - split; [unfold g'; by rewrite E1, add_orphan_state|by right].
  - destruct (Hbr _ _ _ Hv) as (bs & Hbs & Hpar & Hc). exists parent, bs. split_and!; [done..|]. left.
    assert (bs = blocks g) as ->.
    { apply (tip_branch _ _ _ _ Hg (proj1 (cv_parent _ _ _ _ _ _ Hv))); [|done]. rewrite <- Hpar. exact Hp. }
    fold g' in E1. split_and!; [|done|by rewrite E1].
    rewrite total_difficulty_app. change (total_difficulty [blk]) with (b_difficulty blk + 0).
    destruct (cv_difficulty _ _ _ _ _ _ Hv) as [Hfl _]. unfold DIFFICULTY_FLOOR in Hfl. lia.
  - destruct (Hbr _ _ _ Hv) as (bs & Hbs & Hpar & Hc). exists parent, bs. split_and!; [done..|]. right.
    fold g in Hd, E1. fold g' in E1. rewrite Hold, Hc in Hd. split_and!; [done| | |].
    + by rewrite E1.
    + rewrite E1. simpl. by rewrite lookup_insert_eq.
    + destruct (Z.lt_ge_cases (total_difficulty (blocks g)) (total_difficulty (bs ++ [blk]))) as [Hlt|Hge];
        [right; by apply Hd|by left].
  - destruct (Hbr _ _ _ Hv) as (bs & Hbs & Hpar & Hc). exists parent, bs. split_and!; [done..|]. left.
    fold g in Hlt, Hrd, Hro. fold g' in Hro. rewrite Hold, Hc in Hlt. split_and!; [done..|].
    destruct (consensus_valid_ok _ _ HN _ _ _ _ _ Hg Ha Hnz Hv) as (_ & _ & Hnew & _).
    exact (reorganised_branch _ _ _ _ _ _ _ Hg Hg' Hrd Hnew Hbs Hpar Hnz Hro).
Qed.

(** C6: A rejected block with a truthful height leaves no trace on a
    consistent node: the whole chain state (blocks,
    accounts, side blocks, work, orphans, indexes) is unchanged, except that
    the database may differ, which still stores the same canonical chain. *)
Theorem rejection_leaves_no_trace n blk src n' e :
  node_ok n → admissible blk → apply_block params clock n blk src = Done (n', Rejected e) →
  n_chain n' = set_db (db (n_chain n')) (n_chain n) ∧
  mirrors (db_contents (db (n_chain n'))) (blocks (n_chain n)).
Proof.
  intros Hn Ha E.
  destruct (apply_core_refines params clock N HN Hep n blk src Hn Ha) as (m & r & i & Ec & Hout & Hm).
  unfold apply_block in E. cbn [apply_fuel] in E. rewrite Ec in E. cbn [mbind run_bind] in E.
  assert (r = Rejected e) as ->.
  { destruct i; [|by simplify_eq]. apply run_bind_Done in E as ([m' k] & _ & E). by simplify_eq. }
  inversion Hout; subst. simplify_eq. split; [done|].
  pose proof (co_db _ _ _ (no_chain _ _ _ Hm)) as Hdb.
  match goal with H : n_chain n' = _ |- _ => rewrite H in Hdb at 2 end. done.
Qed.

(** C7: The outcome of a block does not depend on what the caches hold: two
    nodes with the same chain and clock but different dataset caches and
    different PoW pre-validation marks return the same verdict and end in the
    same chain state, whenever the first of them ends and both caches hold
    only true datasets. *)
Theorem acceptance_cache_transparent n1 n2 blk src n1' r :
  n_chain n1 = n_chain n2 → n_ticks n1 = n_ticks n2 →
  cache_ok (n_datasets n1) → cache_ok (n_datasets n2) →
  apply_block params clock n1 blk src = Done (n1', r) →
  ∃ n2', apply_block params clock n2 blk src = Done (n2', r) ∧ n_chain n2' = n_chain n1'.
Proof.
  intros Hc Ht H1 H2 E. unfold apply_block in *. rewrite <- Hc.
  destruct (apply_fuel_same params clock Hep _ n1 n2 blk src n1' r ltac:(by split_and!) E)
    as (n2' & E' & Hs & _). by exists n2'.
Qed.

(** C5: A reorganisation is all or nothing.  Called on a consistent state with
    a side block, [try_reorg] ends without panic in a consistent state; when it
    succeeds the chain is a non-empty prefix of the old one followed by side
    blocks up to the new tip, the recovery data are exactly the displaced
    transactions that the new segment does not include and the identifiers it
    includes, and the cached root is that of the recomputed accounts; when it
    fails the batch was refused and only the database handle differs. *)
Theorem reorg_all_or_nothing g tip :
  chain_ok g → side_blocks g !! block_hash tip = Some tip →
  ∃ g' r, try_reorg g tip = Done (g', r) ∧ chain_ok g' ∧
    match r with
    | None => g' = set_db (db g') g ∧ ∃ ops, snd (db_apply_batch (db g) ops) = false
    | Some rec => ∃ kept gone seg,
        blocks g = kept ++ gone ∧ blocks g' = kept ++ seg ∧ kept ≠ [] ∧ last seg = Some tip ∧
        Forall (λ b, side_blocks g !! block_hash b = Some b) seg ∧
        (∀ tx, tx ∈ displaced_txs rec ↔ tx ∈ non_coinbase_txs gone ∧
           canonical_tx_id tx ∉ map canonical_tx_id (non_coinbase_txs seg)) ∧
        (∀ id, id ∈ winning_tx_ids rec ↔ id ∈ map canonical_tx_id (non_coinbase_txs seg)) ∧
        compute_state_root (balances g') (nonces g') = Ok (bh_state_root (b_header tip)) ∧
        cached_state_root g' = Some (b_number tip, bh_state_root (b_header tip))
    end.
Proof.
  intros Hg Ht. destruct (try_reorg_spec _ _ _ _ Hg Ht) as (g' & [rec|] & E & Hg' & H);
    exists g'; eexists; (split; [exact E|split; [exact Hg'|]]); [|exact H].
  destruct (ro_chain _ _ _ _ _ H) as (kept & gone & seg & H1 & H2 & H3 & H4 & H5 & H6 & H7).
  destruct (ro_root _ _ _ _ _ H) as (rt & H8 & -> & H9).
  exists kept, gone, seg. by split_and!.
Qed.

End consensus.

(** ** A small chain

    Blocks mined with the tiny parameters on the concrete instances: the
    genesis block, a first block, and a heavier branch of two blocks. *)
Definition toy_clock (_ : nat) : Z := 1000.
Definition toy_coinbase (miner : string) (number : Z) : Tx :=
  mkTx 0 miner "coinbase" "reward" (be_bytes 8 number) 0 0 "".
Definition toy_mine (n : Node) (parent : string) (number ts : Z) : option Block :=
  let g := n_chain n in
  let miner := toy_addr 1 in
  let txs := [toy_coinbase miner number] in
  let difficulty := calculate_next_difficulty (collect_ancestor_window g parent) ts in
  let blk pow root :=
    let h r := mkHeader parent number ts difficulty 0 pow root r miner in
    mkBlock (h (compute_tx_root (mkBlock (h null_hash) txs 0))) txs 0 in
  st ← match parent_state g parent (tip_hash g) with Done (Ok st) => Some st | _ => None end;
  st ← res_ok (apply_coinbase_reward st miner number);
  root ← res_ok (compute_state_root (es_balances st) (es_nonces st));
  prev ← res_ok (VisionX.decode_hash_32 parent);
  pre ← res_ok (historical_vpow_message_bytes_with_nonce_zero (b_header (blk null_hash root)));
  match fresh_digest tiny_params prev (number / 32) pre 0 with
  | Done (Ok d) => Some (blk (hex_encode d) root)
  | _ => None
  end.

Definition toy_node0 : Node := mkNode (empty_state toy_db) (mkPowCache [] ∅) empty_cache 0.
Definition toy_apply (n : Node) (b : Block) : run (Node * AcceptResult) :=
  apply_block tiny_params toy_clock n b None.
Definition toy_step (n : Node) (b : Block) : Node :=
  match toy_apply n b with Done (n, _) => n | _ => n end.

Definition toy_node1 : Node := toy_step toy_node0 genesis_block.
Definition toy_b1 : Block :=
  Eval vm_compute in default genesis_block (toy_mine toy_node1 GENESIS_HASH 1 30).
Definition toy_node2 : Node := toy_step toy_node1 toy_b1.
Definition toy_s1 : Block :=
  Eval vm_compute in default genesis_block (toy_mine toy_node2 GENESIS_HASH 1 31).
Definition toy_node3 : Node := toy_step toy_node2 toy_s1.
Definition toy_s2 : Block :=
  Eval vm_compute in default genesis_block (toy_mine toy_node3 (block_hash toy_s1) 2 61).

(** The heights of these blocks by hash. *)
Definition toy_N (h : string) : Z :=
  if bool_decide (h = block_hash toy_b1) then 1
  else if bool_decide (h = block_hash toy_s1) then 1
  else if bool_decide (h = block_hash toy_s2) then 2 else 0.

(** Decide the machine widths of a literal block. *)
Ltac literal_wf b :=
  unfold b; repeat first [split|apply Forall_cons_2|apply Forall_nil_2]; vm_compute; discriminate.

Lemma toy_admissible b :
  b ∈ [genesis_block; toy_b1; toy_s1; toy_s2] → admissible tiny_params toy_N b.
Proof.
  intros Hb. repeat (apply elem_of_cons in Hb as [->|Hb]); [..|by apply elem_of_nil in Hb];
    (split; [first [literal_wf genesis_block|literal_wf toy_b1|literal_wf toy_s1|literal_wf toy_s2]
            |intros _ Hn; first [by destruct Hn|vm_compute; by split_and!]
            |vm_compute; discriminate || done]).
Qed.

Lemma empty_node_ok {SL : Sled} {SLL : SledLaws SL} N (d : Db) c :
  db_contents d = ∅ → cache_ok c →
  node_ok tiny_params N (mkNode (empty_state d) (mkPowCache [] ∅) c 0).
Proof.
  intros Hd Hc. split; cbn [n_chain n_datasets]; [|done|].
  - split; simpl; try done.
    + apply canonical_nil.
    + apply index_ok_nil.
    + intros h [[? ?]|[? ?]]; done.
    + intros Hw b [Hb|Hb]; [by apply elem_of_nil in Hb|]; simpl in Hb; by rewrite lookup_empty in Hb.
    + by exists empty_exec.
    + intros b [Hb|Hb]; [by apply elem_of_nil in Hb|]; simpl in Hb; by rewrite lookup_empty in Hb.
    + simpl in Hd. rewrite Hd. apply mirrors_nil.
  - split; simpl; [|vm_compute; discriminate]. intros k e (es & He & _). done.
Qed.

Lemma toy_step_ok n b :
  b ∈ [genesis_block; toy_b1; toy_s1; toy_s2] → node_ok tiny_params toy_N n →
  node_ok tiny_params toy_N (toy_step n b).
Proof.
  intros Hb Hn. unfold toy_step, toy_apply.
  destruct (apply_block_ok tiny_params toy_clock toy_N eq_refl ltac:(done) n b None Hn
    (toy_admissible _ Hb)) as (n' & r & -> & Hn' & _). done.
Qed.

Lemma toy_node0_ok N : node_ok tiny_params N toy_node0.
Proof. by apply empty_node_ok; [|apply cache_ok_empty]. Qed.
Lemma toy_node3_ok : node_ok tiny_params toy_N toy_node3.
Proof.
  apply toy_step_ok; [do 2 right; left|]. apply toy_step_ok; [right; left|].
  apply toy_step_ok; [left|]. apply toy_node0_ok.
Qed.
Lemma toy_s2_admissible : admissible tiny_params toy_N toy_s2.
Proof. apply toy_admissible. do 3 right. left. Qed.
Lemma toy_b1_admissible : admissible tiny_params toy_N toy_b1.
Proof. apply toy_admissible. right. left. Qed.

(** Run a computation and test its result. *)
Definition ran {A} (r : run A) (f : A → bool) : bool := match r with Done a => f a | _ => false end.
Lemma ran_Done {A} (r : run A) f : ran r f = true → ∃ a, r = Done a ∧ f a = true.
Proof. destruct r; simpl; [eauto|done..]. Qed.
Definition panicked {A} (r : run A) : bool := match r with Panic => true | _ => false end.
Lemma panicked_Panic {A} (r : run A) : panicked r = true → r = Panic.
Proof. by destruct r. Qed.
Definition is_extension (h : Z) (r : AcceptResult) : bool :=
  match r with CanonExtension k => k =? h | _ => false end.

Lemma apply_block_total_witness :
  ∃ n' r, apply_block tiny_params toy_clock toy_node3 toy_s2 None = Done (n', r) ∧
    node_ok tiny_params toy_N n'.
Proof.
  destruct (apply_block_total tiny_params toy_clock toy_N eq_refl ltac:(discriminate)
    toy_node3 toy_s2 None toy_node3_ok) as (n' & r & E & H & _).
  - exact toy_s2_admissible.
  - exists n', r. split; [exact E|exact H].
Defined.

Lemma acceptance_decides_witness :
  ∃ parent st, consensus_valid tiny_params (n_chain toy_node3) 1000 toy_s2 parent st.
Proof.
  destruct (ran_Done (apply_block tiny_params toy_clock toy_node3 toy_s2 None)
    (λ a, is_accepted a.2)) as ([n' r] & E & Hr); [vm_compute; reflexivity|].
  apply (acceptance_decides tiny_params toy_clock toy_N eq_refl ltac:(discriminate)
    toy_node3 toy_s2 None n' r toy_node3_ok); [|done| |exact E|exact Hr].
  - exact toy_s2_admissible.
  - right. refine (bool_decide_unpack _ _). vm_compute. exact I.
Defined.

Lemma fork_choice_witness :
  ∃ n' r bs, apply_core tiny_params toy_clock toy_node3 toy_s2 None = Done (n', r, true) ∧
    blocks (n_chain n') = bs ++ [toy_s2] ∧
    total_difficulty (blocks (n_chain toy_node3)) < total_difficulty (bs ++ [toy_s2]).
Proof.
  destruct (ran_Done (apply_core tiny_params toy_clock toy_node3 toy_s2 None)
    (λ a, is_extension 2 a.1.2 && a.2)) as ([[n' r] i] & E & Hr); [vm_compute; reflexivity|].
  apply andb_prop in Hr as [Hr Hi]. simpl in Hr, Hi. subst i.
  assert (blocks (n_chain toy_node3) !! 0%nat = Some genesis_block) as H0 by (vm_compute; reflexivity).
  assert (cumulative_work (n_chain toy_node3) !! GENESIS_HASH = Some (b_difficulty genesis_block)) as Hw
    by (vm_compute; reflexivity).
  pose proof (fork_choice tiny_params toy_clock toy_N eq_refl ltac:(discriminate)
    toy_node3 toy_s2 None n' r true genesis_block toy_node3_ok toy_s2_admissible
    ltac:(discriminate) H0 Hw E) as (parent & bs & _ & _ & H).
  exists n', r, bs. split; [exact E|]. destruct H as [(H1 & _ & H2)|(H1 & _)].
  - split; [exact H2|exact H1].
  - rewrite H1 in Hr. discriminate Hr.
Defined.

Lemma rejection_leaves_no_trace_witness :
  ∃ n' e, apply_block tiny_params toy_clock toy_node3 toy_b1 None = Done (n', Rejected e) ∧
    n_chain n' = set_db (db (n_chain n')) (n_chain toy_node3).
Proof.
  destruct (ran_Done (apply_block tiny_params toy_clock toy_node3 toy_b1 None)
    (λ a, negb (is_accepted a.2))) as ([n' r] & E & Hr); [vm_compute; reflexivity|].
  destruct r as [h|h|h|e]; [done..|]. exists n', e. split; [exact E|].
  apply (rejection_leaves_no_trace tiny_params toy_clock toy_N eq_refl ltac:(discriminate)
    toy_node3 toy_b1 None n' e toy_node3_ok); [|exact E].
  exact toy_b1_admissible.
Defined.

(** A node with its caches emptied. *)
Definition cold (n : Node) : Node :=
  mkNode (n_chain n) (mkPowCache [] ∅) empty_cache (n_ticks n).
Lemma cold_same n : n_chain n = n_chain (cold n) ∧ n_ticks n = n_ticks (cold n) ∧ cache_ok (n_datasets (cold n)).
Proof. split_and!; [done..|apply cache_ok_empty]. Qed.

Lemma acceptance_cache_transparent_witness :
  ∃ n1' n2' r, apply_block tiny_params toy_clock toy_node3 toy_s2 None = Done (n1', r) ∧
    apply_block tiny_params toy_clock (cold toy_node3) toy_s2 None = Done (n2', r) ∧
    n_chain n2' = n_chain n1'.
Proof.
  destruct (ran_Done (apply_block tiny_params toy_clock toy_node3 toy_s2 None)
    (λ _, true)) as ([n1' r] & E & _); [vm_compute; reflexivity|].
  destruct (cold_same toy_node3) as (H1 & H2 & H3).
  destruct (acceptance_cache_transparent tiny_params toy_clock ltac:(discriminate)
    toy_node3 (cold toy_node3) toy_s2 None n1' r H1 H2 (no_cache _ _ _ toy_node3_ok) H3 E)
    as (n2' & E2 & H).
  exists n1', n2', r. split; [exact E|]. split; [exact E2|exact H].
Defined.

Lemma reorg_all_or_nothing_witness :
  ∃ g' rec kept gone seg, try_reorg (n_chain toy_node3) toy_s1 = Done (g', Some rec) ∧
    blocks (n_chain toy_node3) = kept ++ gone ∧ blocks g' = kept ++ seg ∧ last seg = Some toy_s1.
Proof.
  assert (side_blocks (n_chain toy_node3) !! block_hash toy_s1 = Some toy_s1) as Hs
    by (vm_compute; reflexivity).
  destruct (ran_Done (try_reorg (n_chain toy_node3) toy_s1) (λ a, bool_decide (is_Some a.2)))
    as ([g1 r1] & E1 & Hr); [vm_compute; reflexivity|].
  destruct (reorg_all_or_nothing toy_N (n_chain toy_node3) toy_s1 (no_chain _ _ _ toy_node3_ok) Hs)
    as (g' & r & E & _ & H).
  rewrite E1 in E. injection E as <- <-. destruct r1 as [rec|]; [|discriminate Hr].
  destruct H as (kept & gone & seg & H1 & H2 & _ & H3 & _).
  exists g1, rec, kept, gone, seg. split; [exact E1|]. split; [exact H1|]. split; [exact H2|exact H3].
Defined.

(** ** Heights *)
Definition toy_high : Block :=
  Eval vm_compute in default genesis_block (toy_mine toy_node1 GENESIS_HASH 7 30).
Definition toy_node_high : Node := toy_step toy_node1 toy_high.
Definition toy_high_child : Block :=
  Eval vm_compute in default genesis_block (toy_mine toy_node_high (block_hash toy_high) 8 60).

Lemma toy_node1_ok N : N GENESIS_HASH = 0 → node_ok tiny_params N toy_node1.
Proof.
  intros HN. unfold toy_node1, toy_step, toy_apply.
  destruct (apply_block_ok tiny_params toy_clock N HN ltac:(discriminate) toy_node0 genesis_block None
    (toy_node0_ok N)) as (n' & r & -> & Hn' & _); [|done].
  split; [literal_wf genesis_block|by intros _ []|done].
Qed.
Lemma is_extension_eq h r : is_extension h r = true → r = CanonExtension h.
Proof. destruct r; [|done..]. simpl. by intros ->%Z.eqb_eq. Qed.

(** C8: The height of a block is not checked against its parent's.  On a
    consistent node whose tip has height 0, a valid block claiming height 7 is
    accepted as the new tip, and the next block on top of it makes
    [apply_block] panic (its parent is indexed at height 7 of a chain of two
    blocks). *)
Theorem unchecked_height_panics :
  ∃ n b b' n', (∀ N, N GENESIS_HASH = 0 → node_ok tiny_params N n) ∧ block_wf b ∧ block_wf b' ∧
    current_height (n_chain n) = 0 ∧ b_parent b = tip_hash (n_chain n) ∧ b_number b = 7 ∧
    b_parent b' = block_hash b ∧
    apply_block tiny_params toy_clock n b None = Done (n', CanonExtension 7) ∧
    apply_block tiny_params toy_clock n' b' None = Panic.
Proof.
  destruct (ran_Done (apply_block tiny_params toy_clock toy_node1 toy_high None)
    (λ a, is_extension 7 a.2)) as ([n' r] & E & Hr); [vm_compute; reflexivity|].
  apply is_extension_eq in Hr. simpl in Hr. subst r.
  assert (apply_block tiny_params toy_clock toy_node_high toy_high_child None = Panic) as E'
    by (apply panicked_Panic; vm_compute; reflexivity).
  assert (toy_node_high = n') as Hn by (unfold toy_node_high, toy_step, toy_apply; by rewrite E).
  rewrite Hn in E'. exists toy_node1, toy_high, toy_high_child, n'.
  split; [exact toy_node1_ok|]. split; [literal_wf toy_high|]. split; [literal_wf toy_high_child|].
  split_and!; [vm_compute; reflexivity..|exact E|exact E'].
Qed.
