(* ===== verification/Rules.v ===== *)
(** * The rules along a branch

    The retarget window of a block is a function of its branch alone, so every
    consensus rule except novelty and the clock is a statement about a list of
    blocks.  [rules] says it for a whole chain, [executes] that its blocks
    execute and have the state roots of their headers; acceptance maintains
    both for every branch the node holds. *)
From S2P Require Import Prelude Crypto Constants Transaction Block StateRoot Difficulty HistoricalVpow VisionX Sled ChainState Storage Snapshots Reward Reorg Orphan Consistency Genesis Accept Acceptance Consensus.

(** ** The window of a branch *)
Fixpoint walk_back (limit : nat) (newest_first : list Block) : list Block :=
  match limit, newest_first with
  | S limit, blk :: older =>
      blk :: (if all_zero_chars (b_parent blk) then [] else walk_back limit older)
  | _, _ => []
  end.
Definition window_of (bs : list Block) : list Block :=
  rev (walk_back (Z.to_nat (RETARGET_WINDOW + 1)) (rev bs)).

(** The first block of a chain closes it. *)
Definition origin (bs : list Block) : Prop :=
  ∀ b, bs !! 0%nat = Some b → all_zero_chars (b_parent b) = true.

Section rules.
Context {C : Crypto} {CL : CryptoLaws C} {TC : TxCodec} {SL : Sled} {SLL : SledLaws SL}
  {SC : StoreCodec}.
Context (params : VisionXParams) (clock : nat → Z) (N : string → Z).
Abbreviation root := GENESIS_HASH.
Abbreviation chain_ok := (chain_ok N root).
Abbreviation ancestry := (ancestry root).
Abbreviation reorganised := (reorganised root).

(** What block [b] must satisfy on top of the chain [bs]. *)
Record next_ok (bs : list Block) (b : Block) : Prop := {
  nx_weight : b_weight b ≤ BLOCK_WEIGHT_LIMIT;
  nx_tx_root : bh_tx_root (b_header b) = compute_tx_root b;
  nx_coinbase : ∃ cb rest, b_txs b = cb :: rest ∧ tx_module cb = "coinbase" ∧
    tx_method cb = "reward" ∧ length (tx_args cb) = 8%nat ∧ be_val (tx_args cb) = b_number b;
  nx_time : ∀ p, last bs = Some p → b_timestamp p < b_timestamp b;
  nx_difficulty : DIFFICULTY_FLOOR ≤ b_difficulty b ∧
    b_difficulty b = calculate_next_difficulty (window_of bs) (b_timestamp b);
  nx_pow : pow_valid params b;
  nx_distinct : NoDup (map canonical_tx_id (b_txs b))
}.
Definition rules (bs : list Block) : Prop :=
  ∀ i b, bs !! S i = Some b → next_ok (take (S i) bs) b.

Lemma rules_snoc bs b : bs ≠ [] → rules bs → next_ok bs b → rules (bs ++ [b]).
Proof.
  intros Hne Hr Hb i x Hx. apply lookup_app_Some in Hx as [Hx|[Hl Hx]].
  - rewrite take_app_le by (apply lookup_lt_Some in Hx; lia). by apply Hr.
  - apply list_lookup_singleton_Some in Hx as [Hi <-].
    rewrite take_app_ge by lia. replace (S i - length bs)%nat with 0%nat by lia.
    by rewrite take_0, app_nil_r.
Qed.

Lemma rules_take bs n : rules bs → rules (take n bs).
Proof.
  intros Hr i x Hx. pose proof Hx as [Hx' Hl]%lookup_take_Some.
  rewrite take_take, Nat.min_l by lia. by apply Hr.
Qed.

(** ** Windows are functions of the branch *)
Lemma ancestry_first g bs b : chain_ok g → ancestry g bs b →
  ∃ g0, bs !! 0%nat = Some g0 ∧ blocks g !! 0%nat = Some g0.
Proof.
  intros Hg (Hc & Hf & Hl).
  destruct bs as [|g0 bs]; [done|]. exists g0. split; [done|].
  pose proof (cn_number _ _ Hc 0%nat g0 eq_refl) as Hn.
  apply Forall_cons in Hf as [[Hin|Hs] _].
  - apply list_elem_of_lookup in Hin as [i Hi].
    pose proof (cn_number _ _ (co_canon _ _ _ Hg) _ _ Hi) as Hi'. by replace 0%nat with i by lia.
  - destruct (co_side _ _ _ Hg _ _ Hs) as (_ & _ & Hpos & _). lia.
Qed.

Lemma ancestry_prefix g bs p b :
  chain_ok g → ancestry g ((bs ++ [p]) ++ [b]) b → ancestry g (bs ++ [p]) p ∧ b_parent b = block_hash p.
Proof.
  intros Hg Ha. rewrite <- app_assoc in Ha.
  by destruct (ancestry_snoc _ _ _ _ _ Hg Ha) as (? & ? & _).
Qed.

Lemma window_loop_walk g limit bs b acc :
  chain_ok g → origin (blocks g) → ancestry g bs b →
  window_loop limit g (block_hash b) acc = acc ++ walk_back limit (rev bs).
Proof.
  intros Hg Ho. revert bs b acc. induction limit as [|limit IH]; intros bs b acc Ha.
  { cbn. by rewrite app_nil_r. }
  pose proof Ha as (Hc & Hf & Hl).
  assert (holds g b) as Hb by (eapply Forall_forall; [exact Hf|by apply last_Some_elem_of]).
  destruct (resolve_block_known N g _ Hg (holds_known _ _ _ _ Hg Hb)) as [b' Hb'].
  destruct (resolve_block_holds N _ _ _ Hg Hb') as [Hh He].
  pose proof (holds_inj _ _ _ _ _ Hg Hh Hb He) as ->.
  cbn [window_loop]. rewrite Hb'.
  destruct (last_Some bs b) as [Hls _]. destruct (Hls Hl) as [pre ->].
  rewrite rev_app_distr. cbn [rev app walk_back].
  destruct (all_zero_chars (b_parent b)) eqn:Ez; [done|].
  destruct pre as [|p pre _] using rev_ind.
  - destruct (ancestry_first _ _ _ Hg Ha) as (g0 & E & H0). simpl in E. simplify_eq.
    by rewrite (Ho _ H0) in Ez.
  - destruct (ancestry_prefix _ _ _ _ Hg Ha) as [Ha' ->].
    rewrite (IH _ _ _ Ha'), <- app_assoc. done.
Qed.

Lemma window_ancestry g bs b :
  chain_ok g → origin (blocks g) → ancestry g bs b →
  collect_ancestor_window g (block_hash b) = window_of bs.
Proof.
  intros Hg Ho Ha. unfold collect_ancestor_window, window_of.
  by rewrite (window_loop_walk _ _ _ _ _ Hg Ho Ha).
Qed.

(** On a branch closed only by its first block the window is its last
    [RETARGET_WINDOW + 1] blocks. *)
Lemma walk_back_take limit l :
  (∀ i b, l !! i = Some b → (S i < length l)%nat → all_zero_chars (b_parent b) = false) →
  walk_back limit l = take limit l.
Proof.
  revert l. induction limit as [|limit IH]; intros [|b l] Hl; [done..|]. cbn [walk_back take].
  f_equal. destruct l as [|c l].
  { destruct limit; by destruct (all_zero_chars _). }
  rewrite (Hl 0%nat b eq_refl) by (simpl; lia). apply IH.
  intros i x Hx Hi. apply (Hl (S i)); [done|simpl in *; lia].
Qed.

(** ** The rules of a block in a state are the rules on its branch *)
Lemma consensus_valid_next g now blk parent st bs :
  chain_ok g → origin (blocks g) → ancestry g bs parent →
  consensus_valid params g now blk parent st → next_ok bs blk.
Proof.
  intros Hg Ho Ha Hv. destruct Hv. destruct cv_parent as [Hh Hp].
  split; try done.
  - intros p Hl. destruct Ha as (_ & _ & Hl'). rewrite Hl in Hl'. simplify_eq. lia.
  - rewrite <- (window_ancestry g bs parent) by done. by rewrite <- Hp.
Qed.

Lemma next_consensus_valid g now blk parent st0 st bs :
  chain_ok g → origin (blocks g) → ancestry g bs parent → b_parent blk = block_hash parent →
  b_number blk ≠ 0 → next_ok bs blk → block_hash blk ∉ seen_blocks g →
  b_timestamp blk ≤ wadd64 now MAX_FUTURE_TIMESTAMP_SECS →
  replay_blocks empty_exec bs = Ok st0 → replay_block st0 blk = Ok st →
  consensus_valid params g now blk parent st.
Proof.
  intros Hg Ho Ha Hp Hn [] Hnew Ht Hr0 Hr.
  pose proof Ha as (_ & Hf & Hl).
  assert (holds g parent) as Hh by (eapply Forall_forall; [exact Hf|by apply last_Some_elem_of]).
  split; try done.
  - split; [by apply nx_time0|done].
  - rewrite Hp, (window_ancestry g bs parent) by done. done.
  - eauto.
Qed.

(** ** Execution along a branch *)

(** Every block after the first executes on the accounts replayed before it:
    its transactions but the coinbase, its reward, and its state root. *)
Definition executes (bs : list Block) : Prop :=
  ∀ i b, bs !! S i = Some b → ∃ st0 st1 st,
    replay_blocks empty_exec (take (S i) bs) = Ok st0 ∧
    execute_txs st0 (drop 1 (b_txs b)) = Ok st1 ∧
    apply_coinbase_reward st1 (bh_miner (b_header b)) (b_number b) = Ok st ∧
    compute_state_root (es_balances st) (es_nonces st) = Ok (bh_state_root (b_header b)) ∧
    replay_blocks empty_exec (take (S (S i)) bs) = Ok st.

Lemma replay_block_executes st0 b st : b_number b ≠ 0 → replay_block st0 b = Ok st →
  ∃ st1, execute_txs st0 (drop 1 (b_txs b)) = Ok st1 ∧
    apply_coinbase_reward st1 (bh_miner (b_header b)) (b_number b) = Ok st ∧
    compute_state_root (es_balances st) (es_nonces st) = Ok (bh_state_root (b_header b)).
Proof.
  intros Hn E. unfold replay_block in E. apply bind_Ok in E as (st1 & H1%map_err_Ok & E).
  rewrite (proj2 (Z.eqb_neq _ 0) Hn) in E. cbn [negb] in E.
  apply bind_Ok in E as (st2 & H2%map_err_Ok & E). apply bind_Ok in E as (rt & H3%map_err_Ok & E).
  case_bool_decide as Hd; cbn [negb] in E; [|done]. injection E as <-. exists st1. by rewrite H3, Hd.
Qed.

Lemma replay_executes bs st : replay_blocks empty_exec bs = Ok st →
  (∀ i b, bs !! S i = Some b → b_number b ≠ 0) → executes bs.
Proof.
  intros Hst Hn i b Hb. pose proof (Hn i b Hb) as Hnz.
  assert (take (S (S i)) bs = take (S i) bs ++ [b]) as E by (by apply take_S_r).
  rewrite <- (take_drop (S (S i)) bs) in Hst. apply replay_blocks_app in Hst as (st1 & H1 & _).
  rewrite E in *. apply replay_blocks_app in H1 as H2. destruct H2 as (st0 & H0 & H2).
  cbn [replay_blocks] in H2. apply bind_Ok in H2 as (st' & H2 & [= ->]).
  destruct (replay_block_executes st0 b st1 Hnz H2) as (s & ? & ? & ?).
  by exists st0, s, st1.
Qed.

Lemma held_executes g bs b : chain_ok g → ancestry g bs b → executes bs.
Proof.
  intros Hg Ha. pose proof Ha as (Hc & Hf & Hl).
  destruct (co_replay _ _ _ Hg b) as (bs1 & st & Ha1 & Hst).
  { eapply Forall_forall; [exact Hf|by apply last_Some_elem_of]. }
  rewrite (ancestry_inj _ _ _ _ _ _ Hg Ha1 Ha) in Hst. apply (replay_executes bs st Hst).
  intros i x Hx. rewrite (cn_number _ _ Hc _ _ Hx). lia.
Qed.

(** ** Acceptance keeps the rules on every branch *)
Definition rules_ok (g : ChainState) : Prop :=
  blocks g ≠ [] ∧ origin (blocks g) ∧ ∀ bs b, ancestry g bs b → rules bs.

(** The branches of a state with one more block. *)
Lemma ancestry_added g g' blk parent bs0 :
  chain_ok g → chain_ok g' → holds g' blk → (∀ x, holds g x → holds g' x) →
  (∀ x, holds g' x → holds g x ∨ x = blk) →
  ancestry g bs0 parent → b_parent blk = block_hash parent → b_number blk ≠ 0 →
  ∀ bs b, ancestry g' bs b → ancestry g bs b ∨ b = blk ∧ bs = bs0 ++ [blk].
Proof.
  intros Hg Hg' Hblk Hsub Hsup Ha0 Hp Hn bs b Ha.
  assert (∀ l x, ancestry g l x → ancestry g' l x) as Hup.
  { intros l x. by apply ancestry_mono. }
  pose proof Ha as (_ & Hf & Hl).
  assert (holds g' b) as Hb by (eapply Forall_forall; [exact Hf|by apply last_Some_elem_of]).
  destruct (Hsup _ Hb) as [Hgb| ->].
  - destruct (co_replay _ _ _ Hg b Hgb) as (bs1 & _ & Ha1 & _).
    left. by rewrite (ancestry_inj _ _ _ _ _ _ Hg' Ha (Hup _ _ Ha1)).
  - right. split; [done|].
    assert (canonical root (bs0 ++ [blk])) as Hc
      by exact (ancestry_extend _ _ _ _ _ _ Hg' (Hup _ _ Ha0) (holds_ok _ _ _ _ Hg' Hblk) Hp Hn).
    refine (ancestry_inj _ _ _ _ _ _ Hg' Ha _).
    split_and!; [done| |by rewrite last_snoc].
    apply Forall_app_2; [apply (Hup _ _ Ha0)|by apply Forall_singleton].
Qed.

Lemma rules_add g g' blk parent bs0 :
  chain_ok g → chain_ok g' → holds g' blk → (∀ x, holds g x → holds g' x) →
  (∀ x, holds g' x → holds g x ∨ x = blk) →
  ancestry g bs0 parent → b_parent blk = block_hash parent → b_number blk ≠ 0 → next_ok bs0 blk →
  (∀ bs b, ancestry g bs b → rules bs) → ∀ bs b, ancestry g' bs b → rules bs.
Proof.
  intros Hg Hg' Hblk Hsub Hsup Ha0 Hp Hn Hnext Hr bs b Ha.
  destruct (ancestry_added _ _ _ _ _ Hg Hg' Hblk Hsub Hsup Ha0 Hp Hn _ _ Ha) as [Ha1|[_ ->]];
    [by eapply Hr|].
  apply rules_snoc; [|by eapply Hr|done]. intros ->. by destruct Ha0 as (_ & _ & ?).
Qed.

Lemma origin_app l1 l2 : l1 ≠ [] → origin l1 → origin (l1 ++ l2).
Proof. intros Hne Ho b Hb. destruct l1; [done|]. by apply (Ho b). Qed.
Lemma origin_prefix l1 l2 : l1 ≠ [] → origin (l1 ++ l2) → origin l1.
Proof. intros Hne Ho b Hb. destruct l1; [done|]. by apply (Ho b). Qed.

Lemma recorded_holds g blk d : ¬ known g (block_hash blk) →
  ∀ x, holds (recorded g blk d) x ↔ holds g x ∨ x = blk.
Proof.
  intros Hnew x. unfold holds, recorded. simpl.
  destruct (decide (block_hash x = block_hash blk)) as [E|E].
  - rewrite E, lookup_insert_eq. split.
    + intros [?|[= <-]]; [left; by left|by right].
    + intros [[?|Hs]| ->]; [by left| |by right]. destruct Hnew. right. rewrite <- E. rewrite <- E in Hs. eauto.
  - rewrite lookup_insert_ne by done. split; [naive_solver|]. intros [?| ->]; [done|done].
Qed.

Lemma rules_ok_ext g g' :
  blocks g' = blocks g → side_blocks g' = side_blocks g → rules_ok g → rules_ok g'.
Proof.
  intros Eb Es (H1 & H2 & H3). unfold rules_ok. rewrite Eb. split_and!; [done..|].
  intros bs b (Ha & Hf & Hl). eapply H3. split_and!; [done| |done].
  eapply Forall_impl; [exact Hf|]. intros x. unfold holds. by rewrite Eb, Es.
Qed.

Context (HN : N root = 0) (Hep : epoch_blocks params ≠ 0).
Abbreviation node_ok := (node_ok params N).
Abbreviation admissible := (admissible params N).

(** A block that passes the rules extends a held branch. *)
Lemma consensus_valid_branch g now blk parent st :
  chain_ok g → origin (blocks g) → admissible blk → consensus_valid params g now blk parent st →
  b_number blk ≠ 0 ∧ ¬ known g (block_hash blk) ∧
  ∃ bs, ancestry g bs parent ∧ b_parent blk = block_hash parent ∧ next_ok bs blk.
Proof.
  intros Hg Ho Ha Hv. destruct (cv_state _ _ _ _ _ _ Hv) as (bs & _ & Hbs & _).
  destruct (cv_parent _ _ _ _ _ _ Hv) as [Hh Hp]. pose proof (cv_number _ _ _ _ _ _ Hv) as Hn.
  destruct (consensus_valid_ok _ _ HN _ _ _ _ _ Hg Ha Hn Hv) as (_ & _ & Hnew & _).
  split_and!; [done..|]. exists bs. split_and!; [done..|]. by eapply consensus_valid_next.
Qed.

Lemma core_outcome_rules n blk n' r i :
  node_ok n → node_ok n' → admissible blk → core_outcome params clock N n blk n' r i →
  rules_ok (n_chain n) → rules_ok (n_chain n').
Proof.
  intros Hn Hn' Ha Hout Hr. pose proof Hr as (Hne & Ho & Hall).
  pose proof (no_chain _ _ _ Hn) as Hg. pose proof (no_chain _ _ _ Hn') as Hg'.
  destruct Hout as [e E|Hz Hh Hb E|peer now Hk E|parent st0 st Hv Heq Hp E|parent st Hv Hp E Hd|parent st rec d Hv Hp Hlt Hrd Hro Hpend].
  - eapply rules_ok_ext; [..|exact Hr]; by rewrite E.
  - done.
  - eapply rules_ok_ext; [..|exact Hr]; by rewrite E, add_orphan_state.
  - destruct (consensus_valid_branch _ _ _ _ _ Hg Ho Ha Hv) as (Hnz & Hnew & bs & Hbs & Hpar & Hnext).
    assert (∀ x, holds (n_chain n') x ↔ holds (n_chain n) x ∨ x = blk) as Hh.
    { intros x. rewrite E. unfold holds. simpl. rewrite elem_of_app, list_elem_of_singleton. tauto. }
    split_and!; [|rewrite E; by apply origin_app|].
    { rewrite E. simpl. by intros [? _]%app_eq_nil. }
    eapply (rules_add (n_chain n)); [done|done| | | |exact Hbs|done..].
    + apply Hh. by right.
    + intros x Hx. apply Hh. by left.
    + intros x. apply Hh.
  - destruct (consensus_valid_branch _ _ _ _ _ Hg Ho Ha Hv) as (Hnz & Hnew & bs & Hbs & Hpar & Hnext).
    pose proof (recorded_holds (n_chain n) blk (db (n_chain n')) Hnew) as Hh. rewrite <- E in Hh.
    split_and!; [by rewrite E..|].
    eapply (rules_add (n_chain n)); [done|done| | | |exact Hbs|done..].
    + apply Hh. by right.
    + intros x Hx. apply Hh. by left.
    + intros x. apply Hh.
  - destruct (consensus_valid_branch _ _ _ _ _ Hg Ho Ha Hv) as (Hnz & Hnew & bs & Hbs & Hpar & Hnext).
    pose proof (recorded_holds (n_chain n) blk d Hnew) as Hh.
    destruct (ro_chain _ _ _ _ _ Hro) as (kept & gone & seg & E1 & E2 & Hk & _).
    split_and!.
    + rewrite E2. by intros [? _]%app_eq_nil.
    + rewrite E2. apply origin_app; [done|]. change (blocks (recorded _ _ _)) with (blocks (n_chain n)) in E1.
      rewrite E1 in Ho. by eapply origin_prefix.
    + eapply (rules_add (n_chain n)); [done|done| | | |exact Hbs|done..].
      * apply (ro_holds _ _ _ _ _ Hro), Hh. by right.
      * intros x Hx. apply (ro_holds _ _ _ _ _ Hro), Hh. by left.
      * intros x Hx. apply Hh. by apply (ro_holds _ _ _ _ _ Hro).
Qed.

(** ** Lifting an invariant of one block to [apply_block]

    For blocks, handed in or waiting as orphans, that satisfy [Q]. *)
Definition orphans_in (Q : Block → Prop) (g : ChainState) : Prop :=
  ∀ k e, entry_of (orphan_pool g) k e → Q e.1.1.

Section lifting.
Context (Q : Block → Prop) (I : ChainState → Prop).
Context (Iorphans : ∀ g p h, I g → I (set_orphans p h g)).
Context (Icore : ∀ n blk n' r i, node_ok n → node_ok n' → admissible blk → Q blk →
  core_outcome params clock N n blk n' r i → I (n_chain n) → I (n_chain n')).

Abbreviation kept n := (node_ok n ∧ orphans_in Q (n_chain n) ∧ I (n_chain n)).
Abbreviation keeps f := (∀ n blk src n' r, kept n → admissible blk → Q blk →
  apply_fuel params clock f n blk src = Done (n', r) → kept n').

Lemma promote_waiting_keeps f waiting n k n' k' :
  keeps f → kept n → (∀ e, e ∈ waiting → admissible e.1.1 ∧ Q e.1.1) →
  promote_waiting (apply_fuel params clock f) n k waiting = Done (n', k') → kept n'.
Proof.
  intros IHf. revert n k. induction waiting as [|[[b ts] peer] waiting IH]; intros n k Hn Hw E.
  { by injection E as <- <-. }
  cbn [promote_waiting] in E. apply run_bind_Done in E as ([m r] & E1 & E2).
  destruct (Hw (b, ts, peer)) as [Ha Hq]; [by left|]. destruct Hn as (Hn & Ho & Hi).
  assert (kept (set_chain (set_orphans (orphan_pool (n_chain n))
    (delete (block_hash b) (orphan_by_hash (n_chain n))) (n_chain n)) n)) as Hn1.
  { split; [by apply node_ok_orphans|]. split; [exact Ho|by apply Iorphans]. }
  eapply IH; [exact (IHf _ _ _ _ _ Hn1 Ha Hq E1)| |exact E2]. intros e He. apply Hw. by right.
Qed.

Lemma core_outcome_orphans n blk n' r i :
  core_outcome params clock N n blk n' r i → Q blk →
  orphans_in Q (n_chain n) → orphans_in Q (n_chain n').
Proof.
  intros Hout Hq Ho.
  destruct Hout as [e E|Hz Hh Hb E|peer now Hk E|parent st0 st Hv Heq Hp E|parent st Hv Hp E Hd|parent st rec d Hv Hp Hlt Hrd Hro Hpend].
  - by rewrite E.
  - by rewrite E.
  - rewrite E. intros k e He. apply add_orphan_entries in He as [[_ ->]|He]; [done|by eapply Ho].
  - by rewrite E.
  - by rewrite E.
  - unfold orphans_in. destruct (ro_pool _ _ _ _ _ Hro) as [-> _]. exact Ho.
Qed.

Lemma apply_fuel_keeps f : keeps f.
Proof.
  induction f as [|f IH]; intros n blk src n' r Hk Ha Hq E; [done|]. cbn [apply_fuel] in E.
  destruct Hk as (Hn & Ho & Hi).
  destruct (apply_core_refines params clock N HN Hep n blk src Hn Ha) as (m & r1 & i & Ec & Hout & Hm).
  rewrite Ec in E. cbn [mbind run_bind] in E. pose proof (Icore _ _ _ _ _ Hn Hm Ha Hq Hout Hi) as Him.
  pose proof (core_outcome_orphans _ _ _ _ _ Hout Hq Ho) as Hom.
  destruct i; [|by simplify_eq]. apply run_bind_Done in E as ([m' k] & E1 & E2). injection E2 as <- <-.
  unfold process_orphans in E1.
  destruct (orphan_pool (n_chain m) !! block_hash blk) as [waiting|] eqn:Ew; [|by simplify_eq].
  assert (∀ k' e, entry_of (delete (block_hash blk) (orphan_pool (n_chain m))) k' e →
    entry_of (orphan_pool (n_chain m)) k' e) as Hsub.
  { intros k' e (es & Hes & Hin). apply lookup_delete_Some in Hes as [_ Hes]. by exists es. }
  eapply promote_waiting_keeps; [exact IH| | |exact E1].
  - split; [|split; [|by apply Iorphans]].
    + apply node_ok_orphans; [done|done|]. pose proof (pool_total_delete _ _ _ Ew). lia.
    + intros k' e He. by eapply Hom, Hsub.
  - intros e He. assert (entry_of (orphan_pool (n_chain m)) (block_hash blk) e) as Hen by (by exists waiting).
    destruct (oo_entry _ _ _ (no_orphans _ _ _ Hm) _ _ Hen) as (_ & ? & _). split; [done|by eapply Hom].
Qed.

Lemma apply_block_keeps n blk src n' r :
  node_ok n → orphans_in Q (n_chain n) → I (n_chain n) → admissible blk → Q blk →
  apply_block params clock n blk src = Done (n', r) →
  orphans_in Q (n_chain n') ∧ I (n_chain n').
Proof.
  intros Hn Ho Hi Ha Hq E.
  by destruct (apply_fuel_keeps _ n blk src n' r ltac:(by split) Ha Hq E) as (_ & ? & ?).
Qed.
End lifting.

Lemma orphans_in_True g : orphans_in (λ _, True) g.
Proof. by intros ? ? ?. Qed.

Lemma apply_block_rules n blk src n' r :
  node_ok n → admissible blk → rules_ok (n_chain n) →
  apply_block params clock n blk src = Done (n', r) → rules_ok (n_chain n').
Proof.
  intros Hn Ha Hr E.
  refine (proj2 (apply_block_keeps (λ _, True) rules_ok _ _ n blk src n' r Hn (orphans_in_True _) Hr Ha Logic.I E)).
  - intros g p h. by apply rules_ok_ext.
  - intros ? ? ? ? ? Hm Hm' Hb _ Hout. exact (core_outcome_rules _ _ _ _ _ Hm Hm' Hb Hout).
Qed.

(** A chain of just the genesis block. *)
Lemma rules_ok_genesis g g0 :
  chain_ok g → blocks g = [g0] → size (side_blocks g) = 0%nat → all_zero_chars (b_parent g0) = true →
  rules_ok g.
Proof.
  intros Hg Hb Hs%map_size_empty_iff Hz. unfold rules_ok. rewrite Hb. split_and!; [done| |].
  { by intros b [= <-]. }
  intros bs b Ha i x Hx. exfalso. pose proof Ha as (Hc & Hf & _).
  pose proof (Forall_lookup_1 _ _ _ _ Hf Hx) as [Hin|Hside]; [|by rewrite Hs in Hside].
  rewrite Hb in Hin. apply list_elem_of_singleton in Hin as ->.
  pose proof (cn_number _ _ Hc _ _ Hx) as H1.
  pose proof (cn_number _ _ (co_canon _ _ _ Hg) 0%nat g0) as H2. rewrite Hb in H2.
  specialize (H2 eq_refl). lia.
Qed.

(** ** Properties *)

(** C27: Every block the node holds, on the canonical chain or beside it,
    satisfies on its own branch every consensus rule but those on the moment
    of its arrival (novelty, the clock limit): weight, transaction root,
    coinbase with the right height, strictly increasing timestamps, the
    retargeted difficulty computed from the last blocks of that branch, valid
    proof of work and distinct transactions; and, from the accounts replayed
    along that branch, its transactions execute, its reward is paid to a valid
    miner address and the accounts that result have the state root of its
    header.  Handing the node any block whose height is truthful
    ([admissible]), with whatever reorganisations and orphan promotions
    follow, keeps this. *)
Theorem held_branches_follow_rules n blk src n' r :
  node_ok n → admissible blk → rules_ok (n_chain n) →
  apply_block params clock n blk src = Done (n', r) →
  rules_ok (n_chain n') ∧ ∀ bs b, ancestry (n_chain n') bs b → executes bs.
Proof.
  intros Hn Ha Hr E. split; [by eapply apply_block_rules|].
  destruct (apply_block_ok params clock N HN Hep n blk src Hn Ha) as (n1 & r1 & E1 & Hn1 & _).
  rewrite E in E1. injection E1 as <- <-. intros bs b. apply held_executes, Hn1.
Qed.

End rules.

Lemma toy_node1_rules : rules_ok tiny_params (n_chain toy_node1).
Proof.
  apply (rules_ok_genesis tiny_params toy_N _ genesis_block);
    [apply (no_chain tiny_params toy_N), toy_node1_ok; reflexivity|vm_compute; reflexivity..].
Qed.
Lemma toy_step_rules n b :
  b ∈ [genesis_block; toy_b1; toy_s1; toy_s2] → node_ok tiny_params toy_N n →
  rules_ok tiny_params (n_chain n) → rules_ok tiny_params (n_chain (toy_step n b)).
Proof.
  intros Hb Hn Hr. unfold toy_step, toy_apply.
  destruct (apply_block tiny_params toy_clock n b None) as [[n' r]| |] eqn:E; [|done..].
  apply (apply_block_rules tiny_params toy_clock toy_N eq_refl ltac:(discriminate) n b None n' r);
    [done|by apply toy_admissible|done..].
Qed.
Lemma toy_node3_rules : rules_ok tiny_params (n_chain toy_node3).
Proof.
  apply toy_step_rules; [do 2 right; left| |].
  - apply toy_step_ok; [right; left|]. apply toy_node1_ok. reflexivity.
  - apply toy_step_rules; [right; left| |exact toy_node1_rules]. apply toy_node1_ok. reflexivity.
Qed.

Lemma held_branches_follow_rules_witness :
  ∃ n' r, apply_block tiny_params toy_clock toy_node3 toy_s2 None = Done (n', r) ∧
    rules_ok tiny_params (n_chain n') ∧
    ∀ bs b, ancestry GENESIS_HASH (n_chain n') bs b → executes bs.
Proof.
  destruct (ran_Done (apply_block tiny_params toy_clock toy_node3 toy_s2 None)
    (λ _, true)) as ([n' r] & E & _); [vm_compute; reflexivity|].
  exists n', r. split; [exact E|].
  exact (held_branches_follow_rules tiny_params toy_clock toy_N eq_refl ltac:(discriminate)
    toy_node3 toy_s2 None n' r toy_node3_ok toy_s2_admissible toy_node3_rules E).
Defined.
