(* ===== verification/Rooted.v ===== *)
(** * What a node keeps for its next start

    The genesis block first in its chain, and in its database the marker
    [meta:genesis_hash], by which start-up tells a database in use from a new
    one.  No block changes either. *)
From S2P Require Import Prelude Crypto Constants Transaction Block StateRoot Difficulty HistoricalVpow VisionX Sled ChainState Storage Snapshots Reward Reorg Orphan Consistency Genesis Accept Acceptance Rules.

(** ** The lanes of a run *)
Section lanes.
Context {C : Crypto} {TC : TxCodec} {SL : Sled} {SC : StoreCodec}.
Context (params : VisionXParams) (clock : nat → Z).

(** A run of the pipeline changes the chain in one of four places. *)
Inductive core_lane (g : ChainState) (blk : Block) : ChainState → AcceptResult → bool → Prop :=
| lane_none r : core_lane g blk g r false
| lane_genesis g' r : b_number blk = 0 → apply_genesis g blk = (g', r) → core_lane g blk g' r false
| lane_orphan peer now r : core_lane g blk (add_orphan g blk peer now) r false
| lane_tip st cw g' r i : b_number blk ≠ 0 → b_parent blk = tip_hash g → lane_a g blk st cw = (g', r, i) →
    core_lane g blk g' r i
| lane_side cw tip_cw g' r i : b_number blk ≠ 0 → b_parent blk ≠ tip_hash g →
    lane_b g blk cw tip_cw = Done (g', r, i) → core_lane g blk g' r i.

Lemma apply_with_parent_lane n blk p tw cw n' r i : b_number blk ≠ 0 →
  apply_with_parent params clock n blk p tw cw = Done (n', r, i) →
  core_lane (n_chain n) blk (n_chain n') r i.
Proof.
  intros Hz E. unfold apply_with_parent in E. cbn [read_clock n_chain n_pow n_datasets n_ticks] in E.
  destruct (check_monotonic _ _); [|injection E as <- <- <-; constructor].
  destruct (_ ≫= _); [|injection E as <- <- <-; constructor].
  destruct (verify_visionx_pow _ _ _) as [[c pow]| |]; [|done..]. cbn [mbind run_bind] in E.
  destruct pow; [|injection E as <- <- <-; constructor].
  destruct (check_coinbase_height _) as [cbh| |]; [|done..]. cbn [mbind run_bind] in E.
  destruct (_ ≫= _); [|injection E as <- <- <-; constructor].
  destruct (parent_state _ _ _) as [ps| |]; [|done..]. cbn [mbind run_bind] in E.
  destruct (_ ≫= _) as [st|]; [|injection E as <- <- <-; constructor].
  case_bool_decide as Hp; cbn [mbind run_bind] in E.
  - destruct (lane_a _ _ _ _) as [[g' r'] i'] eqn:El. injection E as <- <- <-. by eapply lane_tip.
  - apply run_bind_Done in E as ([[g' r'] i'] & El & E). injection E as <- <- <-. by eapply lane_side.
Qed.
Lemma apply_core_lane n blk src n' r i :
  apply_core params clock n blk src = Done (n', r, i) → core_lane (n_chain n) blk (n_chain n') r i.
Proof.
  intros E. unfold apply_core in E. cbn [n_chain] in E.
  destruct (check_structure _ _); [|injection E as <- <- <-; constructor].
  destruct (Z.eqb_spec (b_number blk) 0) as [Hz|Hz].
  { destruct (apply_genesis _ _) as [g' r'] eqn:Eg. injection E as <- <- <-. by apply lane_genesis. }
  destruct (_ && _); [injection E as <- <- <-; apply lane_orphan|].
  destruct (resolve_block _ _) as [p|]; [|done]. by apply apply_with_parent_lane in E.
Qed.
End lanes.

(** ** Records no block touches *)
Section foreign.
Context {C : Crypto} {CL : CryptoLaws C} {TC : TxCodec} {SL : Sled} {SLL : SledLaws SL} {SC : StoreCodec}.

Record foreign_key (k : list byte) : Prop := {
  fk_block h : k ≠ block_key h;
  fk_height n : k ≠ height_key n;
  fk_tip_height : k ≠ tip_height_key;
  fk_tip_hash : k ≠ tip_hash_key;
  fk_snapshot : ¬ snapshot_record k
}.
Context (k : list byte) (Hk : foreign_key k).
Abbreviation stored g := (db_contents (db g) !! k).

Lemma stored_ignores v k' : k' ≠ k → ignores (λ m : contents_map, m !! k = v) k'.
Proof. intros Hne m m' Ho Hm. by rewrite Ho. Qed.
Lemma extension_foreign b g g' r : persist_canonical_extension b g = (g', r) → stored g' = stored g.
Proof.
  intros E. destruct r as [[]|e]; [|by apply db_batch_Err in E as [-> _]].
  apply db_batch_Ok in E as [-> _]. apply batch_ops_notin. cbn. rewrite !elem_of_cons.
  intros [E|[E|[E|[E|E%elem_of_nil]]]]; [by eapply fk_block|by eapply fk_height|
    by eapply fk_tip_height|by eapply fk_tip_hash|done].
Qed.
Lemma reorg_foreign bs prev g g' r : persist_canonical_reorg bs prev g = (g', r) → stored g' = stored g.
Proof.
  unfold persist_canonical_reorg. rewrite stm_lift_bind. intros E.
  destruct (last bs) as [tip|]; cbn [ok_or] in E; [|by injection E as <- _].
  destruct r as [[]|e]; [|by apply db_batch_Err in E as [-> _]].
  apply db_batch_Ok in E as [-> _]. apply batch_ops_notin.
  intros (op & -> & Hop)%list_elem_of_fmap.
  destruct (elem_of_reorg_ops _ _ _ _ Hop) as [(y & Hy & [->| ->])|[(n & Hn & ->)|[->| ->]]]; destruct Hk;
    cbn [op_key] in *; congruence.
Qed.
Lemma snapshot_foreign g g' r : maybe_save_snapshot g = (g', r) → stored g' = stored g.
Proof.
  intros E. refine (proj2 (maybe_save_snapshot_db_only (λ m, m !! k = stored g) _ g g' r E eq_refl)).
  intros k' Hk'. apply stored_ignores. intros ->. by apply (fk_snapshot _ Hk).
Qed.
Lemma try_reorg_foreign g tip g' r : try_reorg g tip = Done (g', r) → stored g' = stored g.
Proof.
  intros E. unfold try_reorg in E. apply run_bind_Done in E as (seg & _ & E).
  destruct seg as [|first seg]; [by injection E as <- _|].
  destruct (canon_index g !! _) as [h|]; [|by injection E as <- _].
  destruct (validate_branch _ _ _ _ _) as [[st rt]|]; [|by injection E as <- _].
  apply run_bind_Done in E as (kept & _ & E).
  destruct (persist_canonical_reorg _ _ _) as [g1 [[]|e]] eqn:Ep; injection E as <- _;
    exact (reorg_foreign _ _ _ _ _ Ep).
Qed.
Lemma lane_foreign g blk g' r i : core_lane g blk g' r i → stored g' = stored g.
Proof.
  destruct 1 as [r|g' r _ E|peer now r|st cw g' r i _ _ E|cw tw g' r i _ _ E].
  - done.
  - unfold apply_genesis in E. repeat case_match; simplify_eq; try done;
      by match goal with H : persist_canonical_extension _ _ = _ |- _ => rewrite <- (extension_foreign _ _ _ _ H) end.
  - by rewrite add_orphan_state.
  - unfold lane_a in E. destruct (persist_canonical_extension _ _) as [g1 [[]|e]] eqn:E1.
    + destruct (maybe_save_snapshot _) as [g3 r3] eqn:E3. injection E as <- _ _.
      cbn [fst]. rewrite (snapshot_foreign _ _ _ E3). exact (extension_foreign _ _ _ _ E1).
    + injection E as <- _ _. by eapply extension_foreign.
  - unfold lane_b in E. destruct (store_block _ _) as [g1 r1] eqn:E1.
    assert (stored g1 = stored g) as H1 by (eapply db_put_other; [exact E1|by apply (fk_block _ Hk)]).
    destruct r1; [|injection E as <- _ _; exact H1].
    destruct (_ <? _); [|by injection E as <- _ _].
    apply run_bind_Done in E as ([g2 rec] & E2 & E). apply try_reorg_foreign in E2.
    destruct rec; injection E as <- _ _; rewrite <- H1; exact E2.
Qed.

(** A block changes none of them, however many orphans it releases. *)
Context (params : VisionXParams) (clock : nat → Z).
Lemma promote_foreign f waiting : ∀ n k0 n' k',
  (∀ n blk src n' r, apply_fuel params clock f n blk src = Done (n', r) → stored (n_chain n') = stored (n_chain n)) →
  promote_waiting (apply_fuel params clock f) n k0 waiting = Done (n', k') → stored (n_chain n') = stored (n_chain n).
Proof.
  induction waiting as [|[[b ts] peer] waiting IH]; intros n k0 n' k' Hf E; cbn [promote_waiting] in E.
  { by injection E as <- _. }
  apply run_bind_Done in E as ([m r] & E1 & E2). rewrite (IH _ _ _ _ Hf E2). by rewrite (Hf _ _ _ _ _ E1).
Qed.
Lemma apply_fuel_foreign f : ∀ n blk src n' r,
  apply_fuel params clock f n blk src = Done (n', r) → stored (n_chain n') = stored (n_chain n).
Proof.
  induction f as [|f IH]; intros n blk src n' r E; [done|]. cbn [apply_fuel] in E.
  apply run_bind_Done in E as ([[m r1] i] & E1 & E). apply apply_core_lane, lane_foreign in E1.
  destruct i; [|injection E as <- _; exact E1]. apply run_bind_Done in E as ([m' k'] & E2 & E).
  injection E as <- _. rewrite <- E1. unfold process_orphans in E2.
  destruct (orphan_pool _ !! _); [|by injection E2 as <- _]. exact (promote_foreign _ _ _ _ _ _ IH E2).
Qed.
Lemma apply_block_foreign n blk src n' r :
  apply_block params clock n blk src = Done (n', r) → stored (n_chain n') = stored (n_chain n).
Proof. apply apply_fuel_foreign. Qed.
End foreign.

(** ** The genesis block and its marker *)
Definition genesis_key : list byte := meta_key "genesis_hash".
Lemma genesis_key_foreign : foreign_key genesis_key.
Proof.
  split; intros.
  - apply not_eq_sym, block_meta_ne.
  - apply not_eq_sym, height_meta_ne.
  - by intros E%meta_key_inj.
  - by intros E%meta_key_inj.
  - intros (h & Hk). repeat (apply elem_of_cons in Hk as [E|Hk]; [by apply (inj string_bytes) in E|]).
    by apply elem_of_nil in Hk.
Qed.

Section rooted.
Context {C : Crypto} {CL : CryptoLaws C} {TC : TxCodec} {SL : Sled} {SLL : SledLaws SL} {SC : StoreCodec}.
Context (params : VisionXParams) (clock : nat → Z) (N : string → Z).
Context (HN : N GENESIS_HASH = 0) (Hep : epoch_blocks params ≠ 0).

Record rooted (g : ChainState) : Prop := {
  rt_first : blocks g !! 0%nat = Some genesis_block;
  rt_marker : db_contents (db g) !! genesis_key = Some (string_bytes GENESIS_HASH)
}.

Lemma core_outcome_first n blk n' r i : core_outcome params clock N n blk n' r i →
  blocks (n_chain n) !! 0%nat = Some genesis_block → blocks (n_chain n') !! 0%nat = Some genesis_block.
Proof.
  intros Hout H0.
  destruct Hout as [e E|Hz Hh Hb E|peer now Hk E|parent st0 st Hv Heq Hp E|parent st Hv Hp E Hd|parent st rec d Hv Hp Hlt Hrd Hro Hpend].
  - by rewrite E.
  - by rewrite Hb in H0.
  - by rewrite E, add_orphan_state.
  - rewrite E. simpl. by apply lookup_app_l_Some.
  - by rewrite E.
  - destruct (ro_chain _ _ _ _ _ Hro) as (kept & gone & seg & E1 & E2 & Hk & _).
    change (blocks (recorded _ _ _)) with (blocks (n_chain n)) in E1. rewrite E1 in H0. rewrite E2.
    by destruct kept.
Qed.
Lemma apply_block_rooted n blk src n' r :
  node_ok params N n → admissible params N blk → rooted (n_chain n) →
  apply_block params clock n blk src = Done (n', r) → rooted (n_chain n').
Proof.
  intros Hn Ha Hr E.
  destruct Hr as [H1 H2]. split.
  - refine (proj2 (apply_block_keeps params clock N HN Hep (λ _, True)
      (λ g, blocks g !! 0%nat = Some genesis_block) _ _ n blk src n' r Hn (orphans_in_True _) H1 Ha Logic.I E)).
    + done.
    + intros m b m' r' i _ _ _ _ Hout. by eapply core_outcome_first.
  - by rewrite (apply_block_foreign _ genesis_key_foreign _ _ _ _ _ _ _ E).
Qed.

(** The marker can be stored beside any chain. *)
Definition with_db (d : Db) (n : Node) : Node := set_chain (set_db d (n_chain n)) n.
Lemma node_ok_marker n d v : node_ok params N n →
  db_contents d = <[genesis_key := v]> (db_contents (db (n_chain n))) → node_ok params N (with_db d n).
Proof.
  intros [Hg Hc Ho] Hd. split; [|exact Hc|by apply (orphans_ok_pool params N (n_chain n))].
  apply chain_ok_set_db; [exact Hg|]. destruct genesis_key_foreign as [K1 K2 K3 K4 _].
  refine (mirrors_ignores (blocks (n_chain n)) genesis_key _ K2 K3 K4 _ _ _ (co_db _ _ _ Hg)); [by intros b _|].
  intros k' Hk. rewrite Hd. by rewrite lookup_insert_ne.
Qed.
End rooted.
