(* ===== verification/Manager.v ===== *)
(** * The miner manager ([src/miner/manager.rs])

    Job distribution and the two ends of mining: building a candidate on the
    canonical tip and submitting a solution through block acceptance.  The
    manager's mutex-protected fields and its atomic job id are one record; the
    global job counter is threaded explicitly. *)
From S2P Require Import Prelude Crypto Constants Transaction Block StateRoot Difficulty HistoricalVpow VisionX VisionXMiner Sled ChainState Storage Snapshots Reward Job Reorg Zeros Orphan Consistency Genesis Accept Acceptance Consensus Rules.

Record MinerManager := mkManager {
  mm_current_job : option MiningJob;
  mm_last_built_epoch : option Z;
  mm_blocks_found : Z;
  mm_start_time : Z;
  mm_active_job_id : Z;
  mm_params : VisionXParams
}.
Record MiningStats := mkStats { ms_blocks_found : Z; ms_start_time : Z }.

(** [MinerManager::new]; [now] is [Instant::now()]. *)
Definition new_manager (params : VisionXParams) (now : Z) : MinerManager :=
  mkManager None None 0 now 0 params.

Definition build_job (job : MiningJob) (m : MinerManager) : MinerManager :=
  let epoch := mj_epoch job in
  let needs_dataset_rebuild := negb (bool_decide (mm_last_built_epoch m = Some epoch)) in
  mkManager (Some job) (if needs_dataset_rebuild then Some epoch else mm_last_built_epoch m)
    (mm_blocks_found m) (mm_start_time m) (mj_job_id job) (mm_params m).
Definition clear_job (m : MinerManager) : MinerManager :=
  mkManager None (mm_last_built_epoch m) (mm_blocks_found m) (mm_start_time m) 0 (mm_params m).
Definition is_current_job (m : MinerManager) (job_id : Z) : bool := mm_active_job_id m =? job_id.
Definition current_job (m : MinerManager) : option MiningJob := mm_current_job m.
Definition is_mining (m : MinerManager) : bool := bool_decide (is_Some (mm_current_job m)).
Definition stats (m : MinerManager) : MiningStats := mkStats (mm_blocks_found m) (mm_start_time m).
Definition record_block_found (m : MinerManager) : MinerManager :=
  mkManager (mm_current_job m) (mm_last_built_epoch m) (wadd64 (mm_blocks_found m) 1)
    (mm_start_time m) (mm_active_job_id m) (mm_params m).

(** [NEXT_JOB_ID.fetch_add(1)]: the counter wraps. *)
Definition next_job_id (counter : Z) : Z * Z := (counter, wadd64 counter 1).

Section manager.
Context {C : Crypto} {TC : TxCodec} {SL : Sled} {SC : StoreCodec}.
Context (params : VisionXParams) (clock : nat → Z).

Definition submit_solution (m : MinerManager) (n : Node) (block : Block)
    : run (MinerManager * Node * AcceptResult) :=
  '(n, result) ← apply_block params clock n block None;
  match result with
  | CanonExtension _ =>
      Done (record_block_found m,
            set_chain (refresh_cached_state_root_from_tip (n_chain n)) n, result)
  | _ => Done (m, n, result)
  end.

(** The template with the state root of the executed candidate. *)
Definition with_state_root (job : MiningJob) (root : string) : MiningJob :=
  let h := mj_header_template job in
  let h := mkHeader (bh_parent_hash h) (bh_number h) (bh_timestamp h) (bh_difficulty h)
    (bh_nonce h) (bh_pow_hash h) root (bh_tx_root h) (bh_miner h) in
  mkMiningJob h (mj_target_difficulty job) (mj_epoch job) (mj_visionx_params job) (encode_header h)
    (mj_job_id job) (mj_txs job).
(** Execution of a candidate on the tip's accounts: the completed job. *)
Definition execute_candidate (g : ChainState) (miner_addr : string) (height : Z) (job : MiningJob)
    : option MiningJob :=
  state ← res_ok (execute_txs (mkExec (balances g) (nonces g)) (drop 1 (mj_txs job)));
  state ← res_ok (apply_coinbase_reward state miner_addr height);
  root ← res_ok (compute_state_root (es_balances state) (es_nonces state));
  Some (with_state_root job root).

Definition build_candidate_for_tip (m : MinerManager) (n : Node) (counter : Z)
    (miner_addr : string) (mempool_txs : list Tx) : run (Node * Z * option MiningJob) :=
  let g := n_chain n in
  match last (blocks g) with
  | None => Done (n, counter, None)
  | Some tip =>
      let '(n, t) := read_clock clock n in
      let now := Z.max t (wadd64 (b_timestamp tip) 1) in
      let limit := Z.to_nat (RETARGET_WINDOW + 1) in
      let window := rev (take limit (rev (blocks g))) in
      let '(job_id, counter) := next_job_id counter in
      job ← build_candidate_with_params tip job_id miner_addr mempool_txs window now (mm_params m);
      Done (n, counter, execute_candidate g miner_addr (wadd64 (b_number tip) 1) job)
  end.

End manager.

(** ** A solved nonce has valid proof of work *)
Section mining.
Context {C : Crypto} {CL : CryptoLaws C} {TC : TxCodec} {SL : Sled} {SLL : SledLaws SL}
  {SC : StoreCodec}.
Context (params : VisionXParams) (clock : nat → Z) (N : string → Z).

(** The block of a successful nonce and its digest. *)
Lemma try_nonce_spec c job nonce c' blk :
  cache_ok c → try_nonce c job nonce = Done (c', Some blk) →
  ∃ prev pre hash,
    Job.decode_hash_32 (bh_parent_hash (mj_header_template job)) = Ok prev ∧
    historical_vpow_message_bytes_with_nonce_zero (nonce_header job nonce) = Ok pre ∧
    fresh_digest (mj_visionx_params job) prev (mj_epoch job) pre nonce = Done (Ok hash) ∧
    be_val (take 8 hash) ≤ U64_MAX / Z.max (mj_target_difficulty job) 1 ∧
    blk = solved_block job (nonce_header job nonce) hash.
Proof.
  intros Hc E. unfold try_nonce in E.
  change (bh_parent_hash (nonce_header job nonce)) with (bh_parent_hash (mj_header_template job)) in E.
  destruct (Job.decode_hash_32 _) as [prev|] eqn:Ed; [|done].
  unfold build_historical_job, from_historical_header in E.
  destruct (historical_vpow_message_bytes_with_nonce_zero (nonce_header job nonce)) as [pre|] eqn:Ep;
    [|done]. cbn [map_err mbind result_bind] in E.
  set (pj := mkPowJob _ _ _ _ _ _ _) in E.
  unfold solution_for_nonce in E.
  destruct (hash_for_nonce_spec c pj nonce Hc) as (c1 & E1 & Hc1). rewrite E1 in E.
  cbn [mbind run_bind] in E.
  destruct (job_digest pj nonce) as [hash|] eqn:Eh; cbn [mbind result_bind] in E; [|done].
  unfold verify_solution in E. rewrite bool_decide_true in E by done. cbn [negb] in E.
  destruct (validate_solution_spec c1 pj (mkSolution nonce hash) Hc1) as (c2 & v & E2 & _ & Hv).
  rewrite E2 in E. cbn [mbind run_bind] in E. destruct v; cbn [negb] in E; [|done].
  destruct (proj1 Hv eq_refl) as (_ & _ & Ht). injection E as _ <-.
  unfold job_digest in Eh. cbn [pj_historical_preimage pj] in Eh.
  exists prev, pre, hash. split_and!; [done|done| | |done].
  - cbn [vm_params pj_params pj_prev_hash32 pj_epoch pj] in Eh.
    destruct (fresh_digest_total (mj_visionx_params job) prev (mj_epoch job) pre nonce) as (d & Hd & _).
    rewrite Hd in Eh |- *. destruct d; simpl in Eh; by simplify_eq.
  - assert (length hash = 32%nat) as Hl.
    { cbn [vm_params pj_params pj_prev_hash32 pj_epoch pj] in Eh.
      destruct (fresh_digest_total (mj_visionx_params job) prev (mj_epoch job) pre nonce) as (d & Hd & Hl).
      rewrite Hd in Eh. destruct d; simpl in Eh; simplify_eq. by apply (Hl _ eq_refl). }
    unfold target_met in Ht. cbn [sol_hash pj_target pj] in Ht.
    rewrite meets_target_spec in Ht by lia. by apply Z.leb_le.
Qed.

Lemma try_nonce_pow_valid c job nonce c' blk :
  cache_ok c → mj_visionx_params job = params →
  mj_epoch job = bh_number (mj_header_template job) / epoch_blocks params →
  mj_target_difficulty job = bh_difficulty (mj_header_template job) →
  try_nonce c job nonce = Done (c', Some blk) → pow_valid params blk.
Proof.
  intros Hc Hp He Ht E.
  destruct (try_nonce_spec _ _ _ _ _ Hc E) as (prev & pre & hash & Hd & Hpre & Hf & Hle & ->).
  unfold pow_valid, pow_check.
  change (VisionX.decode_hash_32 (b_parent _)) with
    (Job.decode_hash_32 (bh_parent_hash (mj_header_template job))). rewrite Hd.
  rewrite solved_preimage, Hpre. rewrite Hp, He in Hf.
  change (b_number (solved_block _ _ _)) with (bh_number (mj_header_template job)).
  change (bh_nonce (b_header (solved_block _ _ _))) with nonce. rewrite Hf.
  change (b_difficulty (solved_block _ _ _)) with (bh_difficulty (mj_header_template job)).
  rewrite <- Ht, (proj2 (Z.leb_le _ _) Hle). by rewrite bool_decide_true.
Qed.

(** What a completed candidate is. *)
Lemma build_candidate_spec m n counter addr txs n' counter' job :
  build_candidate_for_tip clock m n counter addr txs = Done (n', counter', Some job) →
  let g := n_chain n in
  ∃ tip st1 st root, last (blocks g) = Some tip ∧ n' = (read_clock clock n).1 ∧
    let now := Z.max (clock (n_ticks n)) (wadd64 (b_timestamp tip) 1) in
    let height := wadd64 (b_number tip) 1 in
    mj_txs job = candidate_txs height txs ∧
    mj_target_difficulty job = calculate_next_difficulty
      (rev (take (Z.to_nat (RETARGET_WINDOW + 1)) (rev (blocks g)))) now ∧
    mj_epoch job = height / epoch_blocks (mm_params m) ∧ mj_visionx_params job = mm_params m ∧
    mj_header_template job = mkHeader (block_hash tip) height now (mj_target_difficulty job) 0
      EmptyString root (hex_encode (blake3 (tx_root_payload (mj_txs job)))) addr ∧
    execute_txs (mkExec (balances g) (nonces g)) (drop 1 (mj_txs job)) = Ok st1 ∧
    apply_coinbase_reward st1 addr height = Ok st ∧
    compute_state_root (es_balances st) (es_nonces st) = Ok root.
Proof.
  intros E g. unfold build_candidate_for_tip in E. fold g in E.
  destruct (last (blocks g)) as [tip|] eqn:Et; [|done]. cbn [read_clock next_job_id] in E.
  unfold build_candidate_with_params, epoch in E.
  destruct (epoch_blocks (mm_params m) =? 0); [done|]. cbn [mbind run_bind] in E.
  injection E as <- <- E. unfold execute_candidate in E. cbn [mj_txs] in E.
  destruct (execute_txs _ _) as [st1|] eqn:E1; cbn [res_ok mbind option_bind] in E; [|done].
  destruct (apply_coinbase_reward _ _ _) as [st|] eqn:E2; cbn [res_ok mbind option_bind] in E; [|done].
  destruct (compute_state_root _ _) as [root|] eqn:E3; cbn [res_ok mbind option_bind] in E; [|done].
  injection E as <-. exists tip, st1, st, root. by split_and!.
Qed.

(** Building a candidate ends, and only reads the clock. *)
Lemma build_candidate_total m n counter addr txs : epoch_blocks (mm_params m) ≠ 0 →
  ∃ n' counter' job, build_candidate_for_tip clock m n counter addr txs = Done (n', counter', job) ∧
    (n' = n ∨ n' = (read_clock clock n).1).
Proof.
  intros He. unfold build_candidate_for_tip. destruct (last (blocks (n_chain n))) as [tip|]; [|eauto 6].
  cbn [read_clock next_job_id]. unfold build_candidate_with_params, epoch.
  rewrite (proj2 (Z.eqb_neq _ _) He). cbn [mbind run_bind]. eauto 6.
Qed.

Lemma execute_txs_replay st b st1 st2 root :
  b_number b ≠ 0 → execute_txs st (drop 1 (b_txs b)) = Ok st1 →
  apply_coinbase_reward st1 (bh_miner (b_header b)) (b_number b) = Ok st2 →
  compute_state_root (es_balances st2) (es_nonces st2) = Ok root →
  root = bh_state_root (b_header b) → replay_block st b = Ok st2.
Proof.
  intros Hn E1 E2 E3 Er. unfold replay_block. rewrite E1. cbn [map_err mbind result_bind].
  rewrite (proj2 (Z.eqb_neq _ _) Hn). cbn [negb]. rewrite E2. cbn [map_err mbind result_bind].
  rewrite E3. cbn [map_err mbind result_bind]. by rewrite bool_decide_true.
Qed.

(** The retarget window the miner takes is the one acceptance computes. *)
Lemma miner_window bs : (∀ b, b ∈ bs → all_zero_chars (block_hash b) = false) → canonical GENESIS_HASH bs →
  rev (take (Z.to_nat (RETARGET_WINDOW + 1)) (rev bs)) = window_of bs.
Proof.
  intros Hz Hc. unfold window_of. rewrite walk_back_take; [done|]. intros i b Hb Hi.
  rewrite length_rev in Hi.
  assert (bs !! (length bs - S i)%nat = Some b) as Hb'.
  { rewrite List.rev_alt in Hb. by apply reverse_lookup_Some in Hb as [Hb _]. }
  destruct (length bs - S i)%nat as [|j] eqn:Ej; [lia|].
  destruct (lookup_lt_is_Some_2 bs j) as [p Hp]; [apply lookup_lt_Some in Hb'; lia|].
  rewrite (cn_link _ _ Hc _ _ _ Hp Hb'). apply Hz. by eapply list_elem_of_lookup_2.
Qed.
Context (HN : N GENESIS_HASH = 0) (Hep : epoch_blocks params ≠ 0).

(** The fields of a solved block are those of the candidate's template. *)
Record solves (job : MiningJob) (parent : string) (number time : Z) (root miner : string) (blk : Block) : Prop := {
  so_number : b_number blk = number;
  so_parent : b_parent blk = parent;
  so_txs : b_txs blk = mj_txs job;
  so_difficulty : b_difficulty blk = mj_target_difficulty job;
  so_miner : bh_miner (b_header blk) = miner;
  so_time : b_timestamp blk = time;
  so_root : bh_state_root (b_header blk) = root;
  so_weight : b_weight blk = Z.of_nat (length (mj_txs job));
  so_tx_root : bh_tx_root (b_header blk) = hex_encode (blake3 (tx_root_payload (mj_txs job)))
}.
Lemma solved_fields job nonce hash parent number time root miner :
  mj_header_template job = mkHeader parent number time (mj_target_difficulty job) 0 EmptyString root
    (hex_encode (blake3 (tx_root_payload (mj_txs job)))) miner →
  solves job parent number time root miner (solved_block job (nonce_header job nonce) hash).
Proof.
  intros Hh. split; cbv [solved_block nonce_header b_number b_parent b_txs b_difficulty b_timestamp b_weight
    b_header bh_parent_hash bh_number bh_timestamp bh_difficulty bh_miner bh_state_root bh_tx_root]; by rewrite ?Hh.
Qed.
(** It follows the rules on top of the chain. *)
Lemma solved_next_ok g job tip now root miner txs blk :
  chain_ok N GENESIS_HASH g → (∀ b, b ∈ blocks g → all_zero_chars (block_hash b) = false) →
  last (blocks g) = Some tip → b_timestamp tip < now → 0 ≤ b_number tip < U64_MAX →
  solves job (block_hash tip) (b_number tip + 1) now root miner blk → pow_valid params blk →
  mj_txs job = candidate_txs (b_number tip + 1) txs → NoDup (map canonical_tx_id (mj_txs job)) →
  DIFFICULTY_FLOOR ≤ mj_target_difficulty job →
  mj_target_difficulty job =
    calculate_next_difficulty (rev (take (Z.to_nat (RETARGET_WINDOW + 1)) (rev (blocks g)))) now →
  next_ok params (blocks g) blk.
Proof.
  intros Hg Hz Hl Hts Hn [F1 F2 F3 F4 F5 F6 F7 F8 F9] Hpow Htx Hnd Hfl Hd. split.
  - rewrite F8, Htx. pose proof (candidate_txs_length (b_number tip + 1) txs).
    unfold BLOCK_WEIGHT_LIMIT, BLOCK_TARGET_TXS in *. lia.
  - rewrite F9. unfold compute_tx_root. rewrite F3, Htx. reflexivity.
  - rewrite F3, Htx. eexists _, _. split; [reflexivity|]. split_and!; [done..|].
    rewrite F1. apply be_val_be_bytes. change (256 ^ Z.of_nat 8) with (U64_MAX + 1). lia.
  - intros p Hp'. assert (p = tip) as -> by congruence. lia.
  - split; [by rewrite F4|]. rewrite F4, Hd, F6, miner_window; [done|exact Hz|apply (co_canon _ _ _ Hg)].
  - done.
  - by rewrite F3.
Qed.

(** A block found for a candidate satisfies the consensus rules. *)
Lemma candidate_valid m n counter addr txs n' counter' job c nonce c' blk now :
  node_ok params N n → origin (blocks (n_chain n)) →
  (∀ b, b ∈ blocks (n_chain n) → all_zero_chars (block_hash b) = false ∧ b_timestamp b < U64_MAX) →
  mm_params m = params → cache_ok c →
  build_candidate_for_tip clock m n counter addr txs = Done (n', counter', Some job) →
  try_nonce c job nonce = Done (c', Some blk) →
  NoDup (map canonical_tx_id (mj_txs job)) → DIFFICULTY_FLOOR ≤ mj_target_difficulty job →
  block_hash blk ∉ seen_blocks (n_chain n) →
  b_timestamp blk ≤ wadd64 now MAX_FUTURE_TIMESTAMP_SECS →
  ∃ tip st, consensus_valid params (n_chain n) now blk tip st ∧ b_parent blk = tip_hash (n_chain n).
Proof.
  intros Hn Ho Hz Hm Hc Eb Et Hnd Hfl Hnew Hfut. pose proof (no_chain _ _ _ Hn) as Hg.
  destruct (build_candidate_spec _ _ _ _ _ _ _ _ Eb)
    as (tip & st1 & st & rt & Hl & _ & Htx & Hd & He & Hp & Hh & E1 & E2 & E3).
  destruct (try_nonce_spec _ _ _ _ _ Hc Et) as (_ & _ & hash & _ & _ & _ & _ & Hblk).
  assert (pow_valid params blk) as Hpow.
  { apply (try_nonce_pow_valid c job nonce c' blk); [done|by rewrite Hp| |by rewrite Hh|done].
    by rewrite He, Hh, Hm. }
  assert (blocks (n_chain n) ≠ []) as Hne by (intros E; by rewrite E in Hl).
  destruct (tip_ancestry N _ Hg Hne) as (tip' & Ha & Hth).
  pose proof Ha as (_ & _ & Hl'). assert (tip = tip') as -> by congruence. clear Hl'.
  assert (tip' ∈ blocks (n_chain n)) as Hin by (by apply last_Some_elem_of).
  destruct (Hz _ Hin) as [_ Hts].
  assert (block_ok N GENESIS_HASH tip') as Hok
    by (eapply holds_ok; [exact Hg|by left]).
  pose proof (bo_range _ _ _ Hok) as Hr. destruct (bo_load _ _ _ Hok) as [((_ & Htu & _) & _) _].
  unfold u64 in Htu. fold (b_timestamp tip') in Htu.
  assert (wadd64 (b_number tip') 1 = b_number tip' + 1) as Eh by (apply wrap64_small; unfold u64; lia).
  assert (wadd64 (b_timestamp tip') 1 = b_timestamp tip' + 1) as Ets by (apply wrap64_small; unfold u64; lia).
  rewrite Eh in Htx, Hh, E2. rewrite Ets in Hd, Hh.
  pose proof (solved_fields _ nonce hash _ _ _ _ _ Hh) as Hso. rewrite <- Hblk in Hso.
  pose proof Hso as [F1 F2 F3 _ F5 F6 F7 _ _].
  assert (replay_block (mkExec (balances (n_chain n)) (nonces (n_chain n))) blk = Ok st) as Hra
    by (eapply execute_txs_replay; [lia|by rewrite F3|by rewrite F5, F1|exact E3|by rewrite F7]).
  destruct (co_accounts _ _ _ Hg) as (s0 & Hr0 & Heq).
  destruct (replay_equiv_Ok _ _ _ _ Heq Hra) as (s1 & Hr1 & _).
  exists tip', s1. split; [|by rewrite F2].
  eapply (next_consensus_valid params N _ now blk tip' _ s1 (blocks (n_chain n)) Hg Ho Ha F2);
    [lia| |done|done|exact Hr0|exact Hr1].
  eapply solved_next_ok; [exact Hg|intros b Hb; by apply Hz|exact Hl| | |exact Hso|done..]; lia.
Qed.
(** ** Properties *)

(** C28: A mined block is accepted.  Take a candidate built on the tip of a
    consistent node and a nonce that a worker finds for it; if its height is
    truthful ([admissible]: the numbering agrees with it), its transactions
    have distinct identifiers, the retarget did not fall below the floor, the
    block is new and not beyond the clock's limit, then submitting it makes it
    the extension of the canonical tip and counts it, unless the database
    refuses the write.  (The parts of mining and of validation agree on the
    transaction root, the window, the target, the epoch, the proof-of-work
    preimage, the accounts and the state root.) *)
Theorem mined_block_extends_tip m n counter addr txs n' counter' job c nonce c' blk :
  node_ok params N n → admissible params N blk → origin (blocks (n_chain n)) →
  (∀ b, b ∈ blocks (n_chain n) → all_zero_chars (block_hash b) = false ∧ b_timestamp b < U64_MAX) →
  mm_params m = params → cache_ok c →
  build_candidate_for_tip clock m n counter addr txs = Done (n', counter', Some job) →
  try_nonce c job nonce = Done (c', Some blk) →
  NoDup (map canonical_tx_id (mj_txs job)) → DIFFICULTY_FLOOR ≤ mj_target_difficulty job →
  block_hash blk ∉ seen_blocks (n_chain n) →
  b_timestamp blk ≤ wadd64 (clock (n_ticks n')) MAX_FUTURE_TIMESTAMP_SECS →
  ∃ m2 n2 r, submit_solution params clock m n' blk = Done (m2, n2, r) ∧
    ((r = CanonExtension (b_number blk) ∧ mm_blocks_found m2 = wadd64 (mm_blocks_found m) 1) ∨
     (storage_failure r ∧ m2 = m)).
Proof.
  intros Hn Ha Ho Hz Hm Hc Eb Et Hnd Hfl Hnew Hfut.
  destruct (candidate_valid _ _ _ _ _ _ _ _ _ _ _ _ _ Hn Ho Hz Hm Hc Eb Et Hnd Hfl Hnew Hfut)
    as (tip & st & Hv & Hp).
  destruct (build_candidate_spec _ _ _ _ _ _ _ _ Eb) as (_ & _ & _ & _ & _ & En & _).
  assert (n_chain n' = n_chain n) as Ec by (by rewrite En).
  assert (node_ok params N n') as Hn' by (rewrite En; by destruct Hn).
  rewrite <- Ec in Hv, Hp. pose proof (cv_number _ _ _ _ _ _ Hv) as Hnz.
  assert (known (n_chain n') (b_parent blk)) as Hk.
  { destruct (cv_parent _ _ _ _ _ _ Hv) as [Hh ->]. eapply holds_known; [apply (no_chain _ _ _ Hn')|done]. }
  destruct (apply_core_decides params clock N HN Hep n' blk None Hn' Ha Hnz Hk)
    as (n1 & r & i & E1 & Hout & _ & Hacc).
  destruct (apply_block_ok params clock N HN Hep n' blk None Hn' Ha) as (n2 & r2 & E2 & _).
  assert (r2 = r) as ->.
  { unfold apply_block in E2. cbn [apply_fuel] in E2. rewrite E1 in E2. cbn [mbind run_bind] in E2.
    destruct i; [|by simplify_eq]. apply run_bind_Done in E2 as ([m' k] & _ & E2). by simplify_eq. }
  unfold submit_solution. rewrite E2. cbn [mbind run_bind].
  destruct (Hacc _ _ Hv) as [Hr|Hr].
  - assert (r = CanonExtension (b_number blk)) as ->.
    { destruct Hout; try done. }
    eexists _, _, _. split; [reflexivity|]. left. done.
  - eexists _, _, r. split; [|right; split; [exact Hr|reflexivity]].
    by destruct Hr as [_ [e [-> | ->]]].
Qed.
End mining.

(** A block mined on the genesis block. *)
Definition toy_manager : MinerManager := new_manager tiny_params 0.
Definition toy_candidate : option MiningJob :=
  Eval vm_compute in
    match build_candidate_for_tip toy_clock toy_manager toy_node1 1 (toy_addr 1) [] with
    | Done (_, _, j) => j | _ => None end.
Definition toy_mined : option Block :=
  Eval vm_compute in
    match toy_candidate with
    | Some job => match try_nonce empty_cache job 0 with Done (_, b) => b | _ => None end
    | None => None
    end.
Definition toy_mined_N (h : string) : Z :=
  if bool_decide (Some h = block_hash <$> toy_mined) then 1 else 0.

Lemma mined_block_extends_tip_witness :
  ∃ job blk n' m2 n2 r,
    (∃ k, build_candidate_for_tip toy_clock toy_manager toy_node1 1 (toy_addr 1) [] = Done (n', k, Some job)) ∧
    (∃ c', try_nonce empty_cache job 0 = Done (c', Some blk)) ∧
    submit_solution tiny_params toy_clock toy_manager n' blk = Done (m2, n2, r) ∧
    (is_accepted r = true ∨ storage_failure r).
Proof.
  destruct (ran_Done (build_candidate_for_tip toy_clock toy_manager toy_node1 1 (toy_addr 1) [])
    (λ a, bool_decide (a.2 = toy_candidate))) as ([[n' k] j] & E & Hj); [vm_compute; reflexivity|].
  apply bool_decide_eq_true in Hj. simpl in Hj. unfold toy_candidate in Hj. subst j.
  match type of E with _ = Done (_, Some ?job) => set (job0 := job) in E end.
  destruct (ran_Done (try_nonce empty_cache job0 0) (λ a, bool_decide (a.2 = toy_mined)))
    as ([c' b] & Et & Hb); [vm_compute; reflexivity|].
  apply bool_decide_eq_true in Hb. simpl in Hb. unfold toy_mined in Hb. subst b.
  match type of Et with _ = Done (_, Some ?blk) => set (blk0 := blk) in Et end.
  assert (admissible tiny_params toy_mined_N blk0) as Ha.
  { split; [literal_wf blk0|intros _ _; vm_compute; by split_and!|vm_compute; discriminate]. }
  assert (∀ b, b ∈ blocks (n_chain toy_node1) → b = genesis_block) as Hgb.
  { assert (blocks (n_chain toy_node1) = [genesis_block]) as -> by (vm_compute; reflexivity).
    intros b ->%list_elem_of_singleton. reflexivity. }
  destruct (build_candidate_spec _ _ _ _ _ _ _ _ _ E) as (_ & _ & _ & _ & _ & En & _).
  destruct (mined_block_extends_tip tiny_params toy_clock toy_mined_N eq_refl ltac:(discriminate)
    toy_manager toy_node1 1 (toy_addr 1) [] n' k job0 empty_cache 0 c' blk0
    (toy_node1_ok toy_mined_N eq_refl) Ha)
    as (m2 & n2 & r & E2 & Hr); [..|exists job0, blk0, n', m2, n2, r].
  - intros b Hb. assert (b = genesis_block) as -> by (apply Hgb; by eapply list_elem_of_lookup_2).
    reflexivity.
  - intros b ->%Hgb. split; [reflexivity|vm_compute; reflexivity].
  - reflexivity.
  - apply cache_ok_empty.
  - exact E.
  - exact Et.
  - vm_compute. apply NoDup_singleton.
  - vm_compute. discriminate.
  - refine (bool_decide_unpack _ _). vm_compute. exact I.
  - rewrite En. vm_compute. discriminate.
  - split; [by exists k|]. split; [by exists c'|]. split; [exact E2|].
    destruct Hr as [[-> _]|[H _]]; [by left|by right].
Defined.
