(* ===== verification/Admission.v ===== *)
(** * Mempool admission ([src/mempool/admission.rs])

    The policy a transaction must meet against the sender's account nonce and
    the pending transactions, oldest first. *)
From S2P Require Import Prelude Crypto Constants Transaction.

Inductive MempoolAdmissionError :=
| StatelessValidation (e : TxValidationError)
| DuplicateCanonicalTxId
| StaleNonce (current_nonce tx_nonce : Z)
| MempoolNonceGap (current_nonce tx_nonce : Z)
| DuplicateSenderNonce (sender_pubkey : string) (nonce existing_tip new_tip : Z).

Inductive AdmissionDecision :=
| Accept
| Replace (evict_tx_id : string).

Record MempoolAdmission := mkAdmission { ma_current_nonce : Z; ma_pending : list Tx }.

Section admission.
Context `{C : Crypto} `{TC : TxCodec}.

(** The pending transaction of the same sender and nonce, if any. *)
Definition same_slot (tx existing : Tx) : bool :=
  bool_decide (tx_sender_pubkey existing = tx_sender_pubkey tx) && (tx_nonce existing =? tx_nonce tx).

Definition evaluate (a : MempoolAdmission) (tx : Tx)
    : result MempoolAdmissionError AdmissionDecision :=
  _ ← map_err StatelessValidation (validate_tx_stateless tx);
  let tx_id := canonical_tx_id tx in
  if existsb (λ existing, bool_decide (canonical_tx_id existing = tx_id)) (ma_pending a)
  then Err DuplicateCanonicalTxId
  else if tx_nonce tx <? ma_current_nonce a
  then Err (StaleNonce (ma_current_nonce a) (tx_nonce tx))
  else if sat_add64 (ma_current_nonce a) 1 <? tx_nonce tx
  then Err (MempoolNonceGap (ma_current_nonce a) (tx_nonce tx))
  else match List.find (same_slot tx) (ma_pending a) with
       | Some existing =>
           if tx_tip existing <? tx_tip tx then Ok (Replace (canonical_tx_id existing))
           else Err (DuplicateSenderNonce (tx_sender_pubkey tx) (tx_nonce tx) (tx_tip existing) (tx_tip tx))
       | None => Ok Accept
       end.

End admission.

(** ** Theory *)
Section admission_theory.
Context {C : Crypto} {TC : TxCodec}.

Lemma same_slot_true tx e :
  same_slot tx e = true ↔ tx_sender_pubkey e = tx_sender_pubkey tx ∧ tx_nonce e = tx_nonce tx.
Proof. unfold same_slot. rewrite andb_true_iff, bool_decide_eq_true, Z.eqb_eq. done. Qed.

Lemma existsb_elem {A} (f : A → bool) l : existsb f l = true ↔ ∃ x, x ∈ l ∧ f x = true.
Proof. rewrite existsb_exists. by setoid_rewrite list_elem_of_In. Qed.

(** The nonce window of the policy. *)
Definition nonce_window (current : Z) (tx : Tx) : Prop :=
  current ≤ tx_nonce tx ≤ sat_add64 current 1.

Lemma evaluate_Ok a tx d :
  evaluate a tx = Ok d ↔
  validate_tx_stateless tx = Ok () ∧
  (∀ e, e ∈ ma_pending a → canonical_tx_id e ≠ canonical_tx_id tx) ∧
  nonce_window (ma_current_nonce a) tx ∧
  match d with
  | Accept => ∀ e, e ∈ ma_pending a → ¬ (tx_sender_pubkey e = tx_sender_pubkey tx ∧ tx_nonce e = tx_nonce tx)
  | Replace id => ∃ e, List.find (same_slot tx) (ma_pending a) = Some e ∧ id = canonical_tx_id e ∧
      tx_tip e < tx_tip tx
  end.
Proof.
  unfold evaluate, nonce_window.
  destruct (validate_tx_stateless tx) as [[]|e]; cbn [map_err mbind result_bind];
    [|split; [done|by intros [? _]]].
  destruct (existsb _ (ma_pending a)) eqn:Edup.
  { split; [done|]. intros (_ & H & _). apply existsb_elem in Edup as (e & He & E).
    apply bool_decide_eq_true in E. by destruct (H e He). }
  assert (∀ e, e ∈ ma_pending a → canonical_tx_id e ≠ canonical_tx_id tx) as Hd.
  { intros e He E. assert (existsb (λ existing, bool_decide (canonical_tx_id existing = canonical_tx_id tx))
      (ma_pending a) = true); [|congruence]. apply existsb_elem. exists e. by rewrite bool_decide_true. }
  destruct (Z.ltb_spec (tx_nonce tx) (ma_current_nonce a)); [split; [done|lia]|].
  destruct (Z.ltb_spec (sat_add64 (ma_current_nonce a) 1) (tx_nonce tx)); [split; [done|lia]|].
  destruct (List.find (same_slot tx) (ma_pending a)) as [e|] eqn:Ef.
  - destruct (find_Some_elem _ _ _ Ef) as [He Hs]. apply same_slot_true in Hs.
    destruct (Z.ltb_spec (tx_tip e) (tx_tip tx)); split.
    + intros [= <-]. split_and!; [done..|]. by exists e.
    + intros (_ & _ & _ & H'). destruct d as [|id]; [by destruct (H' e He)|].
      destruct H' as (e' & [= <-] & -> & _). done.
    + done.
    + intros (_ & _ & _ & H'). destruct d as [|id]; [by destruct (H' e He)|].
      destruct H' as (e' & [= <-] & _ & ?). lia.
  - split.
    + intros [= <-]. split_and!; [done..|]. intros e He Hs.
      pose proof (find_None_elem _ _ _ Ef He) as Hf. apply same_slot_true in Hs. congruence.
    + intros (_ & _ & _ & H'). destruct d as [|id]; [done|]. by destruct H' as (? & ? & _).
Qed.
(** C29: The admission policy, exactly.  A transaction is accepted as new when
    it is statelessly valid, its identifier is not pending, its nonce is the
    account's next one or one above it, and no pending transaction has its
    sender and nonce; it replaces the first such transaction when its tip is
    strictly higher; otherwise it is refused. *)
Theorem admission_policy a tx d :
  evaluate a tx = Ok d ↔
  validate_tx_stateless tx = Ok () ∧
  (∀ e, e ∈ ma_pending a → canonical_tx_id e ≠ canonical_tx_id tx) ∧
  nonce_window (ma_current_nonce a) tx ∧
  match d with
  | Accept => ∀ e, e ∈ ma_pending a → ¬ (tx_sender_pubkey e = tx_sender_pubkey tx ∧ tx_nonce e = tx_nonce tx)
  | Replace id => ∃ e, List.find (same_slot tx) (ma_pending a) = Some e ∧ id = canonical_tx_id e ∧
      tx_tip e < tx_tip tx
  end.
Proof. apply evaluate_Ok. Qed.
End admission_theory.
