(* ===== verification/Pool.v ===== *)
(** * The mempool ([src/mempool/pool.rs])

    The bounded pool of pending transactions: an index by canonical identifier
    and the insertion order.  The mutex makes each method one step. *)
From S2P Require Import Prelude Crypto Constants Transaction Sled ChainState Admission.

Record Pool := mkPool {
  by_id : gmap string Tx;
  order : list string
}.
Definition new_pool : Pool := mkPool ∅ [].

Record ReorgRequeueReport := mkReport {
  rp_accepted : list string;
  rp_rejected : list (string * MempoolAdmissionError)
}.

Section pool.
Context {C : Crypto} {TC : TxCodec} {SL : Sled}.

Definition tx_key (tx : Tx) : string := canonical_tx_id tx.

(** When full, the oldest identifier makes room. *)
Definition insert_locked (pool : Pool) (id : string) (tx : Tx) : Pool :=
  let pool :=
    if MEMPOOL_MAX <=? Z.of_nat (size (by_id pool)) then
      match order pool with
      | evict_id :: order => mkPool (delete evict_id (by_id pool)) order
      | [] => pool
      end
    else pool in
  mkPool (<[id := tx]> (by_id pool)) (order pool ++ [id]).

Definition insert_tx (pool : Pool) (tx : Tx) : Pool * bool :=
  let id := tx_key tx in
  if bool_decide (is_Some (by_id pool !! id)) then (pool, false)
  else (insert_locked pool id tx, true).

(** The transactions of a list of identifiers. *)
Definition txs_of (pool : Pool) (ids : list string) : list Tx := omap (λ id, by_id pool !! id) ids.
Definition pending (pool : Pool) : list Tx := txs_of pool (order pool).

Definition remove_id (pool : Pool) (id : string) : Pool :=
  mkPool (delete id (by_id pool)) (filter (λ i, i ≠ id) (order pool)).

Definition admit_tx (pool : Pool) (tx : Tx) (current_nonce : Z)
    : Pool * result MempoolAdmissionError AdmissionDecision :=
  match evaluate (mkAdmission current_nonce (pending pool)) tx with
  | Err e => (pool, Err e)
  | Ok Accept => (insert_locked pool (tx_key tx) tx, Ok Accept)
  | Ok (Replace evict_tx_id) =>
      (insert_locked (remove_id pool evict_tx_id) (tx_key tx) tx, Ok (Replace evict_tx_id))
  end.

Definition pool_has (pool : Pool) (tx_id : string) : bool := bool_decide (is_Some (by_id pool !! tx_id)).
Definition pool_get (pool : Pool) (tx_id : string) : option Tx := by_id pool !! tx_id.
Definition pool_len (pool : Pool) : Z := Z.of_nat (size (by_id pool)).
Definition pool_is_empty (pool : Pool) : bool := pool_len pool =? 0.
Definition list_ids (pool : Pool) : list string := order pool.
Definition select_for_block (pool : Pool) (limit : nat) : list Tx :=
  txs_of pool (take limit (order pool)).

Definition remove_confirmed (pool : Pool) (tx_ids : list string) : Pool :=
  let m := fold_left (λ m id, delete id m) tx_ids (by_id pool) in
  mkPool m (filter (λ id, is_Some (m !! id)) (order pool)).

(** ** Requeueing after a reorganisation *)

(** By sender, then nonce; a stable sort, as [sort_by]. *)
Definition requeue_leb (a b : Tx) : bool :=
  match String.compare (tx_sender_pubkey a) (tx_sender_pubkey b) with
  | Lt => true
  | Gt => false
  | Eq => tx_nonce a <=? tx_nonce b
  end.
Fixpoint sort_insert (x : Tx) (l : list Tx) : list Tx :=
  match l with
  | [] => [x]
  | y :: l => if requeue_leb x y then x :: y :: l else y :: sort_insert x l
  end.
Definition stable_sort (l : list Tx) : list Tx := foldr sort_insert [] l.

Fixpoint requeue_loop (chain : ChainState) (pool : Pool) (report : ReorgRequeueReport)
    (candidates : list Tx) : Pool * ReorgRequeueReport :=
  match candidates with
  | [] => (pool, report)
  | tx :: candidates =>
      let tx_id := canonical_tx_id tx in
      let current_nonce := ChainState.nonce_of chain (tx_sender_pubkey tx) in
      match admit_tx pool tx current_nonce with
      | (pool, Ok _) =>
          requeue_loop chain pool (mkReport (rp_accepted report ++ [tx_id]) (rp_rejected report)) candidates
      | (pool, Err err) =>
          requeue_loop chain pool (mkReport (rp_accepted report) (rp_rejected report ++ [(tx_id, err)])) candidates
      end
  end.

Definition requeue_candidates (recovery : ReorgRecovery) : list Tx :=
  let winning : gset string := list_to_set (winning_tx_ids recovery) in
  stable_sort
    (filter (λ tx, canonical_tx_id tx ∉ winning)
      (filter (λ tx, tx_module tx ≠ "coinbase") (displaced_txs recovery))).
Definition requeue_after_reorg (chain : ChainState) (pool : Pool) (recovery : ReorgRecovery)
    : Pool * ReorgRequeueReport :=
  requeue_loop chain (remove_confirmed pool (winning_tx_ids recovery)) (mkReport [] [])
    (requeue_candidates recovery).

End pool.

(** ** Theory *)
Section pool_theory.
Context {C : Crypto} {TC : TxCodec} {SL : Sled}.

(** The index and the queue hold the same identifiers, each once; the key of a
    transaction is its identifier; the pool is bounded. *)
Record pool_ok (p : Pool) : Prop := {
  po_nodup : NoDup (order p);
  po_order id : id ∈ order p ↔ is_Some (by_id p !! id);
  po_key id tx : by_id p !! id = Some tx → canonical_tx_id tx = id;
  po_bound : pool_len p ≤ MEMPOOL_MAX
}.
(** At most one pending transaction per sender and nonce. *)
Definition one_per_slot (p : Pool) : Prop :=
  ∀ i j t u, by_id p !! i = Some t → by_id p !! j = Some u →
    tx_sender_pubkey t = tx_sender_pubkey u → tx_nonce t = tx_nonce u → i = j.

Lemma order_length p : pool_ok p → length (order p) = size (by_id p).
Proof.
  intros Hp.
  assert (list_to_set (order p) = dom (by_id p)) as E.
  { apply set_eq. intros id. rewrite elem_of_list_to_set, elem_of_dom. apply (po_order _ Hp). }
  by rewrite <- size_dom, <- E, size_list_to_set by apply (po_nodup _ Hp).
Qed.

Lemma elem_of_pending p tx : pool_ok p → tx ∈ pending p ↔ by_id p !! canonical_tx_id tx = Some tx.
Proof.
  intros Hp. unfold pending, txs_of. rewrite list_elem_of_omap. split.
  - intros (id & _ & E). by rewrite (po_key _ Hp _ _ E).
  - intros E. exists (canonical_tx_id tx). split; [|done]. apply (po_order _ Hp). eauto.
Qed.

Lemma pool_ok_new : pool_ok new_pool.
Proof.
  split; cbn; [constructor| |done|].
  - intros id. rewrite lookup_empty. split; [by intros ?%elem_of_nil|by intros []].
  - unfold pool_len. cbn. rewrite map_size_empty. vm_compute. discriminate.
Qed.

(** A fresh identifier inserted into a pool. *)
Lemma insert_locked_ok p id tx :
  pool_ok p → canonical_tx_id tx = id → by_id p !! id = None → pool_ok (insert_locked p id tx).
Proof.
  intros Hp Hid Hn. pose proof (order_length _ Hp) as Hlen. pose proof (po_bound _ Hp) as Hb.
  unfold insert_locked.
  set (q := if MEMPOOL_MAX <=? Z.of_nat (size (by_id p)) then _ else p).
  assert (NoDup (order q) ∧ (∀ i, i ∈ order q ↔ is_Some (by_id q !! i)) ∧
    (∀ i t, by_id q !! i = Some t → by_id p !! i = Some t) ∧ pool_len q < MEMPOOL_MAX)
    as (H1 & H2 & H3 & H4).
  { unfold q. destruct (Z.leb_spec MEMPOOL_MAX (Z.of_nat (size (by_id p)))) as [Hfull|Hfree].
    2:{ split_and!; [apply (po_nodup _ Hp)|apply (po_order _ Hp)|done|unfold pool_len; lia]. }
    pose proof (po_nodup _ Hp) as Hnd. pose proof (po_order _ Hp) as Ho.
    destruct (order p) as [|e l] eqn:El; [unfold MEMPOOL_MAX in Hfull; simpl in Hlen; lia|].
    cbn [order by_id]. apply NoDup_cons in Hnd as [He Hnd]. split_and!.
    - done.
    - intros i. specialize (Ho i). rewrite elem_of_cons in Ho.
      destruct (decide (i = e)) as [->|Hi].
      + rewrite lookup_delete_eq. split; [done|by intros []].
      + rewrite lookup_delete_ne by done. rewrite <- Ho. tauto.
    - intros i t Hi%lookup_delete_Some. tauto.
    - unfold pool_len in *. cbn [by_id].
      assert (is_Some (by_id p !! e)) as [t He'] by (apply Ho; by left).
      rewrite map_size_delete_Some by eauto.
      assert (size (by_id p) ≠ 0)%nat by (intros E%map_size_empty_inv; by rewrite E in He').
      lia. }
  assert (by_id q !! id = None) as Hqn.
  { destruct (by_id q !! id) eqn:E; [|done]. apply H3 in E. congruence. }
  split; cbn [order by_id].
  - apply NoDup_app. split_and!; [done| |apply NoDup_singleton].
    intros i Hi ->%list_elem_of_singleton. apply H2 in Hi as [? Hi]. congruence.
  - intros i. rewrite elem_of_app, list_elem_of_singleton, H2.
    destruct (decide (i = id)) as [->|Hi].
    + rewrite lookup_insert_eq. split; [eauto|by right].
    + rewrite lookup_insert_ne by done. tauto.
  - intros i t [[<- <-]|[Hi Ht]]%lookup_insert_Some; [done|]. by apply (po_key _ Hp), H3.
  - unfold pool_len in *. cbn [by_id]. rewrite map_size_insert_None by done. lia.
Qed.
Lemma remove_id_ok p id : pool_ok p → pool_ok (remove_id p id).
Proof.
  intros Hp. split; cbn [remove_id order by_id].
  - apply NoDup_filter, (po_nodup _ Hp).
  - intros i. rewrite list_elem_of_filter, (po_order _ Hp).
    destruct (decide (i = id)) as [->|Hi].
    + rewrite lookup_delete_eq. split; [tauto|by intros []].
    + rewrite lookup_delete_ne by done. tauto.
  - intros i t [_ Hi]%lookup_delete_Some. by apply (po_key _ Hp).
  - pose proof (po_bound _ Hp) as Hb. unfold pool_len in *. cbn [remove_id by_id].
    destruct (by_id p !! id) eqn:E.
    + rewrite map_size_delete_Some by eauto. lia.
    + by rewrite delete_id.
Qed.

Lemma delete_fold_lookup (m : gmap string Tx) ids i :
  fold_left (λ m id, delete id m) ids m !! i = if bool_decide (i ∈ ids) then None else m !! i.
Proof.
  revert m. induction ids as [|id ids IH]; intros m; cbn [fold_left].
  { by rewrite bool_decide_false by apply not_elem_of_nil. }
  rewrite IH. destruct (decide (i = id)) as [->|Hi].
  - rewrite lookup_delete_eq. rewrite (bool_decide_true (id ∈ id :: ids)) by left.
    by case_bool_decide.
  - rewrite lookup_delete_ne by done.
    do 2 case_bool_decide; try done; exfalso; set_solver.
Qed.

Lemma remove_confirmed_lookup p ids i :
  by_id (remove_confirmed p ids) !! i = if bool_decide (i ∈ ids) then None else by_id p !! i.
Proof. apply delete_fold_lookup. Qed.

Lemma map_size_sub (m1 m2 : gmap string Tx) :
  (∀ i t, m1 !! i = Some t → m2 !! i = Some t) → (size m1 ≤ size m2)%nat.
Proof. intros H. rewrite <- !size_dom. apply subseteq_size.
  intros i. rewrite !elem_of_dom. intros [t Ht]. eauto. Qed.

Lemma remove_confirmed_ok p ids : pool_ok p → pool_ok (remove_confirmed p ids).
Proof.
  intros Hp.
  assert (∀ i t, by_id (remove_confirmed p ids) !! i = Some t → by_id p !! i = Some t) as Hsub.
  { intros i t. rewrite remove_confirmed_lookup. by case_bool_decide. }
  split.
  - apply NoDup_filter, (po_nodup _ Hp).
  - intros i. unfold remove_confirmed at 1. cbn [order].
    change (fold_left _ _ _) with (by_id (remove_confirmed p ids)).
    rewrite list_elem_of_filter, (po_order _ Hp). split; [tauto|].
    intros [t Ht]. split; [eauto|]. eauto.
  - intros i t Ht. by apply (po_key _ Hp), Hsub.
  - pose proof (po_bound _ Hp). unfold pool_len in *. pose proof (map_size_sub _ _ Hsub). lia.
Qed.

Lemma admit_tx_ok p tx k : pool_ok p → pool_ok (admit_tx p tx k).1.
Proof.
  intros Hp. unfold admit_tx. destruct (evaluate _ tx) as [d|e] eqn:E; [|done].
  apply evaluate_Ok in E as (_ & Hnew & _ & Hd). cbn [ma_pending] in *.
  assert (by_id p !! tx_key tx = None) as Hn.
  { destruct (by_id p !! tx_key tx) as [u|] eqn:Eu; [|done]. exfalso.
    pose proof (po_key _ Hp _ _ Eu) as Hk. apply (Hnew u); [|by rewrite Hk].
    apply elem_of_pending; [done|]. by rewrite Hk. }
  destruct d as [|id]; cbn [fst]; apply insert_locked_ok; try done.
  - by apply remove_id_ok.
  - cbn [remove_id by_id]. apply lookup_delete_None. by right.
Qed.

(** ** The pending transactions, oldest first *)

Lemma txs_of_ext p q ids :
  (∀ i, i ∈ ids → by_id p !! i = by_id q !! i) → txs_of p ids = txs_of q ids.
Proof.
  unfold txs_of. induction ids as [|i ids IH]; intros H; cbn [omap list_omap]; [done|].
  rewrite <- (H i) by left. rewrite IH; [done|]. intros j Hj. apply H. by right.
Qed.
Lemma txs_of_ids p ids : pool_ok p → (∀ i, i ∈ ids → is_Some (by_id p !! i)) →
  canonical_tx_id <$> txs_of p ids = ids.
Proof.
  intros Hp. unfold txs_of. induction ids as [|i ids IH]; intros H; cbn [omap list_omap]; [done|].
  destruct (H i) as [t Ht]; [by left|]. rewrite Ht, fmap_cons, (po_key _ Hp _ _ Ht), IH; [done|].
  intros j Hj. apply H. by right.
Qed.
Lemma txs_of_filter (P : string → Prop) `{∀ i, Decision (P i)} p ids : pool_ok p →
  txs_of p (filter P ids) = filter (λ t, P (canonical_tx_id t)) (txs_of p ids).
Proof.
  intros Hp. unfold txs_of. induction ids as [|i ids IH]; [done|]. rewrite filter_cons.
  cbn [omap list_omap]. destruct (by_id p !! i) as [t|] eqn:E.
  - pose proof (po_key _ Hp _ _ E) as Hk. rewrite filter_cons, Hk, <- IH.
    case_decide; [|done]. cbn [omap list_omap]. by rewrite E.
  - rewrite <- IH. case_decide; [|done]. cbn [omap list_omap]. by rewrite E.
Qed.

Lemma filter_iff_in {A} (P Q : A → Prop) `{!∀ x, Decision (P x), !∀ x, Decision (Q x)} (l : list A) :
  (∀ x, x ∈ l → P x ↔ Q x) → filter P l = filter Q l.
Proof.
  induction l as [|x l IH]; intros H1; [done|]. pose proof (H1 x ltac:(by left)) as Hx.
  rewrite !filter_cons, IH by (intros y Hy; apply H1; by right).
  do 2 case_decide; try done; tauto.
Qed.

Lemma list_filter_id {A} (P : A → Prop) `{!∀ x, Decision (P x)} (l : list A) :
  (∀ x, x ∈ l → P x) → filter P l = l.
Proof.
  induction l as [|x l IH]; intros H1; [done|].
  rewrite filter_cons_True by (apply H1; by left). by rewrite IH by (intros y Hy; apply H1; by right).
Qed.

Lemma pending_ids p : pool_ok p → canonical_tx_id <$> pending p = order p.
Proof. intros Hp. apply txs_of_ids; [done|]. intros i. apply (po_order _ Hp). Qed.
Lemma pending_length p : pool_ok p → length (pending p) = size (by_id p).
Proof. intros Hp. by rewrite <- (order_length p Hp), <- (pending_ids p Hp), length_fmap. Qed.

Lemma pending_remove_id p id : pool_ok p →
  pending (remove_id p id) = filter (λ t, canonical_tx_id t ≠ id) (pending p).
Proof.
  intros Hp. unfold pending. cbn [remove_id order].
  trans (txs_of p (filter (λ i, i ≠ id) (order p))); [|exact (txs_of_filter (λ i, i ≠ id) p (order p) Hp)].
  apply txs_of_ext. cbn [remove_id by_id]. intros i [Hi _]%list_elem_of_filter.
  by rewrite lookup_delete_ne by done.
Qed.
Lemma pending_confirmed p ids : pool_ok p →
  pending (remove_confirmed p ids) = filter (λ t, canonical_tx_id t ∉ ids) (pending p).
Proof.
  intros Hp. trans (txs_of p (filter (λ i, i ∉ ids) (order p)));
    [|exact (txs_of_filter (λ i, i ∉ ids) p (order p) Hp)].
  assert (order (remove_confirmed p ids) = filter (λ i, i ∉ ids) (order p)) as E.
  { unfold remove_confirmed. cbn [order]. apply filter_iff_in. intros i Hi.
    rewrite delete_fold_lookup. case_bool_decide; [split; [by intros []|tauto]|].
    by rewrite (po_order _ Hp) in Hi. }
  unfold pending. rewrite E. apply txs_of_ext. intros i [Hi _]%list_elem_of_filter.
  by rewrite remove_confirmed_lookup, bool_decide_false.
Qed.

Lemma txs_of_app p l1 l2 : txs_of p (l1 ++ l2) = txs_of p l1 ++ txs_of p l2.
Proof. apply omap_app. Qed.
(** An insertion appends, dropping the head of a full pool. *)
Lemma pending_insert p tx : pool_ok p → by_id p !! canonical_tx_id tx = None →
  pending (insert_locked p (canonical_tx_id tx) tx) =
    (if MEMPOOL_MAX <=? pool_len p then tail (pending p) else pending p) ++ [tx].
Proof.
  intros Hp Hid. unfold pending, insert_locked, pool_len. cbn [order].
  rewrite txs_of_app. f_equal.
  2:{ unfold txs_of. cbn [omap list_omap by_id]. by rewrite lookup_insert_eq. }
  assert (∀ l, l ⊆ order p → canonical_tx_id tx ∉ l) as Hnew.
  { intros l Hl Hin%Hl. apply (po_order _ Hp) in Hin as [? ?]. congruence. }
  destruct (_ <=? _).
  - pose proof (po_nodup _ Hp) as Hnd. pose proof (pending_ids p Hp) as Hids.
    unfold pending in Hids. destruct (order p) as [|e l] eqn:El.
    { rewrite El. reflexivity. }
    cbn [order]. apply NoDup_cons in Hnd as [He _].
    assert (is_Some (by_id p !! e)) as [t Ht] by (apply (po_order _ Hp); rewrite El; by left).
    transitivity (txs_of p l); [|unfold txs_of; cbn [omap list_omap]; by rewrite Ht].
    apply txs_of_ext. cbn [by_id]. intros i Hi.
    rewrite lookup_insert_ne by (intros <-; apply (Hnew l); [set_solver|done]).
    rewrite lookup_delete_ne; [done|congruence].
  - apply txs_of_ext. cbn [by_id]. intros i Hi.
    rewrite lookup_insert_ne; [done|]. intros <-. by apply (Hnew (order p)).
Qed.

End pool_theory.
