(* ===== verification/Mempool.v ===== *)
(** * What the mempool promises

    An abstract mempool is a list of transactions, oldest first, with at most
    one per sender and nonce: the admission of a transaction outbids the
    occupant of its slot, is appended to the list, pushing the oldest
    transaction out of a full one, or changes nothing.  [Pool] refines it,
    through the duplicate check on identifiers, the index and the insertion
    order.  What a reorganisation returns to the pool ([returning]) and the
    order it returns in ([by_sender_nonce]) are stated here independently of
    the code's filters and sort; requeueing gives each returning transaction a
    verdict and loses nothing while there is room. *)
From S2P Require Import Prelude Crypto Constants Transaction Sled ChainState Admission Pool.

Definition slot (tx : Tx) : string * Z := (tx_sender_pubkey tx, tx_nonce tx).

(** Sender first, nonces in order within a sender. *)
Definition by_sender_nonce (t u : Tx) : Prop :=
  String.le (tx_sender_pubkey t) (tx_sender_pubkey u) ∧
  (tx_sender_pubkey t = tx_sender_pubkey u → tx_nonce t ≤ tx_nonce u).

Section spec.
Context {C : Crypto} {TC : TxCodec} {SL : Sled}.

Definition admissible (m : list Tx) (current_nonce : Z) (tx : Tx) : Prop :=
  validate_tx_stateless tx = Ok () ∧ nonce_window current_nonce tx ∧
  ∀ e, e ∈ m → slot e = slot tx → tx_tip e < tx_tip tx.

(** The abstract admission of one transaction. *)
Inductive spec_admit (m : list Tx) (current_nonce : Z) (tx : Tx) : list Tx → Prop :=
| spec_refuse : ¬ admissible m current_nonce tx → spec_admit m current_nonce tx m
| spec_outbid m1 e m2 : admissible m current_nonce tx → m = m1 ++ e :: m2 → slot e = slot tx →
    spec_admit m current_nonce tx (m1 ++ m2 ++ [tx])
| spec_fill : admissible m current_nonce tx → slot tx ∉ slot <$> m →
    Z.of_nat (length m) < MEMPOOL_MAX → spec_admit m current_nonce tx (m ++ [tx])
| spec_evict oldest rest : admissible m current_nonce tx → slot tx ∉ slot <$> m →
    Z.of_nat (length m) = MEMPOOL_MAX → m = oldest :: rest →
    spec_admit m current_nonce tx (rest ++ [tx]).

Definition spec_confirm (m : list Tx) (ids : list string) : list Tx :=
  filter (λ t, canonical_tx_id t ∉ ids) m.

Inductive spec_admits (nonce_of : string → Z) : list Tx → list Tx → list Tx → Prop :=
| spec_done m : spec_admits nonce_of m [] m
| spec_next m tx m1 txs m2 : spec_admit m (nonce_of (tx_sender_pubkey tx)) tx m1 →
    spec_admits nonce_of m1 txs m2 → spec_admits nonce_of m (tx :: txs) m2.

(** What a reorganisation returns: the displaced transactions that are no
    coinbase and not on the winning branch. *)
Definition returning (recovery : ReorgRecovery) : list Tx :=
  filter (λ t, tx_module t ≠ "coinbase" ∧ canonical_tx_id t ∉ winning_tx_ids recovery)
    (displaced_txs recovery).
(** The same transactions by sender and nonce, equal ones in the order given. *)
Definition return_order (recovery : ReorgRecovery) (l : list Tx) : Prop :=
  l ≡ₚ returning recovery ∧ StronglySorted by_sender_nonce l ∧
  ∀ s, filter (λ t, slot t = s) l = filter (λ t, slot t = s) (returning recovery).

(** The operations a node performs on its mempool. *)
Inductive mempool_op :=
| OpAdmit (tx : Tx) (current_nonce : Z)
| OpConfirm (ids : list string)
| OpRequeue (chain : ChainState) (recovery : ReorgRecovery).
Definition op_txs (op : mempool_op) : list Tx :=
  match op with
  | OpAdmit tx _ => [tx]
  | OpConfirm _ => []
  | OpRequeue _ recovery => displaced_txs recovery
  end.
Definition run_op (p : Pool) (op : mempool_op) : Pool :=
  match op with
  | OpAdmit tx k => (admit_tx p tx k).1
  | OpConfirm ids => remove_confirmed p ids
  | OpRequeue chain recovery => (requeue_after_reorg chain p recovery).1
  end.
Definition spec_op (m : list Tx) (op : mempool_op) (m' : list Tx) : Prop :=
  match op with
  | OpAdmit tx k => spec_admit m k tx m'
  | OpConfirm ids => m' = spec_confirm m ids
  | OpRequeue chain recovery => ∃ l, return_order recovery l ∧
      spec_admits (ChainState.nonce_of chain) (spec_confirm m (winning_tx_ids recovery)) l m'
  end.
Inductive spec_run : list Tx → list mempool_op → list Tx → Prop :=
| spec_run_nil m : spec_run m [] m
| spec_run_cons m op m1 ops m2 : spec_op m op m1 → spec_run m1 ops m2 → spec_run m (op :: ops) m2.

(** A pool holding transactions of [U] only. *)
Record pool_within (U : list Tx) (p : Pool) : Prop := {
  pw_ok : pool_ok p;
  pw_slot : NoDup (slot <$> pending p);
  pw_known : pending p ⊆ U
}.
(** Identifiers tell the transactions of [U] apart, up to the signature. *)
Definition collision_free (U : list Tx) : Prop :=
  ∀ t u, t ∈ U → u ∈ U → canonical_tx_id t = canonical_tx_id u → clear_sig t = clear_sig u.
End spec.

(** ** The order of requeueing *)

Lemma requeue_leb_true x y : requeue_leb x y = true → by_sender_nonce x y.
Proof.
  unfold requeue_leb, by_sender_nonce, String.le, String.leb.
  destruct (String.compare _ _) eqn:E; [| |done].
  - apply String.compare_eq_iff in E. intros ?%Z.leb_le. done.
  - intros _. split; [done|]. intros Hs. rewrite Hs in E.
    pose proof (String.compare_antisym (tx_sender_pubkey y) (tx_sender_pubkey y)) as A.
    rewrite E in A. discriminate A.
Qed.
Lemma requeue_leb_false x y : requeue_leb x y = false → by_sender_nonce y x ∧ slot x ≠ slot y.
Proof.
  unfold requeue_leb, by_sender_nonce, String.le, String.leb, slot. intros H.
  rewrite String.compare_antisym.
  destruct (String.compare _ _) eqn:E; cbn [CompOpp]; [|done|].
  - apply String.compare_eq_iff in E. apply Z.leb_gt in H. split; [split; [done|lia]|].
    intros [= _ Hn]. lia.
  - assert (tx_sender_pubkey x ≠ tx_sender_pubkey y) as Hne.
    { intros Hs. rewrite Hs in E.
      pose proof (String.compare_antisym (tx_sender_pubkey y) (tx_sender_pubkey y)) as A.
      rewrite E in A. discriminate A. }
    split; [split; [done|congruence]|congruence].
Qed.
Lemma by_sender_nonce_trans : Transitive by_sender_nonce.
Proof.
  intros x y z [H1 H2] [H3 H4]. split; [by etrans|]. intros E.
  assert (tx_sender_pubkey x = tx_sender_pubkey y) as Exy
    by (apply (anti_symm String.le); [done|]; by rewrite E).
  specialize (H2 Exy). specialize (H4 ltac:(congruence)). lia.
Qed.

Lemma sort_insert_perm x l : sort_insert x l ≡ₚ x :: l.
Proof.
  induction l as [|y l IH]; cbn [sort_insert]; [done|].
  destruct (requeue_leb x y); [done|]. rewrite IH. constructor.
Qed.
Lemma stable_sort_perm l : stable_sort l ≡ₚ l.
Proof.
  unfold stable_sort. induction l as [|x l IH]; cbn [foldr]; [done|].
  by rewrite sort_insert_perm, IH.
Qed.
Lemma sort_insert_sorted x l :
  StronglySorted by_sender_nonce l → StronglySorted by_sender_nonce (sort_insert x l).
Proof.
  induction 1 as [|y l Hl IH Hy]; cbn [sort_insert]; [by repeat constructor|].
  destruct (requeue_leb x y) eqn:E.
  - apply requeue_leb_true in E. constructor; [by constructor|]. constructor; [done|].
    eapply Forall_impl; [exact Hy|]. intros z Hz. by apply (by_sender_nonce_trans x y z).
  - apply requeue_leb_false in E as [E _]. constructor; [done|].
    rewrite sort_insert_perm. by constructor.
Qed.
Lemma sort_insert_slots x l s :
  filter (λ t, slot t = s) (sort_insert x l) = filter (λ t, slot t = s) (x :: l).
Proof.
  induction l as [|y l IH]; cbn [sort_insert]; [done|].
  destruct (requeue_leb x y) eqn:E; [done|]. apply requeue_leb_false in E as [_ E].
  rewrite filter_cons, IH, !filter_cons. do 2 case_decide; try done. congruence.
Qed.

Section requeue_order.
Context {C : Crypto} {TC : TxCodec}.

(** The code's filters and sort compute the specified order. *)
Lemma requeue_candidates_order recovery : return_order recovery (requeue_candidates recovery).
Proof.
  assert (requeue_candidates recovery = stable_sort (returning recovery)) as ->.
  { unfold requeue_candidates, returning. f_equal. rewrite list_filter_filter.
    apply list_filter_iff. intros t. rewrite elem_of_list_to_set. tauto. }
  split; [apply stable_sort_perm|]. unfold stable_sort. split.
  - induction (returning recovery) as [|x l IH]; cbn [foldr]; [constructor|].
    by apply sort_insert_sorted.
  - intros s. induction (returning recovery) as [|x l IH]; cbn [foldr]; [done|].
    rewrite sort_insert_slots, !filter_cons, IH. done.
Qed.
Lemma requeue_candidates_elem recovery tx : tx ∈ requeue_candidates recovery ↔
  tx ∈ displaced_txs recovery ∧ tx_module tx ≠ "coinbase" ∧
  canonical_tx_id tx ∉ winning_tx_ids recovery.
Proof.
  rewrite (proj1 (requeue_candidates_order recovery)). unfold returning.
  rewrite list_elem_of_filter. tauto.
Qed.
End requeue_order.

(** Collision freedom is decidable. *)
Definition collision_freeb {C : Crypto} {TC : TxCodec} (U : list Tx) : bool :=
  forallb (λ t, forallb (λ u, negb (bool_decide (canonical_tx_id t = canonical_tx_id u)) ||
    bool_decide (clear_sig t = clear_sig u)) U) U.
Lemma collision_freeb_true {C : Crypto} {TC : TxCodec} U : collision_freeb U = true → collision_free U.
Proof.
  unfold collision_freeb. intros H t u Ht Hu E.
  rewrite forallb_forall in H. specialize (H t). rewrite <- list_elem_of_In in H. specialize (H Ht).
  cbn beta in H. rewrite forallb_forall in H. specialize (H u). rewrite <- list_elem_of_In in H.
  specialize (H Hu). rewrite bool_decide_true in H by done. by apply bool_decide_eq_true in H.
Qed.

Lemma one_per_slot_new : one_per_slot new_pool.
Proof.
  unfold one_per_slot. cbn [new_pool by_id]. intros i j t u Hi. by rewrite lookup_empty in Hi.
Qed.

Lemma slot_eq t u : slot t = slot u ↔
  tx_sender_pubkey t = tx_sender_pubkey u ∧ tx_nonce t = tx_nonce u.
Proof. unfold slot. split; [by intros [= ? ?]|by intros [-> ->]]. Qed.

Section refinement.
Context {C : Crypto} {TC : TxCodec} {SL : Sled} (U : list Tx) (HU : collision_free U).

(** [find] over a list with one transaction per slot. *)
Lemma NoDup_slot_eq (l : list Tx) t u :
  NoDup (slot <$> l) → t ∈ l → u ∈ l → slot t = slot u → t = u.
Proof.
  induction l as [|x l IH]; cbn [fmap list_fmap]; [by intros _ ?%elem_of_nil|].
  intros [Hx Hl]%NoDup_cons [->|Ht]%elem_of_cons [->|Hu]%elem_of_cons E; [done| | |by apply IH].
  - destruct Hx. rewrite E. by apply list_elem_of_fmap_2.
  - destruct Hx. rewrite <- E. by apply list_elem_of_fmap_2.
Qed.

Lemma within_evaluate p tx k : pool_within U p → tx ∈ U →
  match evaluate (mkAdmission k (pending p)) tx with
  | Ok Accept => admissible (pending p) k tx ∧ slot tx ∉ slot <$> pending p
  | Ok (Replace id) => admissible (pending p) k tx ∧
      ∃ e, e ∈ pending p ∧ slot e = slot tx ∧ id = canonical_tx_id e
  | Err _ => ¬ admissible (pending p) k tx
  end.
Proof.
  intros W Htx. destruct (evaluate _ tx) as [[|id]|err] eqn:E.
  - apply evaluate_Ok in E as (Hv & _ & Hn & Hs). cbn [ma_pending ma_current_nonce] in *.
    split.
    + split; [done|]. split; [done|]. intros e He Hq%slot_eq. by destruct (Hs e He).
    + intros (e & Hq & He)%list_elem_of_fmap. symmetry in Hq. apply slot_eq in Hq.
      by destruct (Hs e He).
  - apply evaluate_Ok in E as (Hv & _ & Hn & e & Hf & -> & Ht). cbn [ma_pending ma_current_nonce] in *.
    destruct (find_Some_elem _ _ _ Hf) as [He Hs]. apply same_slot_true, slot_eq in Hs.
    split; [|eauto]. split; [done|]. split; [done|]. intros e' He' Hq.
    by rewrite (NoDup_slot_eq (pending p) e' e (pw_slot _ _ W) He' He) by congruence.
  - intros (Hv & Hn & Ht).
    assert (∃ d, evaluate (mkAdmission k (pending p)) tx = Ok d) as [d Hd]; [|congruence].
    assert (∀ e, e ∈ pending p → canonical_tx_id e ≠ canonical_tx_id tx) as Hid.
    { intros e He Hq. pose proof (HU e tx (pw_known _ _ W _ He) Htx Hq) as Hc.
      unfold clear_sig in Hc. injection Hc as ? ? ? ? ? ? ?.
      assert (slot e = slot tx) as Hs by (by apply slot_eq). pose proof (Ht _ He Hs). lia. }
    destruct (List.find (same_slot tx) (pending p)) as [e|] eqn:Ef.
    + destruct (find_Some_elem _ _ _ Ef) as [He Hs]. apply same_slot_true, slot_eq in Hs.
      exists (Replace (canonical_tx_id e)). apply evaluate_Ok. split_and!; try done.
      exists e. split; [done|]. split; [done|]. by apply Ht.
    + exists Accept. apply evaluate_Ok. split_and!; try done.
      intros e He Hs%same_slot_true. pose proof (find_None_elem _ _ _ Ef He). congruence.
Qed.

(** Taking an identifier out of the pending list. *)
Lemma remove_id_split p e : pool_ok p → e ∈ pending p →
  ∃ m1 m2, pending p = m1 ++ e :: m2 ∧ pending (remove_id p (canonical_tx_id e)) = m1 ++ m2.
Proof.
  intros Hp He. destruct (list_elem_of_split _ _ He) as (m1 & m2 & E). exists m1, m2.
  split; [done|]. rewrite pending_remove_id, E by done.
  pose proof (po_nodup _ Hp) as Hnd. rewrite <- (pending_ids p Hp), E, fmap_app, fmap_cons in Hnd.
  apply NoDup_app in Hnd as (_ & H1 & [H2 _]%NoDup_cons).
  rewrite filter_app, filter_cons_False by tauto. f_equal; apply list_filter_id; intros t Ht Hq.
  - apply (H1 (canonical_tx_id t)); [by apply list_elem_of_fmap_2|]. rewrite Hq. by left.
  - apply H2. rewrite <- Hq. by apply list_elem_of_fmap_2.
Qed.

Lemma NoDup_slot_outbid (m1 m2 : list Tx) e tx : slot e = slot tx →
  NoDup (slot <$> m1 ++ e :: m2) → NoDup (slot <$> m1 ++ m2 ++ [tx]).
Proof.
  intros E. rewrite !fmap_app, fmap_cons, E. cbn [fmap list_fmap].
  by rewrite app_assoc, <- Permutation_cons_append, <- Permutation_middle.
Qed.
Lemma NoDup_slot_append (m : list Tx) tx :
  NoDup (slot <$> m) → slot tx ∉ slot <$> m → NoDup (slot <$> m ++ [tx]).
Proof.
  intros Hm Ht. rewrite fmap_app. cbn [fmap list_fmap]. rewrite <- Permutation_cons_append.
  by constructor.
Qed.
Lemma NoDup_slot_filter (P : Tx → Prop) `{!∀ t, Decision (P t)} (m : list Tx) :
  NoDup (slot <$> m) → NoDup (slot <$> filter P m).
Proof.
  induction m as [|x m IH]; [done|]. rewrite fmap_cons, filter_cons. intros [Hx Hm]%NoDup_cons.
  case_decide; [|by apply IH]. rewrite fmap_cons. constructor; [|by apply IH].
  intros (t & E & [_ Ht]%list_elem_of_filter)%list_elem_of_fmap. apply Hx. rewrite E.
  by apply list_elem_of_fmap_2.
Qed.

(** The code's admission is one of the abstract one. *)
Lemma within_admit p tx k : pool_within U p → tx ∈ U →
  spec_admit (pending p) k tx (pending (admit_tx p tx k).1) ∧ pool_within U (admit_tx p tx k).1 ∧
  (is_ok (admit_tx p tx k).2 = true ↔ admissible (pending p) k tx).
Proof.
  intros W Htx. pose proof (within_evaluate p tx k W Htx) as Hev. destruct W as [Hp Hs Hk].
  pose proof (admit_tx_ok p tx k Hp) as Hq. unfold admit_tx in *.
  destruct (evaluate _ tx) as [d|err] eqn:E; cbn [fst snd is_ok] in *.
  2:{ split; [by apply spec_refuse|]. split; [done|]. split; [done|]. by intros ?%Hev. }
  apply evaluate_Ok in E as (_ & Hnew & _). cbn [ma_pending] in Hnew.
  assert (by_id p !! canonical_tx_id tx = None) as Hid.
  { destruct (by_id p !! canonical_tx_id tx) as [u|] eqn:Eu; [|done]. exfalso.
    pose proof (po_key _ Hp _ _ Eu) as Hc. apply (Hnew u); [|done].
    apply elem_of_pending; [done|]. by rewrite Hc. }
  destruct d as [|id]; cbn [fst snd is_ok] in *.
  - destruct Hev as [Ha Hf]. pose proof (pending_insert p tx Hp Hid) as Hi. unfold tx_key in *.
    pose proof (pending_length p Hp) as Hlen. pose proof (po_bound _ Hp) as Hb.
    destruct (Z.leb_spec MEMPOOL_MAX (pool_len p)) as [Hfull|Hroom]; unfold pool_len in *.
    + destruct (pending p) as [|oldest rest] eqn:Ep; [unfold MEMPOOL_MAX in *; simpl in Hlen; lia|].
      cbn [tail] in Hi. rewrite Hi. split_and!; [|split|done].
      * apply (spec_evict _ _ _ oldest); [done|done|lia|done].
      * done.
      * rewrite Hi. apply NoDup_slot_append; [by apply NoDup_cons in Hs as [_ ?]|].
        rewrite fmap_cons in Hf. by intros ?; apply Hf; right.
      * rewrite Hi. intros t [Ht|Ht%list_elem_of_singleton]%elem_of_app; [|by subst].
        apply Hk. by right.
    + rewrite Hi. split_and!; [|split|done].
      * apply spec_fill; [done|done|lia].
      * done.
      * rewrite Hi. by apply NoDup_slot_append.
      * rewrite Hi. intros t [Ht|Ht%list_elem_of_singleton]%elem_of_app; [by apply Hk|by subst].
  - destruct Hev as (Ha & e & He & Hes & ->).
    destruct (remove_id_split p e Hp He) as (m1 & m2 & Ep & Er).
    pose proof (remove_id_ok p (canonical_tx_id e) Hp) as Hp1. unfold tx_key in *.
    assert (by_id (remove_id p (canonical_tx_id e)) !! canonical_tx_id tx = None) as Hid1
      by (cbn [remove_id by_id]; apply lookup_delete_None; by right).
    pose proof (pending_insert _ tx Hp1 Hid1) as Hi.
    assert (pool_len (remove_id p (canonical_tx_id e)) < MEMPOOL_MAX) as Hroom.
    { unfold pool_len. rewrite <- pending_length, Er by done.
      pose proof (po_bound _ Hp) as Hb. unfold pool_len in Hb.
      rewrite <- pending_length, Ep, length_app in Hb by done. cbn [length] in Hb.
      rewrite length_app. lia. }
    destruct (Z.leb_spec MEMPOOL_MAX (pool_len (remove_id p (canonical_tx_id e)))); [lia|].
    rewrite Er, <- app_assoc in Hi. rewrite Hi. split_and!; [|split|done].
    + by apply (spec_outbid _ _ _ m1 e m2).
    + done.
    + rewrite Hi. apply (NoDup_slot_outbid m1 m2 e); [done|]. by rewrite <- Ep.
    + rewrite Hi. intros t. rewrite !elem_of_app, list_elem_of_singleton.
      intros Ht. destruct Ht as [Ht|[Ht| ->]]; [| |done]; apply Hk; rewrite Ep; set_solver.
Qed.

Lemma within_confirm p ids : pool_within U p →
  pending (remove_confirmed p ids) = spec_confirm (pending p) ids ∧
  pool_within U (remove_confirmed p ids).
Proof.
  intros [Hp Hs Hk]. pose proof (pending_confirmed p ids Hp) as E. split; [done|].
  split; [by apply remove_confirmed_ok|..]; rewrite E.
  - by apply NoDup_slot_filter.
  - intros t [_ Ht]%list_elem_of_filter. by apply Hk.
Qed.

Lemma within_requeue_loop chain p report txs : pool_within U p → txs ⊆ U →
  spec_admits (ChainState.nonce_of chain) (pending p) txs (pending (requeue_loop chain p report txs).1) ∧
  pool_within U (requeue_loop chain p report txs).1.
Proof.
  revert p report. induction txs as [|tx txs IH]; intros p report W Hin; cbn [requeue_loop].
  { split; [constructor|done]. }
  destruct (within_admit p tx (ChainState.nonce_of chain (tx_sender_pubkey tx)) W) as (H1 & W1 & _);
    [apply Hin; by left|].
  destruct (admit_tx p tx _) as [q [d|err]]; cbn [fst] in H1, W1.
  all: edestruct (IH q) as [H2 W2]; [exact W1|intros t Ht; apply Hin; by right|].
  all: split; [by econstructor|exact W2].
Qed.

Lemma within_op p op : pool_within U p → op_txs op ⊆ U →
  spec_op (pending p) op (pending (run_op p op)) ∧ pool_within U (run_op p op).
Proof.
  intros W Hin. destruct op as [tx k|ids|chain recovery]; cbn [op_txs run_op spec_op] in *.
  - destruct (within_admit p tx k W) as (H1 & W1 & _); [apply Hin; by left|done].
  - by apply within_confirm.
  - unfold requeue_after_reorg.
    destruct (within_confirm p (winning_tx_ids recovery) W) as [Ec Wc].
    destruct (within_requeue_loop chain _ (mkReport [] []) (requeue_candidates recovery) Wc)
      as [H1 W1]; [intros tx (Htx & _)%requeue_candidates_elem; by apply Hin|].
    split; [|done]. exists (requeue_candidates recovery). rewrite <- Ec.
    split; [apply requeue_candidates_order|done].
Qed.

Lemma within_new : pool_within U new_pool.
Proof.
  split; [apply pool_ok_new|constructor|]. intros t Ht. by apply elem_of_nil in Ht.
Qed.

Lemma within_run p ops : pool_within U p → (∀ op, op ∈ ops → op_txs op ⊆ U) →
  spec_run (pending p) ops (pending (fold_left run_op ops p)) ∧
  pool_within U (fold_left run_op ops p).
Proof.
  revert p. induction ops as [|op ops IH]; intros p W Hin; cbn [fold_left].
  { split; [constructor|done]. }
  destruct (within_op p op W) as [H1 W1]; [apply Hin; by left|].
  destruct (IH _ W1) as [H2 W2]; [intros o Ho; apply Hin; by right|].
  split; [by econstructor|done].
Qed.
End refinement.

(** ** Requeueing loses nothing *)
Section requeue.
Context {C : Crypto} {TC : TxCodec} {SL : Sled}.

(** Every transaction of [p] is pending in [q], or outbid there. *)
Definition covered (q : Pool) (t : Tx) : Prop :=
  ∃ u, by_id q !! canonical_tx_id u = Some u ∧ slot u = slot t ∧ tx_tip t ≤ tx_tip u.
Definition covers (p q : Pool) : Prop :=
  ∀ t, by_id p !! canonical_tx_id t = Some t → covered q t.

Lemma covered_trans p q t : covers p q → covered p t → covered q t.
Proof.
  intros H (u & Hu & Hs & Ht). destruct (H u Hu) as (v & Hv & Hs' & Ht').
  exists v. split; [done|]. split; [congruence|lia].
Qed.

Lemma insert_locked_room p id tx : pool_len p < MEMPOOL_MAX →
  by_id (insert_locked p id tx) = <[id := tx]> (by_id p).
Proof.
  unfold pool_len, insert_locked. intros H.
  destruct (Z.leb_spec MEMPOOL_MAX (Z.of_nat (size (by_id p)))); [lia|done].
Qed.

(** An admission is an insertion into the pool without the slot's occupant. *)
Lemma admit_split p tx k q d : pool_ok p → one_per_slot p → admit_tx p tx k = (q, Ok d) →
  let p1 := match d with Accept => p | Replace id => remove_id p id end in
  q = insert_locked p1 (tx_key tx) tx ∧
  ∀ i t, by_id p1 !! i = Some t → by_id p !! i = Some t ∧
    ¬ (tx_sender_pubkey t = tx_sender_pubkey tx ∧ tx_nonce t = tx_nonce tx).
Proof.
  intros Hp H1 E p1. unfold admit_tx in E. destruct (evaluate _ tx) as [d'|err] eqn:Ev; [|done].
  assert (d' = d) as -> by (destruct d'; congruence).
  apply evaluate_Ok in Ev as (_ & _ & _ & Hd). cbn [ma_pending] in Hd.
  split; [destruct d; by simplify_eq|]. destruct d as [|id]; unfold p1; cbn [remove_id by_id].
  - intros i t Ht. split; [done|]. apply Hd, elem_of_pending; [done|]. by rewrite (po_key _ Hp _ _ Ht).
  - intros i t [Hne Ht]%lookup_delete_Some. split; [done|]. intros [Hs1 Hs2]. apply Hne.
    destruct Hd as (e & Hf & -> & _). destruct (find_Some_elem _ _ _ Hf) as [He Hs].
    apply same_slot_true in Hs as [? ?]. apply elem_of_pending in He; [|done].
    apply (H1 _ _ e t He Ht); congruence.
Qed.

Lemma insert_locked_lookup p id tx i t :
  by_id (insert_locked p id tx) !! i = Some t → i = id ∧ t = tx ∨ by_id p !! i = Some t.
Proof.
  unfold insert_locked. cbn [by_id]. intros [[<- <-]|[_ Ht]]%lookup_insert_Some; [by left|right].
  destruct (_ <=? _); [|done]. destruct (order p); cbn [by_id] in Ht; [done|]. by apply lookup_delete_Some in Ht as [_ Ht].
Qed.

(** Every operation of the pool keeps one transaction per slot, full or not. *)
Lemma admit_tx_slots p tx k : pool_ok p → one_per_slot p → one_per_slot (admit_tx p tx k).1.
Proof.
  intros Hp H1. destruct (admit_tx p tx k) as [q [d|e]] eqn:E; cbn [fst].
  - destruct (admit_split _ _ _ _ _ Hp H1 E) as [-> Hsub]. intros i j t u.
    intros [[-> ->]|Ht]%insert_locked_lookup [[-> ->]|Hu]%insert_locked_lookup Es En; [done|..].
    + by destruct (proj2 (Hsub _ _ Hu)).
    + by destruct (proj2 (Hsub _ _ Ht)).
    + apply (H1 i j t u); [by apply Hsub..|done|done].
  - unfold admit_tx in E. repeat case_match; by simplify_eq.
Qed.
Lemma remove_confirmed_slots p ids : one_per_slot p → one_per_slot (remove_confirmed p ids).
Proof.
  intros H1 i j t u. rewrite !remove_confirmed_lookup. repeat case_bool_decide; try done. apply H1.
Qed.
Lemma requeue_ok chain p recovery : pool_ok p → one_per_slot p →
  pool_ok (requeue_after_reorg chain p recovery).1 ∧ one_per_slot (requeue_after_reorg chain p recovery).1.
Proof.
  intros Hp H1. unfold requeue_after_reorg.
  generalize (remove_confirmed_ok p (winning_tx_ids recovery) Hp) (remove_confirmed_slots p (winning_tx_ids recovery) H1).
  generalize (remove_confirmed p (winning_tx_ids recovery)) (mkReport [] []).
  induction (requeue_candidates recovery) as [|tx txs IH]; intros q rep Hq Hs; cbn [requeue_loop]; [done|].
  pose proof (admit_tx_ok q tx (ChainState.nonce_of chain (tx_sender_pubkey tx)) Hq) as H2.
  pose proof (admit_tx_slots q tx (ChainState.nonce_of chain (tx_sender_pubkey tx)) Hq Hs) as H3.
  destruct (admit_tx q tx _) as [q' [d|e]]; by apply IH.
Qed.

(** One admission into a pool with room. *)
Lemma admit_room p tx k q r : pool_ok p → one_per_slot p → pool_len p < MEMPOOL_MAX →
  admit_tx p tx k = (q, r) →
  pool_ok q ∧ one_per_slot q ∧ pool_len q ≤ pool_len p + 1 ∧ covers p q ∧
  (is_ok r = true → by_id q !! canonical_tx_id tx = Some tx) ∧
  (∀ i t, by_id q !! i = Some t → by_id p !! i = Some t ∨ t = tx).
Proof.
  intros Hp H1 Hroom E. pose proof (admit_tx_ok p tx k Hp) as Hq. pose proof (admit_tx_slots p tx k Hp H1) as Hq1s.
  rewrite E in Hq, Hq1s. cbn [fst] in Hq, Hq1s.
  split; [done|]. split; [done|]. destruct r as [d|err].
  2:{ unfold admit_tx in E. assert (q = p) as -> by (repeat case_match; by simplify_eq).
      split; [lia|]. split; [|split; [done|by left]].
      intros t Ht. exists t. split; [done|]. split; [done|lia]. }
  destruct (admit_split _ _ _ _ _ Hp H1 E) as [Hq1 Hsub]. set (p1 := match d with Accept => p | Replace id => remove_id p id end) in *.
  unfold admit_tx in E. destruct (evaluate _ tx) as [d'|err] eqn:Ev; [|done].
  assert (d' = d) as -> by (destruct d'; congruence).
  apply evaluate_Ok in Ev as (_ & Hnew & _ & Hd). cbn [ma_pending] in Hnew, Hd.
  assert (∀ i t, by_id p !! i = Some t → t ∈ pending p) as Hpend.
  { intros i t Ht. apply elem_of_pending; [done|]. by rewrite (po_key _ Hp _ _ Ht). }
  assert (pool_len p1 ≤ pool_len p) as Hlen.
  { unfold pool_len. assert (size (by_id p1) ≤ size (by_id p))%nat; [|lia].
    apply map_size_sub. intros i t Ht. by apply Hsub. }
  pose proof (insert_locked_room p1 (tx_key tx) tx) as Hby. rewrite <- Hq1 in Hby.
  specialize (Hby ltac:(lia)). split_and!.
  - unfold pool_len in *. rewrite Hby.
    destruct (by_id p1 !! tx_key tx) eqn:El.
    + rewrite map_size_insert_Some by eauto. lia.
    + rewrite map_size_insert_None by done. lia.
  - intros t Ht. unfold covered.
    destruct (decide (canonical_tx_id t = tx_key tx)) as [Ek|Ek].
    { destruct (Hnew t); [by apply (Hpend _ _ Ht)|done]. }
    destruct (by_id p1 !! canonical_tx_id t) as [u|] eqn:El.
    + destruct (Hsub _ _ El) as [Hu _]. assert (u = t) as -> by congruence.
      exists t. rewrite Hby, lookup_insert_ne by done. split; [done|]. split; [done|lia].
    + destruct d as [|id]; unfold p1 in El; cbn [remove_id by_id] in El; [congruence|].
      apply lookup_delete_None in El as [El|El]; [|congruence].
      destruct Hd as (e & Hf & -> & Htip). destruct (find_Some_elem _ _ _ Hf) as [He Hs].
      apply same_slot_true in Hs as [Hs1 Hs2]. apply elem_of_pending in He; [|done].
      rewrite El in He. assert (e = t) as -> by congruence.
      exists tx. rewrite Hby. unfold tx_key. rewrite lookup_insert_eq.
      split; [done|]. split; [|lia]. unfold slot. by rewrite Hs1, Hs2.
  - intros _. rewrite Hby. apply lookup_insert_eq.
  - intros i t. rewrite Hby. intros [[_ <-]|[_ Ht]]%lookup_insert_Some; [by right|].
    left. by apply Hsub.
Qed.

(** Why [q] refuses [t], whose sender's account has nonce [k]. *)
Definition refused (q : Pool) (k : Z) (t : Tx) (err : MempoolAdmissionError) : Prop :=
  match err with
  | StatelessValidation e => validate_tx_stateless t = Err e
  | DuplicateCanonicalTxId => ∃ u, canonical_tx_id u = canonical_tx_id t ∧ covered q u
  | StaleNonce current nonce => current = k ∧ nonce = tx_nonce t ∧ nonce < current
  | MempoolNonceGap current nonce => current = k ∧ nonce = tx_nonce t ∧ sat_add64 current 1 < nonce
  | DuplicateSenderNonce sender nonce existing_tip new_tip =>
      (sender, nonce) = slot t ∧ new_tip = tx_tip t ∧ new_tip ≤ existing_tip ∧
      ∃ u, slot u = slot t ∧ tx_tip u = existing_tip ∧ covered q u
  end.
(** What becomes of a transaction offered to [q]: taken, or refused for a reason. *)
Definition verdict (chain : ChainState) (q : Pool) (tv : Tx * option MempoolAdmissionError) : Prop :=
  let k := ChainState.nonce_of chain (tx_sender_pubkey tv.1) in
  match tv.2 with
  | None => validate_tx_stateless tv.1 = Ok () ∧ nonce_window k tv.1 ∧ covered q tv.1
  | Some err => refused q k tv.1 err
  end.
Definition accepted_ids (tvs : list (Tx * option MempoolAdmissionError)) : list string :=
  omap (λ tv, match tv.2 with None => Some (canonical_tx_id tv.1) | Some _ => None end) tvs.
Definition rejected_ids (tvs : list (Tx * option MempoolAdmissionError))
    : list (string * MempoolAdmissionError) :=
  omap (λ tv, match tv.2 with None => None | Some err => Some (canonical_tx_id tv.1, err) end) tvs.

Lemma pending_covered p t : pool_ok p → t ∈ pending p → covered p t.
Proof. intros Hp Ht%elem_of_pending; [|done]. exists t. split; [done|]. split; [done|lia]. Qed.

Lemma evaluate_refused p k t err : pool_ok p →
  evaluate (mkAdmission k (pending p)) t = Err err → refused p k t err.
Proof.
  intros Hp. unfold evaluate. cbn [ma_pending ma_current_nonce].
  destruct (validate_tx_stateless t) as [[]|e] eqn:Ev; cbn [map_err mbind result_bind];
    [|by intros [= <-]].
  destruct (existsb _ _) eqn:Ed.
  { intros [= <-]. apply existsb_elem in Ed as (u & Hu & E%bool_decide_eq_true). cbn [refused].
    exists u. split; [done|]. by apply pending_covered. }
  destruct (Z.ltb_spec (tx_nonce t) k); [by intros [= <-]|].
  destruct (Z.ltb_spec (sat_add64 k 1) (tx_nonce t)); [by intros [= <-]|].
  destruct (List.find (same_slot t) (pending p)) as [u|] eqn:Ef; [|done].
  destruct (Z.ltb_spec (tx_tip u) (tx_tip t)); [done|]. intros [= <-]. cbn [refused].
  destruct (find_Some_elem _ _ _ Ef) as [Hu Hs]. apply same_slot_true, slot_eq in Hs.
  split_and!; [done..|]. exists u. split; [done|]. split; [done|]. by apply pending_covered.
Qed.

Lemma admit_verdict chain p t q r : pool_ok p → one_per_slot p → pool_len p < MEMPOOL_MAX →
  admit_tx p t (ChainState.nonce_of chain (tx_sender_pubkey t)) = (q, r) →
  verdict chain q (t, match r with Ok _ => None | Err err => Some err end).
Proof.
  intros Hp H1 Hroom E. destruct (admit_room p t _ q r Hp H1 Hroom E) as (_ & _ & _ & _ & Hok & _).
  unfold admit_tx in E. destruct (evaluate _ t) as [d|err] eqn:Ev.
  - assert (∃ d', r = Ok d') as [d' ->] by (destruct d; simplify_eq; eauto).
    apply evaluate_Ok in Ev as (Hv & _ & Hn & _). unfold verdict. cbn [fst snd].
    split; [done|]. split; [done|]. exists t. split; [by apply Hok|]. split; [done|lia].
  - simplify_eq. unfold verdict. cbn [fst snd]. by apply evaluate_refused.
Qed.

(** What was covered stays so, and so do the verdicts. *)
Lemma verdict_mono chain p q tv : covers p q → verdict chain p tv → verdict chain q tv.
Proof.
  intros Hc. destruct tv as [t [err|]]; unfold verdict; cbn [fst snd].
  - destruct err; cbn [refused]; [done|..|done|done|].
    + intros (u & Hu & Hc'). exists u. split; [done|]. by apply (covered_trans p).
    + intros (Hs & Ht & Hle & u & Hu & Hu' & Hc'). split_and!; [done..|]. exists u.
      split; [done|]. split; [done|]. by apply (covered_trans p).
  - intros (Hv & Hn & Ht). split; [done|]. split; [done|]. by apply (covered_trans p).
Qed.
Lemma covers_refl p : covers p p.
Proof. intros t Ht. exists t. split; [done|]. split; [done|lia]. Qed.
Lemma covers_trans p q r : covers p q → covers q r → covers p r.
Proof. intros H1 H2 t Ht. apply (covered_trans q); [done|]. by apply H1. Qed.

Lemma requeue_loop_verdicts chain txs : ∀ p report,
  pool_ok p → one_per_slot p → pool_len p + Z.of_nat (length txs) ≤ MEMPOOL_MAX →
  let q := (requeue_loop chain p report txs).1 in
  let report' := (requeue_loop chain p report txs).2 in
  pool_ok q ∧ one_per_slot q ∧ covers p q ∧
  (∀ i t, by_id q !! i = Some t → by_id p !! i = Some t ∨ t ∈ txs) ∧
  ∃ verdicts, verdicts.*1 = txs ∧ Forall (verdict chain q) verdicts ∧
    rp_accepted report' = rp_accepted report ++ accepted_ids verdicts ∧
    rp_rejected report' = rp_rejected report ++ rejected_ids verdicts.
Proof.
  induction txs as [|tx txs IH]; intros p report Hp H1 Hroom; cbn [requeue_loop].
  { cbn [fst snd]. split_and!; [done|done|apply covers_refl|by left|].
    exists []. cbn. by rewrite !app_nil_r. }
  cbn [length] in Hroom. destruct (admit_tx p tx _) as [q r] eqn:E.
  destruct (admit_room p tx _ q r Hp H1 ltac:(lia) E) as (Hq & H1q & Hlen & Hcov & _ & Hsub).
  pose proof (admit_verdict chain p tx q r Hp H1 ltac:(lia) E) as Hv.
  destruct r as [d|err].
  all: edestruct (IH q) as (Hq' & H1q' & Hcov' & Hsub' & vs & E1 & Hvs & Ea & Er); [done|done|lia|].
  all: split; [exact Hq'|]; split; [exact H1q'|]; split; [by eapply covers_trans|]; split.
  1,3: intros i t [[Ht| ->]%Hsub|Ht]%Hsub'; [by left|right; by left|right; by right].
  - exists ((tx, None) :: vs). cbn [fmap list_fmap fst]. rewrite E1. split; [done|].
    split; [constructor; [|done]; by eapply verdict_mono|].
    rewrite Ea, Er. cbn [rp_accepted rp_rejected]. by rewrite <- app_assoc.
  - exists ((tx, Some err) :: vs). cbn [fmap list_fmap fst]. rewrite E1. split; [done|].
    split; [constructor; [|done]; by eapply verdict_mono|].
    rewrite Ea, Er. cbn [rp_accepted rp_rejected]. by rewrite <- app_assoc.
Qed.
End requeue.

(** ** Properties *)
Section properties.
Context {C : Crypto} {TC : TxCodec} {SL : Sled}.

(** C30: The mempool refines the abstract one, a list of transactions, oldest
    first.  Starting empty, whatever sequence of admissions, confirmations and
    requeueings a node performs, the list of its pending transactions is that
    of a run of the abstract mempool: an admission takes its slot's occupant
    out only for a strictly higher tip, is appended at the end, and pushes out
    exactly the oldest transaction when the list is full; a confirmation takes
    out exactly the confirmed ones; after a reorganisation the displaced
    transactions that are no coinbase and not on the winning branch, and no
    others, are offered again, by sender and nonce.  The index and the
    insertion order are those of the list, there is at most one transaction
    per sender and nonce, the whole is bounded, and an admission succeeds
    exactly when the abstract one may take the transaction, as long as no two
    of the transactions handled have colliding identifiers. *)
Theorem mempool_refines_slots U ops :
  collision_free U → (∀ op, op ∈ ops → op_txs op ⊆ U) →
  let p := fold_left run_op ops new_pool in
  spec_run [] ops (pending p) ∧
  canonical_tx_id <$> pending p = order p ∧
  (∀ t, t ∈ pending p ↔ by_id p !! canonical_tx_id t = Some t) ∧
  NoDup (slot <$> pending p) ∧ Z.of_nat (length (pending p)) ≤ MEMPOOL_MAX ∧
  ∀ tx k, tx ∈ U → (is_ok (admit_tx p tx k).2 = true ↔ admissible (pending p) k tx).
Proof.
  intros HU Hin p. destruct (within_run U HU new_pool ops (within_new U) Hin) as [Hr W].
  fold p in Hr, W. pose proof (pw_ok _ _ W) as Hp.
  split; [exact Hr|]. split; [by apply pending_ids|].
  split; [intros t; by apply elem_of_pending|]. split; [apply W|]. split.
  - rewrite pending_length by done. apply (po_bound _ Hp).
  - intros tx k Htx. by destruct (within_admit U HU p tx k W Htx) as (_ & _ & ?).
Qed.
End properties.

(** A transfer, and one that outbids it. *)
Definition toy_bids : list Tx := [toy_transfer 17 34 100 0 4 300; toy_transfer 17 34 100 0 9 300].

Lemma mempool_refines_slots_witness :
  spec_run [] (map (λ tx, OpAdmit tx 0) toy_bids) [toy_transfer 17 34 100 0 9 300].
Proof.
  destruct (mempool_refines_slots toy_bids (map (λ tx, OpAdmit tx 0) toy_bids)) as (Hr & _).
  - apply collision_freeb_true. by vm_compute.
  - intros op (tx & -> & Htx)%list_elem_of_fmap t Ht%list_elem_of_singleton. by subst t.
  - assert (pending (fold_left run_op (map (λ tx, OpAdmit tx 0) toy_bids) new_pool) =
      [toy_transfer 17 34 100 0 9 300]) as E by (vm_compute; reflexivity).
    rewrite E in Hr. exact Hr.
Defined.

Section requeue_property.
Context {C : Crypto} {TC : TxCodec} {SL : Sled}.

(** C31: Requeueing after a reorganisation loses nothing while the pool has
    room for what returns.  The returning transactions (the displaced ones
    that are no coinbase and not on the winning branch) are taken by sender
    and nonce, and each gets its verdict, reported under its identifier:
    accepted, when it is valid, within the chain's nonce window and now
    pending or outbid by a pending one of its sender and nonce; or refused,
    because it is invalid, its nonce is below the account's or past the next
    one, its identifier is already taken, or a transaction of its sender and
    nonce with at least its tip was there, which still is or has been outbid.
    No identifier of the winning branch stays pending; every other
    transaction that was pending still is, or has been outbid; nothing but
    the returning transactions enters the pool. *)
Theorem requeue_loses_nothing chain p recovery :
  pool_ok p → one_per_slot p →
  pool_len p + Z.of_nat (length (returning recovery)) ≤ MEMPOOL_MAX →
  let q := (requeue_after_reorg chain p recovery).1 in
  let report := (requeue_after_reorg chain p recovery).2 in
  pool_ok q ∧ one_per_slot q ∧
  (∃ verdicts, return_order recovery verdicts.*1 ∧ Forall (verdict chain q) verdicts ∧
    rp_accepted report = accepted_ids verdicts ∧ rp_rejected report = rejected_ids verdicts) ∧
  (∀ id, id ∈ winning_tx_ids recovery → by_id q !! id = None) ∧
  (∀ t, t ∈ pending p → canonical_tx_id t ∉ winning_tx_ids recovery → covered q t) ∧
  ∀ t, t ∈ pending q → t ∈ pending p ∨ t ∈ returning recovery.
Proof.
  intros Hp H1 Hroom q report. pose proof (requeue_candidates_order recovery) as Hord.
  pose proof (proj1 Hord) as Hperm. rewrite <- Hperm in Hroom.
  pose proof (remove_confirmed_ok p (winning_tx_ids recovery) Hp) as Hp'.
  pose proof (remove_confirmed_slots p (winning_tx_ids recovery) H1) as H1'.
  assert (∀ i t, by_id (remove_confirmed p (winning_tx_ids recovery)) !! i = Some t →
    ¬ i ∈ winning_tx_ids recovery ∧ by_id p !! i = Some t) as Hl.
  { intros i t. rewrite remove_confirmed_lookup. by case_bool_decide. }
  assert (pool_len (remove_confirmed p (winning_tx_ids recovery)) ≤ pool_len p) as Hlen.
  { unfold pool_len. pose proof (map_size_sub _ _ (λ i t H, proj2 (Hl i t H))). lia. }
  assert (pool_len (remove_confirmed p (winning_tx_ids recovery)) +
    Z.of_nat (length (requeue_candidates recovery)) ≤ MEMPOOL_MAX) as Hroom' by (clear -Hlen Hroom; lia).
  destruct (requeue_loop_verdicts chain (requeue_candidates recovery) _ (mkReport [] []) Hp' H1' Hroom')
    as (Hq & H1q & Hcov & Hsub & vs & E1 & Hvs & Ha & Hr).
  change (requeue_loop _ _ _ _).1 with q in *. change (requeue_loop _ _ _ _).2 with report in *.
  split; [done|]. split; [done|]. split; [|split; [|split]].
  - exists vs. rewrite E1. done.
  - intros id Hid. destruct (by_id q !! id) as [t|] eqn:E; [|done]. exfalso.
    destruct (Hsub id t E) as [Ht|Ht]; [by apply Hl in Ht as [? _]|].
    apply requeue_candidates_elem in Ht as (_ & _ & Ht). by rewrite (po_key _ Hq _ _ E) in Ht.
  - intros t Ht Hw. apply Hcov. rewrite remove_confirmed_lookup, bool_decide_false by done.
    by apply elem_of_pending.
  - intros t Ht. apply elem_of_pending in Ht; [|done]. destruct (Hsub _ t Ht) as [[_ Ht']%Hl|Ht'].
    + left. by apply elem_of_pending.
    + right. by rewrite <- Hperm.
Qed.
End requeue_property.

(** One displaced transfer returns; the one on the winning branch leaves. *)
Definition toy_recovery : ReorgRecovery :=
  mkRecovery [toy_transfer 17 51 5 0 0 300] [canonical_tx_id (toy_transfer 34 17 7 0 0 300)].
Definition toy_pool : Pool := (admit_tx new_pool (toy_transfer 34 17 7 0 0 300) 0).1.

Lemma requeue_loses_nothing_witness :
  let q := (requeue_after_reorg (empty_state toy_db) toy_pool toy_recovery).1 in
  pool_len q = 1 ∧ by_id q !! canonical_tx_id (toy_transfer 34 17 7 0 0 300) = None.
Proof.
  intros q. assert ((pool_len q =? 1) = true) as E by (vm_compute; reflexivity).
  split; [exact (proj1 (Z.eqb_eq _ _) E)|].
  destruct (requeue_loses_nothing (empty_state toy_db) toy_pool toy_recovery)
    as (_ & _ & _ & Hw & _).
  - apply admit_tx_ok, pool_ok_new.
  - destruct (admit_tx new_pool (toy_transfer 34 17 7 0 0 300) 0) as [p r] eqn:Ep.
    assert (toy_pool = p) as -> by (unfold toy_pool; by rewrite Ep).
    apply (admit_room new_pool (toy_transfer 34 17 7 0 0 300) 0 p r pool_ok_new); [exact one_per_slot_new|reflexivity|exact Ep].
  - vm_compute. discriminate.
  - apply Hw. apply list_elem_of_singleton. reflexivity.
Defined.
