(* ===== verification/Heaviest.v ===== *)
(** * The canonical chain is the heaviest branch

    With a database that accepts every write, no branch the node holds is
    heavier than its canonical chain: the invariant behind fork choice, kept by
    every block however many orphans it releases. *)
From S2P Require Import Prelude Crypto Constants Transaction Block StateRoot Difficulty HistoricalVpow VisionX Sled ChainState Storage Snapshots Reward Reorg Orphan Consistency Genesis Accept Acceptance Consensus Rules.

(** ** A database that accepts every write *)
Class SledReliable (S : Sled) : Prop := {
  db_insert_total d k v : snd (db_insert d k v) = true;
  db_apply_batch_total d ops : snd (db_apply_batch d ops) = true
}.

Definition toy_steady : Sled := {|
  Db := contents_map;
  db_get d k := Ok (d !! k);
  db_insert d k v := (<[k := v]> d, true);
  db_apply_batch d ops := (batch_ops d ops, true);
  db_scan_prefix d p := map Ok (List.filter (λ kv, has_prefix p kv.1) (map_to_list d))
|}.
Definition toy_steady_laws : SledLaws toy_steady.
Proof.
  refine {| db_contents := λ d : @Db toy_steady, d |}; simpl.
  - by intros d k v [= <-].
  - by intros d k v d' [= <-].
  - intros d k v d' ok k' [= <- _] Hk. by rewrite lookup_insert_ne.
  - by intros d ops d' [= <-].
  - done.
  - intros d p k v ([k' v'] & [= <- <-] & Hin)%list_elem_of_fmap.
    apply list_elem_of_In, filter_In in Hin as [Hin _]. by apply elem_of_map_to_list, list_elem_of_In.
Defined.
Lemma toy_steady_reliable : SledReliable toy_steady.
Proof. by split. Qed.

Section heaviest.
Context {C : Crypto} {CL : CryptoLaws C} {TC : TxCodec} {SL : Sled} {SLL : SledLaws SL}
  {SR : SledReliable SL} {SC : StoreCodec}.
Context (params : VisionXParams) (clock : nat → Z) (N : string → Z).
Abbreviation root := GENESIS_HASH.
Abbreviation chain_ok := (chain_ok N root).
Abbreviation ancestry := (ancestry root).
Context (HN : N root = 0) (Hep : epoch_blocks params ≠ 0).
Abbreviation node_ok := (node_ok params N).
Abbreviation admissible := (admissible params N).

(** Every branch held is at most as heavy as the canonical chain, whose work
    map counts the genesis block. *)
Record heaviest (g : ChainState) : Prop := {
  hv_genesis : ∃ g0, blocks g !! 0%nat = Some g0 ∧ cumulative_work g !! root = Some (b_difficulty g0);
  hv_max bs b : ancestry g bs b → total_difficulty bs ≤ total_difficulty (blocks g)
}.

Lemma heaviest_ext g g' :
  blocks g' = blocks g → side_blocks g' = side_blocks g → cumulative_work g' = cumulative_work g →
  heaviest g → heaviest g'.
Proof.
  intros Eb Es Ew [H1 H2]. split; rewrite Eb, ?Ew; [done|]. intros bs b (Ha & Hf & Hl).
  apply (H2 bs b). split_and!; [done| |done].
  eapply Forall_impl; [exact Hf|]. intros x. unfold holds. by rewrite Eb, Es.
Qed.

Lemma heaviest_add g g' blk parent bs0 :
  chain_ok g → chain_ok g' → holds g' blk → (∀ x, holds g x → holds g' x) →
  (∀ x, holds g' x → holds g x ∨ x = blk) →
  ancestry g bs0 parent → b_parent blk = block_hash parent → b_number blk ≠ 0 →
  cumulative_work g' !! root = cumulative_work g !! root → blocks g' !! 0%nat = blocks g !! 0%nat →
  total_difficulty (blocks g) ≤ total_difficulty (blocks g') →
  total_difficulty (bs0 ++ [blk]) ≤ total_difficulty (blocks g') →
  heaviest g → heaviest g'.
Proof.
  intros Hg Hg' Hblk Hsub Hsup Ha0 Hp Hn Hw H0 Hle1 Hle2 [H1 H2]. split.
  - by rewrite H0, Hw.
  - intros bs b Ha.
    destruct (ancestry_added N _ _ _ _ _ Hg Hg' Hblk Hsub Hsup Ha0 Hp Hn _ _ Ha) as [Ha1|[_ ->]]; [|done].
    specialize (H2 _ _ Ha1). lia.
Qed.

(** What a block that passed the rules is attached to. *)
Lemma valid_branch n blk parent st now : node_ok n → admissible blk → heaviest (n_chain n) →
  consensus_valid params (n_chain n) now blk parent st →
  b_number blk ≠ 0 ∧ block_hash blk ≠ root ∧ ¬ known (n_chain n) (block_hash blk) ∧
  ∃ bs, ancestry (n_chain n) bs parent ∧ b_parent blk = block_hash parent ∧
    candidate_work (n_chain n) blk = total_difficulty (bs ++ [blk]).
Proof.
  intros Hn Ha [(g0 & H0 & Hw) _] Hc. pose proof (no_chain _ _ _ Hn) as Hg.
  destruct (cv_state _ _ _ _ _ _ Hc) as (bs & _ & Hbs & _).
  destruct (cv_parent _ _ _ _ _ _ Hc) as [_ Hp]. pose proof (cv_number _ _ _ _ _ _ Hc) as Hnz.
  destruct (consensus_valid_ok _ _ HN _ _ _ _ _ Hg Ha Hnz Hc) as (_ & Hr & Hnew & _).
  split_and!; [done..|]. exists bs. split_and!; [done..|].
  eapply candidate_work_total; [exact Hg|exact H0|exact Hw|exact Hbs|exact Hp|apply (ad_wf _ _ _ Ha)].
Qed.

(** An extension of the tip. *)
Lemma extension_heaviest n n' blk parent st0 st now d : node_ok n → node_ok n' → admissible blk →
  consensus_valid params (n_chain n) now blk parent st0 → b_parent blk = tip_hash (n_chain n) →
  n_chain n' = set_db d (push_canonical (set_accounts (es_balances st) (es_nonces st) (n_chain n)) blk
    (candidate_work (n_chain n) blk)) →
  heaviest (n_chain n) → heaviest (n_chain n').
Proof.
  intros Hn Hn' Ha Hc Hp E Hv. pose proof Hv as [(g0 & H0 & _) _].
  pose proof (no_chain _ _ _ Hn) as Hg. pose proof (no_chain _ _ _ Hn') as Hg'.
  destruct (valid_branch n blk parent st0 now Hn Ha Hv Hc) as (Hnz & Hr & Hnew & bs & Hbs & Hpar & _).
  assert (bs = blocks (n_chain n)) as ->.
  { apply (tip_branch _ _ _ _ Hg (proj1 (cv_parent _ _ _ _ _ _ Hc))); [congruence|done]. }
  assert (blocks (n_chain n') = blocks (n_chain n) ++ [blk]) as Eb by (by rewrite E).
  assert (∀ x, holds (n_chain n') x ↔ holds (n_chain n) x ∨ x = blk) as Hh.
  { intros x. rewrite E. unfold holds. simpl. rewrite elem_of_app, list_elem_of_singleton. tauto. }
  eapply (heaviest_add (n_chain n)); [exact Hg|exact Hg'| | | |exact Hbs|exact Hpar|exact Hnz|..|exact Hv].
  - apply Hh. by right.
  - intros x Hx. apply Hh. by left.
  - intros x. apply Hh.
  - rewrite E. simpl. by rewrite lookup_insert_ne.
  - rewrite Eb. apply lookup_app_l. by apply lookup_lt_Some in H0.
  - rewrite Eb, total_difficulty_app. destruct (cv_difficulty _ _ _ _ _ _ Hc) as [Hfl _].
    change (total_difficulty [blk]) with (b_difficulty blk + 0). unfold DIFFICULTY_FLOOR in Hfl. lia.
  - by rewrite Eb.
Qed.

(** A side block no heavier than the tip. *)
Lemma side_heaviest n n' blk parent st now d : node_ok n → node_ok n' → admissible blk →
  consensus_valid params (n_chain n) now blk parent st → n_chain n' = recorded (n_chain n) blk d →
  candidate_work (n_chain n) blk ≤ tip_work (n_chain n) →
  heaviest (n_chain n) → heaviest (n_chain n').
Proof.
  intros Hn Hn' Ha Hc E Hle Hv. pose proof Hv as [(g0 & H0 & Hw) _].
  pose proof (no_chain _ _ _ Hn) as Hg. pose proof (no_chain _ _ _ Hn') as Hg'.
  destruct (valid_branch n blk parent st now Hn Ha Hv Hc) as (Hnz & Hr & Hnew & bs & Hbs & Hpar & Hcw).
  pose proof (tip_work_total N _ _ Hg H0 Hw) as Hold.
  pose proof (recorded_holds (n_chain n) blk d Hnew) as Hh. rewrite <- E in Hh.
  assert (blocks (n_chain n') = blocks (n_chain n)) as Eb by (by rewrite E).
  eapply (heaviest_add (n_chain n)); [exact Hg|exact Hg'| | | |exact Hbs|exact Hpar|exact Hnz|..|exact Hv];
    rewrite ?Eb; [apply Hh; by right|intros x Hx; apply Hh; by left|intros x; apply Hh| |done|done|lia].
  rewrite E. simpl. by rewrite lookup_insert_ne.
Qed.

(** A reorganisation to a heavier branch. *)
Lemma reorg_heaviest n n' blk parent st now d rec : node_ok n → node_ok n' → admissible blk →
  consensus_valid params (n_chain n) now blk parent st →
  tip_work (n_chain n) < candidate_work (n_chain n) blk → chain_ok (recorded (n_chain n) blk d) →
  reorganised root (recorded (n_chain n) blk d) (n_chain n') blk rec →
  heaviest (n_chain n) → heaviest (n_chain n').
Proof.
  intros Hn Hn' Ha Hc Hlt Hrd Hro Hv. pose proof Hv as [(g0 & H0 & Hw) _].
  pose proof (no_chain _ _ _ Hn) as Hg. pose proof (no_chain _ _ _ Hn') as Hg'.
  destruct (valid_branch n blk parent st now Hn Ha Hv Hc) as (Hnz & Hr & Hnew & bs & Hbs & Hpar & Hcw).
  pose proof (tip_work_total N _ _ Hg H0 Hw) as Hold.
  pose proof (recorded_holds (n_chain n) blk d Hnew) as Hh.
  pose proof (reorganised_branch N _ _ _ _ _ _ _ Hg Hg' Hrd Hnew Hbs Hpar Hnz Hro) as Eb.
  assert (cumulative_work (recorded (n_chain n) blk d) !! root = cumulative_work (n_chain n) !! root) as Ew
    by (simpl; by rewrite lookup_insert_ne).
  eapply (heaviest_add (n_chain n)); [exact Hg|exact Hg'| | | |exact Hbs|exact Hpar|exact Hnz|..|exact Hv].
  - apply (ro_holds _ _ _ _ _ Hro), Hh. by right.
  - intros x Hx. apply (ro_holds _ _ _ _ _ Hro), Hh. by left.
  - intros x Hx. apply Hh. by apply (ro_holds _ _ _ _ _ Hro).
  - by rewrite (ro_work_root _ _ _ _ _ Hro).
  - rewrite Eb. rewrite lookup_app_l.
    + destruct (ancestry_first N _ _ _ Hg Hbs) as (x & -> & ->). done.
    + destruct Hbs as (_ & _ & Hl). destruct bs; [done|simpl; lia].
  - rewrite Eb. lia.
  - by rewrite Eb.
Qed.

Lemma core_outcome_heaviest n blk n' r i :
  node_ok n → node_ok n' → admissible blk → core_outcome params clock N n blk n' r i →
  heaviest (n_chain n) → heaviest (n_chain n').
Proof.
  intros Hn Hn' Ha Hout Hv.
  destruct Hout as [e E|Hz Hh Hb E|peer now Hk E|parent st0 st Hc Heq Hp E|parent st Hc Hp E Hd|parent st rec d Hc Hp Hlt Hrd Hro Hpend].
  - eapply heaviest_ext; [..|exact Hv]; by rewrite E.
  - destruct Hv as [(g0 & H0 & _) _]. by rewrite Hb in H0.
  - eapply heaviest_ext; [..|exact Hv]; by rewrite E, add_orphan_state.
  - eapply extension_heaviest; [exact Hn|exact Hn'|exact Ha|exact Hc|exact Hp|exact E|exact Hv].
  - eapply side_heaviest; [exact Hn|exact Hn'|exact Ha|exact Hc|exact E| |exact Hv].
    apply Z.nlt_ge. intros Hlt. destruct (Hd Hlt) as (d & ops & Hf). by rewrite db_apply_batch_total in Hf.
  - eapply reorg_heaviest; [exact Hn|exact Hn'|exact Ha|exact Hc|exact Hlt|exact Hrd|exact Hro|exact Hv].
Qed.

Lemma apply_block_heaviest n blk src n' r :
  node_ok n → admissible blk → heaviest (n_chain n) →
  apply_block params clock n blk src = Done (n', r) → heaviest (n_chain n').
Proof.
  intros Hn Ha Hv E.
  refine (proj2 (apply_block_keeps params clock N HN Hep (λ _, True) heaviest _ _ n blk src n' r
    Hn (orphans_in_True _) Hv Ha Logic.I E)).
  - intros g p h. by apply heaviest_ext.
  - intros ? ? ? ? ? Hm Hm' Hb _ Hout. exact (core_outcome_heaviest _ _ _ _ _ Hm Hm' Hb Hout).
Qed.

(** The work map of a node counts the genesis block, or never will. *)
Definition counted (g : ChainState) : Prop := is_Some (cumulative_work g !! root).
Lemma core_outcome_counted n blk n' r i :
  node_ok n → admissible blk → blocks (n_chain n) ≠ [] → core_outcome params clock N n blk n' r i →
  blocks (n_chain n') ≠ [] ∧ (counted (n_chain n') → counted (n_chain n)).
Proof.
  intros Hn Ha Hne Hout. pose proof (no_chain _ _ _ Hn) as Hg. unfold counted.
  assert (∀ parent st now, consensus_valid params (n_chain n) now blk parent st → block_hash blk ≠ root) as Hnr.
  { intros parent st now Hc.
    by destruct (consensus_valid_ok _ _ HN _ _ _ _ _ Hg Ha (cv_number _ _ _ _ _ _ Hc) Hc) as (_ & ? & _). }
  destruct Hout as [e E|Hz Hh Hb E|peer now Hk E|parent st0 st Hv Heq Hp E|parent st Hv Hp E Hd|parent st rec d Hv Hp Hlt Hrd Hro Hpend].
  - by rewrite E.
  - done.
  - by rewrite E, add_orphan_state.
  - rewrite E. simpl. rewrite lookup_insert_ne by eauto. split; [by intros [_ ?]%app_eq_nil|done].
  - rewrite E. simpl. by rewrite lookup_insert_ne by eauto.
  - rewrite (ro_work_root _ _ _ _ _ Hro). simpl. rewrite lookup_insert_ne by eauto. split; [|done].
    destruct (ro_chain _ _ _ _ _ Hro) as (kept & gone & seg & _ & E2 & Hk & _). rewrite E2.
    by intros [? _]%app_eq_nil.
Qed.
Lemma apply_block_counted n blk src n' r :
  node_ok n → admissible blk → blocks (n_chain n) ≠ [] → (counted (n_chain n) → heaviest (n_chain n)) →
  apply_block params clock n blk src = Done (n', r) → counted (n_chain n') → heaviest (n_chain n').
Proof.
  intros Hn Ha Hne Hv E.
  refine (proj2 (proj2 (apply_block_keeps params clock N HN Hep (λ _, True)
    (λ g, blocks g ≠ [] ∧ (counted g → heaviest g)) _ _ n blk src n' r
    Hn (orphans_in_True _) (conj Hne Hv) Ha Logic.I E))).
  - intros g p h [H1 H2]. split; [done|]. intros Hc. apply (heaviest_ext g); [done..|by apply H2].
  - intros m b m' r' i Hm Hm' Hb _ Hout [H1 H2].
    destruct (core_outcome_counted _ _ _ _ _ Hm Hb H1 Hout) as [H3 H4]. split; [done|].
    intros Hc. exact (core_outcome_heaviest _ _ _ _ _ Hm Hm' Hb Hout (H2 (H4 Hc))).
Qed.

Lemma heaviest_genesis g g0 :
  chain_ok g → blocks g = [g0] → size (side_blocks g) = 0%nat →
  cumulative_work g !! root = Some (b_difficulty g0) → heaviest g.
Proof.
  intros Hg Hb Hs%map_size_empty_iff Hw. split; rewrite Hb; [by exists g0|].
  intros bs b Ha. assert (bs = [g0]) as ->; [|done].
  destruct (tip_ancestry N g Hg) as (t & Ht & _); [by rewrite Hb|]. rewrite Hb in Ht.
  assert (holds g b) as Hh by (destruct Ha as (_ & Hf & Hl);
    eapply Forall_forall; [exact Hf|by apply last_Some_elem_of]).
  destruct Hh as [Hin|Hside]; [|by rewrite Hs in Hside]. rewrite Hb in Hin.
  apply list_elem_of_singleton in Hin as ->.
  assert (t = g0) as -> by (destruct Ht as (_ & _ & [= <-]); done).
  exact (ancestry_inj _ _ _ _ _ _ Hg Ha Ht).
Qed.

(** A node handed a sequence of blocks, each with the peer it came from. *)
Fixpoint feed (n : Node) (l : list (Block * option string)) : run Node :=
  match l with
  | [] => Done n
  | (b, src) :: l => '(n, _) ← apply_block params clock n b src; feed n l
  end.

(** C32: The canonical chain is always a heaviest branch.  Start from a
    consistent node whose canonical chain is a heaviest branch and whose work
    map counts the genesis block, over a database that never refuses a write.
    Whatever sequence of blocks with truthful heights it receives, in whatever
    order, orphans and forks included, processing them ends without panic, and
    no branch of blocks it then holds has a greater total difficulty than its
    canonical chain.  (A wrong height makes the code panic, C8; a node just
    started on an empty database does not count its genesis block.) *)
Theorem canonical_chain_is_heaviest n l :
  node_ok n → heaviest (n_chain n) → Forall (λ bs, admissible bs.1) l →
  ∃ n', feed n l = Done n' ∧ node_ok n' ∧
    ∀ bs b, ancestry (n_chain n') bs b → total_difficulty bs ≤ total_difficulty (blocks (n_chain n')).
Proof.
  intros Hn Hv Hl. assert (∃ n', feed n l = Done n' ∧ node_ok n' ∧ heaviest (n_chain n'))
    as (n' & E & Hn' & [_ H]); [|eauto].
  revert n Hn Hv. induction Hl as [|[b src] l Ha _ IH]; intros n Hn Hv; cbn [feed]; [eauto|].
  destruct (apply_block_ok params clock N HN Hep n b src Hn Ha) as (n1 & r & E & Hn1 & _).
  rewrite E. cbn [mbind run_bind]. apply IH; [done|]. exact (apply_block_heaviest n b src n1 r Hn Ha Hv E).
Qed.
End heaviest.

(** The blocks of the small chain, fed to a node on a reliable database. *)
Section steady.
#[local] Existing Instances toy_steady toy_steady_laws toy_steady_reliable.
Definition steady_node0 : Node := mkNode (empty_state (∅ : contents_map)) (mkPowCache [] ∅) empty_cache 0.
Definition steady_node1 : Node :=
  match apply_block tiny_params toy_clock steady_node0 genesis_block None with Done (n, _) => n | _ => steady_node0 end.

Lemma steady_node1_ok : node_ok tiny_params toy_N steady_node1.
Proof.
  unfold steady_node1.
  destruct (apply_block_ok tiny_params toy_clock toy_N eq_refl ltac:(done) steady_node0 genesis_block None)
    as (n' & r & -> & Hn' & _); [|by apply toy_admissible; left|done].
  apply (empty_node_ok (SL := toy_steady)); [done|apply cache_ok_empty].
Qed.
Lemma steady_node1_heaviest : heaviest (n_chain steady_node1).
Proof.
  assert (bool_decide (blocks (n_chain steady_node1) = [genesis_block]) = true) as E1 by (vm_compute; reflexivity).
  assert (Nat.eqb (size (side_blocks (n_chain steady_node1))) 0 = true) as E2 by (vm_compute; reflexivity).
  assert (bool_decide (cumulative_work (n_chain steady_node1) !! GENESIS_HASH = Some 1) = true) as E3
    by (vm_compute; reflexivity).
  apply bool_decide_eq_true in E1, E3. apply Nat.eqb_eq in E2.
  exact (heaviest_genesis toy_N _ genesis_block (no_chain _ _ _ steady_node1_ok) E1 E2 E3).
Qed.

Lemma canonical_chain_is_heaviest_witness :
  ∃ n', feed tiny_params toy_clock steady_node1 [(toy_b1, None); (toy_s2, None); (toy_s1, None)] = Done n' ∧
    ∀ bs b, ancestry GENESIS_HASH (n_chain n') bs b →
      total_difficulty bs ≤ total_difficulty (blocks (n_chain n')).
Proof.
  destruct (canonical_chain_is_heaviest tiny_params toy_clock toy_N eq_refl ltac:(discriminate) steady_node1
    [(toy_b1, None); (toy_s2, None); (toy_s1, None)] steady_node1_ok steady_node1_heaviest)
    as (n' & E & _ & H); [|exists n'; split; [exact E|exact H]].
  repeat apply Forall_cons_2; [..|apply Forall_nil_2]; apply toy_admissible.
  - right. left.
  - do 3 right. left.
  - do 2 right. left.
Defined.
End steady.
