(* ===== verification/DbIndep.v ===== *)
(** * Decisions depend on neither the database nor zero accounts

    Block acceptance writes the database but decides from memory, and from the
    accounts up to what [AccountEquiv] tells apart: with a database that
    accepts every write, runs that start from the same memory over different
    databases and equivalent accounts go through the same states, and their
    databases stay related by any relation that equal writes, and snapshots of
    equivalent accounts, preserve. *)
From S2P Require Import Prelude Crypto Constants Transaction Block StateRoot Difficulty HistoricalVpow VisionX Sled ChainState Storage Snapshots Reward Reorg Orphan Genesis Accept Zeros Accounts Heaviest.

(** What may differ between two nodes. *)
Record View {SL : Sled} := mkView { v_db : Db; v_accounts : TxExecutionState }.
Arguments mkView {SL} _ _.

(** ** The interface: databases whose difference acceptance keeps *)
Class DbSim {C : Crypto} {SL : Sled} {SC : StoreCodec} (E : relation TxExecutionState) (R : relation Db) : Prop := {
  sim_insert d d' k v : R d d' → R (db_insert d k v).1 (db_insert d' k v).1;
  sim_batch d d' ops : R d d' → R (db_apply_batch d ops).1 (db_apply_batch d' ops).1;
  sim_balances d d' h st st' : R d d' → E st st' →
    R (db_insert d (snap_balances_key h) (bincode_balances (es_balances st))).1
      (db_insert d' (snap_balances_key h) (bincode_balances (es_balances st'))).1;
  sim_nonces d d' h st st' : R d d' → E st st' →
    R (db_insert d (snap_nonces_key h) (bincode_nonces (es_nonces st))).1
      (db_insert d' (snap_nonces_key h) (bincode_nonces (es_nonces st'))).1
}.

Section independence.
Context {C : Crypto} {TC : TxCodec} {SL : Sled} {SR : SledReliable SL} {SC : StoreCodec}.
Context (params : VisionXParams) (clock : nat → Z).
Context (E : relation TxExecutionState) {AE : AccountEquiv E} (R : relation Db) {DS : DbSim E R}.

Definition on (v : View) (g : ChainState) : ChainState :=
  set_db (v_db v) (set_accounts (es_balances (v_accounts v)) (es_nonces (v_accounts v)) g).
Definition node_on (v : View) (n : Node) : Node := set_chain (on v (n_chain n)) n.
Definition view_of (g : ChainState) : View := mkView (db g) (mkExec (balances g) (nonces g)).
Definition view_rel (v v' : View) : Prop := R (v_db v) (v_db v') ∧ E (v_accounts v) (v_accounts v').

Lemma on_view_of g : on (view_of g) g = g.
Proof. by destruct g. Qed.
Lemma on_on v v' g : on v (on v' g) = on v g.
Proof. by destruct g. Qed.

(** Results on the same memory, over related views. *)
Definition sim_chain {A} (x y : ChainState * A) : Prop :=
  ∃ g a d d', x = (on d g, a) ∧ y = (on d' g, a) ∧ view_rel d d'.
Definition sim_chain_run {A} (x y : run (ChainState * A)) : Prop :=
  match x, y with
  | Done x, Done y => sim_chain x y
  | Panic, Panic | NoFuel, NoFuel => True
  | _, _ => False
  end.
Definition sim_node {A} (x y : run (Node * A)) : Prop :=
  match x, y with
  | Done x, Done y => ∃ n a d d', x = (node_on d n, a) ∧ y = (node_on d' n, a) ∧ view_rel d d'
  | Panic, Panic | NoFuel, NoFuel => True
  | _, _ => False
  end.

Lemma sim_node_done {A} n (a : A) d d' : view_rel d d' → sim_node (Done (node_on d n, a)) (Done (node_on d' n, a)).
Proof. intros H. by exists n, a, d, d'. Qed.
Lemma sim_node_bind {A B} (x y : run (Node * A)) (f : Node * A → run (Node * B)) :
  sim_node x y → (∀ n a d d', view_rel d d' → sim_node (f (node_on d n, a)) (f (node_on d' n, a))) →
  sim_node (x ≫= f) (y ≫= f).
Proof.
  intros H Hf. destruct x as [x| |], y as [y| |]; try done.
  destruct H as (n & a & d & d' & -> & -> & HR). by apply Hf.
Qed.

(** ** Reads *)
Lemma window_loop_on d g limit : ∀ current chain,
  window_loop limit (on d g) current chain = window_loop limit g current chain.
Proof.
  induction limit as [|limit IH]; intros current chain; cbn [window_loop]; [done|].
  change (resolve_block (on d g) current) with (resolve_block g current).
  destruct (resolve_block g current); [|done]. by destruct (all_zero_chars _).
Qed.
Lemma side_parent_loop_on d g fuel : ∀ p current branch,
  side_parent_loop fuel (on d g) p current branch = side_parent_loop fuel g p current branch.
Proof.
  induction fuel as [|fuel IH]; intros p current branch; cbn [side_parent_loop]; [done|].
  change (canon_index (on d g)) with (canon_index g). change (side_blocks (on d g)) with (side_blocks g).
  destruct (canon_index g !! current); [done|]. destruct (side_blocks g !! current); [apply IH|done].
Qed.
Lemma segment_loop_on d g fuel : ∀ current segment,
  segment_loop fuel (on d g) current segment = segment_loop fuel g current segment.
Proof.
  induction fuel as [|fuel IH]; intros current segment; cbn [segment_loop]; [done|].
  change (canon_index (on d g)) with (canon_index g). change (side_blocks (on d g)) with (side_blocks g).
  destruct (bool_decide _); [done|]. destruct (side_blocks g !! current); [apply IH|done].
Qed.
Lemma check_difficulty_on d g blk : check_difficulty (on d g) blk = check_difficulty g blk.
Proof. unfold check_difficulty, collect_ancestor_window. by rewrite window_loop_on. Qed.
(** Runs with related results. *)
Definition run_rel {A} (S : A → A → Prop) (x y : run A) : Prop :=
  match x, y with
  | Done x, Done y => S x y
  | Panic, Panic | NoFuel, NoFuel => True
  | _, _ => False
  end.
Lemma result_rel_refl {F} (x : result F TxExecutionState) : result_rel E x x.
Proof. destruct x; cbn [result_rel]; [reflexivity|done]. Qed.
Lemma parent_state_on d d' g p t : view_rel d d' →
  run_rel (result_rel E) (parent_state (on d g) p t) (parent_state (on d' g) p t).
Proof.
  intros [_ HE]. unfold parent_state. destruct (bool_decide _).
  { destruct d as [? []], d' as [? []]. exact HE. }
  unfold reconstruct_parent_state_for_side_chain.
  change (ancestry_fuel (on d g)) with (ancestry_fuel g). change (ancestry_fuel (on d' g)) with (ancestry_fuel g).
  rewrite !side_parent_loop_on. cbn [on set_db set_accounts canon_index].
  destruct (canon_index g !! p) as [h|]; [apply result_rel_refl|].
  destruct (side_parent_loop _ _ _ _ _) as [x| |]; [apply result_rel_refl|done..].
Qed.
Lemma add_orphan_on d g b p now : add_orphan (on d g) b p now = on d (add_orphan g b p now).
Proof.
  unfold add_orphan. assert (prune_old_orphans (on d g) = on d (prune_old_orphans g)) as ->; [|done].
  unfold prune_old_orphans. change (orphan_pool (on d g)) with (orphan_pool g).
  destruct (_ <? _); [done|]. destruct (find_oldest _) as [[[k pos] ts]|]; [|done].
  destruct (orphan_pool g !! k) as [es|]; [|done]. destruct (es !! pos) as [[[e ?] ?]|]; [|done].
  by destruct (delete pos es).
Qed.

(** ** Writes *)
(** Writes whose results are related. *)
Lemma db_put_sim d d' g k v v' : view_rel d d' →
  R (db_insert (v_db d) k v).1 (db_insert (v_db d') k v').1 →
  sim_chain (db_put k v (on d g)) (db_put k v' (on d' g)).
Proof.
  intros [_ HE] HR. unfold db_put. cbn [on set_db db].
  pose proof (db_insert_total (v_db d) k v) as H1. pose proof (db_insert_total (v_db d') k v') as H2.
  destruct (db_insert (v_db d) k v) as [d1 ok1], (db_insert (v_db d') k v') as [d2 ok2]. simpl in *. subst.
  by exists g, (Ok ()), (mkView d1 (v_accounts d)), (mkView d2 (v_accounts d')).
Qed.
Lemma db_put_on d d' g k v : view_rel d d' → sim_chain (db_put k v (on d g)) (db_put k v (on d' g)).
Proof. intros H. apply db_put_sim; [done|]. apply sim_insert, H. Qed.
Lemma db_batch_on d d' g ops : view_rel d d' → sim_chain (db_batch ops (on d g)) (db_batch ops (on d' g)).
Proof.
  intros [HR HE]. unfold db_batch. cbn [on set_db db]. apply (sim_batch _ _ ops) in HR.
  pose proof (db_apply_batch_total (v_db d) ops) as H1. pose proof (db_apply_batch_total (v_db d') ops) as H2.
  destruct (db_apply_batch (v_db d) ops) as [d1 ok1], (db_apply_batch (v_db d') ops) as [d2 ok2]. simpl in *. subst.
  by exists g, (Ok ()), (mkView d1 (v_accounts d)), (mkView d2 (v_accounts d')).
Qed.
Lemma sim_chain_bind {F A B} (m m' : stm ChainState F A) (f f' : A → stm ChainState F B) g1 g2 :
  sim_chain (m g1) (m' g2) → (∀ a g d d', view_rel d d' → sim_chain (f a (on d g)) (f' a (on d' g))) →
  sim_chain ((m ≫= f) g1) ((m' ≫= f') g2).
Proof.
  intros (g & r & d & d' & E1 & E2 & HR) Hf. unfold mbind, stm_bind. rewrite E1, E2.
  destruct r as [a|e]; [by apply Hf|]. by exists g, (Err e), d, d'.
Qed.
Lemma storage_op_on {A} (m m' : stm ChainState StorageError A) g1 g2 :
  sim_chain (m g1) (m' g2) → sim_chain (storage_op m g1) (storage_op m' g2).
Proof.
  intros (g & r & d & d' & E1 & E2 & HR). unfold storage_op. rewrite E1, E2.
  by exists g, (map_err SnapStorage r), d, d'.
Qed.
Lemma maybe_save_snapshot_on d d' g : view_rel d d' →
  sim_chain (maybe_save_snapshot (on d g)) (maybe_save_snapshot (on d' g)).
Proof.
  intros HR. unfold maybe_save_snapshot. rewrite !stm_get_bind.
  change (current_height (on d g)) with (current_height g).
  change (current_height (on d' g)) with (current_height g).
  destruct (_ || _); [by exists g, (Ok ()), d, d'|]. unfold save_snapshot. rewrite !stm_get_bind, !stm_lift_bind.
  cbn [on set_db set_accounts balances nonces]. pose proof (proj2 HR) as HE. rewrite (account_root _ _ HE).
  destruct (compute_state_root _ _) as [root|e]; cbn [map_err];
    [|by exists g, (Err (SnapRootFailed (current_height g) e)), d, d'].
  change (tip_hash (on d g)) with (tip_hash g). change (tip_hash (on d' g)) with (tip_hash g).
  change (set_db (v_db ?v) (set_accounts (es_balances (v_accounts ?v)) (es_nonces (v_accounts ?v)) g)) with (on v g).
  generalize (current_height g) (tip_hash g). intros h t.
  apply sim_chain_bind; [apply storage_op_on, db_put_sim, sim_balances; [done|apply HR|done]|].
  clear HR g. intros [] g e e' HR.
  revert HE. generalize (v_accounts d) (v_accounts d'). intros st st' HE. clear d d'.
  apply sim_chain_bind; [apply storage_op_on, db_put_sim, sim_nonces; [done|apply HR|done]|].
  clear HR g e e'. intros [] g d d' HR.
  apply sim_chain_bind; [by apply storage_op_on, db_put_on|]. clear HR g d d'. intros [] g d d' HR.
  by apply storage_op_on, db_put_on.
Qed.

(** ** The pipeline *)
Lemma apply_genesis_on d d' g blk : view_rel d d' →
  sim_chain (apply_genesis (on d g) blk) (apply_genesis (on d' g) blk).
Proof.
  intros HR. unfold apply_genesis. change (blocks (on d g)) with (blocks g).
  change (blocks (on d' g)) with (blocks g).
  destruct (negb (bool_decide (block_hash blk = GENESIS_HASH))); [by eexists g, _, d, d'|].
  destruct (negb _); [by eexists g, _, d, d'|].
  destruct (db_batch_on d d' g [ BInsert (block_key (block_hash blk)) (bincode_block blk);
             BInsert (height_key (b_number blk)) (string_bytes (block_hash blk));
             BInsert tip_height_key (string_bytes (u64_to_string (b_number blk)));
             BInsert tip_hash_key (string_bytes (block_hash blk)) ] HR) as (g1 & r & d1 & d1' & E1 & E2 & HR1).
  unfold persist_canonical_extension. rewrite E1, E2.
  destruct r; [by exists (push_canonical g1 blk (b_difficulty blk)), (CanonExtension 0), d1, d1'|by eexists g1, _, d1, d1'].
Qed.

Lemma lane_a_on d d' g blk st st' cw : view_rel d d' → E st st' →
  ∃ g1 r i d1 d1', lane_a (on d g) blk st cw = (on d1 g1, r, i) ∧
    lane_a (on d' g) blk st' cw = (on d1' g1, r, i) ∧ view_rel d1 d1'.
Proof.
  intros HR HE. unfold lane_a.
  destruct (db_batch_on d d' g [ BInsert (block_key (block_hash blk)) (bincode_block blk);
             BInsert (height_key (b_number blk)) (string_bytes (block_hash blk));
             BInsert tip_height_key (string_bytes (u64_to_string (b_number blk)));
             BInsert tip_hash_key (string_bytes (block_hash blk)) ] HR) as (g1 & r & d1 & d1' & E1 & E2 & HR1).
  unfold persist_canonical_extension. rewrite E1, E2. destruct r; [|by eexists g1, _, _, d1, d1'].
  destruct (maybe_save_snapshot_on (mkView (v_db d1) st) (mkView (v_db d1') st') (push_canonical g1 blk cw))
    as (g2 & r2 & d2 & d2' & E3 & E4 & HR2); [split; [apply HR1|done]|].
  change (push_canonical (set_accounts (es_balances st) (es_nonces st) (on d1 g1)) blk cw)
    with (on (mkView (v_db d1) st) (push_canonical g1 blk cw)).
  change (push_canonical (set_accounts (es_balances st') (es_nonces st') (on d1' g1)) blk cw)
    with (on (mkView (v_db d1') st') (push_canonical g1 blk cw)).
  rewrite E3, E4. by eexists g2, _, _, d2, d2'.
Qed.

Lemma try_reorg_on d d' g tip : view_rel d d' →
  sim_chain_run (try_reorg (on d g) tip) (try_reorg (on d' g) tip).
Proof.
  intros HR. unfold try_reorg, collect_new_segment.
  change (ancestry_fuel (on d g)) with (ancestry_fuel g). change (ancestry_fuel (on d' g)) with (ancestry_fuel g).
  rewrite !segment_loop_on. destruct (segment_loop _ g _ _) as [seg| |]; [|done..]. cbn [mbind run_bind].
  assert (sim_chain (on d g, None : option ReorgRecovery) (on d' g, None)) as Hno by (by exists g, None, d, d').
  destruct seg as [|first rest]; [done|]. cbn [on set_db set_accounts canon_index].
  destruct (canon_index g !! b_parent first) as [k|]; [|done].
  change (validate_branch (on d g)) with (validate_branch g).
  change (validate_branch (on d' g)) with (validate_branch g).
  destruct (validate_branch g _ _ _ _) as [[st root]|]; [|done]. cbn [on set_db set_accounts blocks].
  destruct (slice_to_inclusive (blocks g) k) as [nb| |]; [|done..]. cbn [mbind run_bind].
  change (swap_maps (on d g)) with (swap_maps g). change (swap_maps (on d' g)) with (swap_maps g).
  change (current_height (on d g)) with (current_height g).
  change (current_height (on d' g)) with (current_height g).
  set (s := swap_maps g _ _ _ _). unfold persist_canonical_reorg. rewrite !stm_lift_bind.
  destruct (last (sw_blocks s)) as [t|]; cbn [ok_or]; [|done].
  destruct (db_batch_on d d' g (reorg_ops (sw_blocks s) t (current_height g)) HR) as (g1 & r & d1 & d1' & E1 & E2 & HR1).
  rewrite E1, E2. destruct r; [|by exists g1, None, d1, d1'].
  eexists (install s st (b_number tip, root) g1), _, (mkView (v_db d1) st), (mkView (v_db d1') st).
  split; [done|]. split; [done|]. split; [apply HR1|reflexivity].
Qed.

Lemma lane_b_on d d' g blk cw tw : view_rel d d' →
  sim_chain_run (A := AcceptResult * bool)
    ('(g, r, i) ← lane_b (on d g) blk cw tw; Done (g, (r, i)))
    ('(g, r, i) ← lane_b (on d' g) blk cw tw; Done (g, (r, i))).
Proof.
  intros HR. unfold lane_b, store_block.
  destruct (db_put_on d d' g (block_key (block_hash blk)) (bincode_block blk) HR) as (g1 & r & d1 & d1' & E1 & E2 & HR1).
  rewrite E1, E2. destruct r; [|by eexists g1, _, d1, d1'].
  set (g2 := set_side_blocks (<[block_hash blk := blk]> (side_blocks g1)) (set_seen_blocks ({[ block_hash blk ]} ∪ seen_blocks g1)
    (set_work (<[block_hash blk := cw]> (cumulative_work g1)) g1))).
  destruct (tw <? cw).
  2: { cbn [mbind run_bind]. by eexists g2, _, d1, d1'. }
  pose proof (try_reorg_on d1 d1' g2 blk HR1) as Ht. cbv zeta.
  change (try_reorg (on d1 g2) blk) with (try_reorg (set_side_blocks (<[block_hash blk := blk]> (side_blocks (on d1 g1)))
    (set_seen_blocks ({[ block_hash blk ]} ∪ seen_blocks (on d1 g1))
    (set_work (<[block_hash blk := cw]> (cumulative_work (on d1 g1))) (on d1 g1)))) blk) in Ht.
  change (try_reorg (on d1' g2) blk) with (try_reorg (set_side_blocks (<[block_hash blk := blk]> (side_blocks (on d1' g1)))
    (set_seen_blocks ({[ block_hash blk ]} ∪ seen_blocks (on d1' g1))
    (set_work (<[block_hash blk := cw]> (cumulative_work (on d1' g1))) (on d1' g1)))) blk) in Ht.
  destruct (try_reorg _ blk) as [x| |], (try_reorg _ blk) as [y| |]; try done.
  destruct Ht as (g3 & rec & d3 & d3' & -> & -> & HR3). cbn [mbind run_bind].
  destruct rec as [rec|]; cbn [mbind run_bind].
  - by eexists (set_pending (Some rec) g3), _, d3, d3'.
  - by eexists g3, _, d3, d3'.
Qed.

(** The result and the flag of a stage, next to its node. *)
Definition staged (x : run (Node * AcceptResult * bool)) : run (Node * (AcceptResult * bool)) :=
  '(n, r, i) ← x; Done (n, (r, i)).

Lemma apply_with_parent_on d d' n blk p tw cw : view_rel d d' →
  sim_node (staged (apply_with_parent params clock (node_on d n) blk p tw cw))
    (staged (apply_with_parent params clock (node_on d' n) blk p tw cw)).
Proof.
  intros HR. unfold apply_with_parent.
  change (n_chain (node_on d n)) with (on d (n_chain n)).
  change (n_chain (node_on d' n)) with (on d' (n_chain n)).
  destruct (check_monotonic blk p) as [[]|e]; [|by apply sim_node_done].
  cbn [read_clock node_on set_chain n_pow n_datasets n_ticks n_chain].
  rewrite !check_difficulty_on.
  destruct (check_future blk _ ≫= _) as [[]|e].
  2: { by apply (sim_node_done (mkNode (n_chain n) (n_pow n) (n_datasets n) (S (n_ticks n)))). }
  destruct (verify_visionx_pow params (n_datasets n) blk) as [[c pow]| |]; [|done..]. cbn [mbind run_bind].
  set (n1 := mkNode (n_chain n) (n_pow n) c (S (n_ticks n))).
  assert (∀ e, sim_node (staged (Done (mkNode (on d (n_chain n)) (n_pow n) c (S (n_ticks n)), Rejected e, false)))
    (staged (Done (mkNode (on d' (n_chain n)) (n_pow n) c (S (n_ticks n)), Rejected e, false)))) as Hrej
    by (intros e; by apply (sim_node_done n1)).
  destruct pow as [[]|e]; [|apply Hrej].
  destruct (check_coinbase_height blk) as [cbh| |]; [|done..]. cbn [mbind run_bind].
  match goal with |- context [match ?x with Ok _ => _ | Err _ => _ end] => destruct x as [[]|e]; [|apply Hrej] end.
  pose proof (parent_state_on d d' (n_chain n) (b_parent blk) (tip_hash (n_chain n)) HR) as Hps.
  change (tip_hash (on d (n_chain n))) with (tip_hash (n_chain n)).
  change (tip_hash (on d' (n_chain n))) with (tip_hash (n_chain n)).
  destruct (parent_state (on d _) _ _) as [ps| |], (parent_state (on d' _) _ _) as [ps'| |]; try done.
  cbn [mbind run_bind run_rel] in Hps |- *.
  assert (result_rel E (map_err ParentStateFailed ps ≫= λ st, execute_block st blk)
    (map_err ParentStateFailed ps' ≫= λ st, execute_block st blk)) as Hst.
  { eapply result_rel_bind; [by apply result_rel_map_err|]. intros. by apply account_execute. }
  destruct (map_err ParentStateFailed ps ≫= _) as [st|e], (map_err ParentStateFailed ps' ≫= _) as [st'|e'];
    cbn [result_rel] in Hst; [|done..|rewrite Hst; apply Hrej].
  case_bool_decide.
  - destruct (lane_a_on d d' (n_chain n) blk st st' cw HR Hst) as (g1 & r & i & d1 & d1' & -> & -> & HR1).
    cbn [mbind run_bind staged]. by apply (sim_node_done (set_chain g1 n1)).
  - pose proof (lane_b_on d d' (n_chain n) blk cw tw HR) as Hb.
    destruct (lane_b _ blk cw tw) as [[[g1 r1] i1]| |], (lane_b _ blk cw tw) as [[[g2 r2] i2]| |]; try done.
    destruct Hb as (g & [r i] & d1 & d1' & E1 & E2 & HR1). injection E1 as -> -> ->. injection E2 as -> -> ->.
    cbn [mbind run_bind staged]. by apply (sim_node_done (set_chain g n1)).
Qed.

Lemma apply_core_on d d' n blk src : view_rel d d' →
  sim_node (staged (apply_core params clock (node_on d n) blk src))
    (staged (apply_core params clock (node_on d' n) blk src)).
Proof.
  intros HR. unfold apply_core. cbn [node_on set_chain n_chain n_pow n_datasets n_ticks].
  set (n1 := mkNode (n_chain n) (clear_pow_prevalidation (n_pow n) (block_hash blk)) (n_datasets n) (n_ticks n)).
  change (check_structure (on d (n_chain n)) blk) with (check_structure (n_chain n) blk).
  change (check_structure (on d' (n_chain n)) blk) with (check_structure (n_chain n) blk).
  destruct (check_structure (n_chain n) blk) as [[]|e]; [|by apply (sim_node_done n1)].
  destruct (b_number blk =? 0).
  { destruct (apply_genesis_on d d' (n_chain n) blk HR) as (g1 & r & d1 & d1' & -> & -> & HR1).
    by apply (sim_node_done (set_chain g1 n1)). }
  cbn [on set_db set_accounts canon_index side_blocks cumulative_work].
  destruct (_ && _).
  { cbn [read_clock n_chain n_pow n_datasets n_ticks set_chain].
    rewrite !add_orphan_on.
    by apply (sim_node_done (mkNode (add_orphan (n_chain n) blk (default "anon" src) (clock (n_ticks n)))
      (clear_pow_prevalidation (n_pow n) (block_hash blk)) (n_datasets n) (S (n_ticks n)))). }
  change (resolve_block (on d (n_chain n))) with (resolve_block (n_chain n)).
  change (resolve_block (on d' (n_chain n))) with (resolve_block (n_chain n)).
  destruct (resolve_block _ _) as [p|]; [|done]. by apply (apply_with_parent_on d d' n1).
Qed.

Lemma apply_fuel_on f : ∀ d d' n blk src, view_rel d d' →
  sim_node (apply_fuel params clock f (node_on d n) blk src) (apply_fuel params clock f (node_on d' n) blk src).
Proof.
  induction f as [|f IH]; intros d d' n blk src HR; [done|]. cbn [apply_fuel].
  assert (∀ waiting d d' n k, view_rel d d' →
    sim_node (promote_waiting (apply_fuel params clock f) (node_on d n) k waiting)
      (promote_waiting (apply_fuel params clock f) (node_on d' n) k waiting)) as Hw.
  { intros waiting. induction waiting as [|[[b ts] peer] waiting IHw]; intros e e' m k HR1; cbn [promote_waiting];
      [by apply sim_node_done|].
    eapply sim_node_bind.
    - pose proof (IH e e' (set_chain (set_orphans (orphan_pool (n_chain m)) (delete (block_hash b) (orphan_by_hash (n_chain m)))
        (n_chain m)) m) b (Some peer) HR1) as H. by destruct m as [[] ? ? ?].
    - intros n1 r e1 e1' HR2. by apply IHw. }
  pose proof (apply_core_on d d' n blk src HR) as Hc. unfold staged in Hc.
  destruct (apply_core params clock (node_on d n) blk src) as [[[n1 r1] i1]| |],
    (apply_core params clock (node_on d' n) blk src) as [[[n2 r2] i2]| |]; try done.
  destruct Hc as (m & [r i] & d1 & d1' & E1 & E2 & HR1). injection E1 as -> -> ->. injection E2 as -> -> ->.
  cbn [mbind run_bind]. destruct i; [|by apply sim_node_done].
  eapply sim_node_bind.
  - unfold process_orphans. cbn [node_on set_chain n_chain on set_db set_accounts orphan_pool].
    destruct (orphan_pool (n_chain m) !! block_hash blk) as [w|]; [|by apply sim_node_done].
    pose proof (Hw w d1 d1' (set_chain (set_orphans (delete (block_hash blk) (orphan_pool (n_chain m)))
      (orphan_by_hash (n_chain m)) (n_chain m)) m) 0 HR1) as H. by destruct m as [[] ? ? ?].
  - intros n1 k e e' HR2. by apply sim_node_done.
Qed.

(** Over related databases [apply_block] decides the same. *)
Lemma apply_block_on d d' n blk src : view_rel d d' →
  sim_node (apply_block params clock (node_on d n) blk src) (apply_block params clock (node_on d' n) blk src).
Proof. apply apply_fuel_on. Qed.
End independence.
