(* ===== verification/Net.v ===== *)
(** * Network addresses

    What the program uses of the standard library's [std::net]: the textual
    form of IP and socket addresses (parsing with [FromStr], printing with
    [Display]), the address classes of [Ipv4Addr] and [Ipv6Addr], and
    [str::trim], [to_ascii_lowercase] and [eq_ignore_ascii_case]. *)
From S2P Require Import Prelude.

(** ** Strings *)
Definition ascii_lower (c : ascii) : ascii :=
  if (65 <=? ascii_Z c) && (ascii_Z c <=? 90) then Ascii.ascii_of_N (Z.to_N (ascii_Z c + 32)) else c.
Fixpoint to_ascii_lowercase (s : string) : string :=
  match s with
  | EmptyString => EmptyString
  | String c s => String (ascii_lower c) (to_ascii_lowercase s)
  end.
Definition eq_ignore_ascii_case (a b : string) : bool :=
  bool_decide (to_ascii_lowercase a = to_ascii_lowercase b).

(** The UTF-8 encodings of the characters with property White_Space. *)
Definition white_space : list (list Z) :=
  [[9]; [10]; [11]; [12]; [13]; [32]; [194; 133]; [194; 160]; [225; 154; 128];
   [226; 128; 168]; [226; 128; 169]; [226; 128; 175]; [226; 129; 159]; [227; 128; 128]] ++
  map (λ i, [226; 128; 128 + Z.of_nat i]) (seq 0 11).
Fixpoint strip_prefix (p l : list Z) : option (list Z) :=
  match p, l with
  | [], _ => Some l
  | a :: p, b :: l => if a =? b then strip_prefix p l else None
  | _ :: _, [] => None
  end.
Definition strip_one (tokens : list (list Z)) (l : list Z) : option (list Z) :=
  head (omap (λ t, strip_prefix t l) tokens).
Fixpoint strip_all (fuel : nat) (tokens : list (list Z)) (l : list Z) : list Z :=
  match fuel with
  | O => l
  | S fuel => match strip_one tokens l with Some l => strip_all fuel tokens l | None => l end
  end.
Definition codes (s : string) : list Z := map ascii_Z (String.list_ascii_of_string s).
Definition uncodes (l : list Z) : string :=
  String.string_of_list_ascii (map (λ z, Ascii.ascii_of_N (Z.to_N z)) l).
(** [str::trim]. *)
Definition trim (s : string) : string :=
  let l := strip_all (String.length s) white_space (codes s) in
  uncodes (rev (strip_all (length l) (map (@rev Z) white_space) (rev l))).

(** ** Addresses *)
Inductive IpAddr :=
| V4 (octets : list Z)
| V6 (segments : list Z).
Record SocketAddr := mkSocket { sa_ip : IpAddr; sa_port : Z; sa_scope_id : Z }.
#[export] Instance IpAddr_eq_dec : EqDecision IpAddr.
Proof. solve_decision. Defined.
#[export] Instance SocketAddr_eq_dec : EqDecision SocketAddr.
Proof. solve_decision. Defined.

(** ** Parsing: [core::net::parser], on character codes *)
Definition parser (A : Type) : Type := list Z → option (A * list Z).
Definition parser_bind {A B} (p : parser A) (f : A → parser B) : parser B :=
  λ s, match p s with Some (a, s) => f a s | None => None end.
Definition read_given (c : Z) : parser () :=
  λ s, match s with d :: s => if c =? d then Some ((), s) else None | [] => None end.
Definition digit (radix c : Z) : option Z :=
  let d := if (48 <=? c) && (c <=? 57) then c - 48
           else if (97 <=? c) && (c <=? 122) then c - 87
           else if (65 <=? c) && (c <=? 90) then c - 55 else radix in
  if d <? radix then Some d else None.

(** The digits of a number, their value and count; no more than [max_digits]
    of them, and a value of at most [max]. *)
Fixpoint read_digits (radix max : Z) (max_digits : option nat) (acc : Z) (count : nat) (s : list Z)
    : option (Z * nat * list Z) :=
  match s with
  | c :: s' =>
      match digit radix c with
      | Some d =>
          let acc := acc * radix + d in
          if max <? acc then None
          else match max_digits with
               | Some m => if (m <? S count)%nat then None
                           else read_digits radix max max_digits acc (S count) s'
               | None => read_digits radix max max_digits acc (S count) s'
               end
      | None => Some (acc, count, s)
      end
  | [] => Some (acc, count, [])
  end.
Definition read_number (radix max : Z) (max_digits : option nat) (allow_zero_prefix : bool)
    : parser Z :=
  λ s, match read_digits radix max max_digits 0 0 s with
       | Some (z, count, rest) =>
           if (count =? 0)%nat then None
           else if negb allow_zero_prefix && bool_decide (head s = Some 48) && (1 <? count)%nat
           then None else Some (z, rest)
       | None => None
       end.
(** A separator before every group but the first. *)
Definition read_separator {A} (sep : Z) (i : nat) (p : parser A) : parser A :=
  if (i =? 0)%nat then p else parser_bind (read_given sep) (λ _, p).

Fixpoint read_octets (n i : nat) : parser (list Z) :=
  match n with
  | O => λ s, Some ([], s)
  | S n => parser_bind (read_separator 46 i (read_number 10 255 (Some 3%nat) false))
             (λ o, parser_bind (read_octets n (S i)) (λ os s, Some (o :: os, s)))
  end.
Definition read_ipv4 : parser (list Z) := read_octets 4 0.
(** Up to [limit] groups from position [i]; whether an IPv4 tail ended them. *)
Fixpoint read_groups (limit i : nat) (s : list Z) : list Z * bool * list Z :=
  match limit with
  | O => ([], false, s)
  | S limit =>
      let v4 := if (0 <? limit)%nat then read_separator 58 i read_ipv4 s else None in
      match v4 with
      | Some (o, s) =>
          ([nth 0 o 0 * 256 + nth 1 o 0; nth 2 o 0 * 256 + nth 3 o 0], true, s)
      | None =>
          match read_separator 58 i (read_number 16 65535 (Some 4%nat) true) s with
          | Some (g, s) => let '(gs, v4, s) := read_groups limit (S i) s in (g :: gs, v4, s)
          | None => ([], false, s)
          end
      end
  end.
Definition read_ipv6 : parser (list Z) :=
  λ s,
    let '(front, front_v4, s) := read_groups 8 0 s in
    if (length front =? 8)%nat then Some (front, s)
    else if (front_v4 : bool) then None
    else match parser_bind (read_given 58) (λ _, read_given 58) s with
         | Some (_, s) =>
             let '(back, _, s) := read_groups (8 - (length front + 1)) 0 s in
             Some (front ++ repeat 0 (8 - length front - length back) ++ back, s)
         | None => None
         end.
Definition read_ip : parser IpAddr :=
  λ s, match read_ipv4 s with
       | Some (o, s) => Some (V4 o, s)
       | None => match read_ipv6 s with Some (g, s) => Some (V6 g, s) | None => None end
       end.
Definition read_port : parser Z :=
  parser_bind (read_given 58) (λ _, read_number 10 65535 None true).
Definition read_scope : parser Z :=
  λ s, match parser_bind (read_given 37) (λ _, read_number 10 (2 ^ 32 - 1) None true) s with
       | Some r => Some r
       | None => Some (0, s)
       end.
Definition read_socket_v4 : parser SocketAddr :=
  parser_bind read_ipv4 (λ o, parser_bind read_port (λ p s, Some (mkSocket (V4 o) p 0, s))).
Definition read_socket_v6 : parser SocketAddr :=
  parser_bind (read_given 91) (λ _, parser_bind read_ipv6 (λ g, parser_bind read_scope (λ z,
    parser_bind (read_given 93) (λ _, parser_bind read_port (λ p s, Some (mkSocket (V6 g) p z, s)))))).
(** The whole string must be read. *)
Definition parse_with {A} (p : parser A) (s : string) : option A :=
  match p (codes s) with Some (a, []) => Some a | _ => None end.
Definition parse_ip : string → option IpAddr := parse_with read_ip.
Definition parse_socket : string → option SocketAddr :=
  parse_with (λ s, match read_socket_v4 s with Some r => Some r | None => read_socket_v6 s end).

(** ** Printing *)
Definition hex_char (z : Z) : ascii := Ascii.ascii_of_N (Z.to_N (if z <? 10 then 48 + z else 87 + z)).
Fixpoint lower_hex (fuel : nat) (z : Z) (acc : string) : string :=
  match fuel with
  | O => acc
  | S fuel =>
      let acc := String (hex_char (z mod 16)) acc in
      if z / 16 =? 0 then acc else lower_hex fuel (z / 16) acc
  end.
Definition show_groups (gs : list Z) : string :=
  String.concat ":" (map (λ g, lower_hex 4 g "") gs).
(** The first of the longest runs of zero groups: its start and length. *)
Fixpoint zero_run (i : nat) (cur best : nat * nat) (gs : list Z) : nat * nat :=
  match gs with
  | [] => best
  | g :: gs =>
      if g =? 0 then
        let cur := (if (cur.2 =? 0)%nat then i else cur.1, S cur.2) in
        zero_run (S i) cur (if (best.2 <? cur.2)%nat then cur else best) gs
      else zero_run (S i) (0%nat, 0%nat) best gs
  end.
Definition show_ipv4 (o : list Z) : string := String.concat "." (map u64_to_string o).
Definition show_ip (ip : IpAddr) : string :=
  match ip with
  | V4 o => show_ipv4 o
  | V6 gs =>
      if bool_decide (take 6 gs = [0; 0; 0; 0; 0; 65535]) then
        (let a := nth 6 gs 0 in let b := nth 7 gs 0 in
         "::ffff:" ++ show_ipv4 [a / 256; a mod 256; b / 256; b mod 256])%string
      else
        let '(start, len) := zero_run 0 (0%nat, 0%nat) (0%nat, 0%nat) gs in
        if (1 <? len)%nat then
          (show_groups (take start gs) ++ "::" ++ show_groups (drop (start + len) gs))%string
        else show_groups gs
  end.
Definition show_socket (a : SocketAddr) : string :=
  match sa_ip a with
  | V4 o => (show_ipv4 o ++ ":" ++ u64_to_string (sa_port a))%string
  | V6 gs =>
      if sa_scope_id a =? 0
      then ("[" ++ show_ip (V6 gs) ++ "]:" ++ u64_to_string (sa_port a))%string
      else ("[" ++ show_ip (V6 gs) ++ "%" ++ u64_to_string (sa_scope_id a) ++ "]:"
            ++ u64_to_string (sa_port a))%string
  end.

(** ** Address classes *)
Definition is_loopback (ip : IpAddr) : bool :=
  match ip with
  | V4 o => nth 0 o 0 =? 127
  | V6 gs => bool_decide (gs = [0; 0; 0; 0; 0; 0; 0; 1])
  end.
Definition is_unspecified (ip : IpAddr) : bool :=
  match ip with
  | V4 o => bool_decide (o = [0; 0; 0; 0])
  | V6 gs => bool_decide (gs = [0; 0; 0; 0; 0; 0; 0; 0])
  end.
(** [Ipv4Addr::is_private] and [is_link_local]. *)
Definition v4_is_private (o : list Z) : bool :=
  (nth 0 o 0 =? 10) ||
  ((nth 0 o 0 =? 172) && (16 <=? nth 1 o 0) && (nth 1 o 0 <=? 31)) ||
  ((nth 0 o 0 =? 192) && (nth 1 o 0 =? 168)).
Definition v4_is_link_local (o : list Z) : bool := (nth 0 o 0 =? 169) && (nth 1 o 0 =? 254).

(** ** Examples *)
Example parse_v4 : parse_socket "127.0.0.1:7072" = Some (mkSocket (V4 [127; 0; 0; 1]) 7072 0).
Proof. reflexivity. Qed.
Example parse_v6 : parse_socket "[fe80::1%3]:80" = Some (mkSocket (V6 [65152; 0; 0; 0; 0; 0; 0; 1]) 80 3).
Proof. reflexivity. Qed.
Example parse_v6_mapped : parse_ip "::ffff:192.0.2.1" = Some (V6 [0; 0; 0; 0; 0; 65535; 49152; 513]).
Proof. reflexivity. Qed.
Example parse_leading_zero : parse_ip "127.0.0.01" = None.
Proof. reflexivity. Qed.
Example show_v6 : show_socket (mkSocket (V6 [65152; 0; 0; 1; 0; 0; 0; 1]) 80 3) = "[fe80:0:0:1::1%3]:80".
Proof. reflexivity. Qed.
Example show_any : show_ip (V6 [0; 0; 0; 0; 0; 0; 0; 0]) = "::".
Proof. reflexivity. Qed.
Example trim_ex : trim " a b
 " = "a b".
Proof. reflexivity. Qed.

(** ** Printed IPv4 socket addresses are read back *)

Lemma codes_app a b : codes (a +:+ b) = codes a ++ codes b.
Proof.
  induction a as [|c a IH]; [done|].
  change (ascii_Z c :: codes (a +:+ b) = ascii_Z c :: codes a ++ codes b). by rewrite IH.
Qed.
(** The digits [str::parse] accepts are those the address parser reads. *)
Lemma read_digits_dec max s : ∀ acc z count, 0 ≤ acc → dec_digits acc s = Some z → z ≤ max →
  read_digits 10 max None acc count (codes s) = Some (z, (count + String.length s)%nat, []).
Proof.
  induction s as [|c s IH]; intros acc z count Ha E Hm; cbn [dec_digits] in E.
  { simplify_eq. cbn. do 3 f_equal. lia. }
  change (codes (String c s)) with (ascii_Z c :: codes s). cbn [read_digits].
  destruct (_ && _) eqn:Ec; [|done]. unfold digit. rewrite Ec.
  apply andb_true_iff in Ec as [Hl%Z.leb_le Hh%Z.leb_le].
  rewrite (proj2 (Z.ltb_lt _ _)) by lia. assert (acc * 10 + (ascii_Z c - 48) ≤ z) as Hz by (eapply dec_digits_mono; [|exact E]; lia).
  rewrite (proj2 (Z.ltb_ge _ _)) by lia. rewrite (IH _ z); [|lia|done|done].
  cbn [String.length]. do 3 f_equal. lia.
Qed.
Lemma read_port_number p : 0 ≤ p ≤ U16_MAX → read_port (58 :: codes (u64_to_string p)) = Some (p, []).
Proof.
  intros Hp. unfold read_port, parser_bind, read_given. cbn [Z.eqb Pos.eqb].
  unfold read_number. rewrite (read_digits_dec 65535 (u64_to_string p) 0 p 0); [|lia|apply dec_digits_to_string; lia|].
  2: { unfold U16_MAX in Hp. lia. }
  destruct (pretty_N_head (Z.to_N p)) as (d & s & _ & E). unfold u64_to_string. rewrite E.
  destruct (String.length _) eqn:El; [discriminate El|done].
Qed.

(** One octet, before a separator. *)
Lemma read_octet o sep rest : 0 ≤ o ≤ 255 → sep = 46 ∨ sep = 58 →
  read_number 10 255 (Some 3%nat) false (codes (u64_to_string o) ++ sep :: rest) = Some (o, sep :: rest).
Proof.
  intros Ho Hs.
  assert (∀ n : nat, (n < 256)%nat → read_number 10 255 (Some 3%nat) false (codes (u64_to_string (Z.of_nat n)) ++ sep :: rest)
    = Some (Z.of_nat n, sep :: rest)) as H.
  { intros n Hn. destruct Hs as [->| ->]; do 256 (destruct n as [|n]; [reflexivity|]); lia. }
  specialize (H (Z.to_nat o) ltac:(lia)). by rewrite Z2Nat.id in H by lia.
Qed.
Lemma parse_show_v4 a b c d p :
  Forall (λ o, 0 ≤ o ≤ 255) [a; b; c; d] → 0 ≤ p ≤ U16_MAX →
  parse_socket (show_socket (mkSocket (V4 [a; b; c; d]) p 0)) = Some (mkSocket (V4 [a; b; c; d]) p 0).
Proof.
  intros Ho Hp. repeat (apply Forall_cons in Ho as [? Ho]).
  unfold parse_socket, parse_with, show_socket. cbn [sa_ip sa_port].
  unfold show_ipv4. cbn [map String.concat]. rewrite !codes_app.
  change (codes ".") with [46]. change (codes ":") with [58].
  unfold read_socket_v4, parser_bind at 1, read_ipv4. cbn [read_octets].
  repeat (unfold read_separator at 1; cbn [Nat.eqb]; unfold parser_bind at 1).
  rewrite <- !app_assoc. cbn [app]. rewrite read_octet by (done || by left).
  unfold parser_bind, read_given.
  do 3 (cbn [Z.eqb Pos.eqb]; rewrite read_octet by first [done|by left|by right]).
  by rewrite read_port_number.
Qed.
