(* ===== verification/Protocol.v ===== *)
(** * The peer protocol ([src/p2p/protocol.rs], [src/p2p/messages.rs])

    Chain summaries, the handshake and its validation, block announcements and
    the message type. *)
From S2P Require Import Prelude Crypto Constants Transaction Block Genesis VisionX Sled ChainState.

(** ** Chain summary *)
Record ChainSummary := mkSummary {
  sm_height : Z;
  sm_tip_hash : option string;
  sm_cumulative_work : Z
}.
#[export] Instance ChainSummary_eq_dec : EqDecision ChainSummary.
Proof. solve_decision. Defined.

Definition from_chain {SL : Sled} (g : ChainState) : ChainSummary :=
  let tip_hash := if bool_decide (blocks g = []) then None else Some (tip_hash g) in
  let cumulative_work := default 0 (tip_hash ≫= λ hash, cumulative_work g !! hash) in
  mkSummary (current_height g) tip_hash cumulative_work.

(** ** Handshake *)
Definition NODE_VERSION : string := "v1.0.4".

Record HandshakeMessage := mkHandshake {
  hs_protocol_version : Z;
  hs_chain_id : list byte;
  hs_genesis_hash : string;
  hs_node_nonce : Z;
  hs_chain_height : Z;
  hs_network_id : string;
  hs_node_tag : string;
  hs_econ_hash : string;
  hs_pow_params_hash : string;
  hs_advertised_ip : option string;
  hs_advertised_port : option Z;
  hs_seed_peers : list string
}.
#[export] Instance HandshakeMessage_eq_dec : EqDecision HandshakeMessage.
Proof. solve_decision. Defined.

Inductive HandshakeResult :=
| Accepted
| VersionMismatch (remote ours : Z)
| WrongChainId
| WrongGenesisHash
| WrongEconHash
| WrongPowParams
| SelfConnection.
#[export] Instance HandshakeResult_eq_dec : EqDecision HandshakeResult.
Proof. solve_decision. Defined.

Section handshake.
Context `{C : Crypto}.

Definition local_chain_id : list byte :=
  blake3 (string_bytes GENESIS_HASH ++ string_bytes NETWORK_ID).

Definition new_handshake (chain_height node_nonce : Z) : HandshakeMessage :=
  mkHandshake PROTOCOL_VERSION local_chain_id GENESIS_HASH node_nonce chain_height NETWORK_ID
    (NODE_VERSION +:+ "-consensus-v1.0." +:+ u64_to_string CONSENSUS_VERSION)
    ECON_HASH (fingerprint VISIONX_PARAMS) None None [].
Definition new_with_advertised (chain_height node_nonce : Z) (advertised_ip : option string)
    (advertised_port : option Z) : HandshakeMessage :=
  let h := new_handshake chain_height node_nonce in
  mkHandshake (hs_protocol_version h) (hs_chain_id h) (hs_genesis_hash h) (hs_node_nonce h)
    (hs_chain_height h) (hs_network_id h) (hs_node_tag h) (hs_econ_hash h) (hs_pow_params_hash h)
    advertised_ip advertised_port (hs_seed_peers h).
Definition with_seed_peers (seeds : list string) (h : HandshakeMessage) : HandshakeMessage :=
  mkHandshake (hs_protocol_version h) (hs_chain_id h) (hs_genesis_hash h) (hs_node_nonce h)
    (hs_chain_height h) (hs_network_id h) (hs_node_tag h) (hs_econ_hash h) (hs_pow_params_hash h)
    (hs_advertised_ip h) (hs_advertised_port h) seeds.

Definition validate_handshake (remote : HandshakeMessage) (our_nonce : Z) : HandshakeResult :=
  if hs_node_nonce remote =? our_nonce then SelfConnection
  else if negb (hs_protocol_version remote =? PROTOCOL_VERSION)
  then VersionMismatch (hs_protocol_version remote) PROTOCOL_VERSION
  else if negb (bool_decide (hs_chain_id remote = local_chain_id)) then WrongChainId
  else if negb (bool_decide (hs_genesis_hash remote = GENESIS_HASH)) then WrongGenesisHash
  else if negb (bool_decide (hs_econ_hash remote = ECON_HASH)) then WrongEconHash
  else if negb (bool_decide (hs_pow_params_hash remote = fingerprint VISIONX_PARAMS))
  then WrongPowParams
  else Accepted.
End handshake.

(** ** Messages *)
Record AnnounceBlock := mkAnnounce { an_height : Z; an_hash : string; an_prev : string }.

Inductive P2PMessage :=
| MHandshake (hs : HandshakeMessage)
| Ping (timestamp : Z)
| Pong (timestamp : Z)
| GetHeight
| Height (summary : ChainSummary)
| MAnnounceBlock (announcement : AnnounceBlock)
| GetBlock (hash : string)
| MBlock (block : Block)
| Disconnect (reason : string).

Definition label (m : P2PMessage) : string :=
  match m with
  | MHandshake _ => "Handshake"
  | Ping _ => "Ping"
  | Pong _ => "Pong"
  | GetHeight => "GetHeight"
  | Height _ => "Height"
  | MAnnounceBlock _ => "AnnounceBlock"
  | GetBlock _ => "GetBlock"
  | MBlock _ => "Block"
  | Disconnect _ => "Disconnect"
  end.
Definition is_pre_handshake (m : P2PMessage) : bool :=
  match m with MHandshake _ | Disconnect _ => true | _ => false end.

(** ** Theory *)
Section theory.
Context {C : Crypto}.

(** What an accepted handshake agrees on. *)
Definition compatible (remote : HandshakeMessage) (our_nonce : Z) : Prop :=
  hs_node_nonce remote ≠ our_nonce ∧ hs_protocol_version remote = PROTOCOL_VERSION ∧
  hs_chain_id remote = local_chain_id ∧ hs_genesis_hash remote = GENESIS_HASH ∧
  hs_econ_hash remote = ECON_HASH ∧ hs_pow_params_hash remote = fingerprint VISIONX_PARAMS.

Lemma validate_handshake_Accepted remote our_nonce :
  validate_handshake remote our_nonce = Accepted ↔ compatible remote our_nonce.
Proof.
  unfold validate_handshake, compatible.
  destruct (Z.eqb_spec (hs_node_nonce remote) our_nonce); [split; [done|tauto]|].
  destruct (Z.eqb_spec (hs_protocol_version remote) PROTOCOL_VERSION); cbn [negb]; [|split; [done|tauto]].
  repeat (case_bool_decide; cbn [negb]; [|split; [done|tauto]]). tauto.
Qed.

Lemma new_handshake_compatible h n ip port seeds our_nonce : n ≠ our_nonce →
  compatible (with_seed_peers seeds (new_with_advertised h n ip port)) our_nonce.
Proof. intros. by repeat split. Qed.
End theory.
