(* ===== verification/Peers.v ===== *)
(** * The peer registry ([src/p2p/peer_manager.rs])

    The durable peers by address, with their connection state and the last
    chain summary each reported.  An [Instant] is a count of nanoseconds, and
    every method that reads the clock takes it as [now]; the lock makes each
    method one step. *)
From S2P Require Import Prelude Constants Net Protocol.

Inductive PeerState := Connected | Connecting | Disconnected | KnownOnly.
#[export] Instance PeerState_eq_dec : EqDecision PeerState.
Proof. solve_decision. Defined.

Record Peer := mkPeer {
  p_addr : string;
  p_observed_addr : option string;
  p_advertised_addr : option string;
  p_state : PeerState;
  p_is_outbound : bool;
  p_height : Z;
  p_tip_hash : option string;
  p_cumulative_work : Z;
  p_last_height_updated_at : option Z;
  p_last_height_poll_sent_at : option Z;
  p_last_height_response_at : option Z;
  p_last_activity : option Z;
  p_connection_generation : Z;
  p_summary_generation : option Z;
  p_summary_source : option string
}.
Definition new_peer (addr : string) (is_outbound : bool) : Peer :=
  mkPeer addr None None KnownOnly is_outbound 0 None 0 None None None None 0 None None.

(** [Instant::elapsed().as_secs()]. *)
Definition elapsed_secs (now t : Z) : Z := Z.max 0 (now - t) / 10 ^ 9.

Definition is_height_fresh (now : Z) (p : Peer) : bool :=
  match p_last_height_updated_at p with
  | Some t => elapsed_secs now t <? PEER_HEIGHT_STALE_SECS
  | None => false
  end.
Definition is_height_poll_stalled (now : Z) (p : Peer) : bool :=
  match p_last_height_poll_sent_at p, p_last_height_response_at p with
  | Some sent, Some recv =>
      (recv <? sent) && (HEIGHT_POLL_RESPONSE_WINDOW_SECS <=? elapsed_secs now sent)
  | Some sent, None => HEIGHT_POLL_RESPONSE_WINDOW_SECS <=? elapsed_secs now sent
  | None, _ => false
  end.
Definition summary (p : Peer) : ChainSummary :=
  mkSummary (p_height p) (p_tip_hash p) (p_cumulative_work p).

Record PeerCounts := mkCounts {
  pc_durable_peers : nat;
  pc_active_inbound_sessions : nat;
  pc_active_outbound_sessions : nat;
  pc_transient_connections : nat;
  pc_dialable_peers : nat
}.

(** ** Addresses *)
Definition is_private_like_ip (ip : IpAddr) : bool :=
  match ip with
  | V4 o => is_loopback ip || v4_is_private o || v4_is_link_local o || is_unspecified ip
  | V6 gs =>
      let first := nth 0 gs 0 in
      is_loopback ip || is_unspecified ip || (Z.land first 65024 =? 64512)
      || (Z.land first 65472 =? 65152)
  end.

Definition is_host_char (c : ascii) : bool :=
  let z := ascii_Z c in
  ((97 <=? z) && (z <=? 122)) || ((65 <=? z) && (z <=? 90)) || ((48 <=? z) && (z <=? 57))
  || (z =? 46) || (z =? 45).
Definition contains_colon (s : string) : bool := negb (string_forallb (λ c, negb (ascii_Z c =? 58)) s).

Definition validated_advertised_addr (host : option string) (port : option Z) (allow_private : bool)
    : result string (option string) :=
  match host, port with
  | Some host, Some port =>
      let host := trim host in
      if bool_decide (host = "") || (port =? 0) then Err "malformed advertised address"
      else if contains_colon host && negb (bool_decide (is_Some (parse_ip host)))
      then Err "malformed advertised host"
      else
        let address := Ok (Some (to_ascii_lowercase host +:+ ":" +:+ u64_to_string port)) in
        match parse_ip host with
        | Some ip =>
            if negb allow_private && is_private_like_ip ip
            then Err "private advertised address not allowed" else address
        | None =>
            if negb (string_forallb is_host_char host) then Err "malformed advertised host" else address
        end
  | _, _ => Ok None
  end.

Inductive DialError := InvalidPeerAddress (value : string) | PortZero (value : string) | PrivateAddress (value : string).
Definition validate_dial_address (value : string) (allow_private : bool) : result DialError SocketAddr :=
  match parse_socket value with
  | None => Err (InvalidPeerAddress value)
  | Some addr =>
      if sa_port addr =? 0 then Err (PortZero value)
      else if negb allow_private && is_private_like_ip (sa_ip addr) then Err (PrivateAddress value)
      else Ok addr
  end.

(** ** The registry *)
Abbreviation PeerManager := (gmap string Peer).
Definition new_peer_manager : PeerManager := ∅.

(** Assignments to the fields of a peer. *)
Definition with_state (s : PeerState) (p : Peer) : Peer :=
  mkPeer (p_addr p) (p_observed_addr p) (p_advertised_addr p) s (p_is_outbound p) (p_height p)
    (p_tip_hash p) (p_cumulative_work p) (p_last_height_updated_at p) (p_last_height_poll_sent_at p)
    (p_last_height_response_at p) (p_last_activity p) (p_connection_generation p)
    (p_summary_generation p) (p_summary_source p).
Definition with_outbound (b : bool) (p : Peer) : Peer :=
  mkPeer (p_addr p) (p_observed_addr p) (p_advertised_addr p) (p_state p) b (p_height p)
    (p_tip_hash p) (p_cumulative_work p) (p_last_height_updated_at p) (p_last_height_poll_sent_at p)
    (p_last_height_response_at p) (p_last_activity p) (p_connection_generation p)
    (p_summary_generation p) (p_summary_source p).
Definition with_generation (z : Z) (p : Peer) : Peer :=
  mkPeer (p_addr p) (p_observed_addr p) (p_advertised_addr p) (p_state p) (p_is_outbound p) (p_height p)
    (p_tip_hash p) (p_cumulative_work p) (p_last_height_updated_at p) (p_last_height_poll_sent_at p)
    (p_last_height_response_at p) (p_last_activity p) z
    (p_summary_generation p) (p_summary_source p).
Definition with_addrs (observed advertised : option string) (p : Peer) : Peer :=
  mkPeer (p_addr p) observed advertised (p_state p) (p_is_outbound p) (p_height p)
    (p_tip_hash p) (p_cumulative_work p) (p_last_height_updated_at p) (p_last_height_poll_sent_at p)
    (p_last_height_response_at p) (p_last_activity p) (p_connection_generation p)
    (p_summary_generation p) (p_summary_source p).
Definition with_activity (now : Z) (p : Peer) : Peer :=
  mkPeer (p_addr p) (p_observed_addr p) (p_advertised_addr p) (p_state p) (p_is_outbound p) (p_height p)
    (p_tip_hash p) (p_cumulative_work p) (p_last_height_updated_at p) (p_last_height_poll_sent_at p)
    (Some now) (Some now) (p_connection_generation p)
    (p_summary_generation p) (p_summary_source p).
Definition with_poll_sent (now : Z) (p : Peer) : Peer :=
  mkPeer (p_addr p) (p_observed_addr p) (p_advertised_addr p) (p_state p) (p_is_outbound p) (p_height p)
    (p_tip_hash p) (p_cumulative_work p) (p_last_height_updated_at p) (Some now)
    (p_last_height_response_at p) (p_last_activity p) (p_connection_generation p)
    (p_summary_generation p) (p_summary_source p).
Definition with_height (now h : Z) (p : Peer) : Peer :=
  mkPeer (p_addr p) (p_observed_addr p) (p_advertised_addr p) (p_state p) (p_is_outbound p) h
    (p_tip_hash p) (p_cumulative_work p) (Some now) (p_last_height_poll_sent_at p)
    (p_last_height_response_at p) (p_last_activity p) (p_connection_generation p)
    (p_summary_generation p) (p_summary_source p).
Definition with_summary (now : Z) (s : ChainSummary) (gen : option Z) (source : option string) (p : Peer) : Peer :=
  mkPeer (p_addr p) (p_observed_addr p) (p_advertised_addr p) (p_state p) (p_is_outbound p) (sm_height s)
    (sm_tip_hash s) (sm_cumulative_work s) (Some now) (p_last_height_poll_sent_at p)
    (p_last_height_response_at p) (p_last_activity p) (p_connection_generation p) gen source.
Definition clear_peer_summary (p : Peer) : Peer :=
  mkPeer (p_addr p) (p_observed_addr p) (p_advertised_addr p) (p_state p) (p_is_outbound p) 0 None 0
    None None None (p_last_activity p) (p_connection_generation p) None None.

Definition upsert (pm : PeerManager) (addr : string) (is_outbound : bool) : PeerManager :=
  match pm !! addr with
  | Some peer => <[addr := with_outbound (p_is_outbound peer || is_outbound) peer]> pm
  | None => <[addr := new_peer addr is_outbound]> pm
  end.

Definition set_state (pm : PeerManager) (addr : string) (state : PeerState) : PeerManager :=
  alter (λ peer,
    let disconnecting := bool_decide (state = Disconnected) || bool_decide (state = KnownOnly) in
    let peer := with_state state peer in
    if disconnecting then clear_peer_summary peer else peer) addr pm.

Definition disconnect_if_generation (pm : PeerManager) (addr : string) (generation : Z)
    : PeerManager * bool :=
  match pm !! addr with
  | None => (pm, false)
  | Some peer =>
      if negb (p_connection_generation peer =? generation) then (pm, false)
      else (<[addr := clear_peer_summary (with_state Disconnected peer)]> pm, true)
  end.

Definition connect_session (pm : PeerManager) (addr : string) (generation : Z) : PeerManager :=
  alter (λ peer,
    with_state Connected (with_generation (Z.max (p_connection_generation peer) generation) peer)) addr pm.

Definition note_peer_height (now : Z) (pm : PeerManager) (addr : string) (height : Z) : PeerManager :=
  alter (λ peer,
    if height <? p_height peer then with_activity now peer
    else with_activity now (with_height now height peer)) addr pm.

Definition note_peer_summary_from (now : Z) (pm : PeerManager) (addr : string) (s : ChainSummary)
    (generation : option Z) (source : option string) : PeerManager :=
  alter (λ peer,
    let stale := match generation with
                 | Some generation => generation <? p_connection_generation peer
                 | None => false
                 end in
    if (stale : bool) then peer
    else
      let should_update := (p_cumulative_work peer <? sm_cumulative_work s)
        || (p_height peer <=? sm_height s) || bool_decide (p_tip_hash peer = None) in
      with_activity now
        (if should_update then
           with_summary now s
             (match generation with Some g => Some g | None => Some (p_connection_generation peer) end)
             source peer
         else peer)) addr pm.
Definition note_peer_summary (now : Z) (pm : PeerManager) (addr : string) (s : ChainSummary) : PeerManager :=
  note_peer_summary_from now pm addr s None None.

Definition record_height_poll_sent (now : Z) (pm : PeerManager) (addr : string) : PeerManager :=
  alter (with_poll_sent now) addr pm.

(** ** Queries *)
Definition peers_of (pm : PeerManager) : list Peer := (map_to_list pm).*2.
Definition is_connected (p : Peer) : bool := bool_decide (p_state p = Connected).
(** Connected, with a fresh summary and no unanswered poll. *)
Definition is_live (now : Z) (p : Peer) : bool :=
  is_connected p && is_height_fresh now p && negb (is_height_poll_stalled now p).

Definition count_where (f : Peer → bool) (pm : PeerManager) : nat := length (List.filter f (peers_of pm)).

(** [Iterator::max().unwrap_or(0)] over unsigned heights. *)
Definition best_remote_height (now : Z) (pm : PeerManager) : Z :=
  foldr Z.max 0 (map p_height (List.filter (is_live now) (peers_of pm))).
Definition connected_count (pm : PeerManager) : nat := count_where is_connected pm.
Definition outbound_count (pm : PeerManager) : nat :=
  count_where (λ p, is_connected p && p_is_outbound p) pm.
Definition snapshot (pm : PeerManager) : list Peer := peers_of pm.

(** [Iterator::max_by]: the last of the greatest elements. *)
Definition max_by {A} (cmp : A → A → comparison) (l : list A) : option A :=
  match l with
  | [] => None
  | x :: l => Some (fold_left (λ x y, match cmp x y with Gt => x | _ => y end) l x)
  end.
Definition then_with (a b : comparison) : comparison := match a with Eq => b | _ => a end.

Definition by_height (a b : Peer) : comparison :=
  then_with (p_height a ?= p_height b) (String.compare (p_addr b) (p_addr a)).
Definition best_sync_target (now : Z) (pm : PeerManager) (local_height : Z) : option string :=
  p_addr <$> max_by by_height
    (List.filter (λ p, is_live now p && (local_height <? p_height p)) (peers_of pm)).

Definition by_work (a b : Peer) : comparison :=
  then_with (p_cumulative_work a ?= p_cumulative_work b) (by_height a b).
Definition best_work_sync_target (now : Z) (pm : PeerManager) (local_tip_hash : string) (local_work : Z)
    : option string :=
  p_addr <$> max_by by_work
    (List.filter (λ p, is_live now p && (local_work <? p_cumulative_work p)
        && negb (bool_decide (p_tip_hash p = Some local_tip_hash))
        && bool_decide (is_Some (p_tip_hash p))) (peers_of pm)).

Definition is_dialable (p : Peer) : bool := p_is_outbound p || bool_decide (is_Some (p_advertised_addr p)).
(** Sorted by [String]'s order, consecutive duplicates removed, bounded. *)
Fixpoint insert_string (s : string) (l : list string) : list string :=
  match l with
  | [] => [s]
  | t :: l => match String.compare s t with Gt => t :: insert_string s l | _ => s :: t :: l end
  end.
Definition sort_strings (l : list string) : list string := foldr insert_string [] l.
Fixpoint dedup (l : list string) : list string :=
  match l with
  | s :: ((t :: _) as l') => if bool_decide (s = t) then dedup l' else s :: dedup l'
  | _ => l
  end.
Definition dialable_addresses (pm : PeerManager) (limit : nat) : list string :=
  take limit (dedup (sort_strings (map p_addr (List.filter is_dialable (peers_of pm))))).

Definition peer_counts (pm : PeerManager) : PeerCounts :=
  mkCounts (size pm)
    (count_where (λ p, is_connected p && negb (p_is_outbound p)) pm)
    (count_where (λ p, is_connected p && p_is_outbound p) pm)
    (count_where (λ p, is_connected p && bool_decide (p_advertised_addr p = None) && negb (p_is_outbound p)) pm)
    (count_where is_dialable pm).

Definition resolve_inbound_peer_key (pm : PeerManager) (observed_addr : string)
    (handshake : HandshakeMessage) (allow_private : bool) : PeerManager * result string string :=
  match validated_advertised_addr (hs_advertised_ip handshake) (hs_advertised_port handshake) allow_private with
  | Err e => (pm, Err e)
  | Ok advertised =>
      let durable_addr := default observed_addr advertised in
      let peer := default (new_peer durable_addr false) (pm !! durable_addr) in
      let advertised_addr :=
        if bool_decide (durable_addr ≠ observed_addr) then Some durable_addr else p_advertised_addr peer in
      (<[durable_addr := with_addrs (Some observed_addr) advertised_addr peer]> pm, Ok durable_addr)
  end.

Definition note_observed_addr (pm : PeerManager) (peer_addr observed_addr : string) : PeerManager :=
  alter (λ peer, with_addrs (Some observed_addr) (p_advertised_addr peer) peer) peer_addr pm.
Definition peer_generation (pm : PeerManager) (peer_addr : string) : option Z :=
  p_connection_generation <$> pm !! peer_addr.
Definition peer_summary (pm : PeerManager) (addr : string) : option ChainSummary := summary <$> pm !! addr.

(** ** Examples *)

(** An advertised IPv6 host yields an address that cannot be dialled. *)
Example advertised_ipv6_not_dialable :
  validated_advertised_addr (Some "2001:db8::1") (Some 7072) false = Ok (Some "2001:db8::1:7072") ∧
  validate_dial_address "2001:db8::1:7072" false = Err (InvalidPeerAddress "2001:db8::1:7072").
Proof. split; vm_compute; reflexivity. Qed.
