(* ===== verification/Sessions.v ===== *)
(** * Peer sessions ([PeerSessionRegistry] of [src/p2p/connection.rs])

    The live transports of every durable peer, each with the bounded queue of
    messages waiting for it.  The second half is the life cycle of sessions as
    a state machine over the registry and the peer registry, every lock section
    and every access to the generation counter one step, interleaved freely. *)
From S2P Require Import Prelude Crypto Constants Transaction Block Genesis Net Protocol Peers.

Definition SESSION_OUTBOUND_CAPACITY : nat := 32.

Record SessionSender := mkSender {
  ss_generation : Z;
  ss_queue : list P2PMessage;  (* sent and not yet received *)
  ss_closed : bool             (* the receiver was dropped *)
}.
Record PeerSessions := mkSessions {
  ps_latest_generation : Z;
  ps_active : list SessionSender
}.
Record PeerSessionRegistry := mkRegistry {
  next_generation : Z;
  sessions : gmap string PeerSessions
}.
Definition new_registry : PeerSessionRegistry := mkRegistry 1 ∅.

(** A registration takes its generation from the atomic counter before it takes
    the lock: two steps, which those of other registrations may separate. *)
Definition fetch_generation (r : PeerSessionRegistry) : PeerSessionRegistry * Z :=
  (mkRegistry (wadd64 (next_generation r) 1) (sessions r), next_generation r).
Definition register (r : PeerSessionRegistry) (peer_addr : string) (generation : Z) : PeerSessionRegistry :=
  let peer_sessions := default (mkSessions generation []) (sessions r !! peer_addr) in
  mkRegistry (next_generation r)
    (<[peer_addr := mkSessions generation (ps_active peer_sessions ++ [mkSender generation [] false])]>
       (sessions r)).

Definition unregister (r : PeerSessionRegistry) (peer_addr : string) (generation : Z)
    : PeerSessionRegistry * option Z :=
  match sessions r !! peer_addr with
  | None => (r, None)
  | Some ps =>
      let active := List.filter (λ s, negb (ss_generation s =? generation)) (ps_active ps) in
      if (length active =? length (ps_active ps))%nat || negb (length active =? 0)%nat
      then (mkRegistry (next_generation r)
              (<[peer_addr := mkSessions (ps_latest_generation ps) active]> (sessions r)), None)
      else (mkRegistry (next_generation r) (delete peer_addr (sessions r)),
            Some (ps_latest_generation ps))
  end.

(** [mpsc::Sender::try_send]. *)
Definition try_send (s : SessionSender) (m : P2PMessage) : option SessionSender :=
  if ss_closed s || (SESSION_OUTBOUND_CAPACITY <=? length (ss_queue s))%nat then None
  else Some (mkSender (ss_generation s) (ss_queue s ++ [m]) (ss_closed s)).
(** [iter().any(try_send .. is_ok())]: the first session with room takes it. *)
Fixpoint send_any (active : list SessionSender) (m : P2PMessage) : list SessionSender * bool :=
  match active with
  | [] => ([], false)
  | s :: active =>
      match try_send s m with
      | Some s => (s :: active, true)
      | None => let '(active, sent) := send_any active m in (s :: active, sent)
      end
  end.
Definition announcement_of (block : Block) : P2PMessage :=
  MAnnounceBlock (mkAnnounce (b_number block) (block_hash block) (b_parent block)).
Definition announce_to (m : P2PMessage) (ps : PeerSessions) : PeerSessions * bool :=
  let '(active, sent) := send_any (ps_active ps) m in (mkSessions (ps_latest_generation ps) active, sent).
Definition announce_block (r : PeerSessionRegistry) (block : Block) (exclude_peer : option string)
    : PeerSessionRegistry * nat :=
  let message := announcement_of block in
  let answered : gmap string (PeerSessions * bool) :=
    map_imap (λ peer_addr ps, Some (if bool_decide (exclude_peer = Some peer_addr) then (ps, false)
                                    else announce_to message ps)) (sessions r) in
  (mkRegistry (next_generation r) (fst <$> answered), size (filter (λ kv, kv.2.2 = true) answered)).

(** The receiving end of a session: the next queued message. *)
Definition recv_session (r : PeerSessionRegistry) (peer_addr : string) (generation : Z)
    : PeerSessionRegistry * option P2PMessage :=
  match sessions r !! peer_addr ≫= λ ps, List.find (λ s, ss_generation s =? generation) (ps_active ps) with
  | Some (mkSender _ (m :: _) _) =>
      (mkRegistry (next_generation r)
         (alter (λ ps, mkSessions (ps_latest_generation ps)
            (map (λ s, if ss_generation s =? generation
                       then mkSender (ss_generation s) (tail (ss_queue s)) (ss_closed s) else s)
               (ps_active ps))) peer_addr (sessions r)), Some m)
  | _ => (r, None)
  end.

(** ** The life of a session

    A handler takes a generation, registers its session under it, marks the
    peer connected, and at the end unregisters and, when told to, marks the
    peer disconnected.  Besides, a dialling task that cannot open a session,
    and a handler that refuses a handshake, mark a peer disconnected without
    looking at its sessions: [ov_hidden] collects the peers so marked since
    they were last marked connected. *)
Inductive phase := Allocated | Registered | Live | Closing (latest : Z).
Record Overlay := mkOverlay {
  ov_registry : PeerSessionRegistry;
  ov_peers : PeerManager;
  ov_tasks : gmap Z (string * phase);  (* the running handlers, by generation *)
  ov_hidden : gset string
}.

Definition allocate_session (o : Overlay) (addr : string) : Overlay :=
  let '(r, generation) := fetch_generation (ov_registry o) in
  mkOverlay r (ov_peers o) (<[generation := (addr, Allocated)]> (ov_tasks o)) (ov_hidden o).
Definition begin_session (o : Overlay) (addr : string) (generation : Z) : Overlay :=
  mkOverlay (register (ov_registry o) addr generation) (ov_peers o)
    (<[generation := (addr, Registered)]> (ov_tasks o)) (ov_hidden o).
Definition enter_session (o : Overlay) (addr : string) (generation : Z) : Overlay :=
  mkOverlay (ov_registry o) (connect_session (ov_peers o) addr generation)
    (<[generation := (addr, Live)]> (ov_tasks o)) (ov_hidden o ∖ {[addr]}).
Definition leave_session (o : Overlay) (addr : string) (generation : Z) : Overlay :=
  match unregister (ov_registry o) addr generation with
  | (r, Some latest) =>
      mkOverlay r (ov_peers o) (<[generation := (addr, Closing latest)]> (ov_tasks o)) (ov_hidden o)
  | (r, None) => mkOverlay r (ov_peers o) (delete generation (ov_tasks o)) (ov_hidden o)
  end.
Definition end_session (o : Overlay) (addr : string) (generation latest : Z) : Overlay :=
  mkOverlay (ov_registry o) (disconnect_if_generation (ov_peers o) addr latest).1
    (delete generation (ov_tasks o)) (ov_hidden o).
Definition hide_peer (o : Overlay) (addr : string) : Overlay :=
  mkOverlay (ov_registry o) (set_state (ov_peers o) addr Disconnected) (ov_tasks o)
    (ov_hidden o ∪ {[addr]}).

(** An update of the peer registry that touches neither connection states nor
    generations: address registration, summaries, heights, polls. *)
Definition quiet (pm pm' : PeerManager) : Prop :=
  ∀ a, match pm !! a with
       | Some p => ∃ p', pm' !! a = Some p' ∧ p_state p' = p_state p ∧
                     p_connection_generation p' = p_connection_generation p
       | None => ∀ p', pm' !! a = Some p' → p_state p' = KnownOnly ∧ p_connection_generation p' = 0
       end.

Inductive session_step : Overlay → Overlay → Prop :=
| step_allocate o addr : is_Some (ov_peers o !! addr) → next_generation (ov_registry o) < U64_MAX →
    session_step o (allocate_session o addr)
| step_begin o addr generation : ov_tasks o !! generation = Some (addr, Allocated) →
    session_step o (begin_session o addr generation)
| step_enter o addr generation : ov_tasks o !! generation = Some (addr, Registered) →
    session_step o (enter_session o addr generation)
| step_leave o addr generation : ov_tasks o !! generation = Some (addr, Live) →
    session_step o (leave_session o addr generation)
| step_end o addr generation latest : ov_tasks o !! generation = Some (addr, Closing latest) →
    session_step o (end_session o addr generation latest)
| step_hide o addr : session_step o (hide_peer o addr)
| step_quiet o pm : quiet (ov_peers o) pm →
    session_step o (mkOverlay (ov_registry o) pm (ov_tasks o) (ov_hidden o)).

(** No two registrations of one peer overlap: one of them has not passed the
    counter, or has inserted its session. *)
Definition one_registration (o : Overlay) : Prop :=
  ∀ a g g', ov_tasks o !! g = Some (a, Allocated) → ov_tasks o !! g' = Some (a, Allocated) → g = g'.
Definition orderly_step (o o' : Overlay) : Prop := session_step o o' ∧ one_registration o'.

(** ** The invariant of the life cycle *)
Definition live_gens (ps : PeerSessions) : list Z := map ss_generation (ps_active ps).
Definition running (o : Overlay) (a : string) (g : Z) : Prop :=
  ov_tasks o !! g = Some (a, Registered) ∨ ov_tasks o !! g = Some (a, Live).

Record overlay_ok (o : Overlay) : Prop := {
  oi_next : 0 < next_generation (ov_registry o);
  (** The active sessions of a peer are its running handlers. *)
  oi_active a ps : sessions (ov_registry o) !! a = Some ps →
    ps_active ps ≠ [] ∧ NoDup (live_gens ps) ∧ (∀ g, g ∈ live_gens ps ↔ running o a g);
  oi_running a g : running o a g → is_Some (sessions (ov_registry o) !! a);
  oi_task g a ph : ov_tasks o !! g = Some (a, ph) →
    0 < g < next_generation (ov_registry o) ∧ is_Some (ov_peers o !! a);
  oi_latest a ps : sessions (ov_registry o) !! a = Some ps →
    ps_latest_generation ps < next_generation (ov_registry o) ∧
    (∀ g, g ∈ live_gens ps → g ≤ ps_latest_generation ps);
  (** A closing handler is older than every running one of its peer. *)
  oi_closed a g l : ov_tasks o !! g = Some (a, Closing l) → l < next_generation (ov_registry o);
  oi_closing a g l g' : ov_tasks o !! g = Some (a, Closing l) → running o a g' → l < g';
  oi_generation a p : ov_peers o !! a = Some p →
    0 ≤ p_connection_generation p < next_generation (ov_registry o);
  (** The newest session has registered only, or the peer carries its generation. *)
  oi_newest a p ps : ov_peers o !! a = Some p → sessions (ov_registry o) !! a = Some ps →
    p_connection_generation p ≤ ps_latest_generation ps ∧
    (ov_tasks o !! ps_latest_generation ps = Some (a, Registered) ∨
     p_connection_generation p = ps_latest_generation ps);
  oi_live a p g : ov_peers o !! a = Some p → ov_tasks o !! g = Some (a, Live) →
    g ≤ p_connection_generation p ∧ (a ∉ ov_hidden o → p_state p = Connected);
  (** Without sessions a connected peer is about to be disconnected. *)
  oi_idle a p : ov_peers o !! a = Some p → sessions (ov_registry o) !! a = None →
    p_state p = Connected →
    ∃ g, ov_tasks o !! g = Some (a, Closing (p_connection_generation p));
  oi_hidden a p : ov_peers o !! a = Some p → a ∈ ov_hidden o → p_state p ≠ Connected;
  (** A generation taken and not yet registered is newer than all its peer has. *)
  oi_alloc a h : ov_tasks o !! h = Some (a, Allocated) →
    (∀ ps, sessions (ov_registry o) !! a = Some ps → ps_latest_generation ps < h) ∧
    (∀ p, ov_peers o !! a = Some p → p_connection_generation p < h) ∧
    (∀ g l, ov_tasks o !! g = Some (a, Closing l) → l < h)
}.

Lemma live_gens_filter g ps :
  map ss_generation (List.filter (λ s, negb (ss_generation s =? g)) (ps_active ps)) =
  filter (λ x, x ≠ g) (live_gens ps).
Proof.
  unfold live_gens. induction (ps_active ps) as [|s l IH]; [done|]. cbn [List.filter map].
  destruct (Z.eqb_spec (ss_generation s) g) as [E|E]; cbn [negb map].
  - rewrite filter_cons_False by tauto. exact IH.
  - rewrite filter_cons_True by done. by f_equal.
Qed.

(** The generation a registration takes is new. *)
Lemma allocate_session_ok o addr :
  overlay_ok o → is_Some (ov_peers o !! addr) → next_generation (ov_registry o) < U64_MAX →
  overlay_ok (allocate_session o addr).
Proof.
  intros I Hp Hlt. pose proof (oi_next o I) as Hn. set (gen := next_generation (ov_registry o)) in *.
  assert (wadd64 gen 1 = gen + 1) as Hw by (apply wrap64_small; unfold u64; lia).
  assert (ov_tasks o !! gen = None) as Hfresh.
  { destruct (ov_tasks o !! gen) as [[a ph]|] eqn:E; [|done]. apply (oi_task o I) in E as [[_ H] _]. by apply Z.lt_irrefl in H. }
  unfold allocate_session, fetch_generation. fold gen. rewrite Hw. set (o' := mkOverlay _ _ _ _).
  assert (∀ g a ph, ov_tasks o' !! g = Some (a, ph) →
    g ≠ gen ∧ ov_tasks o !! g = Some (a, ph) ∨ g = gen ∧ a = addr ∧ ph = Allocated) as Htask.
  { intros g a ph. unfold o'. cbn [ov_tasks]. intros [[<- [= <- <-]]|[? ?]]%lookup_insert_Some; [by right|by left]. }
  assert (∀ g v, ov_tasks o !! g = Some v → ov_tasks o' !! g = Some v) as Hkeep.
  { intros g v Hg. unfold o'. cbn [ov_tasks]. rewrite lookup_insert_ne; [done|]. intros <-. congruence. }
  assert (∀ a g, running o' a g ↔ running o a g) as Hrun.
  { intros a g. split.
    - intros [[[_ ?]|(_ & _ & [=])]%Htask|[[_ ?]|(_ & _ & [=])]%Htask]; [by left|by right].
    - intros [H|H]; [left|right]; by apply Hkeep. }
  split; unfold o'; cbn [ov_registry next_generation sessions ov_peers ov_hidden]; fold o'.
  - lia.
  - intros a ps Ha. destruct (oi_active o I a ps Ha) as (H1 & H2 & H3). split; [done|]. split; [done|].
    intros g. by rewrite H3, Hrun.
  - intros a g ?%Hrun. by apply (oi_running o I a g).
  - intros g a ph [[_ Ht]|(-> & -> & ->)]%Htask; [|split; [lia|done]].
    destruct (oi_task o I g a ph Ht) as [H ?]. fold gen in H. split; [lia|done].
  - intros a ps Ha. destruct (oi_latest o I a ps Ha) as [H ?]. fold gen in H. split; [lia|done].
  - intros a g l [[_ Ht]|(_ & _ & [=])]%Htask. pose proof (oi_closed o I a g l Ht) as H. fold gen in H. lia.
  - intros a g l g' [[_ Ht]|(_ & _ & [=])]%Htask ?%Hrun. by apply (oi_closing o I a g l g').
  - intros a p Ha. pose proof (oi_generation o I a p Ha) as H. fold gen in H. lia.
  - intros a p ps Ha Hs. destruct (oi_newest o I a p ps Ha Hs) as [? Hor]. split; [done|].
    destruct Hor as [Hr|?]; [left; by apply Hkeep|by right].
  - intros a p g Ha [[_ Ht]|(_ & _ & [=])]%Htask. by apply (oi_live o I a p g).
  - intros a p Ha Hs Hc. destruct (oi_idle o I a p Ha Hs Hc) as [g Hg]. exists g. by apply Hkeep.
  - exact (oi_hidden o I).
  - intros a h [[_ Ht]|(-> & -> & _)]%Htask.
    + destruct (oi_alloc o I a h Ht) as (H1 & H2 & H3). split; [done|]. split; [done|].
      intros g l [[_ Hg]|(_ & _ & [=])]%Htask. by apply (H3 g).
    + split; [intros ps Hs; by apply (oi_latest o I addr ps)|].
      split; [intros p Ha; by apply (oi_generation o I addr p)|].
      intros g l [[_ Hg]|(_ & _ & [=])]%Htask. by apply (oi_closed o I addr g l).
Qed.

(** What registering a session changes. *)
Section begin.
Context (o : Overlay) (addr : string) (gen : Z) (I : overlay_ok o).
Context (Ht : ov_tasks o !! gen = Some (addr, Allocated)).

Lemma begin_running a g :
  running (begin_session o addr gen) a g ↔ running o a g ∨ (a = addr ∧ g = gen).
Proof.
  unfold running, begin_session. cbn [ov_tasks]. destruct (decide (g = gen)) as [->|Hg].
  - rewrite lookup_insert_eq, Ht. split; [intros [[= <-]|[=]]; by right|].
    intros [[[=]|[=]]|[-> _]]. by left.
  - rewrite lookup_insert_ne by done. tauto.
Qed.
Lemma begin_task g a ph : ov_tasks (begin_session o addr gen) !! g = Some (a, ph) →
  g ≠ gen ∧ ov_tasks o !! g = Some (a, ph) ∨ g = gen ∧ a = addr ∧ ph = Registered.
Proof.
  unfold begin_session. cbn [ov_tasks].
  intros [[<- [= <- <-]]|[? ?]]%lookup_insert_Some; [by right|by left].
Qed.
Lemma begin_sessions a ps : sessions (ov_registry (begin_session o addr gen)) !! a = Some ps →
  a ≠ addr ∧ sessions (ov_registry o) !! a = Some ps ∨
  a = addr ∧ ps_latest_generation ps = gen ∧
    live_gens ps = live_gens (default (mkSessions gen []) (sessions (ov_registry o) !! addr)) ++ [gen].
Proof.
  unfold begin_session, register. cbn [ov_registry sessions].
  intros [[<- <-]|[? ?]]%lookup_insert_Some; [right|by left].
  split; [done|]. split; [done|]. unfold live_gens. cbn [ps_active]. by rewrite map_app.
Qed.
Lemma begin_old g :
  g ∈ live_gens (default (mkSessions gen []) (sessions (ov_registry o) !! addr)) ↔ running o addr g.
Proof.
  destruct (sessions (ov_registry o) !! addr) as [ps|] eqn:E; cbn [default]; [by apply (oi_active o I addr ps E)|].
  split; [by intros ?%elem_of_nil|]. intros Hr. destruct (oi_running o I _ _ Hr) as [? ?]. congruence.
Qed.
(** The sessions the peer has are older. *)
Lemma begin_older g : running o addr g → g < gen.
Proof.
  intros Hr. destruct (oi_running o I _ _ Hr) as [ps Hps].
  pose proof (proj1 (oi_alloc o I _ _ Ht) ps Hps).
  destruct (oi_latest o I _ _ Hps) as [_ Hl]. destruct (oi_active o I _ _ Hps) as (_ & _ & Ha).
  apply Ha, Hl in Hr. lia.
Qed.
End begin.

Lemma begin_session_ok o addr gen :
  overlay_ok o → one_registration o → ov_tasks o !! gen = Some (addr, Allocated) →
  overlay_ok (begin_session o addr gen).
Proof.
  intros I Hone Ht. destruct (oi_alloc o I _ _ Ht) as (Ha1 & Ha2 & Ha3).
  pose proof (begin_running o addr gen Ht) as Hrun. pose proof (begin_task o addr gen) as Htask.
  pose proof (begin_sessions o addr gen) as Hses. pose proof (begin_old o addr gen I) as Hold.
  pose proof (begin_older o addr gen I Ht) as Holder.
  assert (∀ g v, g ≠ gen → ov_tasks o !! g = Some v → ov_tasks (begin_session o addr gen) !! g = Some v) as Hkeep.
  { intros g v Hg Hv. unfold begin_session. cbn [ov_tasks]. by rewrite lookup_insert_ne. }
  set (o' := begin_session o addr gen) in *.
  split; unfold o'; cbn [begin_session ov_registry ov_peers ov_hidden]; unfold register; cbn [next_generation sessions]; fold o'.
  - apply (oi_next o I).
  - intros a ps [[Hne Ha]|(-> & Hl & Hg)]%Hses.
    + destruct (oi_active o I a ps Ha) as (H1 & H2 & H3). split; [done|]. split; [done|].
      intros g. rewrite H3, Hrun. split; [by left|]. intros [?|[? _]]; done.
    + split; [intros E; unfold live_gens in Hg at 1; rewrite E in Hg; by apply app_cons_not_nil in Hg|].
      rewrite Hg. split.
      * apply NoDup_app. split; [|split; [|apply NoDup_singleton]].
        -- destruct (sessions (ov_registry o) !! addr) as [ps'|] eqn:E; [|constructor].
           by apply (oi_active o I addr ps' E).
        -- intros g Hg1 ->%list_elem_of_singleton. apply Hold, Holder in Hg1. lia.
      * intros g. rewrite elem_of_app, list_elem_of_singleton, Hold, Hrun. tauto.
  - intros a g [Hr|[-> _]]%Hrun; cbn [sessions].
    + destruct (decide (a = addr)) as [->|Hne]; [rewrite lookup_insert_eq; eauto|].
      rewrite lookup_insert_ne by done. by apply (oi_running o I a g).
    + rewrite lookup_insert_eq. eauto.
  - intros g a ph [[_ H]|(-> & -> & ->)]%Htask; [by apply (oi_task o I g a ph)|].
    by apply (oi_task o I gen addr Allocated).
  - intros a ps [[Hne Ha]|(-> & Hl & Hg)]%Hses; [by apply (oi_latest o I a ps)|].
    rewrite Hl. split; [apply (oi_task o I gen addr Allocated Ht)|]. rewrite Hg.
    intros g [Hr%Hold%Holder| ->%list_elem_of_singleton]%elem_of_app; lia.
  - intros a g l [[_ H]|(_ & _ & [=])]%Htask. by apply (oi_closed o I a g l).
  - intros a g l g' [[_ H]|(_ & _ & [=])]%Htask [Hr|[-> ->]]%Hrun; [by apply (oi_closing o I a g l g')|].
    by apply (Ha3 g).
  - exact (oi_generation o I).
  - intros a p ps Ha [[Hne Hs]|(-> & Hl & Hg)]%Hses.
    + destruct (oi_newest o I a p ps Ha Hs) as [? Hor]. split; [done|].
      destruct Hor as [Hr|?]; [left|by right]. apply Hkeep; [|done]. intros E. rewrite E in Hr. congruence.
    + rewrite Hl. pose proof (Ha2 p Ha). split; [lia|]. left. apply lookup_insert_eq.
  - intros a p g Ha [[_ H]|(_ & _ & [=])]%Htask. by apply (oi_live o I a p g).
  - intros a p Ha. cbn [sessions]. intros [Hs Hne]%lookup_insert_None Hc.
    destruct (oi_idle o I a p Ha Hs Hc) as [g Hg]. exists g. apply Hkeep; [|done]. intros ->. congruence.
  - exact (oi_hidden o I).
  - intros a h [[Hh H]|(_ & _ & [=])]%Htask. destruct (oi_alloc o I a h H) as (H1 & H2 & H3).
    assert (a ≠ addr) as Hne by (intros ->; by apply Hh, (Hone addr)).
    split; [|split; [done|]].
    + intros ps [[_ Hs]|(-> & _)]%Hses; [by apply H1|done].
    + intros g l [[_ Hg]|(_ & _ & [=])]%Htask. by apply (H3 g).
Qed.

(** What marking a peer connected changes. *)
Section enter.
Context (o : Overlay) (addr : string) (g : Z) (Ht : ov_tasks o !! g = Some (addr, Registered)).
Abbreviation entered := (enter_session o addr g).

Lemma enter_running a x : running entered a x ↔ running o a x.
Proof.
  unfold running. cbn [enter_session ov_tasks]. destruct (decide (x = g)) as [->|Hx].
  - rewrite lookup_insert_eq, Ht. naive_solver.
  - by rewrite lookup_insert_ne.
Qed.
Lemma enter_task x a ph : ov_tasks entered !! x = Some (a, ph) →
  x = g ∧ a = addr ∧ ph = Live ∨ x ≠ g ∧ ov_tasks o !! x = Some (a, ph).
Proof.
  cbn [enter_session ov_tasks].
  intros [[<- [= <- <-]]|[? ?]]%lookup_insert_Some; [by left|right; by split].
Qed.
Lemma enter_peer p a q : ov_peers o !! addr = Some p → ov_peers entered !! a = Some q →
  a ≠ addr ∧ ov_peers o !! a = Some q ∨
  a = addr ∧ p_state q = Connected ∧ p_connection_generation q = Z.max (p_connection_generation p) g.
Proof.
  intros Hp. cbn [enter_session ov_peers]. unfold connect_session.
  destruct (decide (a = addr)) as [->|Ha]; [|rewrite lookup_alter_ne by done; by left].
  rewrite lookup_alter_eq, Hp. intros [= <-]. right. done.
Qed.
Lemma enter_present a : is_Some (ov_peers o !! a) → is_Some (ov_peers entered !! a).
Proof.
  intros [q Hq]. cbn [enter_session ov_peers]. unfold connect_session.
  destruct (decide (a = addr)) as [->|Ha]; [rewrite lookup_alter_eq, Hq; eauto|by rewrite lookup_alter_ne].
Qed.
End enter.

(** A change of the peer registry and of one handler's phase between running
    phases keeps the registry part of the invariant. *)
Lemma enter_session_ok o addr g :
  overlay_ok o → ov_tasks o !! g = Some (addr, Registered) → overlay_ok (enter_session o addr g).
Proof.
  intros I Ht. destruct (oi_task o I _ _ _ Ht) as [Hg [p Hp]].
  destruct (oi_running o I addr g (or_introl Ht)) as [ps Hps].
  destruct (oi_active o I _ _ Hps) as (_ & _ & Hact).
  assert (g ≤ ps_latest_generation ps) as Hgl by (apply (oi_latest o I _ _ Hps), Hact; by left).
  set (o' := enter_session o addr g). set (r := ov_registry o).
  pose proof (enter_running o addr g Ht) as Hrun. pose proof (enter_task o addr g) as Htask.
  pose proof (λ a q, enter_peer o addr g p a q Hp) as Hpeer. fold o' in Hrun, Htask, Hpeer.
  pose proof (oi_generation o I _ _ Hp) as Hpg.
  split; cbn [enter_session ov_registry]; fold r.
  - apply (oi_next o I).
  - intros a qs Ha. destruct (oi_active o I a qs Ha) as (H1 & H2 & H3). split; [done|]. split; [done|].
    intros x. by rewrite H3, Hrun.
  - intros a x ?%Hrun. by apply (oi_running o I a x).
  - intros x a ph H. assert (0 < x < next_generation r ∧ is_Some (ov_peers o !! a)) as [? Hs].
    { destruct (Htask _ _ _ H) as [(-> & -> & _)|[_ H']]; [eauto|by apply (oi_task o I x a ph)]. }
    split; [done|by apply enter_present].
  - apply (oi_latest o I).
  - intros a x l [(_ & _ & [=])|[_ H]]%Htask. by apply (oi_closed o I a x l).
  - intros a x l x' [(_ & _ & [=])|[_ H]]%Htask ?%Hrun. by apply (oi_closing o I a x l x').
  - intros a q [[_ H]|(-> & _ & ->)]%Hpeer; [by apply (oi_generation o I a)|].
    change (ov_registry o') with (ov_registry o). lia.
  - intros a q qs [[Hne H]|(-> & _ & Hq)]%Hpeer Hs.
    + destruct (oi_newest o I a q qs H Hs) as [? Hor]. split; [done|].
      destruct Hor as [Hr|?]; [left|by right]. unfold o'. cbn [enter_session ov_tasks].
      rewrite lookup_insert_ne; [done|]. intros E. rewrite <- E in Hr. congruence.
    + change (ov_registry o') with (ov_registry o) in Hs. assert (qs = ps) as -> by congruence.
      destruct (oi_newest o I _ _ _ Hp Hps) as [Hle Hor].
      rewrite Hq. split; [lia|]. unfold o'. cbn [enter_session ov_tasks].
      destruct (decide (g = ps_latest_generation ps)) as [E|E]; [right; lia|].
      rewrite lookup_insert_ne by done. destruct Hor as [?|?]; [by left|right; lia].
  - intros a q x [[Hne H]|(-> & Hs & Hq)]%Hpeer Hx.
    + destruct (Htask _ _ _ Hx) as [(_ & -> & _)|[_ Hx']]; [done|].
      destruct (oi_live o I a q x H Hx') as [? Hl]. split; [done|]. intros Hh. apply Hl.
      contradict Hh. apply elem_of_difference. by rewrite elem_of_singleton.
    + split; [|by intros _]. rewrite Hq. destruct (Htask _ _ _ Hx) as [(-> & _ & _)|[_ Hx']]; [lia|].
      destruct (oi_live o I _ _ _ Hp Hx'). lia.
  - intros a q [[Hne H]|(-> & _ & _)]%Hpeer Hs Hc; [|change (ov_registry o') with (ov_registry o) in Hs; congruence].
    destruct (oi_idle o I a q H Hs Hc) as [x Hx]. exists x. unfold o'. cbn [enter_session ov_tasks].
    rewrite lookup_insert_ne; [done|]. intros <-. congruence.
  - intros a q Ha [Hh Hne%not_elem_of_singleton]%elem_of_difference.
    destruct (Hpeer _ _ Ha) as [[_ H]|[-> _]]; [by apply (oi_hidden o I a q)|done].
  - intros a h [(_ & _ & [=])|[_ H]]%Htask. destruct (oi_alloc o I a h H) as (H1 & H2 & H3).
    split; [exact H1|]. split.
    + intros q [[_ Hq]|(-> & _ & ->)]%Hpeer; [by apply H2|].
      pose proof (H1 ps Hps). pose proof (H2 p Hp). lia.
    + intros x l [(_ & _ & [=])|[_ Hx]]%Htask. by apply (H3 x).
Qed.

(** What the end of a handler changes. *)
Section finish.
Context (o : Overlay) (addr : string) (g l : Z) (Ht : ov_tasks o !! g = Some (addr, Closing l)).
Abbreviation ended := (end_session o addr g l).

Lemma end_running a x : running ended a x ↔ running o a x.
Proof.
  unfold running. cbn [end_session ov_tasks]. destruct (decide (x = g)) as [->|Hx].
  - rewrite lookup_delete_eq, Ht. naive_solver.
  - by rewrite lookup_delete_ne.
Qed.
Lemma end_task x a ph : ov_tasks ended !! x = Some (a, ph) → x ≠ g ∧ ov_tasks o !! x = Some (a, ph).
Proof. cbn [end_session ov_tasks]. intros [? ?]%lookup_delete_Some. done. Qed.
(** The peer is disconnected if its generation is still the one handed over. *)
Definition ended_peer (p : Peer) : Peer :=
  if p_connection_generation p =? l then clear_peer_summary (with_state Disconnected p) else p.
Lemma end_peer p a : ov_peers o !! addr = Some p →
  ov_peers ended !! a = if decide (a = addr) then Some (ended_peer p) else ov_peers o !! a.
Proof.
  intros Hp. unfold ended_peer. cbn [end_session ov_peers]. unfold disconnect_if_generation. rewrite Hp.
  destruct (p_connection_generation p =? l); cbn [negb fst]; destruct (decide (a = addr)) as [->|Ha];
    rewrite ?lookup_insert_eq, ?lookup_insert_ne by done; done.
Qed.
Lemma ended_generation p : p_connection_generation (ended_peer p) = p_connection_generation p.
Proof. unfold ended_peer. by destruct (_ =? l). Qed.
Lemma ended_connected p : p_state (ended_peer p) = Connected → p_state p = Connected ∧ p_connection_generation p ≠ l.
Proof. unfold ended_peer. destruct (Z.eqb_spec (p_connection_generation p) l) as [E|E]; [done|by intros H]. Qed.
End finish.

Lemma end_session_ok o addr g l :
  overlay_ok o → ov_tasks o !! g = Some (addr, Closing l) → overlay_ok (end_session o addr g l).
Proof.
  intros I Ht. destruct (oi_task o I _ _ _ Ht) as [Hg [p Hp]].
  set (o' := end_session o addr g l). set (r := ov_registry o).
  pose proof (end_running o addr g l Ht) as Hrun. pose proof (end_task o addr g l) as Htask.
  pose proof (λ a, end_peer o addr g l p a Hp) as Hpeer. pose proof (ended_generation l p) as Hgen.
  pose proof (ended_connected l p) as Hst. set (p' := ended_peer l p) in *. fold o' in Hrun, Htask, Hpeer.
  split; cbn [end_session ov_registry]; fold r.
  - apply (oi_next o I).
  - intros a qs Ha. destruct (oi_active o I a qs Ha) as (H1 & H2 & H3). split; [done|]. split; [done|].
    intros x. by rewrite H3, Hrun.
  - intros a x ?%Hrun. by apply (oi_running o I a x).
  - intros x a ph [_ H]%Htask. destruct (oi_task o I x a ph H) as [? ?]. split; [done|].
    rewrite Hpeer. case_decide; eauto.
  - apply (oi_latest o I).
  - intros a x l' [_ H]%Htask. by apply (oi_closed o I a x l').
  - intros a x l' x' [_ H]%Htask ?%Hrun. by apply (oi_closing o I a x l' x').
  - intros a q. rewrite Hpeer. case_decide as Ha; [intros [= <-]; subst a; rewrite Hgen|];
      intros; eapply (oi_generation o I); eauto.
  - intros a q qs Hq Hs. assert (∃ q0, ov_peers o !! a = Some q0 ∧
      p_connection_generation q0 = p_connection_generation q) as (q0 & Hq0 & <-).
    { rewrite Hpeer in Hq. case_decide as Ha; [|eauto]. subst a. injection Hq as <-. eauto. }
    destruct (oi_newest o I a q0 qs Hq0 Hs) as [? Hor]. split; [done|].
    destruct Hor as [Hr|?]; [left|by right]. unfold o'. cbn [end_session ov_tasks].
    rewrite lookup_delete_ne; [done|]. intros E. rewrite <- E in Hr. congruence.
  - intros a q x. rewrite Hpeer. case_decide as Ha.
    + subst a. intros [= <-] [_ Hx]%Htask. destruct (oi_live o I _ _ _ Hp Hx) as [Hle Hs].
      rewrite Hgen. split; [done|]. intros Hh. specialize (Hs Hh). unfold p', ended_peer.
      destruct (Z.eqb_spec (p_connection_generation p) l) as [E|E]; [|done].
      pose proof (oi_closing o I addr g l x Ht (or_intror Hx)). lia.
    + intros Hq [_ Hx]%Htask. by apply (oi_live o I a q x).
  - intros a q. rewrite Hpeer. case_decide as Ha.
    + subst a. intros [= <-] Hs Hc. destruct (Hst Hc) as [Hc' Hne].
      destruct (oi_idle o I _ _ Hp Hs Hc') as [x Hx]. exists x. rewrite Hgen. unfold o'.
      cbn [end_session ov_tasks]. rewrite lookup_delete_ne; [done|]. intros <-. congruence.
    + intros Hq Hs Hc. destruct (oi_idle o I _ _ Hq Hs Hc) as [x Hx]. exists x. unfold o'.
      cbn [end_session ov_tasks]. rewrite lookup_delete_ne; [done|]. intros <-. congruence.
  - intros a q. rewrite Hpeer. case_decide as Ha; [|by apply (oi_hidden o I a)].
    subst a. intros [= <-] Hh Hc. destruct (Hst Hc) as [Hc' _]. by apply (oi_hidden o I addr p Hp Hh).
  - intros a h [_ H]%Htask. destruct (oi_alloc o I a h H) as (H1 & H2 & H3). split; [exact H1|]. split.
    + intros q. rewrite Hpeer. case_decide as Ha; [|by apply H2].
      subst a. intros [= <-]. rewrite Hgen. by apply H2.
    + intros x l' [_ Hx]%Htask. by apply (H3 x).
Qed.

Lemma quiet_ok o pm : overlay_ok o → quiet (ov_peers o) pm →
  overlay_ok (mkOverlay (ov_registry o) pm (ov_tasks o) (ov_hidden o)).
Proof.
  intros I Hq.
  assert (∀ a q, pm !! a = Some q →
    (∃ q0, ov_peers o !! a = Some q0 ∧ p_state q = p_state q0 ∧
       p_connection_generation q = p_connection_generation q0) ∨
    ov_peers o !! a = None ∧ p_state q = KnownOnly ∧ p_connection_generation q = 0) as Hback.
  { intros a q Hl. specialize (Hq a). destruct (ov_peers o !! a) as [q0|]; [left|right].
    - destruct Hq as (q1 & Hl' & ? & ?). exists q0. by simplify_eq.
    - destruct (Hq q Hl). done. }
  split; unfold running; cbn [ov_registry ov_peers ov_tasks ov_hidden]; try apply I.
  - intros g a ph H. destruct (oi_task o I g a ph H) as [? [q0 H0]]. split; [done|].
    specialize (Hq a). rewrite H0 in Hq. destruct Hq as (q1 & -> & _). eauto.
  - intros a q H. destruct (Hback a q H) as [(q0 & H0 & _ & ->)|(_ & _ & ->)].
    + by apply (oi_generation o I a).
    + pose proof (oi_next o I). lia.
  - intros a q qs H Hs. destruct (Hback a q H) as [(q0 & H0 & _ & ->)|(Hn & _ & _)].
    + by apply (oi_newest o I a).
    + exfalso. destruct (oi_active o I a qs Hs) as (Hne & _ & Hact).
      unfold live_gens in Hact. destruct (ps_active qs) as [|s ss]; [done|].
      destruct (proj1 (Hact (ss_generation s)) ltac:(by left)) as [Ht|Ht];
        apply (oi_task o I) in Ht as [_ [? ?]]; congruence.
  - intros a q g H Hg. destruct (Hback a q H) as [(q0 & H0 & -> & ->)|(Hn & _ & _)].
    + by apply (oi_live o I a q0 g).
    + apply (oi_task o I) in Hg as [_ [? ?]]. congruence.
  - intros a q H Hs Hc. destruct (Hback a q H) as [(q0 & H0 & E & ->)|(_ & E & _)].
    + apply (oi_idle o I a q0 H0 Hs). by rewrite <- E.
    + congruence.
  - intros a q H Hh. destruct (Hback a q H) as [(q0 & H0 & -> & _)|(_ & -> & _)]; [|done].
    by apply (oi_hidden o I a q0).
  - intros a h H. destruct (oi_alloc o I a h H) as (H1 & H2 & H3). split; [done|]. split; [|done].
    intros q Hl. destruct (Hback a q Hl) as [(q0 & H0 & _ & ->)|(Hn & _ & _)]; [by apply H2|].
    apply (oi_task o I) in H as [_ [? ?]]. congruence.
Qed.

(** A peer marked disconnected whatever its sessions. *)
Lemma hide_peer_ok o addr : overlay_ok o → overlay_ok (hide_peer o addr).
Proof.
  intros I.
  assert (∀ a q, ov_peers (hide_peer o addr) !! a = Some q → ∃ q0, ov_peers o !! a = Some q0 ∧
    p_connection_generation q = p_connection_generation q0 ∧
    (a = addr ∧ p_state q = Disconnected ∨ a ≠ addr ∧ p_state q = p_state q0)) as Hback.
  { intros a q. cbn [hide_peer ov_peers]. unfold set_state. destruct (decide (a = addr)) as [->|Ha].
    - rewrite lookup_alter_eq. destruct (ov_peers o !! addr) as [q0|]; [|done]. intros [= <-].
      exists q0. split; [done|]. split; [done|]. by left.
    - rewrite lookup_alter_ne by done. intros H. exists q. split; [done|]. split; [done|]. by right. }
  split; unfold running; cbn [hide_peer ov_registry ov_tasks ov_hidden]; try apply I.
  - intros g a ph H. destruct (oi_task o I g a ph H) as [? [q0 H0]]. split; [done|].
    cbn [hide_peer ov_peers]. unfold set_state. destruct (decide (a = addr)) as [->|Ha].
    + rewrite lookup_alter_eq, H0. eauto.
    + rewrite lookup_alter_ne by done. eauto.
  - intros a q (q0 & H0 & -> & _)%Hback. by apply (oi_generation o I a).
  - intros a q qs (q0 & H0 & -> & _)%Hback Hs. by apply (oi_newest o I a).
  - intros a q g (q0 & H0 & -> & Hq)%Hback Hg. destruct (oi_live o I a q0 g H0 Hg) as [? Hl].
    split; [done|]. rewrite not_elem_of_union, not_elem_of_singleton. intros [Hh Hne].
    destruct Hq as [[? _]|[_ ->]]; [done|by apply Hl].
  - intros a q (q0 & H0 & -> & Hq)%Hback Hs Hc. destruct Hq as [[_ E]|[_ E]]; [congruence|].
    apply (oi_idle o I a q0 H0 Hs). congruence.
  - intros a q (q0 & H0 & _ & Hq)%Hback Hh. destruct Hq as [[_ ->]|[Hne ->]]; [done|].
    apply elem_of_union in Hh as [Hh|Hh%elem_of_singleton]; [by apply (oi_hidden o I a q0)|done].
  - intros a h H. destruct (oi_alloc o I a h H) as (H1 & H2 & H3). split; [done|]. split; [|done].
    intros q (q0 & H0 & -> & _)%Hback. by apply H2.
Qed.

(** The generations left when [g] is unregistered. *)
Lemma unregister_active ps g : g ∈ live_gens ps →
  let active := List.filter (λ s, negb (ss_generation s =? g)) (ps_active ps) in
  map ss_generation active = filter (λ x, x ≠ g) (live_gens ps) ∧ length active ≠ length (ps_active ps).
Proof.
  intros Hin active. assert (map ss_generation active = filter (λ x, x ≠ g) (live_gens ps)) as Hfil by apply live_gens_filter.
  split; [done|]. rewrite <- (length_map ss_generation active), Hfil, <- (length_map ss_generation (ps_active ps)).
  change (map ss_generation (ps_active ps)) with (live_gens ps). intros E.
  apply list_elem_of_split in Hin as (l1 & l2 & El). rewrite El in E.
  rewrite filter_app, filter_cons_False, !length_app in E by tauto. cbn [length] in E.
  pose proof (length_filter (λ x, x ≠ g) l1). pose proof (length_filter (λ x, x ≠ g) l2). lia.
Qed.

(** The last session of a peer leaves: its entry goes, and the newest
    generation is handed to the end of the session. *)
Lemma leave_last_ok o addr g ps p :
  overlay_ok o → ov_tasks o !! g = Some (addr, Live) → sessions (ov_registry o) !! addr = Some ps →
  ov_peers o !! addr = Some p → (∀ x, running o addr x → x = g) →
  overlay_ok (mkOverlay (mkRegistry (next_generation (ov_registry o)) (delete addr (sessions (ov_registry o))))
    (ov_peers o) (<[g := (addr, Closing (ps_latest_generation ps))]> (ov_tasks o)) (ov_hidden o)).
Proof.
  intros I Ht Hps Hp Honly. destruct (oi_task o I _ _ _ Ht) as [Hg _].
  destruct (oi_latest o I _ _ Hps) as [Hln Hlm]. destruct (oi_active o I _ _ Hps) as (_ & _ & Hact).
  destruct (oi_newest o I _ _ _ Hp Hps) as [Hpl Hnew]. destruct (oi_live o I _ _ _ Hp Ht) as [Hgp Hc].
  assert (p_connection_generation p = ps_latest_generation ps) as Heq.
  { destruct Hnew as [Hr|?]; [|done]. pose proof (Honly _ (or_introl Hr)) as E. rewrite E in Hr. congruence. }
  set (o' := mkOverlay _ _ _ _).
  assert (∀ a x, running o' a x ↔ running o a x ∧ a ≠ addr) as Hrun.
  { intros a x. unfold running, o'. cbn [ov_tasks]. destruct (decide (x = g)) as [->|Hx].
    - rewrite lookup_insert_eq, Ht. naive_solver.
    - rewrite lookup_insert_ne by done. split; [|by intros [? _]]. intros Hr. split; [done|].
      intros ->. by apply Hx, Honly. }
  assert (∀ x a ph, ov_tasks o' !! x = Some (a, ph) →
    x = g ∧ a = addr ∧ ph = Closing (ps_latest_generation ps) ∨ x ≠ g ∧ ov_tasks o !! x = Some (a, ph)) as Htask.
  { intros x a ph. unfold o'. cbn [ov_tasks].
    intros [[<- [= <- <-]]|[? ?]]%lookup_insert_Some; [by left|right; by split]. }
  assert (∀ a qs, sessions (ov_registry o') !! a = Some qs → a ≠ addr ∧ sessions (ov_registry o) !! a = Some qs) as Hses.
  { intros a qs. unfold o'. cbn [ov_registry sessions]. intros [? ?]%lookup_delete_Some. done. }
  assert (∀ a x ph, a ≠ addr → ov_tasks o !! x = Some (a, ph) → ov_tasks o' !! x = Some (a, ph)) as Hkeep.
  { intros a x ph Ha Hx. unfold o'. cbn [ov_tasks]. rewrite lookup_insert_ne; [done|]. intros <-. congruence. }
  split; unfold o'; cbn [ov_registry next_generation ov_peers ov_hidden]; fold o'.
  + apply (oi_next o I).
  + intros a qs [Ha Hs]%Hses. destruct (oi_active o I a qs Hs) as (H1 & H2 & H3). split; [done|]. split; [done|].
    intros x. rewrite H3, Hrun. tauto.
  + intros a x [Hr Ha]%Hrun. cbn [sessions]. rewrite lookup_delete_ne by done. by apply (oi_running o I a x).
  + intros x a ph [(-> & -> & _)|[_ H]]%Htask; [by apply (oi_task o I g addr Live)|by apply (oi_task o I x a ph)].
  + intros a qs [_ Hs]%Hses. by apply (oi_latest o I a qs).
  + intros a x l [(-> & -> & [= ->])|[_ H]]%Htask; [done|by apply (oi_closed o I a x l)].
  + intros a x l x' [(_ & -> & _)|[_ H]]%Htask [Hr Ha]%Hrun; [done|by apply (oi_closing o I a x l x')].
  + exact (oi_generation o I).
  + intros a q qs Hq [Ha Hs]%Hses. destruct (oi_newest o I a q qs Hq Hs) as [? Hor]. split; [done|].
    destruct Hor as [Hr|?]; [left; by apply Hkeep|by right].
  + intros a q x Hq [(_ & _ & [=])|[_ Hx]]%Htask. by apply (oi_live o I a q x).
  + intros a q Hq. cbn [sessions]. destruct (decide (a = addr)) as [->|Ha].
    * intros _ _. exists g. unfold o'. cbn [ov_tasks]. rewrite lookup_insert_eq. congruence.
    * rewrite lookup_delete_ne by done. intros Hs Hcq.
      destruct (oi_idle o I a q Hq Hs Hcq) as [x Hx]. exists x. by apply Hkeep.
  + exact (oi_hidden o I).
  + intros a h [(_ & _ & [=])|[_ H]]%Htask. destruct (oi_alloc o I a h H) as (H1 & H2 & H3).
    split; [intros qs [_ Hs]%Hses; by apply H1|]. split; [done|].
    intros x l [(-> & -> & [= ->])|[_ Hx]]%Htask; [by apply H1|by apply (H3 x)].
Qed.

(** A session leaves while others of its peer remain. *)
Lemma leave_other_ok o addr g ps p active :
  overlay_ok o → ov_tasks o !! g = Some (addr, Live) → sessions (ov_registry o) !! addr = Some ps →
  ov_peers o !! addr = Some p → map ss_generation active = filter (λ x, x ≠ g) (live_gens ps) → active ≠ [] →
  overlay_ok (mkOverlay (mkRegistry (next_generation (ov_registry o))
      (<[addr := mkSessions (ps_latest_generation ps) active]> (sessions (ov_registry o))))
    (ov_peers o) (delete g (ov_tasks o)) (ov_hidden o)).
Proof.
  intros I Ht Hps Hp Hfil Hnz. destruct (oi_active o I _ _ Hps) as (Hne & Hnd & Hact).
  destruct (oi_latest o I _ _ Hps) as [Hln Hlm]. destruct (oi_newest o I _ _ _ Hp Hps) as [Hpl Hnew].
  assert (∀ x, x ∈ map ss_generation active ↔ x ≠ g ∧ running o addr x) as Hrest.
  { intros x. by rewrite Hfil, list_elem_of_filter, Hact. }
  set (o' := mkOverlay _ _ _ _).
  assert (∀ x, ov_tasks o' !! x = if decide (x = g) then None else ov_tasks o !! x) as Htask.
  { intros x. unfold o'. cbn [ov_tasks]. case_decide as E; [subst; apply lookup_delete_eq|by apply lookup_delete_ne]. }
  assert (∀ a x, running o' a x ↔ running o a x ∧ x ≠ g) as Hrun.
  { intros a x. unfold running. rewrite Htask. case_decide; naive_solver. }
  assert (∀ a qs, sessions (ov_registry o') !! a = Some qs → a ≠ addr ∧ sessions (ov_registry o) !! a = Some qs ∨
    a = addr ∧ ps_latest_generation qs = ps_latest_generation ps ∧ ps_active qs = active) as Hses.
  { intros a qs. unfold o'. cbn [ov_registry sessions].
    intros [[<- <-]|[? ?]]%lookup_insert_Some; [by right|by left]. }
  split; unfold o'; cbn [ov_registry next_generation ov_peers ov_hidden]; fold o'.
  + apply (oi_next o I).
  + intros a qs [[Ha Hs]|(-> & _ & Ea)]%Hses.
    * destruct (oi_active o I a qs Hs) as (H1 & H2 & H3). split; [done|]. split; [done|].
      intros x. rewrite H3, Hrun. split; [|tauto]. intros Hr. split; [done|]. intros ->.
      destruct Hr as [E|E]; congruence.
    * unfold live_gens. rewrite Ea. split; [by intros ->|]. split; [rewrite Hfil; by apply NoDup_filter|].
      intros x. rewrite Hrest, Hrun. tauto.
  + intros a x [Hr Hx]%Hrun. cbn [sessions]. destruct (decide (a = addr)) as [->|Ha].
    * rewrite lookup_insert_eq. eauto.
    * rewrite lookup_insert_ne by done. by apply (oi_running o I a x).
  + intros x a ph. rewrite Htask. case_decide; [done|]. apply (oi_task o I x a ph).
  + intros a qs [[Ha Hs]|(-> & El & Ea)]%Hses; [by apply (oi_latest o I a qs)|].
    rewrite El. split; [done|]. unfold live_gens. rewrite Ea. intros x [_ Hx]%Hrest. apply Hlm. by apply Hact.
  + intros a x l. rewrite Htask. case_decide; [done|]. apply (oi_closed o I a x l).
  + intros a x l x'. rewrite Htask. case_decide; [done|]. intros Hx [Hr _]%Hrun. by apply (oi_closing o I a x l x').
  + exact (oi_generation o I).
  + intros a q qs Hq [[Ha Hs]|(-> & El & Ea)]%Hses; rewrite Htask.
    * destruct (oi_newest o I a q qs Hq Hs) as [? Hor]. split; [done|].
      destruct Hor as [Hr|?]; [left|by right]. case_decide as E; [|done]. rewrite E in Hr. congruence.
    * assert (q = p) as -> by congruence. rewrite El. split; [done|].
      destruct Hnew as [Hr|?]; [left|by right]. case_decide as E; [|done]. rewrite E in Hr. congruence.
  + intros a q x Hq. rewrite Htask. case_decide; [done|]. by apply (oi_live o I a q x).
  + intros a q Hq. cbn [sessions]. intros [Hs Ha]%lookup_insert_None Hcq.
    destruct (oi_idle o I a q Hq Hs Hcq) as [x Hx]. exists x. rewrite Htask.
    case_decide as E; [|done]. rewrite E in Hx. congruence.
  + exact (oi_hidden o I).
  + intros a h. rewrite Htask. case_decide; [done|]. intros Hh.
    destruct (oi_alloc o I a h Hh) as (H1 & H2 & H3). split; [|split; [done|]].
    * intros qs [[_ Hs]|(-> & -> & _)]%Hses; [by apply H1|by apply H1].
    * intros x l. rewrite Htask. case_decide; [done|]. apply H3.
Qed.

Lemma leave_session_ok o addr g :
  overlay_ok o → ov_tasks o !! g = Some (addr, Live) → overlay_ok (leave_session o addr g).
Proof.
  intros I Ht. destruct (oi_task o I _ _ _ Ht) as [_ [p Hp]].
  destruct (oi_running o I addr g (or_intror Ht)) as [ps Hps].
  destruct (oi_active o I _ _ Hps) as (_ & _ & Hact).
  destruct (unregister_active ps g) as [Hfil Hlen]; [apply Hact; by right|].
  unfold leave_session, unregister. rewrite Hps. cbv zeta. rewrite (proj2 (Nat.eqb_neq _ _) Hlen). cbn [orb].
  set (active := List.filter _ _) in *.
  destruct (Nat.eqb_spec (length active) 0) as [Hz|Hnz]; cbn [negb].
  - apply (leave_last_ok o addr g ps p); [done..|]. intros x Hx. destruct (decide (x = g)); [done|].
    apply length_zero_iff_nil in Hz. assert (x ∈ map ss_generation active) as Hin
      by (rewrite Hfil, list_elem_of_filter, Hact; done). rewrite Hz in Hin. by apply elem_of_nil in Hin.
  - apply (leave_other_ok o addr g ps p active); [done..|]. by intros ->.
Qed.

Lemma session_step_ok o o' :
  overlay_ok o ∧ one_registration o → orderly_step o o' → overlay_ok o' ∧ one_registration o'.
Proof.
  intros [I Hone] [Hs Hone']. split; [|done]. clear Hone'. revert I Hone.
  destruct Hs as [o1 addr Hp Hn|o1 addr g Ht|o1 addr g Ht|o1 addr g Ht|o1 addr g l Ht|o1 addr|o1 pm Hq];
    intros I Hone.
  - by apply allocate_session_ok.
  - by apply begin_session_ok.
  - by apply enter_session_ok.
  - by apply leave_session_ok.
  - by apply end_session_ok.
  - by apply hide_peer_ok.
  - by apply quiet_ok.
Qed.

Definition new_overlay : Overlay := mkOverlay new_registry new_peer_manager ∅ ∅.
Lemma new_overlay_ok : overlay_ok new_overlay.
Proof.
  split; unfold running, new_overlay, new_peer_manager;
    cbn [ov_registry ov_peers ov_tasks ov_hidden new_registry sessions next_generation]; [lia|..]; intros;
    repeat match goal with
    | H : _ ∨ _ |- _ => destruct H
    | H : _ !! _ = Some _ |- _ => rewrite lookup_empty in H; discriminate H
    end.
Qed.

(** ** Properties *)

(** C33: A peer is marked connected exactly while it has a live session and has
    not been marked disconnected on the side since.  Starting empty, however
    the steps of the connection handlers interleave (take a generation,
    register under it, mark connected, unregister, mark disconnected; several
    transports of one peer at a time, reconnections included), whenever a
    dialling task that cannot open a session, or a handler that refuses a
    handshake, marks a peer disconnected ([hide_peer], which looks at no
    session), and whatever other updates of the peer registry happen in between
    that touch neither connection states nor generations: whenever no handler
    of a peer is between two of its own steps, the peer is [Connected] if and
    only if the session registry holds a transport of it and no such mark has
    fallen on it since it was last marked connected; and a peer with a handler
    past its handshake is never shown disconnected by the end of another
    session.  This holds of the runs in which no two registrations of one peer
    overlap between the generation counter and the lock ([orderly_step]), and
    before the counter wraps;
    [overlapping_registrations_leave_peer_connected] shows that it fails
    otherwise. *)
Theorem connected_iff_session o a p :
  star orderly_step new_overlay o → ov_peers o !! a = Some p →
  (∀ g, ov_tasks o !! g = Some (a, Live) → a ∉ ov_hidden o → p_state p = Connected) ∧
  ((∀ g ph, ov_tasks o !! g = Some (a, ph) → ph = Live) →
   (p_state p = Connected ↔ is_Some (sessions (ov_registry o) !! a) ∧ a ∉ ov_hidden o)).
Proof.
  intros Hs Hp. assert (overlay_ok o ∧ one_registration o) as [I _].
  { revert Hs. apply (star_inv orderly_step (λ x, overlay_ok x ∧ one_registration x)).
    - intros x y. apply session_step_ok.
    - split; [apply new_overlay_ok|]. intros b g g' Hg. cbn in Hg. by rewrite lookup_empty in Hg. }
  split; [intros g Hg; by apply (oi_live o I a p g)|]. intros Hq. split.
  - intros Hc. split; [|intros Hh; by apply (oi_hidden o I a p)].
    destruct (sessions (ov_registry o) !! a) as [ps|] eqn:E; [eauto|].
    destruct (oi_idle o I a p Hp E Hc) as [g Hg]. by apply Hq in Hg.
  - intros [[ps Hps] Hh]. destruct (oi_active o I a ps Hps) as (Hne & _ & Hact).
    unfold live_gens in Hact. destruct (ps_active ps) as [|s l]; [done|].
    destruct (proj1 (Hact (ss_generation s)) ltac:(by left)) as [Ht|Ht].
    + by apply Hq in Ht.
    + by apply (oi_live o I a p _ Hp Ht).
Qed.

(** An outbound and an inbound session of one peer; the first one ends. *)
Definition toy_addr : string := "192.0.2.1:7072".
Definition toy_known : Overlay := mkOverlay new_registry (upsert new_peer_manager toy_addr true) ∅ ∅.
Definition open_session (o : Overlay) (g : Z) : Overlay :=
  enter_session (begin_session (allocate_session o toy_addr) toy_addr g) toy_addr g.
Definition toy_overlay : Overlay := leave_session (open_session (open_session toy_known 1) 2) toy_addr 1.

Lemma toy_known_step : session_step new_overlay toy_known.
Proof.
  apply (step_quiet new_overlay). intros b. cbn [new_overlay ov_peers]. unfold new_peer_manager.
  rewrite lookup_empty. unfold upsert. rewrite lookup_empty.
  intros p' [[_ <-]|[_ H]]%lookup_insert_Some; [done|]. by rewrite lookup_empty in H.
Qed.
(** The handlers of an overlay that only allocates among them. *)
Definition allocated_gens (o : Overlay) : list (Z * (string * phase)) :=
  List.filter (λ t, match t.2.2 with Allocated => true | _ => false end) (map_to_list (ov_tasks o)).
Lemma one_registration_small o : (length (allocated_gens o) ≤ 1)%nat → one_registration o.
Proof.
  intros H a g g' Hg Hg'.
  assert (∀ x, ov_tasks o !! x = Some (a, Allocated) → (x, (a, Allocated)) ∈ allocated_gens o) as Hin.
  { intros x Hx. unfold allocated_gens. rewrite list_elem_of_In, filter_In, <- list_elem_of_In.
    by split; [apply elem_of_map_to_list|]. }
  apply Hin in Hg, Hg'. destruct (allocated_gens o) as [|t [|? ?]]; [by apply elem_of_nil in Hg| |simpl in H; lia].
  apply list_elem_of_singleton in Hg, Hg'. congruence.
Qed.
Ltac orderly := apply one_registration_small; vm_compute; lia.

Lemma toy_overlay_reachable : star orderly_step new_overlay toy_overlay.
Proof.
  eapply star_step; [split; [exact toy_known_step|orderly]|].
  unfold toy_overlay, open_session.
  eapply star_step; [split; [apply (step_allocate _ toy_addr); [vm_compute; eauto|vm_compute; reflexivity]|orderly]|].
  eapply star_step; [split; [apply (step_begin _ toy_addr 1); vm_compute; reflexivity|orderly]|].
  eapply star_step; [split; [apply (step_enter _ toy_addr 1); vm_compute; reflexivity|orderly]|].
  eapply star_step; [split; [apply (step_allocate _ toy_addr); [vm_compute; eauto|vm_compute; reflexivity]|orderly]|].
  eapply star_step; [split; [apply (step_begin _ toy_addr 2); vm_compute; reflexivity|orderly]|].
  eapply star_step; [split; [apply (step_enter _ toy_addr 2); vm_compute; reflexivity|orderly]|].
  eapply star_step; [split; [apply (step_leave _ toy_addr 1); vm_compute; reflexivity|orderly]|].
  apply star_refl.
Qed.

Lemma connected_iff_session_witness :
  ∃ p, ov_peers toy_overlay !! toy_addr = Some p ∧ p_state p = Connected ∧
    is_Some (sessions (ov_registry toy_overlay) !! toy_addr).
Proof.
  destruct (ov_peers toy_overlay !! toy_addr) as [p|] eqn:E; [|vm_compute in E; discriminate E].
  exists p. destruct (connected_iff_session toy_overlay toy_addr p toy_overlay_reachable E)
    as [H1 _].
  assert (ov_tasks toy_overlay !! 2 = Some (toy_addr, Live)) as H2 by (vm_compute; reflexivity).
  split; [reflexivity|]. split; [apply (H1 2 H2)|]; [|vm_compute; eauto].
  by apply (bool_decide_unpack _); vm_compute.
Defined.

(** The dialling task marks its peer disconnected whenever it cannot connect
    ([set_state(.., Disconnected)] of [seed_peer_loop]), without looking at
    other sessions: a peer whose inbound session is live is then shown, and
    counted, as disconnected. *)
Theorem dial_failure_hides_live_session :
  let o := hide_peer toy_overlay toy_addr in
  ov_tasks o !! 2 = Some (toy_addr, Live) ∧ is_Some (sessions (ov_registry o) !! toy_addr) ∧
  connected_count (ov_peers toy_overlay) = 1%nat ∧ connected_count (ov_peers o) = 0%nat.
Proof. repeat split; vm_compute; eauto. Qed.

(** Two registrations of one peer that overlap: the first takes generation 1,
    the second takes 2, registers and is marked connected; then the first
    registers.  The registry now holds 1 as the newest generation and the peer
    registry 2, so that when both sessions have ended the peer is still
    [Connected]. *)
Definition toy_overlap : Overlay :=
  let o := allocate_session (allocate_session toy_known toy_addr) toy_addr in
  let o := enter_session (begin_session o toy_addr 2) toy_addr 2 in
  enter_session (begin_session o toy_addr 1) toy_addr 1.
Definition toy_stale : Overlay :=
  end_session (leave_session (leave_session toy_overlap toy_addr 2) toy_addr 1) toy_addr 1 1.

Theorem overlapping_registrations_leave_peer_connected :
  star session_step new_overlay toy_stale ∧ ov_tasks toy_stale = ∅ ∧
  sessions (ov_registry toy_stale) !! toy_addr = None ∧ ov_hidden toy_stale = ∅ ∧
  p_state <$> ov_peers toy_stale !! toy_addr = Some Connected.
Proof.
  split; [|repeat split; vm_compute; reflexivity].
  eapply star_step; [exact toy_known_step|]. unfold toy_stale, toy_overlap.
  eapply star_step; [apply (step_allocate _ toy_addr); [vm_compute; eauto|vm_compute; reflexivity]|].
  eapply star_step; [apply (step_allocate _ toy_addr); [vm_compute; eauto|vm_compute; reflexivity]|].
  eapply star_step; [apply (step_begin _ toy_addr 2); vm_compute; reflexivity|].
  eapply star_step; [apply (step_enter _ toy_addr 2); vm_compute; reflexivity|].
  eapply star_step; [apply (step_begin _ toy_addr 1); vm_compute; reflexivity|].
  eapply star_step; [apply (step_enter _ toy_addr 1); vm_compute; reflexivity|].
  eapply star_step; [apply (step_leave _ toy_addr 2); vm_compute; reflexivity|].
  eapply star_step; [apply (step_leave _ toy_addr 1); vm_compute; reflexivity|].
  eapply star_step; [apply (step_end _ toy_addr 1 1); vm_compute; reflexivity|].
  apply star_refl.
Qed.
