(* ===== verification/Recovery.v ===== *)
(** * Recovery state ([src/node/recovery.rs])

    Whether the node is recovering towards a branch a peer advertises as
    heavier.  Mining pauses while a claim is present.  The lock makes each
    method one step; [now] is the instant it reads. *)
From S2P Require Import Prelude Protocol.

Inductive RecoveryMode := Normal | HigherWorkRecovery | RecoveryLimited | HighRiskFork.
Definition mode_as_str (m : RecoveryMode) : string :=
  match m with
  | Normal => "normal"
  | HigherWorkRecovery => "higher_work_recovery"
  | RecoveryLimited => "recovery_limited"
  | HighRiskFork => "high_risk_fork"
  end.

Record RecoveryStatusSnapshot := mkRecoverySnapshot {
  rs_state : string;
  rs_peer_addr : option string;
  rs_local_height : option Z;
  rs_local_work : option Z;
  rs_local_tip_hash : option string;
  rs_remote_height : option Z;
  rs_remote_work : option Z;
  rs_remote_tip_hash : option string;
  rs_reason : option string
}.

Record RecoveryClaim := mkClaim {
  cl_mode : RecoveryMode;
  cl_peer_addr : string;
  cl_local_summary : ChainSummary;
  cl_remote_summary : ChainSummary;
  cl_reason : string;
  cl_updated_at : Z
}.
Abbreviation RecoveryState := (option RecoveryClaim).
Definition new_recovery : RecoveryState := None.

Definition begin_higher_work_recovery (now : Z) (peer_addr : string)
    (local_summary remote_summary : ChainSummary) (_ : RecoveryState) : RecoveryState :=
  Some (mkClaim HigherWorkRecovery peer_addr local_summary remote_summary
    "peer advertised strictly greater cumulative work" now).

Definition with_mode (now : Z) (mode : RecoveryMode) (reason : string) (c : RecoveryClaim) : RecoveryClaim :=
  mkClaim mode (cl_peer_addr c) (cl_local_summary c) (cl_remote_summary c) reason now.
Definition mark_limited (now : Z) (reason : string) (s : RecoveryState) : RecoveryState :=
  with_mode now RecoveryLimited reason <$> s.
Definition mark_high_risk (now : Z) (reason : string) (s : RecoveryState) : RecoveryState :=
  with_mode now HighRiskFork reason <$> s.
Definition clear (_ : RecoveryState) : RecoveryState := None.

Definition clear_if_local_satisfies_claim (local_summary : ChainSummary) (s : RecoveryState)
    : RecoveryState * bool :=
  let claim_satisfied :=
    match s with
    | Some claim => sm_cumulative_work (cl_remote_summary claim) <=? sm_cumulative_work local_summary
    | None => false
    end in
  (if claim_satisfied then None else s, claim_satisfied).

Definition should_pause_mining (s : RecoveryState) : bool := bool_decide (is_Some s).
Definition recovery_mode (s : RecoveryState) : RecoveryMode :=
  match s with Some claim => cl_mode claim | None => Normal end.
Definition recovery_snapshot (s : RecoveryState) : RecoveryStatusSnapshot :=
  match s with
  | Some claim =>
      mkRecoverySnapshot (mode_as_str (cl_mode claim)) (Some (cl_peer_addr claim))
        (Some (sm_height (cl_local_summary claim))) (Some (sm_cumulative_work (cl_local_summary claim)))
        (sm_tip_hash (cl_local_summary claim)) (Some (sm_height (cl_remote_summary claim)))
        (Some (sm_cumulative_work (cl_remote_summary claim))) (sm_tip_hash (cl_remote_summary claim))
        (Some (cl_reason claim))
  | None => mkRecoverySnapshot (mode_as_str Normal) None None None None None None None None
  end.
