(* ===== verification/World.v ===== *)
(** * A task of the node and what it shares

    The state the asynchronous tasks share through locks and channels, and the
    view of one task: the shared state, and the stream of the peer it talks
    to.  A task's code is a computation in [act].  Every lock section is one
    step; before each of them, other tasks may have changed the shared state,
    as the task's list of interferences says. *)
From S2P Require Import Prelude Crypto Constants Transaction Block Genesis VisionX Sled ChainState Accept Manager Admission Pool Protocol Peers Sessions Recovery.

(** What reading from a peer yields: a message, a read error, or nothing for
    the duration of a timeout. *)
Inductive Incoming :=
| Received (m : P2PMessage)
| ReadError
| Silence.

(** The errors of the peer tasks, one constructor per message text. *)
Inductive NetError :=
| BadPeerAddress (peer_addr : string)
| ConnectFailed
| SendFailed
| ReadFailed
| TimedOut (peer_addr : string)
| PeerRejected (context reason : string)
| UnexpectedMessage (context label : string)
| HandshakeRejected (r : HandshakeResult)
| MessageLimit (peer_addr : string)
| NoTipHash (height : Z)
| SyncLoop (hash : string)
| WrongBlock (expected actual : string)
| ImportStoredOrphan (hash : string)
| ImportRejected (reason : RejectReason)
| MalformedAnnouncement
| UnknownBlock (hash : string)
| UnrequestedBlock
| ImporterUnavailable.

Section world.
Context {C : Crypto} {TC : TxCodec} {SL : Sled} {SC : StoreCodec}.

(** A block fetched from a peer, waiting for the importer. *)
Record InboundBlock := mkInbound { ib_block : Block; ib_peer_addr : string }.

Record Shared := mkShared {
  sh_node : Node;
  sh_peers : PeerManager;
  sh_pool : Pool;
  sh_recovery : RecoveryState;
  sh_registry : PeerSessionRegistry;
  sh_miner : option MinerManager;
  sh_inbound : option (list InboundBlock);   (* [None]: the importer is gone *)
  sh_discovered : option (list string);      (* the peer discovery queue *)
  sh_instants : nat                          (* reads of the monotonic clock *)
}.
Definition sh_chain (s : Shared) : ChainState := n_chain (sh_node s).

Definition set_node (x : Node) (s : Shared) : Shared :=
  mkShared x (sh_peers s) (sh_pool s) (sh_recovery s) (sh_registry s) (sh_miner s)
    (sh_inbound s) (sh_discovered s) (sh_instants s).
Definition set_peers (x : PeerManager) (s : Shared) : Shared :=
  mkShared (sh_node s) x (sh_pool s) (sh_recovery s) (sh_registry s) (sh_miner s)
    (sh_inbound s) (sh_discovered s) (sh_instants s).
Definition set_pool (x : Pool) (s : Shared) : Shared :=
  mkShared (sh_node s) (sh_peers s) x (sh_recovery s) (sh_registry s) (sh_miner s)
    (sh_inbound s) (sh_discovered s) (sh_instants s).
Definition set_recovery (x : RecoveryState) (s : Shared) : Shared :=
  mkShared (sh_node s) (sh_peers s) (sh_pool s) x (sh_registry s) (sh_miner s)
    (sh_inbound s) (sh_discovered s) (sh_instants s).
Definition set_registry (x : PeerSessionRegistry) (s : Shared) : Shared :=
  mkShared (sh_node s) (sh_peers s) (sh_pool s) (sh_recovery s) x (sh_miner s)
    (sh_inbound s) (sh_discovered s) (sh_instants s).
Definition set_miner (x : option MinerManager) (s : Shared) : Shared :=
  mkShared (sh_node s) (sh_peers s) (sh_pool s) (sh_recovery s) (sh_registry s) x
    (sh_inbound s) (sh_discovered s) (sh_instants s).
Definition set_inbound (x : option (list InboundBlock)) (s : Shared) : Shared :=
  mkShared (sh_node s) (sh_peers s) (sh_pool s) (sh_recovery s) (sh_registry s) (sh_miner s)
    x (sh_discovered s) (sh_instants s).
Definition set_discovered (x : option (list string)) (s : Shared) : Shared :=
  mkShared (sh_node s) (sh_peers s) (sh_pool s) (sh_recovery s) (sh_registry s) (sh_miner s)
    (sh_inbound s) x (sh_instants s).
Definition tick (s : Shared) : Shared :=
  mkShared (sh_node s) (sh_peers s) (sh_pool s) (sh_recovery s) (sh_registry s) (sh_miner s)
    (sh_inbound s) (sh_discovered s) (S (sh_instants s)).

Record World := mkWorld {
  w_shared : Shared;
  w_inbox : list Incoming;           (* what the peer will say; then its stream ends *)
  w_outbox : list P2PMessage;        (* what was sent to it *)
  w_sends : list bool;               (* whether the next writes succeed; then all do *)
  w_others : list (Shared → Shared)  (* what other tasks do before our next lock sections *)
}.
Definition set_stream (inbox : list Incoming) (outbox : list P2PMessage) (sends : list bool) (w : World) : World :=
  mkWorld (w_shared w) inbox outbox sends (w_others w).

(** Computations of a task: they may panic, or return an error. *)
Definition act (A : Type) : Type := World → run (World * result NetError A).
#[export] Instance act_ret : MRet act := λ A a w, Done (w, Ok a).
#[export] Instance act_bind : MBind act := λ A B f m w,
  match m w with
  | Done (w, Ok a) => f a w
  | Done (w, Err e) => Done (w, Err e)
  | Panic => Panic
  | NoFuel => NoFuel
  end.
Definition fail {A} (e : NetError) : act A := λ w, Done (w, Err e).
(** The result of a computation as a value. *)
Definition attempt {A} (m : act A) : act (result NetError A) := λ w,
  match m w with Done (w, r) => Done (w, Ok r) | Panic => Panic | NoFuel => NoFuel end.

(** One lock section. *)
Definition locked {A} (f : Shared → run (Shared * A)) : act A := λ w,
  let '(s, others) := match w_others w with o :: os => (o (w_shared w), os) | [] => (w_shared w, []) end in
  match f s with
  | Done (s, a) => Done (mkWorld s (w_inbox w) (w_outbox w) (w_sends w) others, Ok a)
  | Panic => Panic
  | NoFuel => NoFuel
  end.
Definition read_shared {A} (f : Shared → A) : act A := locked (λ s, Done (s, f s)).
Definition update_shared (f : Shared → Shared) : act () := locked (λ s, Done (f s, ())).

(** [send_message] and [recv_message] on the peer's stream. *)
Definition send_message (m : P2PMessage) : act () := λ w,
  match w_sends w with
  | false :: sends => Done (set_stream (w_inbox w) (w_outbox w) sends w, Err SendFailed)
  | true :: sends => Done (set_stream (w_inbox w) (w_outbox w ++ [m]) sends w, Ok ())
  | [] => Done (set_stream (w_inbox w) (w_outbox w ++ [m]) [] w, Ok ())
  end.
(** Without a timeout silence is waited out. *)
Fixpoint next_incoming (l : list Incoming) : option P2PMessage * list Incoming :=
  match l with
  | Received m :: l => (Some m, l)
  | Silence :: l => next_incoming l
  | ReadError :: l => (None, l)
  | [] => (None, [])
  end.
Definition recv_message : act P2PMessage := λ w,
  let '(m, l) := next_incoming (w_inbox w) in
  Done (set_stream l (w_outbox w) (w_sends w) w, match m with Some m => Ok m | None => Err ReadFailed end).
(** [tokio::time::timeout(.., recv_message(..))]. *)
Definition recv_timeout (peer_addr : string) : act P2PMessage := λ w,
  match w_inbox w with
  | Received m :: l => Done (set_stream l (w_outbox w) (w_sends w) w, Ok m)
  | Silence :: l => Done (set_stream l (w_outbox w) (w_sends w) w, Err (TimedOut peer_addr))
  | ReadError :: l => Done (set_stream l (w_outbox w) (w_sends w) w, Err ReadFailed)
  | [] => Done (w, Err ReadFailed)
  end.

(** The chain summary, read under the lock. *)
Definition local_summary : act ChainSummary := read_shared (λ s, from_chain (sh_chain s)).
(** Answering the requests every session answers. *)
Definition answer_height : act () := summary ← local_summary; send_message (Height summary).
Definition answer_ping (timestamp : Z) : act () := send_message (Pong timestamp).

(** A method of the peer registry that reads the clock. *)
Definition with_peers (instant : nat → Z) (f : Z → PeerManager → PeerManager) : act () :=
  update_shared (λ s, tick (set_peers (f (instant (sh_instants s)) (sh_peers s)) s)).

(** A step of a computation whose outcome is known. *)
Lemma act_bind_Done {A B} (m : act A) (f : A → act B) w w1 a :
  m w = Done (w1, Ok a) → (m ≫= f) w = f a w1.
Proof. intros E. unfold mbind, act_bind. by rewrite E. Qed.
End world.

(** Run the next step by evaluation. *)
Ltac act_step := erewrite act_bind_Done; [|reflexivity];
  cbn [w_shared w_inbox w_outbox w_sends w_others set_stream].
