(* ===== verification/Connection.v ===== *)
(** * Peer connections ([src/p2p/connection.rs])

    Wire framing, the connection manager, and the handler of an inbound
    connection: the handshake, the dispatch of messages, and the clean-up of
    the session.  The registry of sessions is in [Sessions]. *)
From S2P Require Import Prelude Crypto Constants Transaction Block Genesis VisionX Sled ChainState Accept Manager Admission Pool Net Protocol Peers Sessions Recovery World.

Definition MAX_MESSAGE_BYTES : Z := 16 * 1024 * 1024.
Definition MAX_SHARED_PEERS : nat := 32.
Definition DISCOVERY_CAPACITY : nat := 128.
Definition INBOUND_SUMMARY_REFRESH_SOURCE : string := "inbound handshake refresh".
Definition INBOUND_SUMMARY_REFRESH_MAX_MESSAGES : nat := 8.

(** ** Wire framing

    [bincode] of messages is third-party. *)
Class WireCodec := {
  bincode_msg : P2PMessage → list byte;
  unbincode_msg : list byte → option P2PMessage
}.

Inductive FrameError := EndOfStream | OversizedMessage (len : Z) | BadPayload.

Section framing.
Context `{WC : WireCodec}.

(** [payload.len() as u32] truncates. *)
Definition encode_frame (msg : P2PMessage) : list byte :=
  let payload := bincode_msg msg in
  be_bytes 4 (Z.of_nat (length payload) mod 2 ^ 32) ++ payload.

(** [read_exact]: so many bytes of the stream, or an error. *)
Definition read_exact (n : nat) (stream : list byte) : result FrameError (list byte * list byte) :=
  if (length stream <? n)%nat then Err EndOfStream else Ok (take n stream, drop n stream).
Definition decode_frame (stream : list byte) : result FrameError (P2PMessage * list byte) :=
  '(len_buf, stream) ← read_exact 4 stream;
  let len := be_val len_buf in
  if MAX_MESSAGE_BYTES <? len then Err (OversizedMessage len)
  else
    '(buf, stream) ← read_exact (Z.to_nat len) stream;
    msg ← ok_or BadPayload (unbincode_msg buf);
    Ok (msg, stream).
End framing.

(** ** The connection manager *)
Record P2PConnectionManager := mkConnManager {
  cm_listen_addr : SocketAddr;
  cm_local_node_nonce : Z;
  cm_advertised_ip : option string;
  cm_advertised_port : option Z;
  cm_allow_private : bool;
  cm_has_importer : bool;
  cm_has_discovery : bool
}.

Section connection.
Context {C : Crypto} {TC : TxCodec} {SL : Sled} {SC : StoreCodec}.
Context (instant : nat → Z).

(** The process id, the wall clock in nanoseconds and the process-wide counter
    are inputs. *)
Definition derive_local_node_nonce (listen_addr : SocketAddr) (pid nanos counter : Z) : Z :=
  let input := string_bytes (show_socket listen_addr) ++ string_bytes GENESIS_HASH ++
    string_bytes NETWORK_ID ++ be_bytes 4 pid ++ be_bytes 16 nanos ++ be_bytes 8 counter in
  be_val (take 8 (blake3 input)).

Definition new_conn_manager (listen_addr : SocketAddr) (pid nanos counter : Z) : P2PConnectionManager :=
  mkConnManager listen_addr (derive_local_node_nonce listen_addr pid nanos counter) None None true false false.
Definition new_conn_manager_with_advertised (listen_addr : SocketAddr) (pid nanos counter : Z)
    (advertised_ip : option string) (advertised_port : option Z) (allow_private : bool) : P2PConnectionManager :=
  let m := new_conn_manager listen_addr pid nanos counter in
  mkConnManager (cm_listen_addr m) (cm_local_node_nonce m) advertised_ip advertised_port allow_private
    (cm_has_importer m) (cm_has_discovery m).
Definition with_block_receiver (m : P2PConnectionManager) : P2PConnectionManager :=
  mkConnManager (cm_listen_addr m) (cm_local_node_nonce m) (cm_advertised_ip m) (cm_advertised_port m)
    (cm_allow_private m) true (cm_has_discovery m).
Definition with_peer_discovery (m : P2PConnectionManager) : P2PConnectionManager :=
  mkConnManager (cm_listen_addr m) (cm_local_node_nonce m) (cm_advertised_ip m) (cm_advertised_port m)
    (cm_allow_private m) (cm_has_importer m) true.

Definition is_local_dial_address (m : P2PConnectionManager) (addr : SocketAddr) : bool :=
  if bool_decide (addr = cm_listen_addr m) then true
  else if is_unspecified (sa_ip (cm_listen_addr m)) && (sa_port addr =? sa_port (cm_listen_addr m))
          && is_loopback (sa_ip addr) then true
  else match cm_advertised_ip m, cm_advertised_port m with
       | Some host, Some port => (port =? sa_port addr) && bool_decide (parse_ip host = Some (sa_ip addr))
       | _, _ => false
       end.

Definition local_handshake (m : P2PConnectionManager) (pm : PeerManager) (chain_height : Z) : HandshakeMessage :=
  with_seed_peers (dialable_addresses pm MAX_SHARED_PEERS)
    (new_with_advertised chain_height (cm_local_node_nonce m) (cm_advertised_ip m) (cm_advertised_port m)).

(** [Sender::send] waits for room: the block is queued unless the importer is
    gone. *)
Definition enqueue_block (block : Block) (peer_addr : string) (s : Shared) : Shared * bool :=
  match sh_inbound s with
  | Some q => (set_inbound (Some (q ++ [mkInbound block peer_addr])) s, true)
  | None => (s, false)
  end.
Definition queue_inbound_block (m : P2PConnectionManager) (block : Block) (peer_addr : string) : act () :=
  if negb (cm_has_importer m) then fail ImporterUnavailable
  else
    sent ← locked (λ s, Done (enqueue_block block peer_addr s));
    if (sent : bool) then mret () else fail ImporterUnavailable.

(** [try_send] of the addresses a handshake shares, at most 32 of them. *)
Definition offer_candidate (q : list string) (candidate : string) : list string :=
  if (DISCOVERY_CAPACITY <=? length q)%nat then q else q ++ [candidate].
Definition offer_candidates (candidates : list string) (s : Shared) : Shared :=
  set_discovered ((λ q, fold_left offer_candidate (take MAX_SHARED_PEERS candidates) q) <$> sh_discovered s) s.

(** ** The summary request after an inbound handshake *)
Fixpoint await_summary (peer_key : string) (generation : Z) (n : nat) : act () :=
  match n with
  | O => fail (MessageLimit peer_key)
  | S n =>
      msg ← recv_timeout peer_key;
      match msg with
      | Height summary =>
          with_peers instant (λ now pm, note_peer_summary_from now pm peer_key summary (Some generation)
            (Some INBOUND_SUMMARY_REFRESH_SOURCE))
      | GetHeight => _ ← answer_height; await_summary peer_key generation n
      | Ping timestamp => _ ← answer_ping timestamp; await_summary peer_key generation n
      | Disconnect reason => fail (PeerRejected "inbound summary refresh" reason)
      | other => fail (UnexpectedMessage "inbound summary refresh reply" (label other))
      end
  end.
Definition request_inbound_peer_summary (peer_key : string) (generation : Z) : act () :=
  _ ← with_peers instant (λ now pm, record_height_poll_sent now pm peer_key);
  _ ← send_message GetHeight;
  await_summary peer_key generation INBOUND_SUMMARY_REFRESH_MAX_MESSAGES.

Definition handshake_reject_reason (r : HandshakeResult) : string :=
  match r with
  | VersionMismatch remote ours =>
      "unsupported protocol version: remote=" +:+ u64_to_string remote +:+ " ours=" +:+ u64_to_string ours
  | WrongChainId => "wrong chain identity"
  | WrongGenesisHash => "wrong genesis hash"
  | WrongEconHash => "wrong economic version"
  | WrongPowParams => "wrong pow/consensus version"
  | SelfConnection => "self-connection rejected"
  | Accepted => "handshake accepted"
  end.

(** Sixty-four lowercase hexadecimal digits. *)
Definition is_canonical_hash (value : string) : bool := is_hex64 value.

(** ** The inbound handler *)
Record Conn := mkConn {
  cn_handshake_done : bool;
  cn_active_session : option (string * Z);
  cn_requested_block_hash : option string
}.
Definition new_conn : Conn := mkConn false None None.
Definition with_requested (h : option string) (c : Conn) : Conn :=
  mkConn (cn_handshake_done c) (cn_active_session c) h.

(** The result of one message: the handler's state, and whether it goes on. *)
Definition continue_with (c : Conn) : act (Conn * bool) := mret (c, true).
Definition close (c : Conn) : act (Conn * bool) := mret (c, false).
(** Go on unless the write failed. *)
Definition send_or_close (c : Conn) (m : P2PMessage) : act (Conn * bool) :=
  r ← attempt (send_message m);
  match r with Ok _ => continue_with c | Err _ => close c end.

Context (m : P2PConnectionManager) (addr : SocketAddr).
Abbreviation observed_addr := (show_socket addr).

(** [sessions.register]: the atomic counter, then the lock. *)
Definition register_session (peer_addr : string) : act Z :=
  generation ← locked (λ s,
    let '(r, generation) := fetch_generation (sh_registry s) in
    Done (set_registry r s, generation));
  _ ← update_shared (λ s, set_registry (register (sh_registry s) peer_addr generation) s);
  mret generation.

Definition on_handshake (c : Conn) (remote_hs : HandshakeMessage) : act (Conn * bool) :=
  if cn_handshake_done c then close c
  else
    our_height ← read_shared (λ s, current_height (sh_chain s));
    local_hs ← read_shared (λ s, local_handshake m (sh_peers s) our_height);
    match validate_handshake remote_hs (cm_local_node_nonce m) with
    | Accepted =>
        key ← locked (λ s,
          let '(pm, key) := resolve_inbound_peer_key (sh_peers s) observed_addr remote_hs (cm_allow_private m) in
          Done (set_peers pm s, key));
        match key with
        | Err reason => _ ← attempt (send_message (Disconnect reason)); close c
        | Ok peer_key =>
            _ ← update_shared (if cm_has_discovery m then offer_candidates (hs_seed_peers remote_hs) else id);
            sent ← attempt (send_message (MHandshake local_hs));
            match sent with
            | Err _ => close c
            | Ok _ =>
                generation ← register_session peer_key;
                _ ← update_shared (λ s, set_peers (connect_session (sh_peers s) peer_key generation) s);
                _ ← with_peers instant (λ now pm, note_peer_height now pm peer_key (hs_chain_height remote_hs));
                let c := mkConn true (Some (peer_key, generation)) (cn_requested_block_hash c) in
                if bool_decide (peer_key = observed_addr) then continue_with c
                else _ ← attempt (request_inbound_peer_summary peer_key generation); continue_with c
            end
        end
    | other =>
        _ ← update_shared (λ s, set_peers (upsert (sh_peers s) observed_addr false) s);
        _ ← update_shared (λ s, set_peers (set_state (sh_peers s) observed_addr Disconnected) s);
        _ ← attempt (send_message (Disconnect (handshake_reject_reason other)));
        close c
    end.

Definition on_message (c : Conn) (msg : P2PMessage) : act (Conn * bool) :=
  if negb (cn_handshake_done c) && negb (is_pre_handshake msg) then close c
  else
    match msg with
    | MHandshake remote_hs => on_handshake c remote_hs
    | Ping timestamp => send_or_close c (Pong timestamp)
    | GetHeight => summary ← local_summary; send_or_close c (Height summary)
    | GetBlock hash =>
        block ← read_shared (λ s, block_by_hash (sh_chain s) hash);
        match block with
        | Some block => send_or_close c (MBlock block)
        | None => _ ← attempt (send_message (Disconnect ("unknown block " +:+ hash))); close c
        end
    | MAnnounceBlock a =>
        if negb (is_canonical_hash (an_hash a)) || negb (is_canonical_hash (an_prev a)) then close c
        else
          known ← read_shared (λ s, bool_decide (is_Some (block_by_hash (sh_chain s) (an_hash a))));
          if negb known && bool_decide (cn_requested_block_hash c = None) then
            send_or_close (with_requested (Some (an_hash a)) c) (GetBlock (an_hash a))
          else continue_with c
    | MBlock block =>
        match cn_requested_block_hash c with
        | None => close c
        | Some expected_hash =>
            let c := with_requested None c in
            if negb (bool_decide (block_hash block = expected_hash)) then close c
            else if negb (cm_has_importer m) then continue_with c
            else
              let peer_addr := match cn_active_session c with Some (peer_addr, _) => peer_addr | None => observed_addr end in
              sent ← locked (λ s, Done (enqueue_block block peer_addr s));
              if (sent : bool) then continue_with c else close c
        end
    | Height summary =>
        _ ← match cn_active_session c with
            | Some (peer_addr, _) => with_peers instant (λ now pm, note_peer_summary now pm peer_addr summary)
            | None => mret ()
            end;
        continue_with c
    | Disconnect _ => close c
    | Pong _ => continue_with c
    end.

(** One turn of the handler's loop: [select!] takes the next message of the
    peer, or, once a session is active, the next one of its queue. *)
Inductive Turn := FromPeer | FromQueue.
Definition take_turn (c : Conn) (t : Turn) : act (Conn * bool) :=
  match t with
  | FromPeer =>
      incoming ← attempt recv_message;
      match incoming with Ok msg => on_message c msg | Err _ => close c end
  | FromQueue =>
      match cn_active_session c with
      | None => continue_with c
      | Some (peer_addr, generation) =>
          queued ← locked (λ s,
            let '(r, queued) := recv_session (sh_registry s) peer_addr generation in
            Done (set_registry r s, queued));
          match queued with
          | Some outbound => send_or_close c outbound
          | None => continue_with c
          end
      end
  end.

(** The clean-up after the loop. *)
Definition finish_session (peer_addr : string) (session_generation : Z) : act () :=
  latest ← locked (λ s,
    let '(r, latest) := unregister (sh_registry s) peer_addr session_generation in
    Done (set_registry r s, latest));
  match latest with
  | Some latest_generation =>
      update_shared (λ s, set_peers (disconnect_if_generation (sh_peers s) peer_addr latest_generation).1 s)
  | None => mret ()
  end.
(** The handler over the turns taken so far: its state and whether it runs
    still.  When the loop ends the session is cleaned up. *)
Fixpoint handle_turns (c : Conn) (turns : list Turn) : act (Conn * bool) :=
  match turns with
  | [] => continue_with c
  | t :: turns =>
      '(c, go_on) ← take_turn c t;
      if (go_on : bool) then handle_turns c turns
      else
        _ ← match cn_active_session c with
            | Some (peer_addr, generation) => finish_session peer_addr generation
            | None => mret ()
            end;
        close c
  end.
Definition handle_inbound (turns : list Turn) : act (Conn * bool) := handle_turns new_conn turns.
End connection.
