(* ===== verification/Sync.v ===== *)
(** * Synchronisation ([src/p2p/sync.rs])

    The decision to sync, the guard that throttles it, the catch-up from one
    peer (handshake, height query, download of the branch back to a known
    block, import oldest first) and the watchdog. *)
From S2P Require Import Prelude Crypto Constants Transaction Block Genesis VisionX Sled ChainState Accept Manager Admission Pool Net Protocol Peers Sessions Recovery World Connection.

Inductive SyncDecision :=
| Synced
| Behind (peer_addr : string) (lag : Z)
| HigherWork (peer_addr : string) (remote_work local_work : Z).

Definition should_sync (now : Z) (pm : PeerManager) (local_height : Z) : SyncDecision :=
  let remote_height := best_remote_height now pm in
  let lag := sat_sub remote_height local_height in
  if lag <? SYNC_LAG_THRESHOLD then Synced
  else match best_sync_target now pm local_height with
       | Some peer_addr => Behind peer_addr lag
       | None => Synced
       end.

Definition should_sync_for_summary (now : Z) (pm : PeerManager) (local : ChainSummary) : SyncDecision :=
  let remote_height := best_remote_height now pm in
  let lag := sat_sub remote_height (sm_height local) in
  let behind := if SYNC_LAG_THRESHOLD <=? lag then best_sync_target now pm (sm_height local) else None in
  match behind with
  | Some peer_addr => Behind peer_addr lag
  | None =>
      let higher :=
        local_tip ← sm_tip_hash local;
        peer_addr ← best_work_sync_target now pm local_tip (sm_cumulative_work local);
        remote ← peer_summary pm peer_addr;
        Some (HigherWork peer_addr (sm_cumulative_work remote) (sm_cumulative_work local)) in
      default Synced higher
  end.

(** ** The guard *)
Record SyncGuard := mkGuard { sg_in_progress : bool; sg_cooldown_until : option Z }.
Definition new_guard : SyncGuard := mkGuard false None.
Definition is_throttled (now : Z) (g : SyncGuard) : bool :=
  match sg_cooldown_until g with Some t => now <? t | None => false end.
Definition is_blocked (now : Z) (g : SyncGuard) : bool := sg_in_progress g || is_throttled now g.
Definition mark_started (g : SyncGuard) : SyncGuard := mkGuard true (sg_cooldown_until g).
Definition mark_done (now : Z) (g : SyncGuard) : SyncGuard :=
  mkGuard false (Some (now + STALL_OVERRIDE_SECS * 10 ^ 9)).

(** ** Error texts

    [err.to_string()], as far as the watchdog looks at it. *)
Fixpoint string_prefix (p s : string) : bool :=
  match p, s with
  | EmptyString, _ => true
  | String a p, String b s => bool_decide (a = b) && string_prefix p s
  | String _ _, EmptyString => false
  end.
Fixpoint contains (needle s : string) : bool :=
  string_prefix needle s || match s with EmptyString => false | String _ s => contains needle s end.
Definition error_text (e : NetError) : string :=
  match e with
  | PeerRejected context reason => "peer rejected " +:+ context +:+ ": " +:+ reason
  | UnexpectedMessage context l => "unexpected " +:+ context +:+ ": " +:+ l
  | SyncLoop hash => "sync loop detected at " +:+ hash
  | WrongBlock expected actual => "requested block " +:+ expected +:+ " but received " +:+ actual
  | ImportStoredOrphan hash => "sync import stored orphan " +:+ hash
  | ImportRejected _ => "sync import rejected: "
  | NoTipHash height => "peer reported no tip hash at height " +:+ u64_to_string height
  | MessageLimit peer_addr => "height query exceeded message limit for " +:+ peer_addr
  | _ => ""
  end.

Section sync.
Context {C : Crypto} {TC : TxCodec} {SL : Sled} {SC : StoreCodec}.
Context (params : VisionXParams) (clock : nat → Z) (instant : nat → Z).
Context (m : P2PConnectionManager) (use_mempool : bool).

(** ** Importing the fetched blocks *)

(** After a block extended the chain: refresh the cached root, and requeue what
    a reorganisation displaced. *)
Definition settle_reorg (s : Shared) : Shared :=
  let g := refresh_cached_state_root_from_tip (sh_chain s) in
  let s := set_node (set_chain (set_pending None g) (sh_node s)) s in
  match pending_reorg_recovery g with
  | Some recovery =>
      if use_mempool then set_pool (requeue_after_reorg (sh_chain s) (sh_pool s) recovery).1 s else s
  | None => s
  end.

(** The lock section that skips a known block or applies a new one. *)
Definition import_one (peer_addr : string) (block : Block) : act (option AcceptResult) :=
  locked (λ s,
    if bool_decide (is_Some (block_by_hash (sh_chain s) (block_hash block))) then Done (s, None)
    else '(n, r) ← apply_block params clock (sh_node s) block (Some peer_addr);
         Done (set_node n s, Some r)).
Fixpoint import_fetched_blocks (peer_addr : string) (fetched : list Block) (imported : Z) : act Z :=
  match fetched with
  | [] => mret imported
  | block :: fetched =>
      result ← import_one peer_addr block;
      match result with
      | None => import_fetched_blocks peer_addr fetched imported
      | Some (CanonExtension _) =>
          _ ← update_shared settle_reorg;
          import_fetched_blocks peer_addr fetched (imported + 1)
      | Some (SideChain _) => import_fetched_blocks peer_addr fetched (imported + 1)
      | Some (StoredOrphan block_hash) => fail (ImportStoredOrphan block_hash)
      | Some (Rejected reason) => fail (ImportRejected reason)
      end
  end.

(** ** The download *)

(** Replies until the height, at most eight messages. *)
Fixpoint await_height (peer_addr : string) (n : nat) : act ChainSummary :=
  match n with
  | O => fail (MessageLimit peer_addr)
  | S n =>
      msg ← recv_timeout peer_addr;
      match msg with
      | Height summary => mret summary
      | GetHeight => _ ← answer_height; await_height peer_addr n
      | Ping timestamp => _ ← answer_ping timestamp; await_height peer_addr n
      | Disconnect reason => fail (PeerRejected "height query" reason)
      | other => fail (UnexpectedMessage "height reply" (label other))
      end
  end.

(** Replies until a block.  Every pass reads a message, so the length of what
    the peer has to say bounds the passes. *)
Fixpoint await_block (fuel : nat) : act Block :=
  match fuel with
  | O => λ _, NoFuel
  | S fuel =>
      msg ← recv_message;
      match msg with
      | MBlock block => mret block
      | MAnnounceBlock _ => await_block fuel
      | GetHeight => _ ← answer_height; await_block fuel
      | Ping timestamp => _ ← answer_ping timestamp; await_block fuel
      | Disconnect reason => fail (PeerRejected "block request" reason)
      | other => fail (UnexpectedMessage "block reply" (label other))
      end
  end.
Definition inbox_fuel : act nat := λ w, Done (w, Ok (S (length (w_inbox w)))).

(** From the tip back to a known block or the genesis; the blocks, oldest
    first. *)
Fixpoint fetch_branch (fuel : nat) (current_hash : string) (fetched : list Block) (seen : gset string)
    : act (list Block) :=
  match fuel with
  | O => λ _, NoFuel
  | S fuel =>
      known ← read_shared (λ s, bool_decide (is_Some (block_by_hash (sh_chain s) current_hash)));
      if (known : bool) then mret fetched
      else if bool_decide (current_hash ∈ seen) then fail (SyncLoop current_hash)
      else
        _ ← send_message (GetBlock current_hash);
        n ← inbox_fuel;
        block ← await_block n;
        if negb (bool_decide (block_hash block = current_hash))
        then fail (WrongBlock current_hash (block_hash block))
        else if b_number block =? 0 then mret (block :: fetched)
        else fetch_branch fuel (b_parent block) (block :: fetched) ({[ current_hash ]} ∪ seen)
  end.

Definition sync_handshake (peer_addr : string) : act HandshakeMessage :=
  reply ← recv_message;
  match reply with
  | MHandshake hs => mret hs
  | Disconnect reason => fail (PeerRejected "sync handshake" reason)
  | other => fail (UnexpectedMessage "handshake reply" (label other))
  end.

(** [connected] is the outcome of the TCP connection. *)
Definition live_sync_from_peer (connected : bool) (peer_addr : string) : act Z :=
  if bool_decide (parse_socket peer_addr = None) then fail (BadPeerAddress peer_addr)
  else if negb connected then fail ConnectFailed
  else
    local_height ← read_shared (λ s, current_height (sh_chain s));
    handshake ← read_shared (λ s, local_handshake m (sh_peers s) local_height);
    _ ← send_message (MHandshake handshake);
    remote_hs ← sync_handshake peer_addr;
    match validate_handshake remote_hs (cm_local_node_nonce m) with
    | Accepted =>
        _ ← with_peers instant (λ now pm, note_peer_height now pm peer_addr (hs_chain_height remote_hs));
        _ ← send_message GetHeight;
        remote ← await_height peer_addr 8;
        _ ← with_peers instant (λ now pm, note_peer_summary now pm peer_addr remote);
        local ← local_summary;
        let remote_height_ahead := sm_height local <? sm_height remote in
        let remote_work_ahead := (sm_cumulative_work local <? sm_cumulative_work remote)
          && negb (bool_decide (sm_tip_hash remote = sm_tip_hash local)) in
        if negb remote_height_ahead && negb remote_work_ahead then mret 0
        else
          match sm_tip_hash remote with
          | None => fail (NoTipHash (sm_height remote))
          | Some tip =>
              n ← inbox_fuel;
              fetched ← fetch_branch n tip [] ∅;
              import_fetched_blocks peer_addr fetched 0
          end
    | other => fail (HandshakeRejected other)
    end.

(** ** The watchdog *)
Definition set_claim (f : Z → RecoveryState → RecoveryState) : act () :=
  update_shared (λ s, tick (set_recovery (f (instant (sh_instants s)) (sh_recovery s)) s)).
Definition read_instant : act Z :=
  locked (λ s, Done (tick s, instant (sh_instants s))).

(** What a finished higher-work catch-up does to the claim. *)
Definition conclude_recovery (remote_work : Z) (failed_text : string) (result : result NetError Z) : act () :=
  match result with
  | Ok _ =>
      after ← local_summary;
      if remote_work <=? sm_cumulative_work after then set_claim (λ _, clear)
      else set_claim (λ now, mark_limited now "higher-work recovery incomplete after sync batch")
  | Err err =>
      if contains "sync import rejected" (error_text err) then set_claim (λ _, clear)
      else set_claim (λ now, mark_high_risk now (failed_text +:+ error_text err))
  end.

Definition watchdog_step (connected : bool) (guard : SyncGuard) : act (SyncGuard * result NetError ()) :=
  now ← read_instant;
  if is_blocked now guard then mret (guard, Ok ())
  else
    local ← local_summary;
    now ← read_instant;
    decision ← read_shared (λ s, should_sync_for_summary now (sh_peers s) local);
    match decision with
    | Synced => mret (guard, Ok ())
    | Behind peer_addr lag =>
        result ← attempt (live_sync_from_peer connected peer_addr);
        now ← read_instant;
        mret (mark_done now (mark_started guard), _ ← result; Ok ())
    | HigherWork peer_addr remote_work local_work =>
        remote_summary ← read_shared (λ s, peer_summary (sh_peers s) peer_addr);
        _ ← match remote_summary with
            | Some remote => set_claim (λ now, begin_higher_work_recovery now peer_addr local remote)
            | None => mret ()
            end;
        result ← attempt (live_sync_from_peer connected peer_addr);
        now ← read_instant;
        _ ← conclude_recovery remote_work "higher-work recovery failed: " result;
        mret (mark_done now (mark_started guard), _ ← result; Ok ())
    end.
End sync.
