(* ===== verification/Services.v ===== *)
(** * Background services ([src/node/services.rs])

    The tasks of a running node: the importer of announced blocks, the miner's
    loop, the dialling supervisor, and the outbound session with its height
    polls, catch-ups and keep-alives.  Each definition is one turn of a task's
    loop, or one of the functions it calls; the timers between turns and the
    spawning of tasks are outside the model. *)
From S2P Require Import Prelude Crypto Constants Transaction Block Genesis VisionX VisionXMiner Sled ChainState Job Reorg Accept Manager Admission Pool Net Protocol Peers Sessions Recovery World Connection Sync.

Section services.
Context {C : Crypto} {TC : TxCodec} {SL : Sled} {SC : StoreCodec}.
Context (params : VisionXParams) (clock : nat → Z) (instant : nat → Z).

(** [pending_reorg_recovery.take()] and the requeueing of what it displaced. *)
Definition take_recovery (s : Shared) : Shared :=
  let recovery := pending_reorg_recovery (sh_chain s) in
  let s := set_node (set_chain (set_pending None (sh_chain s)) (sh_node s)) s in
  match recovery with
  | Some recovery => set_pool (requeue_after_reorg (sh_chain s) (sh_pool s) recovery).1 s
  | None => s
  end.
Definition announce (block : Block) (exclude_peer : option string) (s : Shared) : Shared :=
  set_registry (announce_block (sh_registry s) block exclude_peer).1 s.

(** ** Importing announced blocks *)

(** The lock section around [apply_block]. *)
Definition import_announced (block : Block) (peer_addr : string) : act AcceptResult :=
  locked (λ s,
    '(n, result) ← apply_block params clock (sh_node s) block (Some peer_addr);
    let s := set_node n s in
    let s := match result with
             | CanonExtension _ =>
                 let s := set_node (set_chain (refresh_cached_state_root_from_tip (sh_chain s)) (sh_node s)) s in
                 let s := set_pool (remove_confirmed (sh_pool s) (map canonical_tx_id (b_txs block))) s in
                 take_recovery s
             | _ => s
             end in
    Done (s, result)).
(** One turn of [import_announced_blocks]: a queued block, imported. *)
Definition import_announced_block (b : InboundBlock) : act () :=
  let block := ib_block b in
  result ← import_announced block (ib_peer_addr b);
  match result with
  | CanonExtension _ =>
      summary ← local_summary;
      _ ← update_shared (λ s, set_recovery (clear_if_local_satisfies_claim summary (sh_recovery s)).1 s);
      _ ← update_shared (λ s, set_miner (clear_job <$> sh_miner s) s);
      update_shared (announce block (Some (ib_peer_addr b)))
  | _ => mret ()
  end.
Definition pop_inbound (s : Shared) : Shared * option InboundBlock :=
  match sh_inbound s with
  | Some (b :: q) => (set_inbound (Some q) s, Some b)
  | _ => (s, None)
  end.
Definition import_announced_blocks : act () :=
  next ← locked (λ s, Done (pop_inbound s));
  match next with Some b => import_announced_block b | None => mret () end.

(** ** Mining *)

(** The search of the blocking worker: from nonce zero, until the job is
    stale, a nonce solves it, or the nonces are exhausted. *)
Fixpoint search_nonces (fuel : nat) (job : MiningJob) (nonce : Z) : act (option Block) :=
  match fuel with
  | O => λ _, NoFuel
  | S fuel =>
      current ← read_shared (λ s,
        match sh_miner s with Some m => is_current_job m (mj_job_id job) | None => false end);
      if negb (current : bool) then mret None
      else
        found ← locked (λ s,
          let n := sh_node s in
          '(c, found) ← try_nonce (n_datasets n) job nonce;
          Done (set_node (mkNode (n_chain n) (n_pow n) c (n_ticks n)) s, found));
        match found with
        | Some block => mret (Some block)
        | None => if nonce =? U64_MAX then mret None else search_nonces fuel job (wadd64 nonce 1)
        end
  end.

(** The chain's lock is held from the submission to the announcement. *)
Definition submit_mined (block : Block) : act (option AcceptResult) :=
  locked (λ s,
    match sh_miner s with
    | None => Done (s, None)
    | Some m =>
        '(m, n, result) ← submit_solution params clock m (sh_node s) block;
        let s := set_miner (Some m) (set_node n s) in
        let s := match result with
                 | CanonExtension _ =>
                     let s := set_pool (remove_confirmed (sh_pool s) (map canonical_tx_id (b_txs block))) s in
                     announce block None (take_recovery s)
                 | _ => s
                 end in
        Done (s, Some result)
    end).

(** The candidate for the tip over the pool's oldest transactions. *)
Definition next_candidate (miner_addr : string) (counter : Z) : act (Z * option MiningJob) :=
  locked (λ s,
    match sh_miner s with
    | None => Done (s, (counter, None))
    | Some m =>
        let txs := select_for_block (sh_pool s) (Z.to_nat BLOCK_TARGET_TXS) in
        '(n, counter, job) ← build_candidate_for_tip clock m (sh_node s) counter miner_addr txs;
        Done (set_node n s, (counter, job))
    end).
(** One turn of the miner's loop up to the submission; [counter] is the
    process-wide job counter. *)
Definition find_block (fuel : nat) (miner_addr : string) (counter : Z) : act (Z * option Block) :=
  connected ← read_shared (λ s, Z.of_nat (connected_count (sh_peers s)));
  if connected <? MIN_PEERS_FOR_MINING then
    _ ← update_shared (λ s, set_miner (clear_job <$> sh_miner s) s); mret (counter, None)
  else
    paused ← read_shared (λ s, should_pause_mining (sh_recovery s));
    if (paused : bool) then
      _ ← update_shared (λ s, set_miner (clear_job <$> sh_miner s) s); mret (counter, None)
    else
      '(counter, maybe_job) ← next_candidate miner_addr counter;
      match maybe_job with
      | None => mret (counter, None)
      | Some job =>
          _ ← update_shared (λ s, set_miner (build_job job <$> sh_miner s) s);
          mined ← search_nonces fuel job 0;
          mret (counter, mined)
      end.
(** The whole turn: the result of the submission, if a block was mined. *)
Definition mining_turn (fuel : nat) (miner_addr : string) (counter : Z) : act (Z * option AcceptResult) :=
  '(counter, mined) ← find_block fuel miner_addr counter;
  match mined with
  | None => mret (counter, None)
  | Some block => result ← submit_mined block; mret (counter, result)
  end.

(** ** Dialling *)
Context (m : P2PConnectionManager).

(** What [peer_dial_supervisor] does with a candidate: the peers scheduled
    since the start, and the address to spawn a session loop for. *)
Definition dial_candidate (allow_private : bool) (scheduled : gset string) (candidate : string)
    : act (gset string * option string) :=
  match validate_dial_address candidate allow_private with
  | Err _ => mret (scheduled, None)
  | Ok peer_socket =>
      let peer_addr := show_socket peer_socket in
      if is_local_dial_address m peer_socket then mret (scheduled, None)
      else if bool_decide (peer_addr ∈ scheduled) then mret (scheduled, None)
      else if TARGET_OUTBOUND_PEERS <? Z.of_nat (size ({[ peer_addr ]} ∪ scheduled)) then mret (scheduled, None)
      else
        _ ← update_shared (λ s, set_peers (upsert (sh_peers s) peer_addr true) s);
        mret ({[ peer_addr ]} ∪ scheduled, Some peer_addr)
  end.

(** ** The outbound session *)

(** A message outside a height poll's own; the block asked for is threaded. *)
Definition handle_seed_session_message (peer_addr : string) (requested : option string) (message : P2PMessage)
    : act (option string) :=
  match message with
  | MAnnounceBlock a =>
      if negb (is_canonical_hash (an_hash a)) || negb (is_canonical_hash (an_prev a))
      then fail MalformedAnnouncement
      else
        known ← read_shared (λ s, bool_decide (is_Some (block_by_hash (sh_chain s) (an_hash a))));
        if negb (known : bool) && bool_decide (requested = None)
        then _ ← send_message (GetBlock (an_hash a)); mret (Some (an_hash a))
        else mret requested
  | GetBlock hash =>
      block ← read_shared (λ s, block_by_hash (sh_chain s) hash);
      match block with
      | None => fail (UnknownBlock hash)
      | Some block => _ ← send_message (MBlock block); mret requested
      end
  | MBlock block =>
      match requested with
      | None => fail UnrequestedBlock
      | Some expected_hash =>
          if negb (bool_decide (block_hash block = expected_hash))
          then fail (WrongBlock expected_hash (block_hash block))
          else _ ← queue_inbound_block m block peer_addr; mret None
      end
  | GetHeight => _ ← answer_height; mret requested
  | Ping timestamp => _ ← answer_ping timestamp; mret requested
  | Pong _ | Height _ => mret requested
  | Disconnect reason => fail (PeerRejected "session" reason)
  | MHandshake _ => fail (UnexpectedMessage "session message" (label message))
  end.

Fixpoint await_polled_height (peer_addr : string) (requested : option string) (n : nat)
    : act (ChainSummary * option string) :=
  match n with
  | O => fail (MessageLimit peer_addr)
  | S n =>
      msg ← recv_timeout peer_addr;
      match msg with
      | Height summary => mret (summary, requested)
      | GetHeight => _ ← answer_height; await_polled_height peer_addr requested n
      | Ping timestamp => _ ← answer_ping timestamp; await_polled_height peer_addr requested n
      | Disconnect reason => fail (PeerRejected "height query" reason)
      | other =>
          requested ← handle_seed_session_message peer_addr requested other;
          await_polled_height peer_addr requested n
      end
  end.
Definition poll_peer_height (peer_addr : string) (requested : option string)
    : act (ChainSummary * option string) :=
  _ ← with_peers instant (λ now pm, record_height_poll_sent now pm peer_addr);
  _ ← send_message GetHeight;
  '(remote_summary, requested) ← await_polled_height peer_addr requested 8;
  _ ← with_peers instant (λ now pm, note_peer_summary now pm peer_addr remote_summary);
  _ ← local_summary;
  mret (remote_summary, requested).

(** A computation on a connection of its own: what that peer will say, and
    whether the writes to it succeed. *)
Definition on_stream {A} (inbox : list Incoming) (sends : list bool) (x : act A) : act A := λ w,
  match x (mkWorld (w_shared w) inbox [] sends (w_others w)) with
  | Done (w', r) => Done (mkWorld (w_shared w') (w_inbox w) (w_outbox w) (w_sends w) (w_others w'), r)
  | Panic => Panic
  | NoFuel => NoFuel
  end.

(** The catch-up of a session, over the connection it opens for it: the guard
    afterwards, and the error that ends the session, if any. *)
Definition seed_catch_up (peer_addr : string) (local remote : ChainSummary) (guard : SyncGuard)
    (connected : bool) (sync_inbox : list Incoming) (sync_sends : list bool)
    : act (SyncGuard * result NetError ()) :=
  let remote_has_more_work := (sm_cumulative_work local <? sm_cumulative_work remote)
    && negb (bool_decide (sm_tip_hash remote = sm_tip_hash local)) in
  _ ← (if remote_has_more_work
       then set_claim instant (λ now, begin_higher_work_recovery now peer_addr local remote) else mret ());
  if negb ((sm_height local <? sm_height remote) || remote_has_more_work) then mret (guard, Ok ())
  else
    now ← read_instant instant;
    if is_blocked now guard then mret (guard, Ok ())
    else
      result ← attempt (on_stream sync_inbox sync_sends
        (live_sync_from_peer params clock instant m true connected peer_addr));
      now ← read_instant instant;
      let guard := mark_done now (mark_started guard) in
      match result with
      | Ok _ =>
          _ ← (if remote_has_more_work then
                 after ← local_summary;
                 if sm_cumulative_work remote <=? sm_cumulative_work after
                 then set_claim instant (λ _, clear)
                 else set_claim instant (λ now, mark_limited now
                        "higher-work recovery incomplete after seed-peer sync batch")
               else mret ());
          mret (guard, Ok ())
      | Err e =>
          _ ← (if remote_has_more_work then
                 if contains "sync import rejected" (error_text e)
                 then set_claim instant (λ _, clear)
                 else set_claim instant (λ now, mark_high_risk now
                        ("higher-work recovery failed: " +:+ error_text e))
               else mret ());
          mret (guard, Err e)
      end.

(** [while let Ok(outbound) = session_receiver.try_recv()]: as many passes as
    there are messages, [fuel] of them at most. *)
Fixpoint drain_session (fuel : nat) (peer_addr : string) (generation : Z) : act () :=
  match fuel with
  | O => λ _, NoFuel
  | S fuel =>
      queued ← locked (λ s,
        let '(r, queued) := recv_session (sh_registry s) peer_addr generation in
        Done (set_registry r s, queued));
      match queued with
      | Some outbound => _ ← send_message outbound; drain_session fuel peer_addr generation
      | None => mret ()
      end
  end.

(** The keep-alive at the end of a turn. *)
Definition keep_alive (peer_addr : string) (requested : option string) : act (option string) :=
  timestamp ← locked (λ s, let '(n, t) := read_clock clock (sh_node s) in Done (set_node n s, t));
  _ ← send_message (Ping timestamp);
  message ← recv_timeout peer_addr;
  match message with
  | Pong _ => mret requested
  | message => handle_seed_session_message peer_addr requested message
  end.
(** One turn of the session's loop: the guard afterwards, and the block asked
    for, or the error at which the loop breaks. *)
Definition session_turn (fuel : nat) (peer_addr : string) (generation : Z) (guard : SyncGuard)
    (requested : option string) (connected : bool) (sync_inbox : list Incoming) (sync_sends : list bool)
    : act (SyncGuard * result NetError (option string)) :=
  polled ← attempt (_ ← drain_session fuel peer_addr generation; poll_peer_height peer_addr requested);
  match polled with
  | Err e => mret (guard, Err e)
  | Ok (remote_summary, requested) =>
      local ← local_summary;
      '(guard, caught_up) ← seed_catch_up peer_addr local remote_summary guard connected sync_inbox sync_sends;
      match caught_up with
      | Err e => mret (guard, Err e)
      | Ok _ => r ← attempt (keep_alive peer_addr requested); mret (guard, r)
      end
  end.

(** Opening the session: the handshake, and the registration.  An error leaves
    the peer marked disconnected. *)
Definition mark_disconnected (peer_addr : string) : act () :=
  update_shared (λ s, set_peers (set_state (sh_peers s) peer_addr Disconnected) s).
Definition open_seed_session (connected : bool) (peer_addr : string) : act (option Z) :=
  if negb connected then _ ← mark_disconnected peer_addr; mret None
  else
    local_height ← read_shared (λ s, current_height (sh_chain s));
    local_hs ← read_shared (λ s, local_handshake m (sh_peers s) local_height);
    greeting ← attempt (_ ← send_message (MHandshake local_hs); recv_message);
    match greeting with
    | Ok (MHandshake remote_hs) =>
        match validate_handshake remote_hs (cm_local_node_nonce m) with
        | Accepted =>
            _ ← update_shared (λ s, set_peers (upsert (sh_peers s) peer_addr true) s);
            _ ← read_shared (λ s, current_height (sh_chain s));
            _ ← update_shared (offer_candidates (hs_seed_peers remote_hs));
            generation ← register_session peer_addr;
            _ ← update_shared (λ s, set_peers (connect_session (sh_peers s) peer_addr generation) s);
            _ ← with_peers instant (λ now pm, note_peer_height now pm peer_addr (hs_chain_height remote_hs));
            mret (Some generation)
        | other =>
            _ ← attempt (send_message (Disconnect (handshake_reject_reason other)));
            _ ← mark_disconnected peer_addr; mret None
        end
    | _ => _ ← mark_disconnected peer_addr; mret None
    end.
(** The session over its turns, each with the connection its catch-up opens;
    when a turn fails, the session is taken down. *)
Fixpoint seed_session (fuel : nat) (peer_addr : string) (generation : Z) (guard : SyncGuard)
    (requested : option string) (turns : list (bool * list Incoming * list bool)) : act (SyncGuard * bool) :=
  match turns with
  | [] => mret (guard, true)
  | (connected, sync_inbox, sync_sends) :: turns =>
      '(guard, r) ← session_turn fuel peer_addr generation guard requested connected sync_inbox sync_sends;
      match r with
      | Ok requested => seed_session fuel peer_addr generation guard requested turns
      | Err _ => _ ← finish_session peer_addr generation; mret (guard, false)
      end
  end.

(** One pass of the dialling task of a seed peer: whether the connection is
    made, what the peer says on it, which writes succeed, and the turns of the
    session if one opens. *)
Record Attempt := mkAttempt {
  at_connected : bool;
  at_inbox : list Incoming;
  at_sends : list bool;
  at_turns : list (bool * list Incoming * list bool)
}.
(** The guard after the pass, and whether the session still runs. *)
Definition seed_attempt (fuel : nat) (peer_addr : string) (guard : SyncGuard) (a : Attempt) : act (SyncGuard * bool) :=
  on_stream (at_inbox a) (at_sends a)
    (opened ← open_seed_session (at_connected a) peer_addr;
     match opened with
     | Some generation => seed_session fuel peer_addr generation guard None (at_turns a)
     | None => mret (guard, false)
     end).
(** The endless loop over as many passes as were made; the delay between two of
    them is the world's. *)
Fixpoint seed_attempts (fuel : nat) (peer_addr : string) (guard : SyncGuard) (attempts : list Attempt) : act () :=
  match attempts with
  | [] => mret ()
  | a :: attempts =>
      '(guard, running) ← seed_attempt fuel peer_addr guard a;
      if (running : bool) then mret () else seed_attempts fuel peer_addr guard attempts
  end.
Definition seed_peer_loop (fuel : nat) (peer_addr : string) (attempts : list Attempt) : act () :=
  if bool_decide (parse_socket peer_addr = None) then mret ()
  else seed_attempts fuel peer_addr new_guard attempts.
End services.
