(* ===== verification/Api.v ===== *)
(** * The HTTP API ([src/api/state.rs], [src/api/transactions.rs], [src/api/alpha.rs])

    What each request computes from the shared state, and the tables that turn
    results into responses.  Routing, JSON and the sockets are third-party: a
    request's body is what the JSON parser makes of it. *)
From S2P Require Import Prelude Crypto Constants Transaction Block StateRoot VisionX Sled ChainState Storage Snapshots Genesis Accept Manager Admission Pool Net Protocol Peers Sessions Recovery World.

(** ** Submitting a transaction *)
Record TransactionSubmissionAccepted := mkAccepted {
  ta_tx_id : string; ta_current_nonce : Z; ta_decision : AdmissionDecision
}.
Record TransactionSubmissionRejected := mkRejected {
  tr_tx_id : string; tr_current_nonce : Z; tr_error : MempoolAdmissionError
}.
Inductive TransactionSubmissionResult :=
| SubmissionAccepted (a : TransactionSubmissionAccepted)
| SubmissionRejected (r : TransactionSubmissionRejected).

(** A code and its message. *)
Record TransactionSubmissionHttpError := mkHttpError { he_code : string; he_message : string }.
Record TransactionAdmissionDecisionHttp := mkDecisionHttp { hd_kind : string; hd_evict_tx_id : option string }.
Record TransactionSubmissionHttpResponse := mkResponse {
  hr_status : string;
  hr_tx_id : option string;
  hr_current_nonce : option Z;
  hr_decision : option TransactionAdmissionDecisionHttp;
  hr_error : option TransactionSubmissionHttpError
}.
Definition response_accepted (tx_id : string) (current_nonce : Z)
    (decision : TransactionAdmissionDecisionHttp) : TransactionSubmissionHttpResponse :=
  mkResponse "accepted" (Some tx_id) (Some current_nonce) (Some decision) None.
Definition response_rejected (tx_id : string) (current_nonce : Z)
    (error : TransactionSubmissionHttpError) : TransactionSubmissionHttpResponse :=
  mkResponse "rejected" (Some tx_id) (Some current_nonce) None (Some error).
Definition response_malformed_request : TransactionSubmissionHttpResponse :=
  mkResponse "malformed_request" None None None
    (Some (mkHttpError "malformed_request" "request body must be a canonical signed Tx JSON object")).

Definition transaction_admission_decision_http (d : AdmissionDecision) : TransactionAdmissionDecisionHttp :=
  match d with
  | Accept => mkDecisionHttp "accept" None
  | Replace evict_tx_id => mkDecisionHttp "replace" (Some evict_tx_id)
  end.
Definition tx_signature_error_http (e : TxSignatureError) : TransactionSubmissionHttpError :=
  match e with
  | SenderPubkeyWrongLength =>
      mkHttpError "sender_pubkey_wrong_length" "sender_pubkey must be 64 lowercase hex characters"
  | SenderPubkeyNotLowercaseHex =>
      mkHttpError "sender_pubkey_not_lowercase_hex" "sender_pubkey must be lowercase hex"
  | SignatureWrongLength => mkHttpError "signature_wrong_length" "sig must be 128 lowercase hex characters"
  | SignatureNotLowercaseHex => mkHttpError "signature_not_lowercase_hex" "sig must be lowercase hex"
  | MalformedPublicKey =>
      mkHttpError "malformed_public_key" "sender_pubkey is not a valid Ed25519 public key"
  | InvalidSignature => mkHttpError "invalid_signature" "signature verification failed"
  end.
Definition tx_validation_error_http (e : TxValidationError) : TransactionSubmissionHttpError :=
  match e with
  | TxTooLarge => mkHttpError "tx_too_large" "serialized transaction exceeds 64 KiB"
  | MissingSenderPubkey =>
      mkHttpError "missing_sender_pubkey" "non-coinbase transactions require sender_pubkey"
  | MissingSignature => mkHttpError "missing_signature" "non-coinbase transactions require sig"
  | UnsupportedModuleMethod =>
      mkHttpError "unsupported_module_method" "only supported module/method pairs may be submitted"
  | BadTransferArgs =>
      mkHttpError "bad_transfer_args" "cash::transfer args must decode as the canonical transfer payload"
  | InvalidTransferDestination =>
      mkHttpError "invalid_transfer_destination"
        "transfer destination must be a 64-character lowercase hex account key"
  | TransferAmountZero => mkHttpError "transfer_amount_zero" "transfer amount must be greater than zero"
  | TransferToSelf => mkHttpError "transfer_to_self" "transfer destination must differ from the sender"
  | FeeLimitTooLow => mkHttpError "fee_limit_too_low" "fee_limit must be at least 201"
  | Signature signature_error => tx_signature_error_http signature_error
  end.
Definition transaction_submission_error_http (e : MempoolAdmissionError) : TransactionSubmissionHttpError :=
  match e with
  | StatelessValidation validation_error => tx_validation_error_http validation_error
  | DuplicateCanonicalTxId =>
      mkHttpError "duplicate_canonical_tx_id"
        "a transaction with the same canonical tx_id already exists in the mempool"
  | StaleNonce _ _ =>
      mkHttpError "stale_nonce" "transaction nonce is behind the sender's current canonical nonce"
  | MempoolNonceGap _ _ =>
      mkHttpError "nonce_gap" "transaction nonce skips ahead of the sender's current canonical nonce"
  | DuplicateSenderNonce _ _ _ _ =>
      mkHttpError "duplicate_sender_nonce" "a pending transaction for this sender and nonce already exists"
  end.

(** ** Snapshots of the node *)
Record MiningStatusSnapshot := mkMiningStatus {
  ms_available : bool; ms_active : bool; msn_blocks_found : Z;
  ms_recovery_state : string; ms_paused_reason : option string
}.
Definition mining_unavailable : MiningStatusSnapshot := mkMiningStatus false false 0 "normal" None.
Record NodeStatusSnapshot := mkNodeStatus {
  ns_version : string;
  ns_canonical_tip_height : Z;
  ns_canonical_tip_hash : string;
  ns_cached_state_root_height : option Z;
  ns_cached_state_root : option string;
  ns_mempool_size : Z;
  ns_peer_count : nat;
  ns_counts : PeerCounts;
  ns_mining : MiningStatusSnapshot;
  ns_recovery : RecoveryStatusSnapshot
}.
(** The hash rate estimate, which is always absent, is left out. *)
Record MiningInfoResponse := mkMiningInfo {
  mi_enabled : bool; mi_height : Z; mi_difficulty : Z; mi_epoch : Z; mi_active : bool;
  mi_recovery_state : string; mi_paused_reason : option string
}.
Record AccountBalanceSnapshot := mkBalanceSnapshot { ab_address : string; ab_exists : bool; ab_balance : Z }.
Record AccountNonceSnapshot := mkNonceSnapshot { an_address : string; an_exists : bool; an_nonce : Z }.
Record TransactionLookupSnapshot := mkLookup {
  tl_tx_id : string; tl_found : bool; tl_block_hash : option string;
  tl_block_height : option Z; tl_tx_index : option nat; tl_tx : option Tx
}.
Record AlphaAirdropSnapshot := mkAirdrop {
  aa_status : string; aa_scope : string; aa_address : string; aa_amount : Z;
  aa_balance : Z; aa_canonical_tip_height : Z; aa_cached_state_root : string
}.
Inductive AlphaAirdropError :=
| Disabled | InvalidAddress | ZeroAmount | StateRootComputationFailed | SnapshotPersistenceFailed.
Definition alpha_airdrop_error_http (e : AlphaAirdropError) : Z * TransactionSubmissionHttpError :=
  match e with
  | Disabled => (404, mkHttpError "airdrop_disabled"
      "alpha local funding is disabled unless VISION_ALPHA_AIRDROP_ENABLED=true")
  | InvalidAddress => (422, mkHttpError "invalid_address"
      "address must be a 64-character lowercase hex string")
  | ZeroAmount => (422, mkHttpError "zero_amount" "amount must be greater than zero")
  | StateRootComputationFailed => (500, mkHttpError "state_root_error"
      "could not recompute canonical state root after funding")
  | SnapshotPersistenceFailed => (500, mkHttpError "snapshot_persistence_error"
      "could not persist alpha funding snapshot")
  end.

(** The airdrop's response, and its request as the JSON parser reads it. *)
Record AlphaAirdropHttpResponse := mkAlphaResponse {
  ar_status : string; ar_scope : string; ar_address : option string; ar_amount : option Z;
  ar_balance : option Z; ar_canonical_tip_height : option Z; ar_cached_state_root : option string;
  ar_error : option TransactionSubmissionHttpError
}.
Definition alpha_accepted (s : AlphaAirdropSnapshot) : AlphaAirdropHttpResponse :=
  mkAlphaResponse (aa_status s) (aa_scope s) (Some (aa_address s)) (Some (aa_amount s))
    (Some (aa_balance s)) (Some (aa_canonical_tip_height s)) (Some (aa_cached_state_root s)) None.
Definition alpha_rejected (error : TransactionSubmissionHttpError) : AlphaAirdropHttpResponse :=
  mkAlphaResponse "rejected" "alpha_dev_only" None None None None None (Some error).
Definition alpha_malformed_request : AlphaAirdropHttpResponse :=
  mkAlphaResponse "malformed_request" "alpha_dev_only" None None None None None
    (Some (mkHttpError "malformed_request" "request body must be a JSON object with address and amount")).

Section api.
Context {C : Crypto} {TC : TxCodec} {SL : Sled} {SC : StoreCodec}.
(** [serde_json::from_slice::<Tx>]. *)
Context (tx_of_json : list byte → option Tx).

Definition chain_nonce_of (g : ChainState) (address : string) : Z := default 0 (nonces g !! address).
Definition chain_balance_of (g : ChainState) (address : string) : Z := default 0 (balances g !! address).

Definition submit_transaction (chain : ChainState) (mempool : Pool) (tx : Tx)
    : Pool * TransactionSubmissionResult :=
  let tx_id := canonical_tx_id tx in
  let current_nonce := chain_nonce_of chain (tx_sender_pubkey tx) in
  match admit_tx mempool tx current_nonce with
  | (pool, Ok decision) => (pool, SubmissionAccepted (mkAccepted tx_id current_nonce decision))
  | (pool, Err error) => (pool, SubmissionRejected (mkRejected tx_id current_nonce error))
  end.
(** The status code and the response of a POST. *)
Definition submit_transaction_http (chain : ChainState) (mempool : Pool) (body : list byte)
    : Pool * Z * TransactionSubmissionHttpResponse :=
  match tx_of_json body with
  | None => (mempool, 400, response_malformed_request)
  | Some tx =>
      match submit_transaction chain mempool tx with
      | (pool, SubmissionAccepted a) =>
          (pool, 200, response_accepted (ta_tx_id a) (ta_current_nonce a)
                        (transaction_admission_decision_http (ta_decision a)))
      | (pool, SubmissionRejected r) =>
          (pool, 422, response_rejected (tr_tx_id r) (tr_current_nonce r)
                        (transaction_submission_error_http (tr_error r)))
      end
  end.

(** The peer counts are zero without a registry. *)
Definition status_snapshot (s : Shared) (has_peers : bool) : NodeStatusSnapshot :=
  let g := sh_chain s in
  let recovery := recovery_snapshot (sh_recovery s) in
  let mining :=
    match sh_miner s with
    | Some miner =>
        mkMiningStatus true (is_mining miner && negb (should_pause_mining (sh_recovery s)))
          (ms_blocks_found (stats miner)) (rs_state recovery) (rs_reason recovery)
    | None => mining_unavailable
    end in
  mkNodeStatus NODE_VERSION (current_height g) (tip_hash g) (fst <$> cached_state_root g)
    (snd <$> cached_state_root g) (pool_len (sh_pool s))
    (if has_peers then connected_count (sh_peers s) else 0%nat)
    (if has_peers then peer_counts (sh_peers s) else mkCounts 0 0 0 0 0) mining recovery.
Definition mining_info_snapshot (s : Shared) : run MiningInfoResponse :=
  let g := sh_chain s in
  let recovery := recovery_snapshot (sh_recovery s) in
  e ← epoch VISIONX_PARAMS (current_height g);
  Done (mkMiningInfo (bool_decide (is_Some (sh_miner s))) (current_height g) (difficulty g) e
    (match sh_miner s with Some miner => is_mining miner | None => false end
       && negb (should_pause_mining (sh_recovery s)))
    (rs_state recovery) (rs_reason recovery)).
Definition balance_snapshot (g : ChainState) (address : string) : AccountBalanceSnapshot :=
  mkBalanceSnapshot address (bool_decide (is_Some (balances g !! address))) (chain_balance_of g address).
Definition nonce_snapshot (g : ChainState) (address : string) : AccountNonceSnapshot :=
  mkNonceSnapshot address (bool_decide (is_Some (nonces g !! address))) (chain_nonce_of g address).

(** The first transaction with the identifier, by block and position; then the
    pool. *)
Fixpoint find_tx (tx_id : string) (i : nat) (txs : list Tx) : option (nat * Tx) :=
  match txs with
  | [] => None
  | tx :: txs => if bool_decide (canonical_tx_id tx = tx_id) then Some (i, tx) else find_tx tx_id (S i) txs
  end.
Fixpoint find_in_blocks (tx_id : string) (height : Z) (bs : list Block) : option TransactionLookupSnapshot :=
  match bs with
  | [] => None
  | b :: bs =>
      match find_tx tx_id 0 (b_txs b) with
      | Some (i, tx) => Some (mkLookup tx_id true (Some (block_hash b)) (Some height) (Some i) (Some tx))
      | None => find_in_blocks tx_id (height + 1) bs
      end
  end.
Definition transaction_snapshot (g : ChainState) (pool : Pool) (tx_id : string) : TransactionLookupSnapshot :=
  match find_in_blocks tx_id 0 (blocks g) with
  | Some found => found
  | None =>
      match pool_get pool tx_id with
      | Some tx => mkLookup tx_id true None None None (Some tx)
      | None => mkLookup tx_id false None None None None
      end
  end.

(** The development airdrop: credit, recompute the root, save a snapshot; all
    undone in memory when a step fails. *)
Definition airdrop_steps (address : string) (amount : Z) (chain : ChainState)
    : ChainState * result AlphaAirdropError AlphaAirdropSnapshot :=
  let height := current_height chain in
  match compute_state_root (balances chain) (nonces chain) with
  | Err _ => (chain, Err StateRootComputationFailed)
  | Ok state_root =>
      let chain := set_cached_state_root (Some (height, state_root)) chain in
      match save_snapshot height chain with
      | (chain, Err _) => (chain, Err SnapshotPersistenceFailed)
      | (chain, Ok _) =>
          (chain, Ok (mkAirdrop "accepted" "alpha_dev_only" address amount
                        (chain_balance_of chain address) height state_root))
      end
  end.
Definition alpha_airdrop (enabled : bool) (address : string) (amount : Z) (chain : ChainState)
    : ChainState * result AlphaAirdropError AlphaAirdropSnapshot :=
  if negb enabled then (chain, Err Disabled)
  else if negb (is_hex64 address) then (chain, Err InvalidAddress)
  else if amount =? 0 then (chain, Err ZeroAmount)
  else
    let previous_balance := balances chain !! address in
    let previous_cached_state_root := cached_state_root chain in
    let '(chain, result) := airdrop_steps address amount (credit_balance chain address amount) in
    match result with
    | Ok _ => (chain, result)
    | Err _ =>
        let balances := match previous_balance with
                        | Some balance => <[address := balance]> (balances chain)
                        | None => delete address (balances chain)
                        end in
        (set_cached_state_root previous_cached_state_root (set_accounts balances (nonces chain) chain), result)
    end.
(** The status code and the response of the POST; [request] is the parsed body. *)
Definition post_alpha_airdrop (enabled : bool) (request : option (string * Z)) (chain : ChainState)
    : ChainState * Z * AlphaAirdropHttpResponse :=
  match request with
  | None => (chain, 400, alpha_malformed_request)
  | Some (address, amount) =>
      match alpha_airdrop enabled address amount chain with
      | (chain, Ok snapshot) => (chain, 200, alpha_accepted snapshot)
      | (chain, Err e) =>
          let '(code, error) := alpha_airdrop_error_http e in (chain, code, alpha_rejected error)
      end
  end.
End api.

(** ** Theory *)
Section api_theory.
Context {C : Crypto} {TC : TxCodec} {SL : Sled} {SLL : SledLaws SL} {SC : StoreCodec}.

Lemma storage_op_put_state h v (g : ChainState) :
  ∃ d r, (storage_op (db_put h v) : stm ChainState SnapshotError ()) g = (set_db d g, r).
Proof.
  unfold storage_op. destruct (db_put h v g) as [g1 r] eqn:E.
  exists (db g1), (map_err SnapStorage r). by rewrite <- (db_put_state _ _ _ _ _ E).
Qed.
Lemma save_snapshot_state h g : ∃ d r, save_snapshot h g = (set_db d g, r).
Proof.
  unfold save_snapshot, stm_get, mbind, stm_bind, stm_lift.
  destruct (compute_state_root (balances g) (nonces g)) as [root|e]; cbn [map_err].
  2: { exists (db g). eexists. by destruct g. }
  destruct (storage_op_put_state (snap_balances_key h) (bincode_balances (balances g)) g) as (d1 & r1 & ->).
  destruct r1; [|by exists d1; eexists].
  destruct (storage_op_put_state (snap_nonces_key h) (bincode_nonces (nonces g)) (set_db d1 g)) as (d2 & r2 & ->).
  destruct r2; [|by exists d2; eexists].
  destruct (storage_op_put_state (snapshot_key h) (bincode_meta (h, tip_hash g)) (set_db d2 (set_db d1 g))) as (d3 & r3 & ->).
  destruct r3; [|by exists d3; eexists].
  destruct (storage_op_put_state (snapshot_root_key h) (bincode_root root) (set_db d3 (set_db d2 (set_db d1 g)))) as (d4 & r4 & ->).
  by exists d4, r4.
Qed.

(** A refused airdrop leaves the node's memory as it was. *)
Lemma alpha_airdrop_undone enabled address amount g g' e :
  alpha_airdrop enabled address amount g = (g', Err e) → g' = set_db (db g') g.
Proof.
  unfold alpha_airdrop. destruct enabled; [|intros [= <- <-]; by destruct g].
  destruct (is_hex64 address); [|intros [= <- <-]; by destruct g]. cbn [negb].
  destruct (amount =? 0); [intros [= <- <-]; by destruct g|].
  set (b1 := balances (credit_balance g address amount)).
  assert (match balances g !! address with Some b => <[address := b]> b1 | None => delete address b1 end = balances g) as Hb.
  { unfold b1, credit_balance. cbn [set_accounts balances]. destruct (balances g !! address) as [b|] eqn:Eb.
    - rewrite insert_insert_eq. by apply insert_id.
    - rewrite delete_insert_eq. by apply delete_id. }
  assert (∀ d c, set_cached_state_root (cached_state_root g)
    (set_accounts (match balances g !! address with Some b => <[address := b]> b1 | None => delete address b1 end)
      (nonces g) (set_db d (set_cached_state_root c (credit_balance g address amount)))) = set_db d g) as Hg
    by (intros d c; rewrite Hb; by destruct g).
  unfold airdrop_steps. destruct (compute_state_root _ _) as [root|].
  - destruct (save_snapshot_state (current_height (credit_balance g address amount))
      (set_cached_state_root (Some (current_height (credit_balance g address amount), root)) (credit_balance g address amount)))
      as (d & [[]|e1] & ->); [done|]. intros [= <- <-].
    refine (eq_trans (Hg d _) _). done.
  - intros [= <- <-]. refine (eq_trans (Hg (db g) (cached_state_root g)) _). done.
Qed.
End api_theory.
