(* ===== verification/Http.v ===== *)
(** * The HTTP server ([src/api/routes.rs], [status.rs], [peers.rs], [read_only.rs], [mining.rs])

    The state the handlers are given, the route table, and what each handler
    answers.  Matching a path and a method against the table is the framework's;
    JSON is third-party: a response is the value that is serialised. *)
From S2P Require Import Prelude Crypto Constants Transaction Block VisionX Sled ChainState Accept Manager Admission Pool Net Protocol Peers Sessions Recovery World Api.

(** ** The API's state and routes *)

(** Which of the optional parts [NodeApiState] was given; the chain, the
    mempool and the recovery state are always there. *)
Record NodeApiState := mkApiState {
  as_peer_manager : bool;
  as_miner_manager : bool;
  as_recovery_shared : bool;  (* false: a recovery state of its own *)
  as_alpha_airdrop_enabled : bool
}.
Definition new_api_state : NodeApiState := mkApiState false false false false.
Definition with_peer_manager (a : NodeApiState) : NodeApiState :=
  mkApiState true (as_miner_manager a) (as_recovery_shared a) (as_alpha_airdrop_enabled a).
Definition with_miner_manager (a : NodeApiState) : NodeApiState :=
  mkApiState (as_peer_manager a) true (as_recovery_shared a) (as_alpha_airdrop_enabled a).
Definition with_recovery_state (a : NodeApiState) : NodeApiState :=
  mkApiState (as_peer_manager a) (as_miner_manager a) true (as_alpha_airdrop_enabled a).
Definition with_alpha_airdrop_enabled (enabled : bool) (a : NodeApiState) : NodeApiState :=
  mkApiState (as_peer_manager a) (as_miner_manager a) (as_recovery_shared a) enabled.

Inductive HttpMethod := Get | Post.
Inductive Handler :=
| HGetStatus | HListPeers | HGetBalance | HGetNonce | HGetTransaction | HGetMiningInfo
| HSubmitTransaction | HAlphaAirdrop.
Definition route : Type := HttpMethod * string * Handler.
Definition api_router (a : NodeApiState) : list route :=
  let router :=
    [ (Get, "/status", HGetStatus);
      (Get, "/peers", HListPeers);
      (Get, "/balance/:address", HGetBalance);
      (Get, "/nonce/:address", HGetNonce);
      (Get, "/transaction/:txid", HGetTransaction);
      (Get, "/mining/info", HGetMiningInfo);
      (Post, "/transactions", HSubmitTransaction) ] in
  if as_alpha_airdrop_enabled a then router ++ [(Post, "/alpha/airdrop", HAlphaAirdrop)] else router.

Record PeerEntry := mkPeerEntry {
  pe_addr : string; pe_state : string; pe_height : Z; pe_outbound : bool; pe_height_age_secs : option Z
}.
(** A stub: the list is always empty. *)
Definition list_peers : list PeerEntry := [].

(** ** The handlers *)
Inductive HttpBody :=
| BStatus (r : NodeStatusSnapshot)
| BPeers (r : list PeerEntry)
| BBalance (r : AccountBalanceSnapshot)
| BNonce (r : AccountNonceSnapshot)
| BTransaction (r : TransactionLookupSnapshot)
| BMiningInfo (r : MiningInfoResponse)
| BSubmission (r : TransactionSubmissionHttpResponse)
| BAirdrop (r : AlphaAirdropHttpResponse).

Section http.
Context {C : Crypto} {TC : TxCodec} {SL : Sled} {SC : StoreCodec}.
(** [serde_json] on request bodies. *)
Context (tx_of_json : list byte → option Tx) (airdrop_of_json : list byte → option (string * Z)).
Context (a : NodeApiState).

(** What the handlers see: a part they were not given is absent, or their own. *)
Definition api_view (s : Shared) : Shared :=
  set_miner (if as_miner_manager a then sh_miner s else None)
    (set_recovery (if as_recovery_shared a then sh_recovery s else new_recovery) s).

Definition get_status (s : Shared) : NodeStatusSnapshot := status_snapshot (api_view s) (as_peer_manager a).
Definition get_balance (address : string) (s : Shared) : AccountBalanceSnapshot :=
  balance_snapshot (sh_chain s) address.
Definition get_nonce (address : string) (s : Shared) : AccountNonceSnapshot := nonce_snapshot (sh_chain s) address.
Definition get_transaction (txid : string) (s : Shared) : TransactionLookupSnapshot :=
  transaction_snapshot (sh_chain s) (sh_pool s) txid.
Definition get_mining_info (s : Shared) : run MiningInfoResponse := mining_info_snapshot (api_view s).

(** The answer to a request for a route: the state after it, the status code
    and the response.  [arg] is the path's parameter. *)
Definition respond (h : Handler) (arg : string) (body : list byte) (s : Shared) : run (Shared * (Z * HttpBody)) :=
  match h with
  | HGetStatus => Done (s, (200, BStatus (get_status s)))
  | HListPeers => Done (s, (200, BPeers list_peers))
  | HGetBalance => Done (s, (200, BBalance (get_balance arg s)))
  | HGetNonce => Done (s, (200, BNonce (get_nonce arg s)))
  | HGetTransaction => Done (s, (200, BTransaction (get_transaction arg s)))
  | HGetMiningInfo => r ← get_mining_info s; Done (s, (200, BMiningInfo r))
  | HSubmitTransaction =>
      let '(pool, code, r) := submit_transaction_http tx_of_json (sh_chain s) (sh_pool s) body in
      Done (set_pool pool s, (code, BSubmission r))
  | HAlphaAirdrop =>
      let '(chain, code, r) := post_alpha_airdrop (as_alpha_airdrop_enabled a) (airdrop_of_json body) (sh_chain s) in
      Done (set_node (set_chain chain (sh_node s)) s, (code, BAirdrop r))
  end.
(** A request, under the chain's lock. *)
Definition answer_request (h : Handler) (arg : string) (body : list byte) : act (Z * HttpBody) :=
  locked (respond h arg body).

(** ** What a request can do *)

Lemma submit_pool chain pool body : (submit_transaction_http tx_of_json chain pool body).1.1 = pool ∨
  ∃ tx, tx_of_json body = Some tx ∧
    (submit_transaction_http tx_of_json chain pool body).1.1 =
      (admit_tx pool tx (chain_nonce_of chain (tx_sender_pubkey tx))).1.
Proof.
  unfold submit_transaction_http, submit_transaction. destruct (tx_of_json body) as [tx|]; [right|by left].
  exists tx. split; [done|]. by destruct (admit_tx pool tx _) as [p []].
Qed.

(** Only the routes that post change anything: a submission the pool, the
    airdrop, where it is enabled, the accounts.  No request panics. *)
Lemma respond_total h arg body s :
  ∃ s' r, respond h arg body s = Done (s', r) ∧
    match h with
    | HSubmitTransaction => s' = s ∨ ∃ tx, tx_of_json body = Some tx ∧
        s' = set_pool (admit_tx (sh_pool s) tx (chain_nonce_of (sh_chain s) (tx_sender_pubkey tx))).1 s
    | HAlphaAirdrop => ∃ chain, s' = set_node (set_chain chain (sh_node s)) s ∧
        (as_alpha_airdrop_enabled a = false → s' = s)
    | _ => s' = s
    end.
Proof.
  destruct h; cbn [respond]; try (eexists _, _; split; [done|done]).
  - pose proof (submit_pool (sh_chain s) (sh_pool s) body) as H.
    destruct (submit_transaction_http _ _ _ _) as [[pool code] r]. cbn [fst] in H.
    eexists _, _. split; [done|]. destruct H as [->|(tx & E & ->)]; [left; by destruct s|right; eauto].
  - destruct (post_alpha_airdrop _ _ _) as [[chain code] r] eqn:E. eexists _, _. split; [done|].
    exists chain. split; [done|]. intros Ha. rewrite Ha in E. unfold post_alpha_airdrop, alpha_airdrop in E.
    assert (chain = sh_chain s) as ->.
    { destruct (airdrop_of_json body) as [[addr amt]|]; cbn in E; congruence. }
    by destruct s as [[] ? ? ? ? ? ? ? ?].
Qed.
End http.
