(* ===== verification/Production.v ===== *)
(** * Mining over a poisoned pool

    A transaction that no block can contain is admitted to the pool, never
    leaves it, and keeps the node from producing candidates: the theory of
    [Services.mining_turn] with the transactions [Api.submit_transaction]
    accepts. *)
From S2P Require Import Prelude Crypto Constants Transaction Block StateRoot Difficulty HistoricalVpow VisionX VisionXMiner Sled ChainState Storage Snapshots Reward Job Reorg Orphan Genesis Accept Manager Admission Pool Net Protocol Peers Sessions Recovery World Connection Sync Services Api.

Section production.
Context {C : Crypto} {TC : TxCodec} {SL : Sled} {SC : StoreCodec}.
Context (params : VisionXParams) (clock : nat → Z).

(** Only transfers execute. *)
Lemma execute_txs_module st txs tx : tx ∈ txs → tx_module tx ≠ "cash" → ∀ st', execute_txs st txs ≠ Ok st'.
Proof.
  intros Hin Hm. revert st. induction txs as [|x txs IH]; intros st st'; [by apply elem_of_nil in Hin|].
  cbn [execute_txs]. apply elem_of_cons in Hin as [<-|Hin].
  - unfold simulate_tx_execution. rewrite bool_decide_false by done. done.
  - destruct (simulate_tx_execution st x) as [r|]; [|done]. cbn [mbind result_bind]. by apply IH.
Qed.

(** The candidates drawn from the pool contain the transaction. *)
Definition selected (pool : Pool) (tx : Tx) : Prop :=
  tx ∈ take (Z.to_nat (BLOCK_TARGET_TXS - 1)) (select_for_block pool (Z.to_nat BLOCK_TARGET_TXS)).

Lemma build_candidate_stalls m n counter addr pool tx :
  epoch_blocks (mm_params m) ≠ 0 → selected pool tx → tx_module tx ≠ "cash" →
  ∃ n' counter', build_candidate_for_tip clock m n counter addr
      (select_for_block pool (Z.to_nat BLOCK_TARGET_TXS)) = Done (n', counter', None) ∧
    n_chain n' = n_chain n ∧ n_datasets n' = n_datasets n.
Proof.
  intros He Hin Hm. unfold build_candidate_for_tip. destruct (last (blocks (n_chain n))) as [tip|]; [|by eexists _, _].
  cbn [read_clock next_job_id]. unfold build_candidate_with_params, epoch.
  rewrite (proj2 (Z.eqb_neq _ _) He). cbn [mbind run_bind].
  match goal with |- context [execute_candidate ?g ?a ?h ?j] =>
    assert (execute_candidate g a h j = None) as -> end; [|by eexists _, _].
  unfold execute_candidate. cbn [mj_txs].
  destruct (execute_txs _ _) as [st|] eqn:E; [exfalso|done].
  exact (execute_txs_module _ _ tx Hin Hm _ E).
Qed.

(** A node that mines, over a pool with such a transaction. *)
Definition poisoned (w : World) : Prop :=
  w_others w = [] ∧ (∃ m, sh_miner (w_shared w) = Some m ∧ epoch_blocks (mm_params m) ≠ 0) ∧
  ∃ tx, selected (sh_pool (w_shared w)) tx ∧ tx_module tx ≠ "cash".

Lemma find_block_stalls fuel addr counter w : poisoned w →
  ∃ w' counter', find_block clock fuel addr counter w = Done (w', Ok (counter', None)) ∧
    poisoned w' ∧ sh_pool (w_shared w') = sh_pool (w_shared w) ∧ sh_chain (w_shared w') = sh_chain (w_shared w).
Proof.
  destruct w as [s ib ob sd os]. intros (Ho & (m & Hm & He) & tx & Hin & Htx). cbn [w_others w_shared] in *. subst os.
  assert (∀ s' (counter' : Z), sh_pool s' = sh_pool s → sh_chain s' = sh_chain s →
    (∃ m', sh_miner s' = Some m' ∧ epoch_blocks (mm_params m') ≠ 0) →
    ∃ w' counter'', (Done (mkWorld s' ib ob sd [], Ok (counter', None)) : run (World * result NetError (Z * option Block)))
        = Done (w', Ok (counter'', None)) ∧
      poisoned w' ∧ sh_pool (w_shared w') = sh_pool s ∧ sh_chain (w_shared w') = sh_chain s) as Hend.
  { intros s' c' H1 H2 H3. eexists _, _. split; [done|]. split; [|done]. split; [done|]. split; [done|].
    exists tx. cbn [w_shared]. by rewrite H1. }
  unfold find_block. act_step.
  destruct (_ <? MIN_PEERS_FOR_MINING).
  { act_step. apply Hend; [done|done|]. cbn [set_miner sh_miner]. rewrite Hm. by eexists. }
  act_step. destruct (should_pause_mining (sh_recovery s)).
  { act_step. apply Hend; [done|done|]. cbn [set_miner sh_miner]. rewrite Hm. by eexists. }
  destruct (build_candidate_stalls m (sh_node s) counter addr (sh_pool s) tx He Hin Htx) as (n' & c' & E & Hc & _).
  erewrite (act_bind_Done _ _ _ (mkWorld (set_node n' s) ib ob sd []) (c', None)).
  - apply Hend; [done|done|]. by exists m.
  - unfold next_candidate, locked. cbn [w_others w_shared]. rewrite Hm, E. reflexivity.
Qed.
Lemma mining_turn_stalls fuel addr counter w : poisoned w →
  ∃ w' counter', mining_turn params clock fuel addr counter w = Done (w', Ok (counter', None)) ∧
    poisoned w' ∧ sh_pool (w_shared w') = sh_pool (w_shared w) ∧ sh_chain (w_shared w') = sh_chain (w_shared w).
Proof.
  intros Hw. destruct (find_block_stalls fuel addr counter w Hw) as (w' & c' & E & H). exists w', c'.
  split; [|exact H]. unfold mining_turn. by rewrite (act_bind_Done _ _ _ _ _ E).
Qed.

(** [n] turns of the miner's loop, and what each produced. *)
Fixpoint mining_turns (n fuel : nat) (addr : string) (counter : Z) : act (list (option AcceptResult)) :=
  match n with
  | O => mret []
  | S n =>
      '(counter, produced) ← mining_turn params clock fuel addr counter;
      rest ← mining_turns n fuel addr counter;
      mret (produced :: rest)
  end.

(** An unsigned coinbase reward is admitted to a pool that holds neither it
    nor a bid for its slot. *)
Lemma coinbase_admitted chain pool tx :
  tx_module tx = "coinbase" → tx_method tx = "reward" → serialized_tx_size tx ≤ MAX_SERIALIZED_TX_BYTES →
  tx_nonce tx = chain_nonce_of chain (tx_sender_pubkey tx) → 0 ≤ tx_nonce tx ≤ U64_MAX →
  (∀ e, e ∈ pending pool → canonical_tx_id e ≠ canonical_tx_id tx ∧ same_slot tx e = false) →
  admit_tx pool tx (chain_nonce_of chain (tx_sender_pubkey tx)) =
    (insert_locked pool (tx_key tx) tx, Ok Accept).
Proof.
  intros H1 H2 Hs Hn Hr He. unfold admit_tx, evaluate, validate_tx_stateless.
  rewrite (proj2 (Z.ltb_ge _ _) Hs), !bool_decide_true by done.
  cbn [andb map_err mbind result_bind ma_pending ma_current_nonce].
  destruct (existsb _ _) eqn:E1.
  { apply existsb_exists in E1 as (e & Hin%list_elem_of_In & Hid%bool_decide_eq_true). by destruct (He e Hin). }
  rewrite <- Hn, Z.ltb_irrefl.
  rewrite (proj2 (Z.ltb_ge _ _)) by (unfold sat_add64; lia).
  destruct (List.find _ _) as [e|] eqn:E2; [|done].
  apply find_some in E2 as [Hin%list_elem_of_In Hss]. destruct (He e Hin) as [_ Hf]. congruence.
Qed.

Lemma selected_insert pool tx :
  (length (order pool) < Z.to_nat (BLOCK_TARGET_TXS - 1))%nat → Z.of_nat (size (by_id pool)) < MEMPOOL_MAX →
  selected (insert_locked pool (tx_key tx) tx) tx.
Proof.
  intros Hl Hs. unfold selected, select_for_block, insert_locked. rewrite (proj2 (Z.leb_gt _ _) Hs).
  cbn [order by_id]. unfold BLOCK_TARGET_TXS in *.
  rewrite (take_ge (order pool ++ _)) by (rewrite length_app; cbn [length]; lia).
  set (m := <[tx_key tx := tx]> (by_id pool)). unfold txs_of. cbn [by_id].
  assert (∀ l, (length (omap (λ id, m !! id) l) ≤ length l)%nat) as Hlen.
  { intros l. induction l as [|x l IH]; [done|]. csimpl. destruct (m !! x); csimpl; lia. }
  rewrite take_ge by (etrans; [apply Hlen|]; rewrite length_app; cbn [length]; lia).
  apply list_elem_of_omap. exists (tx_key tx). split; [apply elem_of_app; right; left|]. apply lookup_insert_eq.
Qed.

Lemma mining_turns_stall n fuel addr : ∀ counter w, poisoned w →
  ∃ w', mining_turns n fuel addr counter w = Done (w', Ok (replicate n None)) ∧
    sh_pool (w_shared w') = sh_pool (w_shared w) ∧ sh_chain (w_shared w') = sh_chain (w_shared w).
Proof.
  induction n as [|n IH]; intros counter w Hw; cbn [mining_turns replicate]; [by exists w|].
  destruct (mining_turn_stalls fuel addr counter w Hw) as (w1 & c1 & E1 & Hw1 & Hp1 & Hc1).
  destruct (IH c1 w1 Hw1) as (w2 & E2 & Hp2 & Hc2).
  exists w2. rewrite (act_bind_Done _ _ _ _ _ E1), (act_bind_Done _ _ _ _ _ E2).
  split; [done|]. split; congruence.
Qed.

(** Anyone can stop a node from mining: an unsigned [coinbase::reward]
    transaction is accepted through the API, and from then on no turn of the
    miner's loop produces a candidate, while the transaction stays pooled. *)
Theorem coinbase_tx_stalls_mining s m tx :
  sh_miner s = Some m → epoch_blocks (mm_params m) ≠ 0 →
  tx_module tx = "coinbase" → tx_method tx = "reward" → serialized_tx_size tx ≤ MAX_SERIALIZED_TX_BYTES →
  tx_nonce tx = chain_nonce_of (sh_chain s) (tx_sender_pubkey tx) → 0 ≤ tx_nonce tx ≤ U64_MAX →
  (∀ e, e ∈ pending (sh_pool s) → canonical_tx_id e ≠ canonical_tx_id tx ∧ same_slot tx e = false) →
  (length (order (sh_pool s)) < Z.to_nat (BLOCK_TARGET_TXS - 1))%nat →
  Z.of_nat (size (by_id (sh_pool s))) < MEMPOOL_MAX →
  ∃ pool, submit_transaction (sh_chain s) (sh_pool s) tx =
      (pool, SubmissionAccepted (mkAccepted (canonical_tx_id tx) (tx_nonce tx) Accept)) ∧
    ∀ n fuel addr counter, ∃ w',
      mining_turns n fuel addr counter (mkWorld (set_pool pool s) [] [] [] []) = Done (w', Ok (replicate n None)) ∧
      sh_pool (w_shared w') = pool ∧ sh_chain (w_shared w') = sh_chain s.
Proof.
  intros Hm He H1 H2 Hs Hn Hr Hfree Hl Hsz. eexists. split.
  - unfold submit_transaction. rewrite (coinbase_admitted _ _ _ H1 H2 Hs Hn Hr Hfree). by rewrite <- Hn.
  - intros n fuel addr counter.
    apply (mining_turns_stall n fuel addr counter (mkWorld (set_pool _ s) [] [] [] [])).
    split; [done|]. split; [by exists m|]. exists tx. split; [by apply selected_insert|by rewrite H1].
Qed.
End production.

(** An empty pool on a fresh node, and the transaction. *)
#[local] Existing Instances toy_sled.
Definition poison_tx : Tx := mkTx 0 EmptyString "coinbase" "reward" [] 0 0 EmptyString.
Definition poison_miner : MinerManager := new_manager VISIONX_PARAMS 0.
Definition poison_shared : Shared :=
  mkShared (mkNode (empty_state toy_db) (mkPowCache [] ∅) empty_cache 0) new_peer_manager new_pool
    new_recovery new_registry (Some poison_miner) None None 0.
Lemma coinbase_tx_stalls_mining_witness :
  ∃ pool, submit_transaction (sh_chain poison_shared) new_pool poison_tx =
      (pool, SubmissionAccepted (mkAccepted (canonical_tx_id poison_tx) 0 Accept)) ∧
    ∀ n fuel addr counter, ∃ w',
      mining_turns VISIONX_PARAMS (λ _, 0) n fuel addr counter (mkWorld (set_pool pool poison_shared) [] [] [] [])
        = Done (w', Ok (replicate n None)) ∧
      sh_pool (w_shared w') = pool ∧ sh_chain (w_shared w') = sh_chain poison_shared.
Proof.
  refine (coinbase_tx_stalls_mining VISIONX_PARAMS (λ _, 0) poison_shared poison_miner poison_tx
    eq_refl _ eq_refl eq_refl _ eq_refl _ _ _ _).
  - discriminate.
  - vm_compute. discriminate.
  - split; vm_compute; discriminate.
  - intros e He. by apply elem_of_nil in He.
  - change (0 < Z.to_nat (BLOCK_TARGET_TXS - 1))%nat. unfold BLOCK_TARGET_TXS. lia.
  - vm_compute. reflexivity.
Defined.
