(* ===== verification/Gate.v ===== *)
(** * What an inbound connection can do ([Connection])

    The gate an unknown peer faces: nothing is told to it before a compatible
    handshake, the chain is never touched from a connection, and a block
    reaches the importer only as the answer to a request made on the same
    connection. *)
From S2P Require Import Prelude Crypto Constants Transaction Block Genesis VisionX Sled ChainState Accept Manager Admission Pool Net Protocol Peers Sessions Recovery World Connection.

(** ** Reasoning about a task

    From worlds in [P] the computation ends without panic, in [Q] with a
    value or in [F] with an error. *)
Section triples.
Context {C : Crypto} {TC : TxCodec} {SL : Sled} {SC : StoreCodec}.

Definition triple {A} (P : World → Prop) (m : act A) (Q : A → World → Prop) (F : World → Prop) : Prop :=
  ∀ w, P w → ∃ w' r, m w = Done (w', r) ∧ match r with Ok a => Q a w' | Err _ => F w' end.

Lemma triple_ret {A} (a : A) (P : World → Prop) (Q : A → World → Prop) F :
  (∀ w, P w → Q a w) → triple P (mret a) Q F.
Proof. intros H w Hw. exists w, (Ok a). eauto. Qed.
Lemma triple_fail {A} e (P : World → Prop) (Q : A → World → Prop) (F : World → Prop) :
  (∀ w, P w → F w) → triple P (fail e) Q F.
Proof. intros H w Hw. exists w, (Err e). eauto. Qed.
Lemma triple_bind {A B} P (m : act A) (R : A → World → Prop) (f : A → act B) Q F :
  triple P m R F → (∀ a, triple (R a) (f a) Q F) → triple P (m ≫= f) Q F.
Proof.
  intros H1 H2 w Hw. destruct (H1 w Hw) as (w1 & [a|e] & E & H); unfold mbind, act_bind; rewrite E.
  - exact (H2 a w1 H).
  - exists w1, (Err e). eauto.
Qed.
Lemma triple_attempt {A} P (m : act A) (Q : A → World → Prop) F F' :
  triple P m Q F → triple P (attempt m) (λ r w, match r with Ok a => Q a w | Err _ => F w end) F'.
Proof. intros H w Hw. destruct (H w Hw) as (w1 & r & E & H1). exists w1, (Ok r). unfold attempt. by rewrite E. Qed.
Lemma triple_weaken {A} (P P' : World → Prop) (m : act A) (Q Q' : A → World → Prop) (F F' : World → Prop) :
  triple P' m Q' F' → (∀ w, P w → P' w) → (∀ a w, Q' a w → Q a w) → (∀ w, F' w → F w) → triple P m Q F.
Proof.
  intros H H1 H2 H3 w Hw. destruct (H w (H1 w Hw)) as (w1 & r & E & H4). exists w1, r. split; [done|].
  destruct r; auto.
Qed.
Lemma triple_ex {A B} (P : B → World → Prop) (m : act A) (Q : A → World → Prop) F :
  (∀ b, triple (P b) m Q F) → triple (λ w, ∃ b, P b w) m Q F.
Proof. intros H w [b Hb]. exact (H b w Hb). Qed.
Lemma triple_pure {A} (φ : Prop) P (m : act A) (Q : A → World → Prop) F :
  (φ → triple P m Q F) → triple (λ w, φ ∧ P w) m Q F.
Proof. intros H w [Hφ Hw]. exact (H Hφ w Hw). Qed.
End triples.

Section gate.
Context {C : Crypto} {TC : TxCodec} {SL : Sled} {SC : StoreCodec}.
Context (instant : nat → Z) (m : P2PConnectionManager) (addr : SocketAddr).
(** Where the connection starts. *)
Context (node0 : Node) (queue0 : option (list InboundBlock)) (inbox0 : list Incoming).

(** The interfering tasks that leave the chain and the import queue as they
    are. *)
Definition leaves_alone (o : Shared → Shared) : Prop :=
  ∀ s, sh_node (o s) = sh_node s ∧ sh_inbound (o s) = sh_inbound s.

(** The connection has queued [new] and sent [out]. *)
Record told (new : list InboundBlock) (out : list P2PMessage) (w : World) : Prop := {
  td_others : Forall leaves_alone (w_others w);
  td_node : sh_node (w_shared w) = node0;
  td_queue : sh_inbound (w_shared w) = (λ q, q ++ new) <$> queue0;
  td_outbox : w_outbox w = out;
  td_inbox : w_inbox w `suffix_of` inbox0
}.

Abbreviation never := (λ _ : World, False).

(** A lock section that neither the chain nor the queue is part of. *)
Lemma triple_locked {A} new out (f : Shared → run (Shared * A)) F :
  (∀ s, ∃ s' a, f s = Done (s', a) ∧ sh_node s' = sh_node s ∧ sh_inbound s' = sh_inbound s) →
  triple (told new out) (locked f) (λ _, told new out) F.
Proof.
  intros Hf w [Ho Hn Hq Hout Hin]. unfold locked.
  destruct (w_others w) as [|o os] eqn:Eo.
  - destruct (Hf (w_shared w)) as (s' & a & -> & E1 & E2). eexists _, _. split; [done|].
    split; cbn [w_others w_shared w_outbox w_inbox]; [done|congruence|congruence|done|done].
  - apply Forall_cons in Ho as [Hos Ho]. destruct (Hos (w_shared w)) as [E3 E4].
    destruct (Hf (o (w_shared w))) as (s' & a & -> & E1 & E2). eexists _, _. split; [done|].
    split; cbn [w_others w_shared w_outbox w_inbox]; [done|congruence|congruence|done|done].
Qed.
Lemma triple_read {A} new out (f : Shared → A) F :
  triple (told new out) (read_shared f) (λ _, told new out) F.
Proof. apply triple_locked. intros s. by eexists _, _. Qed.
Lemma triple_update new out (f : Shared → Shared) F :
  leaves_alone f → triple (told new out) (update_shared f) (λ _, told new out) F.
Proof. intros Hf. apply triple_locked. intros s. eexists _, _. split; [done|]. apply Hf. Qed.
Lemma triple_with_peers new out f F :
  triple (told new out) (with_peers instant f) (λ _, told new out) F.
Proof. apply triple_update. by intros s. Qed.

Lemma triple_send new out msg :
  triple (told new out) (send_message msg) (λ _, told new (out ++ [msg])) (told new out).
Proof.
  intros w [Ho Hn Hq Hout Hin]. unfold send_message.
  destruct (w_sends w) as [|[] sends]; eexists _, _; (split; [done|]);
    (split; cbn [set_stream w_others w_shared w_outbox w_inbox]; [done..|congruence|done]).
Qed.
Lemma next_incoming_spec l msg l' : next_incoming l = (msg, l') →
  l' `suffix_of` l ∧ ∀ x, msg = Some x → Received x ∈ l.
Proof.
  induction l as [|[x| |] l IH]; simpl; intros E; simplify_eq/=.
  - done.
  - split; [by apply suffix_cons_r|]. intros y [= <-]. left.
  - split; [by apply suffix_cons_r|done].
  - destruct (IH E) as [H1 H2]. split; [by apply suffix_cons_r|]. intros y Hy. right. by apply H2.
Qed.
Lemma suffix_elem (l k : list Incoming) x : l `suffix_of` k → x ∈ l → x ∈ k.
Proof. intros [p ->] Hx. apply elem_of_app. by right. Qed.
Lemma triple_recv new out :
  triple (told new out) recv_message (λ msg w, Received msg ∈ inbox0 ∧ told new out w) (told new out).
Proof.
  intros w [Ho Hn Hq Hout Hin]. unfold recv_message. destruct (next_incoming (w_inbox w)) as [msg l] eqn:E.
  destruct (next_incoming_spec _ _ _ E) as [H1 H2]. eexists _, _. split; [done|].
  destruct msg as [msg|]; [split; [eapply suffix_elem; [exact Hin|by apply H2]|]|];
    (split; cbn [set_stream w_others w_shared w_outbox w_inbox]; [done..|by etrans]).
Qed.
Lemma triple_recv_timeout new out peer :
  triple (told new out) (recv_timeout peer) (λ _, told new out) (told new out).
Proof.
  intros w Ht. unfold recv_timeout. destruct (w_inbox w) as [|i l] eqn:E.
  { by eexists _, _. }
  assert (told new out (set_stream l (w_outbox w) (w_sends w) w)) as H.
  { destruct Ht as [Ho Hn Hq Hout Hin]. split; cbn [set_stream w_others w_shared w_outbox w_inbox]; try done.
    etrans; [|exact Hin]. rewrite E. by apply suffix_cons_r. }
  by destruct i; eexists _, _.
Qed.
Lemma triple_enqueue new out b p F :
  triple (told new out) (locked (λ s, Done (enqueue_block b p s)))
    (λ sent, told (if sent : bool then new ++ [mkInbound b p] else new) out) F.
Proof.
  intros w [Ho Hn Hq Hout Hin].
  assert (∀ s, sh_node s = node0 → sh_inbound s = (λ q, q ++ new) <$> queue0 → ∀ others, Forall leaves_alone others →
    ∃ s' sent, enqueue_block b p s = (s', sent) ∧
      told (if sent : bool then new ++ [mkInbound b p] else new) out (mkWorld s' (w_inbox w) (w_outbox w) (w_sends w) others)) as H.
  { intros s H1 H2 others Hoth. unfold enqueue_block. rewrite H2. destruct queue0 as [q|] eqn:Eq; simpl; eexists _, _; (split; [done|]);
      split; cbn [set_inbound w_others w_shared w_outbox w_inbox sh_node sh_inbound]; try done.
    - rewrite Eq. simpl. by rewrite <- app_assoc.
    - by rewrite H2, Eq. }
  unfold locked. destruct (w_others w) as [|o os] eqn:Eo.
  - destruct (H _ Hn Hq [] (Forall_nil_2 _)) as (s' & sent & -> & Ht). eexists _, _. split; [done|]. exact Ht.
  - apply Forall_cons in Ho as [Hos Ho]. destruct (Hos (w_shared w)) as [E3 E4].
    destruct (H (o (w_shared w)) ltac:(congruence) ltac:(congruence) os Ho) as (s' & sent & -> & Ht).
    eexists _, _. split; [done|]. exact Ht.
Qed.

(** Whatever is sent, the queue stays; what was sent before stays sent. *)
Definition told_more (new : list InboundBlock) (out : list P2PMessage) (w : World) : Prop :=
  ∃ more, told new (out ++ more) w.
Lemma told_told_more new out w : told new out w → told_more new out w.
Proof. intros H. exists []. by rewrite app_nil_r. Qed.
Lemma told_more_trans new out out' w : told_more new (out ++ out') w → told_more new out w.
Proof. intros [more H]. exists (out' ++ more). by rewrite (assoc_L (++)). Qed.

(** Lift a step that sends something known or nothing. *)
Lemma triple_more {A} new out (x : act A) F :
  (∀ out, triple (told new out) x (λ _, told_more new out) (told_more new out)) →
  (∀ w, told_more new out w → F w) → triple (told_more new out) x (λ _, told_more new out) F.
Proof.
  intros H HF. apply triple_ex. intros more. eapply triple_weaken; [apply (H (out ++ more))|done| |].
  - intros ? w. apply told_more_trans.
  - intros w Hw. by apply HF, (told_more_trans _ _ more).
Qed.
Lemma triple_send_more new out msg :
  triple (told_more new out) (send_message msg) (λ _, told_more new out) (told_more new out).
Proof.
  apply triple_more; [|done]. intros o.
  eapply triple_weaken; [apply triple_send|done|intros ? w Hw; by exists [msg]|apply told_told_more].
Qed.
Lemma triple_peers_more new out f F :
  triple (told_more new out) (with_peers instant f) (λ _, told_more new out) F.
Proof. apply triple_ex. intros more. eapply triple_weaken; [apply triple_with_peers|done|intros ? w Hw; by exists more|done]. Qed.
Lemma triple_read_more {A} new out (f : Shared → A) F :
  triple (told_more new out) (read_shared f) (λ _, told_more new out) F.
Proof. apply triple_ex. intros more. eapply triple_weaken; [apply triple_read|done|intros ? w Hw; by exists more|done]. Qed.
Lemma triple_recv_timeout_more new out peer :
  triple (told_more new out) (recv_timeout peer) (λ _, told_more new out) (told_more new out).
Proof. apply triple_ex. intros more. eapply triple_weaken; [apply triple_recv_timeout|done|intros ? w Hw; by exists more|intros w Hw; by exists more]. Qed.
Lemma triple_answer_height_more new out :
  triple (told_more new out) answer_height (λ _, told_more new out) (told_more new out).
Proof.
  eapply triple_bind; [|intros a; apply triple_send_more].
  apply triple_read_more.
Qed.

Lemma triple_await_summary new out peer generation n :
  triple (told_more new out) (await_summary instant peer generation n) (λ _, told_more new out) (told_more new out).
Proof.
  induction n as [|n IH]; cbn [await_summary]; [by apply triple_fail|].
  eapply triple_bind; [apply triple_recv_timeout_more|]. intros [hs|t|t| |sm|a|h|b|r]; try (by apply triple_fail).
  - eapply triple_bind; [apply triple_send_more|done].
  - eapply triple_bind; [apply triple_answer_height_more|done].
  - apply triple_peers_more.
Qed.
Lemma triple_request_summary new out peer generation :
  triple (told_more new out) (request_inbound_peer_summary instant peer generation)
    (λ _, told_more new out) (told_more new out).
Proof.
  eapply triple_bind; [apply triple_peers_more|intros ?].
  eapply triple_bind; [apply triple_send_more|intros ?]. apply triple_await_summary.
Qed.

(** ** The states of the handler *)
Definition requests (out : list P2PMessage) : list string :=
  omap (λ msg, match msg with GetBlock h => Some h | _ => None end) out.
Definition is_disconnect (msg : P2PMessage) : Prop :=
  match msg with Disconnect _ => True | _ => False end.
Abbreviation hashes new := ((λ b, block_hash (ib_block b)) <$> new).
Abbreviation canonical_hashes := (Forall (λ h : string, is_canonical_hash h = true)).
Definition greeted : Prop :=
  ∃ hs, Received (MHandshake hs) ∈ inbox0 ∧ validate_handshake hs (cm_local_node_nonce m) = Accepted.

(** Before the handshake, after it, and when the loop has ended. *)
Definition gate_before (w : World) : Prop := ∃ out, Forall is_disconnect out ∧ told [] out w.
Definition gate_after (requested : option string) (w : World) : Prop :=
  greeted ∧ ∃ new out, (canonical_hashes (hashes new ++ option_list requested) ∧
    (hashes new ++ option_list requested) `sublist_of` requests out) ∧ told new out w.
Definition gate_open (c : Conn) (w : World) : Prop :=
  if cn_handshake_done c then gate_after (cn_requested_block_hash c) w
  else c = new_conn ∧ gate_before w.
Definition gate_closed (c : Conn) (w : World) : Prop :=
  if cn_handshake_done c then gate_after None w else cn_active_session c = None ∧ gate_before w.
Definition gate_post (r : Conn * bool) (w : World) : Prop :=
  if r.2 then gate_open r.1 w else gate_closed r.1 w.

Lemma requests_app a b : requests (a ++ b) = requests a ++ requests b.
Proof. apply omap_app. Qed.
Lemma gate_after_None r w : gate_after r w → gate_after None w.
Proof.
  intros [Hg (new & out & [H1 H2] & H3)]. split; [done|]. exists new, out. split; [|done].
  cbn [option_list]. rewrite app_nil_r. split; [by apply Forall_app in H1 as [? _]|].
  etrans; [|exact H2]. by apply sublist_inserts_r.
Qed.
Lemma gate_open_closed c w : gate_open c w → gate_closed c w.
Proof.
  unfold gate_open, gate_closed. destruct (cn_handshake_done c); [apply gate_after_None|].
  by intros [-> ?].
Qed.
Lemma told_more_after requested new out w : greeted → canonical_hashes (hashes new ++ option_list requested) →
  (hashes new ++ option_list requested) `sublist_of` requests out → told_more new out w → gate_after requested w.
Proof.
  intros Hg H1 H2 [more H]. split; [done|]. exists new, (out ++ more). split; [split; [done|]|done].
  rewrite requests_app. by apply sublist_inserts_r.
Qed.

Lemma triple_keep_going c P : (∀ w, P w → gate_open c w) → triple P (continue_with c) gate_post never.
Proof. intros H. by apply triple_ret. Qed.
Lemma triple_close c P : (∀ w, P w → gate_closed c w) → triple P (close c) gate_post never.
Proof. intros H. by apply triple_ret. Qed.
Lemma triple_send_or_close c msg new out :
  (∀ w, told new (out ++ [msg]) w → gate_open c w) → (∀ w, told new out w → gate_closed c w) →
  triple (told new out) (send_or_close c msg) gate_post never.
Proof.
  intros H1 H2. eapply triple_bind; [apply triple_attempt, triple_send|].
  intros [[]|e]; [by apply triple_keep_going|by apply triple_close].
Qed.
(** What is sent goes to a greeted peer. *)
Lemma triple_reply c msg new out : cn_handshake_done c = true → greeted →
  canonical_hashes (hashes new ++ option_list (cn_requested_block_hash c)) →
  (hashes new ++ option_list (cn_requested_block_hash c)) `sublist_of` requests out →
  triple (told new out) (send_or_close c msg) gate_post never.
Proof.
  intros Hd Hg H1 H2.
  apply triple_send_or_close; intros w Hw; [|apply gate_open_closed]; unfold gate_open; rewrite Hd;
    eapply told_more_after; [done|done|exact H2|by exists [msg]|done|done|exact H2|by apply told_told_more].
Qed.

(** ** Each message *)
Lemma triple_say_goodbye c reason out : cn_handshake_done c = false → cn_active_session c = None →
  Forall is_disconnect out →
  triple (told [] out) (_ ← attempt (send_message (Disconnect reason)); close c) gate_post never.
Proof.
  intros Hd Ha Ho.
  assert (∀ out' w, Forall is_disconnect out' → told [] out' w → gate_closed c w) as H.
  { intros out' w Ho' Hw. unfold gate_closed. rewrite Hd. split; [done|]. by exists out'. }
  eapply triple_bind; [apply triple_attempt, triple_send|]. intros [[]|e]; apply triple_close.
  - intros w. apply H. apply Forall_app_2; [done|]. by apply Forall_singleton.
  - intros w. by apply H.
Qed.

Lemma triple_on_handshake out hs : Forall is_disconnect out → Received (MHandshake hs) ∈ inbox0 →
  triple (told [] out) (on_handshake instant m addr new_conn hs) gate_post never.
Proof.
  intros Ho Hhs. unfold on_handshake. cbn [cn_handshake_done new_conn].
  eapply triple_bind; [apply triple_read|]. intros height.
  eapply triple_bind; [apply triple_read|]. intros local_hs.
  assert (∀ reason, triple (told [] out)
    (_ ← update_shared (λ s, set_peers (upsert (sh_peers s) (show_socket addr) false) s);
     _ ← update_shared (λ s, set_peers (set_state (sh_peers s) (show_socket addr) Disconnected) s);
     _ ← attempt (send_message (Disconnect reason)); close new_conn) gate_post never) as Hrej.
  { intros reason. eapply triple_bind; [by apply triple_update; intros s|]. intros [].
    eapply triple_bind; [by apply triple_update; intros s|]. intros []. by apply triple_say_goodbye. }
  destruct (validate_handshake hs (cm_local_node_nonce m)) eqn:Hv; try apply Hrej. clear Hrej.
  assert (greeted) as Hg by (by exists hs).
  eapply triple_bind.
  { apply triple_locked. intros s. destruct (resolve_inbound_peer_key _ _ _ _) as [pm key].
    by eexists _, _. }
  intros [peer_key|reason]; [|by apply triple_say_goodbye].
  eapply triple_bind; [apply triple_update; by destruct (cm_has_discovery m); intros s|]. intros [].
  eapply triple_bind; [apply triple_attempt, triple_send|]. intros [[]|e].
  2: { apply triple_close. intros w Hw. split; [done|]. by exists out. }
  eapply triple_bind.
  { unfold register_session. eapply triple_bind; [apply triple_locked; intros s; by eexists _, _|].
    intros g. eapply triple_bind; [by apply triple_update; intros s|]. intros []. apply triple_ret; intros w Hw; exact Hw. }
  intros generation.
  eapply triple_bind; [by apply triple_update; intros s|]. intros [].
  eapply triple_bind; [apply triple_with_peers|]. intros [].
  set (c := mkConn _ _ _).
  assert (∀ w, told_more [] (out ++ [MHandshake local_hs]) w → gate_open c w) as Hopen.
  { intros w Hw. eapply told_more_after; [done| | |exact Hw]; [apply Forall_nil_2|apply sublist_nil_l]. }
  case_bool_decide.
  - apply triple_keep_going. intros w Hw. by apply Hopen, told_told_more.
  - eapply triple_bind.
    + eapply triple_weaken; [apply triple_attempt, triple_request_summary|
        apply told_told_more|intros r w Hw; exact Hw|intros w Hw; exact Hw].
    + intros r. apply triple_keep_going. intros w Hw. destruct r; by apply Hopen.
Qed.

(** A session past its handshake. *)
Section greeted_session.
Context (c : Conn) (new : list InboundBlock) (out : list P2PMessage).
Context (Hd : cn_handshake_done c = true) (Hg : greeted).
Context (Hcan : canonical_hashes (hashes new ++ option_list (cn_requested_block_hash c))).
Context (Hsub : (hashes new ++ option_list (cn_requested_block_hash c)) `sublist_of` requests out).

Lemma session_open w : told new out w → gate_open c w.
Proof. intros Hw. unfold gate_open. rewrite Hd. eapply told_more_after; [done..|by apply told_told_more]. Qed.
Lemma session_closed w : told new out w → gate_closed c w.
Proof. intros Hw. by apply gate_open_closed, session_open. Qed.

Lemma triple_on_announcement a : triple (told new out) (on_message instant m addr c (MAnnounceBlock a)) gate_post never.
Proof.
  pose proof session_open as Hopen. pose proof session_closed as Hclosed.
  unfold on_message. rewrite Hd. cbn [negb andb].
  destruct (is_canonical_hash (an_hash a)) eqn:Hh; cbn [negb orb]; [|by apply triple_close].
  destruct (is_canonical_hash (an_prev a)); cbn [negb]; [|by apply triple_close].
  eapply triple_bind; [apply triple_read|]. intros known.
  case_bool_decide as Hnone; rewrite ?andb_true_r, ?andb_false_r; [|by apply triple_keep_going].
  destruct known; cbn [negb]; [by apply triple_keep_going|]. clear Hopen Hclosed.
  rewrite Hnone in *. cbn [option_list] in *. rewrite app_nil_r in *.
  apply triple_send_or_close; intros w Hw; unfold gate_open, gate_closed; cbn [with_requested cn_handshake_done]; rewrite Hd.
  - eapply told_more_after; [done| | |by apply told_told_more]; cbn [cn_requested_block_hash option_list].
    + apply Forall_app_2; [done|]. by apply Forall_singleton.
    + rewrite requests_app. by apply sublist_app.
  - eapply told_more_after; [done| | |by apply told_told_more]; cbn [option_list]; by rewrite app_nil_r.
Qed.
Lemma triple_on_block b : triple (told new out) (on_message instant m addr c (MBlock b)) gate_post never.
Proof.
  pose proof session_closed as Hclosed. unfold on_message. rewrite Hd. cbn [negb andb].
  destruct (cn_requested_block_hash c) as [expected|] eqn:Hreq; [|by apply triple_close].
  cbn [option_list] in *. set (c' := with_requested None c).
  assert (∀ w, told new out w → gate_open c' w) as Hopen'.
  { intros w Hw. unfold gate_open, c'. cbn [with_requested cn_handshake_done cn_requested_block_hash]. rewrite Hd.
    apply (gate_after_None (Some expected)). eapply told_more_after; [done..|by apply told_told_more]. }
  case_bool_decide as Hb; cbn [negb]; [|apply triple_close; intros w Hw; by apply gate_open_closed, Hopen'].
  destruct (cm_has_importer m); cbn [negb]; [|by apply triple_keep_going].
  eapply triple_bind; [apply triple_enqueue|]. intros [].
  - apply triple_keep_going. intros w Hw. unfold gate_open, c'.
    cbn [with_requested cn_handshake_done cn_requested_block_hash]. rewrite Hd.
    eapply told_more_after; [done| | |by apply told_told_more]; cbn [option_list];
      rewrite app_nil_r, fmap_app; cbn [fmap list_fmap ib_block]; by rewrite Hb.
  - apply triple_close. intros w Hw. by apply gate_open_closed, Hopen'.
Qed.
Lemma triple_on_request h : triple (told new out) (on_message instant m addr c (GetBlock h)) gate_post never.
Proof.
  unfold on_message. rewrite Hd. cbn [negb andb].
  eapply triple_bind; [apply triple_read|]. intros [b|]; [by apply triple_reply|].
  eapply triple_bind; [apply triple_attempt, triple_send|]. intros r. apply triple_close. intros w Hw.
  unfold gate_closed. rewrite Hd. apply (gate_after_None (cn_requested_block_hash c)).
  eapply told_more_after; [done..|].
  destruct r as [[]|e]; [by exists [Disconnect ("unknown block " +:+ h)]|by apply told_told_more].
Qed.
Lemma triple_on_session msg : triple (told new out) (on_message instant m addr c msg) gate_post never.
Proof.
  pose proof session_open as Hopen. pose proof session_closed as Hclosed.
  destruct msg as [hs|t|t| |sm|a|h|b|r];
    [..|apply triple_on_announcement|apply triple_on_request|apply triple_on_block|];
    unfold on_message; rewrite Hd; cbn [negb andb].
  - unfold on_handshake. rewrite Hd. by apply triple_close.
  - by apply triple_reply.
  - by apply triple_keep_going.
  - eapply triple_bind; [apply triple_read|]. intros s. by apply triple_reply.
  - destruct (cn_active_session c) as [[peer g]|].
    + eapply triple_bind; [apply triple_with_peers|]. intros ?. by apply triple_keep_going.
    + apply (triple_bind _ _ (λ _, told new out)); [by apply triple_ret|]. intros ?. by apply triple_keep_going.
  - by apply triple_close.
Qed.
End greeted_session.

Lemma triple_on_message c msg :
  triple (λ w, Received msg ∈ inbox0 ∧ gate_open c w) (on_message instant m addr c msg) gate_post never.
Proof.
  apply triple_pure. intros Hmsg. unfold gate_open. destruct (cn_handshake_done c) eqn:Hd.
  - apply triple_pure. intros Hg. apply triple_ex. intros new. apply triple_ex. intros out.
    apply triple_pure. intros [Hcan Hsub]. by apply triple_on_session.
  - apply triple_pure. intros ->. apply triple_ex. intros out. apply triple_pure. intros Ho.
    assert (∀ w, told [] out w → gate_closed new_conn w) as Hc by (intros w Hw; split; [done|by exists out]).
    unfold on_message. cbn [new_conn cn_handshake_done negb andb].
    destruct msg; cbn [is_pre_handshake negb]; try (by apply triple_close).
    by apply triple_on_handshake.
Qed.

(** ** The loop *)
Lemma triple_frame {A} P (x : act A) :
  (∀ new out, triple (told new out) x (λ _, told new out) never) →
  (∃ φ : list InboundBlock → list P2PMessage → Prop, ∀ w, P w ↔ ∃ new out, φ new out ∧ told new out w) →
  triple P x (λ _, P) never.
Proof.
  intros Hx [φ Hφ] w (new & out & H1 & H2)%Hφ. destruct (Hx new out w H2) as (w' & r & E & H3).
  exists w', r. split; [done|]. destruct r; [|done]. apply Hφ. eauto.
Qed.
Lemma gate_after_told requested : ∃ φ : list InboundBlock → list P2PMessage → Prop,
  ∀ w, gate_after requested w ↔ ∃ new out, φ new out ∧ told new out w.
Proof.
  exists (λ new out, greeted ∧ canonical_hashes (hashes new ++ option_list requested) ∧
    (hashes new ++ option_list requested) `sublist_of` requests out).
  intros w. split; [intros (H1 & new & out & [H2 H3] & H4)|intros (new & out & (H1 & H2 & H3) & H4)].
  - by exists new, out.
  - split; [done|]. by exists new, out.
Qed.
Lemma triple_frame_closed {A} c (x : act A) :
  (∀ new out, triple (told new out) x (λ _, told new out) never) →
  triple (gate_closed c) x (λ _, gate_closed c) never.
Proof.
  intros Hx. unfold gate_closed. destruct (cn_handshake_done c).
  - apply triple_frame; [done|]. apply gate_after_told.
  - apply triple_frame; [done|].
    exists (λ new out, cn_active_session c = None ∧ new = [] ∧ Forall is_disconnect out).
    intros w. split; [intros (H1 & out & H2 & H3)|intros (new & out & (H1 & -> & H3) & H4)]; [by exists [], out|].
    split; [done|]. by exists out.
Qed.

Lemma triple_take_turn c t : triple (gate_open c) (take_turn instant m addr c t) gate_post never.
Proof.
  destruct t; unfold take_turn.
  - apply (triple_bind _ _ (λ r w, match r with
      | Ok msg => Received msg ∈ inbox0 ∧ gate_open c w | Err _ => gate_closed c w end)).
    + eapply triple_weaken; [apply (triple_attempt _ _ (λ msg w, Received msg ∈ inbox0 ∧ gate_open c w) (gate_closed c) never)|done| |done].
      * intros w Hw. unfold gate_open, gate_closed in *. destruct (cn_handshake_done c).
        -- destruct Hw as [Hg (new & out & H & Hw)].
           destruct (triple_recv new out w Hw) as (w' & r & E & Hr). exists w', r. split; [done|].
           destruct r; [destruct Hr as [Hin Hr]; split; [done|]|apply (gate_after_None (cn_requested_block_hash c))];
             (split; [done|]); by exists new, out.
        -- destruct Hw as [-> (out & H & Hw)].
           destruct (triple_recv [] out w Hw) as (w' & r & E & Hr). exists w', r. split; [done|].
           destruct r; [destruct Hr as [Hin Hr]; split; [done|]|]; (split; [done|]); by exists out.
      * intros [msg|e] w Hw; exact Hw.
    + intros [msg|e]; [apply triple_on_message|by apply triple_close].
  - destruct (cn_active_session c) as [[peer generation]|] eqn:Ha; [|by apply triple_keep_going].
    unfold gate_open. destruct (cn_handshake_done c) eqn:Hd.
    2: { intros w [-> _]. done. }
    apply triple_pure. intros Hg. apply triple_ex. intros new. apply triple_ex. intros out.
    apply triple_pure. intros [Hcan Hsub].
    eapply triple_bind.
    { apply triple_locked. intros s. destruct (recv_session _ _ _). by eexists _, _. }
    intros [msg|]; [by apply triple_reply|]. apply triple_keep_going. intros w Hw.
    unfold gate_open. rewrite Hd. eapply told_more_after; [done..|by apply told_told_more].
Qed.

Lemma triple_finish new out peer generation :
  triple (told new out) (finish_session peer generation) (λ _, told new out) never.
Proof.
  eapply triple_bind.
  { apply triple_locked. intros s. destruct (unregister _ _ _). by eexists _, _. }
  intros [latest|]; [|by apply triple_ret]. by apply triple_update; intros s.
Qed.

Lemma triple_handle_turns turns : ∀ c,
  triple (gate_open c) (handle_turns instant m addr c turns) gate_post never.
Proof.
  induction turns as [|t turns IH]; intros c; cbn [handle_turns]; [by apply triple_keep_going|].
  eapply triple_bind; [apply triple_take_turn|]. intros [c1 []]; [apply IH|].
  unfold gate_post. cbn [fst snd].
  apply (triple_bind _ _ (λ _, gate_closed c1)); [|intros ?; by apply triple_close].
  destruct (cn_active_session c1) as [[peer generation]|]; [|by apply triple_ret].
  apply triple_frame_closed. intros new out. apply triple_finish.
Qed.
End gate.

Section gate_theorem.
Context {C : Crypto} {TC : TxCodec} {SL : Sled} {SC : StoreCodec}.
Context (instant : nat → Z) (m : P2PConnectionManager) (addr : SocketAddr).

(** C36: The gate in front of the node.  Whatever a connecting peer sends, and
    however its messages interleave with other tasks and with write failures,
    the handler does not panic and leaves the chain alone; every block it
    queues for import has a hash the handler asked this peer for, each request
    answered at most once; and before a handshake compatible with the node's
    protocol, chain, genesis, economics and proof of work, the peer gets
    nothing but a refusal, no session and no block through. *)
Theorem inbound_gate turns w :
  Forall leaves_alone (w_others w) → w_outbox w = [] →
  ∃ w' c go_on, handle_inbound instant m addr turns w = Done (w', Ok (c, go_on)) ∧
    sh_node (w_shared w') = sh_node (w_shared w) ∧
    ∃ queued, sh_inbound (w_shared w') = (λ q, q ++ queued) <$> sh_inbound (w_shared w) ∧
      ((λ b, block_hash (ib_block b)) <$> queued) `sublist_of` requests (w_outbox w') ∧
      (cn_handshake_done c = true → ∃ hs,
        Received (MHandshake hs) ∈ w_inbox w ∧ compatible hs (cm_local_node_nonce m)) ∧
      (cn_handshake_done c = false →
        cn_active_session c = None ∧ queued = [] ∧ Forall is_disconnect (w_outbox w')).
Proof.
  intros Hoth Hout.
  destruct (triple_handle_turns instant m addr (sh_node (w_shared w)) (sh_inbound (w_shared w)) (w_inbox w)
    turns new_conn w) as (w' & [[c go_on]|e] & E & H); [| |done].
  { split; [done|]. exists []. split; [done|]. split; [done|done| |done|done].
    destruct (sh_inbound (w_shared w)); simpl; [by rewrite app_nil_r|done]. }
  exists w', c, go_on. split; [exact E|].
  assert (gate_closed m (sh_node (w_shared w)) (sh_inbound (w_shared w)) (w_inbox w) c w') as Hc.
  { destruct go_on; [by apply gate_open_closed|exact H]. }
  unfold gate_closed in Hc. destruct (cn_handshake_done c).
  - destruct Hc as ((hs & Hin & Hv) & new & out & [_ Hsub] & Ht). split; [apply Ht|]. exists new.
    cbn [option_list] in Hsub. rewrite app_nil_r in Hsub. rewrite (td_outbox _ _ _ _ _ _ Ht).
    split_and!; [apply Ht|done| |done]. intros _. exists hs. split; [done|]. by apply validate_handshake_Accepted.
  - destruct Hc as (Ha & out & Hout' & Ht). split; [apply Ht|]. exists []. rewrite (td_outbox _ _ _ _ _ _ Ht).
    split_and!; [apply Ht|by apply sublist_nil_l|done|done].
Qed.
End gate_theorem.

(** A peer that greets, announces a block and delivers it, while its write
    queue and another task interleave. *)
#[local] Existing Instances toy_sled.
Definition gate_manager : P2PConnectionManager :=
  with_block_receiver (new_conn_manager (mkSocket (V4 [127; 0; 0; 1]) 7000 0) 1 2 3).
Definition gate_hash (k : ascii) : string := string_of_list_ascii (replicate 64 k).
Definition gate_block : Block := genesis_block.
Definition gate_world : World :=
  mkWorld (mkShared (mkNode (empty_state toy_db) (mkPowCache [] ∅) empty_cache 0) new_peer_manager new_pool
      new_recovery new_registry None (Some []) None 0)
    [Received (MHandshake (new_handshake 2 7));
     Received (MAnnounceBlock (mkAnnounce 0 GENESIS_HASH GENESIS_HASH));
     Received (MBlock gate_block); Received (MBlock gate_block)] [] [] [tick].
Lemma inbound_gate_witness :
  Forall leaves_alone (w_others gate_world) ∧
  match handle_inbound (λ _, 0) gate_manager (mkSocket (V4 [10; 0; 0; 2]) 5000 0)
      [FromPeer; FromPeer; FromQueue; FromPeer; FromPeer] gate_world with
  | Done (w', Ok (c, go_on)) => length <$> sh_inbound (w_shared w') = Some 1%nat
  | _ => False
  end ∧
  ∃ w' c go_on, handle_inbound (λ _, 0) gate_manager (mkSocket (V4 [10; 0; 0; 2]) 5000 0)
      [FromPeer; FromPeer; FromQueue; FromPeer; FromPeer] gate_world = Done (w', Ok (c, go_on)).
Proof.
  assert (Forall leaves_alone (w_others gate_world)) as H by (apply Forall_singleton; by intros s).
  split; [exact H|]. split; [vm_compute; reflexivity|].
  destruct (inbound_gate (λ _, 0) gate_manager (mkSocket (V4 [10; 0; 0; 2]) 5000 0)
    [FromPeer; FromPeer; FromQueue; FromPeer; FromPeer] gate_world H eq_refl) as (w' & c & g & E & _).
  exists w', c, g. exact E.
Defined.
