(* ===== verification/Download.v ===== *)
(** * The download always has fuel

    Every pass of the loops of a catch-up reads a message, whatever the peer
    says and the other tasks do, so the number of messages left bounds them. *)
From S2P Require Import Prelude Crypto Constants Transaction Block Genesis VisionX Sled ChainState Accept Manager Admission Pool Net Protocol Peers Sessions Recovery World Connection Sync.

Section download_fuel.
Context {SL : Sled}.

Lemma next_incoming_shorter l msg l' : next_incoming l = (Some msg, l') → (length l' < length l)%nat.
Proof.
  induction l as [|[x| |] l IH]; cbn [next_incoming length]; [done|intros [= _ <-]; lia|done|].
  intros H. specialize (IH H). lia.
Qed.
(** The outcome of a computation that has fuel and, if it succeeds, has read. *)
Definition reads {A} (w : World) (r : run (World * result NetError A)) : Prop :=
  match r with
  | Done (w', Ok _) => (length (w_inbox w') < length (w_inbox w))%nat
  | Done (_, Err _) => True
  | Panic | NoFuel => False
  end.
Lemma reads_less {A} w1 w2 (r : run (World * result NetError A)) :
  (length (w_inbox w1) ≤ length (w_inbox w2))%nat → reads w1 r → reads w2 r.
Proof. unfold reads. destruct r as [[w' []]| |]; [lia|done..]. Qed.

Lemma recv_reads w : reads w (recv_message w).
Proof.
  unfold recv_message. destruct (next_incoming (w_inbox w)) as [[msg|] l] eqn:E; [|done].
  by apply next_incoming_shorter in E.
Qed.
(** What is answered in passing leaves the stream to read alone. *)
Lemma send_keeps_inbox msg w : ∃ w' r, send_message msg w = Done (w', r) ∧ w_inbox w' = w_inbox w.
Proof. unfold send_message. destruct (w_sends w) as [|[] ?]; (eexists _, _; split; reflexivity). Qed.
Lemma locked_keeps_inbox {A} (f : Shared → A) w : ∃ w', read_shared f w = Done (w', Ok (f (w_shared w'))) ∧ w_inbox w' = w_inbox w.
Proof. unfold read_shared, locked. destruct (w_others w) as [|o os]; (eexists (mkWorld _ _ _ _ _); split; reflexivity). Qed.
Lemma answer_keeps_inbox w : ∃ w' r, answer_height w = Done (w', r) ∧ w_inbox w' = w_inbox w.
Proof.
  unfold answer_height, local_summary. destruct (locked_keeps_inbox (λ s, from_chain (sh_chain s)) w) as (w1 & E & H1).
  rewrite (act_bind_Done _ _ _ _ _ E). destruct (send_keeps_inbox (Height (from_chain (sh_chain (w_shared w1)))) w1) as (w2 & r & E2 & H2).
  exists w2, r. by rewrite H2.
Qed.

Lemma await_block_reads n : ∀ w, (length (w_inbox w) < n)%nat → reads w (await_block n w).
Proof.
  induction n as [|n IH]; intros w Hn; [lia|]. cbn [await_block]. unfold mbind at 1, act_bind at 1.
  pose proof (recv_reads w) as Hr. destruct (recv_message w) as [[w1 [msg|e]]| |]; cbn [reads] in Hr; [|done..].
  assert (∀ w2, w_inbox w2 = w_inbox w1 → reads w (await_block n w2)) as Hgo.
  { intros w2 E. apply (reads_less w2); [rewrite E; lia|]. apply IH. rewrite E. lia. }
  destruct msg; try done; [..|by apply Hgo].
  - unfold mbind at 1, act_bind at 1, answer_ping. destruct (send_keeps_inbox (Pong timestamp) w1) as (w2 & [[]|e] & -> & E); [by apply Hgo|done].
  - unfold mbind at 1, act_bind at 1. destruct (answer_keeps_inbox w1) as (w2 & [[]|e] & -> & E); [by apply Hgo|done].
Qed.

(** The download of a branch ends, in a result or an error. *)
Lemma fetch_branch_ends fuel : ∀ h fetched seen w, (length (w_inbox w) < fuel)%nat →
  ∃ w' r, fetch_branch fuel h fetched seen w = Done (w', r).
Proof.
  induction fuel as [|fuel IH]; intros h fetched seen w Hf; [lia|]. cbn [fetch_branch].
  destruct (locked_keeps_inbox (λ s, bool_decide (is_Some (block_by_hash (sh_chain s) h))) w) as (w1 & E & H1).
  rewrite (act_bind_Done _ _ _ _ _ E). destruct (bool_decide (is_Some _)); [by eexists _, _|].
  destruct (bool_decide (h ∈ seen)); [by eexists _, _|].
  unfold mbind at 1, act_bind at 1. destruct (send_keeps_inbox (GetBlock h) w1) as (w2 & [[]|e] & -> & H2); [|by eexists _, _].
  rewrite (act_bind_Done inbox_fuel _ w2 w2 _ eq_refl). unfold mbind at 1, act_bind at 1.
  pose proof (await_block_reads (S (length (w_inbox w2))) w2 ltac:(lia)) as Hr.
  destruct (await_block _ w2) as [[w3 [b|e]]| |]; cbn [reads] in Hr; [|by eexists _, _|done..].
  destruct (negb _); [by eexists _, _|]. destruct (_ =? 0); [by eexists _, _|].
  apply IH. rewrite H2, H1 in Hr. lia.
Qed.
End download_fuel.
