(* ===== verification/Keeps.v ===== *)
(** * What every task keeps

    The invariant of the shared state, a judgement that says a task's code
    keeps it whatever the other tasks do in between as long as they keep it
    too, and the judgement for every lock section and every function of the
    tasks. *)
From S2P Require Import Prelude Crypto Constants Transaction Block StateRoot VisionX VisionXMiner Sled ChainState Storage Job Reorg Orphan Consistency Genesis Accept Acceptance Consensus Rules Rooted Manager Admission Pool Mempool Heaviest Net Protocol Peers Sessions Recovery World Connection Sync Services Api.

(** The queue of every live session is bounded. *)
Definition queues_ok (r : PeerSessionRegistry) : Prop :=
  ∀ a ps s, sessions r !! a = Some ps → s ∈ ps_active ps → (length (ss_queue s) ≤ SESSION_OUTBOUND_CAPACITY)%nat.

Section queues.
Lemma new_queues_ok : queues_ok new_registry.
Proof. intros a ps s H. cbn in H. by rewrite lookup_empty in H. Qed.
Lemma fetch_queues r : queues_ok r → queues_ok (fetch_generation r).1.
Proof. exact id. Qed.
Lemma register_queues r a g : queues_ok r → queues_ok (register r a g).
Proof.
  intros H b ps s. unfold register. cbn [sessions]. intros [[<- <-]|[_ Hb]]%lookup_insert_Some; [|by eapply H].
  cbn [ps_active]. intros [Hs| ->%list_elem_of_singleton]%elem_of_app; [|cbn; lia].
  destruct (sessions r !! a) as [ps|] eqn:E; cbn [default ps_active] in Hs; [by eapply H|by apply elem_of_nil in Hs].
Qed.
Lemma unregister_queues r a g : queues_ok r → queues_ok (unregister r a g).1.
Proof.
  intros H. unfold unregister. destruct (sessions r !! a) as [ps|] eqn:E; [|exact H].
  destruct (_ || _); intros b ps' s; cbn [fst sessions].
  - intros [[<- <-]|[_ Hb]]%lookup_insert_Some; [|by eapply H]. cbn [ps_active].
    rewrite list_elem_of_In, filter_In, <- list_elem_of_In. intros [Hs _]. by eapply H.
  - intros [_ Hb]%lookup_delete_Some. by eapply H.
Qed.
Lemma send_any_queues active msg l sent : (∀ s, s ∈ active → (length (ss_queue s) ≤ SESSION_OUTBOUND_CAPACITY)%nat) →
  send_any active msg = (l, sent) → ∀ s, s ∈ l → (length (ss_queue s) ≤ SESSION_OUTBOUND_CAPACITY)%nat.
Proof.
  revert l sent. induction active as [|x active IH]; intros l sent H E; cbn [send_any] in E.
  { injection E as <- <-. intros s ?%elem_of_nil. done. }
  unfold try_send in E. destruct (ss_closed x || (SESSION_OUTBOUND_CAPACITY <=? length (ss_queue x))%nat) eqn:Ef.
  - destruct (send_any active msg) as [l' sent'] eqn:Es. injection E as <- <-.
    intros s [->|Hs]%elem_of_cons; [apply H; by left|]. eapply IH; [|done|done]. intros y Hy. apply H. by right.
  - injection E as <- <-. intros s [->|Hs]%elem_of_cons; [|apply H; by right]. cbn [ss_queue]. rewrite length_app. cbn [length].
    apply orb_false_iff in Ef as [_ Ef%Nat.leb_gt]. lia.
Qed.
Lemma announce_queues r b ex : queues_ok r → queues_ok (announce_block r b ex).1.
Proof.
  intros H a ps s. unfold announce_block. cbn [fst sessions]. rewrite lookup_fmap, map_lookup_imap.
  destruct (sessions r !! a) as [ps0|] eqn:E; cbn [mbind option_bind fmap option_fmap option_map]; [|done].
  case_bool_decide; cbn [fst].
  - intros [= <-]. by apply (H a).
  - unfold announce_to. destruct (send_any (ps_active ps0) (announcement_of b)) as [l sent] eqn:Es. cbn [fst].
    intros [= <-]. cbn [ps_active]. eapply send_any_queues; [|exact Es]. intros x. by apply (H a).
Qed.
Lemma recv_queues r a g : queues_ok r → queues_ok (recv_session r a g).1.
Proof.
  intros H. unfold recv_session. destruct (_ ≫= _) as [[? [|x q] ?]|]; [done| |done].
  intros b ps s. cbn [fst sessions]. rewrite lookup_alter_Some.
  intros [(<- & ps0 & E & ->)|[_ E]]; [|by apply (H b)]. cbn [ps_active].
  rewrite list_elem_of_In, in_map_iff. intros (y & <- & Hy%list_elem_of_In). specialize (H _ _ y E Hy).
  destruct (_ =? _); cbn [ss_queue]; [|done]. destruct (ss_queue y); simpl in *; lia.
Qed.
End queues.

Section keeps.
Context {C : Crypto} {CL : CryptoLaws C} {TC : TxCodec} {SL : Sled} {SLL : SledLaws SL} {SC : StoreCodec}.
Context (params : VisionXParams) (clock : nat → Z) (instant : nat → Z) (N : string → Z).
Context (HN : N GENESIS_HASH = 0) (Hep : epoch_blocks params ≠ 0).
Context (m : P2PConnectionManager).
Abbreviation admissible := (Acceptance.admissible params N).

(** ** The node *)

(** A consistent node whose branches follow the rules and whose chain, if the
    database accepts every write and its work map counts the genesis block, is a
    heaviest one.  (Start-up on an empty database leaves the genesis block out
    of the work map.) *)
Record node_good (n : Node) : Prop := {
  ng_ok : node_ok params N n;
  ng_rules : rules_ok params (n_chain n);
  ng_rooted : rooted (n_chain n);
  ng_heaviest : SledReliable SL → counted (n_chain n) → heaviest (n_chain n)
}.

Lemma apply_block_good n b src : node_good n → admissible b →
  ∃ n' r, apply_block params clock n b src = Done (n', r) ∧ node_good n'.
Proof.
  intros [Hn Hr Ho Hv] Ha. destruct (apply_block_ok params clock N HN Hep n b src Hn Ha) as (n' & r & E & Hn' & _).
  exists n', r. split; [exact E|]. split; [done| | |].
  - exact (apply_block_rules params clock N HN Hep n b src n' r Hn Ha Hr E).
  - exact (apply_block_rooted params clock N HN Hep n b src n' r Hn Ha Ho E).
  - intros SR. exact (apply_block_counted params clock N HN Hep n b src n' r Hn Ha (proj1 Hr) (Hv SR) E).
Qed.

(** The parts of a node that the invariant does not mention. *)
Lemma node_good_ext n g c t p : node_good n → cache_ok c → chain_ok N GENESIS_HASH g →
  blocks g = blocks (n_chain n) → side_blocks g = side_blocks (n_chain n) →
  cumulative_work g = cumulative_work (n_chain n) → orphan_pool g = orphan_pool (n_chain n) →
  db g = db (n_chain n) →
  node_good (mkNode g p c t).
Proof.
  intros [[Hg _ Ho] Hr [Hf Hm] Hv] Hc Hg' Eb Es Ew Eo Ed. split; cbn [n_chain].
  - split; cbn [n_chain n_datasets]; [done|done|]. by apply (orphans_ok_pool params N (n_chain n)).
  - by apply (rules_ok_ext params (n_chain n)).
  - split; [by rewrite Eb|by rewrite Ed].
  - intros SR Hk. apply (heaviest_ext (n_chain n)), Hv; [done..|]. unfold counted in *. by rewrite <- Ew.
Qed.
Lemma node_good_settle n x c : node_good n →
  node_good (set_chain (set_pending x (set_cached_state_root c (n_chain n))) n).
Proof.
  intros Hn. pose proof Hn as [[Hg Hc _] _ _ _]. apply (node_good_ext n); try done.
  destruct Hg. by split.
Qed.
Lemma node_good_pending n x : node_good n → node_good (set_chain (set_pending x (n_chain n)) n).
Proof.
  intros Hn. pose proof Hn as [[Hg Hc _] _ _ _]. apply (node_good_ext n); try done.
  by apply chain_ok_pending.
Qed.
Lemma node_good_refresh n : node_good n → node_good (set_chain (refresh_cached_state_root_from_tip (n_chain n)) n).
Proof.
  intros Hn. pose proof Hn as [[Hg Hc _] _ _ _]. apply (node_good_ext n); try done.
  unfold refresh_cached_state_root_from_tip. destruct Hg. by split.
Qed.
Lemma node_good_clock n : node_good n → node_good (read_clock clock n).1.
Proof. intros Hn. pose proof Hn as [[Hg Hc _] _ _ _]. by apply (node_good_ext n). Qed.
Lemma node_good_cache n c : node_good n → cache_ok c → node_good (mkNode (n_chain n) (n_pow n) c (n_ticks n)).
Proof. intros Hn Hc. pose proof Hn as [[Hg _ _] _ _ _]. by apply (node_good_ext n). Qed.

(** ** The shared state *)
Definition importable (q : option (list InboundBlock)) : Prop :=
  ∀ l b, q = Some l → b ∈ l → admissible (ib_block b).
Record shared_ok (s : Shared) : Prop := {
  sh_good : node_good (sh_node s);
  sh_pool_ok : pool_ok (sh_pool s) ∧ one_per_slot (sh_pool s);
  sh_miner_ok mgr : sh_miner s = Some mgr → epoch_blocks (mm_params mgr) ≠ 0;
  sh_inbound_ok : importable (sh_inbound s);
  sh_queues_ok : queues_ok (sh_registry s);
  sh_discovered_ok q : sh_discovered s = Some q → (length q ≤ DISCOVERY_CAPACITY)%nat
}.

Lemma shared_ok_node n s : shared_ok s → node_good n → shared_ok (set_node n s).
Proof. intros []. by split. Qed.
Lemma shared_ok_pool p s : shared_ok s → pool_ok p → one_per_slot p → shared_ok (set_pool p s).
Proof. intros []. by split. Qed.
Lemma shared_ok_peers p s : shared_ok s → shared_ok (set_peers p s).
Proof. intros []. by split. Qed.
Lemma shared_ok_recovery r s : shared_ok s → shared_ok (set_recovery r s).
Proof. intros []. by split. Qed.
Lemma shared_ok_registry r s : shared_ok s → queues_ok r → shared_ok (set_registry r s).
Proof. intros []. by split. Qed.
Lemma shared_ok_miner f s : shared_ok s → (∀ mgr, mm_params (f mgr) = mm_params mgr) →
  shared_ok (set_miner (f <$> sh_miner s) s).
Proof.
  intros [] Hf. split; try done. cbn [set_miner sh_miner]. intros mgr. destruct (sh_miner s) as [mgr0|]; [|done].
  intros [= <-]. rewrite Hf. eauto.
Qed.
Lemma shared_ok_inbound q s : shared_ok s → importable q → shared_ok (set_inbound q s).
Proof. intros []. by split. Qed.
Lemma shared_ok_tick s : shared_ok s → shared_ok (tick s).
Proof. intros []. by split. Qed.
Lemma shared_ok_offer l s : shared_ok s → shared_ok (offer_candidates l s).
Proof.
  intros []. split; try done. unfold offer_candidates. cbn [set_discovered sh_discovered].
  intros q. destruct (sh_discovered s) as [q0|]; [|done]. intros [= <-].
  specialize (sh_discovered_ok0 q0 eq_refl). revert q0 sh_discovered_ok0.
  induction (take MAX_SHARED_PEERS l) as [|x xs IH]; intros q0 H; cbn [fold_left]; [done|].
  apply IH. unfold offer_candidate. destruct (Nat.leb_spec DISCOVERY_CAPACITY (length q0)); [done|].
  rewrite length_app. cbn [length]. lia.
Qed.

(** ** The judgement *)
Definition msg_ok (msg : P2PMessage) : Prop :=
  match msg with MBlock b => admissible b | _ => True end.
Definition incoming_ok (i : Incoming) : Prop :=
  match i with Received msg => msg_ok msg | _ => True end.
Definition harmless (o : Shared → Shared) : Prop := ∀ s, shared_ok s → shared_ok (o s).

Record world_ok (w : World) : Prop := {
  wk_shared : shared_ok (w_shared w);
  wk_others : Forall harmless (w_others w);
  wk_inbox : Forall incoming_ok (w_inbox w)
}.

(** Whether fuel that is given from outside may run out. *)
Context (fuelled : Prop).

(** From a good world the computation does not panic, ends in a good world, and
    its value is in [P]; only fuel given to it may end first. *)
Definition ends {A} (P : A → Prop) (x : run (World * result NetError A)) : Prop :=
  match x with
  | Done (w, r) => world_ok w ∧ ∀ a, r = Ok a → P a
  | Panic => False
  | NoFuel => fuelled
  end.
Definition keeps {A} (P : A → Prop) (x : act A) : Prop := ∀ w, world_ok w → ends P (x w).
Abbreviation any := (λ _, True).

Lemma keeps_ret {A} (P : A → Prop) a : P a → keeps P (mret a).
Proof. intros H w Hw. split; [exact Hw|]. by intros ? [= <-]. Qed.
Lemma keeps_fail {A} (P : A → Prop) e : keeps P (fail e).
Proof. intros w Hw. by split. Qed.
Lemma keeps_no_fuel {A} (P : A → Prop) : fuelled → keeps P (λ _, NoFuel).
Proof. by intros H w _. Qed.
Lemma keeps_bind {A B} (P : A → Prop) (Q : B → Prop) (x : act A) (f : A → act B) :
  keeps P x → (∀ a, P a → keeps Q (f a)) → keeps Q (x ≫= f).
Proof.
  intros H1 H2 w Hw. specialize (H1 w Hw). unfold mbind, act_bind.
  destruct (x w) as [[w1 [a|e]]| |]; [|split; [apply H1|done]|done..].
  destruct H1 as [H1 Ha]. exact (H2 a (Ha a eq_refl) w1 H1).
Qed.
Lemma keeps_assoc {A B D} (Q : D → Prop) (x : act A) (f : A → act B) (g : B → act D) :
  keeps Q ((x ≫= f) ≫= g) → keeps Q (x ≫= λ a, f a ≫= g).
Proof.
  intros H w Hw. specialize (H w Hw). unfold mbind, act_bind in *. by destruct (x w) as [[w1 []]| |].
Qed.
Lemma keeps_any {A} (P : A → Prop) (x : act A) : keeps P x → keeps any x.
Proof. intros H w Hw. specialize (H w Hw). by destruct (x w) as [[w1 r]| |]; [split; [apply H|]|..]. Qed.
Lemma keeps_seq {A B} (Q : B → Prop) (x : act A) (f : A → act B) :
  keeps any x → (∀ a, keeps Q (f a)) → keeps Q (x ≫= f).
Proof. intros H1 H2. apply (keeps_bind any); [done|]. intros a _. apply H2. Qed.
Lemma keeps_attempt {A} (P : A → Prop) (x : act A) :
  keeps P x → keeps (λ r, ∀ a, r = Ok a → P a) (attempt x).
Proof.
  intros H w Hw. specialize (H w Hw). unfold attempt. destruct (x w) as [[w1 r]| |]; [|done..].
  destruct H as [H1 H2]. split; [exact H1|]. intros r' [= <-]. exact H2.
Qed.

(** One lock section. *)
Lemma keeps_locked {A} (P : A → Prop) (f : Shared → run (Shared * A)) :
  (∀ s, shared_ok s → ∃ s' a, f s = Done (s', a) ∧ shared_ok s' ∧ P a) → keeps P (locked f).
Proof.
  intros Hf w [Hs Ho Hi]. unfold locked. destruct (w_others w) as [|o os].
  - destruct (Hf _ Hs) as (s' & a & -> & Hs' & Ha). split; [by split|]. by intros ? [= <-].
  - apply Forall_cons in Ho as [Ho1 Ho]. destruct (Hf _ (Ho1 _ Hs)) as (s' & a & -> & Hs' & Ha).
    split; [by split|]. by intros ? [= <-].
Qed.
Lemma keeps_read {A} (f : Shared → A) : keeps any (read_shared f).
Proof. apply keeps_locked. intros s Hs. by exists s, (f s). Qed.
Lemma keeps_update f : harmless f → keeps any (update_shared f).
Proof. intros Hf. apply keeps_locked. intros s Hs. exists (f s), (). auto. Qed.
Lemma keeps_with_peers f : keeps any (with_peers instant f).
Proof. apply keeps_update. intros s Hs. by apply shared_ok_tick, shared_ok_peers. Qed.

(** The stream. *)
Lemma keeps_send msg : keeps any (send_message msg).
Proof. intros w [Hs Ho Hi]. unfold send_message. by destruct (w_sends w) as [|[] ?]. Qed.
Lemma next_incoming_ok l : Forall incoming_ok l →
  Forall incoming_ok (next_incoming l).2 ∧ ∀ msg, (next_incoming l).1 = Some msg → msg_ok msg.
Proof.
  induction l as [|[msg| |] l IH]; intros H; cbn [next_incoming fst snd]; [done|..];
    apply Forall_cons in H as [Hm H]; [|done|by apply IH].
  split; [done|]. by intros ? [= <-].
Qed.
Lemma keeps_recv : keeps msg_ok recv_message.
Proof.
  intros w [Hs Ho Hi]. unfold recv_message. destruct (next_incoming_ok _ Hi) as [H1 H2].
  destruct (next_incoming (w_inbox w)) as [msg l]. cbn [fst snd] in *. split; [by split|].
  destruct msg as [msg|]; [|done]. intros a [= <-]. by apply H2.
Qed.
Lemma keeps_recv_timeout p : keeps msg_ok (recv_timeout p).
Proof.
  intros w [Hs Ho Hi]. unfold recv_timeout. destruct (w_inbox w) as [|i l] eqn:E.
  { split; [|done]. split; [done|done|by rewrite E]. }
  apply Forall_cons in Hi as [Hm Hi]. destruct i; (split; [by split|]); [|done..]. by intros a [= <-].
Qed.
Lemma keeps_local_summary : keeps any local_summary.
Proof. apply keeps_read. Qed.
Lemma keeps_answer_height : keeps any answer_height.
Proof. apply keeps_seq; [apply keeps_local_summary|]. intros. apply keeps_send. Qed.
Lemma keeps_answer_ping t : keeps any (answer_ping t).
Proof. apply keeps_send. Qed.

(** ** Importing blocks *)

Lemma shared_ok_requeue n p r s : shared_ok s → node_good n →
  p = sh_pool s → shared_ok (set_pool (requeue_after_reorg (n_chain n) p r).1 (set_node n s)).
Proof.
  intros Hs Hn ->. destruct (sh_pool_ok _ Hs) as [H1 H2].
  destruct (requeue_ok (n_chain n) (sh_pool s) r H1 H2). by apply shared_ok_pool; [apply shared_ok_node|..].
Qed.
Lemma take_recovery_ok : harmless take_recovery.
Proof.
  intros s Hs. unfold take_recovery.
  pose proof (node_good_pending _ None (sh_good _ Hs)) as Hn.
  destruct (pending_reorg_recovery (sh_chain s)) as [r|]; [|by apply shared_ok_node].
  by apply (shared_ok_requeue _ _ r s Hs Hn).
Qed.
Lemma settle_ok use : harmless (settle_reorg use).
Proof.
  intros s Hs. unfold settle_reorg. cbv zeta.
  pose proof (node_good_pending _ None (node_good_refresh _ (sh_good _ Hs))) as Hn.
  destruct (pending_reorg_recovery _) as [r|]; [|by apply (shared_ok_node _ s Hs Hn)].
  destruct use; [|by apply (shared_ok_node _ s Hs Hn)].
  exact (shared_ok_requeue _ _ r s Hs Hn eq_refl).
Qed.
Lemma announce_ok b ex : harmless (announce b ex).
Proof. intros s Hs. apply shared_ok_registry; [done|]. apply announce_queues, (sh_queues_ok _ Hs). Qed.
Lemma confirm_ok ids s : shared_ok s → shared_ok (set_pool (remove_confirmed (sh_pool s) ids) s).
Proof.
  intros Hs. destruct (sh_pool_ok _ Hs). apply shared_ok_pool; [done|by apply remove_confirmed_ok|by apply remove_confirmed_slots].
Qed.

Lemma keeps_import_announced b p : admissible b → keeps any (import_announced params clock b p).
Proof.
  intros Ha. apply keeps_locked. intros s Hs.
  destruct (apply_block_good _ b (Some p) (sh_good _ Hs) Ha) as (n' & r & -> & Hn). cbn [mbind run_bind].
  eexists _, _. split; [done|]. split; [|done].
  pose proof (shared_ok_node n' s Hs Hn) as Hs1. destruct r; [|exact Hs1..].
  apply take_recovery_ok, confirm_ok, shared_ok_node; [exact Hs1|]. exact (node_good_refresh _ Hn).
Qed.
Lemma keeps_import_announced_block b : admissible (ib_block b) → keeps any (import_announced_block params clock b).
Proof.
  intros Ha. apply keeps_seq; [by apply keeps_import_announced|]. intros [| | |]; try by apply keeps_ret.
  apply keeps_seq; [apply keeps_local_summary|]. intros sm.
  apply keeps_seq; [apply keeps_update; intros s Hs; by apply shared_ok_recovery|]. intros _.
  apply keeps_seq; [apply keeps_update; intros s Hs; by apply shared_ok_miner|]. intros _.
  apply keeps_update, announce_ok.
Qed.
Lemma keeps_import_announced_blocks : keeps any (import_announced_blocks params clock).
Proof.
  apply (keeps_bind (λ o, ∀ b, o = Some b → admissible (ib_block b))).
  - apply keeps_locked. intros s Hs. unfold pop_inbound.
    destruct (sh_inbound s) as [[|b q]|] eqn:E; (eexists _, _; split; [done|]); (split; [|intros ? [= <-] || done]).
    + done.
    + apply shared_ok_inbound; [done|]. intros l x [= <-] Hx. by apply (sh_inbound_ok _ Hs _ x E); right.
    + apply (sh_inbound_ok _ Hs _ b E). by left.
    + done.
  - intros [b|] Hb; [|by apply keeps_ret]. by apply keeps_import_announced_block, Hb.
Qed.

Lemma keeps_import_one p b : admissible b → keeps any (import_one params clock p b).
Proof.
  intros Ha. apply keeps_locked. intros s Hs. case_bool_decide; [by eexists _, _|].
  destruct (apply_block_good _ b (Some p) (sh_good _ Hs) Ha) as (n' & r & -> & Hn). cbn [mbind run_bind].
  eexists _, _. split; [done|]. split; [|done]. by apply shared_ok_node.
Qed.
Lemma keeps_import_fetched use p bs : Forall admissible bs → ∀ k, keeps any (import_fetched_blocks params clock use p bs k).
Proof.
  intros Hbs. induction Hbs as [|b bs Hb _ IH]; intros k; cbn [import_fetched_blocks]; [by apply keeps_ret|].
  apply keeps_seq; [by apply keeps_import_one|]. intros [[| | |]|]; try apply keeps_fail; [|apply IH..].
  apply keeps_seq; [apply keeps_update, settle_ok|]. intros _. apply IH.
Qed.

(** ** The miner *)
Lemma keeps_search fuel job : ∀ nonce, fuelled ∨ U64_MAX < nonce + Z.of_nat fuel → 0 ≤ nonce ≤ U64_MAX →
  keeps any (search_nonces fuel job nonce).
Proof.
  induction fuel as [|fuel IH]; intros nonce Hf Hn; cbn [search_nonces]; [apply keeps_no_fuel; destruct Hf; [done|lia]|].
  apply keeps_seq; [apply keeps_read|]. intros current. destruct (negb current); [by apply keeps_ret|].
  apply keeps_seq.
  - apply keeps_locked. intros s Hs. destruct (sh_good _ Hs) as [[_ Hc _] _ _].
    destruct (try_nonce_total (n_datasets (sh_node s)) job nonce Hc) as (c' & found & -> & Hc').
    cbn [mbind run_bind]. eexists _, _. split; [done|]. split; [|done].
    apply shared_ok_node; [done|]. apply node_good_cache; [apply (sh_good _ Hs)|done].
  - intros [b|]; [by apply keeps_ret|]. destruct (Z.eqb_spec nonce U64_MAX); [by apply keeps_ret|].
    assert (wadd64 nonce 1 = nonce + 1) as -> by (apply wrap64_small; unfold u64; lia).
    apply IH; [|lia]. destruct Hf; [by left|right; lia].
Qed.
Lemma keeps_next_candidate addr counter : keeps any (next_candidate clock addr counter).
Proof.
  apply keeps_locked. intros s Hs. destruct (sh_miner s) as [mgr|] eqn:Em; [|by eexists _, _]. cbv zeta.
  destruct (build_candidate_total clock mgr (sh_node s) counter addr
    (select_for_block (sh_pool s) (Z.to_nat BLOCK_TARGET_TXS)) (sh_miner_ok _ Hs _ Em)) as (n' & c' & job & -> & Hn).
  cbn [mbind run_bind]. eexists _, _. split; [done|]. split; [|done]. apply shared_ok_node; [done|].
  destruct Hn as [->| ->]; [apply (sh_good _ Hs)|apply node_good_clock, (sh_good _ Hs)].
Qed.
Lemma keeps_find_block fuel addr counter : fuelled ∨ U64_MAX < Z.of_nat fuel →
  keeps any (find_block clock fuel addr counter).
Proof.
  intros Hf.
  assert (∀ f, (∀ mgr, mm_params (f mgr) = mm_params mgr) →
    keeps any (update_shared (λ s, set_miner (f <$> sh_miner s) s))) as Hm.
  { intros f Hfm. apply keeps_update. intros s Hs. by apply shared_ok_miner. }
  unfold find_block. apply keeps_seq; [apply keeps_read|]. intros k. destruct (_ <? _).
  { apply keeps_seq; [by apply Hm|]. intros _. by apply keeps_ret. }
  apply keeps_seq; [apply keeps_read|]. intros paused. destruct paused.
  { apply keeps_seq; [by apply Hm|]. intros _. by apply keeps_ret. }
  apply keeps_seq; [apply keeps_next_candidate|]. intros [c' [job|]]; [|by apply keeps_ret].
  apply keeps_seq; [by apply Hm|]. intros _. apply keeps_seq; [apply keeps_search; [exact Hf|unfold U64_MAX; lia]|]. intros mined. by apply keeps_ret.
Qed.
Lemma keeps_submit_mined b : admissible b → keeps any (submit_mined params clock b).
Proof.
  intros Ha. apply keeps_locked. intros s Hs. destruct (sh_miner s) as [mgr|] eqn:Em; [|by eexists _, _].
  unfold submit_solution. destruct (apply_block_good _ b None (sh_good _ Hs) Ha) as (n' & r & -> & Hn).
  cbn [mbind run_bind].
  assert (∀ n mgr', node_good n → mm_params mgr' = mm_params mgr → shared_ok (set_miner (Some mgr') (set_node n s))) as H.
  { intros n mgr' Hn' E. destruct Hs. split; try done. cbn. intros ? [= <-]. rewrite E. eauto. }
  destruct r; cbn [mbind run_bind]; (eexists _, _; split; [done|]); (split; [|done]); [|by apply H..].
  apply announce_ok, take_recovery_ok, confirm_ok, H; [|done]. by apply node_good_refresh.
Qed.
End keeps.

(** What keeps the invariant, fuel aside, and has the fuel it needs. *)
Lemma keeps_with_fuel {C : Crypto} {CL : CryptoLaws C} {TC : TxCodec} {SL : Sled} {SLL : SledLaws SL} {SC : StoreCodec}
    params N fuelled {A} (P : A → Prop) (x : act A) :
  keeps params N True P x → (∀ w, x w ≠ NoFuel) → keeps params N fuelled P x.
Proof. intros H Hx w Hw. specialize (H w Hw). specialize (Hx w). by destruct (x w) as [[w1 r]| |]. Qed.

(** ** Automation

    [keep] follows a computation step by step, using the judgements of the
    [keeps] database for the calls. *)
Create HintDb keeps.
#[export] Hint Resolve keeps_read keeps_with_peers keeps_send keeps_local_summary keeps_answer_height
  keeps_answer_ping keeps_fail keeps_no_fuel keeps_attempt keeps_import_announced_blocks keeps_find_block : keeps.
Ltac keep_step :=
  first
    [ by apply keeps_ret
    | apply keeps_fail
    | by apply keeps_no_fuel
    | solve [eauto with keeps]
    | apply keeps_seq; [solve [eauto with keeps | eapply keeps_any; eauto with keeps]|intros ?] ].
Ltac keep := repeat keep_step.
