(* ===== verification/System.v ===== *)
(** * The running system

    Every task of the node keeps the invariant of the shared state ([Keeps]);
    the system is the tasks' turns, interleaved at their lock sections, and no
    reachable state breaks the invariant. *)
From S2P Require Import Prelude Crypto Constants Transaction Block StateRoot VisionX VisionXMiner Sled ChainState Storage Job Reorg Orphan Consistency Genesis Accept Acceptance Consensus Rules Rooted Manager Admission Pool Mempool Heaviest Net Protocol Peers Sessions Recovery World Connection Sync Services Api Http Download Keeps.

(** ** The tasks *)
Section tasks.
Context {C : Crypto} {CL : CryptoLaws C} {TC : TxCodec} {SL : Sled} {SLL : SledLaws SL} {SC : StoreCodec}.
Context (params : VisionXParams) (clock : nat → Z) (instant : nat → Z) (N : string → Z).
Context (HN : N GENESIS_HASH = 0) (Hep : epoch_blocks params ≠ 0).
Context (m : P2PConnectionManager).
Abbreviation admissible := (Acceptance.admissible params N).
(** Whether fuel that a turn is given may run out. *)
Context (fuelled : Prop).
Abbreviation keeps := (keeps params N fuelled).
Abbreviation keeps_but_fuel := (Keeps.keeps params N True).
Abbreviation msg_ok := (msg_ok params N).
Abbreviation shared_ok := (shared_ok params N).
Abbreviation any := (λ _, True).

(** An update of one part of the shared state. *)
Lemma keeps_registry {A} (f : PeerSessionRegistry → PeerSessionRegistry * A) :
  (∀ r, queues_ok r → queues_ok (f r).1) →
  keeps any (locked (λ s, let '(r, a) := f (sh_registry s) in Done (set_registry r s, a))).
Proof.
  intros Hf. apply keeps_locked. intros s Hs. specialize (Hf _ (sh_queues_ok _ _ _ Hs)).
  destruct (f (sh_registry s)) as [r a]. eexists _, _. split; [done|]. split; [|done].
  by apply shared_ok_registry.
Qed.
Lemma keeps_set_peers f : keeps any (update_shared (λ s, set_peers (f s) s)).
Proof. apply keeps_update. intros s Hs. by apply shared_ok_peers. Qed.
Lemma keeps_offer l : keeps any (update_shared (offer_candidates l)).
Proof. apply keeps_update. intros s Hs. by apply shared_ok_offer. Qed.
Lemma keeps_queue b p : admissible b → keeps any (locked (λ s, Done (enqueue_block b p s))).
Proof.
  intros Ha. apply keeps_locked. intros s Hs. unfold enqueue_block.
  destruct (sh_inbound s) as [q|] eqn:E; (eexists _, _; split; [done|]); (split; [|done]); [|done].
  apply shared_ok_inbound; [done|]. intros l x [= <-] [Hx| ->%list_elem_of_singleton]%elem_of_app; [|done].
  by apply (sh_inbound_ok _ _ _ Hs q x E).
Qed.
#[local] Hint Resolve keeps_set_peers keeps_offer keeps_queue : keeps.

Lemma keeps_queue_inbound b p : admissible b → keeps any (queue_inbound_block m b p).
Proof. intros Ha. unfold queue_inbound_block. destruct (negb _); keep. destruct a; keep. Qed.
Lemma keeps_register a : keeps any (register_session a).
Proof.
  unfold register_session. eapply keeps_bind.
  { apply (keeps_registry fetch_generation). intros r. apply fetch_queues. }
  intros g _. eapply keeps_bind; [|intros [] _; apply keeps_ret; done].
  apply keeps_update. intros s Hs. apply shared_ok_registry; [done|].
  by apply register_queues, (sh_queues_ok _ _ _ Hs).
Qed.
Lemma keeps_recv_session a g :
  keeps any (locked (λ s, let '(r, q) := recv_session (sh_registry s) a g in Done (set_registry r s, q))).
Proof. apply (keeps_registry (λ r, recv_session r a g)). intros r. apply recv_queues. Qed.
Lemma keeps_unregister a g :
  keeps any (locked (λ s, let '(r, l) := unregister (sh_registry s) a g in Done (set_registry r s, l))).
Proof. apply (keeps_registry (λ r, unregister r a g)). intros r. apply unregister_queues. Qed.
#[local] Hint Resolve keeps_queue_inbound keeps_register keeps_recv_session keeps_unregister : keeps.

(** ** The inbound handler *)
Lemma keeps_await_summary p g n : keeps any (await_summary instant p g n).
Proof.
  induction n as [|n IH]; cbn [await_summary]; [keep|].
  apply keeps_seq; [eapply keeps_any, keeps_recv_timeout|]. intros []; keep.
Qed.
Lemma keeps_request_summary p g : keeps any (request_inbound_peer_summary instant p g).
Proof. unfold request_inbound_peer_summary. keep. apply keeps_await_summary. Qed.
#[local] Hint Resolve keeps_request_summary : keeps.
Lemma keeps_send_or_close c msg : keeps any (send_or_close c msg).
Proof. unfold send_or_close. keep. destruct a; unfold continue_with, close; keep. Qed.
Lemma keeps_continue c : keeps any (continue_with c).
Proof. by apply keeps_ret. Qed.
Lemma keeps_close c : keeps any (close c).
Proof. by apply keeps_ret. Qed.
#[local] Hint Resolve keeps_send_or_close keeps_continue keeps_close : keeps.

Lemma keeps_resolve_key addr hs :
  keeps any (locked (λ s, let '(pm, key) := resolve_inbound_peer_key (sh_peers s) (show_socket addr) hs (cm_allow_private m) in
    Done (set_peers pm s, key))).
Proof.
  apply keeps_locked. intros s Hs. destruct (resolve_inbound_peer_key _ _ _ _) as [pm key].
  eexists _, _. split; [done|]. split; [|done]. by apply shared_ok_peers.
Qed.
#[local] Hint Resolve keeps_resolve_key : keeps.
Lemma keeps_on_handshake addr c hs : keeps any (on_handshake instant m addr c hs).
Proof.
  unfold on_handshake. destruct (cn_handshake_done c); keep.
  destruct (validate_handshake hs (cm_local_node_nonce m)); keep.
  destruct a1 as [peer_key|reason]; keep.
  apply keeps_seq.
  { destruct (cm_has_discovery m); keep. }
  intros _. keep. destruct a1 as [[]|e]; keep. case_bool_decide; keep.
Qed.
Lemma keeps_on_message addr c msg : msg_ok msg → keeps any (on_message instant m addr c msg).
Proof.
  intros Hm. unfold on_message. destruct (_ && _); keep. destruct msg; keep.
  - apply keeps_on_handshake.
  - apply keeps_seq; [|intros _; keep]. destruct (cn_active_session c) as [[p g]|]; keep.
  - destruct (_ || _); keep. destruct (_ && _); keep.
  - destruct a; keep.
  - destruct (cn_requested_block_hash c); keep. cbv zeta. destruct (negb (bool_decide _)); keep.
    destruct (negb _); keep. destruct a; keep.
Qed.
#[local] Hint Resolve keeps_on_message : keeps.

Lemma keeps_finish_session a g : keeps any (finish_session a g).
Proof.
  unfold finish_session. apply keeps_seq; [apply keeps_unregister|]. intros [l|]; keep.
Qed.
#[local] Hint Resolve keeps_finish_session : keeps.
Lemma keeps_take_turn addr c t : keeps any (take_turn instant m addr c t).
Proof.
  destruct t; cbn [take_turn].
  - eapply keeps_bind; [eapply keeps_attempt, keeps_recv|]. intros [msg|e] H; keep.
  - destruct (cn_active_session c) as [[p g]|]; keep.
    destruct a; keep.
Qed.
Lemma keeps_handle_turns addr turns : ∀ c, keeps any (handle_turns instant m addr c turns).
Proof.
  induction turns as [|t turns IH]; intros c; cbn [handle_turns]; [keep|].
  apply keeps_seq; [apply keeps_take_turn|]. intros [c' []]; [apply IH|].
  apply keeps_seq; [destruct (cn_active_session c') as [[p g]|]; keep|]. intros _. keep.
Qed.

(** ** Catching up *)
Lemma keeps_await_height p n : keeps any (await_height p n).
Proof.
  induction n as [|n IH]; cbn [await_height]; [keep|].
  apply keeps_seq; [eapply keeps_any, keeps_recv_timeout|]. intros []; keep.
Qed.
Lemma keeps_await_block n : keeps_but_fuel admissible (await_block n).
Proof.
  induction n as [|n IH]; cbn [await_block]; [keep|].
  eapply keeps_bind; [apply keeps_recv|]. intros [] Hm; keep.
Qed.
Lemma keeps_inbox_fuel F : Keeps.keeps params N F any inbox_fuel.
Proof. intros w Hw. by split. Qed.
#[local] Hint Resolve keeps_await_height keeps_inbox_fuel : keeps.
Lemma keeps_fetch fuel : ∀ h fetched seen, Forall admissible fetched →
  keeps_but_fuel (Forall admissible) (fetch_branch fuel h fetched seen).
Proof.
  induction fuel as [|fuel IH]; intros h fetched seen Hf; cbn [fetch_branch]; [keep|].
  apply keeps_seq; [keep|]. intros []; [by apply keeps_ret|]. case_bool_decide; [keep|].
  apply keeps_seq; [keep|]. intros _. apply keeps_seq; [keep|]. intros n.
  eapply keeps_bind; [apply keeps_await_block|]. intros b Hb.
  destruct (negb _); [keep|]. destruct (_ =? _); [apply keeps_ret; by constructor|].
  apply IH. by constructor.
Qed.
Lemma keeps_download tip : keeps (Forall admissible) (n ← inbox_fuel; fetch_branch n tip [] ∅).
Proof.
  apply keeps_with_fuel.
  - apply keeps_seq; [apply keeps_inbox_fuel|]. intros n. by apply keeps_fetch.
  - intros w. rewrite (act_bind_Done inbox_fuel _ w w _ eq_refl).
    by destruct (fetch_branch_ends (S (length (w_inbox w))) tip [] ∅ w) as (w' & r & ->); [lia|].
Qed.
Lemma keeps_sync_handshake p : keeps any (sync_handshake p).
Proof.
  unfold sync_handshake. apply keeps_seq; [eapply keeps_any, keeps_recv|]. intros []; keep.
Qed.
#[local] Hint Resolve keeps_sync_handshake : keeps.
Lemma keeps_live_sync use connected p : keeps any (live_sync_from_peer params clock instant m use connected p).
Proof.
  unfold live_sync_from_peer. case_bool_decide; [keep|]. destruct (negb connected); keep.
  destruct (validate_handshake _ _); keep.
  destruct (_ && _); [keep|]. destruct (sm_tip_hash _) as [tip|]; [|keep].
  apply keeps_assoc. eapply keeps_bind; [apply keeps_download|]. intros bs Hbs. by apply keeps_import_fetched.
Qed.
Lemma keeps_set_claim f : keeps any (set_claim instant f).
Proof. apply keeps_update. intros s Hs. by apply shared_ok_tick, shared_ok_recovery. Qed.
Lemma keeps_read_instant : keeps any (read_instant instant).
Proof. apply keeps_locked. intros s Hs. eexists _, _. split; [done|]. split; [|done]. by apply shared_ok_tick. Qed.
#[local] Hint Resolve keeps_live_sync keeps_set_claim keeps_read_instant : keeps.
Lemma keeps_conclude w t r : keeps any (conclude_recovery instant w t r).
Proof.
  unfold conclude_recovery. destruct r as [a|e]; keep.
  - destruct (_ <=? _); keep.
  - destruct (contains _ _); keep.
Qed.
#[local] Hint Resolve keeps_conclude : keeps.
Lemma keeps_watchdog use connected guard : keeps any (watchdog_step params clock instant m use connected guard).
Proof.
  unfold watchdog_step. apply keeps_seq; [keep|]. intros now. destruct (is_blocked _ _); [keep|]. keep.
  match goal with |- keeps _ (match ?d with _ => _ end) => destruct d as [|p lag|p rw lw] end; keep.
  apply keeps_seq; [|intros _; keep].
  match goal with |- keeps _ (match ?d with _ => _ end) => destruct d end; keep.
Qed.

(** ** Sessions and dialling *)
Lemma keeps_dial allow scheduled candidate : keeps any (dial_candidate m allow scheduled candidate).
Proof.
  unfold dial_candidate. destruct (validate_dial_address _ _); [|keep]. cbv zeta.
  destruct (is_local_dial_address _ _); [keep|]. case_bool_decide; [keep|]. destruct (_ <? _); keep.
Qed.
Lemma keeps_seed_message p requested msg : msg_ok msg → keeps any (handle_seed_session_message m p requested msg).
Proof.
  intros Hm. destruct msg; cbn [handle_seed_session_message]; keep.
  - destruct (_ || _); keep. destruct (_ && _); keep.
  - destruct a; keep.
  - destruct requested; keep. destruct (negb _); keep.
Qed.
#[local] Hint Resolve keeps_seed_message : keeps.
Lemma keeps_await_polled p n : ∀ requested, keeps any (await_polled_height m p requested n).
Proof.
  induction n as [|n IH]; intros requested; cbn [await_polled_height]; [keep|].
  eapply keeps_bind; [apply keeps_recv_timeout|]. intros [] Hm; keep.
Qed.
#[local] Hint Resolve keeps_await_polled : keeps.
Lemma keeps_poll p requested : keeps any (poll_peer_height instant m p requested).
Proof. unfold poll_peer_height. keep. destruct a1. keep. Qed.
Lemma keeps_on_stream {A} (P : A → Prop) inbox sends (x : act A) :
  Forall (incoming_ok params N) inbox → keeps P x → keeps P (on_stream inbox sends x).
Proof.
  intros Hi Hx w [Hs Ho Hw]. unfold on_stream. specialize (Hx (mkWorld (w_shared w) inbox [] sends (w_others w))).
  destruct (x _) as [[w' r]| |]; [|by apply Hx..].
  destruct Hx as [[H1 H2 _] H3]; [by split|]. by split.
Qed.
Lemma keeps_catch_up p local remote guard connected inbox sends : Forall (incoming_ok params N) inbox →
  keeps any (seed_catch_up params clock instant m p local remote guard connected inbox sends).
Proof.
  intros Hi. unfold seed_catch_up. cbv zeta. apply keeps_seq; [destruct (_ && _); keep|]. intros _.
  destruct (negb _); [keep|]. apply keeps_seq; [keep|]. intros now. destruct (is_blocked _ _); [keep|].
  apply keeps_seq; [eapply keeps_any, keeps_attempt, keeps_on_stream; [done|apply keeps_live_sync; done]|].
  intros r. keep. destruct r as [k|e].
  - apply keeps_seq; [|intros _; keep]. destruct (_ && _); keep. destruct (_ <=? _); keep.
  - apply keeps_seq; [|intros _; keep]. destruct (_ && _); keep. destruct (contains _ _); keep.
Qed.
Lemma keeps_drain fuel p g : fuelled → keeps any (drain_session fuel p g).
Proof.
  intros Hf.
  induction fuel as [|fuel IH]; cbn [drain_session]; [keep|].
  apply keeps_seq; [apply keeps_recv_session|]. intros [outbound|]; keep.
Qed.
Lemma keeps_keep_alive p requested : keeps any (keep_alive clock m p requested).
Proof.
  unfold keep_alive. apply keeps_seq.
  { apply keeps_locked. intros s Hs. eexists _, _. split; [done|]. split; [|done].
    apply shared_ok_node; [done|]. exact (node_good_clock params clock N _ (sh_good _ _ _ Hs)). }
  intros t. apply keeps_seq; [keep|]. intros _.
  eapply keeps_bind; [apply keeps_recv_timeout|]. intros [] Hm; keep.
Qed.
Lemma keeps_session_turn fuel p g guard requested connected inbox sends :
  fuelled → Forall (incoming_ok params N) inbox →
  keeps any (session_turn params clock instant m fuel p g guard requested connected inbox sends).
Proof.
  intros Hf Hi. unfold session_turn. apply keeps_seq.
  { eapply keeps_any, keeps_attempt. apply keeps_seq; [by apply keeps_drain|]. intros _. apply keeps_poll. }
  intros [[remote requested']|e]; [|keep]. apply keeps_seq; [keep|]. intros local.
  apply keeps_seq; [by apply keeps_catch_up|]. intros [guard' [[]|e]]; [|keep].
  apply keeps_seq; [eapply keeps_any, keeps_attempt, keeps_keep_alive|]. intros r. keep.
Qed.
Lemma keeps_mark_disconnected p : keeps any (mark_disconnected p).
Proof. unfold mark_disconnected. keep. Qed.
#[local] Hint Resolve keeps_mark_disconnected : keeps.
Lemma keeps_open_session connected p : keeps any (open_seed_session instant m connected p).
Proof.
  unfold open_seed_session. destruct (negb connected); [keep|]. apply keeps_seq; [keep|]. intros h.
  apply keeps_seq; [keep|]. intros hs. apply keeps_seq.
  { eapply keeps_any, keeps_attempt. apply keeps_seq; [keep|]. intros _. eapply keeps_any, keeps_recv. }
  intros [[]|e]; keep. destruct (validate_handshake _ _); keep.
Qed.
Lemma keeps_seed_session fuel p g turns : fuelled →
  Forall (λ t : bool * list Incoming * list bool, Forall (incoming_ok params N) t.1.2) turns →
  ∀ guard requested, keeps any (seed_session params clock instant m fuel p g guard requested turns).
Proof.
  intros Hf Ht. induction Ht as [|[[connected inbox] sends] turns Hi _ IH]; intros guard requested; cbn [seed_session]; [keep|].
  apply keeps_seq; [by apply keeps_session_turn|]. intros [guard' [requested'|e]]; [apply IH|keep].
Qed.

Definition fair_attempt (a : Attempt) : Prop :=
  Forall (incoming_ok params N) (at_inbox a) ∧ Forall (λ t, Forall (incoming_ok params N) t.1.2) (at_turns a).
Lemma keeps_seed_peer fuel p attempts : fuelled → Forall fair_attempt attempts →
  keeps any (seed_peer_loop params clock instant m fuel p attempts).
Proof.
  intros Hf Ha. unfold seed_peer_loop. case_bool_decide; [keep|]. generalize new_guard.
  induction Ha as [|a attempts [Hi Ht] _ IH]; intros guard; cbn [seed_attempts]; [keep|].
  apply keeps_seq; [|intros [guard' []]; [keep|apply IH]].
  apply keeps_on_stream; [done|]. apply keeps_seq; [apply keeps_open_session|].
  intros [g|]; [by apply keeps_seed_session|keep].
Qed.

(** ** The API *)
Lemma keeps_request tj aj api h arg body : h ≠ HAlphaAirdrop → keeps any (answer_request tj aj api h arg body).
Proof.
  intros Hh. apply keeps_locked. intros s Hs.
  destruct (respond_total tj aj api h arg body s) as (s' & r & -> & H). exists s', r. split; [done|]. split; [|done].
  destruct h; try (by rewrite H); [|done]. destruct H as [->|(tx & _ & ->)]; [done|].
  destruct (sh_pool_ok _ _ _ Hs) as [H1 H2].
  apply shared_ok_pool; [done|by apply admit_tx_ok|by apply admit_tx_slots].
Qed.
End tasks.

(** ** The system *)

(** A turn of a task, with what the outside world gives it. *)
Inductive turn :=
| TImport                                                     (* [import_announced_blocks] *)
| TMine (fuel : nat) (miner_addr : string) (counter : Z)      (* the miner's loop *)
| TWatchdog (connected : bool) (guard : SyncGuard)            (* the sync watchdog *)
| TDial (allow_private : bool) (scheduled : gset string) (candidate : string)
| TOpen (connected : bool) (peer_addr : string)               (* an outbound session opens *)
| TSession (fuel : nat) (peer_addr : string) (generation : Z) (guard : SyncGuard)
    (requested : option string) (turns : list (bool * list Incoming * list bool))
| TSeedPeer (fuel : nat) (peer_addr : string) (attempts : list Attempt)  (* the dialling task of a peer *)
| TInbound (addr : SocketAddr) (turns : list Turn)            (* an inbound connection *)
| TRequest (api : NodeApiState) (h : Handler) (arg : string) (body : list byte).  (* an API request *)

Section system.
Context {C : Crypto} {CL : CryptoLaws C} {TC : TxCodec} {SL : Sled} {SLL : SledLaws SL} {SC : StoreCodec}.
Context (params : VisionXParams) (clock : nat → Z) (instant : nat → Z) (N : string → Z).
Context (m : P2PConnectionManager).
Context (tx_of_json : list byte → option Tx) (airdrop_of_json : list byte → option (string * Z)).
Abbreviation admissible := (Acceptance.admissible params N).
Abbreviation incoming_ok := (incoming_ok params N).
Abbreviation shared_ok := (shared_ok params N).

Definition run_turn (t : turn) : act () :=
  match t with
  | TImport => import_announced_blocks params clock
  | TMine fuel addr counter => _ ← mining_turn params clock fuel addr counter; mret ()
  | TWatchdog connected guard => _ ← watchdog_step params clock instant m true connected guard; mret ()
  | TDial allow scheduled candidate => _ ← dial_candidate m allow scheduled candidate; mret ()
  | TOpen connected addr => _ ← open_seed_session instant m connected addr; mret ()
  | TSession fuel addr generation guard requested turns =>
      _ ← seed_session params clock instant m fuel addr generation guard requested turns; mret ()
  | TSeedPeer fuel addr attempts => _ ← seed_peer_loop params clock instant m fuel addr attempts; mret ()
  | TInbound addr turns => _ ← handle_inbound instant m addr turns; mret ()
  | TRequest api h arg body => _ ← answer_request tx_of_json airdrop_of_json api h arg body; mret ()
  end.

(** The blocks that reach the node are admissible: those its peers send and the
    one it mines.  The development airdrop, which edits accounts outside any
    block, is not requested. *)
Definition fair_turn (t : turn) (w : World) : Prop :=
  Forall incoming_ok (w_inbox w) ∧
  match t with
  | TSession _ _ _ _ _ turns => Forall (λ s, Forall incoming_ok s.1.2) turns
  | TSeedPeer _ _ attempts => Forall (fair_attempt params N) attempts
  | TMine fuel addr counter => ∀ w' counter' b,
      find_block clock fuel addr counter w = Done (w', Ok (counter', Some b)) → admissible b
  | TRequest _ h _ _ => h ≠ HAlphaAirdrop
  | _ => True
  end.

(** The turns that end by themselves, and a mining turn with fuel for every
    nonce.  (A session drains its queue first, which others may keep filling.) *)
Definition bounded_turn (t : turn) : Prop :=
  match t with
  | TMine fuel _ _ => U64_MAX < Z.of_nat fuel
  | TSession _ _ _ _ _ _ | TSeedPeer _ _ _ => False
  | _ => True
  end.

(** One step is a turn of a task; between its lock sections the other tasks
    take any number of steps. *)
#[warnings="-register-all"]
Inductive system_step : Shared → Shared → Prop :=
| sys_turn t w w' r : fair_turn t w →
    Forall (λ o, ∀ s, star system_step s (o s)) (w_others w) →
    run_turn t w = Done (w', r) → system_step (w_shared w) (w_shared w').

Context (HN : N GENESIS_HASH = 0) (Hep : epoch_blocks params ≠ 0).

Lemma run_turn_keeps (fuelled : Prop) t w : fuelled ∨ bounded_turn t →
  fair_turn t w → shared_ok (w_shared w) → Forall (harmless params N) (w_others w) →
  ends params N fuelled (λ _, True) (run_turn t w).
Proof.
  intros Hf [Hi Ht] Hs Ho. assert (world_ok params N w) as Hw by (by split).
  assert (∀ A (x : act A), keeps params N fuelled (λ _, True) x →
    ends params N fuelled (λ _, True) ((_ ← x; mret ()) w)) as Hk.
  { intros A x Hx. refine (keeps_seq params N _ _ _ _ Hx _ w Hw). intros a. by apply keeps_ret. }
  destruct t; cbn [run_turn]; [by apply keeps_import_announced_blocks| |apply Hk..].
  - cbn in Ht. unfold mining_turn, mbind, act_bind.
    pose proof (keeps_find_block params clock N fuelled fuel miner_addr counter Hf w Hw) as H.
    destruct (find_block _ _ _ _ _) as [[w1 [[c' [b|]]|e]]| |]; [|split; [apply H|done]..|done|done].
    pose proof (keeps_submit_mined params clock N HN Hep fuelled b (Ht _ _ _ eq_refl) w1 (proj1 H)) as H1.
    destruct (submit_mined _ _ _ _) as [[w2 [r|e]]| |]; [split; [apply H1|done]..|done|done].
  - by apply keeps_watchdog.
  - apply keeps_dial.
  - apply keeps_open_session.
  - apply keeps_seed_session; [done|done|by destruct Hf|done].
  - apply keeps_seed_peer; [done|done|by destruct Hf|done].
  - apply keeps_handle_turns.
  - by apply keeps_request.
Qed.

(** Steps keep the invariant; the steps of the other tasks are smaller ones. *)
Fixpoint system_step_ok s s' (H : system_step s s') {struct H} : shared_ok s → shared_ok s'.
Proof.
  destruct H as [t w w' r Hf Ho E]. intros Hs.
  assert (Forall (harmless params N) (w_others w)) as Hh.
  { clear - Ho system_step_ok. induction Ho as [|o os Hos _ IH]; constructor; [|exact IH].
    intros s Hs. specialize (Hos s). clear IH. induction Hos as [s|s1 s2 s3 H12 _ IH]; [exact Hs|].
    exact (IH (system_step_ok _ _ H12 Hs)). }
  pose proof (run_turn_keeps True t w (or_introl I) Hf Hs Hh) as H. rewrite E in H. apply H.
Qed.
Lemma system_steps_ok s s' : star system_step s s' → shared_ok s → shared_ok s'.
Proof. induction 1; eauto using system_step_ok. Qed.

(** ** Properties *)

(** C4: The running node never breaks and never panics.  Start from a good
    shared state: a consistent node whose branches follow the rules and whose
    chain is a heaviest one (if its database accepts every write and its work
    map counts the genesis block), a well-formed mempool with one transaction per sender and nonce, queues
    within their bounds, importable blocks only.  Let the importer, the miner, the sync
    watchdog, the dialling supervisor, any number of outbound and inbound
    sessions and the API take turns in any order, each interleaved at its lock
    sections with steps of the others, against peers that say anything as long
    as the blocks they hand over have truthful heights, and API clients that
    send anything (but use no development airdrop).  Every state reached is
    good, no turn from it panics, and every turn but a session's ends (a session
    first drains a queue that others may keep filling; the miner's has fuel for
    every nonce). *)
Theorem running_node_stays_good s s' :
  shared_ok s → star system_step s s' →
  shared_ok s' ∧
  ∀ t w, w_shared w = s' → fair_turn t w → Forall (λ o, ∀ x, star system_step x (o x)) (w_others w) →
    run_turn t w ≠ Panic ∧ (bounded_turn t → ∃ w' r, run_turn t w = Done (w', r)).
Proof.
  intros Hs Hss. pose proof (system_steps_ok _ _ Hss Hs) as Hs'. split; [exact Hs'|].
  intros t w <- Hf Ho.
  assert (Forall (harmless params N) (w_others w)) as Hh.
  { eapply Forall_impl; [exact Ho|]. intros o H x Hx. exact (system_steps_ok _ _ (H x) Hx). }
  split.
  - intros E. pose proof (run_turn_keeps True t w (or_introl I) Hf Hs' Hh) as H. by rewrite E in H.
  - intros Hb. pose proof (run_turn_keeps False t w (or_intror Hb) Hf Hs' Hh) as H.
    destruct (run_turn t w) as [[w' r]| |]; [by exists w', r|done..].
Qed.
End system.

(** ** A run of the system, evaluated *)
Section steady_system.
#[local] Existing Instances toy_steady toy_steady_laws toy_steady_reliable.
Definition steady_manager : P2PConnectionManager :=
  new_conn_manager (mkSocket (V4 [0; 0; 0; 0]) 7072 0) 1 2 3.
Definition steady_marked : Node :=
  with_db (<[genesis_key := string_bytes GENESIS_HASH]> (db (n_chain steady_node1))) steady_node1.
Definition steady_shared : Shared :=
  mkShared steady_marked new_peer_manager new_pool new_recovery new_registry None
    (Some [mkInbound toy_b1 "192.0.2.1:7072"]) (Some []) 0.
Definition steady_tx : Tx := toy_transfer 17 34 100 0 4 300.
(** What another task does meanwhile: a transaction is posted. *)
Definition posts (s : Shared) : Shared :=
  set_pool (submit_transaction (sh_chain s) (sh_pool s) steady_tx).1 s.
Definition steady_world : World := mkWorld steady_shared [] [] [] [posts].

Lemma steady_marked_good : node_good tiny_params toy_N steady_marked.
Proof.
  pose proof (node_ok_marker tiny_params toy_N steady_node1 (<[genesis_key := string_bytes GENESIS_HASH]> (db (n_chain steady_node1)))
    _ steady_node1_ok eq_refl) as Hn.
  split; [exact Hn| | |].
  - exact (rules_ok_genesis tiny_params toy_N _ genesis_block (no_chain _ _ _ Hn)
      ltac:(vm_compute; reflexivity) ltac:(vm_compute; reflexivity) eq_refl).
  - split; [vm_compute; reflexivity|exact (lookup_insert_eq _ _ _)].
  - intros _ _. exact (heaviest_ext (n_chain steady_node1) (n_chain steady_marked) eq_refl eq_refl eq_refl steady_node1_heaviest).
Qed.
Lemma steady_shared_ok : shared_ok tiny_params toy_N steady_shared.
Proof.
  split; cbn [steady_shared sh_node sh_pool sh_miner sh_inbound sh_registry sh_discovered]; try done.
  - exact steady_marked_good.
  - split; [apply pool_ok_new|apply one_per_slot_new].
  - intros l b [= <-] ->%list_elem_of_singleton. exact toy_b1_admissible.
  - intros q [= <-]. cbn. lia.
Qed.
Lemma posts_steps s : star (system_step tiny_params toy_clock (λ _, 0) toy_N steady_manager (λ _, Some steady_tx) (λ _, None)) s (posts s).
Proof.
  refine (star_step _ _ _ _ _ (star_refl _ _)).
  refine (sys_turn tiny_params toy_clock (λ _, 0) toy_N steady_manager (λ _, Some steady_tx) (λ _, None) (TRequest new_api_state HSubmitTransaction EmptyString [])
    (mkWorld s [] [] [] []) (mkWorld (posts s) [] [] [] []) (Ok ()) _ _ _).
  - split; [apply Forall_nil_2|discriminate].
  - apply Forall_nil_2.
  - unfold posts, run_turn, answer_request, respond, submit_transaction_http, locked, mbind, act_bind.
    cbn [w_others w_shared]. by destruct (submit_transaction _ _ _) as [p []].
Qed.
Lemma steady_import_runs :
  ran (run_turn tiny_params toy_clock (λ _, 0) steady_manager (λ _, Some steady_tx) (λ _, None) TImport steady_world)
    (λ a, (length (blocks (sh_chain (w_shared a.1))) =? 2)%nat) = true.
Proof. vm_compute. reflexivity. Qed.

Lemma running_node_stays_good_witness :
  ∃ s', star (system_step tiny_params toy_clock (λ _, 0) toy_N steady_manager (λ _, Some steady_tx) (λ _, None)) steady_shared s' ∧
    length (blocks (sh_chain s')) = 2%nat ∧ shared_ok tiny_params toy_N s'.
Proof.
  destruct (ran_Done _ _ steady_import_runs) as ([w' r] & E & Hl). apply Nat.eqb_eq in Hl. cbn [fst] in Hl.
  exists (w_shared w').
  assert (star (system_step tiny_params toy_clock (λ _, 0) toy_N steady_manager (λ _, Some steady_tx) (λ _, None)) steady_shared (w_shared w')) as Hs.
  { eapply star_step; [|apply star_refl].
    refine (sys_turn _ _ _ _ _ _ _ TImport steady_world w' r _ _ E).
    - split; [apply Forall_nil_2|exact I].
    - apply Forall_cons_2; [exact posts_steps|apply Forall_nil_2]. }
  split; [exact Hs|]. split; [exact Hl|].
  exact (proj1 (running_node_stays_good tiny_params toy_clock (λ _, 0) toy_N steady_manager (λ _, Some steady_tx) (λ _, None) eq_refl
    ltac:(discriminate) steady_shared (w_shared w') steady_shared_ok Hs)).
Defined.
End steady_system.
