(* ===== verification/CatchUp.v ===== *)
(** * Catching up with a peer

    The theory of [Sync]: downloading and importing a valid branch from a peer
    that serves it makes the node adopt a chain at least as heavy. *)
From S2P Require Import Prelude Crypto Constants Transaction Block StateRoot Difficulty HistoricalVpow VisionX Sled ChainState Storage Snapshots Reward Reorg Orphan Consistency Genesis Accept Acceptance Consensus Rules Heaviest Manager Admission Pool Net Protocol Peers Sessions Recovery World Connection Sync.

(** ** Importing a block of a valid branch *)
Section importing.
Context {C : Crypto} {CL : CryptoLaws C} {TC : TxCodec} {SL : Sled} {SLL : SledLaws SL}
  {SR : SledReliable SL} {SC : StoreCodec}.
Context (params : VisionXParams) (clock : nat → Z) (N : string → Z).
Abbreviation root := GENESIS_HASH.
Abbreviation chain_ok := (chain_ok N root).
Abbreviation ancestry := (ancestry root).
Context (HN : N root = 0) (Hep : epoch_blocks params ≠ 0).
Abbreviation node_ok := (node_ok params N).
Abbreviation admissible := (admissible params N).
(** The blocks around have distinct hashes. *)
Context (U : Block → Prop) (HU : ∀ x y, U x → U y → block_hash x = block_hash y → x = y).

Record synced_ok (n : Node) : Prop := {
  sk_node : node_ok n;
  sk_rules : rules_ok params (n_chain n);
  sk_heavy : heaviest (n_chain n);
  sk_seen h : h ∈ seen_blocks (n_chain n) → known (n_chain n) h;
  sk_held x : holds (n_chain n) x → U x;
  sk_orphans : orphans_in U (n_chain n)
}.

(** What one block adds to the blocks held. *)
Lemma core_outcome_holds n blk n' r i :
  node_ok n → admissible blk → core_outcome params clock N n blk n' r i →
  (∀ x, holds (n_chain n) x → holds (n_chain n') x) ∧
  (∀ x, holds (n_chain n') x → holds (n_chain n) x ∨ x = blk).
Proof.
  intros Hn Ha Hout. pose proof (no_chain _ _ _ Hn) as Hg.
  assert (∀ parent st now, consensus_valid params (n_chain n) now blk parent st →
    ¬ known (n_chain n) (block_hash blk)) as Hnew.
  { intros parent st now Hc.
    by destruct (consensus_valid_ok _ _ HN _ _ _ _ _ Hg Ha (cv_number _ _ _ _ _ _ Hc) Hc) as (_ & _ & ? & _). }
  destruct Hout as [e E|Hz Hh Hb E|peer now Hk E|parent st0 st Hv Heq Hp E|parent st Hv Hp E Hd|parent st rec d Hv Hp Hlt Hrd Hro Hpend].
  - rewrite E. split; [done|by left].
  - rewrite E. unfold holds. simpl. rewrite Hb. split; intros x; rewrite elem_of_app, list_elem_of_singleton; tauto.
  - rewrite E, add_orphan_state. split; [done|by left].
  - rewrite E. unfold holds. simpl. split; intros x; rewrite elem_of_app, list_elem_of_singleton; tauto.
  - pose proof (recorded_holds (n_chain n) blk (db (n_chain n')) (Hnew _ _ _ Hv)) as Hh. rewrite <- E in Hh.
    split; intros x; rewrite Hh; tauto.
  - pose proof (recorded_holds (n_chain n) blk d (Hnew _ _ _ Hv)) as Hh.
    split; intros x; rewrite (ro_holds _ _ _ _ _ Hro), Hh; tauto.
Qed.

Lemma core_outcome_seen n blk n' r i :
  core_outcome params clock N n blk n' r i →
  (∀ h, h ∈ seen_blocks (n_chain n) → known (n_chain n) h) →
  ∀ h, h ∈ seen_blocks (n_chain n') → known (n_chain n') h.
Proof.
  intros Hout Hs h. destruct (core_outcome_effects _ _ _ _ _ _ _ _ Hout) as (Hk & Hi & _).
  destruct Hout as [e E|Hz Hh Hb E|peer now Hkn E|parent st0 st Hv Heq Hp E|parent st Hv Hp E Hd|parent st rec d Hv Hp Hlt Hrd Hro Hpend].
  - intros Hin. apply Hk, Hs. by rewrite E in Hin.
  - rewrite E. simpl. intros [->%elem_of_singleton|Hin]%elem_of_union.
    + left. simpl. by rewrite lookup_insert_eq.
    + rewrite <- E. by apply Hk, Hs.
  - intros Hin. apply Hk, Hs. by rewrite E, add_orphan_state in Hin.
  - intros Hin. rewrite E in Hin. simpl in Hin.
    apply elem_of_union in Hin as [->%elem_of_singleton|Hin]; [by apply Hi|by apply Hk, Hs].
  - intros Hin. rewrite E in Hin. simpl in Hin.
    apply elem_of_union in Hin as [->%elem_of_singleton|Hin]; [by apply Hi|by apply Hk, Hs].
  - intros [Hin|Hin]%(ro_seen_inv _ _ _ _ _ Hro).
    + simpl in Hin. apply elem_of_union in Hin as [->%elem_of_singleton|Hin]; [by apply Hi|by apply Hk, Hs].
    + by apply (ro_known _ _ _ _ _ Hro).
Qed.

Lemma apply_block_synced n blk src n' r :
  synced_ok n → admissible blk → U blk → apply_block params clock n blk src = Done (n', r) →
  synced_ok n' ∧ ∀ x, holds (n_chain n) x → holds (n_chain n') x.
Proof.
  intros [Hn Hr Hv Hs Hu Ho] Ha Hb E.
  destruct (apply_block_ok params clock N HN Hep n blk src Hn Ha) as (n1 & r1 & E1 & Hn1 & _).
  rewrite E in E1. injection E1 as <- <-.
  assert (∀ I : ChainState → Prop, (∀ g p h, I g → I (set_orphans p h g)) →
    (∀ n blk n' r i, node_ok n → node_ok n' → admissible blk → U blk →
      core_outcome params clock N n blk n' r i → I (n_chain n) → I (n_chain n')) →
    I (n_chain n) → orphans_in U (n_chain n') ∧ I (n_chain n')) as Hkeep.
  { intros I H1 H2 Hi. exact (apply_block_keeps params clock N HN Hep U I H1 H2 n blk src n' r Hn Ho Hi Ha Hb E). }
  split; [|intros x Hx; apply (Hkeep (λ g, holds g x)); [done| |done]].
  - split; [done| | | | |].
    + exact (apply_block_rules params clock N HN Hep n blk src n' r Hn Ha Hr E).
    + exact (apply_block_heaviest params clock N HN Hep n blk src n' r Hn Ha Hv E).
    + apply (Hkeep (λ g, ∀ h, h ∈ seen_blocks g → known g h)); [done| |done].
      intros m b m' r' i _ _ _ _ Hout. exact (core_outcome_seen _ _ _ _ _ Hout).
    + apply (Hkeep (λ g, ∀ x, holds g x → U x)); [done| |done].
      intros m b m' r' i Hm _ Hab Hub Hout Hall x Hx.
      destruct (core_outcome_holds _ _ _ _ _ Hm Hab Hout) as [_ Hsup].
      destruct (Hsup x Hx) as [?| ->]; auto.
    + apply (Hkeep (λ _, True)); done.
  - intros m b m' r' i Hm _ Hab _ Hout. by apply (core_outcome_holds _ _ _ _ _ Hm Hab Hout).
Qed.

Lemma reliable_storage r : ¬ storage_failure r.
Proof.
  intros [[(d & ops & H)|(d & k & v & H)] _].
  - by rewrite db_apply_batch_total in H.
  - by rewrite db_insert_total in H.
Qed.

(** An integrated block is known when [apply_block] returns. *)
Lemma apply_block_integrates n blk src m r n' r' :
  node_ok n → admissible blk → apply_core params clock n blk src = Done (m, r, true) →
  apply_block params clock n blk src = Done (n', r') → r' = r ∧ known (n_chain n') (block_hash blk).
Proof.
  intros Hn Ha Ec E. unfold apply_block in E. cbn [apply_fuel] in E. rewrite Ec in E. cbn [mbind run_bind] in E.
  destruct (apply_core_refines params clock N HN Hep n blk src Hn Ha) as (m1 & r1 & i1 & Ec1 & Hout & Hm).
  rewrite Ec in Ec1. injection Ec1 as <- <- <-.
  destruct (core_outcome_effects _ _ _ _ _ _ _ _ Hout) as (_ & Hki & Hp). specialize (Hki eq_refl).
  destruct Hp as [Hp|[_ ?]]; [|done].
  set (f := Z.to_nat (pool_total (orphan_pool (n_chain n)))) in *.
  destruct (process_orphans_total params clock N f m (block_hash blk)
    (apply_fuel_total params clock N HN Hep f) Hm Hki) as (n2 & k & Eo & _ & Hk & _).
  { rewrite Hp. pose proof (pool_total_nonneg (orphan_pool (n_chain n))). unfold f. lia. }
  rewrite Eo in E. cbn [mbind run_bind] in E. injection E as <- <-. split; [done|by apply Hk].
Qed.

(** A block follows the rules on top of the branch [bs], whatever the clock
    reads now. *)
Record branch_next (bs : list Block) (b : Block) : Prop := {
  bn_next : next_ok params bs b;
  bn_parent p : last bs = Some p → b_parent b = block_hash p;
  bn_number : b_number b ≠ 0;
  bn_admissible : admissible b;
  bn_known : U b;
  bn_time k : b_timestamp b ≤ wadd64 (clock k) MAX_FUTURE_TIMESTAMP_SECS;
  bn_replay : ∃ st, replay_blocks empty_exec (bs ++ [b]) = Ok st
}.

Lemma replay_blocks_snoc st bs b st' :
  replay_blocks st (bs ++ [b]) = Ok st' ↔
  ∃ st0, replay_blocks st bs = Ok st0 ∧ replay_block st0 b = Ok st'.
Proof.
  revert st. induction bs as [|x bs IH]; intros st; cbn [app replay_blocks].
  - rewrite bind_Ok. split.
    + intros (s & H & [= ->]). eauto.
    + intros (s & [= ->] & H). eauto.
  - rewrite bind_Ok. split.
    + intros (s1 & H1 & (s2 & H2 & H3)%IH). exists s2. split; [|done]. apply bind_Ok. eauto.
    + intros (s2 & (s1 & H1 & H2)%bind_Ok & H3). exists s1. split; [done|]. apply IH. eauto.
Qed.

Lemma import_next n bs p b src :
  synced_ok n → ancestry (n_chain n) bs p → branch_next bs b →
  ¬ known (n_chain n) (block_hash b) →
  ∃ n' r, apply_block params clock n b src = Done (n', r) ∧
    (r = CanonExtension (b_number b) ∨ r = SideChain (b_number b)) ∧ synced_ok n' ∧
    (∀ x, holds (n_chain n) x → holds (n_chain n') x) ∧ holds (n_chain n') b.
Proof.
  intros Hs Hanc [Hnext Hpar Hnz Ha Hb Ht [st Hrep]] Hnk.
  pose proof Hs as [Hn Hr Hv Hseen Hu Ho]. pose proof (no_chain _ _ _ Hn) as Hg.
  destruct Hr as (Hne & Horig & _). pose proof Hanc as (_ & Hf & Hl).
  specialize (Hpar _ Hl).
  apply replay_blocks_snoc in Hrep as (st0 & Hr0 & Hr1).
  assert (consensus_valid params (n_chain n) (clock (n_ticks n)) b p st) as Hc.
  { eapply (next_consensus_valid params N); [exact Hg|exact Horig|exact Hanc|exact Hpar|exact Hnz|exact Hnext| |
      apply Ht|exact Hr0|exact Hr1]. intros Hin. by apply Hnk, Hseen. }
  assert (known (n_chain n) (b_parent b)) as Hkp.
  { rewrite Hpar. eapply holds_known; [exact Hg|]. eapply Forall_forall; [exact Hf|by apply last_Some_elem_of]. }
  destruct (apply_core_decides params clock N HN Hep n b src Hn Ha Hnz Hkp)
    as (m & r & i & Ec & Hout & _ & Hacc).
  destruct (apply_block_ok params clock N HN Hep n b src Hn Ha) as (n' & r' & E & Hn' & _).
  assert (i = true ∧ (r = CanonExtension (b_number b) ∨ r = SideChain (b_number b))) as [-> Hres].
  { destruct (Hacc _ _ Hc) as [Hok|Hfail]; [|by destruct (reliable_storage r)].
    destruct Hout; try done; auto. }
  destruct (apply_block_integrates n b src m r n' r' Hn Ha Ec E) as [-> Hk].
  exists n', r. split; [exact E|]. split; [exact Hres|].
  destruct (apply_block_synced n b src n' r Hs Ha Hb E) as [Hs' Hmono].
  split; [exact Hs'|]. split; [exact Hmono|].
  destruct (known_holds _ _ _ _ (no_chain _ _ _ Hn') Hk) as (x & Hx & Hh).
  by rewrite <- (HU x b (sk_held _ Hs' x Hx) Hb Hh).
Qed.

(** [news] follows the rules on top of [bs], block by block. *)
Definition branch_ok (bs news : list Block) : Prop :=
  ∀ i b, news !! i = Some b → branch_next (bs ++ take i news) b.

Lemma branch_ok_cons bs b news : branch_ok bs (b :: news) →
  branch_next bs b ∧ branch_ok (bs ++ [b]) news.
Proof.
  intros H. split.
  - specialize (H 0%nat b eq_refl). by rewrite take_0, app_nil_r in H.
  - intros i x Hx. specialize (H (S i) x Hx). by rewrite <- app_assoc.
Qed.

(** Every part of the canonical chain follows the rules on top of the rest. *)
Lemma chain_branch g bs news : chain_ok g → rules_ok params g → blocks g = bs ++ news → bs ≠ [] →
  (∀ b, b ∈ news → U b) → (∀ b k, b ∈ news → b_timestamp b ≤ wadd64 (clock k) MAX_FUTURE_TIMESTAMP_SECS) →
  branch_ok bs news.
Proof.
  intros Hg (Hne & _ & Hrules) Eb Hbs Hu Ht i b Hi. pose proof (co_canon _ _ _ Hg) as Hc.
  destruct (tip_ancestry N _ Hg Hne) as (t & Hanc & _). specialize (Hrules _ _ Hanc).
  destruct (co_accounts _ _ _ Hg) as (sa & Hacc & _).
  destruct (length bs) as [|j] eqn:Hj; [by destruct bs|].
  assert (blocks g !! S (j + i) = Some b) as Hi'.
  { rewrite Eb, lookup_app_r by lia. by replace (S (j + i) - length bs)%nat with i by lia. }
  assert (bs ++ take i news = take (S (j + i)) (blocks g)) as ->.
  { rewrite Eb, take_app_ge by lia. by replace (S (j + i) - length bs)%nat with i by lia. }
  pose proof (cn_number _ _ Hc _ _ Hi') as Hn. pose proof (Forall_lookup_1 _ _ _ _ (co_blocks _ _ _ Hg) Hi') as Hok.
  split; [exact (Hrules _ _ Hi')| |lia| |apply Hu; by eapply list_elem_of_lookup_2| |].
  - intros p Hp. apply (cn_link _ _ Hc (j + i) p b); [|done].
    rewrite last_lookup, length_take_le in Hp by (apply lookup_lt_Some in Hi'; lia).
    simpl pred in Hp. by apply lookup_take_Some in Hp as [? _].
  - split; [apply (bo_load _ _ _ Hok)| |intros; lia].
    intros _ Hnz. split; [apply (bo_number _ _ _ Hok)|]. split; [by apply (bo_parent _ _ _ Hok)|apply (bo_range _ _ _ Hok)].
  - intros k. apply Ht. by eapply list_elem_of_lookup_2.
  - rewrite <- take_S_r by done. rewrite <- (take_drop (S (S (j + i))) (blocks g)) in Hacc.
    apply replay_blocks_app in Hacc as (st & Hst & _). by exists st.
Qed.

Lemma ancestry_push g bs p b : chain_ok g → ancestry g bs p → holds g b →
  b_parent b = block_hash p → b_number b ≠ 0 → ancestry g (bs ++ [b]) b.
Proof.
  intros Hg Ha Hb Hp Hn. split; [|split; [|by rewrite last_snoc]].
  - exact (ancestry_extend _ _ _ _ _ _ Hg Ha (holds_ok _ _ _ _ Hg Hb) Hp Hn).
  - apply Forall_app_2; [apply Ha|by apply Forall_singleton].
Qed.
Lemma block_by_hash_known g h : chain_ok g → (is_Some (block_by_hash g h) ↔ known g h).
Proof.
  intros Hg. split.
  - intros [b Hb]. destruct (resolve_block_holds N g h b Hg Hb) as [Hh <-]. by eapply holds_known.
  - intros Hk. exact (resolve_block_known N g h Hg Hk).
Qed.

(** A state that differs in the cached root and the recovery data. *)
Lemma synced_ok_settle n g' :
  synced_ok n → g' = set_pending None (refresh_cached_state_root_from_tip (n_chain n)) →
  synced_ok (set_chain g' n) ∧ ∀ x, holds (n_chain n) x → holds g' x.
Proof.
  intros Hs ->. set (g := n_chain n).
  assert (∀ c, let g1 := set_pending None (set_cached_state_root c g) in
    synced_ok (set_chain g1 n) ∧ ∀ x, holds g x → holds g1 x) as Hc.
  { intros c g1. destruct Hs as [[Hg Hd Ho] Hr Hv Hse Hu Hor]. split; [|done].
    split; cbn [set_chain n_chain n_datasets].
    - split; cbn [set_chain n_chain n_datasets]; [|done|by apply (orphans_ok_pool params N g)].
      by destruct Hg; split.
    - by apply (rules_ok_ext params g).
    - by apply (heaviest_ext g).
    - exact Hse.
    - exact Hu.
    - exact Hor. }
  apply Hc.
Qed.

(** ** Importing a whole branch *)
Context (instant : nat → Z) (m : P2PConnectionManager) (use_mempool : bool).

Lemma settle_reorg_node s : sh_node (settle_reorg use_mempool s) =
  set_chain (set_pending None (refresh_cached_state_root_from_tip (n_chain (sh_node s)))) (sh_node s).
Proof.
  unfold settle_reorg. destruct (pending_reorg_recovery _); [|done]. by destruct use_mempool.
Qed.

Lemma import_one_run peer_addr block w : w_others w = [] →
  import_one params clock peer_addr block w =
  if bool_decide (is_Some (block_by_hash (sh_chain (w_shared w)) (block_hash block))) then Done (w, Ok None)
  else '(n, r) ← apply_block params clock (sh_node (w_shared w)) block (Some peer_addr);
       Done (mkWorld (set_node n (w_shared w)) (w_inbox w) (w_outbox w) (w_sends w) [], Ok (Some r)).
Proof.
  intros Ho. unfold import_one, locked. rewrite Ho. case_bool_decide; [by destruct w; simplify_eq/=|].
  by destruct (apply_block _ _ _ _ _) as [[]| |].
Qed.

Lemma import_honest peer_addr news : ∀ bs p w k,
  synced_ok (sh_node (w_shared w)) → ancestry (sh_chain (w_shared w)) bs p →
  branch_ok bs news → w_others w = [] →
  ∃ w' k', import_fetched_blocks params clock use_mempool peer_addr news k w = Done (w', Ok k') ∧
    synced_ok (sh_node (w_shared w')) ∧ w_outbox w' = w_outbox w ∧
    ∃ p', ancestry (sh_chain (w_shared w')) (bs ++ news) p'.
Proof.
  induction news as [|b news IH]; intros bs p w k Hs Hanc Hbr Ho; cbn [import_fetched_blocks].
  { exists w, k. rewrite app_nil_r. eauto. }
  apply branch_ok_cons in Hbr as [Hb Hbr].
  rewrite (assoc_L (++) bs [b] news : bs ++ b :: news = _).
  pose proof (sk_node _ Hs) as Hn. pose proof (no_chain _ _ _ Hn) as Hg.
  assert (∀ g', chain_ok g' → (∀ x, holds (sh_chain (w_shared w)) x → holds g' x) → holds g' b →
    ancestry g' (bs ++ [b]) b) as Hpush.
  { intros g' Hg' Hm Hh. refine (ancestry_push _ _ p _ Hg' _ Hh _ (bn_number _ _ Hb)).
    - by apply (ancestry_mono root (sh_chain (w_shared w))).
    - apply (bn_parent _ _ Hb). apply Hanc. }
  unfold mbind at 1, act_bind. rewrite (import_one_run _ _ _ Ho). case_bool_decide as Hkn.
  - apply (block_by_hash_known _ _ Hg) in Hkn as (x & Hx & Hh)%(known_holds N _ _ _ Hg).
    assert (x = b) as -> by (apply HU; [by apply (sk_held _ Hs)|apply Hb|done]).
    apply (IH _ b); [done| |done..]. by apply Hpush.
  - rewrite (block_by_hash_known _ _ Hg) in Hkn.
    destruct (import_next _ _ _ _ (Some peer_addr) Hs Hanc Hb Hkn) as (n' & r & -> & Hr & Hs' & Hm & Hh).
    cbn [mbind run_bind].
    destruct Hr as [-> | ->].
    + unfold mbind at 1, act_bind, update_shared, locked. cbn [w_others].
      destruct (synced_ok_settle n' _ Hs' eq_refl) as [Hs2 Hm2].
      match goal with |- ∃ w' k', import_fetched_blocks _ _ _ _ _ ?k1 ?w1 = _ ∧ _ => apply (IH _ b w1 k1) end;
        cbn [w_shared]; [|unfold sh_chain|done|done];
        rewrite settle_reorg_node; cbn [sh_node set_node set_chain n_chain]; [exact Hs2|].
      apply Hpush; [exact (no_chain _ _ _ (sk_node _ Hs2))|auto|auto].
    + match goal with |- ∃ w' k', import_fetched_blocks _ _ _ _ _ ?k1 ?w1 = _ ∧ _ => apply (IH _ b w1 k1) end;
        [done| |done..].
      apply Hpush; [exact (no_chain _ _ _ (sk_node _ Hs'))|exact Hm|exact Hh].
Qed.

(** ** Downloading a branch from a peer that serves it *)
Lemma branch_numbers bs p news : last bs = Some p → N (block_hash p) = b_number p → branch_ok bs news →
  ∀ i b, news !! i = Some b → N (block_hash b) = b_number p + 1 + Z.of_nat i.
Proof.
  intros Hl HNp Hbr i. induction i as [i IH] using lt_wf_ind. intros b Hi. specialize (Hbr i b Hi) as Hb.
  destruct (ad_number _ _ _ (bn_admissible _ _ Hb) (nx_pow _ _ _ (bn_next _ _ Hb)) (bn_number _ _ Hb)) as (H1 & H2 & _).
  destruct i as [|i].
  - rewrite take_0, app_nil_r in Hb. rewrite (bn_parent _ _ Hb p Hl) in H2. lia.
  - destruct (lookup_lt_is_Some_2 news i) as [q Hq]; [apply lookup_lt_Some in Hi; lia|].
    specialize (IH i ltac:(lia) q Hq).
    rewrite (bn_parent _ _ Hb q) in H2; [lia|].
    by rewrite (take_S_r _ _ _ Hq), (assoc_L (++)), last_snoc.
Qed.

Lemma branch_hash_inj bs p news i j b c : last bs = Some p → N (block_hash p) = b_number p → branch_ok bs news →
  news !! i = Some b → news !! j = Some c → block_hash b = block_hash c → i = j.
Proof.
  intros Hl HNp Hbr Hi Hj E.
  pose proof (branch_numbers _ _ _ Hl HNp Hbr i b Hi). pose proof (branch_numbers _ _ _ Hl HNp Hbr j c Hj).
  rewrite E in *. lia.
Qed.

Definition served (news : list Block) : list P2PMessage := MBlock <$> reverse news.
(** The requests for the blocks of a branch, from its tip down. *)
Definition requests (news : list Block) : list P2PMessage := GetBlock ∘ block_hash <$> reverse news.

Lemma read_shared_run {A} (f : Shared → A) w : w_others w = [] →
  read_shared f w = Done (w, Ok (f (w_shared w))).
Proof. intros Ho. unfold read_shared, locked. rewrite Ho. destruct w; simplify_eq/=. done. Qed.
Lemma send_message_run msg w : w_sends w = [] →
  send_message msg w = Done (set_stream (w_inbox w) (w_outbox w ++ [msg]) [] w, Ok ()).
Proof. intros Hs. unfold send_message. by rewrite Hs. Qed.

(** A download of the branch [news] on top of [bs], whose last block is [p]:
    [fetched] is there, [pre] is yet to come. *)
Section download.
Context (bs : list Block) (p : Block) (news : list Block).
Context (Hl : last bs = Some p) (HNp : N (block_hash p) = b_number p) (Hbr : branch_ok bs news).

Record fetching (pre fetched : list Block) (seen : gset string) (w : World) : Prop := {
  ft_split : pre ++ fetched = news;
  ft_others : w_others w = [];
  ft_sends : w_sends w = [];
  ft_chain : chain_ok (sh_chain (w_shared w));
  ft_known : known (sh_chain (w_shared w)) (block_hash p);
  ft_unknown : Forall (λ b, ¬ known (sh_chain (w_shared w)) (block_hash b)) pre;
  ft_seen h : h ∈ seen → h ∈ block_hash <$> fetched
}.

(** The next block is asked for. *)
Lemma fetch_ask pre c fetched seen w fuel : fetching (pre ++ [c]) fetched seen w →
  fetch_branch (S fuel) (block_hash c) fetched seen w =
  (n ← inbox_fuel;
   block ← await_block n;
   if negb (bool_decide (block_hash block = block_hash c)) then fail (WrongBlock (block_hash c) (block_hash block))
   else if b_number block =? 0 then mret (block :: fetched)
   else fetch_branch fuel (b_parent block) (block :: fetched) ({[ block_hash c ]} ∪ seen))
  (set_stream (w_inbox w) (w_outbox w ++ [GetBlock (block_hash c)]) [] w).
Proof.
  intros [Hnews Ho Hsd Hg _ Hnk Hseen]. cbn [fetch_branch].
  rewrite (act_bind_Done _ _ _ _ _ (read_shared_run _ _ Ho)).
  apply Forall_app in Hnk as [_ Hc]. apply Forall_cons in Hc as [Hc _].
  rewrite bool_decide_false by (rewrite (block_by_hash_known _ _ Hg); exact Hc).
  assert (news !! length pre = Some c) as Hi by (subst; rewrite <- app_assoc; apply list_lookup_middle; done).
  rewrite bool_decide_false.
  - by rewrite (act_bind_Done _ _ _ _ _ (send_message_run _ _ Hsd)).
  - intros Hs. apply Hseen, list_elem_of_fmap in Hs as (x & E & [j Hj]%list_elem_of_lookup).
    assert (news !! (length pre + S j)%nat = Some x) as Hx.
    { subst. rewrite <- app_assoc, lookup_app_r by lia. by replace (length pre + S j - length pre)%nat with (S j) by lia. }
    pose proof (branch_hash_inj _ _ _ _ _ _ _ Hl HNp Hbr Hi Hx E). lia.
Qed.

(** It comes, or the stream ends. *)
Lemma fetch_next pre c fetched seen w fuel l : fetching (pre ++ [c]) fetched seen w →
  w_inbox w = Received (MBlock c) :: l →
  let w1 := set_stream l (w_outbox w ++ [GetBlock (block_hash c)]) [] w in
  fetch_branch (S fuel) (block_hash c) fetched seen w =
    fetch_branch fuel (default (block_hash p) (block_hash <$> last pre)) (c :: fetched) ({[ block_hash c ]} ∪ seen) w1 ∧
  fetching pre (c :: fetched) ({[ block_hash c ]} ∪ seen) w1.
Proof.
  intros Hft Hin w1. rewrite (fetch_ask _ _ _ _ _ fuel Hft), Hin. destruct Hft as [Hnews Ho Hsd Hg Hkp Hnk Hseen].
  assert (news !! length pre = Some c) as Hi by (rewrite <- Hnews, <- app_assoc; apply list_lookup_middle; done).
  assert (b_parent c = default (block_hash p) (block_hash <$> last pre)) as Hpar.
  { rewrite (bn_parent _ _ (Hbr _ _ Hi) (default p (last pre))); [by destruct (last pre)|].
    rewrite <- Hnews, <- app_assoc, take_app_length, last_app. by destruct (last pre). }
  split.
  - do 2 act_step. cbn [next_incoming]. rewrite bool_decide_true by done. cbn [negb].
    rewrite (proj2 (Z.eqb_neq _ _) (bn_number _ _ (Hbr _ _ Hi))). by rewrite Hpar.
  - split; cbn [w1 set_stream w_shared w_others w_sends]; [by rewrite <- Hnews, <- app_assoc|done..| |].
    + by apply Forall_app in Hnk as [? _].
    + rewrite fmap_cons. intros h [->%elem_of_singleton|Hh]%elem_of_union; [by left|right; by apply Hseen].
Qed.
Lemma fetch_blocked pre c fetched seen w fuel : fetching (pre ++ [c]) fetched seen w → w_inbox w = [] →
  fetch_branch (S fuel) (block_hash c) fetched seen w =
    Done (set_stream [] (w_outbox w ++ [GetBlock (block_hash c)]) [] w, Err ReadFailed).
Proof. intros Hft Hin. rewrite (fetch_ask _ _ _ _ _ _ Hft), Hin. done. Qed.

(** From a peer that serves the whole branch, all of it is fetched. *)
Lemma fetch_honest rest : ∀ pre fetched seen fuel w, fetching pre fetched seen w →
  w_inbox w = (Received <$> served pre) ++ rest → (length pre < fuel)%nat →
  ∃ w', fetch_branch fuel (default (block_hash p) (block_hash <$> last pre)) fetched seen w = Done (w', Ok news) ∧
    w_shared w' = w_shared w ∧ w_others w' = [] ∧ w_outbox w' = w_outbox w ++ requests pre.
Proof.
  intros pre. induction pre as [|c pre IH] using rev_ind; intros fetched seen fuel w Hft Hin Hf;
    (destruct fuel as [|fuel]; [simpl in *; lia|]).
  { destruct Hft as [<- Ho _ Hg Hkp _ _]. cbn [fetch_branch last fmap option_fmap option_map default].
    rewrite (act_bind_Done _ _ _ _ _ (read_shared_run _ _ Ho)).
    rewrite bool_decide_true by (by apply (block_by_hash_known _ _ Hg)). exists w. by rewrite app_nil_r. }
  rewrite last_snoc. change (default _ (block_hash <$> Some c)) with (block_hash c).
  unfold served in Hin. rewrite reverse_snoc in Hin.
  destruct (fetch_next pre c fetched seen w fuel _ Hft Hin) as [-> Hft1].
  rewrite length_app in Hf. simpl in Hf.
  destruct (IH _ _ fuel _ Hft1 eq_refl ltac:(lia)) as (w' & Ew & Hs & Ho & Hb). exists w'.
  split_and!; [exact Ew|exact Hs|exact Ho|]. rewrite Hb. cbn [set_stream w_outbox].
  unfold requests. by rewrite reverse_snoc, <- app_assoc.
Qed.
(** While the peer has sent only [j] blocks of it, the next one is awaited. *)
Lemma fetch_partial : ∀ pre fetched seen fuel w j, fetching pre fetched seen w →
  w_inbox w = Received <$> take j (served pre) → (j < length pre)%nat → (j < fuel)%nat →
  ∃ w', fetch_branch fuel (default (block_hash p) (block_hash <$> last pre)) fetched seen w = Done (w', Err ReadFailed) ∧
    w_outbox w' = w_outbox w ++ take (S j) (requests pre).
Proof.
  intros pre. induction pre as [|c pre IH] using rev_ind; intros fetched seen fuel w j Hft Hin Hj Hf; [simpl in *; lia|].
  destruct fuel as [|fuel]; [lia|]. rewrite last_snoc. change (default _ (block_hash <$> Some c)) with (block_hash c).
  unfold served in Hin. unfold requests. rewrite reverse_snoc in *. destruct j as [|j].
  { rewrite (fetch_blocked _ _ _ _ _ _ Hft Hin). by eexists. }
  destruct (fetch_next pre c fetched seen w fuel _ Hft Hin) as [-> Hft1].
  rewrite length_app in Hj. simpl in Hj.
  destruct (IH _ _ fuel _ j Hft1 eq_refl ltac:(lia) ltac:(lia)) as (w' & Ew & Hb). exists w'.
  split; [exact Ew|]. rewrite Hb. cbn [set_stream w_outbox]. by rewrite <- app_assoc.
Qed.
End download.

(** ** The whole session *)

(** The opening of a session: the peer accepts the handshake, may ask for our
    height, and reports its own. *)
Definition greeting (hs : HandshakeMessage) (asks : bool) (remote : ChainSummary) : list P2PMessage :=
  MHandshake hs :: (if asks then [GetHeight] else []) ++ [Height remote].
Definition our_opening (s : Shared) (asks : bool) : list P2PMessage :=
  [MHandshake (local_handshake m (sh_peers s) (current_height (sh_chain s))); GetHeight] ++
  (if asks then [Height (from_chain (sh_chain s))] else []).
Definition ahead (local remote : ChainSummary) : bool :=
  (sm_height local <? sm_height remote) ||
  ((sm_cumulative_work local <? sm_cumulative_work remote)
   && negb (bool_decide (sm_tip_hash remote = sm_tip_hash local))).

(** What follows the opening. *)
Definition sync_chain (peer_addr : string) (local remote : ChainSummary) : act Z :=
  if ahead local remote then
    match sm_tip_hash remote with
    | None => fail (NoTipHash (sm_height remote))
    | Some tip =>
        n ← inbox_fuel;
        fetched ← fetch_branch n tip [] ∅;
        import_fetched_blocks params clock use_mempool peer_addr fetched 0
    end
  else mret 0.

Lemma session_opens s peer_addr hs asks remote rest sent :
  is_Some (parse_socket peer_addr) → validate_handshake hs (cm_local_node_nonce m) = Accepted →
  ∃ s', sh_node s' = sh_node s ∧
    live_sync_from_peer params clock instant m use_mempool true peer_addr
      (mkWorld s ((Received <$> greeting hs asks remote) ++ rest) sent [] []) =
    sync_chain peer_addr (from_chain (sh_chain s)) remote (mkWorld s' rest (sent ++ our_opening s asks) [] []).
Proof.
  intros [sock Hsock] Hhs. eexists (tick (set_peers _ _)). split.
  2: { unfold live_sync_from_peer. rewrite bool_decide_false by (by rewrite Hsock).
    cbn [negb greeting app fmap list_fmap]. do 4 act_step. rewrite Hhs. do 2 act_step.
    unfold our_opening, sync_chain. destruct asks; cbn [app]; do 3 act_step; rewrite <- ?app_assoc; cbn [app].
    all: rewrite <- negb_orb. all: match goal with |- (if negb ?b then _ else _) _ = _ =>
        change b with (ahead (from_chain (sh_chain s)) remote) end.
    all: destruct (ahead _ _); reflexivity. }
  reflexivity.
Qed.

(** The whole of what a peer that serves the branch says. *)
Definition honest_peer (hs : HandshakeMessage) (asks : bool) (remote : ChainSummary) (news : list Block) : list Incoming :=
  Received <$> greeting hs asks remote ++ served news.

Lemma last_branch (bs : list Block) p news : last bs = Some p →
  block_hash <$> last (bs ++ news) = Some (default (block_hash p) (block_hash <$> last news)).
Proof. intros Hl. rewrite last_app. by destruct (last news); simpl; rewrite ?Hl. Qed.

(** The session with such a peer, and what is said in it. *)
Lemma sync_imports s peer_addr hs asks remote bs p news rest sent :
  synced_ok (sh_node s) → ancestry (sh_chain s) bs p → branch_ok bs news →
  Forall (λ b, ¬ known (sh_chain s) (block_hash b)) news →
  is_Some (parse_socket peer_addr) → validate_handshake hs (cm_local_node_nonce m) = Accepted →
  sm_tip_hash remote = block_hash <$> last (bs ++ news) → ahead (from_chain (sh_chain s)) remote = true →
  ∃ w' imported,
    live_sync_from_peer params clock instant m use_mempool true peer_addr
      (mkWorld s (honest_peer hs asks remote news ++ rest) sent [] []) = Done (w', Ok imported) ∧
    synced_ok (sh_node (w_shared w')) ∧ w_outbox w' = sent ++ our_opening s asks ++ requests news ∧
    ∃ p', ancestry (sh_chain (w_shared w')) (bs ++ news) p'.
Proof.
  intros Hs Hanc Hbr Hnk Hsock Hhs Htip Hah. pose proof (no_chain _ _ _ (sk_node _ Hs)) as Hg.
  pose proof Hanc as (_ & Hf & Hl).
  assert (holds (sh_chain s) p) as Hhp by (eapply Forall_forall; [exact Hf|by apply last_Some_elem_of]).
  unfold honest_peer. rewrite fmap_app, <- app_assoc.
  destruct (session_opens s peer_addr hs asks remote ((Received <$> served news) ++ rest) sent Hsock Hhs) as (s' & Hn & ->).
  unfold sync_chain. rewrite Hah, Htip, (last_branch _ _ _ Hl). act_step.
  destruct (fetch_honest bs p news Hl (bo_number _ _ _ (holds_ok N _ _ _ Hg Hhp)) Hbr rest news [] ∅
    (S (length ((Received <$> served news) ++ rest)))
    (mkWorld s' ((Received <$> served news) ++ rest) (sent ++ our_opening s asks) [] []))
    as (w2 & Ef & Hsh & Ho2 & Hb2).
  - split; cbn [w_shared w_others w_sends]; unfold sh_chain; rewrite ?Hn; try done; [apply app_nil_r|].
    by apply (holds_known N _ _ _ Hg).
  - done.
  - unfold served. rewrite length_app, !length_fmap, length_reverse. lia.
  - rewrite (act_bind_Done _ _ _ _ _ Ef). cbn [w_shared] in Hsh.
    destruct (import_honest peer_addr news bs p w2 0) as (w' & k & Ei & Hs' & Hb' & Hp');
      [unfold sh_chain; by rewrite Hsh, Hn..|done|done|].
    exists w', k. split_and!; [exact Ei|exact Hs'| |exact Hp'].
    rewrite Hb', Hb2. cbn [w_outbox]. by rewrite <- app_assoc.
Qed.

(** A chain whose tip we have not is not ours. *)
Lemma unknown_tip g t : chain_ok g → ¬ known g (block_hash t) → sm_tip_hash (from_chain g) ≠ Some (block_hash t).
Proof.
  intros Hg Hnk E. unfold from_chain in E. simpl in E. case_bool_decide as Hb; [done|]. injection E as E.
  destruct (tip_ancestry N _ Hg Hb) as (q & (_ & _ & Hl) & Hqh). apply Hnk. rewrite <- E, Hqh.
  eapply holds_known; [exact Hg|]. left. by apply last_Some_elem_of.
Qed.

(** C34: Synchronisation makes progress.  Take a consistent node on a heaviest
    branch, over a database that refuses no write, and suppose the blocks
    around have distinct hashes and truthful heights.  When the peer serves a branch that
    follows the consensus rules on top of a branch the node holds, and claims
    more height or more work than the node has, the session succeeds, all of
    the branch is imported, the node stays consistent, and its canonical chain
    is then at least as heavy as the branch, however many reorganisations and
    orphans the import goes through. *)
Theorem sync_adopts_heavier_branch w peer_addr hs asks remote bs p news rest :
  synced_ok (sh_node (w_shared w)) → ancestry (sh_chain (w_shared w)) bs p →
  branch_ok bs news → Forall (λ b, ¬ known (sh_chain (w_shared w)) (block_hash b)) news → news ≠ [] →
  is_Some (parse_socket peer_addr) →
  validate_handshake hs (cm_local_node_nonce m) = Accepted →
  sm_tip_hash remote = block_hash <$> last news →
  let local := from_chain (sh_chain (w_shared w)) in
  sm_height local < sm_height remote ∨ sm_cumulative_work local < sm_cumulative_work remote →
  w_inbox w = honest_peer hs asks remote news ++ rest → w_sends w = [] → w_others w = [] →
  ∃ w' imported, live_sync_from_peer params clock instant m use_mempool true peer_addr w = Done (w', Ok imported) ∧
    node_ok (sh_node (w_shared w')) ∧ (∃ p', ancestry (sh_chain (w_shared w')) (bs ++ news) p') ∧
    total_difficulty (bs ++ news) ≤ total_difficulty (blocks (sh_chain (w_shared w'))).
Proof.
  intros Hs Hanc Hbr Hnk Hne Hsock Hhs Htip local Hahead Hin Hsd Ho.
  pose proof (no_chain _ _ _ (sk_node _ Hs)) as Hg.
  destruct (last_is_Some news) as [_ [t Ht]]; [done|].
  assert (sm_tip_hash local ≠ Some (block_hash t)) as Htl.
  { apply (unknown_tip _ _ Hg). rewrite Forall_forall in Hnk. by apply Hnk, last_Some_elem_of. }
  assert (ahead local remote = true) as Hah.
  { unfold ahead. rewrite bool_decide_false by (rewrite Htip, Ht; intros E; by apply Htl). lia. }
  destruct w as [s ib ob sd os]. cbn [w_inbox w_sends w_others w_shared] in *. subst ib sd os.
  destruct (sync_imports s peer_addr hs asks remote bs p news rest ob Hs Hanc Hbr Hnk Hsock Hhs)
    as (w' & k & E & Hs' & _ & Hp'); [by rewrite Htip, last_app, Ht|exact Hah|].
  exists w', k. split_and!; [exact E|apply Hs'|exact Hp'|].
  destruct Hp' as [p' Hp']. exact (hv_max _ (sk_heavy _ Hs') _ _ Hp').
Qed.
End importing.

(** Whether a hash is known, decided. *)
Definition knows {SL : Sled} (g : ChainState) (h : string) : bool :=
  bool_decide (is_Some (canon_index g !! h)) || bool_decide (is_Some (side_blocks g !! h)).
Lemma knows_spec {SL : Sled} g h : knows g h = true ↔ known g h.
Proof. unfold knows, known. by rewrite orb_true_iff, !bool_decide_eq_true. Qed.
Lemma unknown_decide {SL : Sled} g h : knows g h = false → ¬ known g h.
Proof. rewrite <- knows_spec. by intros ->. Qed.

(** ** A node on the losing branch of the small chain catches up *)
Section steady_sync.
#[local] Existing Instances toy_steady toy_steady_laws toy_steady_reliable.
Definition toy_world_blocks : list Block := [genesis_block; toy_b1; toy_s1; toy_s2].
Definition steady_node2 : Node :=
  match apply_block tiny_params toy_clock steady_node1 toy_b1 None with Done (n, _) => n | _ => steady_node1 end.

Lemma toy_blocks_inj x y : x ∈ toy_world_blocks → y ∈ toy_world_blocks → block_hash x = block_hash y → x = y.
Proof.
  assert (NoDup (block_hash <$> toy_world_blocks)) as Hnd.
  { refine (proj1 (bool_decide_eq_true _) _). vm_compute. reflexivity. }
  intros [i Hi]%list_elem_of_lookup [j Hj]%list_elem_of_lookup E.
  assert (i = j) as ->; [|congruence].
  eapply (NoDup_lookup _ _ _ (block_hash x) Hnd); rewrite list_lookup_fmap; [by rewrite Hi|by rewrite Hj, E].
Qed.

Lemma steady_node1_synced : synced_ok tiny_params toy_N (λ b, b ∈ toy_world_blocks) steady_node1.
Proof.
  pose proof steady_node1_ok as Hn.
  assert (blocks (n_chain steady_node1) = [genesis_block]) as Hb.
  { refine (proj1 (bool_decide_eq_true _) _). vm_compute. reflexivity. }
  assert (size (side_blocks (n_chain steady_node1)) = 0%nat) as Hs.
  { apply Nat.eqb_eq. vm_compute. reflexivity. }
  assert (size (orphan_pool (n_chain steady_node1)) = 0%nat) as Ho.
  { apply Nat.eqb_eq. vm_compute. reflexivity. }
  assert (elements (seen_blocks (n_chain steady_node1)) = [GENESIS_HASH]) as Hse.
  { refine (proj1 (bool_decide_eq_true _) _). vm_compute. reflexivity. }
  split.
  - exact Hn.
  - apply (rules_ok_genesis tiny_params toy_N _ genesis_block (no_chain _ _ _ Hn) Hb Hs). vm_compute. reflexivity.
  - exact steady_node1_heaviest.
  - intros h Hh%elem_of_elements. rewrite Hse in Hh. apply list_elem_of_singleton in Hh as ->.
    apply (holds_known toy_N GENESIS_HASH _ genesis_block (no_chain _ _ _ Hn)). left. rewrite Hb. left.
  - intros x [Hx|Hx].
    + rewrite Hb in Hx. apply list_elem_of_singleton in Hx as ->. left.
    + apply map_size_empty_iff in Hs. by rewrite Hs in Hx.
  - intros k e (es & He & _). apply map_size_empty_iff in Ho. by rewrite Ho in He.
Qed.

Lemma steady_node2_run : ∃ r, apply_block tiny_params toy_clock steady_node1 toy_b1 None = Done (steady_node2, r).
Proof.
  unfold steady_node2.
  destruct (apply_block_ok tiny_params toy_clock toy_N eq_refl ltac:(discriminate) steady_node1 toy_b1 None
    steady_node1_ok toy_b1_admissible) as (n' & r & -> & _). by exists r.
Qed.
Lemma steady_node2_synced : synced_ok tiny_params toy_N (λ b, b ∈ toy_world_blocks) steady_node2 ∧
  ∀ x, holds (n_chain steady_node1) x → holds (n_chain steady_node2) x.
Proof.
  destruct steady_node2_run as [r E].
  refine (apply_block_synced tiny_params toy_clock toy_N eq_refl ltac:(discriminate) _ _ _ _ _ _
    steady_node1_synced toy_b1_admissible _ E). right. left.
Qed.

(** The other branch follows the rules: every part is decided by evaluation,
    except that the block is one of those above ([tac]). *)
Ltac literal_next tac :=
  split; [split|..];
  [vm_compute; discriminate|vm_compute; reflexivity|eexists _, _; split; [reflexivity|by vm_compute]
  |intros p [= <-]; vm_compute; reflexivity|split; [vm_compute; discriminate|vm_compute; reflexivity]
  |vm_compute; reflexivity|refine (proj1 (bool_decide_eq_true _) _); vm_compute; reflexivity
  |intros p [= <-]; vm_compute; reflexivity|vm_compute; discriminate|apply toy_admissible; tac|tac
  |intros k; vm_compute; discriminate|eexists; vm_compute; reflexivity].
Lemma toy_branch_ok :
  branch_ok tiny_params toy_clock toy_N (λ b, b ∈ toy_world_blocks) [genesis_block] [toy_s1; toy_s2].
Proof.
  intros i b Hi. destruct i as [|[|i]]; [..|done]; injection Hi as <-.
  - literal_next ltac:(do 2 right; left).
  - literal_next ltac:(do 3 right; left).
Qed.
Lemma genesis_ancestry n : node_ok tiny_params toy_N n → holds (n_chain n) genesis_block →
  ancestry GENESIS_HASH (n_chain n) [genesis_block] genesis_block.
Proof.
  intros Hn Hh. split; [|split; [by apply Forall_singleton|done]].
  split.
  - intros [|i] b Hi; [|done]. injection Hi as <-. reflexivity.
  - intros i b b' _ Hi. done.
  - intros b [= <-]. reflexivity.
  - apply NoDup_singleton.
Qed.

Definition toy_manager_listen : SocketAddr := mkSocket (V4 [0; 0; 0; 0]) 7000 0.
Definition toy_conn : P2PConnectionManager := new_conn_manager toy_manager_listen 1 2 3.
Definition toy_remote_hs : HandshakeMessage := new_handshake 2 (cm_local_node_nonce toy_conn + 1).
Definition toy_remote : ChainSummary := mkSummary 2 (Some (block_hash toy_s2)) 0.
Definition steady_world : World :=
  mkWorld (mkShared steady_node2 new_peer_manager new_pool new_recovery new_registry None None None 0)
    (honest_peer toy_remote_hs false toy_remote [toy_s1; toy_s2]) [] [] [].

Lemma sync_adopts_heavier_branch_witness :
  ∃ w' imported,
    live_sync_from_peer tiny_params toy_clock (λ _, 0) toy_conn true true "10.0.0.2:7000" steady_world = Done (w', Ok imported) ∧
    node_ok tiny_params toy_N (sh_node (w_shared w')) ∧
    (∃ p', ancestry GENESIS_HASH (sh_chain (w_shared w')) [genesis_block; toy_s1; toy_s2] p') ∧
    total_difficulty [genesis_block; toy_s1; toy_s2] ≤ total_difficulty (blocks (sh_chain (w_shared w'))).
Proof.
  destruct steady_node2_synced as [Hs Hm].
  assert (sh_chain (w_shared steady_world) = n_chain steady_node2) as Hch by reflexivity.
  refine (sync_adopts_heavier_branch tiny_params toy_clock toy_N eq_refl ltac:(discriminate)
    (λ b, b ∈ toy_world_blocks) toy_blocks_inj (λ _, 0) toy_conn true steady_world "10.0.0.2:7000"
    toy_remote_hs false toy_remote [genesis_block] genesis_block [toy_s1; toy_s2] [] Hs _ toy_branch_ok _ _ _ _ _ _ _ _ _).
  - apply (genesis_ancestry _ (sk_node _ _ _ _ Hs)). apply Hm. left.
    refine (proj2 (list_elem_of_In _ _) _).
    assert (bool_decide (blocks (n_chain steady_node1) = [genesis_block]) = true) as E by (vm_compute; reflexivity).
    apply bool_decide_eq_true in E. rewrite E. by left.
  - rewrite Hch. repeat apply Forall_cons_2; [..|apply Forall_nil_2];
      apply unknown_decide; vm_compute; reflexivity.
  - discriminate.
  - eexists. vm_compute. reflexivity.
  - vm_compute. reflexivity.
  - reflexivity.
  - left. vm_compute. reflexivity.
  - reflexivity.
  - reflexivity.
  - reflexivity.
Defined.
End steady_sync.
