(* ===== verification/Convergence.v ===== *)
(** * Two nodes talk to each other

    The catch-up of one node ([Sync]) run against the inbound handler of
    another ([Connection]): each hears exactly what the other says.  The
    conversation ends, and the caller's chain is then at least as heavy as the
    other's, whatever the two chains were. *)
From S2P Require Import Prelude Crypto Constants Transaction Block StateRoot Difficulty HistoricalVpow VisionX Sled ChainState Storage Snapshots Reward Reorg Orphan Zeros Consistency Genesis Accept Acceptance Consensus Rules Heaviest Manager Admission Pool Net Protocol Peers Sessions Recovery World Connection Sync CatchUp.

Section convergence.
Context {C : Crypto} {CL : CryptoLaws C} {TC : TxCodec} {SL : Sled} {SLL : SledLaws SL}
  {SR : SledReliable SL} {SC : StoreCodec}.
Context (params : VisionXParams) (clock : nat → Z) (N : string → Z).
Abbreviation root := GENESIS_HASH.
Abbreviation chain_ok := (chain_ok N root).
Abbreviation ancestry := (ancestry root).
Context (HN : N root = 0) (Hep : epoch_blocks params ≠ 0).
Context (U : Block → Prop) (HU : ∀ x y, U x → U y → block_hash x = block_hash y → x = y).
Abbreviation synced_ok := (synced_ok params N U).
Abbreviation branch_ok := (branch_ok params clock N U).

(** ** The point where two chains part *)
Section branch_point.
Context (n1 n2 : Node) (H1 : synced_ok n1) (H2 : synced_ok n2).
Abbreviation g1 := (n_chain n1).
Abbreviation g2 := (n_chain n2).

Lemma shared_block b : holds g2 b → known g1 (block_hash b) → holds g1 b.
Proof.
  intros Hb Hk. destruct (known_holds N _ _ _ (no_chain _ _ _ (sk_node _ _ _ _ H1)) Hk) as (x & Hx & E).
  by rewrite (HU b x (sk_held _ _ _ _ H2 b Hb) (sk_held _ _ _ _ H1 x Hx) (eq_sym E)).
Qed.

(** The nodes have the genesis block in common. *)
Lemma root_known g : chain_ok g → blocks g ≠ [] → known g root.
Proof.
  intros Hg Hne. destruct (blocks g) as [|g0 l] eqn:E; [done|].
  assert (blocks g !! 0%nat = Some g0) as H0 by (by rewrite E).
  pose proof (cn_number _ _ (co_canon _ _ _ Hg) _ _ H0) as Hn.
  pose proof (Forall_lookup_1 _ _ _ _ (co_blocks _ _ _ Hg) H0) as Hok.
  rewrite <- (bo_root _ _ _ Hok) by done. eapply holds_known; [exact Hg|]. left. by eapply list_elem_of_lookup_2.
Qed.
Lemma first_known b : ancestry g2 [b] b → known g1 (block_hash b).
Proof.
  intros (Hc & Hf & _). pose proof (cn_number _ _ Hc 0%nat b eq_refl) as Hn. rewrite Forall_singleton in Hf.
  rewrite (bo_root _ _ _ (holds_ok N _ _ _ (no_chain _ _ _ (sk_node _ _ _ _ H2)) Hf)) by done.
  apply root_known; [apply (sk_node _ _ _ _ H1)|apply (sk_rules _ _ _ _ H1)].
Qed.

(** What the first node knows of the second it knows with its ancestors. *)
Lemma shared_ancestry bs : ∀ b, ancestry g2 bs b → holds g1 b → ancestry g1 bs b.
Proof.
  pose proof (no_chain _ _ _ (sk_node _ _ _ _ H1)) as Hg1. pose proof (no_chain _ _ _ (sk_node _ _ _ _ H2)) as Hg2.
  induction bs as [|x bs IH] using rev_ind; intros b Ha Hb; [by destruct Ha as (_ & _ & ?)|].
  pose proof Ha as (Hc & Hf & Hl). rewrite last_snoc in Hl. injection Hl as ->.
  split_and!; [exact Hc| |apply last_snoc]. apply Forall_app_2; [|by apply Forall_singleton].
  destruct bs as [|q l _] using rev_ind; [done|].
  destruct (ancestry_prefix N _ _ _ _ Hg2 Ha) as [Hq Hpar].
  assert (b_number b ≠ 0) as Hn.
  { rewrite (cn_number _ _ Hc (length (l ++ [q])) b) by (by apply list_lookup_middle). rewrite length_app. simpl. lia. }
  apply (IH q Hq). apply shared_block.
  - apply Forall_app in Hf as [Hf _]. apply Forall_app in Hf as [_ Hf]. by rewrite Forall_singleton in Hf.
  - rewrite <- Hpar. by apply (parent_known N _ _ _ Hg1).
Qed.

Lemma branch_point bs : ∀ t, ancestry g2 bs t →
  ∃ pre news p, bs = pre ++ news ∧ ancestry g1 pre p ∧ Forall (λ b, ¬ known g1 (block_hash b)) news.
Proof.
  pose proof (no_chain _ _ _ (sk_node _ _ _ _ H2)) as Hg2.
  induction bs as [|x bs IH] using rev_ind; intros b Ha; [by destruct Ha as (_ & _ & ?)|].
  pose proof Ha as (_ & Hf & Hl). rewrite last_snoc in Hl. injection Hl as ->.
  apply Forall_app in Hf as [_ Hb]. rewrite Forall_singleton in Hb.
  destruct (knows g1 (block_hash b)) eqn:Hk.
  - exists (bs ++ [b]), [], b. split; [by rewrite app_nil_r|]. split; [|done]. apply shared_ancestry; [done|].
    apply shared_block; [done|]. by apply knows_spec.
  - apply unknown_decide in Hk. destruct bs as [|q l _] using rev_ind; [by destruct Hk; apply first_known|].
    destruct (ancestry_prefix N _ _ _ _ Hg2 Ha) as [Hq _].
    destruct (IH q Hq) as (pre & news & p & -> & Hp & Hu). exists pre, (news ++ [b]), p.
    split; [by rewrite (assoc_L (++))|]. split; [done|]. apply Forall_app_2; [done|by apply Forall_singleton].
Qed.
End branch_point.
(** ** What the handler serves *)
Section serving.
Context (instant : nat → Z) (m : P2PConnectionManager) (addr : SocketAddr).
Abbreviation handle_turns := (handle_turns instant m addr).

(** A task that hears [l] and, then, the end of the stream. *)
Definition heard (s : Shared) (l : list P2PMessage) : World := mkWorld s (Received <$> l) [] [] [].

(** The clean-up leaves the chain and what was said alone. *)
Lemma finish_session_run a g w : w_others w = [] →
  ∃ w', finish_session a g w = Done (w', Ok ()) ∧ sh_node (w_shared w') = sh_node (w_shared w) ∧ w_outbox w' = w_outbox w.
Proof.
  intros Ho. unfold finish_session, mbind, act_bind, locked. rewrite Ho.
  destruct (unregister _ _ _) as [r [latest|]]; eexists; (split; [reflexivity|done]).
Qed.

(** Turns on a stream that has ended. *)
Lemma handle_ended n c w : w_others w = [] → w_inbox w = [] →
  ∃ w' r, handle_turns c (replicate n FromPeer) w = Done (w', Ok r) ∧
    sh_node (w_shared w') = sh_node (w_shared w) ∧ w_outbox w' = w_outbox w.
Proof.
  intros Ho Hi. destruct n as [|n]; [by eexists _, _|]. destruct w as [s ib ob sd os]. cbn in Ho, Hi. subst.
  cbn [replicate Connection.handle_turns]. act_step. cbn [close mret act_ret].
  destruct (cn_active_session c) as [[a g]|]; [|by eexists _, _].
  destruct (finish_session_run a g (mkWorld s [] ob sd [])) as (w' & E & Hn & Hb); [done|].
  rewrite (act_bind_Done _ _ _ _ _ E). by eexists _, _.
Qed.

(** Requests for blocks the node has are answered with the blocks. *)
Lemma handle_requests news : ∀ n c s ob, cn_handshake_done c = true → (length news ≤ n)%nat →
  Forall (λ b, block_by_hash (sh_chain s) (block_hash b) = Some b) news →
  ∃ w' r, handle_turns c (replicate n FromPeer) (mkWorld s (Received <$> (GetBlock ∘ block_hash <$> news)) ob [] []) =
      Done (w', Ok r) ∧
    sh_node (w_shared w') = sh_node s ∧ w_outbox w' = ob ++ (MBlock <$> news).
Proof.
  induction news as [|b news IH]; intros n c s ob Hc Hn Hf.
  { destruct (handle_ended n c (mkWorld s [] ob [] [])) as (w' & r & E & H1 & H2); [done..|].
    exists w', r. by rewrite app_nil_r. }
  destruct n as [|n]; simpl in Hn; [lia|]. apply Forall_cons in Hf as [Hb Hf].
  cbn [replicate Connection.handle_turns fmap list_fmap].
  assert (take_turn instant m addr c FromPeer
    (mkWorld s (Received (GetBlock (block_hash b)) :: (Received <$> (GetBlock ∘ block_hash <$> news))) ob [] []) =
    Done (mkWorld s (Received <$> (GetBlock ∘ block_hash <$> news)) (ob ++ [MBlock b]) [] [], Ok (c, true))) as E.
  { unfold take_turn. act_step. cbn [next_incoming]. unfold on_message. rewrite Hc. cbn [negb andb].
    act_step. rewrite Hb. done. }
  rewrite (act_bind_Done _ _ _ _ _ E).
  destruct (IH n c s (ob ++ [MBlock b]) Hc ltac:(lia) Hf) as (w' & r & E' & H1 & H2).
  exists w', r. split; [exact E'|]. split; [done|]. by rewrite H2, <- app_assoc.
Qed.

(** The opening of a session with a peer whose handshake is accepted under the
    address [adv] it advertises. *)
Context (s : Shared) (hs : HandshakeMessage) (adv : option string).
Context (Hhs : validate_handshake hs (cm_local_node_nonce m) = Accepted).
Context (Hadv : validated_advertised_addr (hs_advertised_ip hs) (hs_advertised_port hs) (cm_allow_private m) = Ok adv).
Definition asks : bool := negb (bool_decide (default (show_socket addr) adv = show_socket addr)).
Definition our_hs : HandshakeMessage := local_handshake m (sh_peers s) (current_height (sh_chain s)).
Definition our_reply : list P2PMessage := MHandshake our_hs :: (if asks then [GetHeight] else []).

Abbreviation peer_key := (default (show_socket addr) adv).

Lemma first_turn rest : ∃ s' g, sh_node s' = sh_node s ∧
  let c := mkConn true (Some (peer_key, g)) None in
  take_turn instant m addr new_conn FromPeer (mkWorld s (Received (MHandshake hs) :: rest) [] [] []) =
  (if asks then _ ← attempt (request_inbound_peer_summary instant peer_key g); continue_with c
   else continue_with c) (mkWorld s' rest [MHandshake our_hs] [] []).
Proof.
  unfold take_turn. act_step. cbn [next_incoming]. unfold on_message.
  cbn [new_conn cn_handshake_done is_pre_handshake negb andb].
  unfold on_handshake. cbn [new_conn cn_handshake_done]. do 2 act_step. rewrite Hhs.
  unfold mbind at 1, act_bind at 1, locked at 1. cbn [w_others w_shared].
  unfold resolve_inbound_peer_key at 1. rewrite Hadv.
  do 5 act_step.
  eexists _, _. split; [|unfold asks; case_bool_decide; reflexivity].
  by destruct (cm_has_discovery m).
Qed.
(** The summary asked for, with the peer's own request in between. *)
Lemma request_answered key g s' x rest ob : ∃ s'', sh_node s'' = sh_node s' ∧
  request_inbound_peer_summary instant key g (mkWorld s' (Received GetHeight :: Received (Height x) :: rest) ob [] []) =
  Done (mkWorld s'' rest ((ob ++ [GetHeight]) ++ [Height (from_chain (sh_chain s'))]) [] [], Ok ()).
Proof. eexists (tick (set_peers _ (tick (set_peers _ s')))). split; [|reflexivity]. reflexivity. Qed.

Lemma height_answered c s' rest ob : cn_handshake_done c = true →
  take_turn instant m addr c FromPeer (mkWorld s' (Received GetHeight :: rest) ob [] []) =
  Done (mkWorld s' rest (ob ++ [Height (from_chain (sh_chain s'))]) [] [], Ok (c, true)).
Proof.
  intros Hc. unfold take_turn. act_step. cbn [next_incoming]. unfold on_message. rewrite Hc. cbn [negb andb].
  by act_step.
Qed.

(** The handshake alone is answered, and the summary asked for if the peer goes
    by another address; after the peer's own request for the summary both have
    what they need. *)
Lemma handshake_answered : ∃ w' r,
  handle_turns new_conn [FromPeer] (heard s [MHandshake hs]) = Done (w', Ok r) ∧ w_outbox w' = our_reply.
Proof.
  cbn [Connection.handle_turns]. destruct (first_turn []) as (s' & g & _ & E).
  unfold heard, our_reply. cbn [fmap list_fmap]. unfold mbind, act_bind. rewrite E.
  destruct asks; by eexists _, _.
Qed.
Lemma opening_answered x news n : (length news ≤ n)%nat →
  Forall (λ b, block_by_hash (sh_chain s) (block_hash b) = Some b) news →
  let heights := GetHeight :: if asks then [Height x] else [] in
  ∃ w' r, handle_turns new_conn (replicate (2 + n) FromPeer)
      (heard s (MHandshake hs :: heights ++ (GetBlock ∘ block_hash <$> news))) = Done (w', Ok r) ∧
    sh_node (w_shared w') = sh_node s ∧
    w_outbox w' = greeting our_hs asks (from_chain (sh_chain s)) ++ (MBlock <$> news).
Proof.
  intros Hn Hf heights. unfold heard. cbn [replicate plus Connection.handle_turns fmap list_fmap].
  match goal with |- context [Received (MHandshake hs) :: ?l] => destruct (first_turn l) as (s' & g & Hs & E) end.
  cbv zeta in E. set (c := mkConn true _ _) in E. unfold heights, greeting in *. unfold mbind at 1, act_bind at 1. rewrite E.
  assert (Forall (λ b, block_by_hash (sh_chain s') (block_hash b) = Some b) news) as Hf'.
  { unfold sh_chain in *. by rewrite Hs. }
  replace (sh_chain s) with (sh_chain s') by (unfold sh_chain; by rewrite Hs). destruct asks; cbn [app fmap list_fmap].
  - destruct (request_answered peer_key g s' x (Received <$> (GetBlock ∘ block_hash <$> news)) [MHandshake our_hs])
      as (s2 & Hs2 & E2).
    unfold mbind at 1, act_bind at 1, attempt at 1. rewrite E2. cbn [continue_with mret act_ret].
    replace (sh_node s) with (sh_node s2) by congruence.
    destruct (handle_requests news (S n) c s2 (([MHandshake our_hs] ++ [GetHeight]) ++ [Height (from_chain (sh_chain s'))])
      eq_refl ltac:(lia)) as (w' & r & E3 & H1 & H2); [unfold sh_chain in *; by rewrite Hs2|eauto].
  - cbn [continue_with mret act_ret]. rewrite (act_bind_Done _ _ _ _ _ (height_answered c s' _ _ eq_refl)). rewrite <- Hs.
    destruct (handle_requests news n c s' ([MHandshake our_hs] ++ [Height (from_chain (sh_chain s'))]) eq_refl Hn Hf')
      as (w' & r & E3 & H1 & H2). eauto.
Qed.
End serving.
(** ** The conversation *)
Section dialogue.
Context (instantA instantB : nat → Z) (mA mB : P2PConnectionManager) (use_mempool : bool).
Context (addrA : SocketAddr) (addrB : string) (sA sB : Shared).
Abbreviation gA := (sh_chain sA).
Abbreviation gB := (sh_chain sB).
Abbreviation caller_run l :=
  (live_sync_from_peer params clock instantA mA use_mempool true addrB (heard sA l)).
Abbreviation callee_run l :=
  (handle_inbound instantB mB addrA (replicate (length l) FromPeer) (heard sB l)).

(** What either has said, having heard so much. *)
Definition said {A} (r : run (World * A)) : list P2PMessage :=
  match r with Done (w, _) => w_outbox w | _ => [] end.
Definition caller (l : list P2PMessage) : list P2PMessage := said (caller_run l).
Definition callee (l : list P2PMessage) : list P2PMessage := said (callee_run l).
(** After so many rounds: all the caller has said, and all the callee has. *)
Fixpoint dialogue (rounds : nat) : list P2PMessage * list P2PMessage :=
  match rounds with
  | O => ([], [])
  | S rounds => let a := caller (dialogue rounds).2 in (a, callee a)
  end.

Context (HsA : synced_ok (sh_node sA)) (HsB : synced_ok (sh_node sB)).
Context (Htime : ∀ b k, b ∈ blocks gB → b_timestamp b ≤ wadd64 (clock k) MAX_FUTURE_TIMESTAMP_SECS).
Context (Haddr : is_Some (parse_socket addrB)) (Hnonce : cm_local_node_nonce mA ≠ cm_local_node_nonce mB).
Context (adv : option string).
Context (Hadv : validated_advertised_addr (cm_advertised_ip mA) (cm_advertised_port mA) (cm_allow_private mB) = Ok adv).
Abbreviation hsA := (our_hs mA sA).
Abbreviation hsB := (our_hs mB sB).
Abbreviation asks := (asks addrA adv).
Abbreviation remote := (from_chain gB).

Lemma local_handshake_accepted m1 m2 s : cm_local_node_nonce m1 ≠ cm_local_node_nonce m2 →
  validate_handshake (our_hs m1 s) (cm_local_node_nonce m2) = Accepted.
Proof. intros H. apply validate_handshake_Accepted. by apply new_handshake_compatible. Qed.

(** The caller, by what it has heard. *)
Lemma caller_start : caller [] = [MHandshake hsA].
Proof. unfold caller, live_sync_from_peer. destruct Haddr as [? E]. by rewrite bool_decide_false by (by rewrite E). Qed.
Lemma caller_greets : caller (our_reply mB addrA sB adv) = our_opening mA sA asks.
Proof.
  unfold caller, live_sync_from_peer. destruct Haddr as [? E]. rewrite bool_decide_false by (by rewrite E).
  cbn [negb]. unfold heard, our_reply. cbn [fmap list_fmap]. do 4 act_step.
  rewrite (local_handshake_accepted mB mA) by done. destruct asks; reflexivity.
Qed.

(** The part of the callee's chain the caller lacks. *)
Lemma parting : ∃ pre news p, blocks gB = pre ++ news ∧ ancestry gA pre p ∧ branch_ok pre news ∧
  Forall (λ b, ¬ known gA (block_hash b)) news ∧ last (blocks gB) = last (pre ++ news).
Proof.
  pose proof (no_chain _ _ _ (sk_node _ _ _ _ HsB)) as Hg. destruct (sk_rules _ _ _ _ HsB) as (Hne & Hrules).
  destruct (tip_ancestry N _ Hg Hne) as (t & Hanc & _).
  destruct (branch_point _ _ HsA HsB _ _ Hanc) as (pre & news & p & E & Hp & Hu). change (blocks gB = pre ++ news) in E.
  exists pre, news, p. split_and!; [exact E|exact Hp| |exact Hu|by rewrite <- E].
  eapply (chain_branch params clock N U gB); [exact Hg|apply HsB|exact E| |..].
  - intros ->. by destruct Hp as (_ & _ & ?).
  - intros b Hb. apply (sk_held _ _ _ _ HsB). left. change (b ∈ blocks gB). rewrite E, elem_of_app. by right.
  - intros b k Hb. apply Htime. rewrite E, elem_of_app. by right.
Qed.

(** The callee's blocks are found under their hashes. *)
Lemma callee_has news : (∀ b, b ∈ news → b ∈ blocks gB) →
  Forall (λ b, block_by_hash gB (block_hash b) = Some b) news.
Proof.
  intros H. apply Forall_forall. intros b Hb%H. pose proof (no_chain _ _ _ (sk_node _ _ _ _ HsB)) as Hg.
  assert (holds gB b) as Hh by (by left).
  destruct (proj2 (block_by_hash_known N gB (block_hash b) Hg) (holds_known N _ _ _ Hg Hh)) as [x Hx].
  rewrite Hx. destruct (resolve_block_holds N gB _ x Hg Hx) as [Hx' E].
  by rewrite (holds_inj N _ _ x b Hg Hx' Hh E).
Qed.
Lemma callee_serves news : (∀ b, b ∈ news → b ∈ blocks gB) →
  let a := our_opening mA sA asks ++ (GetBlock ∘ block_hash <$> news) in
  ∃ w r, callee_run a = Done (w, Ok r) ∧ sh_node (w_shared w) = sh_node sB ∧
    w_outbox w = greeting hsB asks remote ++ (MBlock <$> news).
Proof.
  intros Hin a.
  destruct (opening_answered instantB mB addrA sB hsA adv (local_handshake_accepted _ _ _ Hnonce) Hadv (from_chain gA)
    news (length a - 2)) as (w & r & E & H); [|by apply callee_has|].
  - unfold a. rewrite !length_app, length_fmap. simpl. lia.
  - exists w, r. split; [|exact H]. unfold handle_inbound.
    replace (length a) with (2 + (length a - 2))%nat by (unfold a, our_opening; simpl; lia).
    rewrite <- E. unfold a, our_opening. by destruct asks.
Qed.
(** The caller, after the opening, while the blocks come in. *)
Section fetching.
Context (pre news : list Block) (p : Block).
Context (Eb : blocks gB = pre ++ news) (Hp : ancestry gA pre p) (Hbr : branch_ok pre news).
Context (Hnew : Forall (λ b, ¬ known gA (block_hash b)) news).
Abbreviation behind := (ahead (from_chain gA) remote).

Lemma remote_tip : sm_tip_hash remote = block_hash <$> last (pre ++ news).
Proof.
  destruct (sk_rules _ _ _ _ HsB) as (Hne & _). unfold from_chain. cbn [sm_tip_hash].
  rewrite bool_decide_false by exact Hne. unfold tip_hash. rewrite Eb.
  destruct (last (pre ++ news)) as [t|] eqn:E; [done|]. apply last_None in E. by rewrite <- Eb in E.
Qed.
(** The work a node reports is that of its chain. *)
Lemma summary_work s : synced_ok (sh_node s) →
  sm_cumulative_work (from_chain (sh_chain s)) = total_difficulty (blocks (sh_chain s)).
Proof.
  intros Hs. destruct (sk_rules _ _ _ _ Hs) as (Hne & _). destruct (hv_genesis _ (sk_heavy _ _ _ _ Hs)) as (g0 & H0 & Hw).
  etrans; [|exact (tip_work_total N _ _ (no_chain _ _ _ (sk_node _ _ _ _ Hs)) H0 Hw)].
  unfold from_chain. by rewrite bool_decide_false by exact Hne.
Qed.
Lemma caller_fetches j : behind = true → (j < length news)%nat →
  caller (greeting hsB asks remote ++ take j (served news)) = our_opening mA sA asks ++ take (S j) (requests news).
Proof.
  intros Hah Hj. pose proof (no_chain _ _ _ (sk_node _ _ _ _ HsA)) as Hg. pose proof Hp as (_ & Hf & Hl).
  assert (holds gA p) as Hhp by (eapply Forall_forall; [exact Hf|by apply last_Some_elem_of]).
  unfold caller, heard. rewrite fmap_app.
  destruct (session_opens params clock instantA mA use_mempool sA addrB hsB asks remote
    (Received <$> take j (served news)) [] Haddr (local_handshake_accepted _ _ _ (not_eq_sym Hnonce))) as (s' & Hn & ->).
  unfold sync_chain. rewrite Hah, remote_tip, (last_branch _ _ _ Hl). act_step.
  destruct (fetch_partial params clock N U pre p news Hl (bo_number _ _ _ (holds_ok N _ _ _ Hg Hhp)) Hbr news [] ∅
    (S (length (Received <$> take j (served news))))
    (mkWorld s' (Received <$> take j (served news)) ([] ++ our_opening mA sA asks) [] []) j) as (w' & Ef & Hb).
  - split; cbn [w_shared w_others w_sends]; unfold sh_chain; rewrite ?Hn; try done; [apply app_nil_r|].
    by apply (holds_known N _ _ _ Hg).
  - done.
  - done.
  - unfold served. rewrite length_fmap, length_take, length_fmap, length_reverse. lia.
  - unfold mbind, act_bind. rewrite Ef. exact Hb.
Qed.

Definition got : list Block := if behind then news else [].
Lemma got_served b : b ∈ reverse got → b ∈ blocks gB.
Proof. rewrite elem_of_reverse, Eb, elem_of_app. unfold got. destruct behind; [by right|by intros ?%elem_of_nil]. Qed.

(** One round, one block. *)
Lemma dialogue_rounds j : (j ≤ length got)%nat →
  dialogue (2 + j) = (our_opening mA sA asks ++ take j (requests got), greeting hsB asks remote ++ take j (served got)).
Proof.
  intros Hj. assert (∀ i, callee (our_opening mA sA asks ++ take i (requests got)) =
    greeting hsB asks remote ++ take i (served got)) as Hcallee.
  { intros i. unfold callee, requests, served. rewrite <- !fmap_take.
    destruct (callee_serves (take i (reverse got))) as (w & r & -> & _ & Hb); [|exact Hb].
    intros b Hb. apply got_served. by eapply elem_of_take in Hb as (k & ?%list_elem_of_lookup_2 & _). }
  induction j as [|j IH].
  - rewrite !take_0, !app_nil_r. specialize (Hcallee 0%nat). rewrite !take_0, !app_nil_r in Hcallee.
    cbn [plus dialogue snd]. rewrite caller_start.
    assert (callee [MHandshake hsA] = our_reply mB addrA sB adv) as ->.
    { destruct (handshake_answered instantB mB addrA sB hsA adv (local_handshake_accepted _ _ _ Hnonce) Hadv)
        as (w & r & E & Hb). unfold callee, handle_inbound. cbn [length replicate]. by rewrite E. }
    by rewrite caller_greets, Hcallee.
  - change (2 + S j)%nat with (S (2 + j)). cbn [dialogue]. rewrite IH by lia. cbn [snd].
    assert (behind = true ∧ got = news) as [Hah Eg] by (unfold got in *; destruct behind; [done|simpl in Hj; lia]).
    rewrite <- (Hcallee (S j)). by rewrite Eg, caller_fetches by (rewrite <- ?Eg; done || lia).
Qed.

(** With everything heard, the caller's chain is as heavy as the callee's. *)
Lemma caller_concludes : ∃ w k,
  caller_run (greeting hsB asks remote ++ served got) = Done (w, Ok k) ∧
  w_outbox w = our_opening mA sA asks ++ requests got ∧ synced_ok (sh_node (w_shared w)) ∧
  total_difficulty (blocks gB) ≤ total_difficulty (blocks (sh_chain (w_shared w))).
Proof.
  pose proof (no_chain _ _ _ (sk_node _ _ _ _ HsA)) as Hg.
  pose proof (local_handshake_accepted mB mA sB (not_eq_sym Hnonce)) as Hhs.
  unfold heard, got. destruct behind eqn:Hah.
  - destruct (sync_imports params clock N HN Hep U HU instantA mA use_mempool sA addrB hsB asks remote pre p news [] []
      HsA Hp Hbr Hnew Haddr Hhs remote_tip Hah) as (w & k & E & Hs & Hb & p' & Hp').
    rewrite app_nil_r in E. exists w, k. split_and!; [exact E|exact Hb|exact Hs|].
    rewrite Eb. exact (hv_max _ (sk_heavy _ _ _ _ Hs) _ _ Hp').
  - destruct (session_opens params clock instantA mA use_mempool sA addrB hsB asks remote [] [] Haddr Hhs) as (s' & Hn & E).
    rewrite app_nil_r in *. unfold sync_chain in E. rewrite Hah in E.
    eexists _, 0. split_and!; [exact E|by rewrite app_nil_r|by cbn [w_shared]; rewrite Hn|].
    cbn [w_shared]. unfold sh_chain at 2. rewrite Hn.
    pose proof (hv_max _ (sk_heavy _ _ _ _ HsA)) as Hmax.
    destruct (last news) as [t|] eqn:Ht.
    2: { apply last_None in Ht. rewrite Eb, Ht, app_nil_r. exact (Hmax _ _ Hp). }
    assert (sm_tip_hash remote = Some (block_hash t)) as Etip by (rewrite remote_tip, last_app, Ht; done).
    unfold ahead in Hah. rewrite Etip, bool_decide_false in Hah.
    + cbn [negb] in Hah. rewrite andb_true_r in Hah.
      apply orb_false_iff in Hah as [_ Hah%Z.ltb_ge].
      rewrite (summary_work _ HsA), (summary_work _ HsB) in Hah. exact Hah.
    + intros E'. apply (unknown_tip N _ t Hg); [|done]. rewrite Forall_forall in Hnew.
      apply Hnew. by apply last_Some_elem_of.
Qed.
End fetching.

(** C35: Two nodes that disagree end up agreeing on the heavier chain.  One node
    catches up with another, each hearing just what the other's own code says:
    the handshakes, the question for the height back if the caller goes by
    another address, and the blocks the caller asks for.  Whatever branches the
    two hold (on the same genesis block, with distinct hashes, truthful heights
    and no block of the callee in the caller's future, over databases that
    refuse no write and with no other task in between), after at most two rounds and one per
    block the conversation is over: the caller's session has succeeded, the
    callee has served it and is unchanged, and the caller, a consistent node
    still, has a chain at least as heavy as the callee's. *)
Theorem two_nodes_converge :
  ∃ rounds a b wA wB imported c,
    (rounds ≤ 2 + length (blocks gB))%nat ∧ dialogue rounds = (a, b) ∧ dialogue (S rounds) = (a, b) ∧
    live_sync_from_peer params clock instantA mA use_mempool true addrB (heard sA b) = Done (wA, Ok imported) ∧
    handle_inbound instantB mB addrA (replicate (length a) FromPeer) (heard sB a) = Done (wB, Ok c) ∧
    w_outbox wA = a ∧ w_outbox wB = b ∧
    synced_ok (sh_node (w_shared wA)) ∧ sh_node (w_shared wB) = sh_node sB ∧
    total_difficulty (blocks (sh_chain sB)) ≤ total_difficulty (blocks (sh_chain (w_shared wA))).
Proof.
  destruct parting as (pre & news & p & Eb & Hp & Hbr & Hnew & _).
  pose proof (dialogue_rounds pre news p Eb Hp Hbr Hnew (length (got news)) (le_n _)) as Ed.
  destruct (caller_concludes pre news p Eb Hp Hbr Hnew) as (wA & k & EA & HbA & HsA' & Hle).
  destruct (callee_serves (reverse (got news)) (got_served pre news Eb)) as (wB & c & EB & HsB' & HbB).
  assert (take (length (got news)) (requests (got news)) = requests (got news)) as Er.
  { apply take_ge. unfold requests. by rewrite length_fmap, length_reverse. }
  assert (take (length (got news)) (served (got news)) = served (got news)) as Es.
  { apply take_ge. unfold served. by rewrite length_fmap, length_reverse. }
  rewrite Er, Es in Ed.
  exists (2 + length (got news))%nat, (our_opening mA sA asks ++ requests (got news)),
    (greeting hsB asks remote ++ served (got news)), wA, wB, k, c.
  split_and!; [|exact Ed| |exact EA|exact EB|exact HbA|exact HbB|exact HsA'|exact HsB'|exact Hle].
  - assert (length (got news) ≤ length news)%nat by (unfold got; destruct (ahead _ _); simpl; lia).
    rewrite Eb, length_app. lia.
  - change (dialogue (S (2 + length (got news)))) with
      (let a := caller (dialogue (2 + length (got news))).2 in (a, callee a)).
    rewrite Ed. cbn [snd]. cbv zeta. unfold caller at 1 2. rewrite EA. cbn [said]. rewrite HbA.
    f_equal. unfold callee, requests. rewrite EB. exact HbB.
Qed.
End dialogue.
End convergence.

(** ** The two branches of the small chain, on two nodes *)
Section toy_nodes.
#[local] Existing Instances toy_steady toy_steady_laws toy_steady_reliable.
Definition after (n : Node) (b : Block) : Node :=
  match apply_block tiny_params toy_clock n b None with Done (n, _) => n | _ => n end.
Definition other_node : Node := after (after steady_node1 toy_s1) toy_s2.

Lemma after_synced n b : synced_ok tiny_params toy_N (λ b, b ∈ toy_world_blocks) n → b ∈ toy_world_blocks →
  synced_ok tiny_params toy_N (λ b, b ∈ toy_world_blocks) (after n b).
Proof.
  intros Hn Hb. pose proof (toy_admissible b Hb) as Ha.
  destruct (apply_block_ok tiny_params toy_clock toy_N eq_refl ltac:(discriminate) n b None (sk_node _ _ _ _ Hn) Ha)
    as (n' & r & E & _).
  unfold after. rewrite E.
  by apply (apply_block_synced tiny_params toy_clock toy_N eq_refl ltac:(discriminate) _ n b None n' r Hn Ha Hb).
Qed.
Lemma other_node_synced : synced_ok tiny_params toy_N (λ b, b ∈ toy_world_blocks) other_node.
Proof. apply after_synced; [apply after_synced; [exact steady_node1_synced|]|]; apply list_elem_of_In; simpl; tauto. Qed.
Lemma other_node_blocks : blocks (n_chain other_node) = [genesis_block; toy_s1; toy_s2].
Proof. refine (proj1 (bool_decide_eq_true _) _). vm_compute. reflexivity. Qed.

Definition toy_shared (n : Node) : Shared :=
  mkShared n new_peer_manager new_pool new_recovery new_registry None None None 0.
(** The caller goes by an address of its own. *)
Definition toy_caller : P2PConnectionManager :=
  mkConnManager toy_manager_listen (cm_local_node_nonce toy_conn + 1) (Some "10.0.0.7") (Some 7072) true false false.
Definition toy_caller_addr : SocketAddr := mkSocket (V4 [10; 0; 0; 9]) 50000 0.

Lemma two_nodes_converge_witness :
  ∃ rounds a b wA wB imported c,
    (rounds ≤ 5)%nat ∧
    dialogue tiny_params toy_clock (λ _, 0) (λ _, 0) toy_caller toy_conn true toy_caller_addr "10.0.0.2:7000"
      (toy_shared steady_node2) (toy_shared other_node) rounds = (a, b) ∧
    live_sync_from_peer tiny_params toy_clock (λ _, 0) toy_caller true true "10.0.0.2:7000"
      (heard (toy_shared steady_node2) b) = Done (wA, Ok imported) ∧
    handle_inbound (λ _, 0) toy_conn toy_caller_addr (replicate (length a) FromPeer)
      (heard (toy_shared other_node) a) = Done (wB, Ok c) ∧
    total_difficulty [genesis_block; toy_s1; toy_s2] ≤ total_difficulty (blocks (sh_chain (w_shared wA))).
Proof.
  destruct (two_nodes_converge tiny_params toy_clock toy_N eq_refl ltac:(discriminate)
    (λ b, b ∈ toy_world_blocks) toy_blocks_inj (λ _, 0) (λ _, 0) toy_caller toy_conn true toy_caller_addr "10.0.0.2:7000"
    (toy_shared steady_node2) (toy_shared other_node) (proj1 steady_node2_synced) other_node_synced) 
    with (adv := Some "10.0.0.7:7072") as (rounds & a & b & wA & wB & k & c & H1 & H2 & _ & H4 & H5 & _ & _ & _ & _ & H10).
  - unfold sh_chain, toy_shared. cbn [sh_node]. rewrite other_node_blocks.
    intros b k Hb. repeat (apply elem_of_cons in Hb as [->|Hb]; [vm_compute; discriminate|]). by apply elem_of_nil in Hb.
  - eexists. vm_compute. reflexivity.
  - refine (bool_decide_eq_false_1 _ _). vm_compute. reflexivity.
  - vm_compute. reflexivity.
  - unfold sh_chain in H1, H10 at 1. cbn [toy_shared sh_node] in H1, H10. rewrite other_node_blocks in H1, H10.
    exists rounds, a, b, wA, wB, k, c. done.
Defined.
End toy_nodes.

