(* ===== verification/Bootstrap.v ===== *)
(** * Start-up ([src/node/bootstrap.rs])

    From an open database to the chain state the services start with: the
    genesis checks, the newest usable snapshot with the replay of the stored
    tail above it, or the rebuild of the whole chain from genesis.
    The directory checks before it are in [DataDir], the way here from [main]
    in [Launch]; the process-wide caches are empty at this point. *)
From S2P Require Import Prelude Crypto Constants Transaction Block StateRoot VisionX Sled ChainState Storage Snapshots Genesis Accept.

(** The reasons start-up gives up; [BootStorage] covers the failure to open
    the database. *)
Inductive BootError :=
| BootStorage (e : StorageError)
| BootGenesis (e : GenesisError)
| MissingTipHeight
| BadTipHeight
| MissingHeightIndex (h : Z)
| MissingCanonicalBlock (hash : string) (h : Z)
| HeightMismatch (h found : Z)
| ReplayRejected (h : Z) (r : AcceptResult).

Section bootstrap.
Context `{C : Crypto} `{TC : TxCodec} `{SL : Sled} `{SC : StoreCodec}.
Context (params : VisionXParams) (clock : nat → Z).

Definition boot_op {A} (m : stm ChainState StorageError A) : stm ChainState BootError A :=
  λ g, let '(g', r) := m g in (g', map_err BootStorage r).

Definition bootstrap_chain : stm ChainState BootError () :=
  _ ← stm_lift (map_err BootGenesis validate_genesis_hash);
  g ← stm_get;
  stored ← stm_lift (map_err BootStorage (load_meta g "genesis_hash"));
  match stored with
  | None =>
      let genesis := genesis_block in
      _ ← boot_op (store_block genesis);
      _ ← boot_op (store_height_index 0 (block_hash genesis));
      _ ← boot_op (store_meta "genesis_hash" (block_hash genesis));
      _ ← stm_modify (λ g, set_blocks (blocks g ++ [genesis]) g);
      stm_modify (λ g, set_canon_index (<[block_hash genesis := 0]> (canon_index g)) g)
  | Some stored_hash => stm_lift (map_err BootGenesis (verify_stored_genesis stored_hash))
  end.

(** The persisted tip height, as a number. *)
Definition load_tip_height (g : ChainState) : result BootError Z :=
  m ← map_err BootStorage (load_meta g "tip_height");
  s ← ok_or MissingTipHeight m;
  ok_or BadTipHeight (parse_uint U64_MAX s).

(** The stored canonical block of a height, with its number checked. *)
Definition load_block_at (g : ChainState) (height : Z) : result BootError Block :=
  i ← map_err BootStorage (load_height_index g height);
  hash ← ok_or (MissingHeightIndex height) i;
  b ← map_err BootStorage (load_block g hash);
  block ← ok_or (MissingCanonicalBlock hash height) b;
  if negb (b_number block =? height) then Err (HeightMismatch height (b_number block))
  else Ok block.

(** A stored block must extend the canonical chain at its own height. *)
Definition reapply (height : Z) (block : Block) (n : Node) : run (Node * result BootError ()) :=
  '(n, r) ← apply_block params clock n block None;
  match r with
  | CanonExtension applied_height =>
      if applied_height =? height
      then Done (set_chain (refresh_cached_state_root_from_tip (n_chain n)) n, Ok ())
      else Done (n, Err (ReplayRejected height r))
  | _ => Done (n, Err (ReplayRejected height r))
  end.

(** The loop of [replay_stored_canonical_tail] over [count] heights. *)
Fixpoint replay_heights (count : nat) (height : Z) (n : Node) : run (Node * result BootError ()) :=
  match count with
  | O => Done (n, Ok ())
  | S count =>
      match load_block_at (n_chain n) height with
      | Err e => Done (n, Err e)
      | Ok block =>
          '(n, r) ← reapply height block n;
          match r with
          | Err e => Done (n, Err e)
          | Ok _ => replay_heights count (height + 1) n
          end
      end
  end.

Definition replay_stored_canonical_tail (restored_height : Z) (n : Node)
    : run (Node * result BootError Z) :=
  match load_tip_height (n_chain n) with
  | Err e => Done (n, Err e)
  | Ok tip_height =>
      if tip_height <=? restored_height
      then Done (set_chain (refresh_cached_state_root_from_tip (n_chain n)) n, Ok tip_height)
      else
        '(n, r) ← replay_heights (Z.to_nat (tip_height - restored_height)) (restored_height + 1) n;
        Done (n, _ ← r; Ok tip_height)
  end.

(** The first loop of [rebuild_canonical_state_from_genesis]. *)
Fixpoint load_blocks (count : nat) (height : Z) (g : ChainState) : result BootError (list Block) :=
  match count with
  | O => Ok []
  | S count => b ← load_block_at g height; bs ← load_blocks count (height + 1) g; Ok (b :: bs)
  end.
Definition cleared (g : ChainState) : ChainState :=
  set_cached_state_root None (set_accounts ∅ ∅ (set_seen_blocks ∅ (set_work ∅
    (set_canon_index ∅ (set_blocks [] g))))).
(** Its second loop. *)
Fixpoint reapply_all (bs : list Block) (n : Node) : run (Node * result BootError ()) :=
  match bs with
  | [] => Done (n, Ok ())
  | block :: bs =>
      '(n, r) ← reapply (b_number block) block n;
      match r with
      | Err e => Done (n, Err e)
      | Ok _ => reapply_all bs n
      end
  end.

Definition rebuild_canonical_state_from_genesis (n : Node) : run (Node * result BootError Z) :=
  match (tip_height ← load_tip_height (n_chain n);
         bs ← load_blocks (Z.to_nat (tip_height + 1)) 0 (n_chain n); Ok (tip_height, bs)) with
  | Err e => Done (n, Err e)
  | Ok (tip_height, bs) =>
      '(n, r) ← reapply_all bs (set_chain (cleared (n_chain n)) n);
      Done (n, _ ← r; Ok tip_height)
  end.

(** The node of a process that has just opened its database. *)
Definition fresh_node (g : ChainState) : Node := mkNode g (mkPowCache [] ∅) empty_cache 0.

(** What follows the attempt to restore a snapshot. *)
Definition recover_tail (current_height : Z) (restored : result RestoreError Z) (n : Node)
    : run (Node * result BootError ()) :=
  match restored with
  | Ok restored_height =>
      '(n, r) ← replay_stored_canonical_tail restored_height n; Done (n, _ ← r; Ok ())
  | Err _ =>
      if 0 <? current_height
      then '(n, r) ← rebuild_canonical_state_from_genesis n; Done (n, _ ← r; Ok ())
      else Done (n, Ok ())
  end.

(** The result is the database left behind and the node, if it starts. *)
Definition initialize_chain_state (d : Db) : run (Db * result BootError Node) :=
  match open_with_genesis d with
  | Err e => Done (d, Err (BootStorage e))
  | Ok g =>
      match bootstrap_chain g with
      | (g, Err e) => Done (db g, Err e)
      | (g, Ok _) =>
          let g := refresh_cached_state_root_from_tip g in
          let current_height := current_height g in
          let '(g, restored) := restore_latest_snapshot current_height g in
          '(n, r) ← recover_tail current_height restored (fresh_node g);
          Done (db (n_chain n), _ ← r; Ok n)
      end
  end.

End bootstrap.
