(* ===== verification/Restart.v ===== *)
(** * Restarting a node

    The theory of [Bootstrap], first half: what a stopped node leaves in its
    database, and the rebuild of its chain from genesis. *)
From S2P Require Import Prelude Crypto Constants Transaction Block StateRoot Difficulty HistoricalVpow VisionX Sled ChainState Storage Snapshots Reward Reorg Orphan Consistency Genesis Accept Accounts Acceptance Consensus Rules Rooted Zeros Heaviest DbIndep CatchUp Bootstrap.

Section restart.
Context {C : Crypto} {CL : CryptoLaws C} {TC : TxCodec} {SL : Sled} {SLL : SledLaws SL}
  {SR : SledReliable SL} {SC : StoreCodec} {SCL : StoreCodecLaws SC}.
Context (params : VisionXParams) (clock : nat → Z) (N : string → Z).
Abbreviation root := GENESIS_HASH.
Abbreviation chain_ok := (chain_ok N root).
Abbreviation ancestry := (ancestry root).
Context (HN : N root = 0) (Hep : epoch_blocks params ≠ 0).
Abbreviation node_ok := (node_ok params N).
Abbreviation admissible := (admissible params N).

(** ** The run on an empty database *)

(** A node that has applied exactly the chain [bs]. *)
Record rebuilt (n : Node) (bs : list Block) : Prop := {
  rb_node : node_ok n;
  rb_blocks : blocks (n_chain n) = bs;
  rb_side : side_blocks (n_chain n) = ∅;
  rb_pool : orphan_pool (n_chain n) = ∅;
  rb_seen : seen_blocks (n_chain n) = list_to_set (block_hash <$> bs);
  rb_rules : bs ≠ [] → rules_ok params (n_chain n);
  rb_heavy : bs ≠ [] → heaviest (n_chain n)
}.

(** Without waiting orphans a block's verdict is that of the pipeline. *)
Lemma apply_block_quiet n blk src m r i :
  apply_core params clock n blk src = Done (m, r, i) → orphan_pool (n_chain m) = ∅ →
  apply_block params clock n blk src = Done (m, r).
Proof.
  intros E Hp. unfold apply_block. cbn [apply_fuel]. rewrite E. cbn [mbind run_bind].
  destruct i; [|done]. unfold process_orphans. by rewrite Hp, lookup_empty.
Qed.

Lemma empty_rebuilt d c : db_contents d = ∅ → cache_ok c →
  rebuilt (mkNode (empty_state d) (mkPowCache [] ∅) c 0) [].
Proof.
  intros Hd Hc. split; [|done..]. split; cbn [n_chain n_datasets]; [|done|].
  - split; simpl; try done.
    + apply canonical_nil.
    + apply index_ok_nil.
    + intros h [[? ?]|[? ?]]; done.
    + intros Hw b [Hb|Hb]; [by apply elem_of_nil in Hb|]; simpl in Hb; by rewrite lookup_empty in Hb.
    + by exists empty_exec.
    + intros b [Hb|Hb]; [by apply elem_of_nil in Hb|]; simpl in Hb; by rewrite lookup_empty in Hb.
    + rewrite Hd. apply mirrors_nil.
  - split; simpl; [|vm_compute; discriminate]. intros k e (es & He & _). done.
Qed.

(** Refreshing the cached root changes nothing else. *)
Lemma rebuilt_refresh n bs : rebuilt n bs →
  rebuilt (set_chain (refresh_cached_state_root_from_tip (n_chain n)) n) bs.
Proof.
  unfold refresh_cached_state_root_from_tip. generalize (λ b : Block, (b_number b, bh_state_root (b_header b))).
  intros f [[Hg Hc Ho] Hb Hs Hp Hse Hr Hv].
  split; cbn [set_chain n_chain n_datasets]; try done.
  - split; cbn [set_chain n_chain n_datasets]; [by destruct Hg; split|done|by apply (orphans_ok_pool params N (n_chain n))].
  - intros Hne. by apply (heaviest_ext (n_chain n)), Hv.
Qed.

Lemma rebuild_genesis n : rebuilt n [] → b_number genesis_block = 0 →
  ∃ n' i, apply_core params clock n genesis_block None = Done (n', CanonExtension 0, i) ∧ rebuilt n' [genesis_block].
Proof.
  intros [Hn Hb Hs Hp Hse _ _] Hz.
  assert (admissible genesis_block) as Ha by (by split; [exact genesis_block_wf|intros _ []|]).
  destruct (apply_core_refines params clock N HN Hep n genesis_block None Hn Ha) as (m & r & i & E & Hout & Hm).
  assert (check_structure (n_chain n) genesis_block = Ok ()) as Es.
  { unfold check_structure. rewrite bool_decide_false with (P := _ ∈ seen_blocks _); [done|].
    rewrite Hse. simpl. apply not_elem_of_empty. }
  assert (∃ g', apply_genesis (n_chain n) genesis_block = (g', CanonExtension 0)) as [g' Eg].
  { unfold apply_genesis. rewrite bool_decide_true by done. rewrite Hb, bool_decide_true by done. cbn [negb].
    destruct (persist_canonical_extension genesis_block (n_chain n)) as [g1 [[]|e]] eqn:Ep; [eauto|].
    unfold persist_canonical_extension, db_batch in Ep.
    match type of Ep with context [db_apply_batch ?d ?o] => pose proof (db_apply_batch_total d o) as Ht;
      destruct (db_apply_batch d o) as [d' ok] end. simpl in Ht. subst ok. done. }
  assert (r = CanonExtension 0) as ->.
  { unfold apply_core in E. cbn [n_chain] in E. rewrite Es, Hz in E. cbn [Z.eqb] in E. rewrite Eg in E. by injection E as <- <- <-. }
  inversion Hout as [ |_ _ _ Ech| |parent st0 st Hc| |parent st ? ? Hc]; subst;
    [|by destruct (cv_number _ _ _ _ _ _ Hc)..].
  assert (orphan_pool (n_chain m) = ∅) as Hpm by (by rewrite Ech).
  exists m. eexists. split; [done|].
  assert (blocks (n_chain m) = [genesis_block]) as Hbm by (rewrite Ech; simpl; by rewrite Hb).
  assert (side_blocks (n_chain m) = ∅) as Hsm by (by rewrite Ech).
  split; [done..| |intros _|intros _].
  - rewrite Ech. simpl. rewrite Hse. simpl. set_solver.
  - apply (rules_ok_genesis params N _ genesis_block (no_chain _ _ _ Hm) Hbm); [by rewrite Hsm|reflexivity].
  - apply (heaviest_genesis N _ genesis_block (no_chain _ _ _ Hm) Hbm); [by rewrite Hsm|].
    rewrite Ech. simpl. apply lookup_insert_eq.
Qed.

Abbreviation branch_next := (branch_next params clock N (λ _, True)).
Abbreviation branch_ok := (branch_ok params clock N (λ _, True)).

Lemma rebuild_next n bs b : rebuilt n bs → bs ≠ [] → branch_next bs b → block_hash b ∉ block_hash <$> bs →
  ∃ n' i, apply_core params clock n b None = Done (n', CanonExtension (b_number b), i) ∧ rebuilt n' (bs ++ [b]).
Proof.
  intros Hrb Hne [Hnext Hpar Hnz Ha _ Ht [st Hrep]] Hnew. pose proof Hrb as [Hn Hb Hs Hp Hse Hr Hv].
  pose proof (Hr Hne) as (_ & Horig & _). specialize (Hv Hne). pose proof (no_chain _ _ _ Hn) as Hg.
  destruct (tip_ancestry N _ Hg) as (p & Hanc & Hth); [by rewrite Hb|]. rewrite Hb in Hanc.
  pose proof Hanc as (_ & Hf & Hl). specialize (Hpar _ Hl).
  apply replay_blocks_snoc in Hrep as (st0 & Hr0 & Hr1).
  assert (block_hash b ∉ seen_blocks (n_chain n)) as Hns.
  { rewrite Hse. rewrite elem_of_list_to_set. exact Hnew. }
  assert (consensus_valid params (n_chain n) (clock (n_ticks n)) b p st) as Hc.
  { eapply (next_consensus_valid params N); [exact Hg|exact Horig|exact Hanc|exact Hpar|exact Hnz|exact Hnext|
      exact Hns|apply Ht|exact Hr0|exact Hr1]. }
  assert (known (n_chain n) (b_parent b)) as Hkp.
  { rewrite Hpar. eapply holds_known; [exact Hg|]. eapply Forall_forall; [exact Hf|by apply last_Some_elem_of]. }
  destruct (apply_core_decides params clock N HN Hep n b None Hn Ha Hnz Hkp) as (m & r & i & E & Hout & _ & Hacc).
  destruct (apply_core_refines params clock N HN Hep n b None Hn Ha) as (m' & r' & i' & E' & _ & Hm).
  rewrite E in E'. injection E' as <- <- <-.
  destruct (Hacc _ _ Hc) as [Hok|Hfail]; [|by destruct (reliable_storage r)].
  destruct Hout as [e Ech|Hz _ _ _|peer now Hk _|parent st1' st' Hc' _ Hpt Ech|parent st' _ Hpt _ _|parent st' rec d _ Hpt _ _ _ _];
    [done..| | |]; [|by rewrite Hth in Hpt..].
  assert (orphan_pool (n_chain m) = ∅) as Hpm by (by rewrite Ech).
  exists m. eexists. split; [done|].
  assert (apply_block params clock n b None = Done (m, CanonExtension (b_number b))) as Eb
    by (by eapply apply_block_quiet).
  split; [done| | |done| |intros _|intros _].
  - rewrite Ech. simpl. by rewrite Hb.
  - by rewrite Ech.
  - rewrite Ech. simpl. rewrite Hse, fmap_app, list_to_set_app_L. simpl. set_solver.
  - exact (apply_block_rules params clock N HN Hep n b None m _ Hn Ha (rb_rules _ _ Hrb Hne) Eb).
  - exact (apply_block_heaviest params clock N HN Hep n b None m _ Hn Ha Hv Eb).
Qed.

(** ** The run on the stored database *)

(** A database that started as [d0] and has since received the writes that
    turned another one into [shadow], snapshots of accounts apart. *)
Definition snapshot_map_key (k : list byte) : Prop := ∃ h, k = snap_balances_key h ∨ k = snap_nonces_key h.
Definition overlay (d0 real shadow : Db) : Prop := ∀ k, ¬ snapshot_map_key k →
  db_contents real !! k = db_contents shadow !! k ∨ db_contents real !! k = db_contents d0 !! k.

Lemma insert_contents d k v : db_contents (db_insert d k v).1 = <[k := v]> (db_contents d).
Proof.
  destruct (db_insert d k v) as [d' ok] eqn:E. pose proof (db_insert_total d k v) as Ht.
  rewrite E in Ht. simpl in Ht. subst ok. by eapply db_insert_ok.
Qed.
Lemma batch_contents d ops : db_contents (db_apply_batch d ops).1 = batch_ops (db_contents d) ops.
Proof.
  destruct (db_apply_batch d ops) as [d' ok] eqn:E. pose proof (db_apply_batch_total d ops) as Ht.
  rewrite E in Ht. simpl in Ht. subst ok. by eapply db_batch_ok.
Qed.

Lemma overlay_insert d0 d d' k v v' : overlay d0 d d' → v = v' ∨ snapshot_map_key k →
  overlay d0 (db_insert d k v).1 (db_insert d' k v').1.
Proof.
  intros H Hv k' Hk'. rewrite !insert_contents. destruct (decide (k' = k)) as [->|Hk].
  - left. rewrite !lookup_insert_eq. by destruct Hv as [->|].
  - rewrite !lookup_insert_ne by done. by apply H.
Qed.
Lemma overlay_batch d0 d d' ops :
  overlay d0 d d' → overlay d0 (db_apply_batch d ops).1 (db_apply_batch d' ops).1.
Proof.
  unfold overlay. rewrite !batch_contents. generalize (db_contents d) (db_contents d'). intros m m'.
  revert m m'. induction ops as [|op ops IH]; intros m m' H; [done|].
  change (batch_ops ?x (op :: ops)) with (batch_ops (batch_op x op) ops). apply IH. intros k Hk.
  rewrite !batch_op_lookup. case_bool_decide; [by left|by apply H].
Qed.
#[export] Instance overlay_sim Q d0 : DbSim Q (overlay d0).
Proof.
  split; intros; [apply overlay_insert|apply overlay_batch|apply overlay_insert|apply overlay_insert]; try done;
    [by left|right; eexists; by left|right; eexists; by right].
Qed.

Lemma block_key_not_map h : ¬ snapshot_map_key (block_key h).
Proof. intros [i [E|E]]; apply (inj string_bytes) in E; discriminate. Qed.
Lemma height_key_not_map n : ¬ snapshot_map_key (height_key n).
Proof. intros [i [E|E]]; apply (inj string_bytes) in E; discriminate. Qed.
Lemma meta_key_not_map k : ¬ snapshot_map_key (meta_key k).
Proof. intros [i [E|E]]; apply (inj string_bytes) in E; discriminate. Qed.

(** The databases agree on a chain once both sides hold it. *)
Lemma overlay_mirrors d0 real shadow bs : overlay d0 real shadow →
  mirrors (db_contents d0) bs → mirrors (db_contents shadow) bs → mirrors (db_contents real) bs.
Proof.
  intros Ho H0 Hs.
  assert (∀ k v, ¬ snapshot_map_key k → db_contents d0 !! k = v → db_contents shadow !! k = v →
    db_contents real !! k = v) as Hk.
  { intros k v Hk E0 Es. by destruct (Ho k Hk) as [->| ->]. }
  split.
  - intros i b Hi. apply Hk; [apply height_key_not_map|by apply (mi_height _ _ H0)|by apply (mi_height _ _ Hs)].
  - intros b Hb. apply Hk; [apply block_key_not_map|by apply (mi_block _ _ H0)|by apply (mi_block _ _ Hs)].
  - intros n Hn. apply Hk; [apply height_key_not_map|by apply (mi_above _ _ H0)|by apply (mi_above _ _ Hs)].
  - intros t Ht. destruct (mi_tip _ _ H0 t Ht), (mi_tip _ _ Hs t Ht).
    split; apply Hk; try done; apply meta_key_not_map.
Qed.

Section shadow.
Context (Q : relation TxExecutionState) {AQ : AccountEquiv Q}.

(** A node that differs from its shadow in the database and, up to [Q], in the
    accounts only. *)
Definition shadows (d0 : Db) (real shadow : Node) : Prop :=
  real = node_on (view_of (n_chain real)) shadow ∧
  view_rel Q (overlay d0) (view_of (n_chain real)) (view_of (n_chain shadow)).

Lemma shadow_apply d0 real s blk r i s' : shadows d0 real s →
  apply_core params clock s blk None = Done (s', r, i) →
  ∃ real', apply_core params clock real blk None = Done (real', r, i) ∧ shadows d0 real' s'.
Proof.
  intros [Er Ho] E.
  pose proof (apply_core_on params clock Q (overlay d0) (view_of (n_chain real)) (view_of (n_chain s)) s blk None Ho) as H.
  rewrite <- Er in H.
  assert (node_on (view_of (n_chain s)) s = s) as Es by (destruct s as [[] ? ? ?]; done).
  rewrite Es, E in H. unfold staged in H.
  destruct (apply_core params clock real blk None) as [[[real' r'] i']| |]; [|done..].
  destruct H as (n & [? ?] & d & d' & E1 & E2 & HR). injection E1 as -> -> ->. injection E2 as -> -> ->.
  exists (node_on d n). split; [done|].
  by destruct n as [[] ? ? ?], d as [? []], d' as [? []].
Qed.
Lemma shadows_refresh d0 real s : shadows d0 real s →
  shadows d0 (set_chain (refresh_cached_state_root_from_tip (n_chain real)) real)
    (set_chain (refresh_cached_state_root_from_tip (n_chain s)) s).
Proof. intros [-> Ho]. by split. Qed.
Lemma shadows_pool d0 real s : shadows d0 real s → orphan_pool (n_chain real) = orphan_pool (n_chain s).
Proof. by intros [-> _]. Qed.

(** One block of a chain. *)
Lemma reapply_step d0 real s bs b s' i :
  shadows d0 real s → apply_core params clock s b None = Done (s', CanonExtension (b_number b), i) →
  rebuilt s' bs →
  ∃ real' s'', reapply params clock (b_number b) b real = Done (real', Ok ()) ∧
    shadows d0 real' s'' ∧ rebuilt s'' bs ∧
    ∃ m, apply_core params clock real b None = Done (m, CanonExtension (b_number b), i) ∧
      db (n_chain real') = db (n_chain m).
Proof.
  intros Hsh E Hrb. destruct (shadow_apply _ _ _ _ _ _ _ Hsh E) as (real' & Er & Hsh').
  eexists _, _. split; [|split; [exact (shadows_refresh _ _ _ Hsh')|split; [by apply rebuilt_refresh|by exists real']]].
  unfold reapply. rewrite (apply_block_quiet _ _ _ _ _ _ Er).
  2:{ rewrite (shadows_pool _ _ _ Hsh'). apply (rb_pool _ _ Hrb). }
  cbn [mbind run_bind]. by rewrite Z.eqb_refl.
Qed.
(** The blocks of a chain, one by one. *)
Lemma reapply_rest d0 news : ∀ bs real s,
  shadows d0 real s → rebuilt s bs → bs ≠ [] → branch_ok bs news → NoDup (block_hash <$> bs ++ news) →
  ∃ real' s', reapply_all params clock news real = Done (real', Ok ()) ∧
    shadows d0 real' s' ∧ rebuilt s' (bs ++ news).
Proof.
  induction news as [|b news IH]; intros bs real s Hsh Hrb Hne Hbr Hnd; cbn [reapply_all].
  { exists real, s. by rewrite app_nil_r. }
  apply branch_ok_cons in Hbr as [Hb Hbr].
  assert (block_hash b ∉ block_hash <$> bs) as Hnew.
  { rewrite fmap_app in Hnd. apply NoDup_app in Hnd as (_ & Hd & _). intros Hin. apply (Hd _ Hin). by left. }
  rewrite (assoc_L (++) bs [b] news : bs ++ b :: news = _) in *.
  destruct (rebuild_next s bs b Hrb Hne Hb Hnew) as (s1 & i & E & Hrb1).
  destruct (reapply_step _ _ _ _ _ _ _ Hsh E Hrb1) as (real1 & s2 & -> & Hsh2 & Hrb2 & _). cbn [mbind run_bind].
  apply (IH _ _ s2); [done..|by destruct bs|done|done].
Qed.
Lemma reapply_chain d0 news real s :
  shadows d0 real s → rebuilt s [] → branch_ok [genesis_block] news →
  NoDup (block_hash <$> genesis_block :: news) →
  ∃ real' s', reapply_all params clock (genesis_block :: news) real = Done (real', Ok ()) ∧
    shadows d0 real' s' ∧ rebuilt s' (genesis_block :: news).
Proof.
  intros Hsh Hrb Hbr Hnd. destruct (rebuild_genesis s Hrb eq_refl) as (s1 & i & E & Hrb1).
  destruct (reapply_step _ _ _ _ _ _ _ Hsh E Hrb1) as (real1 & s2 & E2 & Hsh2 & Hrb2 & _).
  cbn [reapply_all]. rewrite E2. cbn [mbind run_bind]. exact (reapply_rest d0 news [genesis_block] _ _ Hsh2 Hrb2 ltac:(done) Hbr Hnd).
Qed.
End shadow.

(** ** The reads of start-up *)

Lemma load_block_at_mirror d g bs i b :
  reads_ok d → db g = d → stores bs (db_contents d) → bs !! i = Some b → loadable b →
  b_number b = Z.of_nat i → load_block_at g (Z.of_nat i) = Ok b.
Proof.
  intros Hr Hd Hm Hb [Hwf Hhex] Hn. destruct (Hm _ _ Hb) as [H1 H2].
  unfold load_block_at, load_height_index, load_block.
  rewrite (db_read_ok d) by done. rewrite H1. cbn [mbind result_bind].
  rewrite from_utf8_lower_hex by done. cbn [ok_or mbind result_bind map_err].
  rewrite (db_read_ok d) by done.
  rewrite H2. cbn [mbind result_bind].
  rewrite unbincode_bincode_block by done. cbn [ok_or mbind result_bind map_err].
  by rewrite Hn, Z.eqb_refl.
Qed.
Lemma load_blocks_mirror root d g bs : reads_ok d → db g = d → mirrors (db_contents d) bs →
  canonical root bs → Forall loadable bs →
  ∀ rest pre, bs = pre ++ rest → load_blocks (length rest) (Z.of_nat (length pre)) g = Ok rest.
Proof.
  intros Hr Hd Hm Hc Hl. induction rest as [|b rest IH]; intros pre E; cbn [load_blocks length]; [done|].
  assert (bs !! length pre = Some b) as Hb by (rewrite E; by rewrite list_lookup_middle).
  rewrite (load_block_at_mirror d g bs _ b) by
    first [done|by apply mirrors_stores|by eapply Forall_lookup_1|by apply (cn_number _ _ Hc)].
  cbn [mbind result_bind].
  replace (Z.of_nat (length pre) + 1) with (Z.of_nat (length (pre ++ [b]))) by (rewrite length_app; simpl; lia).
  rewrite (IH (pre ++ [b])); [done|]. by rewrite <- app_assoc.
Qed.
Lemma load_tip_height_mirror d g bs t : reads_ok d → db g = d → mirrors (db_contents d) bs →
  last bs = Some t → 0 ≤ b_number t ≤ U64_MAX → load_tip_height g = Ok (b_number t).
Proof.
  intros Hr Hd Hm Hl Hn. destruct (mi_tip _ _ Hm t Hl) as [Ht _].
  unfold load_tip_height, load_meta. rewrite (db_read_ok d) by done.
  change (meta_key "tip_height") with tip_height_key. rewrite Ht. cbn [mbind result_bind].
  rewrite from_utf8_u64. cbn [ok_or mbind result_bind map_err]. by rewrite parse_uint_to_string.
Qed.

(** The reloaded memory, cleared, is that of a new state. *)
Lemma cleared_reloaded d bs g : reloaded d bs g → cleared (refresh_cached_state_root_from_tip g) = empty_state d.
Proof.
  intros [_ _ _ _ _ (H1 & H2 & H3) (H4 & H5 & H6) H7]. destruct g. cbn in *. by subst.
Qed.

(** ** What a restart needs of the running node *)

(** A stopped node: consistent, with a database that can be read. *)
Record stopped (n : Node) (news : list Block) : Prop := {
  rs_node : node_ok n;
  rs_rules : rules_ok params (n_chain n);
  rs_blocks : blocks (n_chain n) = genesis_block :: news;
  rs_marker : db_contents (db (n_chain n)) !! meta_key "genesis_hash" = Some (string_bytes GENESIS_HASH);
  rs_reads : reads_ok (db (n_chain n));
  rs_times b k : b ∈ news → b_timestamp b ≤ wadd64 (clock k) MAX_FUTURE_TIMESTAMP_SECS
}.
Lemma stopped_mirrors n news : stopped n news →
  mirrors (db_contents (db (n_chain n))) (genesis_block :: news).
Proof. intros Hrs. rewrite <- (rs_blocks _ _ Hrs). apply (co_db _ _ _ (no_chain _ _ _ (rs_node _ _ Hrs))). Qed.
Lemma stopped_branch n news : stopped n news → branch_ok [genesis_block] news.
Proof.
  intros Hrs. apply (chain_branch params clock N _ (n_chain n)); [apply (rs_node _ _ Hrs)|apply Hrs|apply Hrs|done..|].
  intros b k Hb. by apply (rs_times _ _ Hrs).
Qed.

(** A node that shadows one that has applied the chain [bs], over the database
    that stores it. *)
Lemma rebuilt_shadow d0 real s bs : shadows (≡) d0 real s → rebuilt s bs → bs ≠ [] →
  mirrors (db_contents d0) bs →
  node_ok real ∧ rules_ok params (n_chain real) ∧ heaviest (n_chain real) ∧ blocks (n_chain real) = bs.
Proof.
  intros [Er [Ho Ha]] [Hn Hb Hs Hp Hse Hr Hv] Hne Hm. pose proof (no_chain _ _ _ Hn) as Hg.
  cbn [view_of v_db v_accounts] in Ho, Ha.
  assert (mirrors (db_contents (db (n_chain real))) (blocks (n_chain s))) as Hm'.
  { rewrite Hb. eapply overlay_mirrors; [exact Ho|exact Hm|]. rewrite <- Hb. apply (co_db _ _ _ Hg). }
  assert (n_chain real = set_db (db (n_chain real))
    (set_accounts (balances (n_chain real)) (nonces (n_chain real)) (n_chain s))) as Ech.
  { rewrite Er at 1. reflexivity. }
  assert (n_datasets real = n_datasets s) as Ed by (by rewrite Er). split_and!.
  - split; [rewrite Ech|rewrite Ed; apply Hn|].
    + apply chain_ok_set_db; [apply chain_ok_accounts; [exact Hg|exact Ha]|exact Hm'].
    + apply (orphans_ok_pool params N (n_chain s)); [apply Hn|by rewrite Ech].
  - by apply (rules_ok_ext params (n_chain s)); [rewrite Ech..|apply Hr].
  - by apply (heaviest_ext (n_chain s)); [rewrite Ech..|apply Hv].
  - by rewrite Ech.
Qed.
(** Two nodes of the same chain have the same accounts, up to zeros. *)
Lemma same_accounts n n' : node_ok n → node_ok n' → blocks (n_chain n') = blocks (n_chain n) →
  accounts (n_chain n') ≡ accounts (n_chain n).
Proof.
  intros Hn Hn' Eb. destruct (co_accounts _ _ _ (no_chain _ _ _ Hn)) as (st & Hst & Heq).
  destruct (co_accounts _ _ _ (no_chain _ _ _ Hn')) as (st' & Hst' & Heq').
  rewrite Eb, Hst in Hst'. injection Hst' as <-. unfold accounts. by rewrite <- Heq, <- Heq'.
Qed.

(** Start-up as far as the rebuild. *)
Lemma bootstrap_stored g : validate_genesis_hash = Ok () → reads_ok (db g) →
  db_contents (db g) !! meta_key "genesis_hash" = Some (string_bytes GENESIS_HASH) →
  bootstrap_chain g = (g, Ok ()).
Proof.
  intros Hv Hr Hm. unfold bootstrap_chain. rewrite Hv, stm_lift_bind. cbn [map_err].
  rewrite stm_get_bind, stm_lift_bind. unfold load_meta. rewrite (db_read_ok (db g)) by done.
  rewrite Hm. cbn [mbind result_bind map_err]. rewrite from_utf8_lower_hex by reflexivity.
  cbn [ok_or mbind result_bind map_err]. rewrite (proj2 (verify_stored_genesis_Ok _)) by done. done.
Qed.

Lemma rebuild_run d0 n g news :
  db_contents d0 = ∅ → stopped n news → reloaded (db (n_chain n)) (genesis_block :: news) g →
  ∃ n', rebuild_canonical_state_from_genesis params clock
      (fresh_node (refresh_cached_state_root_from_tip g)) = Done (n', Ok (Z.of_nat (length news))) ∧
    node_ok n' ∧ rules_ok params (n_chain n') ∧ heaviest (n_chain n') ∧
    blocks (n_chain n') = genesis_block :: news.
Proof.
  intros Hd0 Hrs Hrl. set (g1 := refresh_cached_state_root_from_tip g). set (d := db (n_chain n)) in *.
  pose proof (no_chain _ _ _ (rs_node _ _ Hrs)) as Hg. pose proof (rs_blocks _ _ Hrs) as Eb.
  pose proof (stopped_mirrors _ _ Hrs) as Hm. pose proof (co_canon _ _ _ Hg) as Hc. rewrite Eb in Hc.
  pose proof (co_blocks _ _ _ Hg) as Hbl. rewrite Eb in Hbl.
  pose proof (rs_reads _ _ Hrs) as Hr. assert (db g1 = d) as Hdb by apply (rl_db _ _ _ Hrl).
  assert (Forall loadable (genesis_block :: news)) as Hload.
  { eapply Forall_impl; [exact Hbl|]. intros b Hb. apply (bo_load _ _ _ Hb). }
  destruct (last (genesis_block :: news)) as [t|] eqn:Hl; [|by apply last_None in Hl].
  pose proof (canonical_last _ _ _ Hc Hl) as Htn. simpl length in Htn.
  assert (b_number t = Z.of_nat (length news)) as Et by lia.
  assert (b_number t < U64_MAX) as Htr.
  { apply last_Some_elem_of in Hl. rewrite Forall_forall in Hbl. by apply (bo_range _ _ _ (Hbl t Hl)). }
  assert (load_tip_height g1 = Ok (Z.of_nat (length news))) as Eth.
  { rewrite <- Et. eapply load_tip_height_mirror; [exact Hr|exact Hdb|exact Hm|exact Hl|lia]. }
  assert (load_blocks (Z.to_nat (Z.of_nat (length news) + 1)) 0 g1 = Ok (genesis_block :: news)) as El.
  { replace (Z.to_nat _) with (length (genesis_block :: news)) by (simpl; lia).
    exact (load_blocks_mirror root d g1 _ Hr Hdb Hm Hc Hload _ [] eq_refl). }
  unfold rebuild_canonical_state_from_genesis. cbn [fresh_node n_chain]. fold g1.
  rewrite Eth. cbn [mbind result_bind]. rewrite El. cbn [mbind result_bind].
  assert (cleared g1 = empty_state d) as -> by exact (cleared_reloaded _ _ _ Hrl).
  destruct (reapply_chain (≡) d news (fresh_node (empty_state d)) (fresh_node (empty_state d0)))
    as (real & s & E & Hsh & Hrb).
  - split; [done|]. split; [|done]. intros k _. by right.
  - by apply empty_rebuilt; [|apply cache_ok_empty].
  - exact (stopped_branch _ _ Hrs).
  - apply (cn_nodup _ _ Hc).
  - change (set_chain (empty_state d) (fresh_node g1)) with (fresh_node (empty_state d)).
    exists real. rewrite E. cbn [mbind run_bind result_bind]. split; [done|].
    by apply (rebuilt_shadow d real s).
Qed.

(** Start-up as far as the attempt to restore a snapshot. *)
Lemma open_run n news : validate_genesis_hash = Ok () → stopped n news →
  ∃ g, reloaded (db (n_chain n)) (genesis_block :: news) g ∧
    current_height g = Z.of_nat (length news) ∧
    initialize_chain_state params clock (db (n_chain n)) =
      let g := refresh_cached_state_root_from_tip g in
      let '(g, restored) := restore_latest_snapshot (Z.of_nat (length news)) g in
      '(n, r) ← recover_tail params clock (Z.of_nat (length news)) restored (fresh_node g);
      Done (db (n_chain n), _ ← r; Ok n).
Proof.
  intros Hv Hrs. pose proof (no_chain _ _ _ (rs_node _ _ Hrs)) as Hg. pose proof (rs_blocks _ _ Hrs) as Eb.
  set (d := db (n_chain n)). pose proof (rs_reads _ _ Hrs : reads_ok d) as Hr.
  pose proof (co_canon _ _ _ Hg) as Hc. pose proof (co_blocks _ _ _ Hg) as Hbl.
  destruct (last (blocks (n_chain n))) as [t|] eqn:Hl; [|by apply last_None in Hl; rewrite Eb in Hl].
  pose proof (canonical_last _ _ _ Hc Hl) as Htn.
  assert (b_number t < U64_MAX) as Htr.
  { apply last_Some_elem_of in Hl. rewrite Forall_forall in Hbl. by apply (bo_range _ _ _ (Hbl t Hl)). }
  destruct (open_mirror root d (blocks (n_chain n))) as (g & Eo & Hrl);
    [by rewrite Eb|lia|done|eapply Forall_impl; [exact Hbl|by intros b []]|rewrite Eb; exact (stopped_mirrors _ _ Hrs)|done|].
  rewrite Eb in Hrl. pose proof (rl_db _ _ _ Hrl) as Edb.
  assert (current_height g = Z.of_nat (length news)) as Eh.
  { unfold current_height. rewrite (rl_blocks _ _ _ Hrl), <- Eb, Hl. simpl. rewrite Eb in Htn. simpl in Htn. lia. }
  exists g. split; [done|]. split; [done|]. unfold initialize_chain_state. rewrite Eo.
  rewrite bootstrap_stored by (rewrite ?Edb; first [done|apply (rs_marker _ _ Hrs)]). cbv zeta.
  change (current_height (refresh_cached_state_root_from_tip g)) with (current_height g). by rewrite Eh.
Qed.

(** ** The genesis block alone *)
Record alone (g : ChainState) : Prop := {
  al_blocks : blocks g = [genesis_block];
  al_index : index_ok (canon_index g) [genesis_block];
  al_side : side_blocks g = ∅;
  al_pool : orphan_pool g = ∅;
  al_accounts : balances g = ∅ ∧ nonces g = ∅;
  al_db : mirrors (db_contents (db g)) [genesis_block]
}.
Lemma alone_canonical : canonical root [genesis_block].
Proof. apply (canonical_app root [] genesis_block); [apply canonical_nil|done..|apply not_elem_of_nil]. Qed.
Lemma alone_chain_ok g : alone g → chain_ok g.
Proof.
  intros [Hb Hi Hs Hp [Ha Hn] Hd].
  assert (∀ b, holds g b → b = genesis_block) as Hh.
  { intros b [H|H]; [rewrite Hb in H; by apply list_elem_of_singleton in H|by rewrite Hs, lookup_empty in H]. }
  assert (∀ h, known g h → h = root) as Hk.
  { intros h [[k H]|[b H]]; [|by rewrite Hs, lookup_empty in H].
    apply Hi in H as (_ & b & H & <-). apply list_elem_of_lookup_2, list_elem_of_singleton in H. by subst b. }
  split; rewrite ?Hb; try done.
  - exact alone_canonical.
  - apply Forall_singleton. split; [exact HN|done|vm_compute; split; [discriminate|reflexivity]|done|].
    split; [apply genesis_block_wf|reflexivity].
  - intros h b H. by rewrite Hs, lookup_empty in H.
  - intros h H%Hk. done.
  - intros _ b ->%Hh. done.
  - exists empty_exec. split; [done|]. by rewrite Ha, Hn.
  - intros b ->%Hh. exists [genesis_block], empty_exec. split; [|done].
    split_and!; [exact alone_canonical| |done]. apply Forall_singleton. left. rewrite Hb. by apply list_elem_of_singleton.
Qed.
Lemma alone_node g : alone g → node_ok (fresh_node g) ∧ rules_ok params g.
Proof.
  intros H. pose proof (alone_chain_ok g H) as Hg. pose proof H as [Hb _ Hs Hp _ _]. split.
  - split; [exact Hg|apply cache_ok_empty|]. split; cbn [fresh_node n_chain]; rewrite Hp; [|vm_compute; discriminate].
    intros k e (es & He & _). by rewrite lookup_empty in He.
  - apply (rules_ok_genesis params N _ genesis_block Hg Hb); [by rewrite Hs|done].
Qed.
(** It reloads to a node that counts it. *)
Lemma alone_reloaded d g : reloaded d [genesis_block] g → mirrors (db_contents d) [genesis_block] →
  let g1 := refresh_cached_state_root_from_tip g in alone g1 ∧ heaviest g1.
Proof.
  intros [Hb Hi Hw _ Ha (Hs & Hp & _) _ <-] Hm g1. assert (alone g1) as Hg by (by split).
  split; [exact Hg|]. apply (heaviest_genesis N g1 genesis_block (alone_chain_ok _ Hg) Hb).
  - change (side_blocks g1) with (side_blocks g). by rewrite Hs.
  - exact (Hw 0%nat genesis_block eq_refl).
Qed.

(** Start-up on the database of a stopped node, when no snapshot is restored. *)
Lemma restart_rebuild d0 n news g e :
  db_contents d0 = ∅ → stopped n news → reloaded (db (n_chain n)) (genesis_block :: news) g →
  ∃ n', recover_tail params clock (Z.of_nat (length news)) (Err e)
      (fresh_node (refresh_cached_state_root_from_tip g)) = Done (n', Ok ()) ∧
    node_ok n' ∧ rules_ok params (n_chain n') ∧ heaviest (n_chain n') ∧
    blocks (n_chain n') = blocks (n_chain n).
Proof.
  intros Hd0 Hrs Hrl. unfold recover_tail. destruct (Z.ltb_spec 0 (Z.of_nat (length news))) as [Hl|Hl].
  - destruct (rebuild_run d0 n g news Hd0 Hrs Hrl) as (n' & E & Hn' & Hr' & Hh' & Eb').
    rewrite E. cbn [mbind run_bind result_bind]. exists n'. by rewrite (rs_blocks _ _ Hrs).
  - destruct news; [|simpl in Hl; lia]. pose proof (stopped_mirrors _ _ Hrs) as Hm.
    destruct (alone_reloaded _ _ Hrl Hm) as [Hg Hh]. destruct (alone_node _ Hg) as [Hn Hr].
    eexists. split; [done|]. split_and!; [done..|]. rewrite (rs_blocks _ _ Hrs). exact (al_blocks _ Hg).
Qed.
End restart.

(** ** A restart, evaluated *)

(** A hash function under which the genesis header has the locked hash. *)
Definition genesis_digest : list byte := Eval vm_compute in default [] (hex_decode GENESIS_HASH).
Definition genesis_header_bytes : list byte := Eval vm_compute in canonical_bytes (b_header genesis_block).
#[local] Instance rooted_crypto : Crypto := {
  blake3 bs := if bool_decide (bs = genesis_header_bytes) then genesis_digest else toy_hash bs;
  hex_encode := toy_hex_encode;
  hex_decode := toy_hex_decode;
  ed_key_ok _ := true;
  ed_verify key msg sig := bool_decide (sig = toy_hash (key ++ msg) ++ key)
}.
#[local] Instance rooted_crypto_laws : CryptoLaws rooted_crypto.
Proof.
  destruct toy_crypto_laws as [H1 H2 H3 H4 H5 H6 H7]. split; [|exact H2|exact H3|exact H4|exact H5|exact H6|exact H7].
  intros bs. cbn. case_bool_decide; [reflexivity|apply H1].
Qed.

Section rooted.
#[local] Existing Instances toy_steady toy_steady_laws toy_steady_reliable.
Definition rooted_step (n : Node) (b : Block) : Node :=
  match apply_block tiny_params toy_clock n b None with Done (n, _) => n | _ => n end.
(** A node with one block above genesis, and the marker start-up looks for. *)
Definition rooted_chain : Node :=
  rooted_step (rooted_step (mkNode (empty_state (∅ : contents_map)) (mkPowCache [] ∅) empty_cache 0) genesis_block) toy_b1.
Definition rooted_node : Node :=
  with_db (<[meta_key "genesis_hash" := string_bytes GENESIS_HASH]> (db (n_chain rooted_chain))) rooted_chain.

Lemma rooted_admissible b : b ∈ [genesis_block; toy_b1] → admissible tiny_params toy_N b.
Proof.
  intros Hb. repeat (apply elem_of_cons in Hb as [->|Hb]); [..|by apply elem_of_nil in Hb];
    (split; [first [literal_wf genesis_block|literal_wf toy_b1]
            |intros _ Hn; first [by destruct Hn|vm_compute; by split_and!]
            |vm_compute; discriminate || done]).
Qed.
Lemma rooted_chain_ok : node_ok tiny_params toy_N rooted_chain ∧ rules_ok tiny_params (n_chain rooted_chain).
Proof.
  unfold rooted_chain. set (n0 := mkNode _ _ _ _).
  assert (rebuilt tiny_params toy_N n0 []) as H0 by (apply empty_rebuilt; [reflexivity|apply cache_ok_empty]).
  destruct (rebuild_genesis tiny_params toy_clock toy_N eq_refl ltac:(discriminate) n0 H0 eq_refl)
    as (n1 & i & E0 & H1).
  pose proof (apply_block_quiet _ _ _ _ _ _ _ _ E0 (rb_pool _ _ _ _ H1)) as E1.
  assert (rooted_step n0 genesis_block = n1) as -> by (unfold rooted_step; by rewrite E1).
  destruct (apply_block_ok tiny_params toy_clock toy_N eq_refl ltac:(discriminate) n1 toy_b1 None
    (rb_node _ _ _ _ H1)) as (n2 & r & E2 & Hn2 & _); [apply rooted_admissible; right; left|].
  assert (rooted_step n1 toy_b1 = n2) as -> by (unfold rooted_step; by rewrite E2).
  split; [exact Hn2|].
  refine (apply_block_rules tiny_params toy_clock toy_N eq_refl _ n1 toy_b1 None n2 r (rb_node _ _ _ _ H1) _ _ E2);
    [discriminate|apply rooted_admissible; right; left|by apply (rb_rules _ _ _ _ H1)].
Qed.

Lemma rooted_stopped : stopped tiny_params toy_clock toy_N rooted_node [toy_b1].
Proof.
  destruct rooted_chain_ok as [Hn Hr].
  assert (bool_decide (blocks (n_chain rooted_chain) = [genesis_block; toy_b1]) = true) as Eb
    by (vm_compute; reflexivity). apply bool_decide_eq_true in Eb.
  unfold rooted_node. set (d := <[_ := _]> _). revert Hn Hr Eb.
  assert (d = <[meta_key "genesis_hash" := string_bytes GENESIS_HASH]> (db (n_chain rooted_chain))) as Ed
    by reflexivity.
  clearbody d. revert d Ed. generalize rooted_chain. intros n d Ed Hn Hr Eb.
  split.
  - refine (node_ok_marker tiny_params toy_N n d _ Hn _). exact Ed.
  - exact (rules_ok_ext tiny_params (n_chain n) (n_chain (with_db d n)) eq_refl eq_refl Hr).
  - exact Eb.
  - cbn. rewrite Ed. exact (lookup_insert_eq _ _ _).
  - intros k. eexists. reflexivity.
  - intros b k ->%list_elem_of_singleton. vm_compute. discriminate.
Qed.
End rooted.
