(* ===== verification/FirstRun.v ===== *)
(** * The first start

    The theory of [Bootstrap] on an empty database: start-up stores the genesis
    block, as the tip and with the marker of a database in use, and comes up
    with a consistent node whose chain it is.  Its work map, though, does not
    count the genesis block until the next start (a finding: fork choice may then be off by that block). *)
From S2P Require Import Prelude Crypto Constants Transaction Block StateRoot Difficulty HistoricalVpow VisionX Sled ChainState Storage Snapshots Reward Reorg Orphan Zeros Consistency Genesis Accept Accounts Acceptance Consensus Rules Rooted Heaviest Bootstrap Restart.

Section first_run.
Context {C : Crypto} {CL : CryptoLaws C} {TC : TxCodec} {SL : Sled} {SLL : SledLaws SL}
  {SR : SledReliable SL} {SC : StoreCodec} {SCL : StoreCodecLaws SC}.
Context (params : VisionXParams) (clock : nat → Z) (N : string → Z).
Context (HN : N GENESIS_HASH = 0) (Hep : epoch_blocks params ≠ 0).
Context (Hread : ∀ d, reads_ok d) (Hv : validate_genesis_hash = Ok ()).

(** The records start-up writes, and no others. *)
Definition genesis_records : contents_map :=
  <[genesis_key := string_bytes GENESIS_HASH]>
    (<[tip_hash_key := string_bytes (block_hash genesis_block)]>
      (<[tip_height_key := string_bytes (u64_to_string 0)]>
        (<[height_key 0 := string_bytes (block_hash genesis_block)]>
          (<[block_key (block_hash genesis_block) := bincode_block genesis_block]> ∅)))).
Definition first_state (d : Db) : ChainState :=
  refresh_cached_state_root_from_tip
    (set_canon_index {[block_hash genesis_block := 0]} (set_blocks [genesis_block] (empty_state d))).

(** On a reliable database a write succeeds. *)
Lemma db_put_total k v g :
  ∃ d, db_put k v g = (set_db d g, Ok ()) ∧ db_contents d = <[k := v]> (db_contents (db g)).
Proof.
  unfold db_put. pose proof (db_insert_total (db g) k v) as Ht. pose proof (insert_contents (db g) k v) as Hc.
  destruct (db_insert (db g) k v) as [d ok]. cbn [fst snd] in Ht, Hc. subst ok. by exists d.
Qed.
Lemma store_first_height h g : db_contents (db g) !! tip_height_key = None →
  ∃ d, store_height_index 0 h g = (set_db d g, Ok ()) ∧
    db_contents d = <[tip_hash_key := string_bytes h]> (<[tip_height_key := string_bytes (u64_to_string 0)]>
      (<[height_key 0 := string_bytes h]> (db_contents (db g)))).
Proof.
  intros Ht. unfold store_height_index.
  destruct (db_put_total (height_key 0) (string_bytes h) g) as (d1 & E1 & H1).
  destruct (db_put_total tip_height_key (string_bytes (u64_to_string 0)) (set_db d1 g)) as (d2 & E2 & H2).
  destruct (db_put_total tip_hash_key (string_bytes h) (set_db d2 (set_db d1 g))) as (d3 & E3 & H3).
  exists d3. split; [|rewrite H3; cbn [set_db db]; rewrite H2; cbn [set_db db]; by rewrite H1].
  rewrite (stm_bind_run _ _ _ _ _ E1), stm_get_bind, stm_lift_bind.
  rewrite (db_read_ok d1) by done. rewrite H1, lookup_insert_ne by apply height_meta_ne. rewrite Ht.
  cbn [mbind option_bind default]. change (0 <=? 0) with true. cbv iota zeta.
  rewrite (stm_bind_run _ _ _ _ _ E2). exact E3.
Qed.
Lemma boot_op_Ok {A} (m : stm ChainState StorageError A) g g' a :
  m g = (g', Ok a) → boot_op m g = (g', Ok a).
Proof. unfold boot_op. by intros ->. Qed.
Lemma bootstrap_empty d : db_contents d = ∅ →
  ∃ d', db_contents d' = genesis_records ∧
    bootstrap_chain (empty_state d) =
      (set_canon_index {[block_hash genesis_block := 0]} (set_blocks [genesis_block] (empty_state d')), Ok ()).
Proof.
  intros Hd. unfold bootstrap_chain. rewrite Hv, stm_lift_bind. cbn [map_err].
  rewrite stm_get_bind, stm_lift_bind. unfold load_meta. rewrite (db_read_ok d) by done.
  rewrite Hd, lookup_empty. cbn [mbind result_bind map_err].
  destruct (db_put_total (block_key (block_hash genesis_block)) (bincode_block genesis_block) (empty_state d))
    as (d1 & E1 & H1). cbn [empty_state db] in H1.
  destruct (store_first_height (block_hash genesis_block) (set_db d1 (empty_state d))) as (d2 & E2 & H2).
  { cbn [set_db db]. rewrite H1, Hd, lookup_insert_ne by apply block_meta_ne. apply lookup_empty. }
  destruct (db_put_total (meta_key "genesis_hash") (string_bytes (block_hash genesis_block))
    (set_db d2 (set_db d1 (empty_state d)))) as (d3 & E3 & H3).
  exists d3. split; [rewrite H3; cbn [set_db db]; rewrite H2; cbn [set_db db]; by rewrite H1, Hd|].
  rewrite (stm_bind_run _ _ _ _ _ (boot_op_Ok (store_block genesis_block) _ _ _ E1)).
  rewrite (stm_bind_run _ _ _ _ _ (boot_op_Ok _ _ _ _ E2)).
  rewrite (stm_bind_run _ _ _ _ _ (boot_op_Ok (store_meta "genesis_hash" (block_hash genesis_block)) _ _ _ E3)).
  by rewrite stm_modify_bind.
Qed.

Lemma open_empty d : db_contents d = ∅ → open_with_genesis d = Ok (empty_state d).
Proof.
  intros Hd. unfold open_with_genesis, load_meta. rewrite (db_read_ok d) by done.
  rewrite Hd, lookup_empty. cbn [mbind result_bind].
  unfold load_canon_chain. rewrite stm_get_bind, stm_lift_bind, (db_read_ok d) by done. by rewrite Hd, lookup_empty.
Qed.

(** No key of these names a snapshot. *)
Lemma genesis_records_key k v : genesis_records !! k = Some v →
  k ∈ [genesis_key; tip_hash_key; tip_height_key; height_key 0; block_key (block_hash genesis_block)].
Proof.
  unfold genesis_records. rewrite !lookup_insert_Some, lookup_empty. rewrite !elem_of_cons. naive_solver.
Qed.
Lemma no_snapshots g h : db_contents (db g) = genesis_records →
  restore_latest_snapshot h g = (g, Err (NoSnapshot h)).
Proof.
  intros Hd. unfold restore_latest_snapshot, snapshot_heights.
  enough (omap (snapshot_height h) (db_scan_prefix (db g) (string_bytes snapshot_prefix)) = []) as -> by done.
  pose proof (db_scan_sound (db g) (string_bytes snapshot_prefix)) as Hs. rewrite Hd in Hs. revert Hs.
  induction (db_scan_prefix (db g) (string_bytes snapshot_prefix)) as [|e l IH]; intros Hs; [done|].
  cbn [omap list_omap]. rewrite IH by (intros k v Hin; apply Hs; by right).
  assert (snapshot_height h e = None) as ->; [|done]. unfold snapshot_height.
  destruct e as [[k v]|e]; [|done]. cbn [res_ok mbind option_bind fst].
  specialize (Hs k v ltac:(left)). apply genesis_records_key in Hs.
  repeat (apply elem_of_cons in Hs as [->|Hs]; [reflexivity|]). by apply elem_of_nil in Hs.
Qed.

Lemma first_start_run d : db_contents d = ∅ →
  ∃ d', db_contents d' = genesis_records ∧
    initialize_chain_state params clock d = Done (d', Ok (fresh_node (first_state d'))).
Proof.
  intros Hd. destruct (bootstrap_empty d Hd) as (d' & Hd' & Eb). exists d'. split; [done|].
  unfold initialize_chain_state. rewrite open_empty by done. rewrite Eb. cbv zeta.
  fold (first_state d'). change (current_height _) with 0.
  rewrite no_snapshots by exact Hd'. reflexivity.
Qed.

(** ** The node it yields *)
Lemma first_mirrors : mirrors genesis_records [genesis_block].
Proof.
  unfold genesis_records. refine (mirrors_ignores _ genesis_key _ _ _ _ _ _ _ _).
  - intros b _. apply (fk_block _ genesis_key_foreign).
  - apply (fk_height _ genesis_key_foreign).
  - apply (fk_tip_height _ genesis_key_foreign).
  - apply (fk_tip_hash _ genesis_key_foreign).
  - intros k Hk. exact (lookup_insert_ne _ _ _ _ (not_eq_sym Hk)).
  - exact (extension_mirrors GENESIS_HASH ∅ [] genesis_block mirrors_nil alone_canonical).
Qed.
Lemma first_alone d : db_contents d = genesis_records → alone (first_state d).
Proof.
  intros Hd. split; try done.
  - exact (index_ok_snoc GENESIS_HASH ∅ [] genesis_block alone_canonical index_ok_nil).
  - change (mirrors (db_contents d) [genesis_block]). rewrite Hd. exact first_mirrors.
Qed.
Lemma first_start d : db_contents d = ∅ →
  ∃ n, initialize_chain_state params clock d = Done (db (n_chain n), Ok n) ∧
    node_ok params N n ∧ rules_ok params (n_chain n) ∧ rooted (n_chain n) ∧ ¬ counted (n_chain n) ∧
    blocks (n_chain n) = [genesis_block].
Proof.
  intros Hd. destruct (first_start_run d Hd) as (d' & Hd' & E). exists (fresh_node (first_state d')).
  split; [exact E|]. destruct (alone_node params N HN (first_state d') (first_alone d' Hd')) as [Hn Hr].
  split_and!; [done..| | |done].
  - split; [done|]. change (db_contents d' !! genesis_key = Some (string_bytes GENESIS_HASH)).
    rewrite Hd'. apply lookup_insert_eq.
  - intros [w Hw]. change ((∅ : gmap string Z) !! GENESIS_HASH = Some w) in Hw. by rewrite lookup_empty in Hw.
Qed.
End first_run.
