(* ===== verification/Supply.v ===== *)
(** * Accounts and supply of the whole chain

    What block execution gives the account maps of a node, whatever blocks it
    is handed: machine widths, canonical addresses, and the money supply. *)
From S2P Require Import Prelude Crypto Constants Transaction Block StateRoot Difficulty HistoricalVpow VisionX Sled ChainState Storage Reward Reorg Zeros Orphan Consistency Genesis Accept Acceptance Consensus Heaviest.

(** Balances are [u128], nonces [u64], and every account is a canonical
    64-character address. *)
Definition accounts_typed (st : TxExecutionState) : Prop :=
  exec_wf st ∧ (∀ a, is_Some (es_balances st !! a) → is_hex64 a = true) ∧
  (∀ a, is_Some (es_nonces st !! a) → is_hex64 a = true).

(** The subsidies of a chain: every block but genesis pays one. *)
Definition subsidy (b : Block) : Z := if b_number b =? 0 then 0 else block_reward (b_number b).
Definition issued (bs : list Block) : Z := sumZ subsidy bs.

Section supply.
Context {C : Crypto} {TC : TxCodec} {TCL : TxCodecLaws TC}.

(** The fees a chain burns, executed from [st]. *)
Fixpoint burned (st : TxExecutionState) (bs : list Block) : Z :=
  match bs with
  | [] => 0
  | b :: bs =>
      burned_fees st (drop 1 (b_txs b)) +
      match replay_block st b with Ok st => burned st bs | Err _ => 0 end
  end.

Lemma simulate_typed st tx st' out : tx_wf tx → accounts_typed st →
  simulate_tx_execution st tx = Ok (st', out) → accounts_typed st' ∧ 0 ≤ out_charged_fee out.
Proof.
  intros Hw (Hwf & Hb & Hn) E. split; [split; [by eapply simulate_wf|]|];
    apply simulate_Ok_inv in E as (args & fee & Hok & -> & ->).
  - destruct (transfer_ok_addresses _ _ _ _ Hok) as (Hs & Ht & _). simpl.
    split; intros a; rewrite !lookup_insert_is_Some; naive_solver.
  - simpl. rewrite (tk_fee _ _ _ _ Hok). destruct Hw as (_ & [Ht _] & _).
    unfold CASH_TRANSFER_BASE_FEE. lia.
Qed.

Lemma execute_typed txs st st' : Forall tx_wf txs → accounts_typed st →
  execute_txs st txs = Ok st' → accounts_typed st' ∧ 0 ≤ burned_fees st txs.
Proof.
  intros Hw. revert st. induction Hw as [|tx txs Hx _ IH]; intros st Hst; simpl.
  { by intros [= <-]. }
  intros ([st1 out] & E1 & E2)%bind_Ok. rewrite E1.
  destruct (simulate_typed _ _ _ _ Hx Hst E1) as [H1 H2].
  destruct (IH _ H1 E2) as [H3 H4]. split; [done|]. simpl in H4. lia.
Qed.

(** One block: typed accounts stay typed, and the supply grows by the subsidy
    less the fees burned. *)
Lemma replay_block_typed st b st' : block_wf b → 0 ≤ b_number b → accounts_typed st →
  replay_block st b = Ok st' →
  accounts_typed st' ∧ 0 ≤ burned_fees st (drop 1 (b_txs b)) ∧
  total (es_balances st') = total (es_balances st) + subsidy b - burned_fees st (drop 1 (b_txs b)).
Proof.
  intros (_ & Htx & _) Hn Hst E. unfold replay_block in E.
  apply bind_Ok in E as (st1 & E1 & E2). apply map_err_Ok in E1.
  destruct (execute_typed (drop 1 (b_txs b)) st st1) as [H1 Hf];
    [by apply Forall_drop|done|done|]. pose proof (execute_total _ _ _ E1) as Ht.
  unfold subsidy. destruct (Z.eqb_spec (b_number b) 0) as [Hz|Hz]; cbn [negb] in E2.
  { injection E2 as <-. split; [done|]. split; [done|lia]. }
  apply bind_Ok in E2 as (st2 & E2 & E3). apply map_err_Ok in E2.
  apply bind_Ok in E3 as (root & _ & E3). destruct (negb _); [done|]. injection E3 as <-.
  apply apply_coinbase_reward_Ok in E2 as (Hhex & Hle & ->).
  pose proof (block_reward_range _ Hn). destruct H1 as (Hwf & Hb & Hnn).
  pose proof (exec_wf_balance _ (bh_miner (b_header b)) Hwf) as Hbal.
  split; [|split; [done|cbn [es_balances]; rewrite total_insert; unfold Transaction.balance_of; lia]].
  split; [|split; simpl; [|done]].
  - destruct Hwf as [W1 W2]. split; simpl; [|done]. intros a v.
    rewrite lookup_insert_Some. intros [[_ <-]|[_ ?]]; [|by eapply W1]. unfold u128 in *. lia.
  - intros a. rewrite lookup_insert_is_Some. naive_solver.
Qed.

Lemma replay_typed bs : Forall block_wf bs → Forall (λ b, 0 ≤ b_number b) bs →
  ∀ st st', accounts_typed st → replay_blocks st bs = Ok st' →
  accounts_typed st' ∧ 0 ≤ burned st bs ∧
  total (es_balances st') = total (es_balances st) + issued bs - burned st bs.
Proof.
  intros Hw. induction Hw as [|b bs Hb _ IH]; intros Hp st st' Hst; cbn [replay_blocks burned].
  { intros [= <-]. split; [done|]. unfold issued. simpl. lia. }
  inversion Hp as [|? ? Hb0 Hp']; subst. intros (st1 & E1 & E2)%bind_Ok. rewrite E1.
  destruct (replay_block_typed _ _ _ Hb Hb0 Hst E1) as (H1 & H2 & H3).
  destruct (IH Hp' _ _ H1 E2) as (H4 & H5 & H6). split; [done|]. split; [lia|].
  unfold issued in *. simpl. lia.
Qed.

Lemma accounts_typed_empty : accounts_typed empty_exec.
Proof.
  split; [apply exec_wf_empty|]. split; intros a [? Ha]; simpl in Ha; by rewrite lookup_empty in Ha.
Qed.

(** A chain of a [u64] number of blocks issues less than a [u128]. *)
Lemma issued_bound bs : Forall (λ b, 0 ≤ b_number b) bs →
  0 ≤ issued bs ≤ EMISSION_PER_BLOCK * Z.of_nat (length bs).
Proof.
  unfold issued. induction 1 as [|b bs Hb _ IH]; simpl; [lia|].
  assert (0 ≤ subsidy b ≤ EMISSION_PER_BLOCK).
  { unfold subsidy. case_match; [split; [done|vm_compute; discriminate]|by apply block_reward_range]. }
  lia.
Qed.

End supply.

Lemma total_nonneg st : exec_wf st → 0 ≤ total (es_balances st).
Proof.
  intros [Hb _]. unfold total.
  assert (Forall (λ kv, 0 ≤ snd kv) (map_to_list (es_balances st))) as H.
  { apply Forall_forall. intros [k v] Hkv%elem_of_map_to_list. apply (Hb k v Hkv). }
  induction H as [|[k v] l Hv _ IH]; simpl in *; lia.
Qed.

(** ** Zero entries count for nothing *)
Lemma total_nonzero m : total (nonzero m) = total m.
Proof.
  induction m as [|k v m Hk IH] using map_ind; [done|].
  rewrite total_insert, Hk. unfold nonzero. destruct (decide (v = 0)) as [->|Hv].
  - rewrite map_filter_insert_False by (simpl; tauto). rewrite delete_id by done.
    unfold nonzero in IH. rewrite IH. simpl. lia.
  - rewrite map_filter_insert_True by done. rewrite total_insert. unfold nonzero in IH. rewrite IH.
    assert (filter (λ e, e.2 ≠ 0) m !! k = None) as -> by (apply map_lookup_filter_None; by left). done.
Qed.
Lemma total_proper st st' : st ≡ st' → total (es_balances st) = total (es_balances st').
Proof. intros [H _]%exec_equiv_nonzero. by rewrite <- !(total_nonzero (es_balances _)), H. Qed.
Lemma accounts_typed_nonzero st st' : st ≡ st' → accounts_typed st →
  accounts_typed (mkExec (nonzero (es_balances st')) (nonzero (es_nonces st'))).
Proof.
  intros [<- <-]%exec_equiv_nonzero ((Hb & Hn) & Kb & Kn).
  split; [split|split]; cbn [es_balances es_nonces].
  - intros k v [Hv _]%nonzero_lookup. exact (Hb k v Hv).
  - intros k v [Hv _]%nonzero_lookup. exact (Hn k v Hv).
  - intros a [v [Hv _]%nonzero_lookup]. apply Kb. eauto.
  - intros a [v [Hv _]%nonzero_lookup]. apply Kn. eauto.
Qed.

Section node_supply.
Context {C : Crypto} {CL : CryptoLaws C} {TC : TxCodec} {TCL : TxCodecLaws TC} {SL : Sled}
  {SLL : SledLaws SL} {SC : StoreCodec}.
Context (params : VisionXParams) (clock : nat → Z) (N : string → Z).
Context (HN : N GENESIS_HASH = 0) (Hep : epoch_blocks params ≠ 0).

(** ** Properties *)

(** C38: The account maps of a node are always well typed, and money is only
    made by the subsidy.  Whatever blocks with truthful heights a consistent
    node is handed, after
    every reorganisation they cause, every balance is a [u128], every nonce a
    [u64] and every account with a nonzero one of either a 64-character lowercase address; the sum of all
    balances is the subsidies of the canonical chain less the fees it burned;
    and since that sum is below the [u128] maximum, no credit can overflow. *)
Theorem accounts_stay_typed n l :
  node_ok params N n → Forall (λ bs, admissible params N bs.1) l →
  ∃ n', feed params clock n l = Done n' ∧
    let g := n_chain n' in
    accounts_typed (mkExec (nonzero (balances g)) (nonzero (nonces g))) ∧
    total (balances g) = issued (blocks g) - burned empty_exec (blocks g) ∧
    0 ≤ total (balances g) ≤ EMISSION_PER_BLOCK * Z.of_nat (length (blocks g)) ∧
    EMISSION_PER_BLOCK * Z.of_nat (length (blocks g)) < U128_MAX - EMISSION_PER_BLOCK.
Proof.
  intros Hn Hl. assert (∃ n', feed params clock n l = Done n' ∧ node_ok params N n') as (n' & E & Hn').
  { revert n Hn. induction Hl as [|[b src] l Ha _ IH]; intros n Hn; cbn [feed]; [eauto|].
    destruct (apply_block_ok params clock N HN Hep n b src Hn Ha) as (n1 & r & -> & Hn1 & _). by apply IH. }
  exists n'. split; [exact E|]. intros g. pose proof (no_chain _ _ _ Hn') as Hg. fold g in Hg.
  pose proof (co_blocks _ _ _ Hg) as Hbl.
  assert (Forall (λ b, 0 ≤ b_number b) (blocks g)) as H0
    by (eapply Forall_impl; [exact Hbl|intros b Hb; apply (bo_range _ _ _ Hb)]).
  assert (Forall block_wf (blocks g)) as Hw
    by (eapply Forall_impl; [exact Hbl|intros b Hb; apply (bo_load _ _ _ Hb)]).
  destruct (co_accounts _ _ _ Hg) as (st & Hr & Heq).
  destruct (replay_typed _ Hw H0 _ _ accounts_typed_empty Hr) as (Ht & Hbn & Hs).
  pose proof (issued_bound _ H0) as Hi. pose proof (total_nonneg _ (proj1 Ht)) as Hp.
  rewrite (total_proper _ _ Heq) in Hs, Hp. cbn [es_balances empty_exec] in Hs, Hp.
  change (total ∅) with 0 in Hs. split; [exact (accounts_typed_nonzero _ _ Heq Ht)|]. split; [lia|]. split; [lia|].
  assert (Z.of_nat (length (blocks g)) ≤ U64_MAX).
  { destruct (last (blocks g)) as [t|] eqn:El; [|apply last_None in El; by rewrite El].
    pose proof (canonical_last _ _ _ (co_canon _ _ _ Hg) El). apply last_Some_elem_of in El.
    rewrite Forall_forall in Hbl. destruct (bo_range _ _ _ (Hbl t El)). lia. }
  unfold EMISSION_PER_BLOCK, U64_MAX, U128_MAX in *. lia.
Qed.
End node_supply.

Lemma accounts_stay_typed_witness :
  ∃ n', feed tiny_params toy_clock toy_node1 [(toy_b1, None); (toy_s2, None); (toy_s1, None)] = Done n' ∧
    accounts_typed (mkExec (nonzero (balances (n_chain n'))) (nonzero (nonces (n_chain n')))) ∧
    total (balances (n_chain n')) = issued (blocks (n_chain n')) - burned empty_exec (blocks (n_chain n')).
Proof.
  destruct (accounts_stay_typed tiny_params toy_clock toy_N eq_refl ltac:(discriminate) toy_node1
    [(toy_b1, None); (toy_s2, None); (toy_s1, None)] (toy_node1_ok toy_N eq_refl))
    as (n' & E & Ht & Hs & _); [|exists n'; split; [exact E|split; [exact Ht|exact Hs]]].
  repeat apply Forall_cons_2; [..|apply Forall_nil_2]; apply toy_admissible.
  - right. left.
  - do 3 right. left.
  - do 2 right. left.
Defined.
