(* ===== verification/Restore.v ===== *)
(** * Restarting from a snapshot

    The theory of [Snapshots] and of the other half of [Bootstrap]: a snapshot
    that passes the checks of start-up holds the accounts of the chain at its
    height, up to zero entries, and replaying the stored tail above it gives a
    node that no sequence of blocks tells apart from the one that stopped. *)
From S2P Require Import Prelude Crypto Constants Transaction Block StateRoot Difficulty HistoricalVpow VisionX Sled ChainState Storage Snapshots Reward Reorg Orphan Consistency Genesis Accept Accounts Acceptance Consensus Rules Rooted Zeros Heaviest DbIndep CatchUp Bootstrap Restart Supply.

(** ** Restoring *)

Section restore.
Context {C : Crypto} {SL : Sled} {SLL : SledLaws SL} {SC : StoreCodec}.

Lemma restore_loop_cases heights : ∀ reasons g g' r, restore_loop heights reasons g = (g', r) →
  match r with
  | Ok h => h ∈ heights ∧ ∃ b n root, check_snapshot_at g h = Ok (b, n, root) ∧ g' = install_snapshot b n root h g
  | Err _ => g' = g
  end.
Proof.
  induction heights as [|h heights IH]; intros reasons g g' r E; cbn [restore_loop] in E.
  { by injection E as <- <-. }
  unfold restore_snapshot_at in E at 1. rewrite stm_get_bind, stm_lift_bind in E.
  destruct (check_snapshot_at g h) as [[[b n] root]|e] eqn:Ec.
  - injection E as <- <-. split; [left|]. eauto.
  - apply IH in E. destruct r; [|done]. destruct E as (Hh & H). split; [by right|done].
Qed.

Lemma snapshot_heights_range g max h : h ∈ snapshot_heights g max → 0 ≤ h ≤ max.
Proof.
  unfold snapshot_heights. rewrite merge_sort_Permutation. intros (e & _ & E)%list_elem_of_omap.
  unfold snapshot_height in E. repeat (apply bind_Some in E as (? & ? & E)).
  destruct (Z.leb_spec x2 max); [|done]. injection E as <-. split; [by eapply parse_uint_nonneg|done].
Qed.

Lemma restore_latest_cases max g g' r : restore_latest_snapshot max g = (g', r) →
  match r with
  | Ok h => 0 ≤ h ≤ max ∧ ∃ b n root, check_snapshot_at g h = Ok (b, n, root) ∧ g' = install_snapshot b n root h g
  | Err _ => g' = g
  end.
Proof.
  unfold restore_latest_snapshot. destruct (restore_loop _ _ _) as [g1 r1] eqn:E.
  apply restore_loop_cases in E. destruct r1 as [h|reasons].
  - intros [= <- <-]. destruct E as [Hh H]. split; [by eapply snapshot_heights_range|done].
  - destruct reasons; intros [= <- <-]; done.
Qed.

(** The maps rebuilt from the kept blocks. *)
Lemma rebuild_maps_ok root rest : ∀ pre index work index' work', canonical root (pre ++ rest) →
  index_ok index pre → work_ok work pre → rebuild_maps (chain_work pre) index work rest = (index', work') →
  index_ok index' (pre ++ rest) ∧ work_ok work' (pre ++ rest).
Proof.
  induction rest as [|b rest IH]; intros pre index work index' work' Hc Hi Hw E; cbn [rebuild_maps] in E.
  { injection E as <- <-. by rewrite app_nil_r. }
  rewrite (assoc_L (++) pre [b] rest : pre ++ b :: rest = _) in *.
  assert (canonical root (pre ++ [b])) as Hb.
  { apply (canonical_take _ _ (length (pre ++ [b]))) in Hc. by rewrite take_app_length in Hc. }
  rewrite <- chain_work_app in E.
  apply (IH (pre ++ [b])) in E; [done|done|by eapply index_ok_snoc|eapply work_ok_snoc; [exact Hb|done|by rewrite chain_work_app]].
Qed.

(** The checks, one by one. *)
Lemma check_snapshot_Ok g h b n root : check_snapshot_at g h = Ok (b, n, root) →
  ∃ m hash blk b0 n0,
    db_read g (snapshot_key h) = Ok (Some m) ∧
    load_height_index g h = Ok (Some hash) ∧ load_block g hash = Ok (Some blk) ∧
    read_map unbincode_balances g (snap_balances_key h) = Ok b0 ∧
    read_map unbincode_nonces g (snap_nonces_key h) = Ok n0 ∧
    b = nonzero b0 ∧ n = nonzero n0 ∧ compute_state_root b n = Ok root ∧
    (h ≠ 0 → bh_state_root (b_header blk) = root).
Proof.
  unfold check_snapshot_at. intros (m & Hm & E)%bind_Ok. apply map_err_Ok in Hm.
  apply bind_Ok in E as (mb & Hmb & E). destruct m as [m|]; [|done]. injection Hmb as ->.
  apply bind_Ok in E as ([mh sh] & _ & E). destruct (negb _); [done|].
  apply bind_Ok in E as (i & Hi%map_err_Ok & E). apply bind_Ok in E as (hash & Hh & E).
  destruct i as [i|]; [|done]. injection Hh as ->. destruct (negb _); [done|].
  apply bind_Ok in E as (ob & Hb%map_err_Ok & E). apply bind_Ok in E as (blk & Hblk & E).
  destruct ob as [ob|]; [|done]. injection Hblk as ->.
  apply bind_Ok in E as (b0 & Hb0 & E). apply bind_Ok in E as (n0 & Hn0 & E). unfold normalize_snapshot_state in E.
  apply bind_Ok in E as (root' & Hr%map_err_Ok & E). apply bind_Ok in E as (stored & _ & E).
  apply bind_Ok in E as ([] & _ & E). cbv zeta in E.
  destruct (_ && _) eqn:Eb; [done|]. injection E as <- <- <-.
  exists mb, hash, blk, b0, n0. split_and!; try done. intros Hz.
  rewrite (proj2 (Z.eqb_neq h 0) Hz) in Eb. cbn [andb negb] in Eb. rewrite andb_true_r in Eb.
  by apply negb_false_iff, bool_decide_eq_true in Eb.
Qed.
End restore.

(** ** A snapshot that passes holds the accounts of the chain *)
Section sound.
Context {C : Crypto} {CL : CryptoLaws C} {TC : TxCodec} {TCL : TxCodecLaws TC} {SL : Sled} {SLL : SledLaws SL}
  {SC : StoreCodec} {SCL : StoreCodecLaws SC}.

(** What the checks rely on besides themselves, for the database [d] of the
    chain [bs]: there is no snapshot at genesis, whose state root is not
    compared; decoded maps and replayed accounts fit the program's types; and
    a stored snapshot and the chain's accounts are not a collision of the hash. *)
Record snapshots_bound (d : Db) (bs : list Block) : Prop := {
  sb_genesis : db_contents d !! snapshot_key 0 = None;
  sb_stored g h b n : db g = d → read_map unbincode_balances g (snap_balances_key h) = Ok b →
    read_map unbincode_nonces g (snap_nonces_key h) = Ok n → accounts_wf b n;
  sb_size k st : replay_blocks empty_exec (take k bs) = Ok st →
    Z.of_nat (size (es_balances st)) ≤ U64_MAX ∧ Z.of_nat (size (es_nonces st)) ≤ U64_MAX;
  sb_binding g h b n k st v w : db g = d → read_map unbincode_balances g (snap_balances_key h) = Ok b →
    read_map unbincode_nonces g (snap_nonces_key h) = Ok n →
    replay_blocks empty_exec (take k bs) = Ok st →
    canonical_state_vector b n = Ok v → canonical_state_vector (es_balances st) (es_nonces st) = Ok w →
    blake3 v = blake3 w → v = w
}.

(** The root of the last block of a replayed chain. *)
Lemma replayed_root bs b st : replay_blocks empty_exec (bs ++ [b]) = Ok st → b_number b ≠ 0 →
  compute_state_root (es_balances st) (es_nonces st) = Ok (bh_state_root (b_header b)).
Proof.
  intros (st0 & _ & E)%replay_blocks_snoc Hn. unfold replay_block in E.
  apply bind_Ok in E as (st1 & _ & E). rewrite (proj2 (Z.eqb_neq _ 0) Hn) in E. cbn [negb] in E.
  apply bind_Ok in E as (st2 & _ & E). apply bind_Ok in E as (root & Hr%map_err_Ok & E).
  case_bool_decide as Hd; cbn [negb] in E; [|done]. injection E as <-. by rewrite Hr, Hd.
Qed.

Lemma nonzero_size m : (length (bt_iter (nonzero m)) ≤ size m)%nat.
Proof.
  rewrite (Permutation_length (bt_iter_perm _)), length_map_to_list.
  unfold nonzero. apply map_size_filter.
Qed.

Lemma replayed_wf d bs k st : snapshots_bound d bs → canonical GENESIS_HASH bs → Forall loadable bs →
  replay_blocks empty_exec (take k bs) = Ok st → accounts_wf (es_balances st) (es_nonces st).
Proof.
  intros Hsb Hc Hl Hst. destruct (sb_size _ _ Hsb k st Hst) as [Hb Hn].
  destruct (replay_typed (take k bs)) with (st := empty_exec) (st' := st) as ([[Wb Wn] _] & _); try done.
  - apply Forall_take. eapply Forall_impl; [exact Hl|]. by intros x [].
  - apply Forall_take, Forall_lookup_2. intros i x Hi. rewrite (cn_number _ _ Hc _ _ Hi). lia.
  - apply accounts_typed_empty.
  - pose proof (nonzero_size (es_balances st)). pose proof (nonzero_size (es_nonces st)).
    split_and!; [exact Wb|exact Wn|lia|lia].
Qed.
Lemma compute_state_root_vector b n root : compute_state_root b n = Ok root →
  ∃ v, canonical_state_vector b n = Ok v ∧ root = hex_encode (blake3 v).
Proof. intros (v & Hv & [= <-])%bind_Ok. by exists v. Qed.

Lemma snapshot_sound d bs g h b n root : reads_ok d → snapshots_bound d bs → mirrors (db_contents d) bs →
  canonical GENESIS_HASH bs → Forall loadable bs → db g = d → 0 ≤ h < Z.of_nat (length bs) →
  check_snapshot_at g h = Ok (b, n, root) → ∀ st, replay_blocks empty_exec (take (S (Z.to_nat h)) bs) = Ok st →
  h ≠ 0 ∧ mkExec b n ≡ st.
Proof.
  intros Hr Hsb Hm Hc Hl Hd Hh E st Hst.
  apply check_snapshot_Ok in E as (m & hash & blk & b0 & n0 & E1 & E2 & E3 & Eb & En & -> & -> & Er & Hroot).
  assert (h ≠ 0) as Hz.
  { intros ->. rewrite (db_read_ok d) in E1 by done. by rewrite (sb_genesis _ _ Hsb) in E1. }
  split; [done|]. specialize (Hroot Hz).
  destruct (lookup_lt_is_Some_2 bs (Z.to_nat h)) as [x Hx]; [lia|].
  assert (x = blk) as ->.
  { pose proof (load_canonical_at_mirror d g bs _ x Hr Hd Hm Hx (Forall_lookup_1 _ _ _ _ Hl Hx)) as H.
    rewrite Z2Nat.id in H by lia. unfold load_canonical_at in H. rewrite E2 in H. cbn [mbind result_bind ok_or] in H.
    rewrite E3 in H. cbn [mbind result_bind ok_or] in H. by injection H. }
  rewrite (take_S_r _ _ _ Hx) in Hst. pose proof (cn_number _ _ Hc _ _ Hx) as Hn.
  pose proof (replayed_root _ _ _ Hst ltac:(lia)) as Hs. rewrite Hroot in Hs.
  rewrite <- (take_S_r _ _ _ Hx) in Hst.
  rewrite (compute_state_root_proper (mkExec (nonzero b0) (nonzero n0)) (mkExec b0 n0)) in Er
    by (apply exec_equiv_nonzero; cbn [es_balances es_nonces]; by rewrite !nonzero_idemp).
  apply compute_state_root_vector in Er as (v & Hv & ->). apply compute_state_root_vector in Hs as (w & Hw & Ev).
  apply (inj hex_encode) in Ev. pose proof (sb_binding _ _ Hsb g h b0 n0 _ _ v w Hd Eb En Hst Hv Hw Ev) as ->.
  destruct (canonical_state_vector_inj _ _ _ _ w (sb_stored _ _ Hsb g h b0 n0 Hd Eb En)
    (replayed_wf _ _ _ _ Hsb Hc Hl Hst) Hv Hw) as [H1 H2].
  apply exec_equiv_nonzero. cbn [es_balances es_nonces]. by rewrite !nonzero_idemp.
Qed.
End sound.

(** ** The restored node and the node that would have replayed its chain *)
Section tail.
Context {C : Crypto} {CL : CryptoLaws C} {TC : TxCodec} {TCL : TxCodecLaws TC} {SL : Sled} {SLL : SledLaws SL}
  {SR : SledReliable SL} {SC : StoreCodec} {SCL : StoreCodecLaws SC}.
Context (params : VisionXParams) (clock : nat → Z) (N : string → Z).
Abbreviation root := GENESIS_HASH.
Context (HN : N root = 0) (Hep : epoch_blocks params ≠ 0).
Abbreviation rebuilt := (Restart.rebuilt params N).
Abbreviation branch_ok := (CatchUp.branch_ok params clock N (λ _, True)).
Abbreviation stopped := (Restart.stopped params clock N).
Abbreviation like := (shadows (≡@{TxExecutionState})).

Lemma branch_ok_take bs news k : branch_ok bs news → branch_ok bs (take k news).
Proof.
  intros H i b [Hb Hi]%lookup_take_Some. specialize (H i b Hb). by rewrite take_take, Nat.min_l by lia.
Qed.
Lemma branch_ok_app bs news1 news2 : branch_ok bs (news1 ++ news2) → branch_ok (bs ++ news1) news2.
Proof.
  revert bs. induction news1 as [|b news1 IH]; intros bs H; [by rewrite app_nil_r|].
  cbn [app] in H. apply branch_ok_cons in H as [_ H]. specialize (IH _ H). by rewrite <- app_assoc in IH.
Qed.

(** What a restored state is in memory. *)
Lemma install_state d bs g b n rt h : reloaded d bs g → canonical root bs → Z.of_nat (length bs) ≤ U64_MAX →
  0 ≤ h < Z.of_nat (length bs) →
  let g' := install_snapshot b n rt h (refresh_cached_state_root_from_tip g) in
  let kept := take (S (Z.to_nat h)) bs in
  blocks g' = kept ∧ balances g' = b ∧ nonces g' = n ∧ index_ok (canon_index g') kept ∧
  work_ok (cumulative_work g') kept ∧ seen_blocks g' = list_to_set (block_hash <$> kept) ∧
  side_blocks g' = ∅ ∧ orphan_pool g' = ∅ ∧ orphan_by_hash g' = ∅ ∧ db g' = d.
Proof.
  intros [H1 _ _ _ _ (H2 & H3 & H4) _ H5] Hc Hlen Hh g' kept. subst g'. unfold install_snapshot.
  change (blocks (refresh_cached_state_root_from_tip g)) with (blocks g). rewrite H1.
  assert (wadd64 h 1 = h + 1) as -> by (apply wrap64_small; unfold u64; lia).
  assert ((if h + 1 <? Z.of_nat (length bs) then take (Z.to_nat (h + 1)) bs else bs) = kept) as ->.
  { unfold kept. replace (S (Z.to_nat h)) with (Z.to_nat (h + 1)) by lia.
    destruct (Z.ltb_spec (h + 1) (Z.of_nat (length bs))); [done|]. by rewrite take_ge by lia. }
  destruct (rebuild_maps 0 ∅ ∅ kept) as [index work] eqn:E.
  apply (rebuild_maps_ok root kept []) in E; [|by apply canonical_take|apply index_ok_nil|by intros i x Hi].
  destruct E as [Hi Hw]. by split_and!.
Qed.

Lemma index_ok_unique m m' bs : index_ok m bs → index_ok m' bs → m = m'.
Proof. intros H H'. apply map_eq. intros k. apply option_eq. intros v.
  unfold index_ok in *. by rewrite H, H'.
Qed.

(** A state with the blocks of one that has applied them, and with maps and
    accounts that are right for those blocks, is as good. *)
Lemma rebuilt_transfer s1 g bs st :
  rebuilt s1 bs → bs ≠ [] → hd_error bs = Some genesis_block →
  blocks g = bs → index_ok (canon_index g) bs → work_ok (cumulative_work g) bs →
  seen_blocks g = list_to_set (block_hash <$> bs) → side_blocks g = ∅ → orphan_pool g = ∅ →
  replay_blocks empty_exec bs = Ok st →
  rebuilt (fresh_node (on (mkView (db (n_chain s1)) st) g)) bs.
Proof.
  intros [Hn Hb Hs Hp Hse Hr Hv] Hne Hg0 Eb Hi Hw Es Esd Ep Hst. pose proof (no_chain _ _ _ Hn) as Hg.
  specialize (Hr Hne). specialize (Hv Hne). set (g1 := on _ g).
  assert (∀ x, holds g1 x ↔ holds (n_chain s1) x) as Hh.
  { intros x. unfold holds. cbn [g1 on set_db set_accounts blocks side_blocks]. by rewrite Eb, Esd, Hb, Hs. }
  assert (∀ l x, Consistency.ancestry root g1 l x ↔ Consistency.ancestry root (n_chain s1) l x) as Ha.
  { intros l x. unfold Consistency.ancestry. rewrite !Forall_forall. by setoid_rewrite Hh. }
  assert (∀ k, known g1 k → known (n_chain s1) k) as Hk.
  { intros k. unfold known. cbn [g1 on set_db set_accounts canon_index side_blocks]. rewrite Esd, Hs.
    rewrite (index_ok_unique _ (canon_index (n_chain s1)) bs Hi); [done|]. rewrite <- Hb. apply (co_index _ _ _ Hg). }
  split; cbn [fresh_node n_chain n_datasets]; try done; [| |].
  - split; cbn [fresh_node n_chain n_datasets]; [|apply cache_ok_empty|].
    2: { split; cbn [g1 on set_db set_accounts orphan_pool]; rewrite Ep; [|vm_compute; discriminate].
      intros k e (es & He & _). by rewrite lookup_empty in He. }
    pose proof Hg as [G1 G2 G3 G4 G5 G6 G7 G8 G9]. rewrite Hb in G1, G2, G3, G7, G9.
    split; cbn [g1 on set_db set_accounts blocks canon_index side_blocks seen_blocks cumulative_work balances nonces db v_db v_accounts].
    + by rewrite Eb.
    + by rewrite Eb.
    + by rewrite Eb.
    + rewrite Esd. intros k x Hx. by rewrite lookup_empty in Hx.
    + intros k Hkn Hkr. rewrite Es, <- Hse. by apply G5; [apply Hk|].
    + intros _ b [Hb'|Hb'] Hz; cbn [g1 on set_db set_accounts blocks side_blocks] in Hb';
        [|by rewrite Esd, lookup_empty in Hb'].
      rewrite Eb in Hb'. apply list_elem_of_lookup in Hb' as [[|i] Hi'].
      { pose proof (cn_number _ _ G1 _ _ Hi'). lia. }
      destruct (lookup_lt_is_Some_2 bs i) as [p Hp']; [apply lookup_lt_Some in Hi'; lia|].
      rewrite (cn_link _ _ G1 _ _ _ Hp' Hi'), (Hw _ _ Hi'), (Hw _ _ Hp'). cbn [default].
      by rewrite (take_S_r _ _ _ Hi'), chain_work_app.
    + exists st. rewrite Eb. split; [done|by destruct st].
    + intros x Hx. destruct (G8 x) as (l & st' & Hl & Hl'); [by apply Hh|]. exists l, st'. split; [by apply Ha|done].
    + by rewrite Eb.
  - intros _. apply (rules_ok_ext params (n_chain s1)); [by rewrite Hb|by rewrite Hs|exact Hr].
  - intros _. destruct Hv as [_ Hv]. destruct bs as [|b0 bs]; [done|]. injection Hg0 as ->.
    split; cbn [g1 on set_db set_accounts blocks cumulative_work].
    + exists genesis_block. rewrite Eb. split; [done|].
      rewrite (Hw 0%nat genesis_block eq_refl : cumulative_work g !! root = _). vm_compute. reflexivity.
    + intros l x Hl. rewrite Eb, <- Hb. apply (Hv l x). by apply Ha.
Qed.

(** The node after the restoration, next to one that applied the blocks. *)
Lemma restored_shadow d0 n news g h b nn rt st :
  let bs := genesis_block :: news in
  let kept := take (S (Z.to_nat h)) bs in
  db_contents d0 = ∅ → stopped n news → reloaded (db (n_chain n)) bs g → 0 ≤ h < Z.of_nat (length bs) →
  replay_blocks empty_exec kept = Ok st → mkExec b nn ≡ st →
  let g' := install_snapshot b nn rt h (refresh_cached_state_root_from_tip g) in
  ∃ s, like (db (n_chain n)) (fresh_node g') s ∧ rebuilt s kept.
Proof.
  intros bs kept Hd0 Hrs Hrl Hh Hst Heq g'. pose proof (no_chain _ _ _ (rs_node _ _ _ _ _ Hrs)) as Hg.
  pose proof (co_canon _ _ _ Hg) as Hc. pose proof (co_blocks _ _ _ Hg) as Hbl. rewrite (rs_blocks _ _ _ _ _ Hrs) in Hc, Hbl.
  fold bs in Hc, Hbl.
  assert (Z.of_nat (length bs) ≤ U64_MAX) as Hlen.
  { destruct (last bs) as [t|] eqn:Hl; [|by apply last_None in Hl]. pose proof (canonical_last _ _ _ Hc Hl) as Ht.
    apply last_Some_elem_of in Hl. rewrite Forall_forall in Hbl. pose proof (bo_range _ _ _ (Hbl t Hl)). lia. }
  destruct (install_state (db (n_chain n)) bs g b nn rt h Hrl Hc Hlen Hh)
    as (E1 & E2 & E3 & E4 & E5 & E6 & E7 & E8 & _ & E9). fold g' kept in E1, E2, E3, E4, E5, E6, E7, E8, E9.
  assert (kept = genesis_block :: take (Z.to_nat h) news) as Ek by done.
  destruct (reapply_chain params clock N HN Hep eq d0 (take (Z.to_nat h) news) (fresh_node (empty_state d0))
    (fresh_node (empty_state d0))) as (_ & s1 & _ & _ & H1).
  - split; [done|]. split; [|done]. intros k _. by left.
  - by apply empty_rebuilt; [|apply cache_ok_empty].
  - apply branch_ok_take, (stopped_branch _ _ _ _ _ Hrs).
  - rewrite <- Ek. unfold kept. apply (cn_nodup _ _ (canonical_take _ _ _ Hc)).
  - rewrite <- Ek in H1.
    exists (fresh_node (on (mkView (db (n_chain s1)) st) g')). split.
    + split.
      * change (fresh_node g' = fresh_node (on (view_of g') (on (mkView (db (n_chain s1)) st) g'))).
        by rewrite on_on, on_view_of.
      * split; [|change (mkExec (balances g') (nonces g') ≡ mkExec (es_balances st) (es_nonces st));
                 rewrite E2, E3; by destruct st].
        intros k _. right. change (db_contents (db g') !! k = db_contents (db (n_chain n)) !! k). by rewrite E9.
    + by apply rebuilt_transfer.
Qed.

(** ** An extension leaves the stored chain it belongs to in place *)
Lemma lane_a_stores g blk st cw g' r i bs k : lane_a g blk st cw = (g', r, i) →
  bs !! k = Some blk → canonical root bs → stores bs (db_contents (db g)) → stores bs (db_contents (db g')).
Proof.
  intros E Hk Hc Hs. pose proof (cn_number _ _ Hc _ _ Hk) as Hn. unfold lane_a in E.
  destruct (persist_canonical_extension blk g) as [g1 [[]|e]] eqn:E1.
  2: { apply db_batch_Err in E1 as [Ec _]. injection E as <- _ _. by rewrite Ec. }
  apply db_batch_Ok in E1 as [Ec _]. set (g2 := push_canonical _ blk cw) in E.
  destruct (maybe_save_snapshot g2) as [g3 r3] eqn:E3. injection E as <- _ _. cbn [fst].
  apply (maybe_save_snapshot_db_only (stores bs) (stores_ignores_snapshots bs) g2 g3 r3 E3).
  change (stores bs (db_contents (db g1))). rewrite Ec. unfold tip_hash_key, tip_height_key.
  cbn [batch_ops fold_left batch_op]. intros j b Hj. destruct (Hs _ _ Hj) as [H1 H2].
  pose proof (cn_number _ _ Hc _ _ Hj) as Hnj. rewrite Hn. split; db_lookup.
  - destruct (decide (j = k)) as [->|Hne].
    + rewrite lookup_insert_eq. by rewrite Hk in Hj; injection Hj as ->.
    + rewrite lookup_insert_ne; [db_lookup; done|]. intros E%height_key_inj; lia.
  - destruct (decide (block_hash b = block_hash blk)) as [Eh|Hne].
    + rewrite Eh, lookup_insert_eq. by rewrite (canonical_hash_inj _ _ _ _ _ _ Hc Hj Hk Eh) in Hj;
        rewrite Hk in Hj; injection Hj as ->.
    + rewrite lookup_insert_ne; [done|]. by intros ?%block_key_inj.
Qed.

Lemma apply_core_stores n blk src m r i bs k : apply_core params clock n blk src = Done (m, CanonExtension r, i) →
  b_number blk ≠ 0 → b_parent blk = tip_hash (n_chain n) → bs !! k = Some blk → canonical root bs →
  stores bs (db_contents (db (n_chain n))) → stores bs (db_contents (db (n_chain m))).
Proof.
  intros E Hz Hp Hk Hc Hs. unfold apply_core in E. cbn [n_chain] in E.
  destruct (check_structure _ _); [|done]. rewrite (proj2 (Z.eqb_neq _ 0) Hz) in E.
  destruct (_ && _); [done|]. destruct (resolve_block _ _) as [p|]; [|done]. unfold apply_with_parent in E.
  destruct (check_monotonic _ _); [|done]. cbn [read_clock n_chain n_pow n_datasets n_ticks] in E.
  destruct (_ ≫= _); [|done]. destruct (verify_visionx_pow _ _ _) as [[c pow]| |]; [|done..].
  cbn [mbind run_bind] in E. destruct pow; [|done].
  destruct (check_coinbase_height _) as [cbh| |]; [|done..]. cbn [mbind run_bind] in E.
  destruct (_ ≫= _); [|done]. destruct (parent_state _ _ _) as [ps| |]; [|done..]. cbn [mbind run_bind] in E.
  destruct (_ ≫= _) as [st|]; [|done]. rewrite (bool_decide_true _ Hp) in E.
  destruct (lane_a _ _ _ _) as [[g' r'] i'] eqn:El. cbn [mbind run_bind] in E. injection E as <- _ _.
  cbn [set_chain n_chain]. by eapply lane_a_stores.
Qed.

(** ** Replaying the stored tail *)
Context (Hread : ∀ d, reads_ok d).

Lemma replay_heights_run d0 bs rest : ∀ pre real s,
  bs = pre ++ rest → pre ≠ [] → like d0 real s → rebuilt s pre → stores bs (db_contents (db (n_chain real))) →
  branch_ok pre rest → canonical root bs → Forall loadable bs →
  ∃ real' s', replay_heights params clock (length rest) (Z.of_nat (length pre)) real = Done (real', Ok ()) ∧
    like d0 real' s' ∧ rebuilt s' bs.
Proof.
  induction rest as [|b rest IH]; intros pre real s E Hne Hsh Hrb Hst Hbr Hc Hl; cbn [replay_heights length].
  { exists real, s. by rewrite E, app_nil_r. }
  assert (bs !! length pre = Some b) as Hb by (rewrite E; by rewrite list_lookup_middle).
  pose proof (cn_number _ _ Hc _ _ Hb) as Hn.
  rewrite (load_block_at_mirror (db (n_chain real)) (n_chain real) bs (length pre) b (Hread _) eq_refl Hst Hb
    (Forall_lookup_1 _ _ _ _ Hl Hb) Hn).
  apply branch_ok_cons in Hbr as [Hbn Hbr].
  assert (block_hash b ∉ block_hash <$> pre) as Hnew.
  { pose proof (cn_nodup _ _ Hc) as Hnd. rewrite E, fmap_app in Hnd. apply NoDup_app in Hnd as (_ & Hd & _).
    intros Hin. apply (Hd _ Hin). by left. }
  destruct (rebuild_next params clock N HN Hep s pre b Hrb Hne Hbn Hnew) as (s1 & i & Ec & Hrb1).
  destruct (reapply_step params clock N (≡) _ _ _ _ _ _ _ Hsh Ec Hrb1)
    as (real1 & s2 & E1 & Hsh2 & Hrb2 & m & Em & Edb).
  rewrite <- Hn, E1. cbn [mbind run_bind]. rewrite Hn.
  replace (Z.of_nat (length pre) + 1) with (Z.of_nat (length (pre ++ [b]))) by (rewrite length_app; simpl; lia).
  apply (IH (pre ++ [b]) real1 s2); [by rewrite <- app_assoc|by destruct pre|done|done| |done|done|done].
  rewrite Edb. eapply (apply_core_stores _ _ _ _ _ _ bs (length pre) Em); [apply (bn_number _ _ _ _ _ _ Hbn)| |done|done|done].
  destruct Hsh as [-> _]. unfold tip_hash. cbn [node_on set_chain n_chain on set_db set_accounts blocks].
  rewrite (rb_blocks _ _ _ _ Hrb). destruct (last pre) as [t|] eqn:Ht; [|by apply last_None in Ht].
  apply (bn_parent _ _ _ _ _ _ Hbn t Ht).
Qed.

(** Recovery after a snapshot at [h] was restored. *)
Lemma recover_run d0 n news g h b nn rt :
  let bs := genesis_block :: news in
  db_contents d0 = ∅ → stopped n news → snapshots_bound (db (n_chain n)) bs →
  reloaded (db (n_chain n)) bs g → 0 ≤ h ≤ Z.of_nat (length news) →
  let g1 := refresh_cached_state_root_from_tip g in
  check_snapshot_at g1 h = Ok (b, nn, rt) →
  ∃ n' s, recover_tail params clock (Z.of_nat (length news)) (Ok h) (fresh_node (install_snapshot b nn rt h g1)) =
      Done (n', Ok ()) ∧ like (db (n_chain n)) n' s ∧ rebuilt s bs.
Proof.
  intros bs Hd0 Hrs Hsb Hrl Hh g1 Hck. pose proof (no_chain _ _ _ (rs_node _ _ _ _ _ Hrs)) as Hg.
  pose proof (co_canon _ _ _ Hg) as Hc. pose proof (co_blocks _ _ _ Hg) as Hbl. pose proof (stopped_mirrors _ _ _ _ _ Hrs) as Hm.
  destruct (co_accounts _ _ _ Hg) as (sa & Hacc & _).
  rewrite (rs_blocks _ _ _ _ _ Hrs) in Hc, Hbl, Hacc. fold bs in Hc, Hbl, Hm, Hacc.
  set (kept := take (S (Z.to_nat h)) bs).
  assert (∃ st, replay_blocks empty_exec kept = Ok st) as [st Hst].
  { rewrite <- (take_drop (S (Z.to_nat h)) bs) in Hacc. apply replay_blocks_app in Hacc as (st & Hst & _). by exists st. }
  assert (Forall loadable bs) as Hl by (eapply Forall_impl; [exact Hbl|by intros x []]).
  assert (0 ≤ h < Z.of_nat (length bs)) as Hh' by (subst bs; simpl; lia).
  destruct (snapshot_sound (db (n_chain n)) bs g1 h b nn rt (Hread _) Hsb Hm Hc Hl (rl_db _ _ _ Hrl) Hh' Hck st Hst) as [Hz Heq].
  destruct (restored_shadow d0 n news g h b nn rt st Hd0 Hrs Hrl Hh' Hst Heq) as (s & Hsh & Hrb).
  fold g1 in Hsh. change (rebuilt s kept) in Hrb. set (g2 := install_snapshot b nn rt h g1) in *.
  assert (db g2 = db (n_chain n)) as Edb.
  { unfold g2, install_snapshot. destruct (rebuild_maps _ _ _ _). apply (rl_db _ _ _ Hrl). }
  assert (load_tip_height g2 = Ok (Z.of_nat (length news))) as Eth.
  { destruct (last bs) as [t|] eqn:Ht; [|by apply last_None in Ht].
    pose proof (canonical_last _ _ _ Hc Ht) as Htn. pose proof Ht as Hin%last_Some_elem_of.
    rewrite Forall_forall in Hbl. pose proof (bo_range _ _ _ (Hbl t Hin)). subst bs. simpl length in Htn.
    replace (Z.of_nat (length news)) with (b_number t) by lia.
    eapply load_tip_height_mirror; [apply Hread|exact Edb|exact Hm|exact Ht|lia]. }
  unfold recover_tail, replay_stored_canonical_tail. cbn [fresh_node n_chain]. rewrite Eth.
  destruct (Z.leb_spec (Z.of_nat (length news)) h) as [Hle|Hlt]; cbn [mbind run_bind result_bind].
  - assert (kept = bs) as Ek by (unfold kept; apply take_ge; subst bs; simpl; lia). rewrite Ek in Hrb.
    eexists _, _. split; [done|]. split; [exact (shadows_refresh _ _ _ _ Hsh)|by apply rebuilt_refresh].
  - assert (length kept = S (Z.to_nat h)) as Elen by (unfold kept; apply length_take_le; subst bs; simpl; lia).
    destruct (replay_heights_run (db (n_chain n)) bs (drop (S (Z.to_nat h)) bs) kept (fresh_node g2) s)
      as (n' & s' & E & Hsh' & Hrb'); try done.
    + symmetry. apply take_drop.
    + cbn [fresh_node n_chain]. rewrite Edb. by apply mirrors_stores.
    + apply (branch_ok_app [genesis_block] (take (Z.to_nat h) news)).
      change (drop (S (Z.to_nat h)) bs) with (drop (Z.to_nat h) news). rewrite take_drop.
      apply (stopped_branch _ _ _ _ _ Hrs).
    + rewrite length_drop, Elen in E.
      replace (length bs - S (Z.to_nat h))%nat with (Z.to_nat (Z.of_nat (length news) - h)) in E by (subst bs; simpl; lia).
      replace (Z.of_nat (S (Z.to_nat h))) with (h + 1) in E by lia. rewrite E. by exists n', s'.
Qed.

(** ** What blocks tell apart *)

(** The verdicts on a sequence of blocks with their senders. *)
Fixpoint verdicts (n : Node) (l : list (Block * option string)) : run (list AcceptResult) :=
  match l with
  | [] => Done []
  | (blk, src) :: l =>
      '(n, r) ← apply_block params clock n blk src;
      rs ← verdicts n l; Done (r :: rs)
  end.
Lemma like_verdicts d0 l : ∀ n m, like d0 n m → verdicts n l = verdicts m l.
Proof.
  induction l as [|[blk src] l IH]; intros n m [En Hv]; [done|]. cbn [verdicts].
  pose proof (apply_block_on params clock (≡) (overlay d0) (view_of (n_chain n)) (view_of (n_chain m)) m blk src Hv) as H.
  assert (node_on (view_of (n_chain m)) m = m) as Em by (destruct m as [[] ? ? ?]; done).
  rewrite <- En, Em in H.
  destruct (apply_block params clock n blk src) as [[n' r]| |], (apply_block params clock m blk src) as [[m' r']| |];
    try done.
  destruct H as (x & a & d & d' & [= -> ->] & [= -> ->] & HR). cbn [mbind run_bind].
  rewrite (IH (node_on d x) (node_on d' x)); [done|].
  by destruct x as [[] ? ? ?], d as [? []], d' as [? []].
Qed.

(** The node with other accounts. *)
Definition with_accounts (st : TxExecutionState) (n : Node) : Node :=
  set_chain (set_accounts (es_balances st) (es_nonces st) (n_chain n)) n.
Lemma verdicts_accounts st n l : accounts (n_chain n) ≡ st → verdicts (with_accounts st n) l = verdicts n l.
Proof.
  intros H. apply (like_verdicts (db (n_chain n))). split; [by destruct n as [[] ? ? ?]|].
  split; [intros k _; by left|]. symmetry. by destruct st.
Qed.

(** Starting on the database of a stopped node. *)
Lemma restart_run d0 n news :
  db_contents d0 = ∅ → validate_genesis_hash = Ok () → stopped n news →
  snapshots_bound (db (n_chain n)) (blocks (n_chain n)) →
  ∃ n', initialize_chain_state params clock (db (n_chain n)) = Done (db (n_chain n'), Ok n') ∧
    node_ok params N n' ∧ rules_ok params (n_chain n') ∧ heaviest (n_chain n') ∧
    blocks (n_chain n') = blocks (n_chain n).
Proof.
  intros Hd0 Hv Hrs Hsb. pose proof (rs_blocks _ _ _ _ _ Hrs) as Eb.
  destruct (open_run params clock N n news Hv Hrs) as (g & Hrl & _ & ->). cbv zeta.
  destruct (restore_latest_snapshot _ _) as [g' r] eqn:Er. apply restore_latest_cases in Er. destruct r as [h|e].
  - destruct Er as (Hh & b & nn & rt & Hck & ->). rewrite Eb in Hsb.
    destruct (recover_run d0 n news g h b nn rt Hd0 Hrs Hsb Hrl Hh Hck) as (n' & m & -> & Hlk & Hrb).
    exists n'. split; [done|]. rewrite Eb. apply (rebuilt_shadow params N _ _ _ _ Hlk Hrb); [done|].
    exact (stopped_mirrors _ _ _ _ _ Hrs).
  - subst g'. destruct (restart_rebuild params clock N HN Hep d0 n news g e Hd0 Hrs Hrl) as (n' & -> & H).
    by exists n'.
Qed.

(** ** Properties *)

(** C37: Restarting from stored snapshots loses nothing, as long as the
    stored snapshots are bound to the chain ([snapshots_bound]): none is at
    height 0, their maps and the replayed accounts fit the program's types,
    and none collides with the chain's accounts under the hash.  When a
    consistent node stops whose blocks are not beyond the clock's limit, over a
    readable database that refuses no write, starting again on its database
    succeeds without panic, from the newest snapshot that passes its checks
    or, without one, from genesis.  The new node is consistent, every consensus
    rule holds on its chain, which is the one the stopped node had and a
    heaviest branch; and every balance and nonce is the one the stopped node
    had.  A snapshot drops the entries that are zero, but no sequence of blocks
    tells the new node from the same node with the accounts exactly as the
    stopped one had them.  (A development airdrop at genesis does save a
    snapshot of height 0, which a restart installs without comparing its root:
    [is_genesis_dev_snapshot].  That case is excluded.) *)
Theorem restart_from_snapshots d0 n news :
  db_contents d0 = ∅ → validate_genesis_hash = Ok () → stopped n news →
  snapshots_bound (db (n_chain n)) (blocks (n_chain n)) →
  ∃ n', initialize_chain_state params clock (db (n_chain n)) = Done (db (n_chain n'), Ok n') ∧
    node_ok params N n' ∧ rules_ok params (n_chain n') ∧ heaviest (n_chain n') ∧
    blocks (n_chain n') = blocks (n_chain n) ∧ accounts (n_chain n') ≡ accounts (n_chain n) ∧
    ∀ l, verdicts (with_accounts (accounts (n_chain n)) n') l = verdicts n' l.
Proof.
  intros Hd0 Hv Hrs Hsb. destruct (restart_run d0 n news Hd0 Hv Hrs Hsb) as (n' & E & Hn & Hr & Hh & Hb).
  pose proof (same_accounts params N n n' (rs_node _ _ _ _ _ Hrs) Hn Hb) as Ha.
  exists n'. split_and!; [done..|]. intros l. by apply verdicts_accounts.
Qed.
End tail.

(** ** A restart from a snapshot, evaluated *)
Section rooted_restore.
#[local] Existing Instances rooted_crypto rooted_crypto_laws toy_steady toy_steady_laws toy_steady_reliable.

(** The accounts of the node of [Restart] with one more, empty, account; and
    the node with a snapshot of them. *)
Definition snap_balances : gmap string Z := <[toy_addr 18 := 0]> (balances (n_chain rooted_node)).
Definition snap_db : Db :=
  db (save_snapshot 1 (set_accounts snap_balances (nonces (n_chain rooted_node)) (n_chain rooted_node))).1.
Definition snap_node : Node := with_db snap_db rooted_node.

(** The snapshot is the one that is restored. *)
Example snapshot_restored :
  match open_with_genesis snap_db with
  | Ok g => res_ok (restore_latest_snapshot 1 g).2
  | Err _ => None
  end = Some 1.
Proof. vm_compute. reflexivity. Qed.

Lemma snap_mirrors : mirrors (db_contents snap_db) (blocks (n_chain rooted_node)).
Proof.
  pose proof (co_db _ _ _ (no_chain _ _ _ (rs_node _ _ _ _ _ rooted_stopped))) as Hm.
  unfold snap_db. revert Hm. generalize (n_chain rooted_node). intros g Hm.
  destruct (save_snapshot 1 _) as [g' r] eqn:E.
  refine (proj2 (save_snapshot_db_only (λ c, mirrors c (blocks g)) (mirrors_ignores_snapshots _) 1 _ _ _ E _)).
  exact Hm.
Qed.
Lemma snap_stopped : stopped tiny_params toy_clock toy_N snap_node [toy_b1].
Proof.
  pose proof snap_mirrors as Hm.
  assert (db_contents snap_db !! meta_key "genesis_hash" = Some (string_bytes GENESIS_HASH)) as Hg
    by (vm_compute; reflexivity).
  unfold snap_node. revert Hm Hg. generalize snap_db. generalize rooted_stopped. generalize rooted_node.
  intros n [[Hc Hd Ho] Hr Hb _ _ Ht] d Hm Hg. split; try done.
  - split; [by apply chain_ok_set_db|done|by apply (orphans_ok_pool tiny_params toy_N (n_chain n))].
  - intros k. eexists. reflexivity.
Qed.

(** The only stored maps are those at height 1. *)
Lemma stored_only p : forallb (λ e : list byte * list byte, negb (has_prefix (string_bytes p) e.1) || bool_decide (e.1 = string_bytes (p +:+ "1")))
    (map_to_list (db_contents snap_db)) = true →
  ∀ k, has_prefix (string_bytes p) k = true →
  db_contents snap_db !! k = None ∨ k = string_bytes (p +:+ "1").
Proof.
  rewrite forallb_forall. intros H k Hk. destruct (db_contents snap_db !! k) as [v|] eqn:E; [right|by left].
  apply elem_of_map_to_list, list_elem_of_In in E. specialize (H _ E). cbn [fst] in H. rewrite Hk in H.
  by apply bool_decide_eq_true in H.
Qed.
Lemma read_map_cases p decode g h m m1 : db g = snap_db →
  (∀ k, has_prefix (string_bytes p) k = true → db_contents snap_db !! k = None ∨ k = string_bytes (p +:+ "1")) →
  has_prefix (string_bytes p) h = true → decode <$> (db_contents snap_db !! string_bytes (p +:+ "1")) = Some (Some m1) →
  read_map decode g h = Ok m → m = ∅ ∨ m = m1.
Proof.
  intros Hd Hk Hp H1 E. unfold read_map, db_read in E. rewrite Hd in E. cbn [db_get toy_steady] in E.
  change (snap_db !! h) with (db_contents snap_db !! h) in E.
  destruct (Hk h Hp) as [Hn| ->]; [left|right].
  - rewrite Hn in E. cbn in E. by injection E.
  - destruct (db_contents snap_db !! _) as [v|] in E, H1; [|done]. cbn in H1, E. injection H1 as H1. rewrite H1 in E.
    by injection E.
Qed.
Lemma stored_balances g h m : db g = snap_db → read_map unbincode_balances g (snap_balances_key h) = Ok m →
  m ∈ [∅; snap_balances].
Proof.
  intros Hd E. apply (read_map_cases "snap:balances:" _ g _ m snap_balances) in E as [->| ->]; [left|right; left|done|..].
  - apply stored_only. vm_compute. reflexivity.
  - reflexivity.
  - assert (bool_decide (unbincode_balances <$> db_contents snap_db !! string_bytes "snap:balances:1" =
      Some (Some snap_balances)) = true) as H by (vm_compute; reflexivity). by apply bool_decide_eq_true in H.
Qed.
Lemma stored_nonces g h m : db g = snap_db → read_map unbincode_nonces g (snap_nonces_key h) = Ok m → m ∈ [∅ : gmap string Z].
Proof.
  intros Hd E. apply (read_map_cases "snap:nonces:" _ g _ m ∅) in E as [->| ->]; [left|left|done|..].
  - apply stored_only. vm_compute. reflexivity.
  - reflexivity.
  - assert (bool_decide (unbincode_nonces <$> db_contents snap_db !! string_bytes "snap:nonces:1" =
      Some (Some ∅)) = true) as H by (vm_compute; reflexivity). by apply bool_decide_eq_true in H.
Qed.

(** The accounts of the chain's prefixes. *)
Definition rooted_states : list TxExecutionState :=
  omap (λ k, res_ok (replay_blocks empty_exec (take k [genesis_block; toy_b1]))) [0; 1; 2]%nat.
Lemma replayed_states k st : replay_blocks empty_exec (take k [genesis_block; toy_b1]) = Ok st → st ∈ rooted_states.
Proof.
  intros E. apply list_elem_of_omap. destruct k as [|[|k]]; [exists 0%nat|exists 1%nat|exists 2%nat].
  - split; [left|by rewrite E].
  - split; [right; left|by rewrite E].
  - split; [right; right; left|]. cbn [take] in E |- *. rewrite firstn_nil in E. by rewrite E.
Qed.

Lemma snap_bound : snapshots_bound snap_db [genesis_block; toy_b1].
Proof.
  split.
  - vm_compute. reflexivity.
  - intros g h b n Hd Hb%stored_balances Hn%stored_nonces; [|done..].
    apply list_elem_of_singleton in Hn as ->. apply accounts_wf_check.
    assert (forallb (λ b, accounts_check b ∅) [∅; snap_balances] = true) as H by (vm_compute; reflexivity).
    rewrite forallb_forall in H. exact (H b (proj1 (list_elem_of_In _ _) Hb)).
  - intros k st Hst%replayed_states.
    assert (forallb (λ st, (Z.of_nat (size (es_balances st)) <=? U64_MAX) && (Z.of_nat (size (es_nonces st)) <=? U64_MAX))
      rooted_states = true) as H by (vm_compute; reflexivity).
    rewrite forallb_forall in H. specialize (H st (proj1 (list_elem_of_In _ _) Hst)). bools. by split.
  - intros g h b n k st v w Hd Hb%stored_balances Hn%stored_nonces Hst%replayed_states Ev Ew Eh; [|done..].
    apply list_elem_of_singleton in Hn as ->.
    assert (forallb (λ b, forallb (λ st,
      match canonical_state_vector b ∅, canonical_state_vector (es_balances st) (es_nonces st) with
      | Ok v, Ok w => negb (bool_decide (blake3 v = blake3 w)) || bool_decide (v = w)
      | _, _ => true
      end) rooted_states) [∅; snap_balances] = true) as H by (vm_compute; reflexivity).
    rewrite forallb_forall in H. specialize (H b (proj1 (list_elem_of_In _ _) Hb)).
    rewrite forallb_forall in H. specialize (H st (proj1 (list_elem_of_In _ _) Hst)).
    rewrite Ev, Ew, (bool_decide_true _ Eh) in H. by apply bool_decide_eq_true in H.
Qed.

Lemma with_db_fields d n : db (n_chain (with_db d n)) = d ∧
  balances (n_chain (with_db d n)) = balances (n_chain n) ∧ nonces (n_chain (with_db d n)) = nonces (n_chain n).
Proof. done. Qed.
Lemma snap_bound_blocks bs : bs = [genesis_block; toy_b1] →
  snapshots_bound (db (n_chain (with_db snap_db rooted_node))) bs.
Proof. intros ->. rewrite (proj1 (with_db_fields snap_db rooted_node)). exact snap_bound. Qed.

Lemma restart_from_snapshots_witness :
  ∃ n', initialize_chain_state tiny_params toy_clock snap_db = Done (db (n_chain n'), Ok n') ∧
    node_ok tiny_params toy_N n' ∧ blocks (n_chain n') = [genesis_block; toy_b1] ∧
    accounts (n_chain n') ≡ mkExec (balances (n_chain rooted_node)) (nonces (n_chain rooted_node)).
Proof.
  assert (blocks (n_chain snap_node) = [genesis_block; toy_b1]) as Eb by exact (rs_blocks _ _ _ _ _ snap_stopped).
  destruct (restart_from_snapshots tiny_params toy_clock toy_N eq_refl ltac:(discriminate)
    (λ d k, ex_intro _ _ eq_refl) (∅ : contents_map) snap_node [toy_b1] eq_refl ltac:(vm_compute; reflexivity)
    snap_stopped (snap_bound_blocks _ Eb)) as (n' & E & Hn & _ & _ & Hb & Ha & _).
  destruct (with_db_fields snap_db rooted_node) as (F1 & F2 & F3). unfold snap_node in E, Ha. rewrite F1 in E.
  unfold accounts in Ha at 2. rewrite F2, F3 in Ha.
  exists n'. split; [exact E|]. split; [exact Hn|]. split; [by rewrite Hb, Eb|exact Ha].
Defined.
End rooted_restore.
