(* ===== verification/Settings.v ===== *)
(** * Settings ([src/config/settings.rs])

    From the environment variables to the settings record, with the automatic
    peer-to-peer port ([resolve_auto_p2p_settings_for_ip] of
    [src/node/services.rs]) and the worker count ([src/node/runtime.rs]).  The
    environment is a function from names to values; a value that is not
    Unicode reads as absent, as [std::env::var(..).ok()] makes it. *)
From S2P Require Import Prelude Crypto Constants Net.

Record Settings := mkSettings {
  data_dir : string;
  http_addr : string;
  p2p_addr : string;
  p2p_auto_port : bool;
  p2p_advertised_host : option string;
  p2p_advertised_port : option Z;
  p2p_advertised_port_auto : bool;
  allow_private_peer_addresses : bool;
  miner_address : string;
  mining_enabled : bool;
  mining_threads : Z;
  alpha_airdrop_enabled : bool;
  seed_peers : list string
}.
Record RawSettings := mkRaw {
  raw_data_dir : option string;
  raw_http_port : option string;
  raw_p2p_port : option string;
  raw_p2p_advertised_host : option string;
  raw_p2p_advertised_port : option string;
  raw_allow_private_peer_addresses : option string;
  raw_miner_address : option string;
  raw_mining_enabled : option string;
  raw_mining_threads : option string;
  raw_alpha_airdrop_enabled : option string;
  raw_seed_peers : option string
}.
Definition raw_from_source (read : string → option string) : RawSettings :=
  mkRaw (read "VISION_DATA_DIR") (read "VISION_HTTP_PORT") (read "VISION_P2P_PORT")
    (read "VISION_P2P_ADVERTISED_HOST") (read "VISION_P2P_ADVERTISED_PORT")
    (read "VISION_ALLOW_PRIVATE_PEERS") (read "VISION_MINER_ADDRESS") (read "VISION_MINING")
    (read "VISION_MINING_THREADS") (read "VISION_ALPHA_AIRDROP_ENABLED") (read "VISION_SEED_PEERS").

Inductive SettingsError :=
| InvalidBoolean (name value : string)
| InvalidAdvertisedHost (value : string)
| InvalidAdvertisedPort (value : string)
| AdvertisedHostWithoutPort (value : string)
| AdvertisedPortWithoutHost (value : string)
| InvalidSeedPeersValue (value : string)
| InvalidSeedPeerEntry (value : string).

(** The port, and whether it is to be derived from the routed address. *)
Definition parse_p2p_port (raw : option string) : Z * bool :=
  match raw with
  | Some value =>
      if eq_ignore_ascii_case value "auto" then (0, true)
      else (default DEFAULT_P2P_PORT (parse_uint U16_MAX value), false)
  | None => (DEFAULT_P2P_PORT, false)
  end.

Definition parse_explicit_bool (name : string) (raw : option string) (deflt : bool)
    : result SettingsError bool :=
  match raw with
  | None => Ok deflt
  | Some value =>
      if eq_ignore_ascii_case value "true" then Ok true
      else if eq_ignore_ascii_case value "false" then Ok false
      else Err (InvalidBoolean name value)
  end.

Definition is_advertised_host_char (c : ascii) : bool :=
  let z := ascii_Z c in
  (97 <=? z) && (z <=? 122) || (65 <=? z) && (z <=? 90) || (48 <=? z) && (z <=? 57)
  || (z =? 46) || (z =? 45).
Definition parse_advertised_host (value : string) : result SettingsError string :=
  let host := trim value in
  if bool_decide (host = "") then Err (InvalidAdvertisedHost value)
  else if negb (string_forallb (λ c, negb (Ascii.eqb c ":")) host) && negb (bool_decide (is_Some (parse_ip host)))
  then Err (InvalidAdvertisedHost value)
  else if bool_decide (is_Some (parse_ip host)) || string_forallb is_advertised_host_char host then Ok host
  else Err (InvalidAdvertisedHost value).

Definition parse_advertised_port (value : string) : result SettingsError (option Z * bool) :=
  if eq_ignore_ascii_case value "auto" then Ok (None, true)
  else match parse_uint U16_MAX value with
       | Some port => if 0 <? port then Ok (Some port, false) else Err (InvalidAdvertisedPort value)
       | None => Err (InvalidAdvertisedPort value)
       end.

(** [Option::map(f).transpose()]. *)
Definition transpose {A B} (f : A → result SettingsError B) (o : option A) : result SettingsError (option B) :=
  match o with None => Ok None | Some a => b ← f a; Ok (Some b) end.
Definition parse_p2p_advertised_identity (host_raw port_raw : option string)
    : result SettingsError (option string * option Z * bool) :=
  host ← transpose parse_advertised_host host_raw;
  parsed_port ← transpose parse_advertised_port port_raw;
  match host, parsed_port with
  | None, None => Ok (None, None, false)
  | Some host, Some (port, auto) => Ok (Some host, port, auto)
  | Some _, None => Err (AdvertisedHostWithoutPort (default "" host_raw))
  | None, Some _ => Err (AdvertisedPortWithoutHost (default "" port_raw))
  end.

(** [str::split] on a set of characters: the pieces, always at least one. *)
Fixpoint split_on (sep : ascii → bool) (s : string) : list string :=
  match s with
  | EmptyString => [""]
  | String c s =>
      if sep c then "" :: split_on sep s
      else match split_on sep s with
           | piece :: pieces => String c piece :: pieces
           | [] => [String c ""]
           end
  end.
Definition is_seed_separator (c : ascii) : bool :=
  Ascii.eqb c "," || Ascii.eqb c ";" || Ascii.eqb c "010".
Fixpoint check_seed_entries (entries : list string) : result SettingsError (list string) :=
  match entries with
  | [] => Ok []
  | entry :: entries =>
      _ ← ok_or (InvalidSeedPeerEntry entry) (parse_socket entry);
      peers ← check_seed_entries entries; Ok (entry :: peers)
  end.
Definition parse_seed_peers (raw : option string) : result SettingsError (list string) :=
  match raw with
  | Some raw =>
      if bool_decide (raw = "") then Ok []
      else
        peers ← check_seed_entries
          (filter (λ entry, entry ≠ "") (map trim (split_on is_seed_separator raw)));
        if bool_decide (peers = []) then Err (InvalidSeedPeersValue raw) else Ok peers
  | None => Ok DEFAULT_SEED_PEERS
  end.

Definition parse_miner_address (raw : option string) : string :=
  match raw with
  | None => null_hash
  | Some raw => if is_hex64 raw then raw else null_hash
  end.

(** [v == "1" || v.to_lowercase() == "true"]; no letter outside ASCII
    lowercases to one of [true]. *)
Definition is_enabled (raw : option string) : bool :=
  match raw with
  | Some v => bool_decide (v = "1") || bool_decide (to_ascii_lowercase v = "true")
  | None => false
  end.

Definition settings_from_raw (raw : RawSettings) : result SettingsError Settings :=
  '(host, port, port_auto) ←
    parse_p2p_advertised_identity (raw_p2p_advertised_host raw) (raw_p2p_advertised_port raw);
  let '(p2p_port, p2p_auto) := parse_p2p_port (raw_p2p_port raw) in
  allow_private ← parse_explicit_bool "VISION_ALLOW_PRIVATE_PEERS" (raw_allow_private_peer_addresses raw) true;
  seeds ← parse_seed_peers (raw_seed_peers raw);
  Ok (mkSettings
        (default "./data" (raw_data_dir raw))
        ("0.0.0.0:" +:+ u64_to_string (default DEFAULT_HTTP_PORT (raw_http_port raw ≫= parse_uint U16_MAX)))
        ("0.0.0.0:" +:+ u64_to_string p2p_port)
        p2p_auto host port port_auto allow_private
        (parse_miner_address (raw_miner_address raw))
        (is_enabled (raw_mining_enabled raw))
        (default 0 (raw_mining_threads raw ≫= parse_uint U64_MAX))
        (is_enabled (raw_alpha_airdrop_enabled raw))
        seeds).
Definition from_env (read : string → option string) : result SettingsError Settings :=
  settings_from_raw (raw_from_source read).

(** ** The automatic port *)
Definition AUTO_P2P_PORT_MIN : Z := 20000.
Definition AUTO_P2P_PORT_SPAN : Z := 40000.

Section auto_port.
Context {C : Crypto}.
Definition auto_p2p_port_for_ip (ip : IpAddr) : Z :=
  let digest := blake3 (string_bytes (show_ip ip)) in
  let offset := be_val (take 2 digest) mod AUTO_P2P_PORT_SPAN in
  AUTO_P2P_PORT_MIN + offset.

Inductive AutoPortError := UnparsableP2pAddr | NoRoutedIp.
Definition set_p2p_addr (a : string) (s : Settings) : Settings :=
  mkSettings (data_dir s) (http_addr s) a (p2p_auto_port s) (p2p_advertised_host s)
    (p2p_advertised_port s) (p2p_advertised_port_auto s) (allow_private_peer_addresses s)
    (miner_address s) (mining_enabled s) (mining_threads s) (alpha_airdrop_enabled s) (seed_peers s).
Definition set_advertised_port (p : option Z) (s : Settings) : Settings :=
  mkSettings (data_dir s) (http_addr s) (p2p_addr s) (p2p_auto_port s) (p2p_advertised_host s)
    p (p2p_advertised_port_auto s) (allow_private_peer_addresses s)
    (miner_address s) (mining_enabled s) (mining_threads s) (alpha_airdrop_enabled s) (seed_peers s).
(** [routed_ip] is what [detect_routed_local_ip] found, when it was asked. *)
Definition resolve_auto_p2p_settings_for_ip (settings : Settings) (routed_ip : option IpAddr)
    : result AutoPortError Settings :=
  listen_addr ← ok_or UnparsableP2pAddr (parse_socket (p2p_addr settings));
  '(listen_addr, settings) ←
    (if p2p_auto_port settings then
       ip ← ok_or NoRoutedIp routed_ip;
       let listen_addr := mkSocket (sa_ip listen_addr) (auto_p2p_port_for_ip ip) (sa_scope_id listen_addr) in
       Ok (listen_addr, set_p2p_addr (show_socket listen_addr) settings)
     else Ok (listen_addr, settings));
  Ok (if p2p_advertised_port_auto settings
      then set_advertised_port (Some (sa_port listen_addr)) settings else settings).
End auto_port.

(** ** The runtime's worker threads *)
Inductive RuntimeError := InvalidWorkerThreads (value : string).
Definition parse_worker_threads (num_cpus : Z) (raw : option string) : result RuntimeError Z :=
  match raw with
  | None => Ok num_cpus
  | Some value =>
      match parse_uint U64_MAX value with
      | Some threads => if 0 <? threads then Ok threads else Err (InvalidWorkerThreads value)
      | None => Err (InvalidWorkerThreads value)
      end
  end.

(** ** What accepted settings guarantee *)

(** The miner's address is canonical; an advertised host comes with a port or
    the automatic port; every configured seed is a socket address. *)
Record settings_ok (s : Settings) : Prop := {
  so_miner : is_hex64 (miner_address s) = true;
  so_host : is_Some (p2p_advertised_host s) ↔
    is_Some (p2p_advertised_port s) ∨ p2p_advertised_port_auto s = true;
  so_port p : p2p_advertised_port s = Some p → 0 < p ≤ U16_MAX;
  so_seeds : Forall (λ a, is_Some (parse_socket a)) (seed_peers s)
}.

Lemma check_seed_entries_Ok entries peers : check_seed_entries entries = Ok peers →
  peers = entries ∧ Forall (λ a, is_Some (parse_socket a)) peers.
Proof.
  revert peers. induction entries as [|e es IH]; intros peers; cbn [check_seed_entries].
  { intros [= <-]. by split. }
  intros (a & Ha & (l & Hl & [= <-])%bind_Ok)%bind_Ok.
  destruct (parse_socket e) eqn:E; [|done]. destruct (IH _ Hl) as [-> Hf].
  split; [done|]. by constructor; [rewrite E|].
Qed.
Lemma parse_seed_peers_Ok raw peers : parse_seed_peers raw = Ok peers →
  Forall (λ a, is_Some (parse_socket a)) peers.
Proof.
  unfold parse_seed_peers. destruct raw as [raw|].
  - case_bool_decide; [by intros [= <-]|]. intros (l & Hl & E)%bind_Ok.
    case_bool_decide; [done|]. injection E as <-. by apply check_seed_entries_Ok in Hl as [_ ?].
  - intros [= <-]. repeat (apply Forall_cons_2; [by eexists; vm_compute|]). apply Forall_nil_2.
Qed.
Lemma parse_advertised_port_Ok value p auto : parse_advertised_port value = Ok (p, auto) →
  (p = None ∧ auto = true) ∨ (auto = false ∧ ∃ z, p = Some z ∧ 0 < z ≤ U16_MAX).
Proof.
  unfold parse_advertised_port. destruct (eq_ignore_ascii_case _ _); [intros [= <- <-]; by left|].
  destruct (parse_uint U16_MAX value) as [z|] eqn:E; [|done].
  destruct (Z.ltb_spec 0 z); [|done]. intros [= <- <-]. right. split; [done|]. exists z.
  apply parse_uint_range in E; [done|vm_compute; discriminate].
Qed.

Lemma settings_sound read s : from_env read = Ok s → settings_ok s.
Proof.
  unfold from_env, settings_from_raw. generalize (raw_from_source read). intros raw.
  intros ([[host port] auto] & Ei & E)%bind_Ok.
  destruct (parse_p2p_port (raw_p2p_port raw)) as [pp pa].
  apply bind_Ok in E as (ap & _ & E). apply bind_Ok in E as (seeds & Hs & [= <-]).
  assert ((is_Some host ↔ is_Some port ∨ auto = true) ∧ (∀ p, port = Some p → 0 < p ≤ U16_MAX)) as [H1 H2].
  { unfold parse_p2p_advertised_identity in Ei. apply bind_Ok in Ei as (h & _ & Ei).
    apply bind_Ok in Ei as (pt & Hp & Ei).
    destruct h as [h|], pt as [[p a]|]; simplify_eq.
    - destruct (raw_p2p_advertised_port raw) as [v|]; [|done]. cbn in Hp.
      apply bind_Ok in Hp as ([q b] & Hq & [= -> ->]).
      apply parse_advertised_port_Ok in Hq as [[-> ->]|(-> & z & -> & Hz)]; naive_solver.
    - split; [|done]. split; [by intros [? ?]|by intros [[? ?]|?]]. }
  split; [|done|done|].
  - cbn. unfold parse_miner_address. destruct (raw_miner_address raw) as [m|]; [|reflexivity].
    by destruct (is_hex64 m) eqn:E.
  - exact (parse_seed_peers_Ok _ _ Hs).
Qed.

(** The automatic port is always a dynamic one. *)
Lemma auto_p2p_port_range {C : Crypto} ip :
  AUTO_P2P_PORT_MIN ≤ auto_p2p_port_for_ip ip < AUTO_P2P_PORT_MIN + AUTO_P2P_PORT_SPAN ∧
  auto_p2p_port_for_ip ip ≤ U16_MAX.
Proof.
  unfold auto_p2p_port_for_ip.
  pose proof (Z.mod_pos_bound (be_val (take 2 (blake3 (string_bytes (show_ip ip))))) AUTO_P2P_PORT_SPAN eq_refl).
  unfold AUTO_P2P_PORT_MIN, AUTO_P2P_PORT_SPAN, U16_MAX in *. lia.
Qed.

(** The listen addresses of accepted settings parse: any interface, and the
    configured ports. *)
Definition any_interface (port : Z) : SocketAddr := mkSocket (V4 [0; 0; 0; 0]) port 0.
Lemma parse_any_interface port : 0 ≤ port ≤ U16_MAX →
  parse_socket ("0.0.0.0:" +:+ u64_to_string port) = Some (any_interface port).
Proof.
  intros Hp. refine (parse_show_v4 0 0 0 0 port _ Hp). repeat constructor; lia.
Qed.
Lemma settings_addresses read s : from_env read = Ok s →
  ∃ http p2p, 0 ≤ http ≤ U16_MAX ∧ 0 ≤ p2p ≤ U16_MAX ∧
    parse_socket (http_addr s) = Some (any_interface http) ∧ parse_socket (p2p_addr s) = Some (any_interface p2p).
Proof.
  unfold from_env, settings_from_raw. generalize (raw_from_source read). intros raw.
  intros ([[host port] auto] & _ & E)%bind_Ok.
  destruct (parse_p2p_port (raw_p2p_port raw)) as [pp pa] eqn:Ep.
  apply bind_Ok in E as (ap & _ & E). apply bind_Ok in E as (seeds & _ & [= <-]).
  assert (∀ d o, 0 ≤ d ≤ U16_MAX → 0 ≤ default d (o ≫= parse_uint U16_MAX) ≤ U16_MAX) as Hd.
  { intros d [v|] H; [|done]. cbn [mbind option_bind]. destruct (parse_uint U16_MAX v) as [z|] eqn:Ez; [|done].
    split; [by eapply parse_uint_nonneg|]. by eapply parse_uint_range; [|exact Ez]. }
  assert (0 ≤ pp ≤ U16_MAX) as Hpp.
  { unfold parse_p2p_port in Ep. destruct (raw_p2p_port raw) as [v|]; [|by simplify_eq].
    destruct (eq_ignore_ascii_case v "auto"); simplify_eq; [done|].
    apply (Hd DEFAULT_P2P_PORT (Some v)). done. }
  exists (default DEFAULT_HTTP_PORT (raw_http_port raw ≫= parse_uint U16_MAX)), pp.
  pose proof (Hd DEFAULT_HTTP_PORT (raw_http_port raw) ltac:(done)) as Hh.
  split; [done|]. split; [done|]. split; by apply parse_any_interface.
Qed.
