(* ===== verification/DataDir.v ===== *)
(** * The data directory ([prepare_data_directory] of [src/node/bootstrap.rs])

    What start-up does to the file system before it opens the database: the
    directory of the settings is checked, created when only it is missing, and
    probed for reading and writing.

    The file system is what the code uses of [std::fs] on Unix: a tree of
    directories and other files without symbolic links, whose operations may
    refuse a location for any other reason (permissions, a full disk). *)
From S2P Require Import Prelude Constants Net Settings.

(** ** The file system *)
Inductive FileKind := Dir | NonDir.
#[export] Instance FileKind_eq_dec : EqDecision FileKind.
Proof. solve_decision. Defined.
Inductive IoErrorKind := NotFound | NotADirectory | AlreadyExists | DirectoryNotEmpty | Refused.
#[export] Instance IoErrorKind_eq_dec : EqDecision IoErrorKind.
Proof. solve_decision. Defined.
Inductive FsOp := OpMetadata | OpCreateDir | OpReadDir | OpRemoveDir.

(** A location is a list of names below the root. *)
Abbreviation Location := (list string).
Record Fs := mkFs {
  fs_tree : gmap Location FileKind;
  fs_refuses : FsOp → Location → bool
}.
Definition set_tree (t : gmap Location FileKind) (f : Fs) : Fs := mkFs t (fs_refuses f).
Definition kind_at (f : Fs) (l : Location) : option FileKind :=
  match l with [] => Some Dir | _ => fs_tree f !! l end.

(** An absolute path is the list of its pieces between slashes, among them
    empty ones, [.] and [..]. *)
Abbreviation PathBuf := (list string).
Definition is_slash (c : ascii) : bool := Ascii.eqb c "/".
Definition is_absolute (value : string) : bool :=
  match value with String c _ => is_slash c | EmptyString => false end.
(** [PathBuf::join]: an absolute path replaces the one it is joined to. *)
Definition path_join (base : PathBuf) (value : string) : PathBuf :=
  if is_absolute value then tail (split_on is_slash value) else base ++ split_on is_slash value.
Definition is_blank (piece : string) : bool := bool_decide (piece = "") || bool_decide (piece = ".").
(** Without the last pieces that satisfy [f]. *)
Fixpoint drop_last_while (f : string → bool) (p : PathBuf) : PathBuf :=
  match p with
  | [] => []
  | c :: p => match drop_last_while f p with
              | [] => if f c then [] else [c]
              | p => c :: p
              end
  end.
(** [Path::parent]: without its last component; nothing for the root. *)
Definition path_parent (p : PathBuf) : option PathBuf :=
  match drop_last_while is_blank p with [] => None | q => Some (removelast q) end.

(** Resolving a path from a location: every piece is looked up in a directory. *)
Fixpoint walk (f : Fs) (l : Location) (p : PathBuf) : result IoErrorKind Location :=
  match p with
  | [] => Ok l
  | c :: p =>
      match kind_at f l with
      | None => Err NotFound
      | Some NonDir => Err NotADirectory
      | Some Dir =>
          if is_blank c then walk f l p
          else if bool_decide (c = "..") then walk f (removelast l) p
          else walk f (l ++ [c]) p
      end
  end.
Definition resolve (op : FsOp) (f : Fs) (p : PathBuf) : result IoErrorKind Location :=
  l ← walk f [] p;
  if fs_refuses f op l then Err Refused else Ok l.

(** [fs::metadata], [fs::read_dir], [fs::create_dir] (which ignores trailing
    slashes) and [fs::remove_dir]. *)
Definition metadata (f : Fs) (p : PathBuf) : result IoErrorKind FileKind :=
  l ← resolve OpMetadata f p; ok_or NotFound (kind_at f l).
Definition read_dir (f : Fs) (p : PathBuf) : result IoErrorKind () :=
  l ← resolve OpReadDir f p;
  match kind_at f l with
  | Some Dir => Ok ()
  | Some NonDir => Err NotADirectory
  | None => Err NotFound
  end.
Definition create_dir (p : PathBuf) (f : Fs) : result IoErrorKind Fs :=
  l ← resolve OpCreateDir f (drop_last_while (λ c, bool_decide (c = "")) p);
  match kind_at f l with
  | Some _ => Err AlreadyExists
  | None => Ok (set_tree (<[l := Dir]> (fs_tree f)) f)
  end.
Definition has_child (f : Fs) (l : Location) : bool :=
  existsb (λ e, bool_decide (l `prefix_of` e.1) && negb (bool_decide (e.1 = l))) (map_to_list (fs_tree f)).
Definition remove_dir (p : PathBuf) (f : Fs) : result IoErrorKind Fs :=
  l ← resolve OpRemoveDir f p;
  match kind_at f l with
  | None => Err NotFound
  | Some NonDir => Err NotADirectory
  | Some Dir => if has_child f l then Err DirectoryNotEmpty else Ok (set_tree (delete l (fs_tree f)) f)
  end.

(** ** The checks of start-up *)
Inductive DataDirectoryError :=
| InvalidValue (value requirement : string)
| Filesystem (value : string) (effective : PathBuf) (operation : string) (source : IoErrorKind).

(** The process: its file system, its id, and the counter of its probes. *)
Record Host := mkHost { h_fs : Fs; h_pid : Z; h_probe_id : Z }.
Definition set_fs (f : Fs) (h : Host) : Host := mkHost f (h_pid h) (h_probe_id h).

(** The name of the next probe. *)
Definition probe_name (h : Host) : string :=
  ".vision-core-write-probe-" +:+ u64_to_string (h_pid h) +:+ "-" +:+ u64_to_string (h_probe_id h).

Section data_directory.
Context (value : string).
Abbreviation m := (stm Host DataDirectoryError).

Definition invalid {A} (requirement : string) : m A := stm_lift (Err (InvalidValue value requirement)).
(** A file-system operation on behalf of [effective]. *)
Definition fs_read {A} (effective : PathBuf) (operation : string) (x : Fs → result IoErrorKind A) : m A :=
  h ← stm_get; stm_lift (map_err (Filesystem value effective operation) (x (h_fs h))).
Definition fs_write (effective : PathBuf) (operation : string) (x : Fs → result IoErrorKind Fs) : m () :=
  f ← fs_read effective operation x; stm_modify (set_fs f).

(** [fetch_add] on the probe counter. *)
Definition next_probe : m string := λ h,
  (mkHost (h_fs h) (h_pid h) (wadd64 (h_probe_id h) 1), Ok (probe_name h)).

(** The directory is there, or can be created in its parent. *)
Definition ensure_directory (effective : PathBuf) : m () :=
  h ← stm_get;
  match metadata (h_fs h) effective with
  | Ok NonDir => invalid "the effective path must be a directory, not a regular file"
  | Ok Dir => mret ()
  | Err NotFound =>
      match path_parent effective with
      | None => invalid "the effective path must have an existing parent directory"
      | Some parent =>
          parent_metadata ← fs_read effective "inspect the parent of" (λ f, metadata f parent);
          if bool_decide (parent_metadata = NonDir)
          then invalid "the effective path must have a directory as its parent"
          else fs_write effective "create" (create_dir effective)
      end
  | Err source => stm_lift (Err (Filesystem value effective "inspect" source))
  end.
Definition check_database_path (effective : PathBuf) : m () :=
  h ← stm_get;
  match metadata (h_fs h) (effective ++ ["chain.db"]) with
  | Ok NonDir => invalid "the effective chain.db path must be a directory"
  | Ok Dir => mret ()
  | Err NotFound => mret ()
  | Err source => stm_lift (Err (Filesystem value effective "inspect chain.db under" source))
  end.
Definition probe_directory (effective : PathBuf) : m () :=
  probe ← next_probe;
  _ ← fs_write effective "verify write access to" (create_dir (effective ++ [probe]));
  fs_write effective "remove the write probe from" (remove_dir (effective ++ [probe])).

Definition prepare_data_directory_from (current_directory : PathBuf) : m PathBuf :=
  if bool_decide (value = "") then invalid "expected a non-empty path"
  else if bool_decide (trim value = "") then invalid "expected a path containing non-whitespace characters"
  else if negb (bool_decide (trim value = value)) then invalid "leading and trailing whitespace are not allowed"
  else
    let effective := path_join current_directory value in
    _ ← ensure_directory effective;
    _ ← fs_read effective "access" (λ f, read_dir f effective);
    _ ← check_database_path effective;
    _ ← probe_directory effective;
    mret effective.

(** The working directory may be unknown to the process. *)
Definition prepare_data_directory (current_dir : result IoErrorKind PathBuf) : m PathBuf :=
  current_directory ← stm_lift (map_err
    (Filesystem value (split_on is_slash value) "resolve the process working directory for") current_dir);
  prepare_data_directory_from current_directory.
End data_directory.

(** ** Examples: the policy the repository's tests describe *)
Definition toy_host (tree : list (Location * FileKind)) : Host :=
  mkHost (mkFs (list_to_map tree) (λ _ _, false)) 7 0.
Definition toy_prepare (value : string) (tree : list (Location * FileKind)) :=
  let '(h, r) := prepare_data_directory_from value ["srv"] (toy_host tree) in (map_to_list (fs_tree (h_fs h)), r).
Definition toy_tree : list (Location * FileKind) := [(["srv"], Dir)].

Example prepare_default : ∃ t, toy_prepare "./data" toy_tree = (t, Ok ["srv"; "."; "data"]) ∧
  list_to_set (C := gset Location) t.*1 = {[ ["srv"]; ["srv"; "data"] ]}.
Proof. eexists. split; vm_compute; reflexivity. Qed.
Example prepare_missing_parent :
  toy_prepare "missing/data" toy_tree = (toy_tree, Err (Filesystem "missing/data" ["srv"; "missing"; "data"] "inspect the parent of" NotFound)).
Proof. vm_compute. reflexivity. Qed.

(** ** Theory *)

(** Everything in the tree is in a directory. *)
Definition tree_wf (f : Fs) : Prop :=
  ∀ l c, is_Some (fs_tree f !! (l ++ [c])) → kind_at f l = Some Dir.

Lemma tree_wf_above f l s : tree_wf f → s ≠ [] → is_Some (fs_tree f !! (l ++ s)) → kind_at f l = Some Dir.
Proof.
  intros Hf. induction s as [|c s IH] using rev_ind; [done|]. intros _ Hs. rewrite (assoc_L (++)) in Hs.
  pose proof (Hf _ _ Hs) as Hk. destruct s as [|x s]; [by rewrite app_nil_r in Hk|].
  apply IH; [done|]. destruct l; cbn in Hk |- *; eauto.
Qed.
Lemma no_child f l : tree_wf f → kind_at f l = None → has_child (set_tree (<[l := Dir]> (fs_tree f)) f) l = false.
Proof.
  intros Hf Hl. apply not_true_iff_false. unfold has_child. cbn [set_tree fs_tree]. rewrite existsb_exists.
  intros ([x k] & Hx%list_elem_of_In%elem_of_map_to_list & H). cbn [fst] in H.
  apply andb_true_iff in H as [[s ->]%bool_decide_eq_true Hne]. apply negb_true_iff, bool_decide_eq_false in Hne.
  rewrite lookup_insert_ne in Hx by congruence.
  assert (kind_at f l = Some Dir); [|congruence].
  apply (tree_wf_above f l s Hf); [|by eexists]. intros ->. by rewrite app_nil_r in Hne.
Qed.

(** What exists keeps being found. *)
Lemma walk_mono f f' p : (∀ l k, kind_at f l = Some k → kind_at f' l = Some k) →
  ∀ l l', walk f l p = Ok l' → walk f' l p = Ok l'.
Proof.
  intros H. induction p as [|c p IH]; intros l l' E; cbn [walk] in *; [done|].
  destruct (kind_at f l) as [[]|] eqn:Ek; [|done..]. rewrite (H _ _ Ek).
  destruct (is_blank c); [by apply IH|]. destruct (bool_decide _); by apply IH.
Qed.
Lemma kind_at_insert f l x k : kind_at f l = None → kind_at f x = Some k →
  kind_at (set_tree (<[l := Dir]> (fs_tree f)) f) x = Some k.
Proof.
  intros Hl Hx. destruct x as [|c x]; [done|]. cbn in *. rewrite lookup_insert_ne; [done|].
  intros ->. cbn in Hl. congruence.
Qed.
Lemma kind_at_inserted f l : l ≠ [] → kind_at (set_tree (<[l := Dir]> (fs_tree f)) f) l = Some Dir.
Proof. intros Hl. destruct l; [done|]. apply lookup_insert_eq. Qed.
Lemma kind_at_None f l : kind_at f l = None → l ≠ [] ∧ fs_tree f !! l = None.
Proof. by destruct l. Qed.
Lemma tree_wf_insert f p l : tree_wf f → walk f [] p = Ok l → kind_at f l = None →
  tree_wf (set_tree (<[l := Dir]> (fs_tree f)) f).
Proof.
  intros Hf Hw Hl x c Hx. cbn [set_tree fs_tree] in Hx.
  destruct (decide (x ++ [c] = l)) as [E|E].
  2:{ rewrite lookup_insert_ne in Hx by congruence. by apply kind_at_insert; [|apply (Hf x c)]. }
  apply kind_at_insert; [done|]. subst l. clear Hx.
  (* The walk reached its end through a directory. *)
  assert (∀ p l0, walk f l0 p = Ok (x ++ [c]) → l0 ≠ x ++ [c] ∨ p ≠ [] →
    kind_at f l0 = Some Dir ∨ p = [] → kind_at f x = Some Dir) as H.
  { clear Hw p. induction p as [|d p IH]; intros l0 Hw H1 H2; cbn [walk] in Hw.
    { injection Hw as ->. by destruct H1. }
    destruct (kind_at f l0) as [[]|] eqn:Ek; [|done..].
    assert (∀ l1, walk f l1 p = Ok (x ++ [c]) → l1 ≠ x ++ [c] → kind_at f x = Some Dir) as Hgo.
    { intros l1 Hw1 Hne. apply (IH l1 Hw1); [by left|].
      destruct p as [|e p]; [by right|left]. cbn [walk] in Hw1. by destruct (kind_at f l1) as [[]|]. }
    destruct (is_blank d).
    { destruct (decide (l0 = x ++ [c])) as [->|Hne]; [congruence|by apply (Hgo l0)]. }
    case_bool_decide.
    - destruct (decide (removelast l0 = x ++ [c])) as [Er|Hne]; [|by apply (Hgo (removelast l0))].
      destruct l0 as [|y l0]; [by destruct x|]. exfalso.
      assert (y :: l0 = removelast (y :: l0) ++ [List.last (y :: l0) ""]) as Ey by (by apply app_removelast_last).
      assert (is_Some (fs_tree f !! (y :: l0))) as Hs by (cbn in Ek; by rewrite Ek).
      rewrite Ey, Er in Hs. apply Hf in Hs. congruence.
    - destruct (decide (l0 ++ [d] = x ++ [c])) as [E|Hne]; [|by apply (Hgo (l0 ++ [d]))].
      apply app_inj_tail in E as [-> _]. done. }
  destruct p as [|d p]; [cbn in Hw; injection Hw; by destruct x|]. apply (H (d :: p) [] Hw); [by right|by left].
Qed.

(** A sequence, by the result of its first part. *)
Lemma stm_bind_eq {S E A B} (m : stm S E A) (f : A → stm S E B) s :
  (m ≫= f) s = match m s with (s, Ok a) => f a s | (s, Err e) => (s, Err e) end.
Proof. unfold mbind, stm_bind. by destruct (m s) as [? []]. Qed.

Section theory.
Context (value : string) (cwd : PathBuf).
Abbreviation effective := (path_join cwd value).

(** The file system with one more directory, where nothing was. *)
Definition one_more (f f' : Fs) (l : Location) : Prop :=
  kind_at f l = None ∧ f' = set_tree (<[l := Dir]> (fs_tree f)) f ∧ tree_wf f'.
(** What one stage of the checks may do: nothing, or create the directory, at
    the location the configured path leads to afterwards. *)
Definition at_most_created (f f' : Fs) : Prop :=
  f' = f ∨ ∃ l, one_more f f' l ∧ walk f' [] effective = Ok l.

(** A walk continues where its first part ends. *)
Lemma walk_app f l p q : walk f l (p ++ q) = (l' ← walk f l p; walk f l' q).
Proof.
  revert l. induction p as [|c p IH]; intros l; cbn [app walk]; [done|].
  destruct (kind_at f l) as [[]|]; [|done..]. destruct (is_blank c); [apply IH|].
  destruct (bool_decide _); apply IH.
Qed.
Lemma walk_empties f l p q : kind_at f l = Some Dir → Forall (λ c, c = "") q →
  walk f [] p = Ok l → walk f [] (p ++ q) = Ok l.
Proof.
  intros Hl Hq Hp. rewrite walk_app, Hp. cbn [mbind result_bind]. clear Hp.
  induction Hq as [|c q -> _ IH]; cbn [walk]; [done|]. by rewrite Hl.
Qed.
Lemma drop_last_while_split f p : ∃ q, p = drop_last_while f p ++ q ∧ Forall (λ c, f c = true) q.
Proof.
  induction p as [|c p (q & E & Hq)]; cbn [drop_last_while]; [by exists []|].
  destruct (drop_last_while f p) as [|d p1]; cbn [app] in E.
  - destruct (f c) eqn:Ec; [exists (c :: p); subst p; by repeat constructor|exists q; by subst].
  - exists q. by rewrite E at 1.
Qed.

Lemma create_dir_Ok f p f' : tree_wf f → create_dir p f = Ok f' →
  ∃ l, walk f [] (drop_last_while (λ c, bool_decide (c = "")) p) = Ok l ∧ one_more f f' l.
Proof.
  intros Hf (l & Hl & E)%bind_Ok. unfold resolve in Hl. apply bind_Ok in Hl as (l' & Hw & Hl).
  destruct (fs_refuses f OpCreateDir l'); [done|]. injection Hl as ->.
  destruct (kind_at f l) eqn:Ek; [done|]. injection E as <-. exists l. split; [done|].
  split; [done|]. split; [done|]. by eapply tree_wf_insert.
Qed.
Lemma fs_write_inv eff op x h h' r : fs_write value eff op x h = (h', r) →
  (r = Ok () ∧ ∃ f', x (h_fs h) = Ok f' ∧ h' = set_fs f' h) ∨
  (h' = h ∧ ∃ e, r = Err (Filesystem value eff op e) ∧ x (h_fs h) = Err e).
Proof.
  unfold fs_write, fs_read. intros E. rewrite stm_bind_eq, stm_get_bind in E. unfold stm_lift in E.
  destruct (x (h_fs h)) as [f'|e]; cbn [map_err] in E; injection E as <- <-; [left|right]; eauto.
Qed.

Lemma ensure_directory_inv h h' r : tree_wf (h_fs h) → ensure_directory value effective h = (h', r) →
  ∃ f', h' = set_fs f' h ∧ at_most_created (h_fs h) f' ∧ tree_wf f'.
Proof.
  intros Hf E. assert (∃ f', h = set_fs f' h ∧ at_most_created (h_fs h) f' ∧ tree_wf f') as Hsame.
  { exists (h_fs h). split; [by destruct h|]. split; [by left|done]. }
  unfold ensure_directory in E. rewrite stm_get_bind in E.
  destruct (metadata (h_fs h) effective) as [[]|[]];
    try (unfold invalid, stm_lift in E; injection E as <- _; exact Hsame).
  destruct (path_parent effective) as [parent|]; [|unfold invalid, stm_lift in E; injection E as <- _; exact Hsame].
  unfold fs_read in E. rewrite stm_bind_eq, stm_get_bind in E. unfold stm_lift in E at 1.
  destruct (metadata (h_fs h) parent) as [k|e]; cbn [map_err] in E; [|injection E as <- _; exact Hsame].
  case_bool_decide; [unfold invalid, stm_lift in E; injection E as <- _; exact Hsame|].
  apply fs_write_inv in E as [(_ & f' & Ec & ->)|[-> _]]; [|exact Hsame].
  destruct (create_dir_Ok _ _ _ Hf Ec) as (l & Hw & Hl). exists f'. split; [done|]. split; [right|apply Hl].
  exists l. split; [done|]. pose proof Hl as (Hk & -> & _).
  destruct (drop_last_while_split (λ c, bool_decide (c = "")) effective) as (q & -> & Hq).
  apply walk_empties.
  - by apply kind_at_inserted, (kind_at_None _ _ Hk).
  - eapply Forall_impl; [exact Hq|]. by intros c ?%bool_decide_eq_true.
  - eapply walk_mono; [|exact Hw]. intros x' k'. by apply kind_at_insert.
Qed.

Lemma drop_last_while_snoc f p c : f c = false → drop_last_while f (p ++ [c]) = p ++ [c].
Proof.
  intros Hc. induction p as [|d p IH]; cbn; [by rewrite Hc|]. rewrite IH. by destruct p.
Qed.
(** The probe leaves nothing behind, unless its removal is refused. *)
Lemma probe_directory_inv h h' r : tree_wf (h_fs h) → probe_directory value effective h = (h', r) →
  h_fs h' = h_fs h ∨
  ∃ l, walk (h_fs h) [] effective = Ok l ∧ one_more (h_fs h) (h_fs h') (l ++ [probe_name h]) ∧
    fs_refuses (h_fs h) OpRemoveDir (l ++ [probe_name h]) = true ∧
    r = Err (Filesystem value effective "remove the write probe from" Refused).
Proof.
  intros Hf E. unfold probe_directory, next_probe in E. rewrite stm_bind_eq in E. cbv beta iota in E.
  set (h1 := mkHost _ _ _) in E. set (probe := probe_name h) in *.
  change (h_fs h) with (h_fs h1) in Hf |- *. rewrite stm_bind_eq in E.
  destruct (fs_write value effective "verify write access to" _ h1) as [h2 r2] eqn:E2.
  apply fs_write_inv in E2 as [(-> & f2 & Ec & ->)|(-> & e & -> & _)]; [|injection E as <- _; by left].
  destruct (create_dir_Ok _ _ _ Hf Ec) as (l & Hw & Hone). pose proof Hone as (Hk & -> & Hf2).
  rewrite drop_last_while_snoc in Hw by reflexivity.
  pose proof (kind_at_None _ _ Hk) as [Hne Hno].
  set (f2 := set_tree (<[l := Dir]> (fs_tree (h_fs h1))) (h_fs h1)) in *.
  assert (walk f2 [] (effective ++ [probe]) = Ok l) as Hw2.
  { eapply walk_mono; [|exact Hw]. intros x k. by apply kind_at_insert. }
  assert (remove_dir (effective ++ [probe]) f2 =
    if fs_refuses (h_fs h1) OpRemoveDir l then Err Refused else Ok (h_fs h1)) as Er.
  { unfold remove_dir, resolve. rewrite Hw2. cbn [mbind result_bind].
    change (fs_refuses f2) with (fs_refuses (h_fs h1)).
    destruct (fs_refuses _ _ _); cbn [mbind result_bind]; [done|].
    unfold f2 at 1. rewrite kind_at_inserted by done. unfold f2 at 1. rewrite no_child by done.
    unfold f2, set_tree. cbn [fs_tree fs_refuses]. rewrite delete_insert_id by done. by destruct (h_fs h1). }
  apply fs_write_inv in E as [(-> & f3 & Ed & ->)|(-> & e & -> & Ed)]; cbn [h_fs set_fs] in *; rewrite Er in Ed.
  - left. destruct (fs_refuses _ _ _); by simplify_eq.
  - right. rewrite walk_app in Hw. apply bind_Ok in Hw as (le & Hle & Hl). exists le.
    assert (l = le ++ [probe]) as <-.
    { cbn [walk] in Hl. destruct (kind_at _ le) as [[]|]; [|done..]. by injection Hl. }
    split; [done|]. destruct (fs_refuses _ _ _) eqn:Eo; by simplify_eq.
Qed.

(** C39: Checking the data directory is safe and leaves no trace.  Whatever the
    configured value and the file system, at most one directory is created, at
    the very location the configured path leads to, where nothing was before,
    and only in a directory that exists; the write probe in it is gone
    afterwards, unless the system refuses its removal, and then start-up
    fails; nothing that existed is changed.  On success the value
    was neither empty, blank nor padded, the effective path is a directory, and
    [chain.db] in it is a directory or absent. *)
Theorem prepare_leaves_no_trace h h' r :
  tree_wf (h_fs h) → prepare_data_directory_from value cwd h = (h', r) →
  (∃ f', at_most_created (h_fs h) f' ∧
     (h_fs h' = f' ∨
      ∃ l, walk f' [] effective = Ok l ∧ one_more f' (h_fs h') (l ++ [probe_name h]) ∧
        fs_refuses (h_fs h) OpRemoveDir (l ++ [probe_name h]) = true ∧
        r = Err (Filesystem value effective "remove the write probe from" Refused))) ∧
  (∀ p, r = Ok p → p = effective ∧ value ≠ "" ∧ trim value = value ∧
     metadata (h_fs h') (p ++ ["chain.db"]) ∈ [Ok Dir; Err NotFound] ∧
     read_dir (h_fs h') p = Ok ()).
Proof.
  intros Hf E. unfold prepare_data_directory_from in E.
  assert (∀ req p, (h, Err (InvalidValue value req)) = (h', r) → h_fs h' = h_fs h ∧ r ≠ Ok p) as Hinv
    by (intros req p [= <- <-]; done).
  assert (∀ req, invalid value req h = (h', r) → (∃ f', at_most_created (h_fs h) f' ∧
     (h_fs h' = f' ∨ ∃ l, walk f' [] effective = Ok l ∧ one_more f' (h_fs h') (l ++ [probe_name h]) ∧
        fs_refuses (h_fs h) OpRemoveDir (l ++ [probe_name h]) = true ∧
        r = Err (Filesystem value effective "remove the write probe from" Refused))) ∧ ∀ p, r = Ok p → False) as Hbad.
  { intros req [= <- <-]. split; [exists (h_fs h); split; by left|done]. }
  case_bool_decide as H0; [destruct (Hbad _ E); naive_solver|].
  case_bool_decide as H1; [destruct (Hbad _ E); naive_solver|].
  case_bool_decide as H2; cbn [negb] in E; [|destruct (Hbad _ E); naive_solver]. clear Hinv Hbad. cbv zeta in E.
  rewrite stm_bind_eq in E. destruct (ensure_directory value effective h) as [h1 r1] eqn:E1.
  destruct (ensure_directory_inv _ _ _ Hf E1) as (f1 & -> & Hc & Hf1).
  assert (fs_refuses f1 = fs_refuses (h_fs h)) as Hrf by (destruct Hc as [->|(l & (_ & -> & _) & _)]; done).
  destruct r1 as [[]|e]; [|injection E as <- <-; split; [exists f1; split; [done|by left]|done]].
  unfold fs_read in E. rewrite stm_bind_eq, stm_get_bind in E. unfold stm_lift in E at 1. cbn [h_fs set_fs] in E.
  destruct (read_dir f1 effective) as [[]|e] eqn:Erd; cbn [map_err] in E;
    [|injection E as <- <-; split; [exists f1; split; [done|by left]|done]].
  rewrite stm_bind_eq in E. destruct (check_database_path value effective (set_fs f1 h)) as [h2 r2] eqn:E2.
  assert (h2 = set_fs f1 h ∧ (∀ u, r2 = Ok u → metadata f1 (effective ++ ["chain.db"]) ∈ [Ok Dir; Err NotFound])) as [-> Hdb].
  { unfold check_database_path in E2. rewrite stm_get_bind in E2. cbn [h_fs set_fs] in E2.
    destruct (metadata f1 (effective ++ ["chain.db"])) as [[]|[]]; injection E2 as <- <-; (split; [done|]); try done;
      intros _ _; [left|right; left]. }
  destruct r2 as [u|e]; [|injection E as <- <-; split; [exists f1; split; [done|by left]|done]].
  specialize (Hdb u eq_refl). rewrite stm_bind_eq in E.
  destruct (probe_directory value effective (set_fs f1 h)) as [h3 r3] eqn:E3.
  destruct (probe_directory_inv (set_fs f1 h) _ _ Hf1 E3) as [Hp|(l & Hl & Hp & Hr & ->)]; cbn [h_fs set_fs] in *.
  - assert (h' = h3) as -> by (by destruct r3; injection E). rewrite Hp. split; [exists f1; split; [done|by left]|].
    intros p ->. destruct r3; [|done]. injection E as <-. done.
  - injection E as <- <-. split; [|done]. exists f1. split; [done|]. right. exists l. by rewrite <- Hrf.
Qed.
End theory.

Lemma prepare_leaves_no_trace_witness :
  ∃ h' p, prepare_data_directory_from "./data" ["srv"] (toy_host toy_tree) = (h', Ok p) ∧
    p = ["srv"; "."; "data"] ∧ fs_tree (h_fs h') !! ["srv"; "data"] = Some Dir ∧
    read_dir (h_fs h') p = Ok ().
Proof.
  destruct (prepare_data_directory_from "./data" ["srv"] (toy_host toy_tree)) as [h' r] eqn:E.
  assert (tree_wf (h_fs (toy_host toy_tree))) as Hf.
  { intros l c [k Hk]. cbn in Hk. rewrite insert_empty in Hk. apply lookup_singleton_Some in Hk as [Hk _].
    destruct l as [|x [|]]; [reflexivity|discriminate Hk|discriminate Hk]. }
  assert ((prepare_data_directory_from "./data" ["srv"] (toy_host toy_tree)).2 = Ok ["srv"; "."; "data"]) as Hr
    by (vm_compute; reflexivity).
  assert (fs_tree (h_fs (prepare_data_directory_from "./data" ["srv"] (toy_host toy_tree)).1) !! ["srv"; "data"] = Some Dir) as Ht
    by (vm_compute; reflexivity).
  rewrite E in Hr, Ht. cbn [fst snd] in Hr, Ht. subst r. exists h', ["srv"; "."; "data"].
  split; [reflexivity|]. split; [reflexivity|]. split; [exact Ht|].
  exact (proj2 (proj2 (proj2 (proj2 (proj2 (prepare_leaves_no_trace "./data" ["srv"] _ _ _ Hf E) _ eq_refl))))).
Defined.
