(* ===== verification/PeerStore.v ===== *)
(** * The peer address file ([src/p2p/peer_store.rs])

    A set of addresses kept in a newline-delimited text file.  The file system
    is one file, absent or with a content, that may refuse writes. *)
From S2P Require Import Prelude Net Settings.

Record Disk := mkDisk { dk_content : option string; dk_writable : bool }.
Record PeerStore := mkStore { ps_known : gset string; ps_disk : Disk }.

(** [str::lines]: pieces between newlines, less an empty last one and the
    carriage return before each newline. *)
Definition is_newline (c : ascii) : bool := Ascii.eqb c "010".
Fixpoint strip_cr (s : string) : string :=
  match s with
  | EmptyString => EmptyString
  | String "013" EmptyString => EmptyString
  | String c s => String c (strip_cr s)
  end.
Fixpoint line_pieces (l : list string) : list string :=
  match l with
  | [] => []
  | [last] => if bool_decide (last = "") then [] else [last]
  | piece :: l => strip_cr piece :: line_pieces l
  end.
Definition lines (s : string) : list string := line_pieces (split_on is_newline s).

(** [PeerStore::open]: an unreadable file counts as no addresses. *)
Definition open_store (d : Disk) : PeerStore :=
  mkStore
    (match dk_content d with
     | Some content => list_to_set (filter (λ l, l ≠ "") (map trim (lines content)))
     | None => ∅
     end) d.

(** Operations give the store and whether the write, if any, succeeded. *)
Definition persist (p : PeerStore) : PeerStore * bool :=
  if dk_writable (ps_disk p)
  then (mkStore (ps_known p)
          (mkDisk (Some (String.concat (String "010" "") (bts_iter (ps_known p)))) true), true)
  else (p, false).
Definition store_len (p : PeerStore) : nat := size (ps_known p).
Definition store_is_empty (p : PeerStore) : bool := bool_decide (size (ps_known p) = 0%nat).
Definition store_add (p : PeerStore) (addr : string) : PeerStore * bool :=
  if bool_decide (addr ∈ ps_known p) then (p, true)
  else persist (mkStore ({[ addr ]} ∪ ps_known p) (ps_disk p)).
Definition store_remove (p : PeerStore) (addr : string) : PeerStore * bool :=
  if bool_decide (addr ∈ ps_known p) then persist (mkStore (ps_known p ∖ {[ addr ]}) (ps_disk p))
  else (p, true).
Definition store_contains (p : PeerStore) (addr : string) : bool := bool_decide (addr ∈ ps_known p).
Definition store_all (p : PeerStore) : list string := bts_iter (ps_known p).
(** The number of new addresses, unless the write fails. *)
Definition store_merge (p : PeerStore) (addrs : list string) : PeerStore * option nat :=
  let known := list_to_set addrs ∪ ps_known p in
  let added := (size known - size (ps_known p))%nat in
  let p := mkStore known (ps_disk p) in
  if (0 <? added)%nat
  then let '(p, ok) := persist p in (p, if (ok : bool) then Some added else None)
  else (p, Some added).

(** ** Round trip *)

(** An address the file can hold: one line that trimming leaves alone. *)
Definition is_break (c : ascii) : bool := is_newline c || Ascii.eqb c "013".
Definition one_line (a : string) : bool := string_forallb (λ c, negb (is_break c)) a.
Definition storable (a : string) : Prop := trim a = a ∧ a ≠ "" ∧ one_line a = true.

Lemma one_line_newline a : one_line a = true → string_forallb (λ c, negb (is_newline c)) a = true.
Proof.
  apply string_forallb_impl. intros c. unfold is_break. by destruct (is_newline c).
Qed.
Lemma strip_cr_one_line a : one_line a = true → strip_cr a = a.
Proof.
  induction a as [|c a IH]; [done|]. unfold one_line. simpl. intros [Hc Ha]%andb_true_iff.
  assert (c ≠ "013"%char) as Hne by (intros ->; done).
  destruct c as [[] [] [] [] [] [] [] []]; first [by destruct Hne|by simpl; rewrite IH].
Qed.

Lemma split_on_piece a s : string_forallb (λ c, negb (is_newline c)) a = true →
  split_on is_newline (a +:+ String "010" s) = a :: split_on is_newline s.
Proof.
  induction a as [|c a IH]; simpl; [done|]. intros [Hc Ha]%andb_true_iff.
  apply negb_true_iff in Hc. rewrite Hc, IH by done. done.
Qed.
Lemma split_on_last a : string_forallb (λ c, negb (is_newline c)) a = true →
  split_on is_newline a = [a].
Proof.
  induction a as [|c a IH]; simpl; [done|]. intros [Hc Ha]%andb_true_iff.
  apply negb_true_iff in Hc. by rewrite Hc, IH.
Qed.
Lemma split_on_concat a l : Forall storable (a :: l) →
  split_on is_newline (String.concat (String "010" "") (a :: l)) = a :: l.
Proof.
  revert a. induction l as [|b l IH]; intros a Hl.
  - apply Forall_singleton in Hl as (_ & _ & Ha). by apply split_on_last, one_line_newline.
  - inversion Hl as [|? ? (_ & _ & Ha) Hl']; subst.
    change (String.concat (String "010" "") (a :: b :: l))
      with (a +:+ String "010" (String.concat (String "010" "") (b :: l))).
    rewrite split_on_piece by (by apply one_line_newline). by rewrite IH.
Qed.

Lemma line_pieces_storable l : Forall storable l → line_pieces l = l.
Proof.
  induction 1 as [|a l (_ & Hne & Ha) Hl IH]; [done|].
  destruct l as [|b l]; cbn [line_pieces] in *; [by rewrite bool_decide_false|].
  by rewrite strip_cr_one_line, IH.
Qed.

(** What a store of storable addresses has written is read back. *)
Lemma persist_open p p' : (∀ a, a ∈ ps_known p → storable a) → persist p = (p', true) →
  ps_known p' = ps_known p ∧ ps_known (open_store (ps_disk p')) = ps_known p.
Proof.
  unfold persist. intros Hs. destruct (dk_writable _); [|done]. intros [= <-]. split; [done|].
  unfold open_store. cbn [ps_disk dk_content ps_known].
  assert (Forall storable (bts_iter (ps_known p))) as Hf.
  { apply Forall_forall. intros a Ha. by apply Hs, elem_of_bts_iter. }
  assert (filter (λ l, l ≠ "") (map trim (lines (String.concat (String "010" "") (bts_iter (ps_known p)))))
    = bts_iter (ps_known p)) as ->.
  { unfold lines. assert (line_pieces (split_on is_newline (String.concat (String "010" "") (bts_iter (ps_known p))))
      = bts_iter (ps_known p)) as ->.
    { destruct (bts_iter (ps_known p)) as [|a l]; [done|].
      rewrite split_on_concat by done. by apply line_pieces_storable. }
    clear -Hf. induction Hf as [|a l (Ht & Hne & _) _ IH]; [done|].
    cbn [map]. by rewrite Ht, filter_cons_True, IH. }
  apply set_eq. intros a. by rewrite elem_of_list_to_set, elem_of_bts_iter.
Qed.
Lemma store_add_reopened p addr p' :
  (∀ a, a ∈ {[ addr ]} ∪ ps_known p → storable a) → addr ∉ ps_known p →
  store_add p addr = (p', true) →
  ps_known (open_store (ps_disk p')) = {[ addr ]} ∪ ps_known p.
Proof.
  unfold store_add. intros Hs Hn. rewrite bool_decide_false by done. intros E.
  by apply (persist_open (mkStore ({[ addr ]} ∪ ps_known p) (ps_disk p)) p' Hs) in E as [_ ?].
Qed.
