(* ===== verification/Readiness.v ===== *)
(** * The start-up lifecycle ([src/node/readiness.rs])

    The state machine the repository's tests characterise start-up with (the
    module is compiled for tests only), as a step relation whose only paths
    are the prefixes of one sequence, each possibly cut by the failure of its
    next boundary. *)
From S2P Require Import Prelude.

Inductive ComponentState := CStarting | CReady | CDegraded | CNotReady | CFailed | CDisabled.
Definition component_as_str (c : ComponentState) : string :=
  match c with
  | CStarting => "starting" | CReady => "ready" | CDegraded => "degraded"
  | CNotReady => "not_ready" | CFailed => "failed" | CDisabled => "disabled"
  end.
Inductive StartupPhase :=
| ProcessLaunched | ConfigurationLoaded | ChainReady | P2pServicesStarted | HttpBound | Operational | PhaseFailed.
Inductive StartupEvent :=
| EvConfigurationLoaded | EvChainRecovered | EvP2pServicesStarted | EvHttpListenerBound | EvServicesReportedStarted.
Inductive FatalStartupBoundary := Configuration | ChainInitialization | P2pListenerBind | HttpListenerBind.
Inductive SeedDialObservation := NotConfigured | ConfiguredNotSpawned | TasksSpawned | AttemptBegun.
#[export] Instance ComponentState_eq_dec : EqDecision ComponentState.
Proof. solve_decision. Defined.
#[export] Instance StartupPhase_eq_dec : EqDecision StartupPhase.
Proof. solve_decision. Defined.
#[export] Instance SeedDialObservation_eq_dec : EqDecision SeedDialObservation.
Proof. solve_decision. Defined.
Record InvalidTransition := mkInvalid { it_phase : StartupPhase; it_event : StartupEvent }.
Record InvalidFailureTransition := mkInvalidFailure { if_phase : StartupPhase; if_boundary : FatalStartupBoundary }.

Record NodeOperationalState := mkOperational {
  os_phase : StartupPhase;
  os_lifecycle : ComponentState;
  os_configuration : ComponentState;
  os_chain : ComponentState;
  os_p2p_listener : ComponentState;
  os_http_listener : ComponentState;
  os_mining : ComponentState;
  os_seed_dial : SeedDialObservation;
  os_fatal_boundary : option FatalStartupBoundary
}.

Definition launched (mining_enabled seeds_configured : bool) : NodeOperationalState :=
  mkOperational ProcessLaunched CStarting CStarting CStarting CStarting CStarting
    (if mining_enabled then CStarting else CDisabled)
    (if seeds_configured then ConfiguredNotSpawned else NotConfigured) None.

Definition advance (s : NodeOperationalState) (event : StartupEvent)
    : result InvalidTransition NodeOperationalState :=
  let '(mkOperational phase life conf chain p2p http mining seed fatal) := s in
  match phase, event with
  | ProcessLaunched, EvConfigurationLoaded =>
      Ok (mkOperational ConfigurationLoaded life CReady chain p2p http mining seed fatal)
  | ConfigurationLoaded, EvChainRecovered =>
      Ok (mkOperational ChainReady life conf CReady p2p http mining seed fatal)
  | ChainReady, EvP2pServicesStarted =>
      Ok (mkOperational P2pServicesStarted life conf chain CReady http mining
            (if bool_decide (seed = ConfiguredNotSpawned) then TasksSpawned else seed) fatal)
  | P2pServicesStarted, EvHttpListenerBound =>
      Ok (mkOperational HttpBound life conf chain p2p CReady mining seed fatal)
  | HttpBound, EvServicesReportedStarted =>
      Ok (mkOperational Operational CReady conf chain p2p http mining seed fatal)
  | _, _ => Err (mkInvalid phase event)
  end.

Definition record_fatal (s : NodeOperationalState) (boundary : FatalStartupBoundary)
    : result InvalidFailureTransition NodeOperationalState :=
  let '(mkOperational phase life conf chain p2p http mining seed _) := s in
  match phase, boundary with
  | ProcessLaunched, Configuration =>
      Ok (mkOperational PhaseFailed CFailed CFailed chain p2p http mining seed (Some boundary))
  | ConfigurationLoaded, ChainInitialization =>
      Ok (mkOperational PhaseFailed CFailed conf CFailed p2p http mining seed (Some boundary))
  | ChainReady, P2pListenerBind =>
      Ok (mkOperational PhaseFailed CFailed conf chain CFailed http mining seed (Some boundary))
  | P2pServicesStarted, HttpListenerBind =>
      Ok (mkOperational PhaseFailed CFailed conf chain p2p CFailed mining seed (Some boundary))
  | _, _ => Err (mkInvalidFailure phase boundary)
  end.

(** ** Reachable states *)
Inductive startup_step : NodeOperationalState → NodeOperationalState → Prop :=
| step_advance s e s' : advance s e = Ok s' → startup_step s s'
| step_fatal s b s' : record_fatal s b = Ok s' → startup_step s s'.

(** How far a component's boundary is before the phase. *)
Definition reached (p : StartupPhase) : nat :=
  match p with
  | ProcessLaunched => 0 | ConfigurationLoaded => 1 | ChainReady => 2 | P2pServicesStarted => 3
  | HttpBound => 4 | Operational => 5 | PhaseFailed => 0
  end.
Definition upto (n k : nat) : ComponentState := if (k <=? n)%nat then CReady else CStarting.

(** A component is ready exactly when its boundary has been passed; a failed
    state names the one failed component, and nothing after it is ready. *)
Definition consistent (s : NodeOperationalState) : Prop :=
  (os_phase s ≠ PhaseFailed ∧ os_fatal_boundary s = None ∧
   os_configuration s = upto (reached (os_phase s)) 1 ∧ os_chain s = upto (reached (os_phase s)) 2 ∧
   os_p2p_listener s = upto (reached (os_phase s)) 3 ∧ os_http_listener s = upto (reached (os_phase s)) 4 ∧
   os_lifecycle s = upto (reached (os_phase s)) 5) ∨
  (os_phase s = PhaseFailed ∧ os_lifecycle s = CFailed ∧ ∃ b, os_fatal_boundary s = Some b ∧
   match b with
   | Configuration => (os_configuration s, os_chain s, os_p2p_listener s, os_http_listener s) = (CFailed, CStarting, CStarting, CStarting)
   | ChainInitialization => (os_configuration s, os_chain s, os_p2p_listener s, os_http_listener s) = (CReady, CFailed, CStarting, CStarting)
   | P2pListenerBind => (os_configuration s, os_chain s, os_p2p_listener s, os_http_listener s) = (CReady, CReady, CFailed, CStarting)
   | HttpListenerBind => (os_configuration s, os_chain s, os_p2p_listener s, os_http_listener s) = (CReady, CReady, CReady, CFailed)
   end).

Lemma startup_step_consistent s s' : startup_step s s' → consistent s → consistent s'.
Proof.
  intros Hs [(Hp & Hf & H1 & H2 & H3 & H4 & H5)|(Hp & _)].
  - destruct Hs as [[ph ? ? ? ? ? ? ? ?] e ? E|[ph ? ? ? ? ? ? ? ?] b ? E]; simpl in *; subst.
    + destruct ph, e; try done; injection E as <-; left; unfold upto; simpl; by split_and!.
    + destruct ph, b; try done; injection E as <-; right; simpl; (split; [done|split; [done|by eexists]]).
  - destruct Hs as [[ph ? ? ? ? ? ? ? ?] e ? E|[ph ? ? ? ? ? ? ? ?] b ? E]; simpl in *; subst; done.
Qed.

Lemma startup_consistent mining seeds s : star startup_step (launched mining seeds) s → consistent s.
Proof.
  apply star_inv; [|by left; split_and!]. intros x y Hx Hs. exact (startup_step_consistent _ _ Hs Hx).
Qed.

(** Nothing follows the operational and the failed phases. *)
Lemma startup_terminal s s' : os_phase s = Operational ∨ os_phase s = PhaseFailed → ¬ startup_step s s'.
Proof.
  intros Hp Hs. destruct Hs as [[ph ? ? ? ? ? ? ? ?] e ? E|[ph ? ? ? ? ? ? ? ?] b ? E]; simpl in *;
    destruct Hp; subst; done.
Qed.
