(* ===== verification/Launch.v ===== *)
(** * Process start ([src/main.rs], [start_services] of [src/node/services.rs])

    From [main] to a serving node: the runtime, the settings, the data
    directory and the database, the shared state, the background tasks, and
    the API.  What the process finds around it (environment,
    file system, network interfaces, clocks) is a [Machine]. *)
From S2P Require Import Prelude Crypto Constants Transaction Block Genesis VisionX Sled ChainState Storage Snapshots Accept Manager Admission Pool Net Protocol Peers Sessions Recovery World Connection Sync Services Api Http Bootstrap Settings DataDir Orphan Consistency Acceptance Consensus Rules Rooted Mempool Heaviest Keeps System Restart.

(** ** The tasks a node runs *)
Inductive task :=
| ImportTask
| ListenerTask
| DialSupervisorTask (allow_private : bool)
| WatchdogTask
| MinerTask (miner_addr : string)
| InboundTask (addr : SocketAddr)
| SeedTask (peer_addr : string).

(** The accept loop: one handler for every connection accepted; a failed
    accept is only logged. *)
Definition run_listener (accepted : list (option SocketAddr)) : list task := InboundTask <$> omap id accepted.

(** The dialling supervisor over the candidates it has received. *)
Section supervisor.
Context {C : Crypto} {TC : TxCodec} {SL : Sled} {SC : StoreCodec}.
Context (m : P2PConnectionManager) (allow_private : bool).
Fixpoint peer_dial_supervisor (scheduled : gset string) (candidates : list string) : act (list task) :=
  match candidates with
  | [] => mret []
  | candidate :: candidates =>
      '(scheduled, peer_addr) ← dial_candidate m allow_private scheduled candidate;
      tasks ← peer_dial_supervisor scheduled candidates;
      mret (match peer_addr with Some peer_addr => SeedTask peer_addr :: tasks | None => tasks end)
  end.
End supervisor.

(** ** Start-up *)
Inductive StartError :=
| StartRuntime (e : RuntimeError)
| StartRuntimeBuild
| StartSettings (e : SettingsError)
| StartProbe              (* the routed-address probe failed *)
| StartNoRoutedIp         (* it found no routed address *)
| StartAutoPort (e : AutoPortError)
| StartDataDirectory (e : DataDirectoryError)
| StartDatabaseOpen (value : string) (effective : PathBuf)
| StartBoot (e : BootError)
| StartP2pAddress
| StartP2pBind (addr : SocketAddr)
| StartDiscoveryQueue
| StartHttpAddress
| StartHttpBind (addr : SocketAddr).

Section launch.
Context {C : Crypto} {TC : TxCodec} {SL : Sled} {SC : StoreCodec}.
Context (params : VisionXParams) (clock : nat → Z).

Record Machine := mkMachine {
  mc_env : string → option string;
  mc_parallelism : option Z;                (* [available_parallelism] *)
  mc_runtime_builds : bool;                 (* the Tokio runtime *)
  mc_local_addr : option IpAddr;            (* of the routed-address probe *)
  mc_current_dir : result IoErrorKind PathBuf;
  mc_host : Host;
  mc_open_db : string → option Db;          (* [sled::open] *)
  mc_nanos : Z;                             (* the wall clock, for the node's nonce *)
  mc_nonce_counter : Z;
  mc_instant : Z;                           (* [Instant::now] *)
  mc_bind : SocketAddr → bool;              (* [TcpListener::bind] *)
  mc_drained : list nat                     (* candidates the supervisor takes meanwhile *)
}.

Definition build_runtime (mc : Machine) : result StartError Z :=
  threads ← map_err StartRuntime
    (parse_worker_threads (default 4 (mc_parallelism mc)) (mc_env mc "TOKIO_WORKER_THREADS"));
  if mc_runtime_builds mc then Ok threads else Err StartRuntimeBuild.

Definition detect_routed_local_ip (mc : Machine) : result StartError IpAddr :=
  ip ← ok_or StartProbe (mc_local_addr mc);
  if is_unspecified ip || is_loopback ip then Err StartNoRoutedIp else Ok ip.
Definition resolve_auto_p2p_settings (mc : Machine) (settings : Settings) : result StartError Settings :=
  routed_ip ← (if p2p_auto_port settings then ip ← detect_routed_local_ip mc; Ok (Some ip) else Ok None);
  map_err StartAutoPort (resolve_auto_p2p_settings_for_ip settings routed_ip).

(** [initialize_chain_state], from the settings: the data directory, the
    database in it, and the chain state. *)
Definition open_chain_state (mc : Machine) (settings : Settings) : run (Host * result StartError Node) :=
  match prepare_data_directory (data_dir settings) (mc_current_dir mc) (mc_host mc) with
  | (h, Err e) => Done (h, Err (StartDataDirectory e))
  | (h, Ok effective) =>
      match mc_open_db mc (data_dir settings +:+ "/chain.db") with
      | None => Done (h, Err (StartDatabaseOpen (data_dir settings) effective))
      | Some d =>
          '(_, r) ← initialize_chain_state params clock d;
          Done (h, map_err StartBoot r)
      end
  end.

(** [try_send] of the configured seeds to the supervisor, which is running
    already. *)
Fixpoint queue_seeds (drained : list nat) (queue seeds : list string) : option (list string) :=
  match seeds with
  | [] => Some queue
  | seed :: seeds =>
      let queue := drop (default 0%nat (head drained)) queue in
      if (DISCOVERY_CAPACITY <=? length queue)%nat then None
      else queue_seeds (tail drained) (queue ++ [seed]) seeds
  end.

(** The connection manager, the discovery queue and the tasks. *)
Definition start_services (mc : Machine) (settings : Settings) (miner_manager : option MinerManager)
    : result StartError (P2PConnectionManager * list string * list task) :=
  p2p_addr ← ok_or StartP2pAddress (parse_socket (p2p_addr settings));
  let conn_mgr := with_peer_discovery (with_block_receiver
    (new_conn_manager_with_advertised p2p_addr (h_pid (mc_host mc)) (mc_nanos mc) (mc_nonce_counter mc)
       (p2p_advertised_host settings) (p2p_advertised_port settings) (allow_private_peer_addresses settings))) in
  if negb (mc_bind mc p2p_addr) then Err (StartP2pBind p2p_addr)
  else
    queue ← ok_or StartDiscoveryQueue (queue_seeds (mc_drained mc) [] (seed_peers settings));
    let miner := match miner_manager with
                 | Some _ => if mining_enabled settings then [MinerTask (miner_address settings)] else []
                 | None => []
                 end in
    Ok (conn_mgr, queue,
        [ImportTask; ListenerTask; DialSupervisorTask (allow_private_peer_addresses settings); WatchdogTask] ++ miner).

Record Running := mkRunning {
  rn_settings : Settings;
  rn_manager : P2PConnectionManager;
  rn_shared : Shared;
  rn_tasks : list task;
  rn_api : NodeApiState;
  rn_routes : list route
}.

(** What the tasks share when they start. *)
Definition initial_shared (settings : Settings) (n : Node) (miner : option MinerManager)
    (queue : list string) : Shared :=
  mkShared n (fold_left (λ pm addr, upsert pm addr true) (seed_peers settings) new_peer_manager)
    new_pool new_recovery new_registry miner (Some []) (Some queue) 0.

(** The wiring after the chain state is there. *)
Definition start_node (mc : Machine) (settings : Settings) (n : Node) : result StartError Running :=
  let miner_manager := if mining_enabled settings then Some (new_manager params (mc_instant mc)) else None in
  '(conn_mgr, queue, tasks) ← start_services mc settings miner_manager;
  let api_state := with_alpha_airdrop_enabled (alpha_airdrop_enabled settings)
    (with_recovery_state (with_peer_manager new_api_state)) in
  let api_state := match miner_manager with Some _ => with_miner_manager api_state | None => api_state end in
  http_addr ← ok_or StartHttpAddress (parse_socket (http_addr settings));
  if negb (mc_bind mc http_addr) then Err (StartHttpBind http_addr)
  else Ok (mkRunning settings conn_mgr (initial_shared settings n miner_manager queue) tasks api_state
             (api_router api_state)).

(** [async_main] up to [axum::serve]. *)
Definition async_main (mc : Machine) : run (Host * result StartError Running) :=
  match (settings ← map_err StartSettings (from_env (mc_env mc)); resolve_auto_p2p_settings mc settings) with
  | Err e => Done (mc_host mc, Err e)
  | Ok settings =>
      '(h, r) ← open_chain_state mc settings;
      Done (h, n ← r; start_node mc settings n)
  end.
(** [main]: every error ends the process with status 1. *)
Definition main (mc : Machine) : run (Host * result StartError Running) :=
  match build_runtime mc with
  | Err e => Done (mc_host mc, Err e)
  | Ok _ => async_main mc
  end.

End launch.

(** ** Theory *)

(** Up to the capacity of the queue, the seeds are all taken. *)
Lemma queue_seeds_room seeds : ∀ drained queue,
  (length queue + length seeds ≤ DISCOVERY_CAPACITY)%nat →
  ∃ q, queue_seeds drained queue seeds = Some q ∧ (length q ≤ DISCOVERY_CAPACITY)%nat.
Proof.
  induction seeds as [|seed seeds IH]; intros drained queue H; cbn [queue_seeds length] in *.
  { exists queue. split; [done|lia]. }
  set (q := drop (default 0%nat (head drained)) queue).
  assert (length q ≤ length queue)%nat as Hq by (unfold q; rewrite length_drop; lia).
  destruct (Nat.leb_spec DISCOVERY_CAPACITY (length q)); [lia|].
  apply IH. rewrite length_app. cbn [length]. lia.
Qed.

Section resolved.
Context {C : Crypto} {SL : Sled}.
(** The settings a process starts with: both listen addresses parse, and only
    the network identity differs from what the environment says. *)
Lemma resolve_auto_addresses (mc : Machine) s s' : from_env (mc_env mc) = Ok s →
  resolve_auto_p2p_settings mc s = Ok s' →
  ∃ http p2p, parse_socket (http_addr s') = Some (any_interface http) ∧
    parse_socket (p2p_addr s') = Some (any_interface p2p) ∧
    data_dir s' = data_dir s ∧ seed_peers s' = seed_peers s ∧ mining_enabled s' = mining_enabled s.
Proof.
  intros Hs E. destruct (settings_addresses _ _ Hs) as (http & p2p & _ & _ & Hh & Hp).
  unfold resolve_auto_p2p_settings in E. apply bind_Ok in E as (routed & _ & E).
  apply map_err_Ok in E. unfold resolve_auto_p2p_settings_for_ip in E. rewrite Hp in E.
  cbn [ok_or mbind result_bind] in E. exists http.
  destruct (p2p_auto_port s).
  - destruct routed as [ip|]; cbn [ok_or mbind result_bind] in E; [|done]. injection E as <-.
    exists (auto_p2p_port_for_ip ip). pose proof (auto_p2p_port_range ip) as [Hr1 Hr2].
    assert (parse_socket (show_socket (any_interface (auto_p2p_port_for_ip ip))) =
      Some (any_interface (auto_p2p_port_for_ip ip))) as Hv.
    { apply parse_show_v4; [repeat constructor; lia|]. unfold AUTO_P2P_PORT_MIN in Hr1. lia. }
    by destruct (p2p_advertised_port_auto _).
  - injection E as <-. exists p2p. by destruct (p2p_advertised_port_auto s).
Qed.
End resolved.

Section launched.
Context {C : Crypto} {CL : CryptoLaws C} {TC : TxCodec} {SL : Sled} {SLL : SledLaws SL}
  {SR : SledReliable SL} {SC : StoreCodec} {SCL : StoreCodecLaws SC}.
Context (params : VisionXParams) (clock : nat → Z) (N : string → Z).
Context (HN : N GENESIS_HASH = 0) (Hep : epoch_blocks params ≠ 0).

(** A machine on which start-up can succeed: the runtime builds, the settings
    are accepted and resolved, the data directory passes its checks, the
    database opens to [d], the ports are free, and the seeds fit the queue. *)
Record machine_ready (mc : Machine) (s : Settings) (h : Host) (d : Db) : Prop := {
  mr_runtime : is_ok (build_runtime mc) = true;
  mr_settings : (s0 ← map_err StartSettings (from_env (mc_env mc)); resolve_auto_p2p_settings mc s0) = Ok s;
  mr_directory : ∃ p, prepare_data_directory (data_dir s) (mc_current_dir mc) (mc_host mc) = (h, Ok p);
  mr_database : mc_open_db mc (data_dir s +:+ "/chain.db") = Some d;
  mr_ports a : mc_bind mc a = true;
  mr_seeds : (length (seed_peers s) ≤ DISCOVERY_CAPACITY)%nat
}.

Lemma initial_shared_ok s n miner queue : node_good params N n →
  (∀ mgr, miner = Some mgr → mm_params mgr = params) → (length queue ≤ DISCOVERY_CAPACITY)%nat →
  shared_ok params N (initial_shared s n miner queue).
Proof.
  intros Hn Hm Hq. split; cbn [initial_shared sh_node sh_pool sh_miner sh_inbound sh_registry sh_discovered].
  - exact Hn.
  - split; [apply pool_ok_new|apply one_per_slot_new].
  - intros mgr E. by rewrite (Hm _ E).
  - intros l b [= <-] Hb. by apply elem_of_nil in Hb.
  - exact new_queues_ok.
  - by intros q [= <-].
Qed.

Lemma start_node_ready mc s h d n : machine_ready mc s h d → node_good params N n →
  ∃ rn, start_node params mc s n = Ok rn ∧ rn_settings rn = s ∧ sh_node (rn_shared rn) = n ∧
    shared_ok params N (rn_shared rn).
Proof.
  intros [_ Hs _ _ Hb Hsd] Hn. apply bind_Ok in Hs as (s0 & Hs0%map_err_Ok & Hs).
  destruct (resolve_auto_addresses mc s0 s Hs0 Hs) as (http & p2p & Hh & Hp & _).
  destruct (queue_seeds_room (seed_peers s) (mc_drained mc) []) as (q & Eq & Hq); [done|].
  unfold start_node, start_services. rewrite Hp. cbn [ok_or mbind result_bind]. rewrite !Hb. cbn [negb].
  rewrite Eq. cbn [ok_or mbind result_bind]. rewrite Hh. cbn [ok_or mbind result_bind]. rewrite Hb. cbn [negb].
  eexists. split; [done|]. split; [done|]. split; [done|]. cbn [rn_shared].
  apply initial_shared_ok; [done| |done]. intros mgr. by destruct (mining_enabled s); intros [= <-].
Qed.

(** Over a database that start-up accepts, a ready machine comes to serve. *)
Lemma main_serves mc s h d d' n : machine_ready mc s h d →
  initialize_chain_state params clock d = Done (d', Ok n) → node_good params N n →
  ∃ rn, main params clock mc = Done (h, Ok rn) ∧ rn_settings rn = s ∧ sh_node (rn_shared rn) = n ∧
    shared_ok params N (rn_shared rn).
Proof.
  intros Hm E Hn. destruct (start_node_ready mc s h d n Hm Hn) as (rn & Es & H). exists rn. split; [|exact H].
  unfold main. pose proof (mr_runtime _ _ _ _ Hm) as Hrt. destruct (build_runtime mc); [|done].
  unfold async_main. rewrite (mr_settings _ _ _ _ Hm). unfold open_chain_state.
  destruct (mr_directory _ _ _ _ Hm) as [p ->]. rewrite (mr_database _ _ _ _ Hm), E.
  cbn [mbind run_bind map_err result_bind]. by rewrite Es.
Qed.
End launched.
