(* ===== verification/Lifecycle.v ===== *)
(** * The lives of a node

    A node is started on an empty database, runs, stops, and is started again
    on what it left, any number of times.  Each start is [main] of [Launch] on a
    machine and with clocks of its own; each run is a sequence of the steps of
    [System]; a stop can come between any two of them.  (A stop in the middle
    of a step, between two writes of one critical section, is not modelled.) *)
From S2P Require Import Prelude Crypto Constants Transaction Block StateRoot Genesis VisionX Sled ChainState Storage Snapshots Accept Manager Admission Pool Net Protocol Peers Sessions Recovery World Connection Sync Services Api Http Bootstrap Settings DataDir Reward Reorg Zeros Orphan Consistency Acceptance Consensus Rules Rooted Mempool Heaviest Keeps System DbIndep Restart Supply Restore FirstRun Launch.

(** ** Start-up keeps the records that no block touches *)
Section kept.
Context {C : Crypto} {CL : CryptoLaws C} {TC : TxCodec} {SL : Sled} {SLL : SledLaws SL} {SC : StoreCodec}.
Context (params : VisionXParams) (clock : nat → Z) (k : list byte) (Hk : foreign_key k).
Abbreviation stored n := (db_contents (db (n_chain n)) !! k).

Lemma reapply_foreign h b n n' r : reapply params clock h b n = Done (n', r) → stored n' = stored n.
Proof.
  intros E. unfold reapply in E. apply run_bind_Done in E as ([m r1] & E1 & E).
  rewrite <- (apply_block_foreign k Hk params clock _ _ _ _ _ E1).
  repeat case_match; by simplify_eq.
Qed.
Lemma replay_heights_foreign count : ∀ h n n' r,
  replay_heights params clock count h n = Done (n', r) → stored n' = stored n.
Proof.
  induction count as [|count IH]; intros h n n' r E; cbn [replay_heights] in E; [by simplify_eq|].
  destruct (load_block_at _ _) as [b|e]; [|by simplify_eq].
  apply run_bind_Done in E as ([m r1] & E1%reapply_foreign & E).
  destruct r1; [rewrite (IH _ _ _ _ E); done|by simplify_eq].
Qed.
Lemma reapply_all_foreign bs : ∀ n n' r, reapply_all params clock bs n = Done (n', r) → stored n' = stored n.
Proof.
  induction bs as [|b bs IH]; intros n n' r E; cbn [reapply_all] in E; [by simplify_eq|].
  apply run_bind_Done in E as ([m r1] & E1%reapply_foreign & E).
  destruct r1; [rewrite (IH _ _ _ E); done|by simplify_eq].
Qed.
Lemma recover_foreign h restored n n' r :
  recover_tail params clock h restored n = Done (n', r) → stored n' = stored n.
Proof.
  intros E. unfold recover_tail in E. destruct restored as [h0|e].
  - apply run_bind_Done in E as ([m r1] & E1 & E). injection E as <- _.
    unfold replay_stored_canonical_tail in E1. destruct (load_tip_height _) as [t|]; [|by simplify_eq].
    destruct (t <=? h0); [by simplify_eq|].
    apply run_bind_Done in E1 as ([m' r2] & E2%replay_heights_foreign & E1). by simplify_eq.
  - destruct (0 <? h); [|by simplify_eq].
    apply run_bind_Done in E as ([m r1] & E1 & E). injection E as <- _.
    unfold rebuild_canonical_state_from_genesis in E1. destruct (_ ≫= _) as [[t bs]|]; [|by simplify_eq].
    apply run_bind_Done in E1 as ([m' r2] & E2%reapply_all_foreign & E1). by simplify_eq.
Qed.
End kept.

Section lives.
Context {C : Crypto} {CL : CryptoLaws C} {TC : TxCodec} {TCL : TxCodecLaws TC} {SL : Sled} {SLL : SledLaws SL}
  {SR : SledReliable SL} {SC : StoreCodec} {SCL : StoreCodecLaws SC}.
Context (params : VisionXParams) (N : string → Z).
Context (HN : N GENESIS_HASH = 0) (Hep : epoch_blocks params ≠ 0).
Context (Hread : ∀ d, reads_ok d) (Hv : validate_genesis_hash = Ok ()).
Abbreviation node_good := (node_good params N).
Abbreviation shared_ok := (shared_ok params N).

(** What a start relies on besides the database being that of a node: no block
    of the stored chain lies beyond the clock's limit, and stored snapshots
    bind their accounts. *)
Definition stored_chain (d : Db) (bs : list Block) : Prop :=
  canonical GENESIS_HASH bs ∧ Forall loadable bs ∧ mirrors (db_contents d) bs.
Record startable (clock : nat → Z) (d : Db) : Prop := {
  sa_times bs b k : stored_chain d bs → b ∈ bs → b_number b ≠ 0 →
    b_timestamp b ≤ wadd64 (clock k) MAX_FUTURE_TIMESTAMP_SECS;
  sa_snapshots bs : stored_chain d bs → snapshots_bound d bs
}.
Lemma node_good_stored n : node_good n → stored_chain (db (n_chain n)) (blocks (n_chain n)).
Proof.
  intros Hn. pose proof (no_chain _ _ _ (ng_ok _ _ _ Hn)) as Hg. split_and!.
  - apply (co_canon _ _ _ Hg).
  - eapply Forall_impl; [apply (co_blocks _ _ _ Hg)|by intros b []].
  - apply (co_db _ _ _ Hg).
Qed.

(** The databases the lives leave behind. *)
Inductive lives : Db → Prop :=
| no_life d : db_contents d = ∅ → lives d
| one_life d clock instant mc s h rn tj aj s' : lives d → machine_ready mc s h d → startable clock d →
    main params clock mc = Done (h, Ok rn) →
    star (system_step params clock instant N (rn_manager rn) tj aj) (rn_shared rn) s' →
    lives (db (sh_chain s')).

(** Starting again finds the marker where it was. *)
Lemma restart_marker clock n news n' d' : stopped params clock N n news →
  initialize_chain_state params clock (db (n_chain n)) = Done (d', Ok n') →
  db_contents (db (n_chain n')) !! genesis_key = Some (string_bytes GENESIS_HASH).
Proof.
  intros Hrs E. destruct (open_run params clock N n news Hv Hrs) as (g & Hrl & _ & E').
  rewrite E in E'. cbv zeta in E'.
  destruct (restore_latest_snapshot _ _) as [g' r] eqn:Er.
  assert (db g' = db (n_chain n)) as Hd.
  { rewrite <- (rl_db _ _ _ Hrl). apply restore_latest_cases in Er.
    destruct r; [|by subst g']. destruct Er as (_ & b & nn & rt & _ & ->).
    unfold install_snapshot. by destruct (rebuild_maps _ _ _ _). }
  symmetry in E'. apply run_bind_Done in E' as ([m r1] & E1 & E').
  apply (recover_foreign params clock _ genesis_key_foreign) in E1. cbn [fresh_node n_chain] in E1.
  destruct r1; [|done]. injection E' as _ <-. rewrite E1, Hd. exact (rs_marker _ _ _ _ _ Hrs).
Qed.

(** ** A good node leaves a database from which a good node starts *)
Lemma node_good_stopped clock n : node_good n → startable clock (db (n_chain n)) →
  ∃ news, stopped params clock N n news.
Proof.
  intros Hgood [Ht _]. pose proof (node_good_stored _ Hgood) as Hd. pose proof Hd as (Hc & _ & _).
  destruct Hgood as [Hn Hr [Hf Hm] _].
  destruct (blocks (n_chain n)) as [|b0 news] eqn:Eb; [done|]. injection Hf as ->. exists news.
  split; [done|done|done|exact Hm|apply Hread|]. intros b k Hb. apply (Ht _ _ k Hd); [by right|].
  apply list_elem_of_lookup in Hb as [i Hi]. pose proof (cn_number _ _ Hc (S i) b Hi). lia.
Qed.
Lemma good_restart clock d0 n : db_contents d0 = ∅ → node_good n → startable clock (db (n_chain n)) →
  ∃ n', initialize_chain_state params clock (db (n_chain n)) = Done (db (n_chain n'), Ok n') ∧ node_good n' ∧
    mirrors (db_contents (db (n_chain n))) (blocks (n_chain n')).
Proof.
  intros Hd0 Hn Hs. destruct (node_good_stopped _ _ Hn Hs) as [news Hst].
  pose proof (node_good_stored _ Hn) as Hd.
  destruct (restart_run params clock N HN Hep Hread d0 n news Hd0 Hv Hst (sa_snapshots _ _ Hs _ Hd))
    as (n' & E & Hn' & Hr' & Hh' & Hb').
  exists n'. split; [exact E|]. split; [|rewrite Hb'; apply Hd].
  split; [done|done| |done]. split; [rewrite Hb'; apply (rt_first _ (ng_rooted _ _ _ Hn))|].
  exact (restart_marker clock n news n' _ Hst E).
Qed.
Lemma fresh_start clock d : db_contents d = ∅ →
  ∃ n', initialize_chain_state params clock d = Done (db (n_chain n'), Ok n') ∧ node_good n' ∧
    blocks (n_chain n') = [genesis_block].
Proof.
  intros Hd. destruct (first_start params clock N HN Hread Hv d Hd) as (n & E & Hn & Hr & Ho & Hc & Hb).
  exists n. split; [done|]. split; [|done]. split; [done..|]. intros _ Hc'. by destruct Hc.
Qed.

Lemma lives_empty d : lives d → ∃ d0, db_contents d0 = ∅.
Proof. induction 1; eauto. Qed.
(** What a start on such a database yields. *)
Lemma life_start clock d0 d : db_contents d0 = ∅ → startable clock d →
  db_contents d = ∅ ∨ (∃ n, node_good n ∧ db (n_chain n) = d) →
  ∃ n', initialize_chain_state params clock d = Done (db (n_chain n'), Ok n') ∧ node_good n' ∧
    (mirrors (db_contents d) (blocks (n_chain n')) ∨ db_contents d = ∅ ∧ blocks (n_chain n') = [genesis_block]).
Proof.
  intros Hd0 Hs [Hd|(n & Hn & <-)].
  - destruct (fresh_start clock d Hd) as (n' & E & Hn' & Hb). exists n'. auto.
  - destruct (good_restart clock d0 n Hd0 Hn Hs) as (n' & E & Hn' & Hb). exists n'. auto.
Qed.
Lemma lives_good d : lives d → db_contents d = ∅ ∨ ∃ n, node_good n ∧ db (n_chain n) = d.
Proof.
  induction 1 as [d Hd|d clock instant mc s h rn tj aj s' Hd IH Hm Hs E Hrun]; [by left|right].
  destruct (lives_empty d Hd) as [d0 Hd0].
  destruct (life_start clock d0 d Hd0 Hs IH) as (n' & Ei & Hn' & _).
  destruct (main_serves params clock N Hep mc s h d _ n' Hm Ei Hn') as (rn' & E' & _ & _ & Hsh).
  rewrite E in E'. injection E' as <-. exists (sh_node s'). split; [|done].
  apply (sh_good params N), (system_steps_ok params clock instant N (rn_manager rn) tj aj HN Hep _ _ Hrun Hsh).
Qed.

(** ** Properties *)

(** C40: A node survives any number of lives.  Take an empty database, or one
    that any number of successive lives left behind: each a start of [main] on
    a ready machine, a run of the tasks in whatever interleaving, and a stop at
    any point between their steps; in every life the peers hand over blocks
    with truthful heights only (what else they say is free) and no client uses
    the development airdrop; the database can be read and refuses no write.
    The database must be [startable]: the blocks of the chain it stores are not
    beyond the clock's limit and its snapshots are bound to that chain, as in
    C37.  Then on a ready machine the next start reaches the serving state
    without error or panic; it serves the chain the database stores (the
    genesis block, if that is empty), with the accounts of that chain; the
    shared state its tasks start from is good, every state they can bring it to
    under the same conditions is good too, and a stop there leaves a database
    of the same kind. *)
Theorem every_life_serves d clock instant tj aj mc s h :
  lives d → startable clock d → machine_ready mc s h d →
  ∃ rn, main params clock mc = Done (h, Ok rn) ∧ rn_settings rn = s ∧
    (mirrors (db_contents d) (blocks (sh_chain (rn_shared rn))) ∨
     db_contents d = ∅ ∧ blocks (sh_chain (rn_shared rn)) = [genesis_block]) ∧
    (∃ st, replay_blocks empty_exec (blocks (sh_chain (rn_shared rn))) = Ok st ∧
       st ≡ accounts (sh_chain (rn_shared rn))) ∧
    ∀ s', star (system_step params clock instant N (rn_manager rn) tj aj) (rn_shared rn) s' →
      shared_ok s' ∧ lives (db (sh_chain s')).
Proof.
  intros Hd Hs Hm. destruct (lives_empty d Hd) as [d0 Hd0].
  destruct (life_start clock d0 d Hd0 Hs (lives_good d Hd)) as (n & E & Hn & Hb).
  destruct (main_serves params clock N Hep mc s h d _ n Hm E Hn) as (rn & Em & Hset & Hsh & Hok).
  exists rn. unfold sh_chain. rewrite Hsh. split; [exact Em|]. split; [exact Hset|]. split; [exact Hb|].
  split; [exact (co_accounts _ _ _ (no_chain _ _ _ (ng_ok _ _ _ Hn)))|].
  intros s' Hrun. split; [exact (system_steps_ok params clock instant N (rn_manager rn) tj aj HN Hep _ _ Hrun Hok)|].
  exact (one_life d clock instant mc s h rn tj aj s' Hd Hm Hs Em Hrun).
Qed.
End lives.

(** ** Two lives, evaluated *)
Section rooted_lives.
#[local] Existing Instances rooted_crypto rooted_crypto_laws toy_steady toy_steady_laws toy_steady_reliable.
Definition toy_machine (d : contents_map) : Machine :=
  mkMachine (λ _, None) None true None (Ok ["srv"]) (toy_host toy_tree)
    (λ _, Some d) 0 0 0 (λ _, true) [].
Definition toy_settings : Settings :=
  Eval vm_compute in match from_env (λ _, None) with Ok s => s | Err _ => mkSettings "" "" "" false None None false false "" false 0 false [] end.
Definition toy_launched : Host := (prepare_data_directory "./data" (Ok ["srv"]) (toy_host toy_tree)).1.

Lemma toy_machine_ready d : machine_ready (toy_machine d) toy_settings toy_launched d.
Proof.
  split.
  - vm_compute. reflexivity.
  - vm_compute. reflexivity.
  - exists ["srv"; "."; "data"]. unfold toy_launched.
    assert ((prepare_data_directory "./data" (Ok ["srv"]) (toy_host toy_tree)).2 = Ok ["srv"; "."; "data"]) as E
      by (vm_compute; reflexivity).
    change (data_dir toy_settings) with "./data". change (mc_current_dir (toy_machine d)) with (Ok (E := IoErrorKind) ["srv"]).
    change (mc_host (toy_machine d)) with (toy_host toy_tree).
    revert E. destruct (prepare_data_directory _ _ _) as [h r]. cbn [fst snd]. by intros ->.
  - reflexivity.
  - reflexivity.
  - vm_compute. repeat constructor.
Qed.


Lemma rooted_valid : validate_genesis_hash (C := rooted_crypto) = Ok ().
Proof. vm_compute. reflexivity. Qed.
Lemma toy_reads (d : contents_map) : reads_ok d.
Proof. intros k. eexists. reflexivity. Qed.
(** A database with at most the records of the first start. *)
Lemma sparse_startable (d : contents_map) : d = ∅ ∨ d = genesis_records → startable toy_clock d.
Proof.
  intros Hd. assert (∀ k v, d !! k = Some v →
    k ∈ [genesis_key; tip_hash_key; tip_height_key; height_key 0; block_key (block_hash genesis_block)]) as Hk.
  { intros k v Hk. destruct Hd as [->| ->]; [by rewrite lookup_empty in Hk|by eapply genesis_records_key]. }
  assert (∀ k, k ∉ [genesis_key; tip_hash_key; tip_height_key; height_key 0; block_key (block_hash genesis_block)] →
    d !! k = None) as Hnone.
  { intros k Hn. destruct (d !! k) as [v|] eqn:E; [|done]. by apply Hk in E. }
  assert (∀ bs, stored_chain d bs → bs = [] ∨ bs = [genesis_block]) as Hbs.
  { intros bs (Hc & Hl & Hm). destruct bs as [|b [|b' bs]]; [by left|right|exfalso].
    - pose proof (cn_root _ _ Hc b eq_refl) as Hr. pose proof (mi_block _ _ Hm b ltac:(left)) as Hb.
      change (d !! block_key (block_hash b) = Some (bincode_block b)) in Hb. rewrite Hr in Hb.
      destruct Hd as [->| ->]; [by rewrite lookup_empty in Hb|].
      pose proof (mi_block _ _ first_mirrors genesis_block ltac:(left)) as Hb'.
      change (block_hash genesis_block) with GENESIS_HASH in Hb'.
      assert (bincode_block b = bincode_block genesis_block) as Eb by congruence. apply Forall_singleton in Hl as [Hw _].
      pose proof (unbincode_bincode_block b Hw) as E1.
      pose proof (unbincode_bincode_block genesis_block genesis_block_wf) as E2.
      rewrite Eb, E2 in E1. by injection E1 as <-.
    - pose proof (Storage.mi_height _ _ Hm 1%nat b' eq_refl) as Hh. apply Hk in Hh.
      repeat (apply elem_of_cons in Hh as [E|Hh]; [by apply (inj string_bytes) in E|]). by apply elem_of_nil in Hh. }
  split.
  - intros bs b k H Hb Hn. destruct (Hbs bs H) as [->| ->]; [by apply elem_of_nil in Hb|].
    apply list_elem_of_singleton in Hb as ->. by destruct Hn.
  - intros bs H. apply Hbs in H.
    assert (∀ g h b, db g = d → read_map unbincode_balances g (snap_balances_key h) = Ok b → b = ∅) as Hbal.
    { intros g h b E Er. unfold read_map, db_read in Er. rewrite E in Er. cbn [db_get toy_steady] in Er.
      rewrite Hnone in Er; [by injection Er|]. rewrite !elem_of_cons, elem_of_nil.
      intros [F|[F|[F|[F|[F|[]]]]]]; by apply (inj string_bytes) in F. }
    assert (∀ g h b, db g = d → read_map unbincode_nonces g (snap_nonces_key h) = Ok b → b = ∅) as Hnon.
    { intros g h b E Er. unfold read_map, db_read in Er. rewrite E in Er. cbn [db_get toy_steady] in Er.
      rewrite Hnone in Er; [by injection Er|]. rewrite !elem_of_cons, elem_of_nil.
      intros [F|[F|[F|[F|[F|[]]]]]]; by apply (inj string_bytes) in F. }
    assert (∀ k st, replay_blocks empty_exec (take k bs) = Ok st → st = empty_exec) as Hst.
    { intros k st E. destruct H as [->| ->]; [by rewrite take_nil in E; injection E|].
      destruct k; [by injection E|]. cbn [take] in E. rewrite take_nil in E. by injection E. }
    split.
    + apply Hnone. rewrite !elem_of_cons, elem_of_nil.
      intros [F|[F|[F|[F|[F|[]]]]]]; by apply (inj string_bytes) in F.
    + intros g h b n E ->%Hbal ->%Hnon; [|done..]. apply accounts_wf_check. vm_compute. reflexivity.
    + intros k st ->%Hst. vm_compute. by split.
    + intros g h b n k st v w E ->%Hbal ->%Hnon ->%Hst Ev Ew _; [|done..]. cbn [empty_exec es_balances es_nonces] in Ew. congruence.
Qed.

(** The second of two lives. *)
Lemma second_life :
  ∃ d, lives tiny_params toy_N d ∧ startable toy_clock d ∧ d = genesis_records.
Proof.
  pose proof (no_life tiny_params toy_N (∅ : contents_map) eq_refl) as H0.
  destruct (first_start_run (SL := toy_steady) (SLL := toy_steady_laws) tiny_params toy_clock toy_reads rooted_valid
    (∅ : contents_map) eq_refl) as (d & Hd & E). change (d = genesis_records) in Hd. subst d.
  destruct (fresh_start (SL := toy_steady) (SLL := toy_steady_laws) tiny_params toy_N eq_refl toy_reads rooted_valid
    toy_clock (∅ : contents_map) eq_refl) as (n & E' & Hn & _).
  destruct (main_serves (SL := toy_steady) (SLL := toy_steady_laws) tiny_params toy_clock toy_N ltac:(discriminate) (toy_machine ∅) toy_settings toy_launched ∅ _ n
    (toy_machine_ready ∅) E' Hn) as (rn & Em & _ & Hsh & _).
  rewrite E in E'. injection E' as E1 E2.
  exists (db (sh_chain (rn_shared rn))). split; [|unfold sh_chain; rewrite Hsh, <- E1; split; [apply sparse_startable; by right|done]].
  eapply (one_life tiny_params toy_N ∅ toy_clock (λ _, 0) (toy_machine ∅) toy_settings toy_launched rn (λ _, None) (λ _, None));
    [exact H0|apply toy_machine_ready|apply sparse_startable; by left|exact Em|apply star_refl].
Qed.

Lemma every_life_serves_witness :
  ∃ d rn, db_contents d ≠ ∅ ∧ main tiny_params toy_clock (toy_machine d) = Done (toy_launched, Ok rn) ∧
    mirrors (db_contents d) (blocks (sh_chain (rn_shared rn))).
Proof.
  destruct second_life as (d & Hl & Hs & Hd). exists d.
  destruct (every_life_serves (SL := toy_steady) (SLL := toy_steady_laws) tiny_params toy_N eq_refl ltac:(discriminate) toy_reads
    rooted_valid d toy_clock (λ _, 0) (λ _, None) (λ _, None) (toy_machine d) toy_settings toy_launched
    Hl Hs (toy_machine_ready d)) as (rn & E & _ & Hb & _).
  assert (d ≠ ∅) as Hne by (rewrite Hd; discriminate).
  exists rn. split; [exact Hne|]. split; [exact E|]. destruct Hb as [Hb|[Hb _]]; [exact Hb|by destruct Hne].
Defined.
End rooted_lives.
